(* ===== verification/_CoqProject ===== *)
-Q . S2P
Prelude.v
Text.v
Stream.v
ByteStream.v
BitWriter.v
Charset.v
CArray.v
Registry.v
Token.v
PPrint.v
Parser.v
Validity.v
Combinators.v
Packrat.v
Peg.v
PegFacts.v
PackratCorrect.v
PackratDefects.v
HashTable.v
SArray.v
Slist.v
Platform.v
Arena.v
Regex.v
RegexDebug.v
RegexVM.v
RegexCompile.v
RegexDefects.v
Desugar.v
Grammar.v
DesugarWf.v
DesugarLang.v
DesugarFacts.v
StringMap.v
CfGrammar.v
GrammarPrint.v
FirstSets.v
FirstFacts.v
Consumed.v
PegLang.v
PegTotal.v
RegexStack.v
RegexSeg.v
RegexLang.v
RegexSafe.v
ParseTokens.v
LLkTable.v
LLkTableFacts.v
LLk.v
LLkFacts.v
LLkDefects.v
Driver.v
Chunks.v
LLkChunks.v
LR.v
HashKeys.v
LRDriver.v
LRChunks.v
LRSound.v
LRBounds.v
LR0.v
Extends.v
LR0Facts.v
DFACheck.v
LRTableFacts.v
LALR.v
LALRFacts.v
CompileLang.v
LRPrint.v
GLR.v
Compile.v
GLRFacts.v
LRDefects.v
