(* ===== verification/Prelude.v ===== *)
(** Hammer: a verification development of the parser library under src/src.

    Hammer builds parsers from combinators at run time and runs them on one of
    several back ends. This development translates the C code into executable
    functions and proves what the parts promise each other.

    ** The program and the files that model it

    - Prelude: outcomes of C code (a result, a fault, or the model's own
      exhausted bound), a state monad, machine integers.
    - Stream: bitreader.c (h_read_bits, the only access to the input).
    - BitWriter: bitwriter.c.
    - Charset: HCharset in internal.h and its users in parsers/charset.c.
    - CArray, Slist, SArray, HashTable: the containers of datastructures.c and
      internal.h. HashTable states its promise as a class, [MapImpl].
    - Arena: allocator.c. Platform: system_allocator.c and the stop watch of
      platform_bsdlike.c.
    - Token: tokens and parse results (hammer.h), actions and accessors (glue.c).
    - Text: characters and the conversions of fprintf. Registry: the numbers of
      token types (registry.c). PPrint: the printers of tokens (pprint.c).
    - Parser: the parser objects, one constructor of [parser_env] per vtable of
      parsers/*.c, the constructors h_xxx__m, isValidRegular and isValidCF.
    - Validity: well-formed graphs of parsers and what the two checks answer.
    - Combinators: the parse function of every vtable.
    - Packrat: backends/packrat.c. PackratCorrect proves it against Peg,
      PackratDefects runs it on concrete grammars.
    - Peg, PegFacts: the abstract specification, parsing expressions over the
      input stream.
    - Regex: backends/regex.c with the compile_to_rvm functions and the stack
      actions of parsers/*.c. RegexCompile is about the compiler, RegexVM about
      the byte machine, RegexDefects about both together. RegexStack is about
      what code does to the stack of tokens, RegexSeg describes stretches of
      code by what they read and do, RegexLang the code that the compiler makes
      of a parser, RegexSafe runs of it from end to end.
    - Desugar: desugar.c, backends/contextfree.h and the desugar and reshape
      functions of parsers/*.c. DesugarFacts is about the reshape functions,
      DesugarWf shows that the grammars are well formed, DesugarLang that they
      derive what the combinators describe.
    - Grammar: the specification of desugared grammars, what a symbol derives,
      and the sets that the table generators approximate.
    - ByteStream: byte-aligned streams, as the table-driven back ends read.
    - StringMap: HStringMap, tries of strings of lookahead (cfgrammar.c, .h).
    - CfGrammar: HCFGrammar, its nonterminals and those that derive the empty
      string (cfgrammar.c).
    - FirstSets: h_first, h_follow, h_predict (cfgrammar.c); FirstFacts.
    - ParseTokens: the tokens that the drivers of the LL(k) and LR back ends can
      hand to the callbacks of a symbol, and when a callback stops the program.
    - LLkTable: the table of backends/llk.c; LLkTableFacts.
    - LLk: the driver of backends/llk.c; LLkFacts has the theorem from a grammar
      to the parse, LLkDefects grammars on which the back end goes wrong.
    - PegLang: packrat parses and the language of the combinators; PegTotal:
      when they answer. CompileLang: parses by the LL(k) and LALR back ends and
      the same language.
    - LR: items, item sets, transitions, actions and tables (backends/lr.h,
      lr.c). LRDriver: the engine and the parse functions of lr.c.
    - LR0: the automaton and the LR(0) table (lr0.c). LALR: the enhanced grammar
      and the resolution of conflicts (lalr.c). GLR: the generalised driver
      (glr.c), with its engines in a heap.
    - LRSound: what an automaton and a table promise, and the driver on such a
      table; LRBounds: how long it runs. DFACheck: an executable check of an
      automaton that implies the promise. LRTableFacts: the LR(0) table keeps
      it, LALRFacts: h_lalr_compile keeps it, with the end-to-end theorem.
      HashKeys (tables under any comparison of keys), Extends and LR0Facts
      (heaps of choices that grow) and Consumed (what a driver has read) serve
      them. GLRFacts: the generalised driver on a table without conflicts.
      LRDefects: grammars on which the back ends go wrong.
    - GrammarPrint: the printers of grammars, sets and string maps
      (cfgrammar.c); LRPrint: those of items, automata and tables (lr.c);
      RegexDebug: dumps of programs and traces (regex_debug.c).
    - Compile: the back end of a parser (hammer.c: h_compile and the dispatch of
      h_parse) over the compile, parse and free functions of all five, with the
      memory of the programs and tables that they make.
    - Driver: hammer.c (h_parse and the resumable parse) over the functions of a
      back end, a class, with their contract as another class, [Incremental];
      LLkChunks is the instance for LL(1), LRChunks for the LR driver, Chunks
      what they share.

    ** How state and operations correspond

    A C function that can stop the program or read outside an object returns an
    [outcome]. A function that changes an object passes a state: the parser
    graph ([list HParser], a parser is an index), the parse state
    ([HParseState], with heaps for result objects, cache values and left
    recursion records, since the code shares and updates them), the program
    under construction ([HRVMProg]), the grammar under construction ([dstate]).
    NULL is [None]. A callback of the user (action, predicate, continuation) is
    a function; a parser returned by a continuation is added to the graph.
    Allocation is a parameter of Arena, BitWriter and the regular back end; the
    other parts take it to succeed. Memory that is freed while something still
    points at it is tracked where the code does that: the nodes of string maps
    know their arena, a table knows the arenas deleted since ([tb_freed]), and
    Compile has the blocks of the objects of the back ends; reading what is
    freed is the fault [UseAfterFree]. Elsewhere memory is never reused, and a
    parser that a continuation made keeps its address. Integers are [Z] with their wrap-around
    written out where the code can reach it ([wrapu], [wraps]); left shifts of
    signed integers are taken to wrap, shift counts outside the width are the
    fault [BadShift].

    ** Bounds

    A recursion through parsers takes [fuel], its depth; a loop whose length
    depends on the input takes its own bound ([lf] in Combinators and Packrat,
    [vm_fuel] in Regex). More fuel never changes a result ([⊑ₘ]). Where the
    code ends, a theorem gives a bound that is enough: [cf_fuel] for isValidCF,
    the address of the parser for isValidRegular and h_regex_compile, [vm_fuel]
    for the threads of one byte, [tok_depth] for recursions through tokens, the
    size of the heap for lists, the number of nonterminals for collect_nts and
    collect_geneps, [first_fuel] for the nested calls of h_first and h_follow.
    The LL(k) driver ends without left recursion. The LR driver ends within
    [lr_bound] rounds without empty productions and unit cycles ([size_check]).
    [closure_fuel], the number of items, bounds the closure of an item set; the
    number of states of an automaton is an argument. The packrat parser need not end (left recursion
    through the specification, repetition of the empty match); the refinement
    theorem gives the result at every bound at which the specification has one,
    and PegTotal shows that it has one, and which bounds are enough, for graphs
    without cycles in which repetitions read ([no_idle_loops]).

    ** What the theorems show

    - Bits: what h_read_bits returns for every cursor and 1 to 64 bits, when it
      is safe, that reads compose, that the writer's fields are read back; the
      two ways in which it leaves defined behaviour or its contract.
    - Containers and memory: each implements its abstract type (finite map,
      list, set of bytes, fresh disjoint memory) with its invariant.
    - Packrat: memoisation and left recursion detection do not change what a
      grammar means, for parsers that depend on the stream only ([memo_safe]),
      whatever parses have filled the cache before ([warm]).
    - Validity: both checks end on cyclic graphs; regular implies context-free.
    - Regular back end: compiled programs are safe, and an allocator that refuses
      changes nothing but that the compiler jumps at the first refusal
      ([limited]); the machine ends on programs
      and accepts only along paths of the program, which read exactly the
      language of the parser; the replay of a trace does not fault when the
      parsers that are ignored or picked leave a token ([leaves]).
    - Desugaring: reshape functions rebuild what the packrat parser returns, and
      end; the grammars are well formed; desugaring succeeds on the parsers that
      it supports and preserves their language.
    - The language of the combinators ([env_language]) joins the back ends: what
      a packrat, regular, LL(k) or LALR parse consumes is a string of it.
    - Grammars and LL(k): the sets, the table and the driver are sound for the
      language of the grammar in every order of the hash tables (they are not
      complete: LLkDefects), and chunks give what the whole input gives. Tables
      for more than one symbol of lookahead can hold memory of the grammar that
      h_llk_compile frees; the theorems about parses take those that do not
      ([rows_alive], checked by evaluation; llk_lookahead_freed is one that does).
    - Tokens and faults of table-driven parses: the result is the token that the
      callbacks make along a derivation of what was read ([made]), and when a
      parse faults it is the callback of a symbol, on the token of that symbol
      for the last bytes read ([callback_fault]); it is not a reshape function
      when those fit the sequences of the grammar ([reshapes_fit], checked by
      evaluation).
    - Back ends: h_compile frees what the parser owns, once, and the data of a
      parser are a live object of its back end (lalr_failure_leaks: what is lost).
    - LALR: a table that h_lalr_compile returns as free of conflicts drives the
      parser soundly and safely, whatever lookahead was computed. The item sets
      of the automaton are validated ([dfa_check]) and not derived from the
      construction, because its hash table of states compares item sets with
      h_hashset_equal, which is not an equality. Chunks give what the whole
      input gives here too.
    - Defects: concrete inputs on which the code departs from its purpose or
      its documentation; each is evaluated, none is needed by another theorem.

    ** Not modelled

    The formatted printing and the clocks of the platform layer, which are calls
    into the C library and the system; the language bindings, the examples and
    the tests. Further work on what is modelled: the language of parsers with
    indirect parsers, completeness of the LALR tables, and the tokens, beyond
    their kind, of the regular back end. *)

From Stdlib Require Export ZArith Lia.
From stdpp Require Export base list numbers gmap option.

#[global] Set Default Goal Selector "!".

Declare Scope hammer_scope.
Delimit Scope hammer_scope with hm.

(** * Outcomes of C code

    A run of a C function ends normally, stops the program ([assert],
    [assert_message], [h_platform_errx]) or has undefined behaviour (a NULL
    dereference, a read outside an object, a shift by a count outside the
    width).  [OutOfFuel] is the model's own: the recursion bound was reached. *)

Inductive fault :=
| AssertFail    (** [assert] or [assert_message] *)
| Errx          (** [h_platform_errx] *)
| NullDeref     (** NULL pointer used as an object or a function *)
| OutOfBounds   (** access outside an array *)
| BadShift      (** shift count negative or at least the width *)
| UseAfterFree  (** access to memory of an arena that was deleted *)
| Longjmp.      (** [longjmp], caught by the caller's [setjmp] *)

#[global] Instance fault_eq_dec : EqDecision fault.
Proof. solve_decision. Defined.

Inductive outcome (A : Type) :=
| Ok (a : A)
| Fault (f : fault)
| OutOfFuel.
Arguments Ok {A} a.
Arguments Fault {A} f.
Arguments OutOfFuel {A}.

#[global] Instance outcome_ret : MRet outcome := fun A a => Ok a.
#[global] Instance outcome_bind : MBind outcome := fun A B k m =>
  match m with
  | Ok a => k a
  | Fault f => Fault f
  | OutOfFuel => OutOfFuel
  end.

(** [assert(b)] *)
Definition assert_ok (b : bool) : outcome unit :=
  if b then Ok tt else Fault AssertFail.

(** [p->...]: a NULL pointer is [None] *)
Definition deref {A} (f : fault) (o : option A) : outcome A :=
  match o with Some a => Ok a | None => Fault f end.

(** * A state monad over [outcome] *)

Definition ST (S A : Type) : Type := S -> outcome (A * S).

#[global] Instance ST_ret S : MRet (ST S) := fun A a s => Ok (a, s).
#[global] Instance ST_bind S : MBind (ST S) := fun A B k m s =>
  match m s with
  | Ok (a, s') => k a s'
  | Fault f => Fault f
  | OutOfFuel => OutOfFuel
  end.

Definition get {S} : ST S S := fun s => Ok (s, s).
Definition gets {S A} (f : S -> A) : ST S A := fun s => Ok (f s, s).
Definition modify {S} (f : S -> S) : ST S unit := fun s => Ok (tt, f s).
Definition lift {S A} (o : outcome A) : ST S A := fun s =>
  match o with
  | Ok a => Ok (a, s)
  | Fault f => Fault f
  | OutOfFuel => OutOfFuel
  end.
Definition throw {S A} (f : fault) : ST S A := fun _ => Fault f.
Definition out_of_fuel {S A} : ST S A := fun _ => OutOfFuel.

(** ** Inversion of successful runs *)

Lemma outcome_bind_ok {A B} (m : outcome A) (k : A -> outcome B) b :
  (m ≫= k) = Ok b -> exists a, m = Ok a /\ k a = Ok b.
Proof. destruct m as [a|?|]; simpl; [eauto|discriminate..]. Qed.

Lemma ST_bind_ok {S A B} (m : ST S A) (k : A -> ST S B) s b s' :
  (m ≫= k) s = Ok (b, s') ->
  exists a s1, m s = Ok (a, s1) /\ k a s1 = Ok (b, s').
Proof.
  unfold mbind, ST_bind. destruct (m s) as [[a s1]|?|]; [eauto|discriminate..].
Qed.

Lemma lift_ok {S A} (o : outcome A) (s : S) a s' :
  lift o s = Ok (a, s') -> o = Ok a /\ s' = s.
Proof. unfold lift. destruct o; [intros [= -> ->]; done|discriminate..]. Qed.

Lemma and_keep (P Q : Prop) : P -> (P -> Q) -> P /\ Q.
Proof. auto. Qed.

Lemma deref_ok {A} f (o : option A) a : deref f o = Ok a -> o = Some a.
Proof. destruct o; simpl; congruence. Qed.

Lemma assert_ok_inv b u : assert_ok b = Ok u -> b = true.
Proof. destruct b; simpl; congruence. Qed.

(** ** Runs that end *)

Definition ends {A} (o : outcome A) : Prop := o <> OutOfFuel.

Lemma ends_ok {A} (a : A) : ends (Ok a).
Proof. done. Qed.
Lemma ends_fault {A} f : ends (@Fault A f).
Proof. done. Qed.
Lemma ends_deref {A} f (o : option A) : ends (deref f o).
Proof. by destruct o. Qed.
Lemma ends_assert b : ends (assert_ok b).
Proof. by destruct b. Qed.
Lemma ends_bind {A B} (m : outcome A) (k : A -> outcome B) :
  ends m -> (forall a, m = Ok a -> ends (k a)) -> ends (m ≫= k).
Proof. unfold ends. destruct m; simpl; auto. Qed.

Create HintDb ends.
#[export] Hint Resolve ends_ok ends_fault ends_deref ends_assert ends_bind : ends.

(** Opens existentials and conjunctions in the hypotheses. *)
Ltac deex :=
  repeat match goal with
  | H : exists x, _ |- _ => let x' := fresh x in destruct H as [x' H]
  | H : _ /\ _ |- _ => destruct H
  end.

(** Inverts one successful bind, return, lift, deref or assert. *)
Ltac ok_inv1 :=
  match goal with
  | H : (_ ≫= _) _ = Ok _ |- _ =>
      apply ST_bind_ok in H; destruct H as (? & ? & ? & H)
  | H : (_ ≫= _) = Ok _ |- _ =>
      apply outcome_bind_ok in H; destruct H as (? & ? & H)
  | H : lift _ _ = Ok _ |- _ => apply lift_ok in H; destruct H as [H ?]
  | H : deref _ _ = Ok _ |- _ => apply deref_ok in H
  | H : assert_ok _ = Ok _ |- _ => apply assert_ok_inv in H
  | H : get _ = Ok _ |- _ => injection H as ? ?
  | H : gets _ _ = Ok _ |- _ => injection H as ? ?
  | H : modify _ _ = Ok _ |- _ => injection H as ? ?
  | H : mret _ _ = Ok _ |- _ => injection H as ? ?
  | H : mret _ = Ok _ |- _ => injection H as ?
  | H : throw _ _ = Ok _ |- _ => discriminate H
  | H : out_of_fuel _ = Ok _ |- _ => discriminate H
  end.
Ltac ok_inv := repeat (ok_inv1; subst).

(** ** The order of fuel

    [m1 ⊑ m2]: where [m1] has enough fuel, [m2] does the same. Every loop and
    recursion of the development is monotone in it. *)

Definition outcome_le {A} (o1 o2 : outcome A) : Prop := o1 = OutOfFuel \/ o1 = o2.
Definition ST_le {S A} (m1 m2 : ST S A) : Prop := forall s, outcome_le (m1 s) (m2 s).
Infix "⊑ₘ" := ST_le (at level 70).

#[global] Instance outcome_le_preorder {A} : PreOrder (@outcome_le A).
Proof. split; [by right|]. intros o1 o2 o3 [->| ->]; [by left|done]. Qed.
#[global] Instance ST_le_preorder {S A} : PreOrder (@ST_le S A).
Proof.
  split; [by intros m s; right|]. intros m1 m2 m3 H1 H2 s.
  etrans; [apply H1|apply H2].
Qed.

Lemma ST_le_ok {S A} (m1 m2 : ST S A) s r : m1 ⊑ₘ m2 -> m1 s = Ok r -> m2 s = Ok r.
Proof. intros H E. destruct (H s) as [H'|H']; congruence. Qed.

Lemma ST_le_bind {S A B} (m1 m2 : ST S A) (k1 k2 : A -> ST S B) :
  m1 ⊑ₘ m2 -> (forall a, k1 a ⊑ₘ k2 a) -> (m1 ≫= k1) ⊑ₘ (m2 ≫= k2).
Proof.
  intros Hm Hk s. unfold mbind, ST_bind. destruct (Hm s) as [->| ->]; [by left|].
  destruct (m2 s) as [[a s']|f|]; [apply Hk|by right..].
Qed.

Lemma ST_le_out_of_fuel {S A} (m : ST S A) : out_of_fuel ⊑ₘ m.
Proof. intros s. by left. Qed.

Create HintDb fuel_order.
#[export] Hint Resolve ST_le_out_of_fuel : fuel_order.
#[export] Hint Extern 0 (?m ⊑ₘ ?m) => reflexivity : fuel_order.

(** Walks two programs of the same shape down to their recursive calls. *)
Ltac fuel_mono :=
  repeat first
    [ reflexivity
    | solve [eauto with fuel_order]
    | apply ST_le_bind; [|intros ?]
    | case_match ].

(** * Machine integers

    A w-bit unsigned integer is a [Z] in [0, 2^w); a w-bit signed one is a
    [Z] in [-2^(w-1), 2^(w-1)), two's complement. *)

Open Scope Z_scope.

Definition wrapu (w z : Z) : Z := z mod 2 ^ w.
Definition wraps (w z : Z) : Z := (z + 2 ^ (w - 1)) mod 2 ^ w - 2 ^ (w - 1).

Abbreviation uint8 := (wrapu 8).
Abbreviation uint16 := (wrapu 16).
Abbreviation uint32 := (wrapu 32).
Abbreviation uint64 := (wrapu 64).
Abbreviation sint32 := (wraps 32).
Abbreviation sint64 := (wraps 64).

(** A shift of a w-bit operand: the count must be in [0, w). *)
Definition shl_ok (w n : Z) : outcome unit :=
  if (0 <=? n) && (n <? w) then Ok tt else Fault BadShift.

Lemma wrapu_small w z : 0 <= z < 2 ^ w -> wrapu w z = z.
Proof. intros. apply Z.mod_small. lia. Qed.

Lemma wrapu_range w z : 0 <= w -> 0 <= wrapu w z < 2 ^ w.
Proof. intros. apply Z.mod_pos_bound. lia. Qed.

Lemma pow2_half w : 0 < w -> 2 ^ w = 2 * 2 ^ (w - 1).
Proof. intros. rewrite <- Z.pow_succ_r by lia. f_equal. lia. Qed.

Lemma wraps_small w z :
  0 < w -> - 2 ^ (w - 1) <= z < 2 ^ (w - 1) -> wraps w z = z.
Proof.
  intros Hw Hz. unfold wraps. pose proof (pow2_half w Hw).
  rewrite Z.mod_small; lia.
Qed.

Lemma wraps_range w z : 0 < w -> - 2 ^ (w - 1) <= wraps w z < 2 ^ (w - 1).
Proof.
  intros Hw. unfold wraps. pose proof (pow2_half w Hw).
  pose proof (Z.mod_pos_bound (z + 2 ^ (w - 1)) (2 ^ w)). lia.
Qed.

Lemma wraps_mod w z : 0 < w -> wraps w z mod 2 ^ w = z mod 2 ^ w.
Proof.
  intros Hw. unfold wraps. rewrite Zminus_mod, Z.mod_mod by lia.
  rewrite <- Zminus_mod. f_equal. lia.
Qed.

Lemma wraps_eqm w a b :
  a mod 2 ^ w = b mod 2 ^ w -> wraps w a = wraps w b.
Proof.
  intros H. unfold wraps. f_equal.
  rewrite Zplus_mod, H, <- Zplus_mod. done.
Qed.

Lemma shl_ok_true w n : 0 <= n < w -> shl_ok w n = Ok tt.
Proof.
  intros. unfold shl_ok.
  rewrite (proj2 (Z.leb_le 0 n)), (proj2 (Z.ltb_lt n w)) by lia. done.
Qed.

Lemma shl_ok_inv w n u : shl_ok w n = Ok u -> 0 <= n < w.
Proof. unfold shl_ok. destruct (Z.leb_spec 0 n), (Z.ltb_spec n w); simpl; [lia|discriminate..]. Qed.

(** ** Bit arithmetic *)

Lemma land_ones_mod x n : 0 <= n -> Z.land x (2 ^ n - 1) = x mod 2 ^ n.
Proof.
  intros. rewrite <- Z.land_ones by lia. f_equal.
  rewrite Z.ones_equiv. lia.
Qed.

Lemma shiftl_1_ones n : 0 <= n -> Z.shiftl 1 n - 1 = 2 ^ n - 1.
Proof. intros. rewrite Z.shiftl_1_l. done. Qed.

Lemma land_shiftl_low a b n :
  0 <= n -> 0 <= b < 2 ^ n -> Z.land (Z.shiftl a n) b = 0.
Proof.
  intros Hn Hb. apply Z.bits_inj'; intros i Hi. rewrite Z.land_spec, Z.bits_0.
  destruct (Z.ltb_spec i n).
  - rewrite Z.shiftl_spec_low by lia. done.
  - rewrite <- (Z.mod_small b (2 ^ n)), Z.mod_pow2_bits_high, andb_false_r by lia. done.
Qed.

(** Disjoint operands: [lor] is addition. *)
Lemma lor_shiftl_add a b n :
  0 <= n -> 0 <= b < 2 ^ n -> Z.lor (Z.shiftl a n) b = a * 2 ^ n + b.
Proof.
  intros Hn Hb. rewrite <- Z.lxor_lor, <- Z.add_nocarry_lxor by (by apply land_shiftl_low).
  by rewrite Z.shiftl_mul_pow2.
Qed.

(** * Loops over a list with a state *)

Fixpoint for_each {A S} (f : A -> S -> outcome S) (l : list A) (s : S) : outcome S :=
  match l with
  | [] => Ok s
  | x :: l => s ← f x s; for_each f l s
  end.

Lemma for_each_app {A S} (f : A -> S -> outcome S) l1 l2 s :
  for_each f (l1 ++ l2) s = (s ← for_each f l1 s; for_each f l2 s).
Proof.
  revert s. induction l1 as [|x l1 IH]; intros s; [done|]. simpl.
  destruct (f x s); simpl; [apply IH|done|done].
Qed.

(** [P] holds of the elements done and the state. *)
Lemma for_each_ind {A S} (P : list A -> S -> Prop) (f : A -> S -> outcome S) l s :
  P [] s ->
  (forall done x rest s, l = done ++ x :: rest -> P done s ->
     exists s', f x s = Ok s' /\ P (done ++ [x]) s') ->
  exists s', for_each f l s = Ok s' /\ P l s'.
Proof.
  intros H0 Hstep.
  assert (forall done rest s, l = done ++ rest -> P done s ->
            exists s', for_each f rest s = Ok s' /\ P l s') as Hgen; [|by apply (Hgen [])].
  clear s H0. intros done_ rest. revert done_.
  induction rest as [|x rest IH]; intros done_ s El HP.
  - exists s. rewrite El, app_nil_r. by split.
  - destruct (Hstep done_ x rest s El HP) as (s1 & E1 & H1). simpl. rewrite E1. simpl.
    apply (IH (done_ ++ [x])); [by rewrite <- app_assoc|done].
Qed.

(** A loop that ended has an invariant that each of its steps keeps. *)
Lemma for_each_inv {A S} (P : S -> Prop) (f : A -> S -> outcome S) l s s' :
  (forall x s s', x ∈ l -> P s -> f x s = Ok s' -> P s') ->
  P s -> for_each f l s = Ok s' -> P s'.
Proof.
  revert s. induction l as [|x l IH]; simpl; intros s Hf Hs H; [by simplify_eq|].
  destruct (f x s) as [s1| |] eqn:E; simpl in H; try done.
  apply (IH s1); [intros; eapply Hf; [by right|done..]|by eapply Hf; [left|..]|done].
Qed.

(** The same with the elements done. *)
Lemma for_each_done {A S} (P : list A -> S -> Prop) (f : A -> S -> outcome S) l s s' :
  (forall done x s s', x ∈ l -> P done s -> f x s = Ok s' -> P (done ++ [x]) s') ->
  P [] s -> for_each f l s = Ok s' -> P l s'.
Proof.
  intros Hf Hs H.
  assert (forall rest done s, l = done ++ rest -> P done s -> for_each f rest s = Ok s' -> P l s')
    as Hgen; [|by apply (Hgen l [] s)].
  clear s Hs H. induction rest as [|x rest IH]; simpl; intros done_ s El HP H.
  - simplify_eq. by rewrite app_nil_r.
  - destruct (f x s) as [s1| |] eqn:E; simpl in H; try done.
    apply (IH (done_ ++ [x]) s1); [by rewrite <- app_assoc| |done].
    eapply Hf; [|done..]. rewrite El. apply elem_of_app. by right; left.
Qed.

Lemma for_each_concat {A S} (f : A -> S -> outcome S) ll s :
  for_each (for_each f) ll s = for_each f (concat ll) s.
Proof.
  revert s. induction ll as [|l ll IH]; intros s; [done|]. simpl. rewrite for_each_app.
  destruct (for_each f l s); simpl; [apply IH|done|done].
Qed.

(** The pigeonhole principle. *)
Lemma nodup_bounded (l : list nat) n :
  NoDup l -> (forall x, x ∈ l -> (x < n)%nat) -> (length l <= n)%nat.
Proof.
  intros Hl Hn. rewrite <- (length_seq n 0). apply submseteq_length, NoDup_submseteq; [done|].
  intros x Hx. apply elem_of_seq. specialize (Hn x Hx). lia.
Qed.
