(* ===== verification/Text.v ===== *)
(** Text as the code prints it: lists of character codes, and the conversions
    of fprintf that it uses. *)

From Stdlib Require Import Ascii String.
From S2P Require Import Prelude.

Definition text : Type := list Z.

(** A string literal. *)
Fixpoint lit (s : string) : text :=
  match s with
  | EmptyString => []
  | String c s => Z.of_nat (nat_of_ascii c) :: lit s
  end.

(** [%*s] of the empty string: a negative width adjusts to the left. *)
Definition spaces (width : Z) : text := replicate (Z.to_nat (Z.abs width)) 32.

(** The digits of [n] in the base [b], the most significant first; [fuel] is
    the number of digits that there can be. *)
Fixpoint digits (fuel : nat) (b n : Z) : list Z :=
  match fuel with
  | O => []
  | S fuel => if n <? b then [n] else digits fuel b (n / b) ++ [n mod b]
  end.

Definition hex_lower (d : Z) : Z := if d <? 10 then 48 + d else 87 + d.
Definition hex_upper (d : Z) : Z := if d <? 10 then 48 + d else 55 + d.

Definition fmt_hex (n : Z) : text := hex_lower <$> digits 64 16 n.    (** [%lx] *)
Definition fmt_alt_hex (n : Z) : text :=                               (** [%#lx] *)
  if n =? 0 then [48] else lit "0x" ++ fmt_hex n.
Definition fmt_dec (n : Z) : text := (fun d => 48 + d) <$> digits 64 10 n.   (** [%zu] *)
Definition fmt_byte (b : Z) : text := [hex_lower (b / 16); hex_lower (b mod 16)].        (** [%02hhx] *)
Definition fmt_BYTE (b : Z) : text := [hex_upper (b / 16); hex_upper (b mod 16)].        (** [%.2X] *)
(** [%4zu] *)
Definition fmt_dec4 (n : Z) : text := replicate (4 - length (fmt_dec n)) 32 ++ fmt_dec n.

(** [isprint] in the C locale. *)
Definition isprint (c : Z) : bool := (32 <=? c) && (c <=? 126).

(** * Facts *)

Definition digits_value (b : Z) (l : list Z) : Z := foldl (fun v d => v * b + d) 0 l.

Lemma digits_value_snoc b l d : digits_value b (l ++ [d]) = digits_value b l * b + d.
Proof. unfold digits_value. by rewrite foldl_app. Qed.

Lemma digits_ok fuel : forall b n,
  1 < b -> 0 <= n < b ^ Z.of_nat fuel ->
  digits_value b (digits fuel b n) = n /\ Forall (fun d => 0 <= d < b) (digits fuel b n) /\
  ((0 < fuel)%nat -> digits fuel b n <> []).
Proof.
  induction fuel as [|fuel IH]; intros b n Hb Hn.
  - simpl in *. unfold digits_value. simpl. split_and!; [lia|constructor|lia].
  - cbn [digits]. rewrite Nat2Z.inj_succ, Z.pow_succ_r in Hn by lia.
    destruct (Z.ltb_spec n b) as [Hlt|Hge].
    + unfold digits_value. simpl. split_and!; [lia|repeat constructor; lia|done].
    + destruct (IH b (n / b)) as (Hv & Hd & _); [done|split; [apply Z.div_pos; lia|]|].
      { apply Z.div_lt_upper_bound; lia. }
      rewrite digits_value_snoc, Hv. pose proof (Z.div_mod n b). pose proof (Z.mod_pos_bound n b).
      split_and!; [lia| |by intros _ [_ ?]%app_nil].
      apply Forall_app. split; [done|]. by repeat constructor; lia.
Qed.

Lemma digits_inj fuel b n m :
  1 < b -> 0 <= n < b ^ Z.of_nat fuel -> 0 <= m < b ^ Z.of_nat fuel ->
  digits fuel b n = digits fuel b m -> n = m.
Proof.
  intros Hb Hn Hm E. destruct (digits_ok fuel b n Hb Hn) as [<- _].
  destruct (digits_ok fuel b m Hb Hm) as [<- _]. by rewrite E.
Qed.

Lemma hex_lower_inj d e : 0 <= d < 16 -> 0 <= e < 16 -> hex_lower d = hex_lower e -> d = e.
Proof. unfold hex_lower. intros. destruct (Z.ltb_spec d 10), (Z.ltb_spec e 10); lia. Qed.
Lemma hex_upper_inj d e : 0 <= d < 16 -> 0 <= e < 16 -> hex_upper d = hex_upper e -> d = e.
Proof. unfold hex_upper. intros. destruct (Z.ltb_spec d 10), (Z.ltb_spec e 10); lia. Qed.

Lemma fmap_inj_range {A B} (P : A -> Prop) (f : A -> B) l1 : forall l2,
  (forall x y, P x -> P y -> f x = f y -> x = y) -> Forall P l1 -> Forall P l2 ->
  f <$> l1 = f <$> l2 -> l1 = l2.
Proof.
  intros l2 Hf H1. revert l2. induction H1 as [|x l1 Hx _ IH]; intros [|y l2] H2 E; simplify_eq/=; [done|].
  apply Forall_cons_1 in H2 as [Hy H2]. f_equal; [by apply Hf|by apply IH].
Qed.

Lemma two_digits b : 0 <= b < 256 -> 0 <= b / 16 < 16 /\ 0 <= b mod 16 < 16.
Proof.
  intros Hb. split; [|by apply Z.mod_pos_bound]. split; [apply Z.div_pos; lia|].
  apply Z.div_lt_upper_bound; lia.
Qed.

Lemma fmt_byte_inj b c : 0 <= b < 256 -> 0 <= c < 256 -> fmt_byte b = fmt_byte c -> b = c.
Proof.
  intros Hb Hc [= H1 H2]. pose proof (two_digits b Hb). pose proof (two_digits c Hc).
  apply hex_lower_inj in H1, H2; [|lia..]. pose proof (Z.div_mod b 16). pose proof (Z.div_mod c 16). lia.
Qed.

Lemma fmt_BYTE_inj b c : 0 <= b < 256 -> 0 <= c < 256 -> fmt_BYTE b = fmt_BYTE c -> b = c.
Proof.
  intros Hb Hc [= H1 H2]. pose proof (two_digits b Hb). pose proof (two_digits c Hc).
  apply hex_upper_inj in H1, H2; [|lia..]. pose proof (Z.div_mod b 16). pose proof (Z.div_mod c 16). lia.
Qed.

Lemma fmt_hex_inj n m : 0 <= n < 2 ^ 64 -> 0 <= m < 2 ^ 64 -> fmt_hex n = fmt_hex m -> n = m.
Proof.
  intros Hn Hm E. assert (2 ^ 64 < 16 ^ Z.of_nat 64) by done.
  destruct (digits_ok 64 16 n) as (_ & Hdn & _); [lia..|].
  destruct (digits_ok 64 16 m) as (_ & Hdm & _); [lia..|].
  apply (fmap_inj_range (fun d => 0 <= d < 16)) in E; [|apply hex_lower_inj|done..].
  apply digits_inj in E; lia.
Qed.

(** Texts that are followed by different kinds of characters. *)
Lemma split_at_class (P : Z -> Prop) l1 l2 r1 r2 :
  Forall P l1 -> Forall P l2 -> (forall c r, r1 = c :: r -> ~ P c) -> (forall c r, r2 = c :: r -> ~ P c) ->
  l1 ++ r1 = l2 ++ r2 -> l1 = l2 /\ r1 = r2.
Proof.
  intros H1. revert l2. induction H1 as [|x l1 Hx _ IH]; intros [|y l2] H2 Hr1 Hr2 E; simplify_eq/=.
  - done.
  - apply Forall_cons_1 in H2 as [Hy _]. by destruct (Hr1 y (l2 ++ r2)).
  - by destruct (Hr2 x (l1 ++ r1)).
  - apply Forall_cons_1 in H2 as [_ H2]. destruct (IH l2) as [-> ->]; [done..|]. done.
Qed.
