(* ===== verification/Stream.v ===== *)
(** Input streams and the bit reader (src/src/internal.h: HInputStream,
    h_input_stream_pos; src/src/bitreader.c: h_read_bits).

    The stream is a value, copied and restored by the parsers; the buffer it
    points to is the list [is_input].  [h_read_bits] is the code's loop
    nest: a fast path for whole bytes, a slow path that assembles segments,
    with shifts checked and 64-bit results wrapped.  The specification side is
    [be_bits]/[le_bits], the bit strings a reader of either order sees. *)

From S2P Require Import Prelude.

(** * Data *)

Definition BYTE_BIG_ENDIAN : Z := 1.
Definition BIT_BIG_ENDIAN : Z := 2.

Record HInputStream := mkStream {
  is_input : list Z;      (** bytes at [input] *)
  is_pos : Z;
  is_index : Z;
  is_length : Z;
  is_bit_offset : Z;
  is_margin : Z;
  is_endianness : Z;
  is_overrun : bool;
  is_last_chunk : bool;
}.

#[global] Instance HInputStream_eq_dec : EqDecision HInputStream.
Proof. solve_decision. Defined.

Definition set_cursor (s : HInputStream) (index bit_offset margin : Z) : HInputStream :=
  mkStream (is_input s) (is_pos s) index (is_length s) bit_offset margin
    (is_endianness s) (is_overrun s) (is_last_chunk s).

Definition set_overrun (s : HInputStream) (b : bool) : HInputStream :=
  mkStream (is_input s) (is_pos s) (is_index s) (is_length s) (is_bit_offset s)
    (is_margin s) (is_endianness s) b (is_last_chunk s).

Definition set_endianness (s : HInputStream) (e : Z) : HInputStream :=
  mkStream (is_input s) (is_pos s) (is_index s) (is_length s) (is_bit_offset s)
    (is_margin s) e (is_overrun s) (is_last_chunk s).

(** [state->endianness & flag] *)
Definition has_flag (flag e : Z) : bool := negb (Z.land e flag =? 0).

(** [h_input_stream_pos]: position in bits *)
Definition h_input_stream_pos (s : HInputStream) : Z :=
  is_index s * 8 + is_bit_offset s + is_margin s.

(** * The reader *)

(** [state->input[state->index]] *)
Definition input_at (s : HInputStream) : outcome Z :=
  deref OutOfBounds (is_input s !! Z.to_nat (is_index s)).

Definition next_byte (s : HInputStream) : HInputStream :=
  set_cursor s (is_index s + 1) (is_bit_offset s) (is_margin s).

(** [while (count > 0) { count -= 8; out = (out << 8) | input[index++]; }] *)
Fixpoint read_fast_be (fuel : nat) (s : HInputStream) (count out : Z)
    : outcome (HInputStream * Z) :=
  if count <=? 0 then Ok (s, out) else
  match fuel with
  | O => OutOfFuel
  | S fuel =>
      b ← input_at s;
      read_fast_be fuel (next_byte s) (count - 8)
        (Z.lor (sint64 (Z.shiftl out 8)) b)
  end.

(** [for (i = 0; count > 0; i += 8) { count -= 8; out |= (int64_t)input[index++] << i; }] *)
Fixpoint read_fast_le (fuel : nat) (s : HInputStream) (count out i : Z)
    : outcome (HInputStream * Z) :=
  if count <=? 0 then Ok (s, out) else
  match fuel with
  | O => OutOfFuel
  | S fuel =>
      b ← input_at s;
      _ ← shl_ok 64 i;
      read_fast_le fuel (next_byte s) (count - 8)
        (Z.lor out (sint64 (Z.shiftl b i))) (i + 8)
  end.

(** One segment: the stream after it, its bits and its length. *)
Definition read_segment (s : HInputStream) (count : Z)
    : outcome (HInputStream * Z * Z) :=
  let bo := is_bit_offset s in
  let mg := is_margin s in
  if has_flag BIT_BIG_ENDIAN (is_endianness s) then
    if 8 <=? count + bo + mg then
      let segment_len := 8 - bo - mg in
      b ← input_at s;
      _ ← shl_ok 32 mg;
      _ ← shl_ok 32 segment_len;
      Ok (set_cursor s (is_index s + 1) 0 0,
          Z.land (Z.shiftr b mg) (Z.shiftl 1 segment_len - 1), segment_len)
    else
      let segment_len := count in
      let bo' := wraps 8 (bo + count) in
      b ← input_at s;
      _ ← shl_ok 32 (8 - bo');
      _ ← shl_ok 32 segment_len;
      Ok (set_cursor s (is_index s) bo' mg,
          Z.land (Z.shiftr b (8 - bo')) (Z.shiftl 1 segment_len - 1), segment_len)
  else
    if 8 <=? count + bo + mg then
      let segment_len := 8 - bo - mg in
      b ← input_at s;
      _ ← shl_ok 32 bo;
      _ ← shl_ok 32 segment_len;
      Ok (set_cursor s (is_index s + 1) 0 0,
          Z.land (Z.shiftr b bo) (Z.shiftl 1 segment_len - 1), segment_len)
    else
      let segment_len := count in
      b ← input_at s;
      _ ← shl_ok 32 bo;
      _ ← shl_ok 32 segment_len;
      Ok (set_cursor s (is_index s) (wraps 8 (bo + segment_len)) mg,
          Z.land (Z.shiftr b bo) (Z.shiftl 1 segment_len - 1), segment_len).

(** The slow path: [while (count) { ... }]. *)
Fixpoint read_slow (fuel : nat) (s : HInputStream) (count out offset : Z)
    : outcome (HInputStream * Z) :=
  if count =? 0 then Ok (s, out) else
  match fuel with
  | O => OutOfFuel
  | S fuel =>
      '(s', segment, segment_len) ← read_segment s count;
      if has_flag BYTE_BIG_ENDIAN (is_endianness s) then
        _ ← shl_ok 64 segment_len;
        read_slow fuel s' (count - segment_len)
          (Z.lor (sint64 (Z.shiftl out segment_len)) segment) offset
      else
        _ ← shl_ok 64 offset;
        read_slow fuel s' (count - segment_len)
          (Z.lor out (sint64 (Z.shiftl segment offset))) (offset + segment_len)
  end.

(** The overrun check: stream, bits to read and final shift. [bits_left] is
    an [int], first in bytes, then in bits. *)
Definition check_overrun (s : HInputStream) (count : Z) : HInputStream * Z * Z :=
  let bytes_left := sint32 (is_length s - is_index s) in
  if bytes_left <=? 64 then
    let bits_left := sint32 (sint32 (Z.shiftl bytes_left 3) - is_bit_offset s - is_margin s) in
    if bits_left <? count then
      (set_overrun s true, bits_left,
       if has_flag BYTE_BIG_ENDIAN (is_endianness s) then count - bits_left else 0)
    else (s, count, 0)
  else (s, count, 0).

(** The three loops: which one runs, and its result. *)
Definition read_loop (s : HInputStream) (count : Z) : outcome (HInputStream * Z) :=
  let fuel := S (Z.to_nat count) in
  if (Z.land (is_bit_offset s) 7 =? 0) && (Z.land count 7 =? 0) && (is_margin s =? 0) then
    if has_flag BYTE_BIG_ENDIAN (is_endianness s)
    then read_fast_be fuel s count 0
    else read_fast_le fuel s count 0 0
  else read_slow fuel s count 0 0.

Definition h_read_bits (s : HInputStream) (count : Z) (signed_p : bool)
    : outcome (Z * HInputStream) :=
  _ ← shl_ok 64 (count - 1);
  let msb := sint64 (Z.shiftl (if signed_p then 1 else 0) (count - 1)) in
  let '(s1, count1, final_shift) := check_overrun s count in
  '(s2, out) ← read_loop s1 count1;
  _ ← shl_ok 64 final_shift;
  Ok (sint64 (Z.lxor (sint64 (Z.shiftl out final_shift)) msb - msb), s2).

(** * Specification: bit strings *)

Definition byte_at (input : list Z) (i : Z) : Z := default 0 (input !! Z.to_nat i).

(** Bit [k] of the stream when bytes are read from the top bit down. *)
Definition bit_be (input : list Z) (k : Z) : Z :=
  byte_at input (k / 8) / 2 ^ (7 - k mod 8) mod 2.
(** Bit [k] when bytes are read from the bottom bit up. *)
Definition bit_le (input : list Z) (k : Z) : Z :=
  byte_at input (k / 8) / 2 ^ (k mod 8) mod 2.

(** [n] bits from position [p], the first one the most significant. *)
Fixpoint be_bits (input : list Z) (p : Z) (n : nat) : Z :=
  match n with
  | O => 0
  | S n => 2 * be_bits input p n + bit_be input (p + Z.of_nat n)
  end.
(** [n] bits from position [p], the first one the least significant. *)
Fixpoint le_bits (input : list Z) (p : Z) (n : nat) : Z :=
  match n with
  | O => 0
  | S n => le_bits input p n + bit_le input (p + Z.of_nat n) * 2 ^ Z.of_nat n
  end.

(** The value of [n] bits read as signed or unsigned, as an [int64_t]. *)
Definition read_value (n : Z) (signed_p : bool) (v : Z) : Z :=
  if signed_p then (if 2 ^ (n - 1) <=? v then v - 2 ^ n else v) else sint64 v.

(** The bit position of a stream with no margin, and the stream moved there. *)
Definition bit_pos (s : HInputStream) : Z := is_index s * 8 + is_bit_offset s.
Definition seek (s : HInputStream) (p : Z) : HInputStream :=
  set_cursor s (p / 8) (p mod 8) 0.

Definition byte (b : Z) : Prop := 0 <= b < 256.

(** Well-formed streams: the cursor is inside the buffer, and the buffer is
    shorter than [INT_MAX]. *)
Record stream_wf (s : HInputStream) : Prop := {
  wf_length : is_length s = Z.of_nat (length (is_input s));
  wf_bytes : Forall byte (is_input s);
  wf_small : is_length s < 2 ^ 27;
  wf_index : 0 <= is_index s;
  wf_bits : 0 <= is_bit_offset s /\ 0 <= is_margin s /\ is_bit_offset s + is_margin s < 8;
  wf_end : is_index s * 8 + is_bit_offset s + is_margin s <= is_length s * 8;
}.

(** ** Lemmas on bit strings *)

Lemma be_bits_app input p n m :
  be_bits input p (n + m) =
  be_bits input p n * 2 ^ Z.of_nat m + be_bits input (p + Z.of_nat n) m.
Proof.
  induction m as [|m IH].
  - rewrite Nat.add_0_r. simpl. lia.
  - rewrite Nat.add_succ_r. cbn [be_bits]. rewrite IH.
    replace (p + Z.of_nat (n + m)) with (p + Z.of_nat n + Z.of_nat m) by lia.
    rewrite Nat2Z.inj_succ, Z.pow_succ_r by lia. lia.
Qed.

Lemma le_bits_app input p n m :
  le_bits input p (n + m) =
  le_bits input p n + le_bits input (p + Z.of_nat n) m * 2 ^ Z.of_nat n.
Proof.
  induction m as [|m IH].
  - rewrite Nat.add_0_r. simpl. lia.
  - rewrite Nat.add_succ_r. cbn [le_bits]. rewrite IH.
    replace (p + Z.of_nat (n + m)) with (p + Z.of_nat n + Z.of_nat m) by lia.
    rewrite Nat2Z.inj_add, Z.pow_add_r by lia. lia.
Qed.

Lemma be_bits_range input p n : 0 <= be_bits input p n < 2 ^ Z.of_nat n.
Proof.
  induction n as [|n IH]; [simpl; lia|]. cbn [be_bits].
  assert (0 <= bit_be input (p + Z.of_nat n) < 2) by (apply Z.mod_pos_bound; lia).
  rewrite Nat2Z.inj_succ, Z.pow_succ_r by lia. lia.
Qed.

Lemma le_bits_range input p n : 0 <= le_bits input p n < 2 ^ Z.of_nat n.
Proof.
  induction n as [|n IH]; [simpl; lia|]. cbn [le_bits].
  assert (0 <= bit_le input (p + Z.of_nat n) < 2) by (apply Z.mod_pos_bound; lia).
  rewrite Nat2Z.inj_succ, Z.pow_succ_r by lia. nia.
Qed.

Lemma mod_pow2_succ_low y n :
  0 <= n -> y mod 2 ^ Z.succ n = 2 * (y / 2 mod 2 ^ n) + y mod 2.
Proof.
  intros. rewrite Z.pow_succ_r by lia. rewrite Z.rem_mul_r by lia. lia.
Qed.

Lemma mod_pow2_succ_high y n :
  0 <= n -> y mod 2 ^ Z.succ n = y mod 2 ^ n + (y / 2 ^ n mod 2) * 2 ^ n.
Proof.
  intros. rewrite Z.pow_succ_r by lia. rewrite (Z.mul_comm 2), Z.rem_mul_r by lia. lia.
Qed.

(** A segment inside one byte. *)
Lemma be_bits_byte input i off n :
  0 <= off -> off + Z.of_nat n <= 8 ->
  be_bits input (i * 8 + off) n =
  byte_at input i / 2 ^ (8 - off - Z.of_nat n) mod 2 ^ Z.of_nat n.
Proof.
  intros Hoff. induction n as [|n IH]; intros Hn.
  - simpl. rewrite Z.mod_1_r. done.
  - cbn [be_bits]. rewrite IH by lia. unfold bit_be.
    replace ((i * 8 + off + Z.of_nat n) / 8) with i
      by (apply (Z.div_unique _ _ _ (off + Z.of_nat n)); lia).
    replace ((i * 8 + off + Z.of_nat n) mod 8) with (off + Z.of_nat n)
      by (apply (Z.mod_unique _ _ i); lia).
    rewrite Nat2Z.inj_succ, mod_pow2_succ_low by lia.
    set (k := 8 - off - Z.succ (Z.of_nat n)).
    replace (8 - off - Z.of_nat n) with (Z.succ k) by lia.
    replace (7 - (off + Z.of_nat n)) with k by lia.
    rewrite Z.pow_succ_r, (Z.mul_comm 2 (2 ^ k)), <- Z.div_div by lia. done.
Qed.

Lemma le_bits_byte input i off n :
  0 <= off -> off + Z.of_nat n <= 8 ->
  le_bits input (i * 8 + off) n = byte_at input i / 2 ^ off mod 2 ^ Z.of_nat n.
Proof.
  intros Hoff. induction n as [|n IH]; intros Hn.
  - simpl. rewrite Z.mod_1_r. done.
  - cbn [le_bits]. rewrite IH by lia. unfold bit_le.
    replace ((i * 8 + off + Z.of_nat n) / 8) with i
      by (apply (Z.div_unique _ _ _ (off + Z.of_nat n)); lia).
    replace ((i * 8 + off + Z.of_nat n) mod 8) with (off + Z.of_nat n)
      by (apply (Z.mod_unique _ _ i); lia).
    rewrite Nat2Z.inj_succ, mod_pow2_succ_high by lia.
    rewrite Z.div_div, <- Z.pow_add_r by lia. done.
Qed.

Lemma be_bits_at input p n :
  0 <= n -> p mod 8 + n <= 8 ->
  be_bits input p (Z.to_nat n) =
  byte_at input (p / 8) / 2 ^ (8 - p mod 8 - n) mod 2 ^ n.
Proof.
  intros. pose proof (Z.mod_pos_bound p 8).
  rewrite (Z_div_mod_eq_full p 8) at 1. rewrite (Z.mul_comm 8), be_bits_byte by lia.
  by rewrite Z2Nat.id.
Qed.

Lemma le_bits_at input p n :
  0 <= n -> p mod 8 + n <= 8 ->
  le_bits input p (Z.to_nat n) = byte_at input (p / 8) / 2 ^ (p mod 8) mod 2 ^ n.
Proof.
  intros. pose proof (Z.mod_pos_bound p 8).
  rewrite (Z_div_mod_eq_full p 8) at 1. rewrite (Z.mul_comm 8), le_bits_byte by lia.
  by rewrite Z2Nat.id.
Qed.

(** ** One step of each loop

    [sint64] of a wider value: the loops keep the low 64 bits of the exact
    bit string. *)

Lemma sint64_mul_pow2_step X j b :
  0 <= j < 64 -> 0 <= b < 2 ^ j ->
  sint64 (X * 2 ^ j) + b = sint64 (X * 2 ^ j + b) /\
  Z.lor (sint64 (X * 2 ^ j)) b = sint64 (X * 2 ^ j + b).
Proof.
  intros Hj Hb. set (y := sint64 (X * 2 ^ j)).
  assert (Hy : y = y / 2 ^ j * 2 ^ j).
  { assert (y mod 2 ^ j = 0) as Hm.
    { subst y. unfold wraps. replace (64 - 1) with (63 - j + j) by lia.
      replace 64 with (64 - j + j) at 1 by lia.
      rewrite !Z.pow_add_r, <- Z.mul_add_distr_r by lia.
      rewrite Z.mul_mod_distr_r, <- Z.mul_sub_distr_r by lia.
      apply Z.mod_mul. lia. }
    pose proof (Z_div_mod_eq_full y (2 ^ j)). rewrite Hm in *. lia. }
  assert (- 2 ^ 63 <= y < 2 ^ 63) as Hr by (apply (wraps_range 64); lia).
  assert (2 ^ 63 = 2 ^ (63 - j) * 2 ^ j) as H63
    by (rewrite <- Z.pow_add_r by lia; f_equal; lia).
  assert (y + b = sint64 (X * 2 ^ j + b)) as Hadd.
  { assert (y / 2 ^ j < 2 ^ (63 - j)) by (apply (Z.mul_lt_mono_pos_r (2 ^ j)); lia).
    assert ((y / 2 ^ j + 1) * 2 ^ j <= 2 ^ (63 - j) * 2 ^ j)
      by (apply Z.mul_le_mono_nonneg_r; lia).
    rewrite <- (wraps_small 64 (y + b)); [|lia|change (64 - 1) with 63; lia].
    apply wraps_eqm. rewrite Zplus_mod. subst y. rewrite wraps_mod, <- Zplus_mod by lia. done. }
  split; [done|]. rewrite <- Hadd, Hy at 1.
  rewrite <- Z.shiftl_mul_pow2, lor_shiftl_add, <- Hy by lia. done.
Qed.

Lemma sint64_shl_or X j b :
  0 <= j < 64 -> 0 <= b < 2 ^ j ->
  Z.lor (sint64 (Z.shiftl (sint64 X) j)) b = sint64 (X * 2 ^ j + b).
Proof.
  intros Hj Hb. rewrite Z.shiftl_mul_pow2 by lia.
  rewrite (wraps_eqm 64 (sint64 X * 2 ^ j) (X * 2 ^ j)).
  - by apply sint64_mul_pow2_step.
  - rewrite Zmult_mod, wraps_mod, <- Zmult_mod by lia. done.
Qed.

Lemma sint64_or_shl X j b :
  0 <= j < 64 -> 0 <= X < 2 ^ j ->
  Z.lor (sint64 X) (sint64 (Z.shiftl b j)) = sint64 (X + b * 2 ^ j).
Proof.
  intros Hj HX. assert (2 ^ j <= 2 ^ 63) by (apply Z.pow_le_mono_r; lia).
  rewrite (wraps_small 64 X) by (change (64 - 1) with 63; lia).
  rewrite Z.lor_comm, Z.shiftl_mul_pow2, (Z.add_comm X) by lia.
  by apply sint64_mul_pow2_step.
Qed.

(** ** Stream lemmas *)

Lemma add8_mod p : (p + 8) mod 8 = p mod 8.
Proof. replace (p + 8) with (p + 1 * 8) by lia. apply Z_mod_plus_full. Qed.

Lemma byte_at_range input i : Forall byte input -> byte (byte_at input i).
Proof.
  intros Hall. unfold byte_at.
  destruct (input !! Z.to_nat i) eqn:E; simpl; [|unfold byte; lia].
  by eapply Forall_lookup_1.
Qed.

Lemma input_at_ok s :
  stream_wf s -> is_index s < is_length s -> input_at s = Ok (byte_at (is_input s) (is_index s)).
Proof.
  intros [Hl _ _ Hi _ _] Hlt. unfold input_at, byte_at.
  destruct (lookup_lt_is_Some_2 (is_input s) (Z.to_nat (is_index s))) as [b Hb]; [lia|].
  rewrite Hb. done.
Qed.

Lemma seek_seek s p q : seek (seek s p) q = seek s q.
Proof. done. Qed.

Lemma seek_bit_pos s : stream_wf s -> is_margin s = 0 -> seek s (bit_pos s) = s.
Proof.
  intros Hwf Hm. destruct Hwf as [_ _ _ Hi Hb _]. unfold seek, bit_pos, set_cursor.
  replace ((is_index s * 8 + is_bit_offset s) / 8) with (is_index s)
    by (apply (Z.div_unique _ _ _ (is_bit_offset s)); lia).
  replace ((is_index s * 8 + is_bit_offset s) mod 8) with (is_bit_offset s)
    by (apply (Z.mod_unique _ _ (is_index s)); lia).
  rewrite <- Hm. by destruct s.
Qed.

Lemma bit_pos_seek s p : bit_pos (seek s p) = p.
Proof. unfold bit_pos, seek. simpl. pose proof (Z_div_mod_eq_full p 8). lia. Qed.

Lemma seek_wf s p :
  stream_wf s -> 0 <= p <= is_length s * 8 -> stream_wf (seek s p).
Proof.
  intros [Hl Hb Hs Hi Ho He] Hp.
  pose proof (Z_div_mod_eq_full p 8). pose proof (Z.mod_pos_bound p 8).
  split; simpl; try done; lia.
Qed.

Lemma seek_unfold s i o : 0 <= o < 8 -> set_cursor s i o 0 = seek s (i * 8 + o).
Proof.
  intros Ho. unfold seek. f_equal.
  - apply (Z.div_unique _ _ _ o); lia.
  - apply (Z.mod_unique _ _ i); lia.
Qed.

(** ** The loops, big-endian and little-endian *)

Section loops.
Context (s0 : HInputStream) (Hwf0 : stream_wf s0).
Let input := is_input s0.
Let len8 := is_length s0 * 8.

(** A stream that differs from [s0] in its cursor only, at bit [p]. *)
Definition at_bit (s : HInputStream) (p : Z) : Prop :=
  s = seek s0 p /\ 0 <= p <= len8.

Lemma at_bit_wf s p : at_bit s p -> stream_wf s.
Proof using Hwf0. intros [-> ?]. by apply seek_wf. Qed.

Lemma at_bit_byte s p :
  at_bit s p -> p < len8 -> input_at s = Ok (byte_at input (p / 8)).
Proof using Hwf0.
  intros Hat Hp. pose proof (at_bit_wf _ _ Hat). destruct Hat as [-> ?].
  rewrite input_at_ok; [done|done|]. simpl. apply Z.div_lt_upper_bound; lia.
Qed.

Lemma shiftr_segment b k n :
  0 <= k -> 0 <= n -> Z.land (Z.shiftr b k) (Z.shiftl 1 n - 1) = b / 2 ^ k mod 2 ^ n.
Proof using. intros. by rewrite shiftl_1_ones, land_ones_mod, Z.shiftr_div_pow2. Qed.

Lemma seek_next p n :
  p mod 8 + n = 8 -> set_cursor (seek s0 p) (p / 8 + 1) 0 0 = seek s0 (p + n).
Proof using.
  intros. unfold seek, set_cursor; simpl. pose proof (Z_div_mod_eq_full p 8).
  f_equal; [apply (Z.div_unique _ _ _ 0)|apply (Z.mod_unique _ _ (p / 8 + 1))]; lia.
Qed.

Lemma seek_within p n :
  p mod 8 + n < 8 -> 0 <= n ->
  set_cursor (seek s0 p) (p / 8) (wraps 8 (p mod 8 + n)) 0 = seek s0 (p + n).
Proof using.
  intros. pose proof (Z_div_mod_eq_full p 8). pose proof (Z.mod_pos_bound p 8).
  rewrite wraps_small by (change (8 - 1) with 7; lia).
  unfold seek, set_cursor; simpl.
  f_equal; [apply (Z.div_unique _ _ _ (p mod 8 + n))|apply (Z.mod_unique _ _ (p / 8))]; lia.
Qed.

Lemma read_segment_spec s p count :
  at_bit s p -> 0 < count -> p + count <= len8 ->
  exists n, 0 < n <= 8 /\ n <= count /\
    read_segment s count =
      Ok (seek s0 (p + n),
          (if has_flag BIT_BIG_ENDIAN (is_endianness s0)
           then be_bits input p (Z.to_nat n) else le_bits input p (Z.to_nat n)), n).
Proof using Hwf0.
  intros Hat Hc Hp. pose proof (at_bit_byte _ _ Hat) as Hbyte. destruct Hat as [-> Hr].
  pose proof (Z.mod_pos_bound p 8). pose proof (Z_div_mod_eq_full p 8).
  unfold read_segment. rewrite Hbyte by lia. cbn [is_endianness seek set_cursor
    is_bit_offset is_margin is_index].
  destruct (has_flag _ _); destruct (Z.leb_spec 8 (count + p mod 8 + 0)).
  all: try rewrite (wraps_small 8) by (change (8 - 1) with 7; lia).
  all: cbn [mbind outcome_bind]; rewrite !shl_ok_true by lia; cbn [mbind outcome_bind].
  all: [> exists (8 - p mod 8) | exists count | exists (8 - p mod 8) | exists count ].
  all: rewrite shiftr_segment by lia.
  all: split; [lia|split; [lia|]].
  1,3: rewrite Z.sub_0_r; fold (seek s0 p); rewrite (seek_next p (8 - p mod 8)) by lia.
  3,4: rewrite <- (wraps_small 8 (p mod 8 + count)) at 1 by (change (8 - 1) with 7; lia);
    fold (seek s0 p); rewrite (seek_within p count) by lia.
  all: do 3 f_equal.
  all: rewrite ?be_bits_at, ?le_bits_at by lia; do 3 f_equal; lia.
Qed.

Lemma read_slow_be fuel s p count X off :
  has_flag BIT_BIG_ENDIAN (is_endianness s0) = true ->
  has_flag BYTE_BIG_ENDIAN (is_endianness s0) = true ->
  at_bit s p -> 0 <= count -> (Z.to_nat count <= fuel)%nat -> p + count <= len8 ->
  read_slow fuel s count (sint64 X) off =
  Ok (seek s0 (p + count), sint64 (X * 2 ^ count + be_bits input p (Z.to_nat count))).
Proof using Hwf0.
  intros Hbit Hbyte. revert s p count X off.
  induction fuel as [|fuel IH]; intros s p count X off Hat Hc Hf Hp;
    cbn [read_slow]; destruct (Z.eqb_spec count 0) as [->|Hne].
  1,3: destruct Hat as [-> _]; simpl; rewrite !Z.add_0_r, Z.mul_1_r; done.
  1: lia.
  destruct (read_segment_spec s p count) as (n & Hn & Hnc & ->); [done|lia..|].
  rewrite Hbit. cbn [mbind outcome_bind].
  destruct Hat as [-> Hr]. cbn [is_endianness seek set_cursor]. rewrite Hbyte.
  rewrite shl_ok_true by lia. cbn [mbind outcome_bind].
  pose proof (be_bits_range input p (Z.to_nat n)).
  rewrite sint64_shl_or by (rewrite ?Z2Nat.id in *; lia).
  rewrite (IH _ (p + n)); [|split; [done|lia]|lia..].
  replace (Z.to_nat count) with (Z.to_nat n + Z.to_nat (count - n))%nat by lia.
  rewrite be_bits_app. rewrite !Z2Nat.id by lia.
  replace (2 ^ count) with (2 ^ n * 2 ^ (count - n))
    by (rewrite <- Z.pow_add_r by lia; f_equal; lia).
  do 2 f_equal; [f_equal; lia|f_equal; lia].
Qed.

Lemma read_slow_le fuel s p count X off :
  has_flag BIT_BIG_ENDIAN (is_endianness s0) = false ->
  has_flag BYTE_BIG_ENDIAN (is_endianness s0) = false ->
  at_bit s p -> 0 <= count -> (Z.to_nat count <= fuel)%nat -> p + count <= len8 ->
  0 <= off -> off + count <= 64 -> 0 <= X < 2 ^ off ->
  read_slow fuel s count (sint64 X) off =
  Ok (seek s0 (p + count), sint64 (X + le_bits input p (Z.to_nat count) * 2 ^ off)).
Proof using Hwf0.
  intros Hbit Hbyte. revert s p count X off.
  induction fuel as [|fuel IH]; intros s p count X off Hat Hc Hf Hp Ho Hoc HX;
    cbn [read_slow]; destruct (Z.eqb_spec count 0) as [->|Hne].
  1,3: destruct Hat as [-> _]; simpl; rewrite !Z.add_0_r; done.
  1: lia.
  destruct (read_segment_spec s p count) as (n & Hn & Hnc & ->); [done|lia..|].
  rewrite Hbit. cbn [mbind outcome_bind].
  destruct Hat as [-> Hr]. cbn [is_endianness seek set_cursor]. rewrite Hbyte.
  rewrite shl_ok_true by lia. cbn [mbind outcome_bind].
  pose proof (le_bits_range input p (Z.to_nat n)) as Hle. rewrite Z2Nat.id in Hle by lia.
  rewrite sint64_or_shl by lia.
  rewrite (IH _ (p + n)); [|split; [done|lia]|try lia..].
  - replace (Z.to_nat count) with (Z.to_nat n + Z.to_nat (count - n))%nat by lia.
    rewrite le_bits_app, !Z2Nat.id, Z.pow_add_r by lia.
    do 2 f_equal; [f_equal; lia|f_equal; lia].
  - rewrite Z.pow_add_r by lia. nia.
Qed.

Lemma at_byte_next s p :
  at_bit s p -> p mod 8 = 0 -> p + 8 <= len8 -> next_byte s = seek s0 (p + 8).
Proof using.
  intros [-> Hr] Hm Hp. pose proof (Z_div_mod_eq_full p 8).
  unfold next_byte. cbn [is_index is_bit_offset is_margin seek set_cursor].
  rewrite Hm. unfold seek, set_cursor. cbn.
  f_equal; [apply (Z.div_unique _ _ _ 0)|apply (Z.mod_unique _ _ (p / 8 + 1))]; lia.
Qed.

Lemma read_fast_be_spec fuel s p k X :
  at_bit s p -> p mod 8 = 0 -> (k <= fuel)%nat -> p + 8 * Z.of_nat k <= len8 ->
  read_fast_be fuel s (8 * Z.of_nat k) (sint64 X) =
  Ok (seek s0 (p + 8 * Z.of_nat k), sint64 (X * 2 ^ (8 * Z.of_nat k) + be_bits input p (8 * k))).
Proof using Hwf0.
  revert s p k X. induction fuel as [|fuel IH]; intros s p k X Hat Hm Hf Hp;
    destruct k as [|k]; cbn [read_fast_be]; try lia.
  1,2: destruct Hat as [-> _]; simpl; rewrite !Z.add_0_r, Z.mul_1_r; done.
  destruct (Z.leb_spec (8 * Z.of_nat (S k)) 0); [lia|].
  rewrite (at_bit_byte _ p) by (done || lia). cbn [mbind outcome_bind].
  rewrite (at_byte_next _ p) by (done || lia).
  assert (Hb : byte_at input (p / 8) = be_bits input p 8).
  { change 8%nat with (Z.to_nat 8). rewrite be_bits_at by lia. rewrite Hm.
    rewrite Z.div_1_r, Z.mod_small; [done|]. apply (byte_at_range _ _ (wf_bytes _ Hwf0)). }
  pose proof (be_bits_range input p 8).
  rewrite Hb, sint64_shl_or by (change (Z.of_nat 8) with 8 in *; lia).
  replace (8 * Z.of_nat (S k) - 8) with (8 * Z.of_nat k) by lia.
  destruct Hat as [_ Hr].
  rewrite (IH _ (p + 8)); [|split; [done|lia]|by rewrite add8_mod|lia..].
  replace (8 * S k)%nat with (8 + 8 * k)%nat by lia. rewrite be_bits_app.
  replace (8 * Z.of_nat (S k)) with (8 + 8 * Z.of_nat k) by lia.
  rewrite Z.pow_add_r by lia. change (Z.of_nat 8) with 8.
  replace (Z.of_nat (8 * k)) with (8 * Z.of_nat k) by lia.
  do 2 f_equal; [f_equal; lia|f_equal; lia].
Qed.

Lemma read_fast_le_spec fuel s p k X i :
  at_bit s p -> p mod 8 = 0 -> (k <= fuel)%nat -> p + 8 * Z.of_nat k <= len8 ->
  0 <= i -> i + 8 * Z.of_nat k <= 64 -> 0 <= X < 2 ^ i ->
  read_fast_le fuel s (8 * Z.of_nat k) (sint64 X) i =
  Ok (seek s0 (p + 8 * Z.of_nat k), sint64 (X + le_bits input p (8 * k) * 2 ^ i)).
Proof using Hwf0.
  revert s p k X i. induction fuel as [|fuel IH]; intros s p k X i Hat Hm Hf Hp Hi Hik HX;
    destruct k as [|k]; cbn [read_fast_le]; try lia.
  1,2: destruct Hat as [-> _]; simpl; rewrite !Z.add_0_r; done.
  destruct (Z.leb_spec (8 * Z.of_nat (S k)) 0); [lia|].
  rewrite (at_bit_byte _ p) by (done || lia). cbn [mbind outcome_bind].
  rewrite shl_ok_true by lia. cbn [mbind outcome_bind].
  rewrite (at_byte_next _ p) by (done || lia).
  assert (Hb : byte_at input (p / 8) = le_bits input p 8).
  { change 8%nat with (Z.to_nat 8). rewrite le_bits_at by lia. rewrite Hm.
    rewrite Z.div_1_r, Z.mod_small; [done|]. apply (byte_at_range _ _ (wf_bytes _ Hwf0)). }
  pose proof (le_bits_range input p 8) as Hr8. change (2 ^ Z.of_nat 8) with (2 ^ 8) in Hr8.
  rewrite Hb, sint64_or_shl by lia.
  replace (8 * Z.of_nat (S k) - 8) with (8 * Z.of_nat k) by lia.
  destruct Hat as [_ Hr].
  rewrite (IH _ (p + 8)); [|split; [done|lia]|by rewrite add8_mod|try lia..].
  - replace (8 * S k)%nat with (8 + 8 * k)%nat by lia. rewrite le_bits_app.
    replace (8 * Z.of_nat (S k)) with (8 + 8 * Z.of_nat k) by lia.
    rewrite Z.pow_add_r by lia. change (Z.of_nat 8) with 8.
    do 2 f_equal; [f_equal; lia|f_equal; lia].
  - rewrite Z.pow_add_r by lia. nia.
Qed.
End loops.

(** ** [read_loop] *)

(** The exact bit string the stream's byte and bit orders give, when the two
    agree. *)
Definition stream_bits (s : HInputStream) (n : Z) : Z :=
  if has_flag BIT_BIG_ENDIAN (is_endianness s)
  then be_bits (is_input s) (bit_pos s) (Z.to_nat n)
  else le_bits (is_input s) (bit_pos s) (Z.to_nat n).

Definition same_order (s : HInputStream) : Prop :=
  has_flag BIT_BIG_ENDIAN (is_endianness s) = has_flag BYTE_BIG_ENDIAN (is_endianness s).

Lemma land_7 x : Z.land x 7 = x mod 8.
Proof. apply (land_ones_mod x 3). lia. Qed.

Lemma read_loop_spec s n :
  stream_wf s -> is_margin s = 0 -> same_order s ->
  0 <= n <= 64 -> bit_pos s + n <= is_length s * 8 ->
  read_loop s n = Ok (seek s (bit_pos s + n), sint64 (stream_bits s n)).
Proof.
  intros Hwf Hm Ho Hn Hp. unfold read_loop, stream_bits. rewrite !land_7, Hm, <- Ho.
  assert (at_bit s s (bit_pos s)) as Hat.
  { split; [by rewrite seek_bit_pos|]. unfold bit_pos. destruct (Hwf). lia. }
  set (fuel := S (Z.to_nat n)).
  destruct (Z.eqb_spec (is_bit_offset s mod 8) 0) as [Hb|Hb];
    [destruct (Z.eqb_spec (n mod 8) 0) as [Hn8|Hn8]|]; cbn [andb].
  { set (k := Z.to_nat (n / 8)).
    assert (n = 8 * Z.of_nat k) as Hk.
    { pose proof (Z_div_mod_eq_full n 8). pose proof (Z.div_pos n 8). lia. }
    clearbody k. subst n.
    assert (bit_pos s mod 8 = 0) as Hp8.
    { unfold bit_pos. rewrite Z.add_comm, Z_mod_plus_full. done. }
    replace (Z.to_nat (8 * Z.of_nat k)) with (8 * k)%nat by lia.
    cbn [Z.eqb]. destruct (has_flag BIT_BIG_ENDIAN _).
    - by rewrite (read_fast_be_spec s Hwf fuel _ (bit_pos s) k 0) by (done || lia).
    - rewrite (read_fast_le_spec s Hwf fuel _ (bit_pos s) k 0 0) by (done || lia).
      by rewrite Z.mul_1_r. }
  all: destruct (has_flag BIT_BIG_ENDIAN (is_endianness s)) eqn:Hf.
  all: unfold same_order in Ho; rewrite Hf in Ho; subst fuel.
  1,3: by rewrite (read_slow_be s Hwf _ _ (bit_pos s) n 0) by (done || lia).
  all: rewrite (read_slow_le s Hwf _ _ (bit_pos s) n 0 0) by (done || lia).
  all: by rewrite Z.mul_1_r.
Qed.

(** ** Sign extension *)

Lemma lxor_mod_pow2 a b n :
  0 <= n -> Z.lxor a b mod 2 ^ n = Z.lxor (a mod 2 ^ n) (b mod 2 ^ n).
Proof.
  intros. apply Z.bits_inj'; intros i Hi. rewrite Z.lxor_spec.
  destruct (Z.ltb_spec i n).
  - by rewrite !Z.mod_pow2_bits_low, Z.lxor_spec by lia.
  - by rewrite !Z.mod_pow2_bits_high by lia.
Qed.

Lemma lxor_pow2 v m :
  0 <= m -> 0 <= v < 2 ^ Z.succ m ->
  Z.lxor v (2 ^ m) = if 2 ^ m <=? v then v - 2 ^ m else v + 2 ^ m.
Proof.
  intros Hm Hv. rewrite Z.pow_succ_r in Hv by lia.
  destruct (Z.leb_spec (2 ^ m) v).
  - assert (v = Z.lor (Z.shiftl 1 m) (v - 2 ^ m)) as Hd
      by (rewrite lor_shiftl_add; lia).
    assert (Z.land (v - 2 ^ m) (2 ^ m) = 0) as H0.
    { rewrite Z.land_comm, <- (Z.shiftl_1_l m) at 1. apply land_shiftl_low; lia. }
    rewrite Hd at 1. rewrite Z.shiftl_1_l, Z.lor_comm, <- Z.lxor_lor by done.
    by rewrite Z.lxor_assoc, Z.lxor_nilpotent, Z.lxor_0_r.
  - assert (Z.land v (2 ^ m) = 0) as H0.
    { rewrite Z.land_comm, <- (Z.shiftl_1_l m). apply land_shiftl_low; lia. }
    by rewrite Z.add_nocarry_lxor.
Qed.

Lemma sign_extend_spec n signed_p v :
  1 <= n <= 64 -> 0 <= v < 2 ^ n ->
  let msb := sint64 (Z.shiftl (if signed_p : bool then 1 else 0) (n - 1)) in
  sint64 (Z.lxor (sint64 v) msb - msb) = read_value n signed_p v.
Proof.
  intros Hn Hv msb. subst msb. unfold read_value.
  rewrite Z.shiftl_mul_pow2 by lia. destruct signed_p.
  - rewrite Z.mul_1_l.
    trans (sint64 (Z.lxor v (2 ^ (n - 1)) - 2 ^ (n - 1))).
    { apply wraps_eqm. rewrite Zminus_mod, wraps_mod, lxor_mod_pow2, !wraps_mod by lia.
      rewrite <- lxor_mod_pow2, <- Zminus_mod by lia. done. }
    rewrite lxor_pow2 by (rewrite ?Z.succ_pred; unfold Z.succ; rewrite ?Z.sub_add; lia).
    assert (2 ^ n = 2 * 2 ^ (n - 1)) by (apply pow2_half; lia).
    assert (2 ^ (n - 1) <= 2 ^ 63) by (apply Z.pow_le_mono_r; lia).
    destruct (Z.leb_spec (2 ^ (n - 1)) v); rewrite wraps_small by (change (64 - 1) with 63; lia); lia.
  - rewrite Z.mul_0_l. change (sint64 0) with 0. rewrite Z.lxor_0_r, Z.sub_0_r.
    apply wraps_eqm, wraps_mod. lia.
Qed.

Lemma check_overrun_spec s n :
  stream_wf s -> n <= 64 ->
  let left := is_length s * 8 - (bit_pos s + is_margin s) in
  check_overrun s n =
    if left <? n
    then (set_overrun s true, left,
          if has_flag BYTE_BIG_ENDIAN (is_endianness s) then n - left else 0)
    else (s, n, 0).
Proof.
  intros Hwf Hn left. destruct Hwf as [Hl _ Hs Hi Hb He].
  unfold check_overrun, bit_pos in *.
  rewrite (wraps_small 32 (is_length s - is_index s)) by (change (32 - 1) with 31; lia).
  assert (is_length s - is_index s <= 64 -> sint32 (sint32 (Z.shiftl (is_length s - is_index s) 3)
            - is_bit_offset s - is_margin s) = left) as Hleft.
  { intros. rewrite Z.shiftl_mul_pow2 by lia. change (2 ^ 3) with 8.
    rewrite (wraps_small 32 (_ * 8)) by (change (32 - 1) with 31; lia).
    rewrite wraps_small by (change (32 - 1) with 31; lia). lia. }
  destruct (Z.leb_spec (is_length s - is_index s) 64); [by rewrite Hleft|].
  destruct (Z.ltb_spec left n); [lia|done].
Qed.

Lemma stream_bits_range s n : 0 <= n -> 0 <= stream_bits s n < 2 ^ n.
Proof.
  intros Hn. unfold stream_bits.
  pose proof (be_bits_range (is_input s) (bit_pos s) (Z.to_nat n)) as Hb.
  pose proof (le_bits_range (is_input s) (bit_pos s) (Z.to_nat n)) as Hl.
  rewrite Z2Nat.id in Hb, Hl by lia. by destruct (has_flag _ _).
Qed.

(** * Properties of [h_read_bits] *)

(** Inside the buffer, the reader returns the next [n] bits and moves by [n]. *)
Lemma h_read_bits_in_bounds s n signed_p :
  stream_wf s -> is_margin s = 0 -> same_order s -> 1 <= n <= 64 ->
  bit_pos s + n <= is_length s * 8 ->
  h_read_bits s n signed_p =
  Ok (read_value n signed_p (stream_bits s n), seek s (bit_pos s + n)).
Proof.
  intros Hwf Hm Ho Hn Hp. unfold h_read_bits.
  rewrite shl_ok_true by lia. cbn [mbind outcome_bind].
  rewrite check_overrun_spec, Hm, Z.add_0_r by (done || lia).
  destruct (Z.ltb_spec (is_length s * 8 - bit_pos s) n); [lia|].
  rewrite read_loop_spec by (done || lia). cbn [mbind outcome_bind].
  rewrite shl_ok_true by lia. cbn [mbind outcome_bind].
  pose proof (stream_bits_range s n). rewrite Z.shiftl_0_r.
  rewrite (wraps_eqm 64 (sint64 _) (stream_bits s n)) by (apply wraps_mod; lia).
  rewrite sign_extend_spec by lia. done.
Qed.

(** Past the end, the reader returns the bits that are left, padded with
    zeros on the right in big-endian order, sets [overrun] and stops at the end. *)
Lemma h_read_bits_overrun s n signed_p :
  stream_wf s -> is_margin s = 0 -> same_order s -> 1 <= n <= 64 ->
  let left := is_length s * 8 - bit_pos s in
  left < n -> ~ (left = 0 /\ n = 64 /\ has_flag BYTE_BIG_ENDIAN (is_endianness s) = true) ->
  let pad := if has_flag BYTE_BIG_ENDIAN (is_endianness s) then n - left else 0 in
  h_read_bits s n signed_p =
  Ok (read_value n signed_p (stream_bits s left * 2 ^ pad),
      set_overrun (seek s (is_length s * 8)) true).
Proof.
  intros Hwf Hm Ho Hn left Hlt Hub pad. unfold h_read_bits.
  assert (0 <= left) as Hleft by (subst left; unfold bit_pos; destruct Hwf; lia).
  rewrite shl_ok_true by lia. cbn [mbind outcome_bind].
  rewrite check_overrun_spec, Hm, Z.add_0_r by (done || lia). fold left.
  destruct (Z.ltb_spec left n); [|lia].
  set (s1 := set_overrun s true).
  assert (stream_wf s1) by (destruct Hwf; by split).
  change (stream_bits s left) with (stream_bits s1 left).
  rewrite (read_loop_spec s1) by (done || (subst left; change (bit_pos s1) with (bit_pos s);
    simpl; lia)).
  cbn [mbind outcome_bind]. fold pad.
  assert (0 <= pad < 64) as Hpad.
  { subst pad. destruct (has_flag BYTE_BIG_ENDIAN _) eqn:?; [|lia].
    destruct (decide (n - left = 64)); [|lia]. destruct Hub. split_and!; [lia..|done]. }
  rewrite shl_ok_true by lia. cbn [mbind outcome_bind].
  pose proof (stream_bits_range s1 left Hleft) as Hr.
  rewrite Z.shiftl_mul_pow2 by lia.
  rewrite (wraps_eqm 64 (sint64 _ * _) (stream_bits s1 left * 2 ^ pad))
    by (rewrite Zmult_mod, wraps_mod, <- Zmult_mod by lia; done).
  rewrite sign_extend_spec; [|lia|].
  - do 2 f_equal. subst left s1. unfold seek, bit_pos, set_overrun, set_cursor. simpl.
    replace (is_index s * 8 + is_bit_offset s + (is_length s * 8 - (is_index s * 8 + is_bit_offset s)))
      with (is_length s * 8) by lia. done.
  - assert (2 ^ n = 2 ^ (n - left) * 2 ^ left) by (rewrite <- Z.pow_add_r by lia; f_equal; lia).
    assert (0 < 2 ^ (n - left)) by lia.
    subst pad. destruct (has_flag BYTE_BIG_ENDIAN _); [nia|]. rewrite Z.pow_0_r. nia.
Qed.

(** A 64-bit big-endian read at the end of the input shifts by 64: the
    behaviour is undefined. *)
Lemma eof_shift s signed_p :
  stream_wf s -> is_margin s = 0 -> bit_pos s = is_length s * 8 ->
  has_flag BYTE_BIG_ENDIAN (is_endianness s) = true ->
  h_read_bits s 64 signed_p = Fault BadShift.
Proof.
  intros Hwf Hm Hp He. unfold h_read_bits.
  rewrite shl_ok_true by lia. cbn [mbind outcome_bind].
  rewrite check_overrun_spec, Hm, Hp, He by (done || lia).
  replace (is_length s * 8 - (is_length s * 8 + 0)) with 0 by lia. cbn [Z.ltb Z.compare].
  assert (exists s', read_loop (set_overrun s true) 0 = Ok (s', 0)) as [s' ->].
  { unfold read_loop. rewrite land_7. cbn [is_margin set_overrun]. rewrite Hm.
    destruct (_ && _); [|by eexists].
    destruct (has_flag _ _); by eexists. }
  done.
Qed.

(** C22: h_read_bits, for every count from 1 to 64 and every cursor, in the orders
    of bytes and bits that agree and without a margin: it returns the next [n]
    bits as a signed or unsigned number and moves by [n]; when fewer are left it
    returns those, padded on the right in big-endian order, sets [overrun] and
    stops at the end. In one case, 64 bits in big-endian order with none left, it
    shifts by 64, which is undefined. *)
Theorem h_read_bits_spec s n signed_p :
  stream_wf s -> is_margin s = 0 -> same_order s -> 1 <= n <= 64 ->
  let left := is_length s * 8 - bit_pos s in
  h_read_bits s n signed_p =
  if n <=? left
  then Ok (read_value n signed_p (stream_bits s n), seek s (bit_pos s + n))
  else if (left =? 0) && (n =? 64) && has_flag BYTE_BIG_ENDIAN (is_endianness s) then Fault BadShift
  else Ok (read_value n signed_p
             (stream_bits s left *
              2 ^ (if has_flag BYTE_BIG_ENDIAN (is_endianness s) then n - left else 0)),
           set_overrun (seek s (is_length s * 8)) true).
Proof.
  intros Hwf Hm Ho Hn left. destruct (Z.leb_spec n left).
  - apply h_read_bits_in_bounds; try done. subst left. lia.
  - destruct (Z.eqb_spec left 0), (Z.eqb_spec n 64), (has_flag BYTE_BIG_ENDIAN (is_endianness s)) eqn:Hf;
      cbn [andb]; try (rewrite h_read_bits_overrun by (done || (subst left; rewrite ?Hf; intuition lia));
        by rewrite ?Hf).
    subst n. apply eof_shift; try done. subst left. lia.
Qed.

(** Two unsigned reads in a row return the two halves of one read: the
    reader is compositional at any split of the bits. *)
Theorem h_read_bits_split s n m :
  stream_wf s -> is_margin s = 0 -> is_endianness s = Z.lor BYTE_BIG_ENDIAN BIT_BIG_ENDIAN ->
  1 <= n -> 1 <= m -> n + m <= 63 -> bit_pos s + (n + m) <= is_length s * 8 ->
  exists v s1 w s2,
    h_read_bits s n false = Ok (v, s1) /\ h_read_bits s1 m false = Ok (w, s2) /\
    h_read_bits s (n + m) false = Ok (v * 2 ^ m + w, s2).
Proof.
  intros Hwf Hmg He Hn Hm Hnm Hp.
  assert (same_order s) as Ho by (unfold same_order; by rewrite He).
  assert (0 <= bit_pos s) by (unfold bit_pos; destruct (Hwf); lia).
  rewrite h_read_bits_in_bounds by (done || lia). do 4 eexists. split; [done|].
  rewrite h_read_bits_in_bounds; [|by apply seek_wf; [|lia]|done..|lia|].
  2: { rewrite bit_pos_seek. simpl. lia. }
  rewrite bit_pos_seek, seek_seek. split; [done|].
  rewrite h_read_bits_in_bounds by (done || lia). do 2 f_equal; [|f_equal; lia].
  unfold read_value. pose proof (stream_bits_range s n). pose proof (stream_bits_range s (n + m)).
  pose proof (stream_bits_range (seek s (bit_pos s + n)) m).
  assert (2 ^ (n + m) <= 2 ^ 63 /\ 2 ^ n <= 2 ^ 63 /\ 2 ^ m <= 2 ^ 63)
    by (split_and!; apply Z.pow_le_mono_r; lia).
  rewrite !(wraps_small 64) by (change (64 - 1) with 63; lia).
  unfold stream_bits. cbn [is_endianness is_input seek set_cursor]. rewrite He, bit_pos_seek.
  change (has_flag BIT_BIG_ENDIAN _) with true. cbn [negb].
  rewrite Z2Nat.inj_add, be_bits_app, !Z2Nat.id by lia. done.
Qed.

(** [int bits_left] truncates: with exactly 2^32 bytes left the reader
    reports an overrun and reads nothing. *)
Theorem h_read_bits_truncates_length s :
  is_length s - is_index s = 2 ^ 32 -> is_bit_offset s = 0 -> is_margin s = 0 ->
  h_read_bits s 8 false = Ok (0, set_overrun s true).
Proof.
  intros Hl Hb Hm. unfold h_read_bits, check_overrun. rewrite Hl, Hb, Hm.
  change (sint32 (2 ^ 32)) with 0. cbn [Z.leb Z.compare].
  change (sint32 (sint32 (Z.shiftl 0 3) - 0 - 0)) with 0. cbn [Z.ltb Z.compare].
  unfold read_loop. cbn [is_bit_offset is_margin is_endianness set_overrun]. rewrite Hb, Hm.
  destruct (has_flag BYTE_BIG_ENDIAN _); done.
Qed.

(** ** Safety for every margin and every pair of byte and bit orders *)

(** Bits left for the reader. *)
Definition bits_left (s : HInputStream) : Z :=
  is_length s * 8 - (bit_pos s + is_margin s).

(** [s'] is [s] with the cursor moved. *)
Definition same_stream (s s' : HInputStream) : Prop :=
  is_input s' = is_input s /\ is_pos s' = is_pos s /\ is_length s' = is_length s /\
  is_endianness s' = is_endianness s /\ is_last_chunk s' = is_last_chunk s.

#[global] Instance same_stream_preorder : PreOrder same_stream.
Proof. split; [done|]. unfold same_stream. intros s1 s2 s3 H1 H2. intuition congruence. Qed.

(** The cursor moved by [n] bits. *)
Definition moved (s s' : HInputStream) (n : Z) : Prop :=
  same_stream s s' /\ stream_wf s' /\ bits_left s' = bits_left s - n /\
  is_overrun s' = is_overrun s.

Lemma moved_trans s1 s2 s3 n m : moved s1 s2 n -> moved s2 s3 m -> moved s1 s3 (n + m).
Proof.
  unfold moved. intros (Ha & ? & ? & ?) (Hb & ? & ? & ?).
  split_and!; [by etrans|done|lia|congruence].
Qed.

Lemma read_segment_safe s count :
  stream_wf s -> 0 < count <= bits_left s ->
  exists s' seg n, read_segment s count = Ok (s', seg, n) /\
    0 < n <= 8 /\ n <= count /\ 0 <= seg < 2 ^ n /\ moved s s' n.
Proof.
  intros Hwf Hc. pose proof Hwf as [Hl Hby Hs Hi Hb He]. unfold bits_left, bit_pos in Hc.
  unfold read_segment. rewrite input_at_ok by (done || lia).
  destruct (has_flag _ _);
    destruct (Z.leb_spec 8 (count + is_bit_offset s + is_margin s)).
  all: try rewrite (wraps_small 8) by (change (8 - 1) with 7; lia).
  all: cbn [mbind outcome_bind]; rewrite !shl_ok_true by lia; cbn [mbind outcome_bind].
  all: do 3 eexists; split; [reflexivity|]; split; [lia|split; [lia|split]].
  all: try (rewrite shiftr_segment by lia; apply Z.mod_pos_bound; lia).
  all: unfold moved, same_stream, bits_left, bit_pos; simpl.
  all: split_and!; try done; try lia; split; simpl; try done; lia.
Qed.

Lemma read_slow_safe fuel s count out off :
  stream_wf s -> 0 <= count <= bits_left s -> (Z.to_nat count <= fuel)%nat ->
  0 <= off -> off + count <= 64 ->
  exists s' v, read_slow fuel s count out off = Ok (s', v) /\ moved s s' count.
Proof.
  revert s count out off. induction fuel as [|fuel IH]; intros s count out off Hwf Hc Hf Ho Hoc;
    cbn [read_slow]; destruct (Z.eqb_spec count 0) as [->|Hne]; try lia.
  1,2: exists s, out; split; [done|]; split_and!; [done..|lia|done].
  destruct (read_segment_safe s count) as (s' & seg & n & -> & Hn & Hnc & _ & Hmv);
    [done|lia|]. cbn [mbind outcome_bind].
  pose proof Hmv as (_ & Hwf' & Hleft & _).
  destruct (has_flag _ _); rewrite shl_ok_true by lia; cbn [mbind outcome_bind].
  all: edestruct (IH s' (count - n)) as (s'' & v & -> & Hmv'); [done|lia..|].
  all: exists s'', v; split; [done|].
  all: replace count with (n + (count - n)) by lia; by eapply moved_trans.
Qed.

Lemma next_byte_moved s :
  stream_wf s -> 8 <= bits_left s -> is_bit_offset s = 0 -> is_margin s = 0 ->
  moved s (next_byte s) 8.
Proof.
  intros Hwf Hc Hb0 Hm0. pose proof Hwf as [Hl Hby Hs Hi Hb He].
  unfold bits_left, bit_pos in Hc.
  unfold moved, same_stream, bits_left, bit_pos; simpl.
  split_and!; try done; try lia; split; simpl; try done; lia.
Qed.

Lemma read_fast_safe fuel s k out i :
  stream_wf s -> is_bit_offset s = 0 -> is_margin s = 0 ->
  8 * Z.of_nat k <= bits_left s -> (k <= fuel)%nat -> 0 <= i -> i + 8 * Z.of_nat k <= 64 ->
  (exists s' v, read_fast_be fuel s (8 * Z.of_nat k) out = Ok (s', v) /\ moved s s' (8 * Z.of_nat k)) /\
  (exists s' v, read_fast_le fuel s (8 * Z.of_nat k) out i = Ok (s', v) /\ moved s s' (8 * Z.of_nat k)).
Proof.
  revert s k out i. induction fuel as [|fuel IH]; intros s k out i Hwf Hb Hm Hc Hf Hi Hik;
    destruct k as [|k]; cbn [read_fast_be read_fast_le]; try lia.
  1,2: split; exists s, out; (split; [done|]); split_and!; (done || simpl; lia).
  destruct (Z.leb_spec (8 * Z.of_nat (S k)) 0); [lia|].
  pose proof (next_byte_moved s Hwf ltac:(lia) Hb Hm) as Hmv.
  rewrite input_at_ok by (done || (unfold bits_left, bit_pos in Hc; lia)).
  rewrite shl_ok_true by lia. cbn [mbind outcome_bind].
  replace (8 * Z.of_nat (S k) - 8) with (8 * Z.of_nat k) by lia.
  replace (8 * Z.of_nat (S k)) with (8 + 8 * Z.of_nat k) by lia.
  pose proof Hmv as (_ & Hwf' & Hleft & _). split.
  - edestruct (IH (next_byte s) k) as [(s' & v & E & Hmv') _]; [done..|lia|lia|exact Hi|lia|].
    exists s', v. split; [exact E|by eapply moved_trans].
  - edestruct (IH (next_byte s) k) as [_ (s' & v & E & Hmv')]; [done..|lia|lia|shelve|shelve|].
    exists s', v. split; [exact E|by eapply moved_trans].
    Unshelve. all: lia.
Qed.

(** One run of the loops. *)
Lemma read_loop_moved s c :
  stream_wf s -> 0 <= c <= 64 -> c <= bits_left s ->
  exists s' out, read_loop s c = Ok (s', out) /\ moved s s' c.
Proof.
  intros Hwf Hc Hcl. unfold read_loop. rewrite !land_7.
  pose proof (wf_bits _ Hwf).
  destruct (Z.eqb_spec (is_bit_offset s mod 8) 0) as [Hb|]; [|apply read_slow_safe; (done || lia)].
  destruct (Z.eqb_spec (c mod 8) 0); [|apply read_slow_safe; (done || lia)].
  destruct (Z.eqb_spec (is_margin s) 0); [|apply read_slow_safe; (done || lia)].
  rewrite Z.mod_small in Hb by lia. cbn [andb].
  pose proof (Z_div_mod_eq_full c 8).
  assert (c = 8 * Z.of_nat (Z.to_nat (c / 8))) as Hk by (pose proof (Z.div_pos c 8); lia).
  destruct (read_fast_safe (S (Z.to_nat c)) s (Z.to_nat (c / 8)) 0 0) as [Hbe Hle];
    [done..|lia|lia|lia|lia|].
  rewrite <- Hk in Hbe, Hle. by destruct (has_flag _ _).
Qed.

Lemma read_bits_safe s n signed_p :
  stream_wf s -> 1 <= n <= 64 -> (n <= 63 \/ 0 < bits_left s) ->
  exists v s', h_read_bits s n signed_p = Ok (v, s') /\
    same_stream s s' /\ stream_wf s' /\ - 2 ^ 63 <= v < 2 ^ 63 /\
    bits_left s' = Z.max 0 (bits_left s - n) /\
    is_overrun s' = is_overrun s || (bits_left s <? n).
Proof.
  intros Hwf Hn Hub. assert (0 <= bits_left s) as Hl0.
  { unfold bits_left, bit_pos. destruct Hwf. lia. }
  unfold h_read_bits. rewrite shl_ok_true by lia. cbn [mbind outcome_bind].
  rewrite check_overrun_spec by (done || lia). fold (bits_left s).
  destruct (Z.ltb_spec (bits_left s) n).
  - destruct (read_loop_moved (set_overrun s true) (bits_left s)) as (s2 & out & -> & Hmv);
      [by destruct Hwf|lia|done|]. cbn [mbind outcome_bind].
    destruct Hmv as (Hsame & Hwf2 & Hleft & Hov).
    rewrite shl_ok_true by (destruct (has_flag _ _); lia). cbn [mbind outcome_bind].
    do 2 eexists. split; [done|]. split_and!; [done..|apply (wraps_range 64); lia| | |].
    + apply (wraps_range 64); lia.
    + change (bits_left (set_overrun s true)) with (bits_left s) in Hleft. lia.
    + rewrite Hov. simpl. by rewrite orb_true_r.
  - destruct (read_loop_moved s n) as (s2 & out & -> & Hsame & Hwf2 & Hleft & Hov); [done|lia..|].
    cbn [mbind outcome_bind]. rewrite shl_ok_true by lia. cbn [mbind outcome_bind].
    do 2 eexists. split; [done|]. split_and!; [done..|apply (wraps_range 64); lia| | |].
    + apply (wraps_range 64); lia.
    + lia.
    + by rewrite orb_false_r.
Qed.

(** C33: the reader is safe on every well-formed stream, whatever its margin and
    its two orders, for counts of 1 to 63, and for 64 when a bit is left (64 bits
    at the end of the input are a shift by 64 in big-endian order): no fault and
    no fuel exhaustion; the stream stays well-formed, keeps its buffer and orders,
    and moves by the bits read or to the end with [overrun] set. *)
Theorem h_read_bits_safe s n signed_p :
  stream_wf s -> 1 <= n <= 64 -> (n <= 63 \/ 0 < bits_left s) ->
  exists v s', h_read_bits s n signed_p = Ok (v, s') /\
    same_stream s s' /\ stream_wf s' /\ - 2 ^ 63 <= v < 2 ^ 63 /\
    bits_left s' = Z.max 0 (bits_left s - n) /\
    is_overrun s' = is_overrun s || (bits_left s <? n).
Proof. apply read_bits_safe. Qed.

(** A read that returns: at the end of the stream it sets [overrun]. *)
Lemma h_read_bits_cases s n signed_p v s' :
  stream_wf s -> h_read_bits s n signed_p = Ok (v, s') ->
  1 <= n <= 64 /\
  ((bits_left s < n /\ is_overrun s' = true) \/ (n <= bits_left s /\ moved s s' n)).
Proof.
  intros Hwf H. unfold h_read_bits in H. apply outcome_bind_ok in H as ([] & Hsh & H).
  unfold shl_ok in Hsh. assert (1 <= n <= 64) as Hn by (destruct (_ && _) eqn:E in Hsh; [lia|done]).
  split; [done|]. assert (0 <= bits_left s) as Hl0 by (unfold bits_left, bit_pos; destruct Hwf; lia).
  rewrite check_overrun_spec in H by (done || lia). fold (bits_left s) in H.
  destruct (Z.ltb_spec (bits_left s) n); [left|right]; (split; [lia|]).
  - destruct (read_loop_moved (set_overrun s true) (bits_left s)) as (s2 & out & E & Hmv);
      [by destruct Hwf|lia|done|]. rewrite E in H. cbn [mbind outcome_bind] in H.
    apply outcome_bind_ok in H as ([] & _ & H). injection H as _ <-. apply Hmv.
  - destruct (read_loop_moved s n) as (s2 & out & E & Hmv); [done|lia..|]. rewrite E in H.
    cbn [mbind outcome_bind] in H. apply outcome_bind_ok in H as ([] & _ & H). by injection H as _ <-.
Qed.

(** * Witnesses *)

(** Four bytes in the default orders, the cursor at bit [p]. *)
Definition four_bytes (p : Z) : HInputStream :=
  seek (mkStream [202; 254; 186; 190] 0 0 4 0 0 3 false true) p.

Lemma four_bytes_wf p : 0 <= p <= 32 -> stream_wf (four_bytes p).
Proof.
  intros Hp. apply seek_wf; [|simpl; lia].
  split; try (simpl; lia). repeat constructor; unfold byte; lia.
Qed.

Lemma h_read_bits_spec_witness :
  h_read_bits (four_bytes 3) 12 true = Ok (1407, four_bytes 15) /\
  h_read_bits (four_bytes 25) 12 false = Ok (1984, set_overrun (four_bytes 32) true) /\
  h_read_bits (four_bytes 32) 64 true = Fault BadShift.
Proof.
  split_and!.
  - rewrite (h_read_bits_spec (four_bytes 3) 12 true); [reflexivity|apply four_bytes_wf; lia|done..|lia].
  - rewrite (h_read_bits_spec (four_bytes 25) 12 false); [reflexivity|apply four_bytes_wf; lia|done..|lia].
  - rewrite (h_read_bits_spec (four_bytes 32) 64 true); [reflexivity|apply four_bytes_wf; lia|done..|lia].
Defined.

Lemma h_read_bits_split_witness :
  exists v s1 w s2,
    h_read_bits (four_bytes 3) 5 false = Ok (v, s1) /\ h_read_bits s1 7 false = Ok (w, s2) /\
    h_read_bits (four_bytes 3) 12 false = Ok (v * 2 ^ 7 + w, s2).
Proof.
  apply (h_read_bits_split (four_bytes 3) 5 7);
    [apply four_bytes_wf; lia|reflexivity|reflexivity|lia|lia|lia|vm_compute; discriminate].
Defined.

Lemma h_read_bits_truncates_length_witness :
  h_read_bits (mkStream [] 0 0 (2 ^ 32) 0 0 3 false true) 8 false =
    Ok (0, mkStream [] 0 0 (2 ^ 32) 0 0 3 true true).
Proof.
  exact (h_read_bits_truncates_length (mkStream [] 0 0 (2 ^ 32) 0 0 3 false true)
    eq_refl eq_refl eq_refl).
Defined.

Lemma h_read_bits_safe_witness :
  exists v s', h_read_bits (four_bytes 25) 12 false = Ok (v, s') /\ is_overrun s' = true.
Proof.
  destruct (h_read_bits_safe (four_bytes 25) 12 false) as (v & s' & E & _ & _ & _ & _ & Ho);
    [apply four_bytes_wf; lia|lia|left; lia|].
  exists v, s'. split; [exact E|]. rewrite Ho. reflexivity.
Defined.
