(* ===== verification/ByteStream.v ===== *)
(** Byte-aligned streams, as the table-driven back ends read them: what
    [h_read_bits] does for a whole byte, whatever the two orders. The buffer may
    be longer than the stream, as the lookahead window of LLk is. *)

From S2P Require Import Prelude Stream.

(** The cursor is at a byte of the buffer or at the end of the stream. *)
Record byte_aligned (s : HInputStream) : Prop := {
  ba_offset : is_bit_offset s = 0;
  ba_margin : is_margin s = 0;
  ba_index : 0 <= is_index s <= is_length s;
  ba_length : is_length s <= Z.of_nat (length (is_input s));
  ba_small : is_length s < 2 ^ 27;
  ba_bytes : Forall byte (is_input s);
}.

(** The bytes that are left. *)
Definition rest (s : HInputStream) : list Z :=
  drop (Z.to_nat (is_index s)) (take (Z.to_nat (is_length s)) (is_input s)).

Lemma byte_aligned_wf s :
  stream_wf s -> is_bit_offset s = 0 -> is_margin s = 0 -> byte_aligned s.
Proof. intros [] Hb Hm. split; (done || lia). Qed.

Lemma rest_length s :
  byte_aligned s -> Z.of_nat (length (rest s)) = is_length s - is_index s.
Proof. intros [_ _ Hi Hl _ _]. unfold rest. rewrite length_drop, length_take. lia. Qed.

Lemma rest_bytes s : byte_aligned s -> Forall byte (rest s).
Proof. intros Hs. apply Forall_drop, Forall_take, Hs. Qed.

Lemma rest_lookup s c l :
  byte_aligned s -> rest s = c :: l ->
  is_input s !! Z.to_nat (is_index s) = Some c /\ is_index s < is_length s.
Proof.
  intros Hs Hr. pose proof (rest_length s Hs) as Hl. rewrite Hr in Hl. simpl in Hl.
  split; [|lia]. assert (rest s !! 0%nat = Some c) as H0 by by rewrite Hr.
  unfold rest in H0. rewrite lookup_drop, Nat.add_0_r in H0.
  by apply lookup_take_Some in H0 as [? _].
Qed.

Lemma next_byte_aligned s c l :
  byte_aligned s -> rest s = c :: l -> byte_aligned (next_byte s) /\ rest (next_byte s) = l.
Proof.
  intros Hs Hr. destruct (rest_lookup s c l Hs Hr) as [_ Hi]. destruct Hs as [? ? Hix ? ? ?].
  split; [split; simpl; (done || lia)|]. unfold rest in *. simpl.
  replace (Z.to_nat (is_index s + 1)) with (S (Z.to_nat (is_index s))) by lia.
  rewrite <- Nat.add_1_r, <- drop_drop. by rewrite Hr.
Qed.

Lemma next_byte_overrun s : is_overrun (next_byte s) = is_overrun s.
Proof. done. Qed.

(** [bits_left < count] for a byte. *)
Lemma check_overrun_byte s :
  byte_aligned s ->
  check_overrun s 8 =
    if bool_decide (rest s = []) then
      (set_overrun s true, 0, if has_flag BYTE_BIG_ENDIAN (is_endianness s) then 8 else 0)
    else (s, 8, 0).
Proof.
  intros Hs. pose proof (rest_length s Hs) as Hr. pose proof Hs as [Hb Hm Hi Hl Hsm _].
  unfold check_overrun. rewrite (wraps_small 32) by (change (32 - 1) with 31; lia).
  rewrite Hb, Hm, !Z.sub_0_r. case_bool_decide as He.
  - rewrite He in Hr. simpl in Hr. rewrite <- Hr. done.
  - assert (1 <= is_length s - is_index s) by (destruct (rest s); [done|simpl in Hr; lia]).
    destruct (Z.leb_spec (is_length s - is_index s) 64); [|done].
    rewrite Z.shiftl_mul_pow2 by lia. change (2 ^ 3) with 8.
    rewrite (wraps_small 32 (_ * 8)), wraps_small by (change (32 - 1) with 31; lia).
    destruct (Z.ltb_spec ((is_length s - is_index s) * 8) 8); [lia|done].
Qed.

(** The sign of a byte. *)
Lemma sign_byte c : byte c -> sint64 (Z.lxor (sint64 c) 128 - 128) = wraps 8 c.
Proof.
  intros Hc. unfold byte in Hc.
  assert (forallb (fun c => sint64 (Z.lxor (sint64 c) 128 - 128) =? wraps 8 c) (seqZ 0 256) = true) as Hall
    by (vm_compute; reflexivity).
  rewrite forallb_forall in Hall. apply Z.eqb_eq, Hall, list_elem_of_In, elem_of_seqZ. lia.
Qed.

(** Reading a byte returns the next one and moves on, or only sets [overrun]
    at the end of the stream. *)
Lemma read_byte_any s signed_p :
  byte_aligned s ->
  h_read_bits s 8 signed_p =
  match rest s with
  | [] => Ok (0, set_overrun s true)
  | c :: _ => Ok (if signed_p then wraps 8 c else c, next_byte s)
  end.
Proof.
  intros Hs. unfold h_read_bits. rewrite shl_ok_true by lia. cbn [mbind outcome_bind].
  rewrite check_overrun_byte by done. pose proof Hs as [Hb Hm _ _ _ Hby].
  destruct (rest s) as [|c l] eqn:Hr.
  - rewrite bool_decide_true by done. unfold read_loop.
    cbn [is_bit_offset is_margin is_endianness set_overrun]. rewrite Hb, Hm.
    by destruct (has_flag BYTE_BIG_ENDIAN _), signed_p.
  - rewrite bool_decide_false by done. destruct (rest_lookup s c l Hs Hr) as [Hc _].
    assert (byte c) as Hbc by exact (proj1 (Forall_lookup _ _) Hby _ _ Hc).
    unfold read_loop. rewrite Hb, Hm. cbn [Z.land Z.eqb andb].
    assert (input_at s = Ok c) as Hin by (unfold input_at; by rewrite Hc).
    assert (sint64 c = c) as Hsc by (unfold byte in Hbc; apply wraps_small; change (64 - 1) with 63; lia).
    assert (sint64 (Z.lxor (sint64 (Z.shiftl c 0)) (sint64 (Z.shiftl (if signed_p then 1 else 0) (8 - 1))) -
              sint64 (Z.shiftl (if signed_p then 1 else 0) (8 - 1))) = if signed_p then wraps 8 c else c) as Hv.
    { rewrite Z.shiftl_0_r. destruct signed_p; [change (sint64 (Z.shiftl 1 (8 - 1))) with 128; by apply sign_byte|].
      change (sint64 (Z.shiftl 0 (8 - 1))) with 0. by rewrite Z.sub_0_r, Z.lxor_0_r, !Hsc. }
    destruct (has_flag BYTE_BIG_ENDIAN _); simpl; rewrite Hin; simpl.
    + unfold shl_ok. simpl.
      change (Z.lor (sint64 (Z.shiftl 0 8)) c) with c. by rewrite Hv.
    + unfold shl_ok. simpl. rewrite (Z.shiftl_0_r c), Hsc.
      change (Z.lor 0 c) with c. by rewrite Hv.
Qed.

Lemma read_byte s :
  byte_aligned s ->
  h_read_bits s 8 false =
  match rest s with
  | [] => Ok (0, set_overrun s true)
  | c :: _ => Ok (c, next_byte s)
  end.
Proof. apply read_byte_any. Qed.
