(* ===== verification/BitWriter.v ===== *)
(** The bit writer (src/src/bitwriter.c, HBitWriter of src/src/internal.h).

    The writer's buffer is the list [bw_buf], as long as its capacity. The
    allocator is the parameter [alloc_ok] (does a request of this size
    succeed) with [junk] the contents of fresh memory. The theorems relate the
    buffer to the bit string put so far and to the reader of [Stream]. *)

From S2P Require Import Prelude Stream.

Record HBitWriter := mkWriter {
  bw_buf : list Z;
  bw_index : Z;
  bw_capacity : Z;
  bw_bit_offset : Z;   (** used bits of the current byte *)
  bw_flags : Z;
  bw_error : Z;
}.

Section writer.
Context (alloc_ok : Z -> bool) (junk : Z).

(** [h_bit_writer_new]: the record is zeroed, the buffer has 8 zero bytes.
    (The code tests [writer], not [writer->buf], after the allocation.) *)
Definition h_bit_writer_new : outcome HBitWriter :=
  if alloc_ok 8
  then Ok (mkWriter (replicate 8 0) 0 8 0 (Z.lor BYTE_BIG_ENDIAN BIT_BIG_ENDIAN) 0)
  else Fault NullDeref. (* memset(NULL, 0, 8) *)

(** The loop of [h_bit_writer_reserve]: [None] when an allocation failed. *)
Fixpoint reserve_loop (fuel : nat) (index nbytes : Z) (buf : list Z) (capacity : Z)
    : outcome (option (list Z * Z) * Z) :=
  if capacity <=? index + nbytes then
    match fuel with
    | O => OutOfFuel
    | S fuel =>
        let capacity' := capacity * 2 in
        if alloc_ok capacity'
        then reserve_loop fuel index nbytes
               (buf ++ replicate (Z.to_nat capacity' - length buf) junk) capacity'
        else Ok (None, capacity')
    end
  else Ok (Some (buf, capacity), capacity).

Definition h_bit_writer_reserve (w : HBitWriter) (nbits : Z) : outcome HBitWriter :=
  let nbytes := (nbits + 7) / 8 + (if bw_bit_offset w =? 0 then 0 else 1) in
  let old_capacity := bw_capacity w in
  '(r, capacity) ← reserve_loop (Z.to_nat (bw_index w + nbytes)) (bw_index w) nbytes
                     (bw_buf w) old_capacity;
  match r with
  | None => Ok (mkWriter [] (bw_index w) capacity (bw_bit_offset w) (bw_flags w) 1)
  | Some (buf, capacity) =>
      (* memset(w->buf + old_capacity, 0, w->capacity - old_capacity) *)
      let buf' := if old_capacity =? capacity then buf
                  else take (Z.to_nat old_capacity) buf
                       ++ replicate (Z.to_nat (capacity - old_capacity)) 0 in
      Ok (mkWriter buf' (bw_index w) capacity (bw_bit_offset w) (bw_flags w) (bw_error w))
  end.

(** One round of the loop of [h_bit_writer_put]: data and bits left after it. *)
Definition put_step (w : HBitWriter) (data nbits : Z) : outcome (HBitWriter * Z * Z) :=
  let count := Z.min (8 - bw_bit_offset w) nbits in
  '(bits, data') ←
    (if has_flag BYTE_BIG_ENDIAN (bw_flags w)
     then _ ← shl_ok 64 (nbits - count); Ok (uint16 (Z.shiftr data (nbits - count)), data)
     else _ ← shl_ok 64 count; Ok (Z.land data 255, Z.shiftr data count));
  let bits := Z.land bits (Z.shiftl 1 count - 1) in
  b ← deref OutOfBounds (bw_buf w !! Z.to_nat (bw_index w));
  let b' := if has_flag BIT_BIG_ENDIAN (bw_flags w)
            then uint8 (Z.lor (Z.shiftl b count) bits)
            else uint8 (Z.shiftr (Z.lor b (Z.shiftl bits 8)) count) in
  let buf := <[Z.to_nat (bw_index w) := b']> (bw_buf w) in
  let bo := bw_bit_offset w + count in
  let '(index, bo) := if bo =? 8 then (bw_index w + 1, 0) else (bw_index w, bo) in
  Ok (mkWriter buf index (bw_capacity w) bo (bw_flags w) (bw_error w), data', nbits - count).

Fixpoint put_loop (fuel : nat) (w : HBitWriter) (data nbits : Z) : outcome HBitWriter :=
  if nbits =? 0 then Ok w else
  match fuel with
  | O => OutOfFuel
  | S fuel =>
      '(w', data', nbits') ← put_step w data nbits;
      put_loop fuel w' data' nbits'
  end.

Definition h_bit_writer_put (w : HBitWriter) (data nbits : Z) : outcome HBitWriter :=
  _ ← assert_ok (0 <? nbits);
  w ← h_bit_writer_reserve w nbits;
  put_loop (Z.to_nat nbits) w data nbits.

(** [h_bit_writer_get_buffer]: the bytes written. *)
Definition h_bit_writer_get_buffer (w : HBitWriter) : outcome (list Z) :=
  _ ← assert_ok (bw_bit_offset w =? 0);
  Ok (take (Z.to_nat (bw_index w)) (bw_buf w)).

(** A sequence of puts. *)
Fixpoint put_all (w : HBitWriter) (ops : list (Z * Z)) : outcome HBitWriter :=
  match ops with
  | [] => Ok w
  | (data, nbits) :: ops => w ← h_bit_writer_put w data nbits; put_all w ops
  end.
End writer.

(** * Invariant *)

(** Bits put so far, and their value, the first one the most significant. *)
Definition bw_bits (w : HBitWriter) : Z := bw_index w * 8 + bw_bit_offset w.
Definition bw_value (w : HBitWriter) : Z :=
  be_bits (bw_buf w) 0 (Z.to_nat (bw_index w * 8)) * 2 ^ bw_bit_offset w
  + byte_at (bw_buf w) (bw_index w).

Record writer_wf (w : HBitWriter) : Prop := {
  bwf_cap : bw_capacity w = Z.of_nat (length (bw_buf w));
  bwf_bytes : Forall byte (bw_buf w);
  bwf_index : 0 <= bw_index w < bw_capacity w;
  bwf_off : 0 <= bw_bit_offset w < 8;
  bwf_flags : bw_flags w = Z.lor BYTE_BIG_ENDIAN BIT_BIG_ENDIAN;
  bwf_partial : byte_at (bw_buf w) (bw_index w) < 2 ^ bw_bit_offset w;
  bwf_rest : forall i, bw_index w < i -> byte_at (bw_buf w) i = 0;
}.

Lemma be_bits_ext l1 l2 p n :
  0 <= p -> (forall i, p / 8 <= i -> i * 8 < p + Z.of_nat n -> byte_at l1 i = byte_at l2 i) ->
  be_bits l1 p n = be_bits l2 p n.
Proof.
  intros Hp. induction n as [|n IH]; intros Hi; [done|]. cbn [be_bits].
  rewrite IH by (intros; apply Hi; lia). f_equal. unfold bit_be. do 2 f_equal.
  pose proof (Z_div_mod_eq_full (p + Z.of_nat n) 8). pose proof (Z.mod_pos_bound (p + Z.of_nat n) 8).
  apply Hi; [apply Z.div_le_mono; lia|lia].
Qed.

Lemma byte_at_insert l i j b :
  0 <= i < Z.of_nat (length l) -> 0 <= j ->
  byte_at (<[Z.to_nat i := b]> l) j = if decide (i = j) then b else byte_at l j.
Proof.
  intros Hi Hj. unfold byte_at. case_decide as E.
  - subst. rewrite list_lookup_insert_eq by lia. done.
  - rewrite list_lookup_insert_ne by lia. done.
Qed.

Lemma byte_at_zeros l k i :
  byte_at (l ++ replicate k 0) i = byte_at l i.
Proof.
  unfold byte_at.
  destruct (decide (Z.to_nat i < length l)%nat).
  - by rewrite lookup_app_l.
  - rewrite lookup_app_r by lia. rewrite (proj2 (lookup_ge_None l _)) by lia.
    destruct (replicate k 0 !! _) eqn:E; [|done].
    by apply lookup_replicate in E as [-> _].
Qed.

Lemma byte_at_lookup l i : 0 <= i < Z.of_nat (length l) -> l !! Z.to_nat i = Some (byte_at l i).
Proof.
  intros Hi. unfold byte_at.
  destruct (lookup_lt_is_Some_2 l (Z.to_nat i)) as [b ->]; [lia|done].
Qed.

Section facts.
Context (alloc_ok : Z -> bool) (junk : Z).

Lemma writer_new_wf w : h_bit_writer_new alloc_ok = Ok w ->
  writer_wf w /\ bw_bits w = 0 /\ bw_value w = 0 /\ bw_error w = 0.
Proof.
  unfold h_bit_writer_new. destruct (alloc_ok 8); [|discriminate]. intros [= <-].
  split; [|done]. split; try done; simpl; try lia.
  - repeat constructor; lia.
  - intros i _. rewrite (byte_at_zeros [] 8). unfold byte_at. by destruct (Z.to_nat i).
Qed.

Lemma reserve_loop_ok fuel index nbytes buf capacity :
  (forall n, alloc_ok n = true) ->
  capacity = Z.of_nat (length buf) -> 0 < capacity ->
  (index + nbytes < capacity + Z.of_nat fuel) ->
  exists buf' capacity', reserve_loop alloc_ok junk fuel index nbytes buf capacity =
    Ok (Some (buf', capacity'), capacity') /\
    capacity' = Z.of_nat (length buf') /\ capacity <= capacity' /\ index + nbytes < capacity' /\
    take (length buf) buf' = buf.
Proof.
  intros Hall. revert buf capacity. induction fuel as [|fuel IH]; intros buf capacity Hc Hp Hf;
    cbn [reserve_loop]; destruct (Z.leb_spec capacity (index + nbytes)); try lia.
  1,3: exists buf, capacity; split_and!; [done..|lia|lia|apply firstn_all].
  rewrite Hall. set (buf1 := buf ++ replicate _ junk).
  assert (length buf1 = Z.to_nat (capacity * 2)) as Hl1.
  { subst buf1. rewrite length_app, length_replicate. lia. }
  destruct (IH buf1 (capacity * 2)) as (buf' & c' & -> & Hc' & Hle & Hlt & Ht); [lia..|].
  exists buf', c'. split_and!; [done|done|lia|lia|].
  assert (take (length buf) (take (length buf1) buf') = take (length buf) buf1) as He by congruence.
  rewrite take_take, Nat.min_l in He by lia.
  rewrite He. subst buf1. by rewrite take_app_length.
Qed.

(** Reserving changes neither the bits nor the cursor. *)
Lemma reserve_ok w nbits :
  (forall n, alloc_ok n = true) -> writer_wf w -> 0 < nbits ->
  exists w', h_bit_writer_reserve alloc_ok junk w nbits = Ok w' /\ writer_wf w' /\
    bw_value w' = bw_value w /\ bw_bits w' = bw_bits w /\ bw_error w' = bw_error w /\
    bw_bits w' + nbits < bw_capacity w' * 8.
Proof.
  intros Hall Hwf Hn. destruct Hwf as [Hc Hby Hi Ho Hf Hp Hr].
  unfold h_bit_writer_reserve. set (nbytes := _ / 8 + _).
  pose proof (Z_div_mod_eq_full (nbits + 7) 8). pose proof (Z.mod_pos_bound (nbits + 7) 8).
  assert (0 < nbytes) by (subst nbytes; destruct (bw_bit_offset w =? 0); lia).
  destruct (reserve_loop_ok (Z.to_nat (bw_index w + nbytes)) (bw_index w) nbytes (bw_buf w)
    (bw_capacity w)) as (buf' & c' & -> & Hc' & Hle & Hlt & Ht); [done|done|lia..|].
  cbn [mbind outcome_bind].
  set (buf2 := if bw_capacity w =? c' then buf' else _).
  assert (buf2 = bw_buf w ++ replicate (Z.to_nat (c' - bw_capacity w)) 0) as Hbuf2.
  { subst buf2. destruct (Z.eqb_spec (bw_capacity w) c') as [E|E].
    - replace (Z.to_nat (c' - bw_capacity w)) with 0%nat by lia. rewrite app_nil_r.
      rewrite <- Ht. symmetry. apply firstn_all2. lia.
    - f_equal. by rewrite Hc, Nat2Z.id. }
  rewrite Hbuf2. clear Hbuf2 buf2.
  eexists. split; [done|].
  assert (bw_bits w + nbits < c' * 8) as Hroom.
  { unfold bw_bits. subst nbytes. destruct (Z.eqb_spec (bw_bit_offset w) 0); lia. }
  split_and!; [|unfold bw_value|done|done|done]; simpl.
  - split; simpl; try done; try lia.
    + rewrite length_app, length_replicate. lia.
    + apply Forall_app. split; [done|]. apply Forall_replicate. unfold byte. lia.
    + by rewrite byte_at_zeros.
    + intros i Hi'. rewrite byte_at_zeros. by apply Hr.
  - rewrite byte_at_zeros. f_equal. f_equal. apply be_bits_ext; [lia|].
    intros. by rewrite byte_at_zeros.
Qed.

Lemma uint16_land x n :
  0 <= n <= 8 -> Z.land (uint16 x) (Z.shiftl 1 n - 1) = x mod 2 ^ n.
Proof.
  intros Hn. rewrite shiftl_1_ones, land_ones_mod by lia. unfold wrapu.
  replace (2 ^ 16) with (2 ^ n * 2 ^ (16 - n)) by (rewrite <- Z.pow_add_r by lia; f_equal; lia).
  rewrite Z.rem_mul_r by lia. rewrite Z.mul_comm, Z_mod_plus_full. apply Z.mod_mod. lia.
Qed.

(** One round of the loop appends [count] bits of the data. *)
Lemma put_step_be w data nbits :
  writer_wf w -> 0 < nbits <= 64 -> bw_bits w + nbits < bw_capacity w * 8 ->
  let count := Z.min (8 - bw_bit_offset w) nbits in
  exists w', put_step w data nbits = Ok (w', data, nbits - count) /\ writer_wf w' /\
    bw_bits w' = bw_bits w + count /\ bw_capacity w' = bw_capacity w /\
    bw_error w' = bw_error w /\
    bw_value w' = bw_value w * 2 ^ count + data / 2 ^ (nbits - count) mod 2 ^ count.
Proof.
  intros Hwf Hn Hroom count. pose proof Hwf as [Hc Hby Hi Ho Hf Hp Hr].
  assert (0 < count <= 8 - bw_bit_offset w /\ count <= nbits) as Hcount by lia.
  unfold put_step. fold count. rewrite Hf.
  change (has_flag BYTE_BIG_ENDIAN (Z.lor BYTE_BIG_ENDIAN BIT_BIG_ENDIAN)) with true.
  change (has_flag BIT_BIG_ENDIAN (Z.lor BYTE_BIG_ENDIAN BIT_BIG_ENDIAN)) with true.
  cbv beta iota zeta. rewrite shl_ok_true by lia. cbn [mbind outcome_bind].
  rewrite byte_at_lookup by lia. cbn [deref mbind outcome_bind].
  rewrite uint16_land, Z.shiftr_div_pow2 by lia.
  set (b := byte_at (bw_buf w) (bw_index w)) in *.
  set (v := data / 2 ^ (nbits - count) mod 2 ^ count).
  assert (0 <= v < 2 ^ count) by (apply Z.mod_pos_bound; lia).
  assert (0 <= b) by (apply (byte_at_range _ _ Hby)).
  assert (2 ^ (bw_bit_offset w + count) <= 2 ^ 8) by (apply Z.pow_le_mono_r; lia).
  assert (b * 2 ^ count + v < 2 ^ (bw_bit_offset w + count))
    by (rewrite Z.pow_add_r by lia; nia).
  assert (0 <= b * 2 ^ count) by nia.
  rewrite lor_shiftl_add, wrapu_small by lia.
  assert (Hext : be_bits (<[Z.to_nat (bw_index w):=b * 2 ^ count + v]> (bw_buf w)) 0
      (Z.to_nat (bw_index w * 8)) = be_bits (bw_buf w) 0 (Z.to_nat (bw_index w * 8))).
  { apply be_bits_ext; [lia|]. intros i Hi0 Hi8. change (0 / 8) with 0 in Hi0.
    rewrite byte_at_insert by lia. by rewrite decide_False by lia. }
  assert (Hins : forall j, 0 <= j -> byte_at (<[Z.to_nat (bw_index w):=b * 2 ^ count + v]>
      (bw_buf w)) j = if decide (bw_index w = j) then b * 2 ^ count + v else byte_at (bw_buf w) j)
    by (intros; apply byte_at_insert; lia).
  assert (Forall byte (<[Z.to_nat (bw_index w):=b * 2 ^ count + v]> (bw_buf w)))
    by (apply Forall_insert; [done|unfold byte; lia]).
  unfold bw_bits in *.
  destruct (Z.eqb_spec (bw_bit_offset w + count) 8) as [E8|E8].
  all: eexists; split; [done|]; unfold bw_value; simpl; split_and!; try lia.
  - split; simpl; try done; try lia.
    + by rewrite length_insert.
    + rewrite Hins, decide_False by lia. rewrite Hr by lia. lia.
    + intros i Hlt. rewrite Hins, decide_False by lia. apply Hr. lia.
  - rewrite Hins, decide_False, Hr by lia.
    replace (Z.to_nat ((bw_index w + 1) * 8)) with (Z.to_nat (bw_index w * 8) + 8)%nat by lia.
    rewrite be_bits_app, Hext.
    rewrite Z2Nat.id by lia.
    change (be_bits ?l ?p 8) with (be_bits l p (Z.to_nat 8)).
    rewrite (be_bits_at _ (0 + bw_index w * 8)) by (rewrite ?Z.add_0_l, ?Z.mod_mul; lia).
    rewrite Z.add_0_l, Z.div_mul, Z.mod_mul by lia.
    rewrite Hins, decide_True by lia. rewrite Z.div_1_r, Z.mod_small by lia.
    change (Z.of_nat 8) with 8. rewrite <- E8, Z.pow_add_r by lia. fold b. lia.
  - split; simpl; try done; try lia.
    + by rewrite length_insert.
    + by rewrite Hins, decide_True by lia.
    + intros i Hlt. rewrite Hins, decide_False by lia. apply Hr. lia.
  - rewrite Hext, Hins, decide_True, Z.pow_add_r by lia. lia.
Qed.

(** The loop appends all the bits. *)
Lemma put_loop_be fuel w data nbits :
  writer_wf w -> 0 <= nbits <= 64 -> bw_bits w + nbits < bw_capacity w * 8 ->
  (Z.to_nat nbits <= fuel)%nat ->
  exists w', put_loop fuel w data nbits = Ok w' /\ writer_wf w' /\
    bw_bits w' = bw_bits w + nbits /\ bw_error w' = bw_error w /\
    bw_value w' = bw_value w * 2 ^ nbits + data mod 2 ^ nbits.
Proof.
  revert w nbits. induction fuel as [|fuel IH]; intros w nbits Hwf Hn Hroom Hf;
    cbn [put_loop]; destruct (Z.eqb_spec nbits 0) as [->|Hne]; try lia.
  1,2: exists w; rewrite Z.pow_0_r, Z.mod_1_r; split_and!; (done || lia).
  destruct (put_step_be w data nbits) as (w1 & -> & Hwf1 & Hb1 & Hc1 & He1 & Hv1);
    [done|lia..|].
  set (count := Z.min _ _) in *. pose proof (bwf_off _ Hwf).
  assert (0 < count <= nbits) by (subst count; lia).
  cbn [mbind outcome_bind].
  destruct (IH w1 (nbits - count)) as (w2 & -> & Hwf2 & Hb2 & He2 & Hv2); [done|lia..|].
  exists w2. split_and!; [done|done|lia|congruence|].
  rewrite Hv2, Hv1. replace (2 ^ nbits) with (2 ^ (nbits - count) * 2 ^ count)
    by (rewrite <- Z.pow_add_r by lia; f_equal; lia).
  rewrite Z.rem_mul_r by lia. lia.
Qed.

Lemma h_bit_writer_put_ok w data nbits :
  (forall n, alloc_ok n = true) -> writer_wf w -> 1 <= nbits <= 64 ->
  exists w', h_bit_writer_put alloc_ok junk w data nbits = Ok w' /\ writer_wf w' /\
    bw_bits w' = bw_bits w + nbits /\ bw_error w' = bw_error w /\
    bw_value w' = bw_value w * 2 ^ nbits + data mod 2 ^ nbits.
Proof.
  intros Hall Hwf Hn. unfold h_bit_writer_put.
  destruct (Z.ltb_spec 0 nbits); [|lia]. cbn [assert_ok mbind outcome_bind].
  destruct (reserve_ok w nbits) as (w1 & -> & Hwf1 & Hv1 & Hb1 & He1 & Hr1); [done|done|lia|].
  cbn [mbind outcome_bind].
  destruct (put_loop_be (Z.to_nat nbits) w1 data nbits) as (w2 & -> & Hwf2 & Hb2 & He2 & Hv2);
    [done|lia..|].
  exists w2. split_and!; [done|done|lia|congruence|]. by rewrite Hv2, Hv1.
Qed.

(** Bits and value of a sequence of puts. *)
Definition ops_bits (ops : list (Z * Z)) : Z := foldr (fun o a => o.2 + a) 0 ops.
Fixpoint ops_value (acc : Z) (ops : list (Z * Z)) : Z :=
  match ops with
  | [] => acc
  | (d, n) :: ops => ops_value (acc * 2 ^ n + d mod 2 ^ n) ops
  end.
Definition ops_ok (ops : list (Z * Z)) : Prop := Forall (fun o => 1 <= o.2 <= 64) ops.

Lemma put_all_ok ops w :
  (forall n, alloc_ok n = true) -> writer_wf w -> ops_ok ops ->
  exists w', put_all alloc_ok junk w ops = Ok w' /\ writer_wf w' /\
    bw_bits w' = bw_bits w + ops_bits ops /\ bw_error w' = bw_error w /\
    bw_value w' = ops_value (bw_value w) ops.
Proof.
  intros Hall. revert w. induction ops as [|[d n] ops IH]; intros w Hwf Hops; simpl.
  - exists w. split_and!; (done || lia).
  - inversion Hops as [|? ? Hn Hops']; simplify_eq. simpl in Hn.
    destruct (h_bit_writer_put_ok w d n) as (w1 & -> & Hwf1 & Hb1 & He1 & Hv1); [done..|].
    simpl. destruct (IH w1) as (w2 & -> & Hwf2 & Hb2 & He2 & Hv2); [done..|].
    exists w2. split_and!; [done|done|lia|congruence|]. by rewrite Hv2, Hv1.
Qed.

Lemma ops_bits_nonneg ops : ops_ok ops -> 0 <= ops_bits ops.
Proof. induction 1 as [|[d n] ops Hn _ IH]; simpl in *; lia. Qed.

Lemma ops_value_split ops :
  ops_ok ops ->
  exists v, 0 <= v < 2 ^ ops_bits ops /\
    forall acc', ops_value acc' ops = acc' * 2 ^ ops_bits ops + v.
Proof.
  intros Hops. induction Hops as [|[d n] ops Hn Hops IH]; simpl in *.
  - exists 0. split; [lia|intros; lia].
  - destruct IH as (v & Hv & IH). pose proof (ops_bits_nonneg ops Hops).
    pose proof (Z.mod_pos_bound d (2 ^ n)).
    exists (d mod 2 ^ n * 2 ^ ops_bits ops + v). rewrite Z.pow_add_r by lia.
    split; [nia|]. intros acc'. rewrite IH. lia.
Qed.
End facts.

(** * Reading back *)

(** [h_read_bits] for each width in turn, unsigned. *)
Fixpoint read_all (s : HInputStream) (widths : list Z) : outcome (list Z * HInputStream) :=
  match widths with
  | [] => Ok ([], s)
  | n :: widths =>
      '(v, s1) ← h_read_bits s n false;
      '(vs, s2) ← read_all s1 widths;
      Ok (v :: vs, s2)
  end.

(** A stream over a whole buffer, in the default orders. *)
Definition buffer_stream (buf : list Z) : HInputStream :=
  mkStream buf 0 0 (Z.of_nat (length buf)) 0 0
    (Z.lor BYTE_BIG_ENDIAN BIT_BIG_ENDIAN) false true.

(** If the bits at [p] spell [ops], the reader returns them one by one. *)
Lemma read_all_ops s ops p :
  stream_wf s -> is_margin s = 0 -> is_endianness s = Z.lor BYTE_BIG_ENDIAN BIT_BIG_ENDIAN ->
  ops_ok ops -> 0 <= p -> p + ops_bits ops <= is_length s * 8 ->
  be_bits (is_input s) p (Z.to_nat (ops_bits ops)) = ops_value 0 ops ->
  read_all (seek s p) (ops.*2) =
    Ok (map (fun o => sint64 (o.1 mod 2 ^ o.2)) ops, seek s (p + ops_bits ops)).
Proof.
  intros Hwf Hm He Hops. revert p. induction Hops as [|[d n] ops Hn Hops IH]; intros p Hp Hlen Hb.
  { simpl. by rewrite Z.add_0_r. }
  simpl in Hn, Hlen, Hb. pose proof (ops_bits_nonneg ops Hops).
  rewrite Z2Nat.inj_add, be_bits_app, !Z2Nat.id in Hb by lia.
  destruct (ops_value_split ops Hops) as (v & Hv & Hval). rewrite Hval in Hb.
  pose proof (be_bits_range (is_input s) (p + n) (Z.to_nat (ops_bits ops))) as Hr.
  rewrite Z2Nat.id in Hr by lia.
  assert (be_bits (is_input s) p (Z.to_nat n) = d mod 2 ^ n /\
          be_bits (is_input s) (p + n) (Z.to_nat (ops_bits ops)) = v) as [Hhd Htl].
  { apply (Z.div_mod_unique (2 ^ ops_bits ops)); lia. }
  change (((d, n) :: ops).*2) with (n :: ops.*2).
  change (ops_bits ((d, n) :: ops)) with (n + ops_bits ops). cbn [read_all map]. rewrite h_read_bits_in_bounds.
  2: apply seek_wf; [done|lia].
  2: done.
  2: unfold same_order; simpl; by rewrite He.
  2: lia.
  2: rewrite bit_pos_seek; simpl; lia.
  cbn [mbind outcome_bind]. rewrite bit_pos_seek, seek_seek.
  rewrite IH; [|lia|lia|rewrite Htl, Hval; lia].
  cbn [mbind outcome_bind]. unfold read_value, stream_bits. simpl. rewrite He, bit_pos_seek.
  change (has_flag BIT_BIG_ENDIAN _) with true. cbn [negb]. rewrite Hhd.
  do 3 f_equal. lia.
Qed.

(** C23: writing a sequence of fields and reading them back with the same widths
    returns them: the writer's buffer is the concatenation of the fields, and
    neither side runs out of room or fuel. *)
Theorem writer_reader_roundtrip alloc_ok junk ops :
  (forall n, alloc_ok n = true) -> ops_ok ops ->
  ops_bits ops mod 8 = 0 -> ops_bits ops < 2 ^ 30 ->
  exists w0 w buf, h_bit_writer_new alloc_ok = Ok w0 /\
    put_all alloc_ok junk w0 ops = Ok w /\ bw_error w = 0 /\
    h_bit_writer_get_buffer w = Ok buf /\ Z.of_nat (length buf) * 8 = ops_bits ops /\
    exists s, read_all (buffer_stream buf) (ops.*2) =
      Ok (map (fun o => sint64 (o.1 mod 2 ^ o.2)) ops, s) /\
    bit_pos s = Z.of_nat (length buf) * 8 /\ is_overrun s = false.
Proof.
  intros Hall Hops Hmod Hsmall. destruct (h_bit_writer_new alloc_ok) as [w0| |] eqn:E0.
  2,3: unfold h_bit_writer_new in E0; rewrite Hall in E0; discriminate.
  destruct (writer_new_wf alloc_ok w0 E0) as (Hwf0 & Hb0 & Hv0 & He0).
  destruct (put_all_ok alloc_ok junk ops w0) as (w & Hput & Hwf & Hb & He & Hv); [done..|].
  rewrite Hb0, Z.add_0_l in Hb. rewrite Hv0 in Hv. rewrite He0 in He.
  pose proof Hwf as [Hc Hby Hi Ho Hf Hp Hr]. unfold bw_bits in Hb.
  assert (bw_bit_offset w = 0) as Hoff.
  { rewrite <- Hb, Z.add_comm, Z.mod_add, Z.mod_small in Hmod by lia. done. }
  rewrite Hoff in *. set (buf := take (Z.to_nat (bw_index w)) (bw_buf w)).
  assert (length buf = Z.to_nat (bw_index w)) as Hlen by (subst buf; rewrite length_take; lia).
  exists w0, w, buf. split_and!; [done|done|done|..].
  { unfold h_bit_writer_get_buffer. by rewrite Hoff. }
  { lia. }
  assert (buffer_stream buf = seek (buffer_stream buf) 0) as -> by done.
  exists (seek (buffer_stream buf) (0 + ops_bits ops)).
  split; [|split; [rewrite bit_pos_seek; lia|done]].
  apply read_all_ops; simpl; try done; try lia.
  - split; simpl; try done; try lia. subst buf. by apply Forall_take.
  - rewrite <- Hv. unfold bw_value. rewrite Hoff, Z.mul_1_r.
    assert (byte_at (bw_buf w) (bw_index w) = 0) as ->.
    { destruct (byte_at_range (bw_buf w) (bw_index w) Hby). lia. }
    replace (ops_bits ops) with (bw_index w * 8) by lia. rewrite Z.add_0_r.
    apply be_bits_ext; [lia|]. intros i Hi0 Hi8. change (0 / 8) with 0 in Hi0.
    unfold byte_at. subst buf. rewrite lookup_take_lt by lia. done.
Qed.

(** After a failed reallocation the writer has an error flag and no buffer,
    and the put that reserved the space then writes through the NULL pointer. *)
Theorem h_bit_writer_put_after_failed_reserve junk w data nbits :
  writer_wf w -> 1 <= nbits <= 64 -> bw_capacity w * 8 <= bw_index w * 8 + nbits ->
  (exists w', h_bit_writer_reserve (fun _ => false) junk w nbits = Ok w' /\
     bw_error w' = 1 /\ bw_buf w' = []) /\
  h_bit_writer_put (fun _ => false) junk w data nbits = Fault OutOfBounds.
Proof.
  intros Hwf Hn Hfull. pose proof Hwf as [Hc Hby Hi Ho Hf Hp Hr].
  assert (exists w', h_bit_writer_reserve (fun _ => false) junk w nbits = Ok w' /\
     bw_error w' = 1 /\ bw_buf w' = [] /\ bw_flags w' = bw_flags w /\
     bw_bit_offset w' = bw_bit_offset w) as (w' & Hres & He' & Hb' & Hf' & Ho').
  { unfold h_bit_writer_reserve. set (nbytes := _ / 8 + _).
    pose proof (Z_div_mod_eq_full (nbits + 7) 8). pose proof (Z.mod_pos_bound (nbits + 7) 8).
    assert (nbits <= nbytes * 8) by (subst nbytes; destruct (bw_bit_offset w =? 0); lia).
    destruct (Z.to_nat (bw_index w + nbytes)) eqn:E; [lia|]. cbn [reserve_loop].
    destruct (Z.leb_spec (bw_capacity w) (bw_index w + nbytes)); [|lia].
    cbn [mbind outcome_bind]. by eexists. }
  split; [by exists w'|]. unfold h_bit_writer_put.
  destruct (Z.ltb_spec 0 nbits); [|lia]. cbn [assert_ok mbind outcome_bind]. rewrite Hres.
  cbn [mbind outcome_bind]. destruct (Z.to_nat nbits) eqn:E; [lia|]. cbn [put_loop].
  destruct (Z.eqb_spec nbits 0); [lia|]. unfold put_step. rewrite Hf', Hf, Ho', Hb'.
  change (has_flag BYTE_BIG_ENDIAN _) with true. cbv beta iota.
  rewrite shl_ok_true by lia. cbn [mbind outcome_bind]. done.
Qed.

(** * Witnesses *)

Lemma writer_reader_roundtrip_witness :
  exists w0 w buf, h_bit_writer_new (fun _ => true) = Ok w0 /\
    put_all (fun _ => true) 0 w0 [(5, 3); (300, 9); (1, 4)] = Ok w /\
    h_bit_writer_get_buffer w = Ok buf /\
    exists s, read_all (buffer_stream buf) [3; 9; 4] = Ok ([5; 300; 1], s).
Proof.
  destruct (writer_reader_roundtrip (fun _ => true) 0 [(5, 3); (300, 9); (1, 4)])
    as (w0 & w & buf & H1 & H2 & _ & H3 & _ & s & H4 & _);
    [done|repeat constructor; simpl; lia|reflexivity|reflexivity|].
  exists w0, w, buf. split; [exact H1|]. split; [exact H2|]. split; [exact H3|].
  exists s. exact H4.
Defined.

(** Seven bytes written, the eighth one does not fit with the reserve's slack. *)
Definition full_writer : HBitWriter :=
  mkWriter (replicate 8 0) 7 8 0 (Z.lor BYTE_BIG_ENDIAN BIT_BIG_ENDIAN) 0.

Lemma full_writer_wf : writer_wf full_writer.
Proof.
  split; try done; simpl; try lia.
  - repeat constructor; lia.
  - intros i _. rewrite (byte_at_zeros [] 8). unfold byte_at. by destruct (Z.to_nat i).
Qed.

Lemma h_bit_writer_put_after_failed_reserve_witness :
  h_bit_writer_put (fun _ => false) 0 full_writer 255 8 = Fault OutOfBounds.
Proof.
  apply (h_bit_writer_put_after_failed_reserve 0 full_writer 255 8);
    [exact full_writer_wf|lia|vm_compute; discriminate].
Defined.
