(* ===== verification/Charset.v ===== *)
(** Character sets (src/src/internal.h: HCharset, new_charset, charset_isset,
    charset_set; the constructors of src/src/parsers/charset.c).

    A charset is eight 32-bit words, bit [c mod 32] of word [c / 32] for the
    character [c]. The theorems show that the words represent a set of bytes. *)

From S2P Require Import Prelude.

Abbreviation HCharset := (list Z).

(** [h_new(unsigned int, 8)] and [memset(cs, 0, 32)]. *)
Definition new_charset : HCharset := replicate 8 0.

(** [1 << (pos % 32)], converted to [unsigned int] by the [&] or [|] it is under. *)
Definition charset_bit (pos : Z) : Z := uint32 (Z.shiftl 1 (pos mod 32)).

Definition charset_isset (cs : HCharset) (pos : Z) : outcome bool :=
  w ← deref OutOfBounds (cs !! Z.to_nat (pos / 32));
  Ok (negb (Z.land w (charset_bit pos) =? 0)).

Definition charset_set (cs : HCharset) (pos : Z) (val : Z) : outcome HCharset :=
  let i := Z.to_nat (pos / 32) in
  w ← deref OutOfBounds (cs !! i);
  Ok (<[i := if negb (val =? 0)
             then Z.lor w (charset_bit pos)
             else Z.land w (uint32 (Z.lnot (charset_bit pos)))]> cs).

(** [for (i = 0; i < 256; i++) charset_set(cs, i, val(i))], over any list of positions. *)
Fixpoint charset_set_all (cs : HCharset) (poss : list Z) (val : Z -> Z) : outcome HCharset :=
  match poss with
  | [] => Ok cs
  | pos :: poss => cs ← charset_set cs (uint8 pos) (val pos); charset_set_all cs poss val
  end.

Definition all_chars : list Z := Z.of_nat <$> seq 0 256.

Definition b2z (b : bool) : Z := if b then 1 else 0.

(** The charset of [h_ch_range__m]. *)
Definition ch_range_charset (lower upper : Z) : outcome HCharset :=
  charset_set_all new_charset all_chars (fun i => b2z ((lower <=? i) && (i <=? upper))).

(** The charset of [h_in_or_not__m]; [h_in] and [h_not_in] call it with 1 and 0. *)
Definition in_or_not_charset (options : list Z) (val : Z) : outcome HCharset :=
  cs ← charset_set_all new_charset all_chars (fun _ => 1 - val);
  charset_set_all cs options (fun _ => val).

(** * Facts *)

(** Eight words of 32 bits. *)
Definition charset_wf (cs : HCharset) : Prop :=
  length cs = 8%nat /\ Forall (fun w => 0 <= w < 2 ^ 32) cs.

Definition charset_mem (cs : HCharset) (c : Z) : bool :=
  Z.testbit (default 0 (cs !! Z.to_nat (c / 32))) (c mod 32).

Lemma new_charset_wf : charset_wf new_charset.
Proof. split; [done|]. repeat constructor; lia. Qed.

Lemma charset_bit_spec pos i :
  0 <= i < 32 -> Z.testbit (charset_bit pos) i = (pos mod 32 =? i).
Proof.
  intros Hi. pose proof (Z.mod_pos_bound pos 32). unfold charset_bit, wrapu.
  rewrite Z.mod_pow2_bits_low, Z.shiftl_1_l by lia.
  rewrite Z.pow2_bits_eqb by lia. done.
Qed.

Lemma charset_bit_pow2 pos : charset_bit pos = 2 ^ (pos mod 32).
Proof.
  pose proof (Z.mod_pos_bound pos 32). unfold charset_bit.
  rewrite Z.shiftl_1_l. apply wrapu_small. split; [lia|]. apply Z.pow_lt_mono_r; lia.
Qed.

Lemma land_pow2_testbit w i : 0 <= i -> negb (Z.land w (2 ^ i) =? 0) = Z.testbit w i.
Proof.
  intros Hi. destruct (Z.eqb_spec (Z.land w (2 ^ i)) 0) as [E|E].
  - assert (Z.testbit (Z.land w (2 ^ i)) i = false) as H by (rewrite E; apply Z.bits_0).
    rewrite Z.land_spec, Z.pow2_bits_true, andb_true_r in H by lia. by rewrite H.
  - simpl. destruct (Z.testbit w i) eqn:Hb; [done|]. destruct E. apply Z.bits_inj'. intros j Hj.
    rewrite Z.land_spec, Z.pow2_bits_eqb, Z.bits_0 by lia.
    destruct (Z.eqb_spec i j) as [<-|]; [by rewrite Hb|by rewrite andb_false_r].
Qed.

Lemma charset_word cs pos :
  charset_wf cs -> 0 <= pos < 256 ->
  exists w, cs !! Z.to_nat (pos / 32) = Some w /\ 0 <= w < 2 ^ 32.
Proof.
  intros [Hl Hf] Hp.
  assert (0 <= pos / 32 < 8) by (split; [apply Z.div_pos|apply Z.div_lt_upper_bound]; lia).
  destruct (lookup_lt_is_Some_2 cs (Z.to_nat (pos / 32))) as [w Hw]; [lia|].
  exists w. split; [done|]. by eapply Forall_lookup in Hw; [|exact Hf].
Qed.

Lemma charset_isset_mem cs pos :
  charset_wf cs -> 0 <= pos < 256 -> charset_isset cs pos = Ok (charset_mem cs pos).
Proof.
  intros Hwf Hp. destruct (charset_word cs pos Hwf Hp) as (w & Hw & Hr).
  unfold charset_isset, charset_mem. rewrite Hw. cbn [deref mbind outcome_bind default].
  pose proof (Z.mod_pos_bound pos 32).
  by rewrite charset_bit_pow2, land_pow2_testbit by lia.
Qed.

Lemma charset_set_ok cs pos val :
  charset_wf cs -> 0 <= pos < 256 ->
  exists cs', charset_set cs pos val = Ok cs' /\ charset_wf cs' /\
    forall c, 0 <= c < 256 ->
      charset_mem cs' c = if c =? pos then negb (val =? 0) else charset_mem cs c.
Proof.
  intros Hwf Hp. destruct (charset_word cs pos Hwf Hp) as (w & Hw & Hr).
  pose proof (Z.mod_pos_bound pos 32) as Hm. unfold charset_set. rewrite Hw.
  cbn [deref mbind outcome_bind]. set (w' := if negb (val =? 0) then _ else _).
  assert (Hbits : forall i, 0 <= i < 32 ->
    Z.testbit w' i = if pos mod 32 =? i then negb (val =? 0) else Z.testbit w i).
  { intros i Hi. subst w'. destruct (negb (val =? 0)).
    - rewrite Z.lor_spec, charset_bit_spec by lia.
      destruct (pos mod 32 =? i); [apply orb_true_r|apply orb_false_r].
    - unfold wrapu. rewrite Z.land_spec, Z.mod_pow2_bits_low, Z.lnot_spec, charset_bit_spec by lia.
      destruct (pos mod 32 =? i); [apply andb_false_r|apply andb_true_r]. }
  assert (0 <= w' < 2 ^ 32) as Hw'.
  { subst w'. destruct (negb (val =? 0)).
    - rewrite charset_bit_pow2. split; [apply Z.lor_nonneg; lia|].
      assert (Z.lor w (2 ^ (pos mod 32)) = Z.lor w (2 ^ (pos mod 32)) mod 2 ^ 32) as ->.
      2: { apply Z.mod_pos_bound. lia. }
      rewrite <- !Z.land_ones, Z.land_lor_distr_l, !Z.land_ones by lia.
      assert (2 ^ (pos mod 32) < 2 ^ 32) by (apply Z.pow_lt_mono_r; lia).
      by rewrite (Z.mod_small w), (Z.mod_small (2 ^ (pos mod 32))) by lia.
    - split; [apply Z.land_nonneg; lia|].
      assert (Z.land w (uint32 (Z.lnot (charset_bit pos))) =
        Z.land w (uint32 (Z.lnot (charset_bit pos))) mod 2 ^ 32) as ->.
      2: { apply Z.mod_pos_bound. lia. }
      unfold wrapu. rewrite <- !Z.land_ones, <- Z.land_assoc by lia.
      by rewrite <- (Z.land_assoc _ (Z.ones 32)), Z.land_diag. }
  eexists. split; [done|]. destruct Hwf as [Hl Hf]. split.
  { split; [by rewrite length_insert|by apply Forall_insert]. }
  intros c Hc. unfold charset_mem. pose proof (Z.mod_pos_bound c 32).
  pose proof (Z_div_mod_eq_full c 32). pose proof (Z_div_mod_eq_full pos 32).
  pose proof (Z.div_pos c 32). pose proof (Z.div_pos pos 32).
  destruct (decide (pos / 32 = c / 32)) as [E|E].
  - rewrite <- E, list_lookup_insert_eq by (apply lookup_lt_Some in Hw; done).
    rewrite Hw. cbn [default]. rewrite Hbits by lia.
    destruct (Z.eqb_spec (pos mod 32) (c mod 32)), (Z.eqb_spec c pos); try done; lia.
  - rewrite list_lookup_insert_ne by lia. destruct (Z.eqb_spec c pos); [|done]. by subst.
Qed.

Lemma charset_set_all_ok poss cs val :
  charset_wf cs -> Forall (fun c => 0 <= c < 256) poss ->
  exists cs', charset_set_all cs poss val = Ok cs' /\ charset_wf cs' /\
    (forall c, 0 <= c < 256 -> c ∈ poss -> charset_mem cs' c = negb (val c =? 0)) /\
    (forall c, 0 <= c < 256 -> c ∉ poss -> charset_mem cs' c = charset_mem cs c).
Proof.
  intros Hwf Hp. revert cs Hwf. induction Hp as [|pos poss Hpos Hp IH]; intros cs Hwf; simpl.
  { exists cs. split_and!; [done|done| |done]. intros c _ Hc. by apply not_elem_of_nil in Hc. }
  rewrite wrapu_small by (change (2 ^ 8) with 256; lia).
  destruct (charset_set_ok cs pos (val pos)) as (cs1 & -> & Hwf1 & Hm1); [done|done|]. simpl.
  destruct (IH cs1 Hwf1) as (cs' & -> & Hwf' & Hin & Hout).
  exists cs'. split_and!; [done|done| |]; intros c Hc Hel.
  - destruct (decide (c ∈ poss)) as [Hd|Hd]; [by apply Hin|].
    apply elem_of_cons in Hel as [->|]; [|done].
    by rewrite Hout, Hm1, Z.eqb_refl.
  - apply not_elem_of_cons in Hel as [Hne Hel]. rewrite Hout, Hm1 by done.
    destruct (Z.eqb_spec c pos); [by subst|done].
Qed.

Lemma elem_of_all_chars c : 0 <= c < 256 -> c ∈ all_chars.
Proof.
  intros Hc. apply list_elem_of_fmap. exists (Z.to_nat c). split; [lia|].
  apply elem_of_seq. lia.
Qed.

Lemma all_chars_range : Forall (fun c => 0 <= c < 256) all_chars.
Proof.
  apply list.Forall_forall. intros c Hc. apply list_elem_of_fmap in Hc as (n & -> & Hn).
  apply elem_of_seq in Hn. lia.
Qed.

(** [charset_set] and [charset_isset] implement a set of bytes: a set changes
    the membership of its byte and of no other, and both stay in the eight words. *)
Theorem charset_set_isset cs pos val c :
  charset_wf cs -> 0 <= pos < 256 -> 0 <= c < 256 ->
  exists cs' b, charset_set cs pos val = Ok cs' /\ charset_wf cs' /\
    charset_isset cs c = Ok b /\
    charset_isset cs' c = Ok (if c =? pos then negb (val =? 0) else b).
Proof.
  intros Hwf Hp Hc. destruct (charset_set_ok cs pos val) as (cs' & -> & Hwf' & Hm); [done|done|].
  exists cs', (charset_mem cs c). rewrite !charset_isset_mem, Hm by done. done.
Qed.

(** The charsets of [h_ch_range], [h_in] and [h_not_in] contain exactly the
    bytes of the range, the options, and the bytes outside the options. *)
Theorem charset_constructors lower upper options c :
  0 <= c < 256 -> Forall (fun o => 0 <= o < 256) options ->
  exists cr ci cn,
    ch_range_charset lower upper = Ok cr /\ in_or_not_charset options 1 = Ok ci /\
    in_or_not_charset options 0 = Ok cn /\
    charset_isset cr c = Ok ((lower <=? c) && (c <=? upper)) /\
    charset_isset ci c = Ok (bool_decide (c ∈ options)) /\
    charset_isset cn c = Ok (negb (bool_decide (c ∈ options))).
Proof.
  intros Hc Ho. pose proof (elem_of_all_chars c Hc) as Hall.
  unfold ch_range_charset, in_or_not_charset.
  destruct (charset_set_all_ok all_chars new_charset
    (fun i => b2z ((lower <=? i) && (i <=? upper)))) as (cr & -> & Hwr & Hr & _);
    [apply new_charset_wf|apply all_chars_range|].
  destruct (charset_set_all_ok all_chars new_charset (fun _ => 1 - 1)) as (c1 & -> & Hw1 & H1 & _);
    [apply new_charset_wf|apply all_chars_range|].
  destruct (charset_set_all_ok all_chars new_charset (fun _ => 1 - 0)) as (c0 & -> & Hw0 & H0 & _);
    [apply new_charset_wf|apply all_chars_range|].
  cbn [mbind outcome_bind].
  destruct (charset_set_all_ok options c1 (fun _ => 1)) as (ci & -> & Hwi & Hi & Hi'); [done..|].
  destruct (charset_set_all_ok options c0 (fun _ => 0)) as (cn & -> & Hwn & Hn & Hn'); [done..|].
  exists cr, ci, cn. rewrite !charset_isset_mem by done. rewrite Hr by done.
  split_and!; [done..| | |].
  - by destruct (_ && _).
  - case_bool_decide; [by rewrite Hi|by rewrite Hi', H1].
  - case_bool_decide; [by rewrite Hn|by rewrite Hn', H0].
Qed.

(** * Witnesses *)

Lemma charset_set_isset_witness :
  exists cs' b, charset_set new_charset 97 1 = Ok cs' /\ charset_wf cs' /\
    charset_isset new_charset 97 = Ok b /\
    charset_isset cs' 97 = Ok (if 97 =? 97 then negb (1 =? 0) else b).
Proof. apply (charset_set_isset new_charset 97 1 97); [apply new_charset_wf|lia|lia]. Defined.

Lemma charset_constructors_witness :
  exists cr ci cn,
    ch_range_charset 97 122 = Ok cr /\ in_or_not_charset [97; 255] 1 = Ok ci /\
    in_or_not_charset [97; 255] 0 = Ok cn /\
    charset_isset cr 255 = Ok false /\ charset_isset ci 255 = Ok true /\
    charset_isset cn 255 = Ok false.
Proof.
  exact (charset_constructors 97 122 [97; 255] 255 ltac:(lia) ltac:(repeat constructor; lia)).
Defined.
