(* ===== verification/CArray.v ===== *)
(** Counted arrays (src/src/datastructures.c: h_carray_new_sized, h_carray_new,
    h_carray_append; src/src/hammer.h: HCountedArray).

    [ca_elements] is the array behind [elements], as long as the capacity; a
    NULL element is [None]. Allocation does not fail in the model. *)

From S2P Require Import Prelude.

Record HCountedArray (A : Type) := mkCArray {
  ca_capacity : nat;
  ca_used : nat;
  ca_elements : list (option A);
}.
Arguments mkCArray {A}.
Arguments ca_capacity {A}.
Arguments ca_used {A}.
Arguments ca_elements {A}.

(** Arena memory is zeroed: the new elements are NULL. *)
Definition h_carray_new_sized {A} (size : nat) : HCountedArray A :=
  let size := if (size =? 0)%nat then 1%nat else size in
  mkCArray size 0 (replicate size None).

Definition h_carray_new {A} : HCountedArray A := h_carray_new_sized 4.

(** [array->elements[i] = item] *)
Definition carray_store {A} (arr : HCountedArray A) (i : nat) (item : option A)
    : outcome (HCountedArray A) :=
  if (i <? length (ca_elements arr))%nat
  then Ok (mkCArray (ca_capacity arr) (ca_used arr) (<[i := item]> (ca_elements arr)))
  else Fault OutOfBounds.

Definition h_carray_append {A} (arr : HCountedArray A) (item : option A)
    : outcome (HCountedArray A) :=
  let arr :=
    if (ca_capacity arr <=? ca_used arr)%nat
    then let capacity := (ca_capacity arr * 2)%nat in
         mkCArray capacity (ca_used arr)
           (take (ca_used arr) (ca_elements arr) ++ replicate (capacity - ca_used arr) None)
    else arr in
  arr' ← carray_store arr (ca_used arr) item;
  Ok (mkCArray (ca_capacity arr') (S (ca_used arr')) (ca_elements arr')).

(** [array->elements[i]] *)
Definition carray_elem {A} (arr : HCountedArray A) (i : nat) : outcome (option A) :=
  deref OutOfBounds (ca_elements arr !! i).

(** [array->used = n] *)
Definition carray_set_used {A} (arr : HCountedArray A) (n : nat) : HCountedArray A :=
  mkCArray (ca_capacity arr) n (ca_elements arr).

(** * Facts *)

Record carray_wf {A} (arr : HCountedArray A) : Prop := {
  cwf_length : length (ca_elements arr) = ca_capacity arr;
  cwf_capacity : (1 <= ca_capacity arr)%nat;
  cwf_used : (ca_used arr <= ca_capacity arr)%nat;
}.

(** The elements in use. *)
Definition ca_contents {A} (arr : HCountedArray A) : list (option A) :=
  take (ca_used arr) (ca_elements arr).

Lemma carray_new_sized_wf {A} n : carray_wf (@h_carray_new_sized A n).
Proof.
  unfold h_carray_new_sized. destruct (Nat.eqb_spec n 0); split; simpl;
    rewrite ?length_replicate; lia.
Qed.

Lemma carray_new_contents {A} n : ca_contents (@h_carray_new_sized A n) = [].
Proof. unfold h_carray_new_sized. by destruct (n =? 0)%nat. Qed.

(** Appending puts the item after the elements in use, whether the array
    has room or is doubled, keeps the invariant, and never leaves the array. *)
Lemma h_carray_append_ok {A} (arr : HCountedArray A) item :
  carray_wf arr ->
  exists arr', h_carray_append arr item = Ok arr' /\ carray_wf arr' /\
    ca_contents arr' = ca_contents arr ++ [item] /\
    (ca_capacity arr <= ca_capacity arr' <= 2 * ca_capacity arr)%nat.
Proof.
  intros [Hl Hc Hu]. unfold h_carray_append, carray_store, ca_contents.
  assert (Hins : forall l : list (option A), (ca_used arr < length l)%nat ->
    take (S (ca_used arr)) (<[ca_used arr := item]> l) = take (ca_used arr) l ++ [item]).
  { intros l Hlt. rewrite (take_S_r _ _ item) by (by apply list_lookup_insert_eq).
    by rewrite take_insert_ge by lia. }
  destruct (Nat.leb_spec (ca_capacity arr) (ca_used arr)); simpl.
  - rewrite length_app, length_take, length_replicate.
    destruct (Nat.ltb_spec (ca_used arr)
      (ca_used arr `min` length (ca_elements arr) +
       (ca_capacity arr * 2 - ca_used arr))) as [Hlt|]; [|lia].
    eexists. split; [done|]. simpl. split_and!; [|..|lia|lia].
    + split; simpl; rewrite ?length_insert, ?length_app, ?length_take, ?length_replicate; lia.
    + rewrite Hins by (rewrite length_app, length_take, length_replicate; lia).
      f_equal. rewrite take_app_le by (rewrite length_take; lia).
      rewrite take_take. f_equal. lia.
  - destruct (Nat.ltb_spec (ca_used arr) (length (ca_elements arr))); [|lia].
    eexists. split; [done|]. simpl. split_and!; [|..|lia|lia].
    + split; simpl; rewrite ?length_insert; lia.
    + by apply Hins.
Qed.

(** Appending a list of items, as the parsers' loops do. *)
Fixpoint carray_append_all {A} (arr : HCountedArray A) (items : list (option A))
    : outcome (HCountedArray A) :=
  match items with
  | [] => Ok arr
  | x :: items => arr ← h_carray_append arr x; carray_append_all arr items
  end.

Lemma carray_append_all_spec {A} (items : list (option A)) arr :
  carray_wf arr ->
  exists arr', carray_append_all arr items = Ok arr' /\ carray_wf arr' /\
    ca_contents arr' = ca_contents arr ++ items.
Proof.
  revert arr. induction items as [|x items IH]; intros arr Hwf; simpl.
  { exists arr. by rewrite app_nil_r. }
  destruct (h_carray_append_ok arr x Hwf) as (arr1 & -> & Hwf1 & Hc1 & _).
  destruct (IH arr1 Hwf1) as (arr2 & E & Hwf2 & Hc2).
  exists arr2. split; [exact E|]. split; [done|].
  rewrite Hc2, Hc1, <- app_assoc. done.
Qed.

(** A counted array of any initial size is a list: appending any items, of
    which some may be NULL, stores them in order, with every index below
    [used] readable and the capacity doubled as often as needed. *)
Theorem h_carray_spec {A} (size : nat) (items : list (option A)) :
  exists arr, carray_append_all (h_carray_new_sized size) items = Ok arr /\ carray_wf arr /\
    ca_used arr = length items /\
    forall i, (i < length items)%nat -> exists x, carray_elem arr i = Ok x /\ items !! i = Some x.
Proof.
  destruct (carray_append_all_spec items _ (@carray_new_sized_wf A size)) as (arr & E & Hwf & Hc).
  rewrite carray_new_contents in Hc. exists arr. split; [done|]. split; [done|].
  assert (ca_used arr = length items) as Hu.
  { pose proof (f_equal length Hc) as Hl. destruct Hwf. unfold ca_contents in Hl.
    rewrite length_take in Hl. simpl in Hl. lia. }
  split; [done|]. intros i Hi. destruct (lookup_lt_is_Some_2 items i Hi) as [x Hx].
  exists x. split; [|done]. unfold carray_elem. simpl in Hc. rewrite <- Hc in Hx.
  unfold ca_contents in Hx. rewrite lookup_take_Some in Hx. by destruct Hx as [-> _].
Qed.
