(* ===== verification/Registry.v ===== *)
(** The registry of token types (src/src/registry.c): names of the user are
    numbered from TT_USER on.

    The static variables of the file are the fields of [Registry]. The tree that
    the C library keeps is the list of its entries, a pointer to an entry is an
    index of the list: [tfind] and [tsearch] look an entry up by the comparison
    that they are given. The copy that strdup makes is taken to succeed; the other
    allocations are parameters ([Memory]). *)

From Stdlib Require Import Ascii String.
From S2P Require Import Prelude Text.

Definition TT_INVALID : Z := 0.
Definition TT_USER_ : Z := 64.
Abbreviation TT_START := TT_USER_.

Record Entry := mkEntry {
  en_name : text;
  en_value : Z;
}.

Record Registry := mkRegistry {
  tt_registry : list Entry;
  tt_by_id : option (list (option nat));   (** an element that was never written is [None] *)
  tt_by_id_sz : Z;                         (** unsigned int *)
  tt_next : Z;
}.

(** The variables when the program starts. *)
Definition registry_start : Registry := mkRegistry [] None 0 TT_START.

(** Which requests for memory of one call are granted: the entry, the node of
    the tree, a table of so many bytes. *)
Record Memory := mkMemory {
  mem_entry : bool;
  mem_node : bool;
  mem_table : Z -> bool;
}.
Definition all_memory : Memory := mkMemory true true (fun _ => true).

(** strcmp, on the characters before the terminating zero. *)
Fixpoint strcmp (s t : text) : Z :=
  match s, t with
  | [], [] => 0
  | [], d :: _ => 0 - d
  | c :: _, [] => c
  | c :: s, d :: t => if c =? d then strcmp s t else c - d
  end.

Definition compare_entries (e1 e2 : Entry) : Z := strcmp (en_name e1) (en_name e2).

(** The entry of the tree that compares equal to [e]. *)
Fixpoint tfind (e : Entry) (tree : list Entry) : option nat :=
  match tree with
  | [] => None
  | e' :: tree => if compare_entries e e' =? 0 then Some O else S <$> tfind e tree
  end.

(** NULL when there is no memory for the node of a new entry. *)
Definition tsearch (m : Memory) (e : Entry) (tree : list Entry) : option (nat * list Entry) :=
  match tfind e tree with
  | Some probe => Some (probe, tree)
  | None => if mem_node m then Some (length tree, tree ++ [e]) else None
  end.

(** malloc and realloc of the table. *)
Definition realloc_table (m : Memory) (table : option (list (option nat))) (sz : Z)
    : option (list (option nat)) :=
  if mem_table m (8 * sz) then
    let old := default [] table in
    Some (take (Z.to_nat sz) old ++ replicate (Z.to_nat sz - length old) None)
  else None.

Definition grown_size (sz next : Z) : Z :=
  if sz =? 0 then uint32 (uint32 (next - TT_START) * 16) else uint32 (sz * 2).

Definition store_entry (probe : nat) (value : Z) (r : Registry) : outcome (Z * Registry) :=
  let id := uint32 (value - TT_START) in
  _ ← assert_ok (id <? tt_by_id_sz r);
  table ← deref NullDeref (tt_by_id r);
  if (Z.to_nat id <? length table)%nat then
    Ok (value, mkRegistry (tt_registry r) (Some (<[Z.to_nat id := Some probe]> table))
                 (tt_by_id_sz r) (tt_next r))
  else Fault OutOfBounds.

Definition h_allocate_token_type (m : Memory) (name : text) (r : Registry)
    : outcome (Z * Registry) :=
  if negb (mem_entry m) then Ok (TT_INVALID, r) else
  '(probe, tree) ← deref NullDeref (tsearch m (mkEntry name 0) (tt_registry r));
  entry ← deref OutOfBounds (tree !! probe);
  if negb (en_value entry =? 0) then
    Ok (en_value entry, mkRegistry tree (tt_by_id r) (tt_by_id_sz r) (tt_next r))
  else
    let value := tt_next r in
    let tree := <[probe := mkEntry (en_name entry) value]> tree in
    let next := uint32 (value + 1) in
    if tt_by_id_sz r <=? uint32 (value - TT_START) then
      let sz := grown_size (tt_by_id_sz r) next in
      let table := realloc_table m (tt_by_id r) sz in
      let r := mkRegistry tree table sz next in
      if table is Some _ then store_entry probe value r else Ok (TT_INVALID, r)
    else store_entry probe value (mkRegistry tree (tt_by_id r) (tt_by_id_sz r) next).

Definition h_get_token_type_number (name : text) (r : Registry) : outcome Z :=
  match tfind (mkEntry name 0) (tt_registry r) with
  | None => Ok 0
  | Some probe => entry ← deref OutOfBounds (tt_registry r !! probe); Ok (en_value entry)
  end.

Definition h_get_token_type_name (token_type : Z) (r : Registry) : outcome (option text) :=
  if (tt_next r <=? token_type) || (token_type <? TT_START) then Ok None else
  table ← deref NullDeref (tt_by_id r);
  entry ← deref OutOfBounds (table !! Z.to_nat (token_type - TT_START));
  entry ← deref NullDeref entry;
  entry ← deref OutOfBounds (tt_registry r !! entry);
  Ok (Some (en_name entry)).

(** * The invariant *)

(** Characters of a C string. *)
Definition c_string (s : text) : Prop := Forall (fun c => 0 < c < 256) s.

Definition names (r : Registry) : list text := en_name <$> tt_registry r.

(** Room for the number after the last and for the doubled table. *)
Definition MAX_TYPES : Z := 2 ^ 27.

(** The entry at [i] has the number TT_START + [i] and is the [i]th of the table. *)
Record registry_wf (r : Registry) : Prop := {
  rw_strings : Forall c_string (names r);
  rw_distinct : NoDup (names r);
  rw_value i e : tt_registry r !! i = Some e -> en_value e = TT_START + Z.of_nat i;
  rw_next : tt_next r = TT_START + Z.of_nat (length (tt_registry r));
  rw_few : Z.of_nat (length (tt_registry r)) <= MAX_TYPES;
  rw_size : tt_by_id_sz r = Z.of_nat (length (default [] (tt_by_id r)));
  rw_table i : (i < length (tt_registry r))%nat -> default [] (tt_by_id r) !! i = Some (Some i);
}.

Lemma registry_start_wf : registry_wf registry_start.
Proof. split; simpl; try done; try constructor. intros i Hi. lia. Qed.

Lemma strcmp_eq s : forall t, c_string s -> c_string t -> strcmp s t = 0 <-> s = t.
Proof.
  induction s as [|c s IH]; intros [|d t] Hs Ht; simpl; try done.
  - apply Forall_cons_1 in Ht as [? _]. split; [lia|done].
  - apply Forall_cons_1 in Hs as [? _]. split; [lia|done].
  - apply Forall_cons_1 in Hs as [Hc Hs], Ht as [Hd Ht].
    destruct (Z.eqb_spec c d) as [->|Hne]; [rewrite IH by done; naive_solver|].
    split; [lia|congruence].
Qed.

(** tfind looks the name up. *)
Lemma tfind_spec name tree :
  c_string name -> Forall c_string (en_name <$> tree) ->
  match tfind (mkEntry name 0) tree with
  | Some i => (en_name <$> tree) !! i = Some name
  | None => name ∉ (en_name <$> tree)
  end.
Proof.
  intros Hn. induction tree as [|e tree IH]; intros Ht; simpl; [set_solver|].
  apply Forall_cons_1 in Ht as [He Ht]. specialize (IH Ht).
  unfold compare_entries. cbn [en_name].
  destruct (Z.eqb_spec (strcmp name (en_name e)) 0) as [E|E].
  - apply strcmp_eq in E; [|done..]. by rewrite E.
  - rewrite strcmp_eq in E by done. destruct (tfind _ tree); simpl; [done|set_solver].
Qed.

(** The table after the growth of the code, and without growth. *)
Lemma realloc_table_keeps m table sz i x :
  default [] table !! i = Some x -> Z.of_nat (length (default [] table)) <= sz ->
  default [] (realloc_table m table sz) !! i = (if mem_table m (8 * sz) then Some x else None).
Proof.
  intros Hi Hsz. unfold realloc_table. destruct (mem_table m (8 * sz)); [|done]. simpl.
  pose proof (lookup_lt_Some _ _ _ Hi). rewrite lookup_app_l by (rewrite length_take; lia).
  rewrite lookup_take_lt by lia. done.
Qed.

Lemma realloc_table_length m table sz :
  0 <= sz -> mem_table m (8 * sz) -> Z.of_nat (length (default [] (realloc_table m table sz))) = sz.
Proof.
  intros Hsz Hm. unfold realloc_table. rewrite (Is_true_eq_true _ Hm). simpl.
  rewrite length_app, length_take, length_replicate. lia.
Qed.

(** * The operations on a well-formed registry *)

(** The number of a name: its place, or 0. *)
Definition number_of (name : text) (ns : list text) (v : Z) : Prop :=
  (exists i, ns !! i = Some name /\ v = TT_START + Z.of_nat i) \/ (name ∉ ns /\ v = 0).

Lemma h_get_token_type_number_ok name r :
  registry_wf r -> c_string name ->
  exists v, (h_get_token_type_number name r = Ok v) /\ number_of name (names r) v.
Proof.
  intros Hr Hn. pose proof (tfind_spec name (tt_registry r) Hn (rw_strings r Hr)) as Hf.
  unfold h_get_token_type_number. destruct (tfind _ _) as [i|]; [|by exists 0; split; [|right]].
  pose proof Hf as Hi. rewrite list_lookup_fmap in Hi. apply fmap_Some in Hi as (e & He & _).
  rewrite He. eexists. split; [done|]. left. exists i. by rewrite (rw_value r Hr i e He).
Qed.

Lemma h_get_token_type_name_ok v r :
  registry_wf r -> h_get_token_type_name v r =
    Ok (if (TT_START <=? v) then names r !! Z.to_nat (v - TT_START) else None).
Proof.
  intros Hr. unfold h_get_token_type_name. rewrite (rw_next r Hr).
  destruct (Z.leb_spec TT_START v) as [Hv|Hv]; [|by rewrite (proj2 (Z.ltb_lt _ _) Hv), orb_true_r].
  rewrite (proj2 (Z.ltb_ge _ _) Hv), orb_false_r.
  destruct (Z.leb_spec (TT_START + Z.of_nat (length (tt_registry r))) v) as [Hl|Hl].
  - unfold names. rewrite lookup_ge_None_2; [done|]. rewrite length_fmap. lia.
  - pose proof (rw_table r Hr (Z.to_nat (v - TT_START)) ltac:(lia)) as Ht.
    destruct (tt_by_id r) as [table|]; [|done]. simpl in *. rewrite Ht. simpl.
    unfold names. rewrite list_lookup_fmap.
    destruct (lookup_lt_is_Some_2 (tt_registry r) (Z.to_nat (v - TT_START))) as [e ->]; [lia|done].
Qed.

(** Storing the entry of a number that was just given. *)
Lemma store_entry_wf r tree name table :
  registry_wf r -> c_string name -> name ∉ names r ->
  Z.of_nat (length (tt_registry r)) < MAX_TYPES ->
  tree = tt_registry r ++ [mkEntry name (tt_next r)] ->
  (length (tt_registry r) < length table)%nat ->
  (forall i, (i < length (tt_registry r))%nat -> table !! i = Some (Some i)) ->
  exists r', store_entry (length (tt_registry r)) (tt_next r)
      (mkRegistry tree (Some table) (Z.of_nat (length table)) (uint32 (tt_next r + 1))) =
      Ok (tt_next r, r') /\ registry_wf r' /\ names r' = names r ++ [name].
Proof.
  intros Hr Hn Hfresh Hlt -> Hlen Htab. unfold store_entry. simpl. unfold MAX_TYPES in *.
  rewrite (rw_next r Hr). set (n := length (tt_registry r)) in *.
  unfold wrapu. replace (TT_START + Z.of_nat n - TT_START) with (Z.of_nat n) by lia.
  rewrite !Z.mod_small by (unfold TT_USER_; lia). rewrite Nat2Z.id.
  rewrite (proj2 (Z.ltb_lt _ _)) by lia. simpl. rewrite (proj2 (Nat.ltb_lt _ _)) by done.
  eexists. split; [done|]. split; [|unfold names; simpl; by rewrite fmap_app].
  split; unfold names; simpl; rewrite ?fmap_app, ?length_app, ?length_insert; simpl; fold n.
  - apply Forall_app. split; [apply (rw_strings r Hr)|by repeat constructor].
  - apply list.NoDup_app. split; [apply (rw_distinct r Hr)|]. split; [|apply list.NoDup_singleton].
    intros x Hx ->%list_elem_of_singleton. by apply Hfresh.
  - intros i e [Hi|[Hi He]]%lookup_app_Some; [by apply (rw_value r Hr)|].
    apply list_lookup_singleton_Some in He as [He <-]. simpl. fold n in Hi. lia.
  - lia.
  - unfold MAX_TYPES. lia.
  - done.
  - intros i Hi. destruct (decide (i = n)) as [->|Hne]; [by rewrite list_lookup_insert_eq|].
    rewrite list_lookup_insert_ne by done. apply Htab. lia.
Qed.

(** A table that is full grows beyond its size. *)
Lemma grown_size_ok r :
  registry_wf r -> Z.of_nat (length (tt_registry r)) < MAX_TYPES ->
  tt_by_id_sz r <= Z.of_nat (length (tt_registry r)) ->
  let sz := grown_size (tt_by_id_sz r) (uint32 (tt_next r + 1)) in
  Z.of_nat (length (tt_registry r)) < sz /\ tt_by_id_sz r <= sz.
Proof.
  intros Hr Hlt Hg. unfold grown_size, wrapu. unfold MAX_TYPES in *. rewrite (rw_next r Hr).
  pose proof (rw_size r Hr). destruct (Z.eqb_spec (tt_by_id_sz r) 0) as [E|E].
  - rewrite (Z.mod_small (TT_START + _ + 1)) by (unfold TT_USER_; lia).
    rewrite (Z.mod_small (_ - TT_START)) by (unfold TT_USER_; lia).
    rewrite Z.mod_small by (unfold TT_USER_; lia). unfold TT_USER_. lia.
  - assert (tt_by_id_sz r = Z.of_nat (length (tt_registry r))).
    { destruct (decide (tt_by_id_sz r < Z.of_nat (length (tt_registry r)))); [|lia].
      pose proof (rw_table r Hr (Z.to_nat (tt_by_id_sz r)) ltac:(lia)) as Ht.
      apply lookup_lt_Some in Ht. lia. }
    rewrite Z.mod_small by lia. lia.
Qed.

(** The same name again gives its number; a new name gives the next one, also
    when the table has to grow. *)
Lemma h_allocate_token_type_ok m name r :
  registry_wf r -> c_string name -> mem_entry m -> mem_node m -> (forall n, mem_table m n) ->
  Z.of_nat (length (tt_registry r)) < MAX_TYPES ->
  exists v r', h_allocate_token_type m name r = Ok (v, r') /\ registry_wf r' /\
    number_of name (names r') v /\ v <> 0 /\
    names r' = (if decide (name ∈ names r) then names r else names r ++ [name]).
Proof.
  intros Hr Hn Hm1 Hm2 Hm3 Hlt. unfold h_allocate_token_type, tsearch.
  rewrite (Is_true_eq_true _ Hm1). simpl.
  pose proof (tfind_spec name (tt_registry r) Hn (rw_strings r Hr)) as Hf.
  destruct (tfind _ _) as [i|].
  { simpl. pose proof Hf as Hi. rewrite list_lookup_fmap in Hi.
    apply fmap_Some in Hi as (e & He & _). rewrite He. simpl.
    pose proof (rw_value r Hr i e He) as Hv.
    rewrite (proj2 (Z.eqb_neq (en_value e) 0)) by (rewrite Hv; unfold TT_USER_; lia). simpl.
    exists (en_value e), r. split; [by destruct r|].
    split; [done|]. split; [left; by exists i|].
    split; [rewrite Hv; unfold TT_USER_; lia|].
    rewrite decide_True; [done|]. by eapply list_elem_of_lookup_2. }
  rewrite (Is_true_eq_true _ Hm2). simpl. rewrite decide_False by done.
  rewrite lookup_app_r, Nat.sub_diag by done. simpl.
  rewrite (insert_app_r_alt (tt_registry r)) by lia. rewrite Nat.sub_diag. simpl.
  assert (uint32 (tt_next r - TT_START) = Z.of_nat (length (tt_registry r))) as Hid.
  { rewrite (rw_next r Hr). unfold wrapu, MAX_TYPES in *.
    replace (TT_START + _ - TT_START) with (Z.of_nat (length (tt_registry r))) by lia.
    apply Z.mod_small. lia. }
  rewrite Hid.
  assert (forall r', registry_wf r' -> names r' = names r ++ [name] -> number_of name (names r') (tt_next r) /\
            tt_next r <> 0) as Hnum.
  { intros r' _ ->. rewrite (rw_next r Hr). split; [|unfold TT_USER_; lia]. left.
    exists (length (tt_registry r)). split; [|done]. unfold names.
    rewrite lookup_app_r; rewrite length_fmap; [|done]. by rewrite Nat.sub_diag. }
  assert (forall table, (length (tt_registry r) < length table)%nat ->
            (forall i, (i < length (tt_registry r))%nat -> table !! i = Some (Some i)) ->
            exists v r', store_entry (length (tt_registry r)) (tt_next r)
              (mkRegistry (tt_registry r ++ [mkEntry name (tt_next r)]) (Some table)
                 (Z.of_nat (length table)) (uint32 (tt_next r + 1))) = Ok (v, r') /\ registry_wf r' /\
              number_of name (names r') v /\ v <> 0 /\ names r' = names r ++ [name]) as Hstore.
  { intros table Hl Ht.
    edestruct store_entry_wf as (r' & E & Hwf & Hnm); try done.
    destruct (Hnum r' Hwf Hnm). by exists (tt_next r), r'. }
  destruct (Z.leb_spec (tt_by_id_sz r) (Z.of_nat (length (tt_registry r)))) as [Hg|Hg].
  - set (sz := grown_size _ _).
    destruct (grown_size_ok r Hr Hlt Hg) as [Hs1 Hs2]. fold sz in Hs1, Hs2.
    pose proof (realloc_table_length m (tt_by_id r) sz ltac:(lia) (Hm3 _)) as Hlen.
    pose proof (fun i x => realloc_table_keeps m (tt_by_id r) sz i x) as Hkeep.
    rewrite (Is_true_eq_true _ (Hm3 _)) in Hkeep.
    destruct (realloc_table m (tt_by_id r) sz) as [table|]; [|simpl in Hlen; lia].
    simpl in *. rewrite <- Hlen. apply Hstore; [lia|].
    intros i Hi. apply Hkeep; [by apply (rw_table r Hr)|]. rewrite <- (rw_size r Hr). lia.
  - destruct (tt_by_id r) as [table|] eqn:Et.
    + rewrite (rw_size r Hr), Et. simpl. apply Hstore.
      * rewrite (rw_size r Hr), Et in Hg. simpl in Hg. lia.
      * intros i Hi. pose proof (rw_table r Hr i Hi) as Ht. by rewrite Et in Ht.
    + rewrite (rw_size r Hr), Et in Hg. simpl in Hg. lia.
Qed.

(** * Any sequence of allocations *)

Fixpoint allocate_all (m : Memory) (ns : list text) (r : Registry) : outcome (list Z * Registry) :=
  match ns with
  | [] => Ok ([], r)
  | name :: ns =>
      '(v, r) ← h_allocate_token_type m name r;
      '(vs, r) ← allocate_all m ns r;
      Ok (v :: vs, r)
  end.

Lemma number_of_inj x y ns v : number_of x ns v -> number_of y ns v -> v <> 0 -> x = y.
Proof.
  intros [(i & Hi & ->)|[_ ?]] [(j & Hj & E)|[_ ?]] Hv; try done.
  apply Z.add_cancel_l, Nat2Z.inj in E as ->. congruence.
Qed.

Lemma number_of_fun x ns v w : NoDup ns -> number_of x ns v -> number_of x ns w -> v = w.
Proof.
  intros Hd [(i & Hi & ->)|[Hx ->]] [(j & Hj & ->)|[Hy ->]]; try done.
  - by rewrite (NoDup_lookup _ _ _ _ Hd Hi Hj).
  - exfalso. apply Hy. by eapply list_elem_of_lookup_2.
  - exfalso. apply Hx. by eapply list_elem_of_lookup_2.
Qed.

Lemma number_of_prefix x ns more v : number_of x ns v -> v <> 0 -> number_of x (ns ++ more) v.
Proof. intros [(i & Hi & ->)|[_ ?]] Hv; [|done]. left. exists i. split; [by apply lookup_app_l_Some|done]. Qed.

Lemma names_grow m ns : forall r,
  registry_wf r -> Forall c_string ns -> mem_entry m -> mem_node m -> (forall n, mem_table m n) ->
  Z.of_nat (length (tt_registry r) + length ns) <= MAX_TYPES ->
  exists vs r' more, allocate_all m ns r = Ok (vs, r') /\ registry_wf r' /\
    names r' = names r ++ more /\ (forall x, x ∈ more -> x ∈ ns) /\
    Forall2 (fun name v => number_of name (names r') v /\ v <> 0) ns vs.
Proof.
  induction ns as [|name ns IH]; intros r Hr Hns Hm1 Hm2 Hm3 Hl; simpl in *.
  { exists [], r, []. rewrite app_nil_r. split_and!; [done..|by intros ? ?%elem_of_nil|constructor]. }
  apply Forall_cons_1 in Hns as [Hn Hns].
  destruct (h_allocate_token_type_ok m name r) as (v & r1 & E1 & Hr1 & Hv & Hv0 & Hnm); [done..|lia|].
  rewrite E1. simpl.
  assert (exists new, names r1 = names r ++ new /\ (forall x, x ∈ new -> x = name) /\ (length new <= 1)%nat)
    as (new & Hnew & Hin & Hlen).
  { rewrite Hnm. destruct (decide _).
    - exists []. rewrite app_nil_r. split_and!; [done|by intros ? ?%elem_of_nil|simpl; lia].
    - exists [name]. split_and!; [done|by intros ? ?%list_elem_of_singleton|simpl; lia]. }
  destruct (IH r1) as (vs & r' & more & E2 & Hr' & Hnm' & Hmore & Hvs); try done.
  { pose proof (f_equal length Hnew) as El. unfold names in El. rewrite length_app, !length_fmap in El. lia. }
  rewrite E2. simpl. exists (v :: vs), r', (new ++ more). split_and!; [done|done| | |].
  - by rewrite Hnm', Hnew, app_assoc.
  - intros x [->%Hin|?%Hmore]%elem_of_app; [left|by right].
  - constructor; [|done]. split; [|done]. rewrite Hnm'. by apply number_of_prefix.
Qed.

(** C30: token types round trip between names and numbers: after any allocations
    from the start of the program (fewer than 2^27, with memory to be had) the
    numbers are user types, equal exactly for equal names, h_get_token_type_name
    gives the name back, h_get_token_type_number the number, and 0 for every other
    name. *)
Theorem registry_roundtrip m ns :
  Forall c_string ns -> Z.of_nat (length ns) <= MAX_TYPES ->
  mem_entry m -> mem_node m -> (forall n, mem_table m n) ->
  exists vs r, allocate_all m ns registry_start = Ok (vs, r) /\ length vs = length ns /\
    (forall i j x y v w, ns !! i = Some x -> ns !! j = Some y -> vs !! i = Some v -> vs !! j = Some w ->
       x = y <-> v = w) /\
    (forall i x v, ns !! i = Some x -> vs !! i = Some v ->
       TT_START <= v /\ h_get_token_type_name v r = Ok (Some x) /\ h_get_token_type_number x r = Ok v) /\
    (forall x, c_string x -> x ∉ ns -> h_get_token_type_number x r = Ok 0).
Proof.
  intros Hns Hl Hm1 Hm2 Hm3.
  destruct (names_grow m ns registry_start) as (vs & r & more & E & Hr & Hnm & Hmore & Hvs);
    [apply registry_start_wf|done..|].
  exists vs, r. split; [done|]. split; [symmetry; by eapply Forall2_length|]. split_and!.
  - intros i j x y v w Hx Hy Hv Hw.
    destruct (Forall2_lookup_lr _ _ _ _ _ _ Hvs Hx Hv) as [Nx Vx].
    destruct (Forall2_lookup_lr _ _ _ _ _ _ Hvs Hy Hw) as [Ny Vy].
    split; [intros ->; by eapply number_of_fun, Ny; [apply (rw_distinct r Hr)|]|].
    intros ->. by eapply number_of_inj.
  - intros i x v Hx Hv. destruct (Forall2_lookup_lr _ _ _ _ _ _ Hvs Hx Hv) as [Nx Vx].
    destruct (h_get_token_type_number_ok x r Hr) as (w & Ew & Nw); [by eapply Forall_lookup_1|].
    rewrite Ew, (number_of_fun x _ _ _ (rw_distinct r Hr) Nx Nw).
    destruct Nw as [(k & Hk & ->)|[Hk _]]; [|by destruct Nx as [(k & Hk' & _)|[_ ?]];
      [exfalso; apply Hk; eapply list_elem_of_lookup_2|]].
    split; [lia|]. split; [|done]. rewrite (h_get_token_type_name_ok _ _ Hr).
    rewrite (proj2 (Z.leb_le _ _)) by lia. rewrite Z.add_simpl_l, Nat2Z.id. by rewrite Hk.
  - intros x Hx Hn. destruct (h_get_token_type_number_ok x r Hr Hx) as (w & -> & [(k & Hk & _)|[_ ->]]); [|done].
    exfalso. apply Hn, Hmore. rewrite Hnm in Hk. simpl in Hk. by eapply list_elem_of_lookup_2.
Qed.

Lemma registry_roundtrip_witness :
  exists vs r, allocate_all all_memory [[97]; [98]; [97]] registry_start = Ok (vs, r) /\
    vs = [64; 65; 64] /\ h_get_token_type_name 65 r = Ok (Some [98]).
Proof.
  destruct (registry_roundtrip all_memory [[97]; [98]; [97]]) as (vs & r & E & _ & _ & H & _);
    [repeat constructor; lia|done..|].
  assert (vs = [64; 65; 64]) as -> by (vm_compute in E; congruence).
  exists [64; 65; 64], r. split; [done|]. split; [done|]. by destruct (H 1%nat [98] 65) as (_ & H' & _).
Defined.

(** When the table cannot be allocated, h_allocate_token_type returns TT_INVALID
    but the name keeps its number, and the next calls use the missing table. *)
Lemma registry_failed_growth :
  exists r, h_allocate_token_type (mkMemory true true (fun _ => false)) (lit "a") registry_start = Ok (TT_INVALID, r) /\
    h_get_token_type_number (lit "a") r = Ok 64 /\
    h_get_token_type_name 64 r = Fault NullDeref /\
    h_allocate_token_type all_memory (lit "b") r = Fault NullDeref.
Proof. eexists. split; [reflexivity|]. by vm_compute. Qed.
