(* ===== verification/Token.v ===== *)
(** Parsed tokens, parse results and the standard actions (src/src/hammer.h:
    HTokenType, HBytes, HParsedToken, HParseResult; src/src/glue.c).

    A token is a value: its data, with the position fields. The array of a
    sequence token is a counted array of tokens, a NULL element is [None]. A
    function that changes a token in place returns the changed token. *)

From S2P Require Import Prelude CArray.

Inductive HParsedToken :=
| mkTok (tok_data : HTokenData) (tok_index tok_bit_length tok_bit_offset : Z)
with HTokenData :=
| TT_NONE
| TT_BYTES (token : list Z)
| TT_SINT (sint : Z)
| TT_UINT (uint : Z)
| TT_SEQUENCE (seq : HCountedArray HParsedToken)
| TT_RESERVED_1
| TT_ERR
| TT_USER (token_type : Z) (user : Z).

Abbreviation TT_MARK := TT_RESERVED_1.

Definition tok_data (t : HParsedToken) : HTokenData := let '(mkTok d _ _ _) := t in d.
Definition tok_index (t : HParsedToken) : Z := let '(mkTok _ i _ _) := t in i.
Definition tok_bit_length (t : HParsedToken) : Z := let '(mkTok _ _ l _) := t in l.
Definition tok_bit_offset (t : HParsedToken) : Z := let '(mkTok _ _ _ o) := t in o.

Definition set_tok_bit_length (t : HParsedToken) (l : Z) : HParsedToken :=
  mkTok (tok_data t) (tok_index t) l (tok_bit_offset t).
Definition set_tok_data (t : HParsedToken) (d : HTokenData) : HParsedToken :=
  mkTok d (tok_index t) (tok_bit_length t) (tok_bit_offset t).

(** A token fresh from an arena: the other fields are zero. *)
Definition new_tok (d : HTokenData) : HParsedToken := mkTok d 0 0 0.

Record HParseResult := mkResult {
  ast : option HParsedToken;   (** NULL is [None] *)
  bit_length : Z;
}.

(** [token->token_type] as a number of the enum. *)
Definition token_type (t : HParsedToken) : Z :=
  match tok_data t with
  | TT_NONE => 1
  | TT_BYTES _ => 2
  | TT_SINT _ => 4
  | TT_UINT _ => 8
  | TT_SEQUENCE _ => 16
  | TT_RESERVED_1 => 17
  | TT_ERR => 32
  | TT_USER ty _ => ty
  end.

(** Actions and predicates of the user: functions of a result and a user
    pointer that may stop the program. *)
Definition HAction := HParseResult -> Z -> outcome (option HParsedToken).
Definition HPredicate := HParseResult -> Z -> outcome bool.

(** * glue.c *)

(** [assert(p->ast); assert(p->ast->token_type == TT_SEQUENCE)] *)
Definition assert_seq (t : option HParsedToken)
    : outcome (HParsedToken * HCountedArray HParsedToken) :=
  match t with
  | Some tok => match tok_data tok with
                | TT_SEQUENCE seq => Ok (tok, seq)
                | _ => Fault AssertFail
                end
  | None => Fault AssertFail
  end.

(** [h_act_index(i, p, user_data)], [p] possibly NULL. *)
Definition h_act_index (i : Z) (p : option HParseResult) : outcome (option HParsedToken) :=
  match p with
  | None => Ok None
  | Some p =>
      match ast p with
      | None => Ok None
      | Some tok =>
          match tok_data tok with
          | TT_SEQUENCE seq =>
              if (i <? 0) || (Z.of_nat (ca_used seq) <=? i) then Ok None
              else carray_elem seq (Z.to_nat i)
          | _ => Ok None
          end
      end
  end.

(** [h_act_first], [h_act_second] and [h_act_last] share their asserts. *)
Definition assert_nonempty_seq (p : HParseResult) : outcome (HCountedArray HParsedToken) :=
  '(_, seq) ← assert_seq (ast p);
  _ ← assert_ok (0 <? Z.of_nat (ca_used seq));
  Ok seq.

Definition h_act_first : HAction := fun p _ =>
  seq ← assert_nonempty_seq p; carray_elem seq 0.

Definition h_act_second : HAction := fun p _ =>
  seq ← assert_nonempty_seq p; carray_elem seq 1.

Definition h_act_last : HAction := fun p _ =>
  seq ← assert_nonempty_seq p; carray_elem seq (ca_used seq - 1).

(** [act_flatten_]: the recursion is on the token; a sequence's elements in
    use are visited in order. *)
Fixpoint act_flatten_ (acc : HCountedArray HParsedToken) (tok : HParsedToken) {struct tok}
    : outcome (HCountedArray HParsedToken) :=
  let 'mkTok d _ _ _ := tok in
  match d with
  | TT_SEQUENCE (mkCArray _ used elements) =>
      (fix loop (n : nat) (els : list (option HParsedToken)) (acc : HCountedArray HParsedToken)
           {struct els} :=
         match n, els with
         | O, _ => Ok acc
         | S n, [] => Fault OutOfBounds
         | S n, None :: els => loop n els acc
         | S n, Some t :: els =>
             match act_flatten_ acc t with
             | Ok acc => loop n els acc
             | Fault f => Fault f
             | OutOfFuel => OutOfFuel
             end
         end) used elements acc
  | _ => h_carray_append acc (Some tok)
  end.

Definition h_act_flatten : HAction := fun p _ =>
  seq ← match ast p with
        | None => Ok h_carray_new
        | Some tok => act_flatten_ h_carray_new tok
        end;
  (* res->index = p->ast->index *)
  tok ← deref NullDeref (ast p);
  Ok (Some (mkTok (TT_SEQUENCE seq) (tok_index tok) 0 (tok_bit_offset tok))).

Definition h_act_ignore : HAction := fun _ _ => Ok None.

Definition h_make_ (d : HTokenData) : HParsedToken := new_tok d.

Definition h_make (type value : Z) : outcome HParsedToken :=
  _ ← assert_ok (64 <=? type);
  Ok (h_make_ (TT_USER type value)).

Definition h_make_seq : HParsedToken := h_make_ (TT_SEQUENCE h_carray_new).
Definition h_make_seqn (n : nat) : HParsedToken := h_make_ (TT_SEQUENCE (h_carray_new_sized n)).
Definition h_make_bytes (array : list Z) : HParsedToken := h_make_ (TT_BYTES array).
Definition h_make_sint (val : Z) : HParsedToken := h_make_ (TT_SINT val).
Definition h_make_uint (val : Z) : HParsedToken := h_make_ (TT_UINT val).

Definition h_carray_index (a : HCountedArray HParsedToken) (i : Z) : outcome (option HParsedToken) :=
  _ ← assert_ok ((0 <=? i) && (i <? Z.of_nat (ca_used a)));
  carray_elem a (Z.to_nat i).

Definition h_seq_len (p : option HParsedToken) : outcome nat :=
  '(_, seq) ← assert_seq p; Ok (ca_used seq).

Definition h_seq_elements (p : option HParsedToken) : outcome (list (option HParsedToken)) :=
  '(_, seq) ← assert_seq p; Ok (ca_elements seq).

Definition h_seq_index (p : option HParsedToken) (i : Z) : outcome (option HParsedToken) :=
  '(_, seq) ← assert_seq p; h_carray_index seq i.

(** The variadic indices up to the first negative one; running past the
    arguments is undefined. *)
Fixpoint h_seq_index_vpath_loop (ret : option HParsedToken) (va : list Z)
    : outcome (option HParsedToken) :=
  match va with
  | [] => Fault OutOfBounds
  | j :: va => if 0 <=? j then ret ← h_seq_index ret j; h_seq_index_vpath_loop ret va
               else Ok ret
  end.
Definition h_seq_index_vpath (p : option HParsedToken) (i : Z) (va : list Z)
    : outcome (option HParsedToken) :=
  ret ← h_seq_index p i; h_seq_index_vpath_loop ret va.
Definition h_seq_index_path (p : option HParsedToken) (i : Z) (va : list Z) :=
  h_seq_index_vpath p i va.

(** [xs] after the call. *)
Definition h_seq_snoc (xs x : option HParsedToken) : outcome HParsedToken :=
  '(t, seq) ← assert_seq xs;
  seq ← h_carray_append seq x;
  Ok (set_tok_data t (TT_SEQUENCE seq)).

Definition h_seq_append (xs ys : option HParsedToken) : outcome HParsedToken :=
  '(t, seq) ← assert_seq xs;
  '(_, yseq) ← assert_seq ys;
  seq ← (fix loop (n i : nat) seq :=
           match n with
           | O => Ok seq
           | S n => y ← carray_elem yseq i; seq ← h_carray_append seq y; loop n (S i) seq
           end) (ca_used yseq) O seq;
  Ok (set_tok_data t (TT_SEQUENCE seq)).

(** [h_seq_flatten], recursion by fuel on the depth of the token. *)
Fixpoint h_seq_flatten (fuel : nat) (p : option HParsedToken) : outcome HParsedToken :=
  match fuel with
  | O => OutOfFuel
  | S fuel =>
      match p with
      | None => Fault AssertFail
      | Some tok =>
          match tok_data tok with
          | TT_SEQUENCE seq =>
              (fix loop (n i : nat) ret :=
                 match n with
                 | O => Ok ret
                 | S n =>
                     x ← h_seq_index p (Z.of_nat i);
                     y ← h_seq_flatten fuel x;
                     ret ← h_seq_append (Some ret) (Some y);
                     loop n (S i) ret
                 end) (ca_used seq) O h_make_seq
          | _ => h_seq_snoc (Some h_make_seq) p
          end
      end
  end.

(** * Flattening *)

(** A token whose sequences have sound arrays, at every depth. *)
Inductive tok_wf : HParsedToken -> Prop :=
| tok_wf_leaf d i l o : (forall s, d <> TT_SEQUENCE s) -> tok_wf (mkTok d i l o)
| tok_wf_seq s i l o :
    carray_wf s -> (forall t, Some t ∈ ca_contents s -> tok_wf t) ->
    tok_wf (mkTok (TT_SEQUENCE s) i l o).

(** The tokens that are no sequences, from left to right. *)
Fixpoint leaves (tok : HParsedToken) : list HParsedToken :=
  let 'mkTok d _ _ _ := tok in
  match d with
  | TT_SEQUENCE (mkCArray _ used elements) =>
      (fix loop (n : nat) (els : list (option HParsedToken)) {struct els} : list HParsedToken :=
         match els, n with
         | Some t :: els, S n => leaves t ++ loop n els
         | None :: els, S n => loop n els
         | _, _ => []
         end) used elements
  | _ => [tok]
  end.

(** The leaves of a sequence are those of its elements in use. *)
Lemma leaves_seq s i l o :
  leaves (mkTok (TT_SEQUENCE s) i l o) =
  mjoin ((fun x => match x with Some t => leaves t | None => [] end) <$> ca_contents s).
Proof.
  destruct s as [cap used els]. cbn [leaves ca_contents]. unfold ca_contents. simpl.
  revert used. induction els as [|[t|] els IH]; intros [|n]; simpl; try done; by rewrite IH.
Qed.

Lemma leaves_leaf d i l o : (forall s, d <> TT_SEQUENCE s) -> leaves (mkTok d i l o) = [mkTok d i l o].
Proof. intros H. destruct d; try done. by destruct (H seq). Qed.

(** The nesting depth, the fuel of a recursion through a token. *)
Fixpoint tok_depth (t : HParsedToken) : nat :=
  let 'mkTok d _ _ _ := t in
  match d with
  | TT_SEQUENCE (mkCArray _ _ elements) =>
      S ((fix depths (els : list (option HParsedToken)) : nat :=
            match els with
            | [] => O
            | None :: els => depths els
            | Some t :: els => max (tok_depth t) (depths els)
            end) elements)
  | _ => 1%nat
  end.

Lemma tok_depth_elem s i l o t : Some t ∈ ca_elements s -> (tok_depth t < tok_depth (mkTok (TT_SEQUENCE s) i l o))%nat.
Proof.
  destruct s as [cap used els]. simpl. induction els as [|[x|] els IH]; intros H.
  - by apply not_elem_of_nil in H.
  - apply elem_of_cons in H as [[= ->]|H]; [lia|]. specialize (IH H). lia.
  - apply elem_of_cons in H as [|H]; [done|]. specialize (IH H). lia.
Qed.

Lemma elem_of_contents {A} (s : HCountedArray A) x : x ∈ ca_contents s -> x ∈ ca_elements s.
Proof. unfold ca_contents. intros H. apply list_elem_of_lookup in H as [i Hi].
  apply lookup_take_Some in Hi as [Hi _]. by eapply list_elem_of_lookup_2. Qed.

(** The loop of [act_flatten_] over the elements of a sequence. *)
Fixpoint flatten_loop (acc : HCountedArray HParsedToken) (els : list (option HParsedToken))
    : outcome (HCountedArray HParsedToken) :=
  match els with
  | [] => Ok acc
  | None :: els => flatten_loop acc els
  | Some t :: els => acc ← act_flatten_ acc t; flatten_loop acc els
  end.

Lemma act_flatten_seq acc s i l o :
  carray_wf s ->
  act_flatten_ acc (mkTok (TT_SEQUENCE s) i l o) = flatten_loop acc (ca_contents s).
Proof.
  intros [Hl _ Hu]. destruct s as [cap used els]. unfold ca_contents. simpl in *.
  assert (used <= length els)%nat as Hlt by lia. clear Hl Hu.
  revert used acc Hlt. induction els as [|[t|] els IH]; intros [|n] acc Hlt; simpl in *;
    try done; try lia; [|apply IH; lia].
  destruct (act_flatten_ acc t); simpl; try done. apply IH. lia.
Qed.

Lemma act_flatten_ok tok acc :
  tok_wf tok -> carray_wf acc ->
  exists acc', act_flatten_ acc tok = Ok acc' /\ carray_wf acc' /\
    ca_contents acc' = ca_contents acc ++ (Some <$> leaves tok).
Proof.
  intros Ht. revert acc. induction Ht as [d i l o Hd|s i l o Hs _ IH]; intros acc Hacc.
  - rewrite (leaves_leaf _ _ _ _ Hd).
    destruct (h_carray_append_ok acc (Some (mkTok d i l o)) Hacc) as (acc' & E & Hwf & Hc & _).
    exists acc'. split; [|done]. destruct d; try exact E. by destruct (Hd seq).
  - rewrite (act_flatten_seq _ _ _ _ _ Hs), leaves_seq. revert acc Hacc IH.
    induction (ca_contents s) as [|[t|] els IHels]; intros acc Hacc IH; simpl.
    + exists acc. by rewrite app_nil_r.
    + destruct (IH t (list_elem_of_here _ _) acc Hacc) as (acc1 & -> & Hwf1 & Hc1).
      destruct (IHels acc1 Hwf1) as (acc2 & E2 & Hwf2 & Hc2).
      { intros t' Ht'. apply IH. by apply list_elem_of_further. }
      exists acc2. split; [exact E2|]. split; [done|].
      rewrite Hc2, Hc1, fmap_app, app_assoc. done.
    + apply IHels; [done|]. intros t' Ht'. apply IH. by apply list_elem_of_further.
Qed.

(** h_act_flatten turns a token of any nesting into the sequence of its
    leaves from left to right, the NULL elements left out, at the place of the
    token, and reads nothing outside the arrays. *)
Theorem h_act_flatten_spec tok b u :
  tok_wf tok ->
  exists s, h_act_flatten (mkResult (Some tok) b) u =
      Ok (Some (mkTok (TT_SEQUENCE s) (tok_index tok) 0 (tok_bit_offset tok))) /\
    carray_wf s /\ ca_contents s = Some <$> leaves tok.
Proof.
  intros Ht. destruct (act_flatten_ok tok h_carray_new Ht (carray_new_sized_wf 4)) as (s & E & Hwf & Hc).
  exists s. unfold h_act_flatten. simpl. rewrite E. simpl. split; [done|]. split; [done|].
  by rewrite Hc.
Qed.

(** No sequence holds a NULL element. *)
Inductive tok_full : HParsedToken -> Prop :=
| tok_full_leaf d i l o : (forall s, d <> TT_SEQUENCE s) -> tok_full (mkTok d i l o)
| tok_full_seq s i l o :
    carray_wf s -> None ∉ ca_contents s -> (forall t, Some t ∈ ca_contents s -> tok_full t) ->
    tok_full (mkTok (TT_SEQUENCE s) i l o).

Lemma carray_elem_contents {A} (s : HCountedArray A) i x :
  ca_contents s !! i = Some x -> carray_elem s i = Ok x.
Proof.
  unfold ca_contents, carray_elem. intros H. apply lookup_take_Some in H as [H _]. by rewrite H.
Qed.

Lemma contents_length {A} (s : HCountedArray A) : carray_wf s -> length (ca_contents s) = ca_used s.
Proof. intros [Hl _ Hu]. unfold ca_contents. rewrite length_take. lia. Qed.

Lemma h_seq_append_ok t s y ys :
  tok_data t = TT_SEQUENCE s -> carray_wf s -> tok_data y = TT_SEQUENCE ys -> carray_wf ys ->
  exists s', h_seq_append (Some t) (Some y) = Ok (set_tok_data t (TT_SEQUENCE s')) /\
    carray_wf s' /\ ca_contents s' = ca_contents s ++ ca_contents ys.
Proof.
  intros Ht Hs Hy Hys. unfold h_seq_append, assert_seq. rewrite Ht, Hy. cbn [mbind outcome_bind].
  rewrite <- (contents_length ys Hys).
  assert (forall i x, ca_contents ys !! i = Some x -> carray_elem ys (0 + i) = Ok x) as Hat
    by (intros; by apply carray_elem_contents).
  clear Ht Hy. revert Hat. generalize 0%nat as j. revert s Hs.
  induction (ca_contents ys) as [|x xs IH]; intros s Hs j Hat; simpl.
  - exists s. by rewrite app_nil_r.
  - pose proof (Hat 0%nat x eq_refl) as Hx. rewrite Nat.add_0_r in Hx. rewrite Hx. simpl.
    destruct (h_carray_append_ok s x Hs) as (s1 & -> & Hs1 & Hc1 & _). simpl.
    destruct (IH s1 Hs1 (S j)) as (s2 & E2 & Hs2 & Hc2).
    { intros i y' Hy'. rewrite <- (Hat (S i) y' Hy'). f_equal. lia. }
    exists s2. split; [exact E2|]. split; [done|]. by rewrite Hc2, Hc1, <- app_assoc.
Qed.

(** The loop of [h_seq_flatten] over the elements of [p]. *)
Definition seq_flatten_loop (rec : option HParsedToken -> outcome HParsedToken)
    (p : option HParsedToken) : nat -> nat -> HParsedToken -> outcome HParsedToken :=
  fix loop (n i : nat) ret :=
    match n with
    | O => Ok ret
    | S n =>
        x ← h_seq_index p (Z.of_nat i);
        y ← rec x;
        ret ← h_seq_append (Some ret) (Some y);
        loop n (S i) ret
    end.

Lemma seq_flatten_loop_ok rec p s :
  (exists t, p = Some t /\ tok_data t = TT_SEQUENCE s) -> carray_wf s ->
  (forall x, x ∈ ca_contents s -> exists t ts, x = Some t /\
     rec x = Ok (h_make_ (TT_SEQUENCE ts)) /\ carray_wf ts /\ ca_contents ts = Some <$> leaves t) ->
  forall xs j r, drop j (ca_contents s) = xs -> carray_wf r ->
  exists r', seq_flatten_loop rec p (length xs) j (h_make_ (TT_SEQUENCE r)) =
      Ok (h_make_ (TT_SEQUENCE r')) /\ carray_wf r' /\
    ca_contents r' = ca_contents r ++
      (Some <$> mjoin ((fun x => match x with Some t => leaves t | None => [] end) <$> xs)).
Proof.
  intros (pt & -> & Hp) Hs Hrec. induction xs as [|x xs IH]; intros j r Hd Hr.
  { exists r. by rewrite app_nil_r. }
  assert (ca_contents s !! j = Some x) as Hx.
  { pose proof (lookup_drop (ca_contents s) j 0) as E. rewrite Hd, Nat.add_0_r in E. done. }
  assert (drop (S j) (ca_contents s) = xs) as Hd'.
  { rewrite <- Nat.add_1_r, <- drop_drop, Hd. done. }
  cbn [length seq_flatten_loop]. unfold h_seq_index, assert_seq. rewrite Hp.
  cbn [mbind outcome_bind]. unfold h_carray_index.
  pose proof (lookup_lt_Some _ _ _ Hx) as Hj. rewrite (contents_length _ Hs) in Hj.
  replace ((0 <=? Z.of_nat j) && (Z.of_nat j <? Z.of_nat (ca_used s))) with true by lia.
  cbn [mbind outcome_bind assert_ok]. rewrite Nat2Z.id, (carray_elem_contents _ _ _ Hx).
  cbn [mbind outcome_bind].
  destruct (Hrec x) as (t & ts & -> & -> & Hts & Hc); [by eapply list_elem_of_lookup_2|].
  cbn [mbind outcome_bind].
  edestruct (h_seq_append_ok (h_make_ (TT_SEQUENCE r)) r (h_make_ (TT_SEQUENCE ts)) ts)
    as (r1 & -> & Hr1 & Hc1); try done.
  cbn [mbind outcome_bind]. destruct (IH (S j) r1 Hd' Hr1) as (r' & E & Hr' & Hc').
  exists r'. split; [exact E|]. split; [done|].
  rewrite Hc', Hc1, Hc. simpl. by rewrite fmap_app, app_assoc.
Qed.

(** h_seq_flatten gives the same leaves as a sequence of its own, for every
    token without NULL elements; its recursion ends at the depth of the token. *)
Theorem h_seq_flatten_spec tok fuel :
  tok_full tok -> (tok_depth tok < fuel)%nat ->
  exists s, h_seq_flatten fuel (Some tok) = Ok (h_make_ (TT_SEQUENCE s)) /\
    carray_wf s /\ ca_contents s = Some <$> leaves tok.
Proof.
  intros Ht. revert fuel. induction Ht as [d i l o Hd|s i l o Hs Hn _ IH]; intros [|fuel] Hf; try lia.
  - rewrite (leaves_leaf _ _ _ _ Hd).
    destruct (h_carray_append_ok h_carray_new (Some (mkTok d i l o)) (carray_new_sized_wf 4))
      as (s & E & Hwf & Hc & _).
    exists s. split; [|done].
    assert (h_seq_snoc (Some h_make_seq) (Some (mkTok d i l o)) = Ok (h_make_ (TT_SEQUENCE s))) as Hsn.
    { unfold h_seq_snoc, h_make_seq, h_make_, new_tok, assert_seq. cbn [tok_data mbind outcome_bind].
      rewrite E. done. }
    destruct d; try exact Hsn. by destruct (Hd seq).
  - rewrite leaves_seq.
    destruct (seq_flatten_loop_ok (h_seq_flatten fuel) (Some (mkTok (TT_SEQUENCE s) i l o)) s)
      with (xs := ca_contents s) (j := 0%nat) (r := @h_carray_new HParsedToken)
      as (r & E & Hr & Hc); try done.
    + by eexists.
    + intros [t|] Hx; [|done]. destruct (IH t Hx fuel) as (ts & E & Hts & Hc).
      { pose proof (tok_depth_elem s i l o t (elem_of_contents _ _ Hx)). lia. }
      by exists t, ts.
    + apply carray_new_sized_wf.
    + exists r. split; [|done]. rewrite (contents_length _ Hs) in E. exact E.
Qed.

(** * Witnesses *)

(** [[1; [2; 3]]], in arrays with spare room. *)
Definition inner_seq : HCountedArray HParsedToken :=
  mkCArray 4 2 [Some (new_tok (TT_UINT 2)); Some (new_tok (TT_UINT 3)); None; None].
Definition nested_tok : HParsedToken :=
  new_tok (TT_SEQUENCE (mkCArray 2 2
    [Some (new_tok (TT_UINT 1)); Some (new_tok (TT_SEQUENCE inner_seq))])).

Lemma tok_full_elems s i l o :
  carray_wf s -> Forall (fun x => exists t, x = Some t /\ tok_full t) (ca_contents s) ->
  tok_full (mkTok (TT_SEQUENCE s) i l o).
Proof.
  intros Hs Hc. rewrite list.Forall_forall in Hc. constructor; [done| |].
  - intros H. by apply Hc in H as (t & [=] & _).
  - intros t H. by apply Hc in H as (t' & [= ->] & H').
Qed.

Lemma nested_tok_full : tok_full nested_tok.
Proof.
  apply tok_full_elems; [split; simpl; lia|].
  repeat constructor; (eexists; split; [reflexivity|]); [by constructor|].
  apply tok_full_elems; [split; simpl; lia|].
  repeat constructor; (eexists; split; [reflexivity|]); by constructor.
Qed.

Lemma tok_full_wf t : tok_full t -> tok_wf t.
Proof. induction 1; by constructor. Qed.

Lemma h_act_flatten_spec_witness :
  exists s, h_act_flatten (mkResult (Some nested_tok) 24) 0 =
      Ok (Some (mkTok (TT_SEQUENCE s) 0 0 0)) /\
    carray_wf s /\ ca_contents s = Some <$> [new_tok (TT_UINT 1); new_tok (TT_UINT 2); new_tok (TT_UINT 3)].
Proof. exact (h_act_flatten_spec nested_tok 24 0 (tok_full_wf _ nested_tok_full)). Defined.

Lemma h_seq_flatten_spec_witness :
  exists s, h_seq_flatten 4 (Some nested_tok) = Ok (h_make_ (TT_SEQUENCE s)) /\
    carray_wf s /\ ca_contents s = Some <$> [new_tok (TT_UINT 1); new_tok (TT_UINT 2); new_tok (TT_UINT 3)].
Proof. apply (h_seq_flatten_spec nested_tok 4 nested_tok_full). vm_compute. lia. Defined.
