(* ===== verification/PPrint.v ===== *)
(** Printing of parsed tokens (src/src/pprint.c): h_pprint, which writes to a
    FILE, and h_write_result_unamb, which writes to a string that grows.

    What a FILE gets is a text. The growing string is the memory behind it, a byte
    that was never written is [None]; [realloc] says which sizes the system
    allocator grants. The formatting functions of the C library do not fail. *)

From Stdlib Require Import Ascii String.
From S2P Require Import Prelude Text Stream CArray Token Registry.

(** [%s]; NULL is no string. *)
Definition fmt_string (s : option text) : outcome text := deref NullDeref s.

Definition line (indent : Z) (s : text) : text := spaces indent ++ s ++ [10].

(** ['<' before the first byte and '.' before the others], each with two digits. *)
Fixpoint dotted_from (i : nat) (bytes : list Z) : text :=
  match bytes with
  | [] => []
  | b :: bytes => (if (i =? 0)%nat then 60 else 46) :: fmt_byte b ++ dotted_from (S i) bytes
  end.
Definition dotted (bytes : list Z) : text := dotted_from 0 bytes.

(** [-tok->sint] as PRIx64 shows it. Negating the smallest integer is undefined in
    C; it wraps here, as it does in two's complement machines. *)
Definition negated (sint : Z) : Z := uint64 (wraps 64 (- sint)).

Fixpoint h_pprint (r : Registry) (tok : HParsedToken) (indent delta : Z) {struct tok}
    : outcome text :=
  let 'mkTok d _ _ _ := tok in
  match d with
  | TT_NONE => Ok (line indent (lit "null"))
  | TT_BYTES token =>
      Ok (line indent (if (length token =? 0)%nat then lit "<>" else dotted token ++ [62]))
  | TT_SINT sint =>
      Ok (line indent (if sint <? 0 then lit "s -" ++ fmt_alt_hex (negated sint)
                       else lit "s " ++ fmt_alt_hex sint))
  | TT_UINT uint => Ok (line indent (lit "u " ++ fmt_alt_hex uint))
  | TT_SEQUENCE (mkCArray _ used elements) =>
      body ← (fix loop (n : nat) (els : list (option HParsedToken)) {struct els} : outcome text :=
         match n, els with
         | O, _ => Ok []
         | S n, [] => Fault OutOfBounds
         | S n, None :: els => Fault NullDeref
         | S n, Some t :: els =>
             out ← h_pprint r t (sint32 (indent + delta)) delta;
             outs ← loop n els;
             Ok (out ++ outs)
         end) used elements;
      Ok (line indent [91] ++ body ++ line indent [93])
  | TT_USER ty _ =>
      if ty =? TT_USER_ then
        name ← h_get_token_type_name ty r;
        name ← fmt_string name;
        Ok (line indent (lit "USER:" ++ name))
      else if TT_USER_ <? ty then
        name ← h_get_token_type_name ty r;
        name ← fmt_string name;
        Ok (line indent (lit "USER:" ++ name ++ [32] ++ fmt_dec (ty - TT_USER_)))
      else Fault AssertFail
  | TT_RESERVED_1 | TT_ERR => Fault AssertFail
  end.

Record result_buf := mkBuf {
  rb_output : option (list (option Z));
  rb_len : Z;
  rb_capacity : Z;
}.

Section Unamb.
(** Which sizes the system allocator grants. *)
Context (realloc : Z -> bool).

Definition realloc_output (output : option (list (option Z))) (size : Z) : option (list (option Z)) :=
  if realloc size then
    let old := default [] output in
    Some (take (Z.to_nat size) old ++ replicate (Z.to_nat size - length old) None)
  else None.

(** The capacity doubles until it is more than [len + amt]: at most 64 times. *)
Fixpoint ensure_loop (fuel : nat) (amt : Z) (buf : result_buf) : outcome (bool * result_buf) :=
  if uint64 (rb_len buf + amt) <? rb_capacity buf then Ok (true, buf) else
  match fuel with
  | O => OutOfFuel
  | S fuel =>
      let capacity := uint64 (rb_capacity buf * 2) in
      let output := realloc_output (rb_output buf) capacity in
      let buf := mkBuf output (rb_len buf) capacity in
      if output is Some _ then ensure_loop fuel amt buf else Ok (false, buf)
  end.
Definition ensure_capacity (amt : Z) : ST result_buf bool := fun buf => ensure_loop 64 amt buf.

(** memcpy to the place of the length. *)
Definition memcpy_output (input : text) : ST result_buf unit := fun buf =>
  output ← deref NullDeref (rb_output buf);
  if rb_len buf + Z.of_nat (length input) <=? Z.of_nat (length output) then
    Ok (tt, mkBuf (Some (list_inserts (Z.to_nat (rb_len buf)) (Some <$> input) output))
              (uint64 (rb_len buf + Z.of_nat (length input))) (rb_capacity buf))
  else Fault OutOfBounds.

Definition append_buf (input : text) : ST result_buf bool :=
  ok ← ensure_capacity (Z.of_nat (length input));
  if ok : bool then memcpy_output input;; mret true else mret false.

Definition append_buf_c (v : Z) : ST result_buf bool :=
  ok ← ensure_capacity 1;
  if ok : bool then memcpy_output [v];; mret true else mret false.

Definition append_buf_formatted (formatted : text) : ST result_buf bool := append_buf formatted.

(** [HEX[i]] *)
Definition HEX : text := lit "0123456789abcdef".
Definition hex_digit (i : Z) : outcome Z := deref OutOfBounds (HEX !! Z.to_nat i).

(** The bytes are [char]s, which are signed. *)
Fixpoint unamb_bytes (i : nat) (bytes : list Z) : ST result_buf unit :=
  match bytes with
  | [] => mret tt
  | b :: bytes =>
      append_buf_c (if (i =? 0)%nat then 60 else 46);;
      let c := wraps 8 b in
      hi ← lift (hex_digit (Z.land (Z.shiftr c 4) 15));
      append_buf_c hi;;
      lo ← lift (hex_digit (Z.land (Z.shiftr c 0) 15));
      append_buf_c lo;;
      unamb_bytes (S i) bytes
  end.

(** The loop over the elements of a sequence. *)
Definition unamb_elems (rec : HParsedToken -> ST result_buf unit)
    : nat -> nat -> list (option HParsedToken) -> ST result_buf unit :=
  fix loop n i els {struct els} :=
    match n, els with
    | O, _ => mret tt
    | S n, [] => throw OutOfBounds
    | S n, x :: els =>
        (if (0 <? i)%nat then append_buf_c 32;; mret tt else mret tt);;
        match x with
        | None => append_buf (lit "NULL");; mret tt
        | Some t => rec t
        end;;
        loop n (S i) els
    end.

Fixpoint unamb_tok (tok : HParsedToken) {struct tok} : ST result_buf unit :=
  let 'mkTok d _ _ _ := tok in
  match d with
  | TT_NONE => append_buf (lit "null");; mret tt
  | TT_BYTES token =>
      if (length token =? 0)%nat then append_buf (lit "<>");; mret tt
      else unamb_bytes 0 token;; append_buf_c 62;; mret tt
  | TT_SINT sint =>
      append_buf_formatted (if sint <? 0 then lit "s-" ++ fmt_alt_hex (negated sint)
                            else lit "s" ++ fmt_alt_hex sint);; mret tt
  | TT_UINT uint => append_buf_formatted (lit "u" ++ fmt_alt_hex uint);; mret tt
  | TT_ERR => append_buf (lit "ERR");; mret tt
  | TT_SEQUENCE (mkCArray _ used elements) =>
      append_buf_c 40;;
      unamb_elems unamb_tok used O elements;;
      append_buf_c 41;; mret tt
  | TT_RESERVED_1 | TT_USER _ _ => throw AssertFail
  end.

Definition unamb_sub (tok : option HParsedToken) : ST result_buf unit :=
  match tok with
  | None => append_buf (lit "NULL");; mret tt
  | Some tok => unamb_tok tok
  end.

(** [alloc] is malloc of the first 16 bytes. *)
Definition h_write_result_unamb (alloc : bool) (tok : option HParsedToken)
    : outcome (option (list (option Z))) :=
  if alloc then
    '(_, buf) ← unamb_sub tok (mkBuf (Some (replicate 16 None)) 0 16);
    '(_, buf) ← append_buf_c 0 buf;
    Ok (rb_output buf)
  else Ok None.
End Unamb.

(** * What h_write_result_unamb prints *)

(** A token without its place and the spare room of its arrays. *)
Inductive value :=
| V_NULL
| V_none
| V_bytes (bytes : list Z)
| V_sint (n : Z)
| V_uint (n : Z)
| V_err
| V_seq (vs : list value).

(** Tokens that can be printed: within the types of C, and not of the user. *)
Inductive printable : HParsedToken -> Prop :=
| printable_none i l o : printable (mkTok TT_NONE i l o)
| printable_bytes b i l o : Forall byte b -> printable (mkTok (TT_BYTES b) i l o)
| printable_sint n i l o : - 2 ^ 63 <= n < 2 ^ 63 -> printable (mkTok (TT_SINT n) i l o)
| printable_uint n i l o : 0 <= n < 2 ^ 64 -> printable (mkTok (TT_UINT n) i l o)
| printable_err i l o : printable (mkTok TT_ERR i l o)
| printable_seq s i l o :
    carray_wf s -> (forall t, Some t ∈ ca_contents s -> printable t) ->
    printable (mkTok (TT_SEQUENCE s) i l o).

Fixpoint value_of (tok : HParsedToken) : value :=
  let 'mkTok d _ _ _ := tok in
  match d with
  | TT_NONE => V_none
  | TT_BYTES b => V_bytes b
  | TT_SINT n => V_sint n
  | TT_UINT n => V_uint n
  | TT_SEQUENCE (mkCArray _ used elements) =>
      V_seq ((fix loop (n : nat) (els : list (option HParsedToken)) {struct els} : list value :=
        match els, n with
        | Some t :: els, S n => value_of t :: loop n els
        | None :: els, S n => V_NULL :: loop n els
        | _, _ => []
        end) used elements)
  | TT_ERR | TT_RESERVED_1 | TT_USER _ _ => V_err
  end.
Definition value_of' (tok : option HParsedToken) : value :=
  match tok with Some t => value_of t | None => V_NULL end.

Lemma value_of_seq s i l o :
  value_of (mkTok (TT_SEQUENCE s) i l o) = V_seq (value_of' <$> ca_contents s).
Proof.
  destruct s as [cap used els]. cbn [value_of]. f_equal. unfold ca_contents. simpl.
  revert used. induction els as [|[t|] els IH]; intros [|n]; simpl; try done; by rewrite IH.
Qed.

Fixpoint print_value (v : value) : text :=
  match v with
  | V_NULL => lit "NULL"
  | V_none => lit "null"
  | V_bytes b => if (length b =? 0)%nat then lit "<>" else dotted b ++ [62]
  | V_sint n => if n <? 0 then lit "s-" ++ fmt_alt_hex (- n) else lit "s" ++ fmt_alt_hex n
  | V_uint n => lit "u" ++ fmt_alt_hex n
  | V_err => lit "ERR"
  | V_seq vs =>
      [40] ++ (fix elems (first : bool) (vs : list value) : text :=
         match vs with
         | [] => []
         | v :: vs => (if first then [] else [32]) ++ print_value v ++ elems false vs
         end) true vs ++ [41]
  end.
Fixpoint print_elems (first : bool) (vs : list value) : text :=
  match vs with
  | [] => []
  | v :: vs => (if first then [] else [32]) ++ print_value v ++ print_elems false vs
  end.

Lemma print_seq vs : print_value (V_seq vs) = [40] ++ print_elems true vs ++ [41].
Proof. done. Qed.

(** ** The growing string *)

(** The memory of the buffer starts with what was printed, and has room for one
    more character. *)
Definition holds (buf : result_buf) (out : text) : Prop :=
  exists mem, rb_output buf = Some mem /\ Z.of_nat (length mem) = rb_capacity buf /\
    rb_len buf = Z.of_nat (length out) /\ take (length out) mem = Some <$> out /\
    rb_len buf < rb_capacity buf <= 16 + 2 * rb_len buf.

Section UnambSpec.
(** The longest output; the allocator grants what it takes. *)
Context (realloc : Z -> bool) (limit : Z) (Hlimit : limit < 2 ^ 60)
  (Hgrant : forall size, 0 <= size <= 16 + 2 * limit -> realloc size = true).

Lemma ensure_loop_ok fuel : forall amt mem len cap (out : text),
  Z.of_nat (length mem) = cap -> len = Z.of_nat (length out) -> take (length out) mem = Some <$> out ->
  len < cap <= 16 + 2 * (len + amt) -> 0 <= amt -> len + amt <= limit ->
  len + amt < cap * 2 ^ Z.of_nat fuel ->
  exists mem' cap', ensure_loop realloc fuel amt (mkBuf (Some mem) len cap) =
      Ok (true, mkBuf (Some mem') len cap') /\
    Z.of_nat (length mem') = cap' /\ take (length out) mem' = Some <$> out /\
    len + amt < cap' <= 16 + 2 * (len + amt).
Proof.
  induction fuel as [|fuel IH]; intros amt mem len cap out Hl Hlen Ht Hc Ha Hle Hp;
    cbn [ensure_loop rb_len rb_capacity rb_output]; unfold wrapu at 1;
    rewrite (Z.mod_small (len + amt)) by lia;
    (destruct (Z.ltb_spec (len + amt) cap) as [Hlt|Hge]; [exists mem, cap; split_and!; (done || lia)|]).
  - simpl in Hp. lia.
  - unfold wrapu. rewrite Z.mod_small by lia. unfold realloc_output.
    rewrite Hgrant by lia. cbn [default id].
    rewrite Nat2Z.inj_succ, Z.pow_succ_r in Hp by lia.
    apply (IH amt _ len (cap * 2) out); [|done| |lia..].
    + rewrite length_app, length_take, length_replicate. lia.
    + rewrite (take_ge mem) by lia. rewrite take_app_le by lia. done.
Qed.

(** [m] appends [s]. *)
Definition appends {A} (m : ST result_buf A) (s : text) : Prop :=
  forall buf out, holds buf out -> Z.of_nat (length (out ++ s)) <= limit ->
    exists a buf', m buf = Ok (a, buf') /\ holds buf' (out ++ s).

Lemma appends_ret {A} (a : A) : appends (mret a) [].
Proof. intros buf out H _. exists a, buf. by rewrite app_nil_r. Qed.

Lemma appends_bind {A B} (m : ST result_buf A) (k : A -> ST result_buf B) s t :
  appends m s -> (forall a, appends (k a) t) -> appends (m ≫= k) (s ++ t).
Proof.
  intros Hm Hk buf out H Hl. rewrite app_assoc in Hl.
  destruct (Hm buf out H) as (a & buf1 & E1 & H1); [rewrite length_app in Hl; lia|].
  destruct (Hk a buf1 _ H1 Hl) as (b & buf2 & E2 & H2).
  exists b, buf2. rewrite app_assoc. unfold mbind, ST_bind. by rewrite E1.
Qed.

Lemma inserts_after {A} n (l1 l2 l3 l4 : list A) :
  n = length l2 -> length l1 = length l3 -> list_inserts n l1 (l2 ++ l3 ++ l4) = l2 ++ l1 ++ l4.
Proof.
  intros -> Hl. rewrite <- (Nat.add_0_r (length l2)), list_inserts_app_r. by rewrite list_inserts_0_r.
Qed.

Lemma appends_append s : appends (append_buf realloc s) s.
Proof.
  intros [o len cap0] out (mem0 & Hm0 & Hl0 & Hlen & Ht0 & Hc0) Hl. rewrite length_app in Hl.
  simpl in *. subst o.
  destruct (ensure_loop_ok 64 (Z.of_nat (length s)) mem0 len cap0 out) as (mem & cap & E & Hm & Ht & Hcap);
    [done..|lia|lia|lia| |].
  { change (Z.of_nat 64) with 64. nia. }
  unfold append_buf. unfold mbind, ST_bind, ensure_capacity. rewrite E. 
  unfold memcpy_output. cbn [rb_output rb_len rb_capacity deref mbind outcome_bind].
  rewrite (proj2 (Z.leb_le _ _)) by lia. unfold wrapu. rewrite Z.mod_small by lia.
  eexists _, _. split; [done|]. eexists. split; [done|]. simpl.
  rewrite length_inserts, length_app, fmap_app. split; [done|]. split; [lia|].
  split; [|lia]. rewrite Hlen, Nat2Z.id.
  rewrite <- (take_drop (length out) mem), Ht.
  rewrite <- (take_drop (length s) (drop (length out) mem)).
  rewrite inserts_after; [|by rewrite length_fmap|].
  - rewrite app_assoc, take_app_le by (rewrite length_app, !length_fmap; lia).
    apply firstn_all2. rewrite length_app, !length_fmap. lia.
  - rewrite length_fmap, length_take, length_drop. lia.
Qed.

Lemma appends_append_c c : appends (append_buf_c realloc c) [c].
Proof.
  assert (append_buf_c realloc c = append_buf realloc [c]) as ->; [|apply appends_append].
  unfold append_buf_c, append_buf. by change (Z.of_nat (length [c])) with 1.
Qed.

Lemma appends_then {A} (m : ST result_buf A) s : appends m s -> appends (m;; mret tt) s.
Proof. intros Hm. rewrite <- (app_nil_r s). apply appends_bind; [done|]. intros _. apply appends_ret. Qed.

Lemma appends_lift {A B} (o : outcome A) a (k : A -> ST result_buf B) s :
  o = Ok a -> appends (k a) s -> appends (lift o ≫= k) s.
Proof. intros -> H. exact H. Qed.

(** What holds of the numbers below a bound, by trying them. *)
Lemma below_ok (P : Z -> bool) (bound : nat) n :
  forallb P (Z.of_nat <$> seq 0 bound) = true -> 0 <= n < Z.of_nat bound -> P n = true.
Proof.
  intros H Hn. rewrite forallb_forall in H. apply H. apply list_elem_of_In, list_elem_of_fmap.
  exists (Z.to_nat n). rewrite elem_of_seq. lia.
Qed.

Lemma hex_digit_ok d : 0 <= d < 16 -> hex_digit d = Ok (hex_lower d).
Proof.
  intros Hd. pose proof (below_ok (fun d => match HEX !! Z.to_nat d with Some c => c =? hex_lower d | None => false end)
    16 d eq_refl Hd) as H. unfold hex_digit. simpl in H. case_match; [|done]. apply Z.eqb_eq in H. by subst.
Qed.

Lemma nibbles_ok b : byte b ->
  Z.land (Z.shiftr (wraps 8 b) 4) 15 = b / 16 /\ Z.land (Z.shiftr (wraps 8 b) 0) 15 = b mod 16.
Proof.
  intros Hb. rewrite <- !Z.eqb_eq, <- andb_true_iff.
  by apply (below_ok (fun b => (Z.land (Z.shiftr (wraps 8 b) 4) 15 =? b / 16) &&
    (Z.land (Z.shiftr (wraps 8 b) 0) 15 =? b mod 16)) 256).
Qed.

Lemma hex_digits_ok b : byte b ->
  hex_digit (Z.land (Z.shiftr (wraps 8 b) 4) 15) = Ok (hex_lower (b / 16)) /\
  hex_digit (Z.land (Z.shiftr (wraps 8 b) 0) 15) = Ok (hex_lower (b mod 16)).
Proof.
  intros Hb. destruct (nibbles_ok b Hb) as [-> ->], (two_digits b Hb).
  by rewrite !hex_digit_ok.
Qed.

Lemma appends_bytes bytes : forall i, Forall byte bytes ->
  appends (unamb_bytes realloc i bytes) (dotted_from i bytes).
Proof.
  induction bytes as [|b bytes IH]; intros i Hb; cbn [unamb_bytes dotted_from]; [apply appends_ret|].
  apply Forall_cons_1 in Hb as [Hb Hbs]. destruct (hex_digits_ok b Hb) as [Hhi Hlo].
  apply (appends_bind _ _ [_]); [apply appends_append_c|]. intros _.
  eapply appends_lift; [exact Hhi|]. apply (appends_bind _ _ [_]); [apply appends_append_c|]. intros _.
  eapply appends_lift; [exact Hlo|]. apply (appends_bind _ _ [_]); [apply appends_append_c|]. intros _.
  by apply IH.
Qed.

Lemma negated_ok n : - 2 ^ 63 <= n < 0 -> negated n = - n.
Proof.
  intros Hn. unfold negated, wrapu, wraps. simpl. destruct (decide (n = - 2 ^ 63)) as [->|]; [done|].
  rewrite (Z.mod_small (- n + _)) by lia. rewrite Z.mod_small by lia. lia.
Qed.

Lemma appends_elems rec els : forall n i, (n <= length els)%nat ->
  (forall t, Some t ∈ take n els -> appends (rec t) (print_value (value_of t))) ->
  appends (unamb_elems realloc rec n i els) (print_elems (i =? 0)%nat (value_of' <$> take n els)).
Proof.
  induction els as [|x els IH]; intros [|n] i Hn Hrec; simpl in *; try apply appends_ret; [lia|].
  apply appends_bind; [destruct i; [apply appends_ret|apply appends_then, appends_append_c]|].
  intros _. apply appends_bind.
  - destruct x as [t|]; [|apply appends_then, appends_append]. apply Hrec. left.
  - intros _. apply (IH n (S i)); [lia|]. intros t Ht. apply Hrec. by right.
Qed.

Lemma appends_tok tok : printable tok -> appends (unamb_tok realloc tok) (print_value (value_of tok)).
Proof.
  induction 1 as [| b i l o Hb | n i l o Hn | | | s i l o Hs _ IH]; 
    try (cbn [unamb_tok value_of print_value]; apply appends_then, appends_append).
  - cbn [unamb_tok value_of print_value]. destruct (length b =? 0)%nat; [apply appends_then, appends_append|].
    apply appends_bind; [by apply appends_bytes|]. intros _. apply appends_then, appends_append_c.
  - cbn [unamb_tok value_of print_value]. apply appends_then. destruct (Z.ltb_spec n 0); [|apply appends_append].
    rewrite negated_ok by lia. apply appends_append.
  - rewrite value_of_seq, print_seq. destruct Hs as [Hl _ Hu], s as [cap used els]. cbn in Hl, Hu.
    apply appends_bind; [apply appends_append_c|]. intros _.
    apply appends_bind; [|intros _; apply appends_then, appends_append_c].
    apply (appends_elems _ els used O); [lia|done].
Qed.
End UnambSpec.

(** ** Different values are printed differently *)

Section ValueInd.
Context (P : value -> Prop) (HNULL : P V_NULL) (Hnone : P V_none) (Hbytes : forall b, P (V_bytes b))
  (Hsint : forall n, P (V_sint n)) (Huint : forall n, P (V_uint n)) (Herr : P V_err)
  (Hseq : forall vs, Forall P vs -> P (V_seq vs)).
Fixpoint value_nested_ind (v : value) : P v :=
  match v with
  | V_NULL => HNULL
  | V_none => Hnone
  | V_bytes b => Hbytes b
  | V_sint n => Hsint n
  | V_uint n => Huint n
  | V_err => Herr
  | V_seq vs => Hseq vs ((fix all vs : Forall P vs :=
      match vs with [] => Forall_nil_2 P | v :: vs => Forall_cons_2 P v vs (value_nested_ind v) (all vs) end) vs)
  end.
End ValueInd.

(** Values within the types of C. *)
Inductive value_wf : value -> Prop :=
| vwf_NULL : value_wf V_NULL
| vwf_none : value_wf V_none
| vwf_bytes b : Forall byte b -> value_wf (V_bytes b)
| vwf_sint n : - 2 ^ 63 <= n < 2 ^ 63 -> value_wf (V_sint n)
| vwf_uint n : 0 <= n < 2 ^ 64 -> value_wf (V_uint n)
| vwf_err : value_wf V_err
| vwf_seq vs : Forall value_wf vs -> value_wf (V_seq vs).

Lemma printable_wf tok : printable tok -> value_wf (value_of tok).
Proof.
  induction 1 as [| | | | |s i l o Hs _ IH]; [by constructor..|]. rewrite value_of_seq. constructor.
  apply list.Forall_forall. intros v ([t|] & -> & Ht)%list_elem_of_fmap; [by apply IH|constructor].
Qed.

(** What a number can be followed by: nothing, a space, a parenthesis or the end
    of the string. *)
Definition hexx (c : Z) : Prop := 48 <= c <= 57 \/ 97 <= c <= 120.
Definition delimited (r : text) : Prop := forall c r', r = c :: r' -> ~ hexx c.

Lemma fmt_hex_chars n : 0 <= n < 2 ^ 64 -> Forall (fun c => 48 <= c <= 57 \/ 97 <= c <= 102) (fmt_hex n).
Proof.
  intros Hn. assert (2 ^ 64 < 16 ^ Z.of_nat 64) by done.
  destruct (digits_ok 64 16 n) as (_ & Hd & _); [lia..|]. apply Forall_fmap.
  eapply list.Forall_impl; [exact Hd|]. intros d H'. cbn beta in H'. unfold compose, hex_lower. destruct (Z.ltb_spec d 10); lia.
Qed.

Lemma fmt_alt_hex_chars n : 0 <= n < 2 ^ 64 -> Forall hexx (fmt_alt_hex n).
Proof.
  intros Hn. unfold fmt_alt_hex. destruct (n =? 0).
  - apply Forall_singleton. left. lia.
  - apply Forall_app. split.
    + by apply Forall_cons_2; [left|apply Forall_singleton; right].
    + eapply list.Forall_impl; [by apply fmt_hex_chars|]. unfold hexx. cbn beta. lia.
Qed.

Lemma fmt_alt_hex_inj n m : 0 <= n < 2 ^ 64 -> 0 <= m < 2 ^ 64 -> fmt_alt_hex n = fmt_alt_hex m -> n = m.
Proof.
  intros Hn Hm. unfold fmt_alt_hex.
  destruct (Z.eqb_spec n 0), (Z.eqb_spec m 0); intros E; subst; try done.
  apply fmt_hex_inj; [done..|]. by apply app_inv_head in E.
Qed.

Lemma number_inj n m r q : 0 <= n < 2 ^ 64 -> 0 <= m < 2 ^ 64 -> delimited r -> delimited q ->
  fmt_alt_hex n ++ r = fmt_alt_hex m ++ q -> n = m /\ r = q.
Proof.
  intros Hn Hm Hr Hq E.
  apply (split_at_class hexx) in E as [E ->]; [|by apply fmt_alt_hex_chars..|done|done].
  split; [by apply fmt_alt_hex_inj|done].
Qed.

Lemma dotted_inj bytes1 : forall bytes2 i r q, Forall byte bytes1 -> Forall byte bytes2 ->
  dotted_from i bytes1 ++ 62 :: r = dotted_from i bytes2 ++ 62 :: q -> bytes1 = bytes2 /\ r = q.
Proof.
  induction bytes1 as [|b bytes1 IH]; intros [|c bytes2] i r q H1 H2 E.
  - by injection E.
  - destruct i; discriminate E.
  - destruct i; discriminate E.
  - apply Forall_cons_1 in H1 as [Hb H1], H2 as [Hc H2].
    injection E as E1 E2 E. assert (fmt_byte b = fmt_byte c) as ->%fmt_byte_inj by (unfold fmt_byte; congruence);
      [|done..].
    apply IH in E as [-> ->]; done.
Qed.

(** A value starts with a character of its kind, never with one of those that
    separate values. *)
Lemma print_value_head v : exists c s, print_value v = c :: s /\ c <> 41 /\ c <> 32.
Proof.
  destruct v as [| |b|n|n| |vs]; try (eexists _, _; by split_and!).
  - destruct b as [|b bs]; eexists _, _; by split_and!.
  - simpl. destruct (n <? 0); eexists _, _; by split_and!.
Qed.

(** What is printed for [v] can be told from what follows it. *)
Definition readable (v : value) : Prop := forall w r q, value_wf v -> value_wf w -> delimited r -> delimited q ->
  print_value v ++ r = print_value w ++ q -> v = w /\ r = q.

Lemma delimited_cons c r : ~ hexx c -> delimited (c :: r).
Proof. by intros Hc d r' [= <- <-]. Qed.

Lemma delimited_elems vs r : delimited (print_elems false vs ++ 41 :: r).
Proof. destruct vs; apply delimited_cons; unfold hexx; lia. Qed.

Lemma print_elems_readable vs : forall ws first r q, Forall readable vs ->
  Forall value_wf vs -> Forall value_wf ws ->
  print_elems first vs ++ 41 :: r = print_elems first ws ++ 41 :: q -> vs = ws /\ r = q.
Proof.
  induction vs as [|v vs IH]; intros [|w ws] first r q Hr Hv Hw E; cbn [print_elems] in E.
  - by injection E.
  - destruct (print_value_head w) as (c & s & Es & ? & ?). rewrite Es in E. by destruct first; injection E.
  - destruct (print_value_head v) as (c & s & Es & ? & ?). rewrite Es in E. by destruct first; injection E.
  - apply Forall_cons_1 in Hr as [Hr1 Hr], Hv as [Hv1 Hv], Hw as [Hw1 Hw].
    rewrite <- !app_assoc in E. apply app_inv_head in E.
    apply Hr1 in E as [-> E]; [|done..|apply delimited_elems|apply delimited_elems].
    apply IH in E as [-> ->]; done.
Qed.

(** The first characters of the kinds. *)
Definition kind (v : value) : Z :=
  match v with
  | V_NULL => 78 | V_none => 110 | V_bytes _ => 60 | V_sint _ => 115 | V_uint _ => 117
  | V_err => 69 | V_seq _ => 40
  end.
Lemma print_value_kind v : exists s, print_value v = kind v :: s.
Proof.
  destruct v as [| |b|n|n| |vs]; try by eexists.
  - destruct b; by eexists.
  - simpl. destruct (n <? 0); by eexists.
Qed.

Lemma bytes_readable b : readable (V_bytes b).
Proof.
  intros w r q Hv Hw Hr Hq E. inversion Hv as [| |? Hb| | | |]; subst.
  destruct (print_value_kind w) as (s & Es).
  destruct w as [| |b'|n|n| |ws]; try (rewrite Es in E; by destruct b).
  inversion Hw as [| |? Hb'| | | |]; subst. clear Es.
  assert (forall b r, print_value (V_bytes b) ++ r = (if decide (b = []) then [60] else dotted b) ++ 62 :: r) as Hp.
  { intros [|x l] t; [done|]. cbn [print_value length Nat.eqb]. rewrite decide_False by done.
    by rewrite <- app_assoc. }
  rewrite !Hp in E. destruct b as [|x b], b' as [|x' b']; simpl in E.
  - by injection E.
  - exfalso. injection E as E1 _. unfold hex_lower in E1. apply Forall_cons_1 in Hb' as [Hx _].
    destruct (two_digits x' Hx). destruct (Z.ltb_spec (x' / 16) 10); lia.
  - exfalso. injection E as E1 _. unfold hex_lower in E1. apply Forall_cons_1 in Hb as [Hx _].
    destruct (two_digits x Hx). destruct (Z.ltb_spec (x / 16) 10); lia.
  - apply (dotted_inj (x :: b) (x' :: b') 0) in E as [E ->]; [by rewrite E|done..].
Qed.

Lemma sint_readable n : readable (V_sint n).
Proof.
  intros w r q Hv Hw Hr Hq E. inversion Hv as [| | |? Hn| | |]; subst.
  destruct (print_value_kind w) as (s & Es).
  destruct w as [| |b'|m|m| |ws]; try (rewrite Es in E; simpl in E; by destruct (n <? 0)).
  inversion Hw as [| | |? Hm| | |]; subst. clear Es. cbn [print_value] in E.
  assert (forall x y t u, 0 <= y < 2 ^ 64 -> (lit "s-" ++ x) ++ t <> (lit "s" ++ fmt_alt_hex y) ++ u) as Hne.
  { intros x y t u Hy He. pose proof (fmt_alt_hex_chars y Hy) as Hc. unfold fmt_alt_hex in *.
    destruct (y =? 0); discriminate He. }
  destruct (Z.ltb_spec n 0), (Z.ltb_spec m 0).
  - rewrite <- !app_assoc in E. apply app_inv_head in E.
    apply number_inj in E as [E ->]; [split; [f_equal|done]|..]; try done; lia.
  - exfalso. eapply Hne; [|exact E]. lia.
  - exfalso. eapply Hne; [|symmetry; exact E]. lia.
  - rewrite <- !app_assoc in E. apply app_inv_head in E.
    apply number_inj in E as [-> ->]; done || lia.
Qed.

Lemma uint_readable n : readable (V_uint n).
Proof.
  intros w r q Hv Hw Hr Hq E. inversion Hv as [| | | |? Hn| |]; subst.
  destruct (print_value_kind w) as (s & Es).
  destruct w as [| |b'|m|m| |ws]; try by (rewrite Es in E; discriminate E).
  inversion Hw as [| | | |? Hm| |]; subst. cbn [print_value] in E.
  rewrite <- !app_assoc in E. apply app_inv_head in E. by apply number_inj in E as [-> ->].
Qed.

Lemma print_value_readable v : readable v.
Proof.
  induction v as [| |b|n|n| |vs IH] using value_nested_ind;
    [| |apply bytes_readable|apply sint_readable|apply uint_readable| |]; intros w r q Hv Hw Hr Hq E.
  1-3: destruct (print_value_kind w) as (s & Es);
    destruct w; try (rewrite Es in E; discriminate E); by apply app_inv_head in E.
  destruct (print_value_kind w) as (s & Es).
  destruct w as [| |b'|m|m| |ws]; try by (rewrite Es in E; discriminate E).
  inversion Hv; inversion Hw; subst. rewrite !print_seq in E.
  rewrite <- !app_assoc in E. apply app_inv_head in E.
  apply print_elems_readable in E as [-> ->]; done.
Qed.

(** ** The string that is returned *)

(** The characters before the terminating zero. *)
Fixpoint c_text (mem : list (option Z)) : text :=
  match mem with
  | Some c :: mem => if c =? 0 then [] else c :: c_text mem
  | _ => []
  end.

Lemma c_text_ok out mem :
  Forall (fun c => c <> 0) out -> take (length (out ++ [0])) mem = Some <$> (out ++ [0]) -> c_text mem = out.
Proof.
  revert mem. induction out as [|c out IH]; intros [|x mem] Hout E; try discriminate E.
  - simpl in E. by injection E as ->.
  - apply Forall_cons_1 in Hout as [Hc Hout]. injection E as -> E. simpl.
    rewrite (proj2 (Z.eqb_neq c 0)) by done. f_equal. by apply IH.
Qed.

Lemma hexx_nonzero l : Forall hexx l -> Forall (fun c => c <> 0) l.
Proof. intros H. eapply list.Forall_impl; [exact H|]. unfold hexx. intros c Hc. lia. Qed.

Lemma dotted_nonzero b : forall i, Forall byte b -> Forall (fun c => c <> 0) (dotted_from i b).
Proof.
  induction b as [|x b IH]; intros i Hb; cbn [dotted_from]; [constructor|].
  apply Forall_cons_1 in Hb as [Hx Hb]. destruct (two_digits x Hx).
  apply Forall_cons_2; [by destruct i|]. apply Forall_app. split; [|by apply IH].
  repeat apply Forall_cons_2; [..|constructor]; unfold hex_lower; case_match; lia.
Qed.

Lemma print_value_nonzero v : value_wf v -> Forall (fun c => c <> 0) (print_value v).
Proof.
  induction v as [| |b|n|n| |vs IH] using value_nested_ind; intros Hv; inversion Hv; subst;
    try (repeat apply Forall_cons_2; done || constructor).
  - simpl. destruct b as [|x b]; [by repeat apply Forall_cons_2|].
    apply Forall_app. split; [by apply dotted_nonzero|by apply Forall_singleton].
  - cbn [print_value]. destruct (Z.ltb_spec n 0); apply Forall_app; (split; [by repeat apply Forall_cons_2|]);
      apply hexx_nonzero, fmt_alt_hex_chars; lia.
  - cbn [print_value]. apply Forall_app; (split; [by repeat apply Forall_cons_2|]).
    by apply hexx_nonzero, fmt_alt_hex_chars.
  - rewrite print_seq. apply Forall_app. split; [by apply Forall_singleton|].
    apply Forall_app. split; [|by apply Forall_singleton].
    match goal with H : Forall value_wf vs |- _ => revert H IH; clear end.
    generalize true. induction vs as [|v vs IH]; intros first Hw Hn; cbn [print_elems]; [constructor|].
    apply Forall_cons_1 in Hw as [Hw Hws], Hn as [Hn Hns]. apply Forall_app.
    split; [destruct first; by repeat constructor|]. apply Forall_app. split; [by apply Hn|by apply IH].
Qed.

(** The tokens that the function takes, NULL among them. *)
Definition printable' (tok : option HParsedToken) : Prop := forall t, tok = Some t -> printable t.

Lemma value_wf' tok : printable' tok -> value_wf (value_of' tok).
Proof. destruct tok as [t|]; intros H; [by apply printable_wf, H|constructor]. Qed.

(** Two functions one after the other. *)
Lemma run_both {S A B C} (m : ST S A) (n : ST S B) (f : S -> C) s s1 s2 a b :
  m s = Ok (a, s1) -> n s1 = Ok (b, s2) -> ('(_, s) ← m s; '(_, s) ← n s; Ok (f s)) = Ok (f s2).
Proof. intros -> E. simpl. by rewrite E. Qed.

Lemma start_holds : holds (mkBuf (Some (replicate 16 None)) 0 16) [].
Proof. by eexists; split_and!. Qed.

(** The string that is returned holds what the value prints, in a buffer that the
    allocator grants. *)
Lemma h_write_result_unamb_ok realloc limit tok :
  printable' tok -> Z.of_nat (length (print_value (value_of' tok))) < limit -> limit < 2 ^ 60 ->
  (forall size, 0 <= size <= 16 + 2 * limit -> realloc size = true) ->
  exists mem, h_write_result_unamb realloc true tok = Ok (Some mem) /\
    c_text mem = print_value (value_of' tok).
Proof.
  intros Ht Hl Hlim Hgrant.
  assert (appends limit (unamb_sub realloc tok) (print_value (value_of' tok))) as Hsub.
  { destruct tok as [t|].
    - apply (appends_tok realloc limit Hlim Hgrant t (Ht t eq_refl)).
    - apply appends_then, (appends_append realloc limit Hlim Hgrant). }
  pose proof (print_value_nonzero _ (value_wf' _ Ht)) as Hnz.
  destruct (Hsub _ [] start_holds) as (u & buf1 & E1 & H1); [rewrite app_nil_l; lia|].
  destruct (appends_append_c realloc limit Hlim Hgrant 0 buf1 _ H1) as (b & buf2 & E2 & mem & Hm & _ & _ & Htake & _).
  { rewrite app_nil_l, length_app. change (length [0]) with 1%nat. lia. }
  exists mem. split; [|by apply c_text_ok in Htake].
  rewrite <- Hm. exact (run_both _ _ rb_output _ _ _ _ _ E1 E2).
Qed.

(** C31: h_write_result_unamb keeps its promise: on every two tokens without user
    types (NULL elements, nesting, empty strings and the smallest integer
    included), if the allocator grants what the strings take, it returns a string
    for each, and the strings are equal exactly when the tokens are, up to their
    places in the input and the spare room of their arrays. *)
Theorem h_write_result_unamb_spec realloc limit t1 t2 :
  printable' t1 -> printable' t2 ->
  Z.of_nat (length (print_value (value_of' t1))) < limit ->
  Z.of_nat (length (print_value (value_of' t2))) < limit -> limit < 2 ^ 60 ->
  (forall size, 0 <= size <= 16 + 2 * limit -> realloc size = true) ->
  exists s1 s2, h_write_result_unamb realloc true t1 = Ok (Some s1) /\
    h_write_result_unamb realloc true t2 = Ok (Some s2) /\
    (c_text s1 = c_text s2 <-> value_of' t1 = value_of' t2).
Proof.
  intros H1 H2 Hl1 Hl2 Hlim Hgrant.
  destruct (h_write_result_unamb_ok realloc limit t1) as (s1 & E1 & C1); [done..|].
  destruct (h_write_result_unamb_ok realloc limit t2) as (s2 & E2 & C2); [done..|].
  exists s1, s2. rewrite C1, C2. split_and!; [done..|]. split; [|by intros ->].
  intros E. apply (print_value_readable _ _ [] []); rewrite ?app_nil_r; by try apply value_wf'.
Qed.

Definition token_pair (n : Z) : HParsedToken :=
  h_make_ (TT_SEQUENCE (mkCArray 4 2 [Some (h_make_ (TT_SINT n)); Some (h_make_ (TT_BYTES [1; 255])); None; None])).

Lemma token_pair_printable n : - 2 ^ 63 <= n < 2 ^ 63 -> printable (token_pair n).
Proof.
  intros Hn. constructor; [by split; simpl; lia|]. intros t Ht. unfold ca_contents in Ht. simpl in Ht.
  repeat (apply elem_of_cons in Ht as [[= ->]|Ht]); [by constructor|constructor; by repeat constructor|].
  by apply elem_of_nil in Ht.
Qed.

Lemma h_write_result_unamb_spec_witness :
  exists s1 s2, h_write_result_unamb (fun _ => true) true (Some (token_pair (- 2 ^ 63))) = Ok (Some s1) /\
    h_write_result_unamb (fun _ => true) true (Some (token_pair 7)) = Ok (Some s2) /\
    (c_text s1 = c_text s2 <-> value_of (token_pair (- 2 ^ 63)) = value_of (token_pair 7)).
Proof.
  apply (h_write_result_unamb_spec (fun _ => true) 100); [..|done|done].
  - intros t [= <-]. by apply token_pair_printable.
  - intros t [= <-]. by apply token_pair_printable.
  - vm_compute. done.
  - vm_compute. done.
Defined.

(** ** Where the printers stop the program *)

(** A sequence with a NULL element: h_pprint reads through it, the other does not. *)
Lemma h_pprint_null_element indent delta :
  h_pprint registry_start (h_make_ (TT_SEQUENCE (mkCArray 4 1 [None; None; None; None]))) indent delta = Fault NullDeref.
Proof. done. Qed.

(** The results of the appends are ignored: after a refused reallocation the next
    append that needs none writes through NULL. *)
Lemma unamb_refused_realloc :
  h_write_result_unamb (fun _ => false) true (Some (h_make_ (TT_BYTES [0; 1; 2; 3; 4; 5; 6; 7]))) = Fault NullDeref.
Proof. vm_compute. reflexivity. Qed.

Example unamb_example :
  h_write_result_unamb (fun _ => true) true
    (Some (h_make_ (TT_SEQUENCE (mkCArray 4 3 [Some (h_make_ (TT_SINT (-255))); None; Some (h_make_ (TT_BYTES [1; 255])); None])))) =
  Ok (Some ((Some <$> lit "(s-0xff NULL <01.ff>)") ++ [Some 0] ++ replicate 10 None)).
Proof. vm_compute. reflexivity. Qed.
