(* ===== verification/Parser.v ===== *)
(** Parser objects, their constructors and the validity checks (src/src/hammer.h:
    HParser; src/src/internal.h: HParserVtable, h_new_parser; the environments,
    isValidRegular, isValidCF and constructors of src/src/parsers/*.c).

    Parsers live in a store, a list indexed by address: grammars are cyclic
    graphs through [h_indirect]. A pointer is an [option nat], NULL is [None].
    The vtable of a parser and its environment are one value of [parser_env]. *)

From S2P Require Import Prelude Stream Charset CArray Token.

Abbreviation ptr := (option nat).

Inductive HParserBackend := PB_PACKRAT | PB_REGULAR | PB_LLk | PB_LALR | PB_GLR.
#[global] Instance HParserBackend_eq_dec : EqDecision HParserBackend.
Proof. solve_decision. Defined.

(** * Environments, one per vtable *)

Record bits_env := { be_length : Z; be_signedp : bool }.
Record HToken := { tk_str : list Z; tk_len : Z }.
Record HSequence := { sq_array : list ptr }.       (** [len] is its length *)
Record HTwoParsers := { tp_p1 : ptr; tp_p2 : ptr }.
Record HRepeat := { rp_p : ptr; rp_sep : ptr; rp_count : Z; rp_min_p : bool }.
Record HLenVal := { lv_length : ptr; lv_value : ptr }.
Record HRange := { rg_p : ptr; rg_lower : Z; rg_upper : Z }.
Record HIgnoreSeq := { is_parsers : list ptr; is_which : Z }.
Record HParseAction := { pa_p : ptr; pa_action : option HAction; pa_user_data : Z }.
Record HAttrBool := { ab_p : ptr; ab_pred : HPredicate; ab_user_data : Z }.
(** [bd_k] names the continuation, a function of the user. *)
Record BindEnv := { bd_p : ptr; bd_k : nat; bd_env : Z }.
Record HParseEndianness := { en_p : ptr; en_endianness : Z }.
Record HIndirectEnv := { in_parser : ptr; in_touched : bool }.
Record HStoredValue := { sv_p : ptr; sv_key : option nat }.

Inductive parser_env :=
| bits_vt (env : bits_env)
| ch_vt (c : Z)
| charset_vt (cs : HCharset)
| token_vt (t : HToken)
| end_vt
| epsilon_vt
| nothing_vt
| unimplemented_vt
| and_vt (p : ptr)
| not_vt (p : ptr)
| optional_vt (p : ptr)
| ignore_vt (p : ptr)
| whitespace_vt (p : ptr)
| sequence_vt (s : HSequence)
| choice_vt (s : HSequence)
| permutation_vt (s : HSequence)
| butnot_vt (t : HTwoParsers)
| difference_vt (t : HTwoParsers)
| xor_vt (t : HTwoParsers)
| many_vt (r : HRepeat)
| length_value_vt (lv : HLenVal)
| int_range_vt (r : HRange)
| ignoreseq_vt (s : HIgnoreSeq)
| action_vt (a : HParseAction)
| attr_bool_vt (a : HAttrBool)
| bind_vt (b : BindEnv)
| endianness_vt (e : HParseEndianness)
| indirect_vt (i : HIndirectEnv)
| put_vt (s : HStoredValue)
| get_vt (s : HStoredValue).

Record HParser := mkParser {
  p_env : parser_env;
  p_backend : HParserBackend;
  p_backend_data : option nat;
  p_desugared : option nat;
}.

(** [vtable->higher] *)
Definition higher (e : parser_env) : bool :=
  match e with
  | bits_vt _ | ch_vt _ | charset_vt _ | token_vt _ | end_vt | epsilon_vt | nothing_vt
  | whitespace_vt _ | length_value_vt _ | int_range_vt _ => false
  | _ => true
  end.

(** * Constructors *)

Abbreviation PM := (ST (list HParser)).

(** [h_new_parser]: a zeroed record, [PB_MIN] is [PB_PACKRAT]. *)
Definition h_new_parser (e : parser_env) : PM ptr := fun st =>
  Ok (Some (length st), st ++ [mkParser e PB_PACKRAT None None]).

Definition h_bits__m (len : Z) (sign : bool) : PM ptr :=
  h_new_parser (bits_vt {| be_length := uint8 len; be_signedp := sign |}).
Definition h_int8__m := h_bits__m 8 true.
Definition h_int16__m := h_bits__m 16 true.
Definition h_int32__m := h_bits__m 32 true.
Definition h_int64__m := h_bits__m 64 true.
Definition h_uint8__m := h_bits__m 8 false.
Definition h_uint16__m := h_bits__m 16 false.
Definition h_uint32__m := h_bits__m 32 false.
Definition h_uint64__m := h_bits__m 64 false.

Definition h_ch__m (c : Z) : PM ptr := h_new_parser (ch_vt c).

Definition h_ch_range__m (lower upper : Z) : PM ptr :=
  cs ← lift (ch_range_charset lower upper); h_new_parser (charset_vt cs).
Definition h_in_or_not__m (options : list Z) (val : Z) : PM ptr :=
  cs ← lift (in_or_not_charset options val); h_new_parser (charset_vt cs).
Definition h_in__m (options : list Z) : PM ptr := h_in_or_not__m options 1.
Definition h_not_in__m (options : list Z) : PM ptr := h_in_or_not__m options 0.

(** The length is stored in a byte. *)
Definition h_token__m (str : list Z) : PM ptr :=
  h_new_parser (token_vt {| tk_str := str; tk_len := uint8 (Z.of_nat (length str)) |}).

Definition h_end_p__m : PM ptr := h_new_parser end_vt.
Definition h_epsilon_p__m : PM ptr := h_new_parser epsilon_vt.
Definition h_nothing_p__m : PM ptr := h_new_parser nothing_vt.
Definition h_and__m (p : ptr) : PM ptr := h_new_parser (and_vt p).
Definition h_not__m (p : ptr) : PM ptr := h_new_parser (not_vt p).
Definition h_optional__m (p : ptr) : PM ptr := h_new_parser (optional_vt p).
Definition h_ignore__m (p : ptr) : PM ptr := h_new_parser (ignore_vt p).
Definition h_whitespace__m (p : ptr) : PM ptr := h_new_parser (whitespace_vt p).

(** The variadic arguments up to the first NULL; without one, undefined. *)
Fixpoint va_args (ap : list ptr) : outcome (list ptr) :=
  match ap with
  | [] => Fault OutOfBounds
  | None :: _ => Ok []
  | arg :: ap => args ← va_args ap; Ok (arg :: args)
  end.

(** The [__mv] constructors: [p] is stored unchecked, the rest counted up to NULL. *)
Definition h_sequence__mv (p : ptr) (ap : list ptr) : PM ptr :=
  args ← lift (va_args ap); h_new_parser (sequence_vt {| sq_array := p :: args |}).
Definition h_choice__mv (p : ptr) (ap : list ptr) : PM ptr :=
  args ← lift (va_args ap); h_new_parser (choice_vt {| sq_array := p :: args |}).
Definition h_permutation__mv (p : ptr) (ap : list ptr) : PM ptr :=
  args ← lift (va_args ap); h_new_parser (permutation_vt {| sq_array := p :: args |}).

(** The [__ma] constructors count from the first element. *)
Definition h_sequence__ma (args : list ptr) : PM ptr :=
  args ← lift (va_args args); h_new_parser (sequence_vt {| sq_array := args |}).
Definition h_choice__ma (args : list ptr) : PM ptr :=
  args ← lift (va_args args); h_new_parser (choice_vt {| sq_array := args |}).
Definition h_permutation__ma (args : list ptr) : PM ptr :=
  args ← lift (va_args args); h_new_parser (permutation_vt {| sq_array := args |}).

Definition h_butnot__m (p1 p2 : ptr) : PM ptr :=
  h_new_parser (butnot_vt {| tp_p1 := p1; tp_p2 := p2 |}).
Definition h_difference__m (p1 p2 : ptr) : PM ptr :=
  h_new_parser (difference_vt {| tp_p1 := p1; tp_p2 := p2 |}).
Definition h_xor__m (p1 p2 : ptr) : PM ptr :=
  h_new_parser (xor_vt {| tp_p1 := p1; tp_p2 := p2 |}).

Definition new_repeat (p sep : ptr) (count : Z) (min_p : bool) : PM ptr :=
  h_new_parser (many_vt {| rp_p := p; rp_sep := sep; rp_count := count; rp_min_p := min_p |}).
Definition h_many__m (p : ptr) : PM ptr := new_repeat p None 0 true.
Definition h_many1__m (p : ptr) : PM ptr := new_repeat p None 1 true.
Definition h_repeat_n__m (p : ptr) (n : Z) : PM ptr := new_repeat p None n false.
Definition h_sepBy__m (p sep : ptr) : PM ptr := new_repeat p sep 0 true.
Definition h_sepBy1__m (p sep : ptr) : PM ptr := new_repeat p sep 1 true.

Definition h_length_value__m (length value : ptr) : PM ptr :=
  h_new_parser (length_value_vt {| lv_length := length; lv_value := value |}).
Definition h_int_range__m (p : ptr) (lower upper : Z) : PM ptr :=
  h_new_parser (int_range_vt {| rg_p := p; rg_lower := lower; rg_upper := upper |}).

Definition h_leftright__m (p q : ptr) (which : Z) : PM ptr :=
  h_new_parser (ignoreseq_vt {| is_parsers := [p; q]; is_which := which |}).
Definition h_left__m (p q : ptr) : PM ptr := h_leftright__m p q 0.
Definition h_right__m (p q : ptr) : PM ptr := h_leftright__m p q 1.
Definition h_middle__m (p x q : ptr) : PM ptr :=
  h_new_parser (ignoreseq_vt {| is_parsers := [p; x; q]; is_which := 1 |}).

Definition h_action__m (p : ptr) (a : option HAction) (user_data : Z) : PM ptr :=
  h_new_parser (action_vt {| pa_p := p; pa_action := a; pa_user_data := user_data |}).
Definition h_attr_bool__m (p : ptr) (pred : HPredicate) (user_data : Z) : PM ptr :=
  h_new_parser (attr_bool_vt {| ab_p := p; ab_pred := pred; ab_user_data := user_data |}).
Definition h_bind__m (p : ptr) (k : nat) (env : Z) : PM ptr :=
  h_new_parser (bind_vt {| bd_p := p; bd_k := k; bd_env := env |}).
Definition h_with_endianness__m (endianness : Z) (p : ptr) : PM ptr :=
  h_new_parser (endianness_vt {| en_p := p; en_endianness := endianness |}).
Definition h_put_value__m (p : ptr) (name : option nat) : PM ptr :=
  h_new_parser (put_vt {| sv_p := p; sv_key := name |}).
Definition h_get_value__m (name : option nat) : PM ptr :=
  h_new_parser (get_vt {| sv_p := None; sv_key := name |}).
Definition h_indirect__m : PM ptr :=
  h_new_parser (indirect_vt {| in_parser := None; in_touched := false |}).

(** [h_unimplemented] returns a static object: the first one of every store. *)
Definition unimplemented : HParser := mkParser unimplemented_vt PB_PACKRAT None None.
Definition initial_store : list HParser := [unimplemented].
Definition h_unimplemented__m : PM ptr := mret (Some 0%nat).

(** [p->vtable], [p->env] *)
Definition parser_at (st : list HParser) (p : ptr) : outcome HParser :=
  a ← deref NullDeref p; deref OutOfBounds (st !! a).

Definition set_env (st : list HParser) (a : nat) (e : parser_env) : list HParser :=
  alter (fun q => mkParser e (p_backend q) (p_backend_data q) (p_desugared q)) a st.

(** [h_bind_indirect] changes the environment of an existing parser. *)
Definition h_bind_indirect (indirect inner : ptr) : PM unit := fun st =>
  q ← parser_at st indirect;
  match p_env q, indirect with
  | indirect_vt e, Some a =>
      Ok (tt, set_env st a (indirect_vt {| in_parser := inner; in_touched := in_touched e |}))
  | _, _ => Fault AssertFail
  end.

(** * isValidRegular and isValidCF *)

Definition forall_ptr {S} (f : ptr -> ST S bool) : list ptr -> ST S bool :=
  fix loop ps :=
    match ps with
    | [] => mret true
    | p :: ps => b ← f p; if (b : bool) then loop ps else mret false
    end.

Definition and_then {S} (m k : ST S bool) : ST S bool :=
  b ← m; if (b : bool) then k else mret false.

(** The vtables' functions; [rec] is the call through the vtable of a parser. *)
Section validity.
Context (rec : ptr -> PM bool).

Definition choice_isValidRegular (s : HSequence) : PM bool := forall_ptr rec (sq_array s).
Definition sequence_isValidRegular (s : HSequence) : PM bool := forall_ptr rec (sq_array s).
Definition is_isValidRegular (s : HIgnoreSeq) : PM bool := forall_ptr rec (is_parsers s).
Definition many_isValidRegular (r : HRepeat) : PM bool :=
  and_then (rec (rp_p r))
    (match rp_sep r with None => mret true | Some _ => rec (rp_sep r) end).
Definition opt_isValidRegular (p : ptr) : PM bool := rec p.
Definition ignore_isValidRegular (p : ptr) : PM bool := rec p.
Definition ws_isValidRegular (p : ptr) : PM bool := rec p.
Definition action_isValidRegular (a : HParseAction) : PM bool := rec (pa_p a).
Definition ab_isValidRegular (a : HAttrBool) : PM bool := rec (ab_p a).

Definition vt_isValidRegular (e : parser_env) : PM bool :=
  match e with
  | bits_vt _ | ch_vt _ | charset_vt _ | token_vt _ | end_vt | epsilon_vt | nothing_vt
  | int_range_vt _ => mret true
  | unimplemented_vt | and_vt _ | not_vt _ | permutation_vt _ | butnot_vt _
  | difference_vt _ | xor_vt _ | length_value_vt _ | bind_vt _ | endianness_vt _
  | indirect_vt _ | put_vt _ | get_vt _ => mret false
  | optional_vt p => opt_isValidRegular p
  | ignore_vt p => ignore_isValidRegular p
  | whitespace_vt p => ws_isValidRegular p
  | sequence_vt s => sequence_isValidRegular s
  | choice_vt s => choice_isValidRegular s
  | many_vt r => many_isValidRegular r
  | ignoreseq_vt s => is_isValidRegular s
  | action_vt a => action_isValidRegular a
  | attr_bool_vt a => ab_isValidRegular a
  end.

Definition choice_isValidCF (s : HSequence) : PM bool := forall_ptr rec (sq_array s).
Definition sequence_isValidCF (s : HSequence) : PM bool := forall_ptr rec (sq_array s).
Definition is_isValidCF (s : HIgnoreSeq) : PM bool := forall_ptr rec (is_parsers s).
Definition many_isValidCF (r : HRepeat) : PM bool :=
  and_then (rec (rp_p r))
    (match rp_sep r with None => mret true | Some _ => rec (rp_sep r) end).
Definition opt_isValidCF (p : ptr) : PM bool := rec p.
Definition ignore_isValidCF (p : ptr) : PM bool := rec p.
Definition ws_isValidCF (p : ptr) : PM bool := rec p.
Definition action_isValidCF (a : HParseAction) : PM bool := rec (pa_p a).
Definition ab_isValidCF (a : HAttrBool) : PM bool := rec (ab_p a).

(** [ie->touched = b] *)
Definition set_touched (self : nat) (e : HIndirectEnv) (b : bool) : PM unit :=
  modify (fun st => set_env st self
    (indirect_vt {| in_parser := in_parser e; in_touched := b |})).

(** The indirect parser at [self] is marked while it is being looked into. *)
Definition indirect_isValidCF (self : nat) (e : HIndirectEnv) : PM bool :=
  if in_touched e then mret true else
  _ ← set_touched self e true;
  ret ← rec (in_parser e);
  _ ← set_touched self e false;
  mret ret.

Definition vt_isValidCF (self : nat) (e : parser_env) : PM bool :=
  match e with
  | bits_vt _ | ch_vt _ | charset_vt _ | token_vt _ | end_vt | epsilon_vt | nothing_vt
  | int_range_vt _ => mret true
  | unimplemented_vt | and_vt _ | not_vt _ | permutation_vt _ | butnot_vt _
  | difference_vt _ | xor_vt _ | length_value_vt _ | bind_vt _ | endianness_vt _
  | put_vt _ | get_vt _ => mret false
  | optional_vt p => opt_isValidCF p
  | ignore_vt p => ignore_isValidCF p
  | whitespace_vt p => ws_isValidCF p
  | sequence_vt s => sequence_isValidCF s
  | choice_vt s => choice_isValidCF s
  | many_vt r => many_isValidCF r
  | ignoreseq_vt s => is_isValidCF s
  | action_vt a => action_isValidCF a
  | attr_bool_vt a => ab_isValidCF a
  | indirect_vt e => indirect_isValidCF self e
  end.
End validity.

(** [p->vtable->isValidRegular(p->env)] *)
Fixpoint isValidRegular (fuel : nat) (p : ptr) : PM bool :=
  match fuel with
  | O => out_of_fuel
  | S fuel =>
      st ← get;
      q ← lift (parser_at st p);
      vt_isValidRegular (isValidRegular fuel) (p_env q)
  end.

(** [p->vtable->isValidCF(p->env)] *)
Fixpoint isValidCF (fuel : nat) (p : ptr) : PM bool :=
  match fuel with
  | O => out_of_fuel
  | S fuel =>
      st ← get;
      q ← lift (parser_at st p);
      a ← lift (deref NullDeref p);
      vt_isValidCF (isValidCF fuel) a (p_env q)
  end.
