(* ===== verification/Validity.v ===== *)
(** Well-formed parser graphs, and what isValidRegular and isValidCF
    (src/src/parsers/*.c) answer on them.

    The parsers built by the constructors point at parsers built before them;
    only [h_bind_indirect] closes cycles. On such graphs the two checks end. *)

From S2P Require Import Prelude Stream Charset CArray Token Parser.

(** The parsers a parser points at. *)
Definition children (e : parser_env) : list ptr :=
  match e with
  | bits_vt _ | ch_vt _ | charset_vt _ | token_vt _ | end_vt | epsilon_vt | nothing_vt
  | unimplemented_vt | get_vt _ => []
  | and_vt p | not_vt p | optional_vt p | ignore_vt p | whitespace_vt p => [p]
  | sequence_vt s | choice_vt s | permutation_vt s => sq_array s
  | butnot_vt t | difference_vt t | xor_vt t => [tp_p1 t; tp_p2 t]
  | many_vt r => rp_p r :: match rp_sep r with None => [] | Some s => [Some s] end
  | length_value_vt l => [lv_length l; lv_value l]
  | int_range_vt r => [rg_p r]
  | ignoreseq_vt s => is_parsers s
  | action_vt a => [pa_p a]
  | attr_bool_vt a => [ab_p a]
  | bind_vt b => [bd_p b]
  | endianness_vt e => [en_p e]
  | indirect_vt i => [in_parser i]
  | put_vt s => [sv_p s]
  end.

Definition is_indirect (e : parser_env) : bool :=
  match e with indirect_vt _ => true | _ => false end.

(** A pointer to one of the first [n] parsers. *)
Definition below (n : nat) (p : ptr) : Prop := exists a, p = Some a /\ (a < n)%nat.

(** Every parser points at parsers of the store, at earlier ones when it is
    not indirect. *)
Definition store_wf (st : list HParser) : Prop :=
  forall a q, st !! a = Some q ->
    Forall (below (if is_indirect (p_env q) then length st else a)) (children (p_env q)).

Lemma below_mono n m p : (n <= m)%nat -> below n p -> below m p.
Proof. intros Hnm (a & -> & Ha). exists a. split; [done|lia]. Qed.

(** The indirect parsers that are not being looked into. *)
Definition untouched (q : HParser) : bool :=
  match p_env q with indirect_vt e => negb (in_touched e) | _ => false end.
Definition untouched_n (st : list HParser) : nat := length (filter (fun q => untouched q) st).

Lemma initial_store_wf : store_wf initial_store.
Proof. intros [|a] q; [|done]. intros [= <-]. constructor. Qed.

Lemma h_new_parser_wf e st :
  store_wf st -> Forall (below (length st)) (children e) ->
  exists st', h_new_parser e st = Ok (Some (length st), st') /\ store_wf st' /\
    length st' = S (length st).
Proof.
  intros Hst He. eexists. split; [done|]. split; [|rewrite length_app; simpl; lia].
  intros a q Ha. rewrite lookup_app in Ha. case_match; simplify_eq.
  - eapply list.Forall_impl; [exact (Hst _ _ H)|]. intros p Hp. case_match; [|done].
    eapply below_mono; [|done]. rewrite length_app. lia.
  - apply list_lookup_singleton_Some in Ha as [Ha <-]. simpl.
    apply lookup_ge_None in H. eapply list.Forall_impl; [exact He|]. intros p.
    apply below_mono. case_match; [rewrite length_app|]; lia.
Qed.

(** The graph after the marks of one indirect parser change. *)
Lemma set_env_wf st a e e' q :
  store_wf st -> st !! a = Some q -> p_env q = indirect_vt e ->
  in_parser e' = in_parser e -> store_wf (set_env st a (indirect_vt e')).
Proof.
  intros Hst Ha Hq He b r Hb. unfold set_env in *. rewrite length_alter.
  destruct (decide (a = b)) as [<-|Hne].
  - rewrite list_lookup_alter_eq, Ha in Hb. injection Hb as <-. simpl.
    specialize (Hst _ _ Ha). rewrite Hq in Hst. simpl in Hst. by rewrite He.
  - rewrite list_lookup_alter_ne in Hb by done. exact (Hst _ _ Hb).
Qed.

Lemma set_env_untouched st a e q :
  st !! a = Some q -> p_env q = indirect_vt e -> in_touched e = false ->
  untouched_n st =
  S (untouched_n (set_env st a (indirect_vt {| in_parser := in_parser e; in_touched := true |}))).
Proof.
  intros Ha Hq He. unfold untouched_n, set_env. revert a Ha.
  induction st as [|x st IH]; intros [|a] Ha; simplify_eq/=.
  - unfold filter. cbn [list_filter].
    assert (untouched q = true) as Hu by (unfold untouched; by rewrite Hq, He).
    rewrite decide_True by (by rewrite Hu). rewrite decide_False by (by intros []). done.
  - specialize (IH _ Ha). unfold filter in *. cbn [list_filter alter list_alter].
    destruct (decide (untouched x)); cbn [length]; [f_equal|]; exact IH.
Qed.

(** Marking an indirect parser and clearing the mark changes nothing. *)
Lemma set_env_back st a e q :
  st !! a = Some q -> p_env q = indirect_vt e -> in_touched e = false ->
  set_env (set_env st a (indirect_vt {| in_parser := in_parser e; in_touched := true |})) a
    (indirect_vt {| in_parser := in_parser e; in_touched := false |}) = st.
Proof.
  intros Ha Hq He. unfold set_env. apply list_eq. intros b.
  destruct (decide (a = b)) as [<-|Hne].
  - rewrite list_lookup_alter_eq, list_lookup_alter_eq, Ha. simpl. f_equal.
    destruct q as [en b d ds], e as [p t]. simpl in *. congruence.
  - rewrite !list_lookup_alter_ne by done. done.
Qed.

(** * The checks end and leave the store as it was *)

(** A check of a pointer that answers and changes nothing. *)
Definition answers (m : PM bool) (st : list HParser) : Prop := exists b, m st = Ok (b, st).

Lemma answers_ret b st : answers (mret b) st.
Proof. by exists b. Qed.

Lemma answers_and_then m k st : answers m st -> answers k st -> answers (and_then m k) st.
Proof.
  intros [b Hb] [c Hc]. unfold and_then, answers.
  change ((b ← m; if (b : bool) then k else mret false) st) with
    (match m st with Ok (b, s') => (if b : bool then k else mret false) s' | Fault f => Fault f
     | OutOfFuel => OutOfFuel end).
  rewrite Hb. destruct b; [by exists c|by exists false].
Qed.

Lemma answers_forall (rec : ptr -> PM bool) ps st :
  Forall (fun p => answers (rec p) st) ps -> answers (forall_ptr rec ps) st.
Proof.
  induction 1 as [|p ps Hp _ IH]; [apply answers_ret|].
  exact (answers_and_then (rec p) (forall_ptr rec ps) st Hp IH).
Qed.

Create HintDb answers.
#[export] Hint Resolve answers_ret answers_and_then answers_forall : answers.

Lemma vt_isValidRegular_answers rec e st :
  Forall (fun p => answers (rec p) st) (children e) -> answers (vt_isValidRegular rec e) st.
Proof.
  destruct e; cbn [children vt_isValidRegular]; intros He;
    try apply answers_ret; try (by apply answers_forall);
    try exact (Forall_inv He).
  apply Forall_cons_1 in He as [Hp Hs]. apply answers_and_then; [done|].
  destruct (rp_sep r); [by inversion Hs|apply answers_ret].
Qed.

(** The cases of isValidCF that call on the children at once. *)
Lemma vt_isValidCF_answers rec a e st :
  is_indirect e = false ->
  Forall (fun p => answers (rec p) st) (children e) -> answers (vt_isValidCF rec a e) st.
Proof.
  destruct e; cbn [children vt_isValidCF is_indirect]; intros Hi He;
    try apply answers_ret; try (by apply answers_forall);
    try exact (Forall_inv He); [|done].
  apply Forall_cons_1 in He as [Hp Hs]. apply answers_and_then; [done|].
  destruct (rp_sep r); [by inversion Hs|apply answers_ret].
Qed.

Lemma isValidRegular_unfold fuel a q st :
  st !! a = Some q ->
  isValidRegular (S fuel) (Some a) st = vt_isValidRegular (isValidRegular fuel) (p_env q) st.
Proof.
  intros Ha. cbn [isValidRegular]. unfold mbind at 1, ST_bind, get.
  unfold mbind at 1, lift, parser_at. simpl. by rewrite Ha.
Qed.

Lemma isValidCF_unfold fuel a q st :
  st !! a = Some q ->
  isValidCF (S fuel) (Some a) st = vt_isValidCF (isValidCF fuel) a (p_env q) st.
Proof.
  intros Ha. cbn [isValidCF]. unfold mbind at 1, ST_bind, get.
  unfold mbind at 1, lift, parser_at. simpl. by rewrite Ha.
Qed.

(** isValidRegular never enters an indirect parser. *)
Lemma isValidRegular_answers st a fuel :
  store_wf st -> (a < length st)%nat -> (a < fuel)%nat ->
  exists b, isValidRegular fuel (Some a) st = Ok (b, st).
Proof.
  intros Hst. revert fuel. induction a as [a IH] using lt_wf_ind; intros [|fuel] Ha Hf; [lia|].
  destruct (lookup_lt_is_Some_2 _ _ Ha) as [q Hq]. setoid_rewrite (isValidRegular_unfold _ _ _ _ Hq).
  destruct (is_indirect (p_env q)) eqn:Hi; [destruct (p_env q); try done; apply answers_ret|].
  apply vt_isValidRegular_answers. specialize (Hst _ _ Hq). rewrite Hi in Hst.
  eapply list.Forall_impl; [exact Hst|]. intros p (c & -> & Hc). apply IH; lia.
Qed.

Lemma set_env_length st a e : length (set_env st a e) = length st.
Proof. apply length_alter. Qed.

(** The fuel that is enough from the parser at [a]. *)
Definition cf_fuel (st : list HParser) (a : nat) : nat := untouched_n st * length st + a.

(** C25: isValidCF ends on every parser of a well-formed graph although grammars
    are cyclic: it enters each unmarked indirect parser at most once per path,
    and every mark is cleared again: the graph is left as it was. *)
Theorem isValidCF_total st a fuel :
  store_wf st -> (a < length st)%nat -> (cf_fuel st a < fuel)%nat ->
  exists b, isValidCF fuel (Some a) st = Ok (b, st).
Proof.
  revert st a. induction fuel as [|fuel IH]; intros st a Hst Ha Hf; [unfold cf_fuel in Hf; lia|].
  destruct (lookup_lt_is_Some_2 _ _ Ha) as [q Hq]. setoid_rewrite (isValidCF_unfold _ _ _ _ Hq).
  pose proof (Hst _ _ Hq) as Hc.
  destruct (is_indirect (p_env q)) eqn:Hi.
  - destruct (p_env q) as [| | | | | | | | | | | | | | | | | | | | | | | | | | |e| |] eqn:He; try done.
    cbn [vt_isValidCF]. unfold indirect_isValidCF.
    destruct (in_touched e) eqn:Ht; [by exists true|].
    pose proof (set_env_untouched _ _ _ _ Hq He Ht) as Hu.
    apply Forall_inv in Hc as (c & Hp & Hc).
    unfold set_touched, modify, mbind, ST_bind. cbn beta iota.
    set (st1 := set_env st a _) in *.
    assert (store_wf st1) as Hst1 by (by apply (set_env_wf _ _ _ _ _ Hst Hq He)).
    assert (length st1 = length st) as Hl by apply set_env_length.
    destruct (IH st1 c Hst1) as [b Hb]; [lia|unfold cf_fuel in *; nia|].
    rewrite <-Hp in Hb. rewrite Hb. exists b. subst st1.
    unfold mret, ST_ret. by rewrite (set_env_back _ _ _ _ Hq He Ht).
  - apply vt_isValidCF_answers; [done|]. eapply list.Forall_impl; [exact Hc|].
    intros p (c & -> & Hlt). apply IH; [done|lia|unfold cf_fuel in *; lia].
Qed.

(** A check that says yes to the children. *)
Definition yes (m : PM bool) (st : list HParser) : Prop := m st = Ok (true, st).

Lemma and_then_yes m k st :
  and_then m k st = Ok (true, st) -> answers m st -> yes m st /\ yes k st.
Proof.
  intros H [b Hb]. unfold and_then in H.
  change (match m st with Ok (b, s') => (if (b : bool) then k else mret false) s' | Fault f => Fault f
     | OutOfFuel => OutOfFuel end = Ok (true, st)) in H.
  rewrite Hb in H. destruct b; [done|discriminate].
Qed.

Lemma and_then_yes_2 m k st : yes m st -> yes k st -> yes (and_then m k) st.
Proof. intros Hm Hk. unfold yes, and_then, mbind, ST_bind. rewrite Hm. exact Hk. Qed.

Lemma forall_ptr_yes (rec rec' : ptr -> PM bool) ps st :
  forall_ptr rec ps st = Ok (true, st) ->
  Forall (fun p => answers (rec p) st /\ (yes (rec p) st -> yes (rec' p) st)) ps ->
  yes (forall_ptr rec' ps) st.
Proof.
  induction ps as [|p ps IH]; [done|]. intros H Hps.
  apply Forall_cons_1 in Hps as [[Ha Hy] Hps].
  apply (and_then_yes (rec p) (forall_ptr rec ps)) in H as [H1 H2]; [|done].
  exact (and_then_yes_2 (rec' p) (forall_ptr rec' ps) st (Hy H1) (IH H2 Hps)).
Qed.

Lemma forall_ptr_inv (rec : ptr -> PM bool) ps st :
  yes (forall_ptr rec ps) st -> Forall (fun p => answers (rec p) st) ps ->
  Forall (fun p => yes (rec p) st) ps.
Proof.
  induction ps as [|p ps IH]; [constructor|]. intros H Hps.
  apply Forall_cons_1 in Hps as [Ha Hps].
  apply (and_then_yes (rec p) (forall_ptr rec ps)) in H as [H1 H2]; [|done].
  constructor; [done|by apply IH].
Qed.

(** A parser is regular when its children are; int_range does not look. *)
Lemma vt_isValidRegular_children rec e st :
  yes (vt_isValidRegular rec e) st -> Forall (fun p => answers (rec p) st) (children e) ->
  (exists r, e = int_range_vt r) \/ Forall (fun p => yes (rec p) st) (children e).
Proof.
  destruct e; cbn [children vt_isValidRegular]; intros Hy Ha; try done;
    try (by left; eexists); right; try constructor; try done; try (by apply forall_ptr_inv).
  - unfold many_isValidRegular in Hy. apply Forall_cons_1 in Ha as [Hp Hs].
    by apply and_then_yes in Hy as [? _].
  - unfold many_isValidRegular in Hy. apply Forall_cons_1 in Ha as [Hp Hs].
    apply and_then_yes in Hy as [_ Hy]; [|done]. destruct (rp_sep r); by repeat constructor.
Qed.

(** Every parser that is accepted as regular is also accepted as
    context-free. *)
Theorem isValidRegular_isValidCF st a fuel :
  store_wf st -> (a < length st)%nat -> (a < fuel)%nat ->
  isValidRegular fuel (Some a) st = Ok (true, st) -> isValidCF fuel (Some a) st = Ok (true, st).
Proof.
  intros Hst. revert fuel. induction a as [a IH] using lt_wf_ind; intros [|fuel] Ha Hf; [lia|].
  destruct (lookup_lt_is_Some_2 _ _ Ha) as [q Hq].
  rewrite (isValidRegular_unfold _ _ _ _ Hq), (isValidCF_unfold _ _ _ _ Hq).
  pose proof (Hst _ _ Hq) as Hc.
  destruct (is_indirect (p_env q)) eqn:Hi; [by destruct (p_env q)|].
  assert (Forall (fun p => answers (isValidRegular fuel p) st /\
            (yes (isValidRegular fuel p) st -> yes (isValidCF fuel p) st)) (children (p_env q))) as H.
  { eapply list.Forall_impl; [exact Hc|]. intros p (c & -> & Hlt).
    split; [apply isValidRegular_answers; auto with lia|apply IH; lia]. }
  clear Hc IH. destruct (p_env q); cbn [children vt_isValidRegular vt_isValidCF] in *;
    try done; try (intros Hy; exact (forall_ptr_yes _ _ _ _ Hy H));
    try (exact (proj2 (Forall_inv H))).
  apply Forall_cons_1 in H as [[Hp1 Hp2] Hs]. intros Hy.
  unfold many_isValidRegular, many_isValidCF in *. destruct (rp_sep r).
  - apply Forall_inv in Hs as [Hs1 Hs2]. apply and_then_yes in Hy as [Hy1 Hy2]; [|done].
    apply and_then_yes_2; [by apply Hp2|by apply Hs2].
  - apply and_then_yes in Hy as [Hy1 _]; [|done]. apply and_then_yes_2; [by apply Hp2|done].
Qed.

(** * Witnesses *)

(** A concrete graph is checked entry by entry. *)
Ltac check_store_wf :=
  intros a q Ha;
  repeat (destruct a as [|a];
    [injection Ha as <-; repeat constructor; eexists; (split; [reflexivity|simpl; lia])|]);
  discriminate Ha.

(** E -> '(' E ')' | 'x', and a repetition of characters. *)
Definition paren_store : list HParser :=
  let p e := mkParser e PB_PACKRAT None None in
  [unimplemented; p (ch_vt 40); p (ch_vt 41); p (ch_vt 120);
   p (indirect_vt {| in_parser := Some 6%nat; in_touched := false |});
   p (sequence_vt {| sq_array := [Some 1%nat; Some 4%nat; Some 2%nat] |});
   p (choice_vt {| sq_array := [Some 5%nat; Some 3%nat] |});
   p (many_vt {| rp_p := Some 3%nat; rp_sep := Some 1%nat; rp_count := 0; rp_min_p := true |})].

Lemma paren_store_wf : store_wf paren_store.
Proof. check_store_wf. Qed.

Lemma isValidCF_total_witness :
  exists b, isValidCF 16 (Some 6%nat) paren_store = Ok (b, paren_store).
Proof. apply (isValidCF_total paren_store 6 16 paren_store_wf); vm_compute; lia. Defined.

Lemma isValidRegular_isValidCF_witness : isValidCF 16 (Some 7%nat) paren_store = Ok (true, paren_store).
Proof.
  apply (isValidRegular_isValidCF paren_store 7 16 paren_store_wf); [vm_compute; lia|lia|].
  vm_compute. reflexivity.
Defined.
