(* ===== verification/Combinators.v ===== *)
(** The parse state and the parse functions of the combinators
    (src/src/internal.h: HParseState and the cache records;
    src/src/parsers/*.c: the parse_* functions; src/src/parsers/parser_internal.h;
    h_symbol_put and h_symbol_get of src/src/datastructures.c).

    The functions run in a state monad over [HParseState]. The objects the C
    code shares through pointers and changes (results, cache values, left
    recursions and recursion heads) live in heaps, lists indexed by address;
    addresses are never reused. Every function takes [do_parse], the back
    end's h_do_parse, and a bound [lf] on the rounds of one loop. *)

From S2P Require Import Prelude Stream Charset CArray Token Parser.

(** * Parse state *)

Inductive lr_or_result :=
| PC_LEFT (left : nat)
| PC_RIGHT (right : ptr).

Record HParserCacheValue := mkCacheValue {
  cv_value : lr_or_result;
  cv_stream : HInputStream;
}.

Record HLeftRec := mkLeftRec {
  lr_seed : ptr;
  lr_rule : nat;
  lr_head : ptr;
}.

(** [rh_eval] is [None] before the first growth. *)
Record HRecursionHead := mkHead {
  rh_head_parser : nat;
  rh_involved : list nat;
  rh_eval : option (list nat);
}.

(** Streams as keys of tables: memcmp compares all the fields. *)
Definition stream_tuple (s : HInputStream) :=
  (is_pos s, is_index s, is_length s, is_bit_offset s, is_margin s, is_endianness s,
   is_overrun s, is_last_chunk s, is_input s).
Definition stream_untuple t : HInputStream :=
  let '(p, i, l, b, m, e, o, c, inp) := t in mkStream inp p i l b m e o c.
#[global] Instance HInputStream_countable : Countable HInputStream.
Proof. apply (inj_countable' stream_tuple stream_untuple). by intros []. Defined.

Record HParseState := mkState {
  ps_parsers : list HParser;                 (** the store of parsers *)
  ps_cache : gmap (HInputStream * nat) nat;  (** addresses of cache values *)
  ps_stream : HInputStream;
  ps_lr_stack : list nat;                    (** addresses of left recursions *)
  ps_heads : gmap HInputStream nat;          (** recursion_heads *)
  ps_symbols : option (list (gmap nat nat)); (** NULL or the stack of tables *)
  ps_results : list HParseResult;            (** heaps *)
  ps_values : list HParserCacheValue;
  ps_lrs : list HLeftRec;
  ps_rheads : list HRecursionHead;
}.

Abbreviation M := (ST HParseState).

(** ** Updates of one field *)

Definition set_stream (s : HInputStream) (st : HParseState) : HParseState :=
  mkState (ps_parsers st) (ps_cache st) s (ps_lr_stack st) (ps_heads st)
    (ps_symbols st) (ps_results st) (ps_values st) (ps_lrs st) (ps_rheads st).
Definition set_parsers (ps : list HParser) (st : HParseState) : HParseState :=
  mkState ps (ps_cache st) (ps_stream st) (ps_lr_stack st) (ps_heads st)
    (ps_symbols st) (ps_results st) (ps_values st) (ps_lrs st) (ps_rheads st).
Definition set_cache (c : gmap (HInputStream * nat) nat) (st : HParseState) : HParseState :=
  mkState (ps_parsers st) c (ps_stream st) (ps_lr_stack st) (ps_heads st)
    (ps_symbols st) (ps_results st) (ps_values st) (ps_lrs st) (ps_rheads st).
Definition set_lr_stack (l : list nat) (st : HParseState) : HParseState :=
  mkState (ps_parsers st) (ps_cache st) (ps_stream st) l (ps_heads st)
    (ps_symbols st) (ps_results st) (ps_values st) (ps_lrs st) (ps_rheads st).
Definition set_heads (h : gmap HInputStream nat) (st : HParseState) : HParseState :=
  mkState (ps_parsers st) (ps_cache st) (ps_stream st) (ps_lr_stack st) h
    (ps_symbols st) (ps_results st) (ps_values st) (ps_lrs st) (ps_rheads st).
Definition set_symbols (t : option (list (gmap nat nat))) (st : HParseState) : HParseState :=
  mkState (ps_parsers st) (ps_cache st) (ps_stream st) (ps_lr_stack st) (ps_heads st)
    t (ps_results st) (ps_values st) (ps_lrs st) (ps_rheads st).
Definition set_results (r : list HParseResult) (st : HParseState) : HParseState :=
  mkState (ps_parsers st) (ps_cache st) (ps_stream st) (ps_lr_stack st) (ps_heads st)
    (ps_symbols st) r (ps_values st) (ps_lrs st) (ps_rheads st).
Definition set_values (v : list HParserCacheValue) (st : HParseState) : HParseState :=
  mkState (ps_parsers st) (ps_cache st) (ps_stream st) (ps_lr_stack st) (ps_heads st)
    (ps_symbols st) (ps_results st) v (ps_lrs st) (ps_rheads st).
Definition set_lrs (l : list HLeftRec) (st : HParseState) : HParseState :=
  mkState (ps_parsers st) (ps_cache st) (ps_stream st) (ps_lr_stack st) (ps_heads st)
    (ps_symbols st) (ps_results st) (ps_values st) l (ps_rheads st).
Definition set_rheads (h : list HRecursionHead) (st : HParseState) : HParseState :=
  mkState (ps_parsers st) (ps_cache st) (ps_stream st) (ps_lr_stack st) (ps_heads st)
    (ps_symbols st) (ps_results st) (ps_values st) (ps_lrs st) h.

(** ** Primitives *)

Definition put_stream (s : HInputStream) : M unit := modify (set_stream s).

(** [h_read_bits(&state->input_stream, count, signed_p)] *)
Definition read_bits (count : Z) (signed_p : bool) : M Z := fun st =>
  '(v, s) ← h_read_bits (ps_stream st) count signed_p; Ok (v, set_stream s st).

(** A fresh result: [make_result], or [a_new(HParseResult, 1)] from zeroed memory. *)
Definition new_result (tok : option HParsedToken) : M ptr := fun st =>
  Ok (Some (length (ps_results st)), set_results (ps_results st ++ [mkResult tok 0]) st).
Definition make_result (tok : option HParsedToken) : M ptr := new_result tok.
Definition make_token (d : HTokenData) : M ptr := make_result (Some (new_tok d)).

(** [*res] *)
Definition result_at (st : HParseState) (r : ptr) : outcome HParseResult :=
  a ← deref NullDeref r; deref OutOfBounds (ps_results st !! a).
Definition load_result (r : ptr) : M HParseResult := fun st =>
  x ← result_at st r; Ok (x, st).

Definition token_length (pr : ptr) : M Z :=
  match pr with
  | None => mret 0
  | _ => x ← load_result pr; mret (bit_length x)
  end.

(** ** The symbol table *)

Definition h_symbol_get (key : nat) : M ptr := fun st =>
  match ps_symbols st with
  | None => Ok (None, st)
  | Some tables => head ← deref NullDeref (tables !! 0%nat); Ok (head !! key, st)
  end.

Definition h_symbol_put (key value : nat) : M unit := fun st =>
  let tables := default [∅] (ps_symbols st) in
  match tables with
  | [] => Fault NullDeref
  | head :: rest =>
      match head !! key with
      | Some _ => Fault AssertFail
      | None => Ok (tt, set_symbols (Some (<[key := value]> head :: rest)) st)
      end
  end.

(** [isspace] of the "C" locale, on a [char]. *)
Definition isspace (c : Z) : bool := (c =? 32) || ((9 <=? c) && (c <=? 13)).

(** * Primitive parsers *)

Definition parse_bits (env : bits_env) : M ptr :=
  v ← read_bits (be_length env) (be_signedp env);
  make_token (if be_signedp env then TT_SINT v else TT_UINT (uint64 v)).

Definition parse_ch (c : Z) : M ptr :=
  v ← read_bits 8 false;
  let r := uint8 v in
  if uint8 c =? r then make_token (TT_UINT r) else mret None.

Definition parse_charset (cs : HCharset) : M ptr :=
  v ← read_bits 8 false;
  let c := uint8 v in
  b ← lift (charset_isset cs c);
  if (b : bool) then make_token (TT_UINT c) else mret None.

(** The loop of [parse_token]: [false] at the first mismatch. *)
Fixpoint token_loop (str : list Z) (len : nat) (i : nat) : M bool :=
  match len with
  | O => mret true
  | S len =>
      v ← read_bits 8 false;
      x ← lift (deref OutOfBounds (str !! i));
      if x =? uint8 v then token_loop str len (S i) else mret false
  end.
Definition parse_token (t : HToken) : M ptr :=
  b ← token_loop (tk_str t) (Z.to_nat (tk_len t)) 0;
  if (b : bool) then make_token (TT_BYTES (take (Z.to_nat (tk_len t)) (tk_str t)))
  else mret None.

Definition parse_end : M ptr :=
  s ← gets ps_stream;
  if is_index s =? is_length s then new_result None else mret None.

Definition parse_epsilon : M ptr := new_result None.
Definition parse_nothing : M ptr := mret None.

(** The static result object, at address 0 of the results. *)
Definition unimplemented_result : HParseResult := mkResult (Some (new_tok TT_ERR)) 0.
Definition parse_unimplemented : M ptr := mret (Some 0%nat).

(** * Combinators *)

Section combinators.
Context (do_parse : ptr -> M ptr) (lf : nat).
(** [be->k(&aa, res->ast, be->env)]: the user's continuation may add parsers. *)
Context (continuation : nat -> option HParsedToken -> Z -> PM ptr).

Definition parse_and (p : ptr) : M ptr :=
  bak ← gets ps_stream;
  res ← do_parse p;
  _ ← put_stream bak;
  match res with
  | Some _ => make_result None
  | None => mret None
  end.

Definition parse_not (p : ptr) : M ptr :=
  bak ← gets ps_stream;
  res ← do_parse p;
  match res with
  | Some _ => mret None
  | None => _ ← put_stream bak; make_result None
  end.

Definition parse_optional (p : ptr) : M ptr :=
  bak ← gets ps_stream;
  res0 ← do_parse p;
  match res0 with
  | Some _ => mret res0
  | None => _ ← put_stream bak; make_token TT_NONE
  end.

Definition parse_ignore (p : ptr) : M ptr :=
  res0 ← do_parse p;
  match res0 with
  | Some _ => new_result None
  | None => mret None
  end.

(** The loop of [parse_whitespace]: the stream before the byte that ended it. *)
Fixpoint whitespace_loop (fuel : nat) : M HInputStream :=
  match fuel with
  | O => out_of_fuel
  | S fuel =>
      bak ← gets ps_stream;
      v ← read_bits 8 false;
      s ← gets ps_stream;
      if is_overrun s then mret bak
      else if isspace (wraps 8 v) then whitespace_loop fuel else mret bak
  end.
Definition parse_whitespace (p : ptr) : M ptr :=
  bak ← whitespace_loop lf;
  _ ← put_stream bak;
  do_parse p.

(** The loop of [parse_sequence]: [None] when an element fails. *)
Fixpoint sequence_loop (ps : list ptr) (seq : HCountedArray HParsedToken)
    : M (option (HCountedArray HParsedToken)) :=
  match ps with
  | [] => mret (Some seq)
  | p :: ps =>
      tmp ← do_parse p;
      match tmp with
      | None => mret None
      | Some _ =>
          r ← load_result tmp;
          match ast r with
          | None => sequence_loop ps seq
          | tok => seq ← lift (h_carray_append seq tok); sequence_loop ps seq
          end
      end
  end.
Definition parse_sequence (s : HSequence) : M ptr :=
  let len := length (sq_array s) in
  seq ← sequence_loop (sq_array s) (h_carray_new_sized (if (0 <? len)%nat then len else 4));
  match seq with
  | None => mret None
  | Some seq => make_token (TT_SEQUENCE seq)
  end.

(** The loop of [parse_choice] from its second round: rewind and try. *)
Fixpoint choice_loop (backup : HInputStream) (ps : list ptr) : M ptr :=
  match ps with
  | [] => mret None
  | p :: ps =>
      _ ← put_stream backup;
      tmp ← do_parse p;
      match tmp with
      | Some _ => mret tmp
      | None => choice_loop backup ps
      end
  end.
Definition parse_choice (s : HSequence) : M ptr :=
  backup ← gets ps_stream;
  match sq_array s with
  | [] => mret None
  | p :: ps =>
      tmp ← do_parse p;
      match tmp with
      | Some _ => mret tmp
      | None => choice_loop backup ps
      end
  end.

Definition is_none_tok (t : option HParsedToken) : bool :=
  match t with
  | Some t => match tok_data t with TT_NONE => true | _ => false end
  | None => false
  end.

(** The final check: every parser still in the set left a TT_NONE. *)
Fixpoint perm_all_none (idx : list nat) (seq : HCountedArray HParsedToken) (set : list bool)
    : outcome bool :=
  match idx with
  | [] => Ok true
  | i :: idx =>
      b ← deref OutOfBounds (set !! i);
      if (b : bool) then
        tok ← carray_elem seq i;
        if is_none_tok tok then perm_all_none idx seq set else Ok false
      else perm_all_none idx seq set
  end.

(** The loop over the available parsers: success, with [seq] and [set]. *)
Fixpoint perm_loop
    (tail : HCountedArray HParsedToken -> list bool ->
            M (bool * HCountedArray HParsedToken * list bool))
    (ps : list ptr) (bak : HInputStream) (idx : list nat)
    (seq : HCountedArray HParsedToken) (set : list bool)
    : M (bool * HCountedArray HParsedToken * list bool) :=
  match idx with
  | [] => mret (false, seq, set)
  | i :: idx =>
      b ← lift (deref OutOfBounds (set !! i));
      if (b : bool) then
        p ← lift (deref OutOfBounds (ps !! i));
        match_ ← do_parse p;
        match match_ with
        | None => _ ← put_stream bak; perm_loop tail ps bak idx seq set
        | Some _ =>
            r ← load_result match_;
            seq ← lift (carray_store seq i (ast r));
            if is_none_tok (ast r) then
              _ ← put_stream bak; perm_loop tail ps bak idx seq set
            else
              '(ok, seq, set) ← tail seq (<[i := false]> set);
              if (ok : bool) then mret (true, seq, set)
              else
                _ ← put_stream bak; perm_loop tail ps bak idx seq (<[i := true]> set)
        end
      else perm_loop tail ps bak idx seq set
  end.

(** [fuel] is the number of parsers not matched yet, [n - k]. *)
Fixpoint parse_permutation_tail (fuel : nat) (ps : list ptr)
    (seq : HCountedArray HParsedToken) (set : list bool)
    : M (bool * HCountedArray HParsedToken * list bool) :=
  match fuel with
  | O => mret (true, seq, set)
  | S fuel =>
      bak ← gets ps_stream;
      let idx := List.seq 0 (length ps) in
      '(ok, seq, set) ← perm_loop (parse_permutation_tail fuel ps) ps bak idx seq set;
      if (ok : bool) then mret (true, seq, set)
      else b ← lift (perm_all_none idx seq set); mret (b, seq, set)
  end.

Definition parse_permutation (s : HSequence) : M ptr :=
  let n := length (sq_array s) in
  '(ok, seq, _) ← parse_permutation_tail n (sq_array s) (h_carray_new_sized n)
                    (replicate n true);
  if (ok : bool) then make_token (TT_SEQUENCE (carray_set_used seq n)) else mret None.

Definition parse_butnot (t : HTwoParsers) : M ptr :=
  start_state ← gets ps_stream;
  r1 ← do_parse (tp_p1 t);
  match r1 with
  | None => mret None
  | Some _ =>
      after_p1_state ← gets ps_stream;
      _ ← put_stream start_state;
      r2 ← do_parse (tp_p2 t);
      _ ← put_stream after_p1_state;
      match r2 with
      | None => mret r1
      | Some _ =>
          r1len ← token_length r1;
          r2len ← token_length r2;
          if uint64 r1len <=? uint64 r2len then mret None else mret r1
      end
  end.

Definition parse_difference (t : HTwoParsers) : M ptr :=
  start_state ← gets ps_stream;
  r1 ← do_parse (tp_p1 t);
  match r1 with
  | None => mret None
  | Some _ =>
      after_p1_state ← gets ps_stream;
      _ ← put_stream start_state;
      r2 ← do_parse (tp_p2 t);
      _ ← put_stream after_p1_state;
      match r2 with
      | None => mret r1
      | Some _ =>
          r1len ← token_length r1;
          r2len ← token_length r2;
          if uint64 r1len <? uint64 r2len then mret None else mret r1
      end
  end.

Definition parse_xor (t : HTwoParsers) : M ptr :=
  start_state ← gets ps_stream;
  r1 ← do_parse (tp_p1 t);
  after_p1_state ← gets ps_stream;
  _ ← put_stream start_state;
  r2 ← do_parse (tp_p2 t);
  match r1, r2 with
  | None, _ => mret r2
  | Some _, None => _ ← put_stream after_p1_state; mret r1
  | Some _, Some _ => mret None
  end.

(** The loop of [parse_many]: the array, the count, the last backup and
    whether it was left through [err0]. *)
Fixpoint many_loop (fuel : nat) (env : HRepeat) (seq : HCountedArray HParsedToken)
    (count : Z) (bak : HInputStream)
    : M (HCountedArray HParsedToken * Z * HInputStream * bool) :=
  if rp_min_p env || (count <? rp_count env) then
    match fuel with
    | O => out_of_fuel
    | S fuel =>
        bak ← gets ps_stream;
        sep_ok ← (if (0 <? count) && bool_decide (rp_sep env <> None)
                  then sep ← do_parse (rp_sep env); mret (bool_decide (sep <> None))
                  else mret true);
        if negb sep_ok then mret (seq, count, bak, true) else
        elem ← do_parse (rp_p env);
        match elem with
        | None => mret (seq, count, bak, true)
        | Some _ =>
            r ← load_result elem;
            seq ← (match ast r with
                   | None => mret seq
                   | tok => lift (h_carray_append seq tok)
                   end);
            many_loop fuel env seq (count + 1) bak
        end
    end
  else mret (seq, count, bak, false).

Definition parse_many (env : HRepeat) : M ptr :=
  let size := if 0 <? rp_count env then Z.to_nat (rp_count env) else 4%nat in
  s ← gets ps_stream;
  '(seq, count, bak, err0) ← many_loop lf env (h_carray_new_sized size) 0 s;
  if (err0 : bool) then
    if rp_count env <=? count then _ ← put_stream bak; make_token (TT_SEQUENCE seq)
    else _ ← put_stream bak; mret None
  else
    if count <? rp_count env then _ ← put_stream bak; mret None
    else make_token (TT_SEQUENCE seq).

Definition parse_length_value (lv : HLenVal) : M ptr :=
  len ← do_parse (lv_length lv);
  match len with
  | None => mret None
  | Some _ =>
      r ← load_result len;
      tok ← lift (deref NullDeref (ast r));
      match tok_data tok with
      | TT_UINT n =>
          parse_many {| rp_p := lv_value lv; rp_sep := None; rp_count := n; rp_min_p := false |}
      | _ => throw Errx
      end
  end.

Definition parse_int_range (env : HRange) : M ptr :=
  ret ← do_parse (rg_p env);
  match ret with
  | None => mret None
  | Some _ =>
      r ← load_result ret;
      match tok_data <$> ast r with
      | Some (TT_SINT v) =>
          if (rg_lower env <=? v) && (v <=? rg_upper env) then mret ret else mret None
      | Some (TT_UINT v) =>
          if (uint64 (rg_lower env) <=? v) && (v <=? uint64 (rg_upper env)) then mret ret
          else mret None
      | _ => mret None
      end
  end.

Fixpoint ignoreseq_loop (ps : list ptr) (i which : Z) (res : ptr) : M ptr :=
  match ps with
  | [] => mret res
  | p :: ps =>
      tmp ← do_parse p;
      match tmp with
      | None => mret None
      | Some _ => ignoreseq_loop ps (i + 1) which (if i =? which then tmp else res)
      end
  end.
Definition parse_ignoreseq (s : HIgnoreSeq) : M ptr :=
  ignoreseq_loop (is_parsers s) 0 (is_which s) None.

Definition parse_action (a : HParseAction) : M ptr :=
  match pa_p a, pa_action a with
  | Some _, Some action =>
      tmp ← do_parse (pa_p a);
      match tmp with
      | None => mret None
      | Some _ =>
          r ← load_result tmp;
          tok ← lift (action r (pa_user_data a));
          make_result tok
      end
  | _, _ => mret None
  end.

Definition parse_attr_bool (a : HAttrBool) : M ptr :=
  res ← do_parse (ab_p a);
  match res with
  | None => mret None
  | Some _ =>
      r ← load_result res;
      match ast r with
      | None => mret None
      | Some _ =>
          b ← lift (ab_pred a r (ab_user_data a));
          if (b : bool) then mret res else mret None
      end
  end.

(** The parser that a continuation makes gets an address of its own, that is not
    used again when the parse is over. *)
Definition run_continuation (b : BindEnv) (x : option HParsedToken) : M ptr := fun st =>
  '(kx, parsers) ← continuation (bd_k b) x (bd_env b) (ps_parsers st);
  Ok (kx, set_parsers parsers st).

Definition parse_bind (b : BindEnv) : M ptr :=
  res ← do_parse (bd_p b);
  match res with
  | None => mret None
  | Some _ =>
      r ← load_result res;
      kx ← run_continuation b (ast r);
      match kx with
      | None => mret None
      | Some _ => do_parse kx
      end
  end.

Definition switch_bit_order (s : HInputStream) : outcome HInputStream :=
  _ ← assert_ok (is_bit_offset s <=? 8);
  Ok (set_cursor s (is_index s) (is_margin s) (is_bit_offset s)).

(** [if (diff & BIT_BIG_ENDIAN) switch_bit_order(&state->input_stream)] *)
Definition switch_if (diff : Z) : M unit := fun st =>
  if has_flag BIT_BIG_ENDIAN diff
  then s ← switch_bit_order (ps_stream st); Ok (tt, set_stream s st)
  else Ok (tt, st).
(** [state->input_stream.endianness ^= diff] *)
Definition xor_endianness (diff : Z) : M unit :=
  modify (fun st => set_stream
    (set_endianness (ps_stream st) (Z.lxor (is_endianness (ps_stream st)) diff)) st).

Definition parse_endianness (e : HParseEndianness) : M ptr :=
  s ← gets ps_stream;
  let diff := Z.lxor (is_endianness s) (en_endianness e) in
  if diff =? 0 then do_parse (en_p e)
  else
    _ ← switch_if diff;
    _ ← xor_endianness diff;
    res ← do_parse (en_p e);
    _ ← xor_endianness diff;
    _ ← switch_if diff;
    mret res.

Definition parse_indirect (i : HIndirectEnv) : M ptr := do_parse (in_parser i).

Definition parse_put (s : HStoredValue) : M ptr :=
  match sv_p s, sv_key s with
  | Some _, Some key =>
      old ← h_symbol_get key;
      match old with
      | Some _ => mret None
      | None =>
          tmp ← do_parse (sv_p s);
          match tmp with
          | None => mret None
          | Some r => _ ← h_symbol_put key r; mret tmp
          end
      end
  | _, _ => mret None
  end.

Definition parse_get (s : HStoredValue) : M ptr :=
  match sv_p s, sv_key s with
  | None, Some key => h_symbol_get key
  | _, _ => mret None
  end.

(** [parser->vtable->parse(parser->env, state)] *)
Definition vt_parse (e : parser_env) : M ptr :=
  match e with
  | bits_vt env => parse_bits env
  | ch_vt c => parse_ch c
  | charset_vt cs => parse_charset cs
  | token_vt t => parse_token t
  | end_vt => parse_end
  | epsilon_vt => parse_epsilon
  | nothing_vt => parse_nothing
  | unimplemented_vt => parse_unimplemented
  | and_vt p => parse_and p
  | not_vt p => parse_not p
  | optional_vt p => parse_optional p
  | ignore_vt p => parse_ignore p
  | whitespace_vt p => parse_whitespace p
  | sequence_vt s => parse_sequence s
  | choice_vt s => parse_choice s
  | permutation_vt s => parse_permutation s
  | butnot_vt t => parse_butnot t
  | difference_vt t => parse_difference t
  | xor_vt t => parse_xor t
  | many_vt r => parse_many r
  | length_value_vt lv => parse_length_value lv
  | int_range_vt r => parse_int_range r
  | ignoreseq_vt s => parse_ignoreseq s
  | action_vt a => parse_action a
  | attr_bool_vt a => parse_attr_bool a
  | bind_vt b => parse_bind b
  | endianness_vt e => parse_endianness e
  | indirect_vt i => parse_indirect i
  | put_vt s => parse_put s
  | get_vt s => parse_get s
  end.
End combinators.
