(* ===== verification/Packrat.v ===== *)
(** The packrat back end (src/src/backends/packrat.c): memoised recursive
    descent with Warth's seed growing for left recursion.

    [h_do_parse] recurses on [fuel], the depth of the C recursion; [lf] bounds
    the rounds of one loop (repetitions, white space, growing a seed). The two
    hash tables are finite maps keyed by the compared bytes; for recursion_heads
    this takes h_hashtable_del to remove the entry, which it does as long as no key
    is put twice behind a hole of its chain (HashTable.h_hashtable_del_reexposes). *)

From S2P Require Import Prelude Stream Charset CArray Token Parser Combinators.

(** A key: the input position and the parser. *)
Definition HParserCacheKey : Type := HInputStream * nat.
Definition input_pos (k : HParserCacheKey) : HInputStream := fst k.
Definition key_parser (k : HParserCacheKey) : nat := snd k.

(** * Access to the heaps and tables *)

Definition cache_get (k : HParserCacheKey) : M ptr := gets (fun st => ps_cache st !! k).
Definition cache_put (k : HParserCacheKey) (v : nat) : M unit :=
  modify (fun st => set_cache (<[k := v]> (ps_cache st)) st).
Definition heads_get (s : HInputStream) : M ptr := gets (fun st => ps_heads st !! s).

Definition new_value (v : HParserCacheValue) : M nat := fun st =>
  Ok (length (ps_values st), set_values (ps_values st ++ [v]) st).
Definition load_value (a : nat) : M HParserCacheValue := fun st =>
  v ← deref OutOfBounds (ps_values st !! a); Ok (v, st).
Definition store_value (a : nat) (v : HParserCacheValue) : M unit :=
  modify (fun st => set_values (<[a := v]> (ps_values st)) st).

Definition new_lr (l : HLeftRec) : M nat := fun st =>
  Ok (length (ps_lrs st), set_lrs (ps_lrs st ++ [l]) st).
Definition load_lr (a : nat) : M HLeftRec := fun st =>
  l ← deref OutOfBounds (ps_lrs st !! a); Ok (l, st).
Definition store_lr (a : nat) (l : HLeftRec) : M unit :=
  modify (fun st => set_lrs (<[a := l]> (ps_lrs st)) st).

Definition new_head (h : HRecursionHead) : M nat := fun st =>
  Ok (length (ps_rheads st), set_rheads (ps_rheads st ++ [h]) st).
Definition load_head (a : nat) : M HRecursionHead := fun st =>
  h ← deref OutOfBounds (ps_rheads st !! a); Ok (h, st).
Definition store_head (a : nat) (h : HRecursionHead) : M unit :=
  modify (fun st => set_rheads (<[a := h]> (ps_rheads st)) st).

Definition store_result (a : nat) (r : HParseResult) : M unit :=
  modify (fun st => set_results (<[a := r]> (ps_results st)) st).

Definition cached_result (result : ptr) : M nat :=
  s ← gets ps_stream; new_value (mkCacheValue (PC_RIGHT result) s).
Definition cached_lr (lr : nat) : M nat :=
  s ← gets ps_stream; new_value (mkCacheValue (PC_LEFT lr) s).

(** [h_slist_find] and [h_slist_remove_all] on a list of parsers. *)
Definition slist_find (l : list nat) (x : nat) : bool := bool_decide (x ∈ l).
Definition slist_remove_all (l : list nat) (x : nat) : list nat := filter (.≠ x) l.

Definition pos_lt (pos1 pos2 : HInputStream) : bool :=
  (is_index pos1 <? is_index pos2) ||
  ((is_index pos1 =? is_index pos2) && (is_bit_offset pos1 <? is_bit_offset pos2)).

(** * The algorithm *)

Section packrat.
Context (do_parse : ptr -> M ptr) (lf : nat).
Context (continuation : nat -> option HParsedToken -> Z -> PM ptr).

(** The update of a successful result: its length is written unless it is
    being forwarded, the token's only when it already has one. *)
Definition finish_result (bak : HInputStream) (res : nat) : M unit :=
  s ← gets ps_stream;
  r ← load_result (Some res);
  if negb (is_overrun s) then
    let len := uint64 (h_input_stream_pos s - h_input_stream_pos bak) in
    let bl := if bit_length r =? 0 then sint64 len else bit_length r in
    let tok := match ast r with
               | Some t => Some (if negb (tok_bit_length t =? 0)
                                 then set_tok_bit_length t len else t)
               | None => None
               end in
    store_result res (mkResult tok bl)
  else store_result res (mkResult (ast r) 0).

Definition perform_lowlevel_parse (parser : ptr) : M ptr :=
  tmp_res ←
    (match parser with
     | None => mret None
     | Some _ =>
         bak ← gets ps_stream;
         st ← get;
         q ← lift (parser_at (ps_parsers st) parser);
         res ← vt_parse do_parse lf continuation (p_env q);
         match res with
         | None => mret None
         | Some a => _ ← finish_result bak a; mret res
         end
     end);
  s ← gets ps_stream;
  if is_overrun s then mret None else mret tmp_res.

Definition recall (k : HParserCacheKey) : M ptr :=
  cached ← cache_get k;
  head ← heads_get (input_pos k);
  match head with
  | None => mret cached
  | Some h =>
      hd ← load_head h;
      cached ←
        (if bool_decide (cached = None) && negb (bool_decide (rh_head_parser hd = key_parser k))
            && negb (slist_find (rh_involved hd) (key_parser k))
         then v ← new_value (mkCacheValue (PC_RIGHT None) (input_pos k)); mret (Some v)
         else mret cached);
      eval_set ← lift (deref NullDeref (rh_eval hd));
      if slist_find eval_set (key_parser k) then
        _ ← store_head h (mkHead (rh_head_parser hd) (rh_involved hd)
               (Some (slist_remove_all eval_set (key_parser k))));
        tmp_res ← perform_lowlevel_parse (Some (key_parser k));
        match cached with
        | None =>
            v ← cached_result tmp_res;
            _ ← cache_put k v;
            mret (Some v)
        | Some v =>
            s ← gets ps_stream;
            _ ← store_value v (mkCacheValue (PC_RIGHT tmp_res) s);
            mret cached
        end
      else mret cached
  end.

(** The loop of [setupLR] over the stack. *)
Fixpoint setupLR_loop (p : nat) (head : nat) (stack : list nat) : M unit :=
  match stack with
  | [] => mret tt
  | a :: stack =>
      lr ← load_lr a;
      if (lr_rule lr =? p)%nat then mret tt else
      _ ← store_lr a (mkLeftRec (lr_seed lr) (lr_rule lr) (Some head));
      h ← load_head head;
      _ ← store_head head (mkHead (rh_head_parser h) (lr_rule lr :: rh_involved h) (rh_eval h));
      setupLR_loop p head stack
  end.

Definition setupLR (p : nat) (rec_detect : nat) : M unit :=
  rd ← load_lr rec_detect;
  head ←
    (match lr_head rd with
     | Some h => mret h
     | None =>
         h ← new_head (mkHead p [] None);
         _ ← store_lr rec_detect (mkLeftRec (lr_seed rd) (lr_rule rd) (Some h));
         mret h
     end);
  st ← get;
  setupLR_loop p head (ps_lr_stack st).

(** [fuel] bounds the growths of one seed. *)
Fixpoint grow (fuel : nat) (k : HParserCacheKey) (head : nat) : M ptr :=
  match fuel with
  | O => out_of_fuel
  | S fuel =>
      _ ← modify (fun st => set_heads (<[input_pos k := head]> (ps_heads st)) st);
      old_cached ← cache_get k;
      match old_cached with
      | None => throw Errx
      | Some oc =>
          ov ← load_value oc;
          match cv_value ov with
          | PC_LEFT _ => throw Errx
          | PC_RIGHT old_res =>
              _ ← put_stream (input_pos k);
              hd ← load_head head;
              _ ← store_head head (mkHead (rh_head_parser hd) (rh_involved hd)
                     (Some (rh_involved hd)));
              tmp_res ← perform_lowlevel_parse (Some (key_parser k));
              ov ← load_value oc;
              match tmp_res with
              | Some _ =>
                  s ← gets ps_stream;
                  if pos_lt (cv_stream ov) s then
                    v ← cached_result tmp_res;
                    _ ← cache_put k v;
                    grow fuel k head
                  else
                    _ ← modify (fun st => set_heads (delete (input_pos k) (ps_heads st)) st);
                    cached ← cache_get k;
                    match cached with
                    | None => throw Errx
                    | Some c =>
                        cv ← load_value c;
                        match cv_value cv with
                        | PC_RIGHT r => _ ← put_stream (cv_stream cv); mret r
                        | PC_LEFT _ => throw Errx
                        end
                    end
              | None =>
                  _ ← modify (fun st => set_heads (delete (input_pos k) (ps_heads st)) st);
                  _ ← put_stream (cv_stream ov);
                  mret old_res
              end
          end
      end
  end.

Definition lr_answer (k : HParserCacheKey) (growable : nat) : M ptr :=
  g ← load_lr growable;
  match lr_head g with
  | None => throw Errx
  | Some h =>
      hd ← load_head h;
      if negb (rh_head_parser hd =? key_parser k)%nat then mret (lr_seed g)
      else
        v ← cached_result (lr_seed g);
        _ ← cache_put k v;
        match lr_seed g with
        | None => mret None
        | Some _ => grow lf k h
        end
  end.

(** The parse of a parser that is not in the cache. A parser that may be left
    recursive is first pushed on the stack and cached as in progress. *)
Definition begin_uncached (k : HParserCacheKey) : M nat :=
  base ← new_lr (mkLeftRec None (key_parser k) None);
  _ ← modify (fun st => set_lr_stack (base :: ps_lr_stack st) st);
  v ← cached_lr base;
  _ ← cache_put k v;
  mret base.

Definition cache_result (k : HParserCacheKey) (tmp_res : ptr) : M ptr :=
  v ← cached_result tmp_res;
  _ ← cache_put k v;
  mret tmp_res.

Definition end_uncached (k : HParserCacheKey) (base : nat) (tmp_res : ptr) : M ptr :=
  _ ← modify (fun st => set_lr_stack (tail (ps_lr_stack st)) st);
  cached ← cache_get k;
  c ← lift (deref AssertFail cached);
  cv ← load_value c;
  s ← gets ps_stream;
  _ ← store_value c (mkCacheValue (cv_value cv) s);
  lr ← load_lr base;
  match lr_head lr with
  | None => cache_result k tmp_res
  | Some _ =>
      _ ← store_lr base (mkLeftRec tmp_res (lr_rule lr) (lr_head lr));
      lr_answer k base
  end.

Definition parse_uncached (k : HParserCacheKey) (higher : bool) : M ptr :=
  if higher then
    base ← begin_uncached k;
    tmp_res ← perform_lowlevel_parse (Some (key_parser k));
    end_uncached k base tmp_res
  else
    tmp_res ← perform_lowlevel_parse (Some (key_parser k));
    cache_result k tmp_res.

Definition h_do_parse_body (parser : ptr) : M ptr :=
  st ← get;
  q ← lift (parser_at (ps_parsers st) parser);
  p ← lift (deref NullDeref parser);
  let k := (ps_stream st, p) in
  m ← (if higher (p_env q) then recall k else mret None);
  match m with
  | None => parse_uncached k (higher (p_env q))
  | Some v =>
      cv ← load_value v;
      _ ← put_stream (cv_stream cv);
      match cv_value cv with
      | PC_LEFT lr_a =>
          _ ← setupLR p lr_a;
          lr ← load_lr lr_a;
          mret (lr_seed lr)
      | PC_RIGHT r => mret r
      end
  end.
End packrat.

Section run.
Context (continuation : nat -> option HParsedToken -> Z -> PM ptr) (lf : nat).

Fixpoint h_do_parse (fuel : nat) (parser : ptr) : M ptr :=
  match fuel with
  | O => out_of_fuel
  | S fuel => h_do_parse_body (h_do_parse fuel) lf continuation parser
  end.

(** The state [h_packrat_parse] starts from; the result at address 0 is the
    static one of [h_unimplemented]. *)
Definition initial_state (parsers : list HParser) (s : HInputStream) : HParseState :=
  mkState parsers ∅ s [] ∅ None [unimplemented_result] [] [] [].

(** [h_packrat_parse]: the result and the state the parse ends in. *)
Definition h_packrat_parse (fuel : nat) (parsers : list HParser) (parser : ptr)
    (s : HInputStream) : outcome (option HParseResult * HParseState) :=
  '(res, st) ← h_do_parse fuel parser (initial_state parsers s);
  match res with
  | None => Ok (None, st)
  | Some _ => r ← result_at st res; Ok (Some r, st)
  end.
End run.
