(* ===== verification/Peg.v ===== *)
(** The abstract specification of a parse: parsing expression semantics.

    [peg] says what a parser of the store does on an input stream, without
    cache, left recursion, result objects or lengths: a result is the token,
    and the state is the stream. [Packrat] is proved to refine it.

    The specification has no value for the parsers that depend on more than
    the stream ([put_vt], [get_vt]): they are [OutOfFuel], as is a left
    recursive parser at every fuel. *)

From S2P Require Import Prelude Stream Charset CArray Token Parser Combinators.

(** Failure, or success with the token or NULL. *)
Abbreviation pres := (option (option HParsedToken)).
Abbreviation P := (ST HInputStream).

Definition p_read (count : Z) (signed_p : bool) : P Z := fun s => h_read_bits s count signed_p.
Definition p_put (s : HInputStream) : P unit := modify (fun _ => s).
Definition p_tok (d : HTokenData) : P pres := mret (Some (Some (new_tok d))).
Definition p_fail : P pres := mret None.

(** * Primitive parsers *)

Definition peg_bits (env : bits_env) : P pres :=
  v ← p_read (be_length env) (be_signedp env);
  p_tok (if be_signedp env then TT_SINT v else TT_UINT (uint64 v)).

Definition peg_ch (c : Z) : P pres :=
  v ← p_read 8 false;
  if uint8 c =? uint8 v then p_tok (TT_UINT (uint8 v)) else p_fail.

Definition peg_charset (cs : HCharset) : P pres :=
  v ← p_read 8 false;
  b ← lift (charset_isset cs (uint8 v));
  if (b : bool) then p_tok (TT_UINT (uint8 v)) else p_fail.

Fixpoint peg_token_loop (str : list Z) (len i : nat) : P bool :=
  match len with
  | O => mret true
  | S len =>
      v ← p_read 8 false;
      x ← lift (deref OutOfBounds (str !! i));
      if x =? uint8 v then peg_token_loop str len (S i) else mret false
  end.
Definition peg_token (t : HToken) : P pres :=
  b ← peg_token_loop (tk_str t) (Z.to_nat (tk_len t)) 0;
  if (b : bool) then p_tok (TT_BYTES (take (Z.to_nat (tk_len t)) (tk_str t))) else p_fail.

Definition peg_end : P pres :=
  s ← get; if is_index s =? is_length s then mret (Some None) else p_fail.

(** * Combinators *)

Section peg.
Context (rec : ptr -> P pres) (lf : nat).
Context (continuation : nat -> option HParsedToken -> Z -> PM ptr).

Definition peg_and (p : ptr) : P pres :=
  s ← get; r ← rec p; _ ← p_put s;
  match r with Some _ => mret (Some None) | None => p_fail end.

Definition peg_not (p : ptr) : P pres :=
  s ← get; r ← rec p;
  match r with Some _ => p_fail | None => _ ← p_put s; mret (Some None) end.

Definition peg_optional (p : ptr) : P pres :=
  s ← get; r ← rec p;
  match r with Some _ => mret r | None => _ ← p_put s; p_tok TT_NONE end.

Definition peg_ignore (p : ptr) : P pres :=
  r ← rec p; match r with Some _ => mret (Some None) | None => p_fail end.

Fixpoint peg_spaces (fuel : nat) : P HInputStream :=
  match fuel with
  | O => out_of_fuel
  | S fuel =>
      bak ← get;
      v ← p_read 8 false;
      s ← get;
      if is_overrun s then mret bak
      else if isspace (wraps 8 v) then peg_spaces fuel else mret bak
  end.
Definition peg_whitespace (p : ptr) : P pres := bak ← peg_spaces lf; _ ← p_put bak; rec p.

(** The tokens of a sequence, NULL ones dropped. *)
Fixpoint peg_seq (ps : list ptr) (seq : HCountedArray HParsedToken)
    : P (option (HCountedArray HParsedToken)) :=
  match ps with
  | [] => mret (Some seq)
  | p :: ps =>
      r ← rec p;
      match r with
      | None => mret None
      | Some None => peg_seq ps seq
      | Some tok => seq ← lift (h_carray_append seq tok); peg_seq ps seq
      end
  end.
Definition peg_sequence (s : HSequence) : P pres :=
  let len := length (sq_array s) in
  seq ← peg_seq (sq_array s) (h_carray_new_sized (if (0 <? len)%nat then len else 4));
  match seq with None => p_fail | Some seq => p_tok (TT_SEQUENCE seq) end.

(** Ordered choice. *)
Fixpoint peg_alts (backup : HInputStream) (ps : list ptr) : P pres :=
  match ps with
  | [] => p_fail
  | p :: ps =>
      _ ← p_put backup; r ← rec p;
      match r with Some _ => mret r | None => peg_alts backup ps end
  end.
Definition peg_choice (s : HSequence) : P pres :=
  backup ← get;
  match sq_array s with
  | [] => p_fail
  | p :: ps => r ← rec p; match r with Some _ => mret r | None => peg_alts backup ps end
  end.

Fixpoint peg_perm_loop
    (tail : HCountedArray HParsedToken -> list bool ->
            P (bool * HCountedArray HParsedToken * list bool))
    (ps : list ptr) (bak : HInputStream) (idx : list nat)
    (seq : HCountedArray HParsedToken) (set : list bool)
    : P (bool * HCountedArray HParsedToken * list bool) :=
  match idx with
  | [] => mret (false, seq, set)
  | i :: idx =>
      b ← lift (deref OutOfBounds (set !! i));
      if (b : bool) then
        p ← lift (deref OutOfBounds (ps !! i));
        r ← rec p;
        match r with
        | None => _ ← p_put bak; peg_perm_loop tail ps bak idx seq set
        | Some tok =>
            seq ← lift (carray_store seq i tok);
            if is_none_tok tok then _ ← p_put bak; peg_perm_loop tail ps bak idx seq set
            else
              '(ok, seq, set) ← tail seq (<[i := false]> set);
              if (ok : bool) then mret (true, seq, set)
              else _ ← p_put bak; peg_perm_loop tail ps bak idx seq (<[i := true]> set)
        end
      else peg_perm_loop tail ps bak idx seq set
  end.
Fixpoint peg_perm_tail (fuel : nat) (ps : list ptr)
    (seq : HCountedArray HParsedToken) (set : list bool)
    : P (bool * HCountedArray HParsedToken * list bool) :=
  match fuel with
  | O => mret (true, seq, set)
  | S fuel =>
      bak ← get;
      let idx := List.seq 0 (length ps) in
      '(ok, seq, set) ← peg_perm_loop (peg_perm_tail fuel ps) ps bak idx seq set;
      if (ok : bool) then mret (true, seq, set)
      else b ← lift (perm_all_none idx seq set); mret (b, seq, set)
  end.
Definition peg_permutation (s : HSequence) : P pres :=
  let n := length (sq_array s) in
  '(ok, seq, _) ← peg_perm_tail n (sq_array s) (h_carray_new_sized n) (replicate n true);
  if (ok : bool) then p_tok (TT_SEQUENCE (carray_set_used seq n)) else p_fail.

(** [p1] but not a [p2] whose text [refuse]s it, by lengths in bits. *)
Definition peg_except (refuse : Z -> Z -> bool) (t : HTwoParsers) : P pres :=
  start ← get;
  r1 ← rec (tp_p1 t);
  match r1 with
  | None => p_fail
  | Some _ =>
      after1 ← get;
      _ ← p_put start;
      r2 ← rec (tp_p2 t);
      after2 ← get;
      _ ← p_put after1;
      match r2 with
      | None => mret r1
      | Some _ =>
          let len s := h_input_stream_pos s - h_input_stream_pos start in
          if refuse (len after1) (len after2) then p_fail else mret r1
      end
  end.

Definition peg_xor (t : HTwoParsers) : P pres :=
  start ← get;
  r1 ← rec (tp_p1 t);
  after1 ← get;
  _ ← p_put start;
  r2 ← rec (tp_p2 t);
  match r1, r2 with
  | None, _ => mret r2
  | Some _, None => _ ← p_put after1; mret r1
  | Some _, Some _ => p_fail
  end.

(** Greedy repetition: the tokens, the count, the stream before the last
    round and whether an element or separator failed. *)
Fixpoint peg_many_loop (fuel : nat) (env : HRepeat) (seq : HCountedArray HParsedToken)
    (count : Z) (bak : HInputStream)
    : P (HCountedArray HParsedToken * Z * HInputStream * bool) :=
  if rp_min_p env || (count <? rp_count env) then
    match fuel with
    | O => out_of_fuel
    | S fuel =>
        bak ← get;
        sep_ok ← (if (0 <? count) && bool_decide (rp_sep env <> None)
                  then sep ← rec (rp_sep env); mret (bool_decide (sep <> None))
                  else mret true);
        if negb sep_ok then mret (seq, count, bak, true) else
        elem ← rec (rp_p env);
        match elem with
        | None => mret (seq, count, bak, true)
        | Some t =>
            seq ← (match t with
                   | None => mret seq
                   | tok => lift (h_carray_append seq tok)
                   end);
            peg_many_loop fuel env seq (count + 1) bak
        end
    end
  else mret (seq, count, bak, false).
Definition peg_many (env : HRepeat) : P pres :=
  let size := if 0 <? rp_count env then Z.to_nat (rp_count env) else 4%nat in
  s ← get;
  '(seq, count, bak, err0) ← peg_many_loop lf env (h_carray_new_sized size) 0 s;
  if (err0 : bool) then
    if rp_count env <=? count then _ ← p_put bak; p_tok (TT_SEQUENCE seq)
    else _ ← p_put bak; p_fail
  else
    if count <? rp_count env then _ ← p_put bak; p_fail else p_tok (TT_SEQUENCE seq).

Definition peg_length_value (lv : HLenVal) : P pres :=
  len ← rec (lv_length lv);
  match len with
  | None => p_fail
  | Some t =>
      tok ← lift (deref NullDeref t);
      match tok_data tok with
      | TT_UINT n =>
          peg_many {| rp_p := lv_value lv; rp_sep := None; rp_count := n; rp_min_p := false |}
      | _ => throw Errx
      end
  end.

Definition in_range (env : HRange) (t : option HParsedToken) : bool :=
  match tok_data <$> t with
  | Some (TT_SINT v) => (rg_lower env <=? v) && (v <=? rg_upper env)
  | Some (TT_UINT v) => (uint64 (rg_lower env) <=? v) && (v <=? uint64 (rg_upper env))
  | _ => false
  end.
Definition peg_int_range (env : HRange) : P pres :=
  r ← rec (rg_p env);
  match r with
  | None => p_fail
  | Some t => if in_range env t then mret r else p_fail
  end.

Fixpoint peg_pick (ps : list ptr) (i which : Z) (res : pres) : P pres :=
  match ps with
  | [] => mret res
  | p :: ps =>
      r ← rec p;
      match r with
      | None => p_fail
      | Some _ => peg_pick ps (i + 1) which (if i =? which then r else res)
      end
  end.
Definition peg_ignoreseq (s : HIgnoreSeq) : P pres := peg_pick (is_parsers s) 0 (is_which s) None.

Definition peg_action (a : HParseAction) : P pres :=
  match pa_p a, pa_action a with
  | Some _, Some action =>
      r ← rec (pa_p a);
      match r with
      | None => p_fail
      | Some t => tok ← lift (action (mkResult t 0) (pa_user_data a)); mret (Some tok)
      end
  | _, _ => p_fail
  end.

Definition peg_attr_bool (a : HAttrBool) : P pres :=
  r ← rec (ab_p a);
  match r with
  | Some (Some t) =>
      b ← lift (ab_pred a (mkResult (Some t) 0) (ab_user_data a));
      if (b : bool) then mret r else p_fail
  | _ => p_fail
  end.

Definition peg_bind (store : list HParser) (b : BindEnv) : P pres :=
  r ← rec (bd_p b);
  match r with
  | None => p_fail
  | Some t =>
      '(kx, _) ← lift (continuation (bd_k b) t (bd_env b) store);
      match kx with None => p_fail | Some _ => rec kx end
  end.

Definition peg_switch_if (diff : Z) : P unit := fun s =>
  if has_flag BIT_BIG_ENDIAN diff
  then s ← switch_bit_order s; Ok (tt, s)
  else Ok (tt, s).
Definition peg_xor_endianness (diff : Z) : P unit :=
  modify (fun s => set_endianness s (Z.lxor (is_endianness s) diff)).
Definition peg_endianness (e : HParseEndianness) : P pres :=
  s ← get;
  let diff := Z.lxor (is_endianness s) (en_endianness e) in
  if diff =? 0 then rec (en_p e)
  else
    _ ← peg_switch_if diff;
    _ ← peg_xor_endianness diff;
    r ← rec (en_p e);
    _ ← peg_xor_endianness diff;
    _ ← peg_switch_if diff;
    mret r.

Definition peg_step (store : list HParser) (e : parser_env) : P pres :=
  match e with
  | bits_vt env => peg_bits env
  | ch_vt c => peg_ch c
  | charset_vt cs => peg_charset cs
  | token_vt t => peg_token t
  | end_vt => peg_end
  | epsilon_vt => mret (Some None)
  | nothing_vt => p_fail
  | unimplemented_vt => p_tok TT_ERR
  | and_vt p => peg_and p
  | not_vt p => peg_not p
  | optional_vt p => peg_optional p
  | ignore_vt p => peg_ignore p
  | whitespace_vt p => peg_whitespace p
  | sequence_vt s => peg_sequence s
  | choice_vt s => peg_choice s
  | permutation_vt s => peg_permutation s
  | butnot_vt t => peg_except Z.leb t
  | difference_vt t => peg_except Z.ltb t
  | xor_vt t => peg_xor t
  | many_vt r => peg_many r
  | length_value_vt lv => peg_length_value lv
  | int_range_vt r => peg_int_range r
  | ignoreseq_vt s => peg_ignoreseq s
  | action_vt a => peg_action a
  | attr_bool_vt a => peg_attr_bool a
  | bind_vt b => peg_bind store b
  | endianness_vt e => peg_endianness e
  | indirect_vt i => rec (in_parser i)
  | put_vt _ | get_vt _ => out_of_fuel
  end.
End peg.

Section semantics.
Context (continuation : nat -> option HParsedToken -> Z -> PM ptr) (lf : nat).
Context (store : list HParser).

(** The parse of [p]; reading past the end is always failure. *)
Fixpoint peg (fuel : nat) (p : ptr) : P pres :=
  match fuel with
  | O => out_of_fuel
  | S fuel =>
      q ← lift (parser_at store p);
      r ← peg_step (peg fuel) lf continuation store (p_env q);
      s ← get;
      if is_overrun s then p_fail else mret r
  end.
End semantics.
