(* ===== verification/PegFacts.v ===== *)
(** The specification is monotone in its fuel: more fuel never changes a
    result. So it defines one result per parser and stream. *)

From S2P Require Import Prelude Stream Charset CArray Token Parser Combinators Peg.

Section mono.
Context (rec1 rec2 : ptr -> P pres) (Hrec : forall p, rec1 p ⊑ₘ rec2 p).
Context (lf1 lf2 : nat) (Hlf : (lf1 <= lf2)%nat).
Context (continuation : nat -> option HParsedToken -> Z -> PM ptr).

#[local] Hint Resolve Hrec : fuel_order.

Lemma peg_spaces_mono n1 n2 : (n1 <= n2)%nat -> peg_spaces n1 ⊑ₘ peg_spaces n2.
Proof.
  revert n2. induction n1 as [|n1 IH]; intros n2 Hn; [apply ST_le_out_of_fuel|].
  destruct n2 as [|n2]; [lia|]. cbn [peg_spaces].
  assert (peg_spaces n1 ⊑ₘ peg_spaces n2) by (apply IH; lia). fuel_mono.
Qed.

Lemma peg_seq_mono ps seq : peg_seq rec1 ps seq ⊑ₘ peg_seq rec2 ps seq.
Proof. revert seq. induction ps as [|p ps IH]; intros seq; cbn [peg_seq]; fuel_mono. Qed.

Lemma peg_alts_mono backup ps : peg_alts rec1 backup ps ⊑ₘ peg_alts rec2 backup ps.
Proof. induction ps as [|p ps IH]; cbn [peg_alts]; fuel_mono. Qed.

Lemma peg_pick_mono ps i which res :
  peg_pick rec1 ps i which res ⊑ₘ peg_pick rec2 ps i which res.
Proof.
  revert i res. induction ps as [|p ps IH]; intros i res; cbn [peg_pick]; fuel_mono.
Qed.

Lemma peg_perm_loop_mono tail1 tail2 ps bak idx seq set :
  (forall seq set, tail1 seq set ⊑ₘ tail2 seq set) ->
  peg_perm_loop rec1 tail1 ps bak idx seq set ⊑ₘ peg_perm_loop rec2 tail2 ps bak idx seq set.
Proof.
  intros Htail. revert seq set. induction idx as [|i idx IH]; intros seq set;
    cbn [peg_perm_loop]; fuel_mono.
Qed.

Lemma peg_perm_tail_mono n ps seq set :
  peg_perm_tail rec1 n ps seq set ⊑ₘ peg_perm_tail rec2 n ps seq set.
Proof.
  revert seq set. induction n as [|n IH]; intros seq set; cbn [peg_perm_tail]; [reflexivity|].
  apply ST_le_bind; [reflexivity|]; intros bak.
  apply ST_le_bind; [by apply peg_perm_loop_mono|]. intros [[ok seq'] set']. reflexivity.
Qed.

Lemma peg_many_loop_mono n1 n2 env seq count bak :
  (n1 <= n2)%nat ->
  peg_many_loop rec1 n1 env seq count bak ⊑ₘ peg_many_loop rec2 n2 env seq count bak.
Proof.
  revert n2 seq count bak. induction n1 as [|n1 IH]; intros [|n2] seq count bak Hn;
    try lia; cbn [peg_many_loop]; destruct (_ || _); try reflexivity.
  1: apply ST_le_out_of_fuel.
  assert (forall seq count bak, peg_many_loop rec1 n1 env seq count bak ⊑ₘ
    peg_many_loop rec2 n2 env seq count bak) by (intros; apply IH; lia).
  fuel_mono.
Qed.

Lemma peg_many_mono env : peg_many rec1 lf1 env ⊑ₘ peg_many rec2 lf2 env.
Proof.
  unfold peg_many. apply ST_le_bind; [reflexivity|]; intros s.
  apply ST_le_bind; [by apply peg_many_loop_mono|]. intros [[[? ?] ?] ?]. reflexivity.
Qed.

Lemma peg_step_mono store e :
  peg_step rec1 lf1 continuation store e ⊑ₘ peg_step rec2 lf2 continuation store e.
Proof.
  pose proof (peg_spaces_mono lf1 lf2 Hlf).
  pose proof peg_seq_mono. pose proof peg_alts_mono. pose proof peg_pick_mono.
  pose proof peg_perm_tail_mono. pose proof peg_many_mono.
  destruct e; cbn [peg_step];
    unfold peg_and, peg_not, peg_optional, peg_ignore, peg_whitespace, peg_sequence,
      peg_choice, peg_permutation, peg_except, peg_xor, peg_length_value, peg_int_range,
      peg_ignoreseq, peg_action, peg_attr_bool, peg_bind, peg_endianness; fuel_mono.
Qed.
End mono.

Section facts.
Context (continuation : nat -> option HParsedToken -> Z -> PM ptr).
Context (store : list HParser).

Lemma peg_mono lf1 lf2 n1 n2 p :
  (lf1 <= lf2)%nat -> (n1 <= n2)%nat ->
  peg continuation lf1 store n1 p ⊑ₘ peg continuation lf2 store n2 p.
Proof.
  intros Hlf. revert n2 p. induction n1 as [|n1 IH]; intros n2 p Hn;
    [apply ST_le_out_of_fuel|].
  destruct n2 as [|n2]; [lia|]. cbn [peg].
  apply ST_le_bind; [reflexivity|]; intros q.
  apply ST_le_bind; [apply peg_step_mono; [intros; apply IH; lia|done]|].
  reflexivity.
Qed.

Lemma peg_ok_mono lf1 lf2 n1 n2 p s r :
  (lf1 <= lf2)%nat -> (n1 <= n2)%nat ->
  peg continuation lf1 store n1 p s = Ok r -> peg continuation lf2 store n2 p s = Ok r.
Proof. intros. by eapply ST_le_ok; [apply peg_mono|]. Qed.

Lemma peg_det lf n1 n2 p s r1 r2 :
  peg continuation lf store n1 p s = Ok r1 -> peg continuation lf store n2 p s = Ok r2 ->
  r1 = r2.
Proof.
  intros H1 H2. apply (peg_ok_mono lf lf n1 (Nat.max n1 n2)) in H1; [|lia..].
  apply (peg_ok_mono lf lf n2 (Nat.max n1 n2)) in H2; [|lia..]. congruence.
Qed.

(** A result is found at a least fuel. *)
Lemma peg_least lf n p s r :
  peg continuation lf store n p s = Ok r ->
  exists k, (S k <= n)%nat /\ peg continuation lf store (S k) p s = Ok r /\
    forall r', peg continuation lf store k p s <> Ok r'.
Proof.
  induction n as [|n IH]; [discriminate|]. intros H.
  destruct (peg continuation lf store n p s) as [r'| |] eqn:E.
  - pose proof (peg_det _ _ _ _ _ _ _ H E) as ->. destruct (IH eq_refl) as (k & Hk & ?).
    exists k. split; [lia|done].
  - exists n. split; [lia|]. split; [done|]. intros r'. congruence.
  - exists n. split; [lia|]. split; [done|]. intros r'. congruence.
Qed.
End facts.
