(* ===== verification/PackratCorrect.v ===== *)
(** The packrat back end refines the specification: what [peg] says of a
    parser and a stream is what h_do_parse returns, whatever the cache holds.

    The refinement is a simulation [sim]: a run of a parse function of
    [Combinators] follows the run of its specification, keeps the invariant
    [inv] of the cache and only extends the state ([ext]). *)

From S2P Require Import Prelude Stream BitWriter Charset CArray Token Parser Validity.
From S2P Require Import Combinators.
From S2P Require Import Packrat Peg PegFacts.

(** * Tokens without a recorded length

    Arena memory is zeroed and no parser writes [bit_length] of a token that
    has none: then results are never changed through their tokens. *)

Inductive fresh_tok : HParsedToken -> Prop :=
| fresh_leaf d i o : (forall s, d <> TT_SEQUENCE s) -> fresh_tok (mkTok d i 0 o)
| fresh_seq arr i o :
    (forall t, Some t ∈ ca_elements arr -> fresh_tok t) ->
    fresh_tok (mkTok (TT_SEQUENCE arr) i 0 o).

Definition fresh_opt (x : option HParsedToken) : Prop := forall t, x = Some t -> fresh_tok t.
Definition fresh_arr (arr : HCountedArray HParsedToken) : Prop :=
  Forall fresh_opt (ca_elements arr).

Lemma fresh_none : fresh_opt None.
Proof. by intros t. Qed.

Lemma fresh_some t : fresh_tok t -> fresh_opt (Some t).
Proof. by intros H t' [= <-]. Qed.

Lemma fresh_new_leaf d : (forall s, d <> TT_SEQUENCE s) -> fresh_opt (Some (new_tok d)).
Proof. intros H. by apply fresh_some, fresh_leaf. Qed.

Lemma fresh_new_seq arr : fresh_arr arr -> fresh_opt (Some (new_tok (TT_SEQUENCE arr))).
Proof.
  intros H. apply fresh_some, fresh_seq. intros t Ht.
  by apply (proj1 (list.Forall_forall _ _) H _ Ht).
Qed.

Lemma fresh_bit_length t : fresh_tok t -> tok_bit_length t = 0.
Proof. by destruct 1. Qed.

Lemma fresh_new_sized n : fresh_arr (h_carray_new_sized n).
Proof.
  unfold fresh_arr, h_carray_new_sized. destruct (n =? 0)%nat; apply Forall_replicate, fresh_none.
Qed.

Lemma fresh_store arr i x arr' :
  fresh_arr arr -> fresh_opt x -> carray_store arr i x = Ok arr' -> fresh_arr arr'.
Proof.
  unfold carray_store, fresh_arr. intros Ha Hx. case_match; [|discriminate].
  intros [= <-]. by apply Forall_insert.
Qed.

Lemma fresh_append arr x arr' :
  fresh_arr arr -> fresh_opt x -> h_carray_append arr x = Ok arr' -> fresh_arr arr'.
Proof.
  unfold h_carray_append. intros Ha Hx H. ok_inv.
  match goal with E : carray_store _ _ _ = Ok _ |- _ =>
    apply (fresh_store _ _ _ _) in E; [|clear E|done] end.
  - simplify_eq/=. done.
  - case_match; [|done]. unfold fresh_arr in *. simpl. apply Forall_app. split.
    + by apply Forall_take.
    + apply Forall_replicate, fresh_none.
Qed.

Lemma fresh_set_used arr n : fresh_arr arr -> fresh_arr (carray_set_used arr n).
Proof. done. Qed.

Create HintDb fresh.
#[export] Hint Resolve fresh_none fresh_new_leaf fresh_new_seq fresh_new_sized fresh_set_used
  : fresh.

(** * The fragment

    Callbacks see the token only, and give back tokens without a length; the
    symbol table and the length comparisons of butnot and difference are out:
    both depend on more than the stream. *)

Definition safe_action (a : HAction) : Prop :=
  (forall t b u, a (mkResult t b) u = a (mkResult t 0) u) /\
  (forall t u r, fresh_opt t -> a (mkResult t 0) u = Ok r -> fresh_opt r).
Definition safe_pred (f : HPredicate) : Prop :=
  forall t b u, f (mkResult t b) u = f (mkResult t 0) u.

Definition memo_safe_env (e : parser_env) : Prop :=
  match e with
  | butnot_vt _ | difference_vt _ | put_vt _ | get_vt _ => False
  | action_vt a => forall f, pa_action a = Some f -> safe_action f
  | attr_bool_vt a => safe_pred (ab_pred a)
  | _ => True
  end.
Definition memo_safe (store : list HParser) : Prop :=
  Forall (fun q => memo_safe_env (p_env q)) store.

(** A continuation that allocates no parser. *)
Definition pure_continuation
    (continuation : nat -> option HParsedToken -> Z -> PM ptr) : Prop :=
  forall k t e ps kx ps', continuation k t e ps = Ok (kx, ps') -> ps' = ps.

Section correct.
Context (continuation : nat -> option HParsedToken -> Z -> PM ptr) (lf : nat).
Context (store : list HParser).

(** * Invariant and extension *)

(** What a result object stands for. *)
Definition res_rel (a : pres) (r : ptr) (st : HParseState) : Prop :=
  match a, r with
  | None, None => True
  | Some t, Some x => exists br, ps_results st !! x = Some br /\ ast br = t
  | _, _ => False
  end.

(** An entry for [k]: a finished parse holds the specification's result; a
    parse in progress has no result at fuel [n], and no recursion head. *)
Definition entry_ok (n : nat) (st : HParseState) (k : HParserCacheKey)
    (cv : HParserCacheValue) : Prop :=
  match cv_value cv with
  | PC_LEFT _ => forall r, peg continuation lf store n (Some k.2) k.1 <> Ok r
  | PC_RIGHT r =>
      exists j a, peg continuation lf store j (Some k.2) k.1 = Ok (a, cv_stream cv) /\
        res_rel a r st
  end.

Record inv (n : nat) (st : HParseState) : Prop := {
  inv_parsers : ps_parsers st = store;
  inv_heads : ps_heads st = ∅;
  inv_cache : forall k v, ps_cache st !! k = Some v ->
    exists cv, ps_values st !! v = Some cv /\ entry_ok n st k cv;
  inv_inj : forall k1 k2 v, ps_cache st !! k1 = Some v -> ps_cache st !! k2 = Some v -> k1 = k2;
  inv_fresh : Forall (fun r => fresh_opt (ast r)) (ps_results st);
  inv_static : res_rel (Some (Some (new_tok TT_ERR))) (Some 0%nat) st;
}.

(** The entry of [k] is a parse in progress, at address [v]. *)
Definition in_progress (st : HParseState) (k : HParserCacheKey) (v : nat) : Prop :=
  ps_cache st !! k = Some v /\ exists l s, ps_values st !! v = Some (mkCacheValue (PC_LEFT l) s).

Record ext (st st' : HParseState) : Prop := {
  ext_results : forall x br, ps_results st !! x = Some br ->
    exists br', ps_results st' !! x = Some br' /\ ast br' = ast br;
  ext_lrs : forall a l, ps_lrs st !! a = Some l -> ps_lrs st' !! a = Some l;
  ext_stack : ps_lr_stack st' = ps_lr_stack st;
  ext_progress : forall k v, in_progress st' k v <-> in_progress st k v;
}.

#[local] Instance ext_preorder : PreOrder ext.
Proof.
  split.
  - intros st. split; eauto; done.
  - intros s1 s2 s3 [A1 A2 A3 A4] [B1 B2 B3 B4]. split.
    + intros x br H. destruct (A1 x br H) as (br1 & H1 & E1).
      destruct (B1 x br1 H1) as (br2 & H2 & E2). exists br2. split; [done|congruence].
    + eauto.
    + congruence.
    + intros k v. by rewrite B4, A4.
Qed.

Lemma res_rel_ext a r st st' : ext st st' -> res_rel a r st -> res_rel a r st'.
Proof.
  intros He. destruct a, r; try done. intros (br & H & E).
  destruct (ext_results _ _ He _ _ H) as (br' & H' & E').
  exists br'. split; [done|congruence].
Qed.

(** * Simulation *)

Definition stable (Pre : HParseState -> Prop) : Prop :=
  forall st st', ext st st' -> Pre st -> Pre st'.

Lemma stable_true : stable (fun _ => True).
Proof. done. Qed.
Lemma stable_and P1 P2 : stable P1 -> stable P2 -> stable (fun st => P1 st /\ P2 st).
Proof. intros H1 H2 st st' He [? ?]. split; eauto. Qed.
Lemma stable_res_rel a r : stable (res_rel a r).
Proof. intros st st' He. by apply res_rel_ext. Qed.

Definition sim {A B} (n : nat) (Pre : HParseState -> Prop) (m1 : P A) (m2 : M B)
    (Q : A -> B -> HParseState -> Prop) : Prop :=
  forall st a s', inv n st -> Pre st -> m1 (ps_stream st) = Ok (a, s') ->
  exists b st', m2 st = Ok (b, st') /\ ps_stream st' = s' /\ inv n st' /\ ext st st' /\ Q a b st'.

Section rules.
Context (n : nat).

Lemma sim_weaken {A B} (P1 P2 : HParseState -> Prop) (m1 : P A) (m2 : M B) Q :
  (forall st, P1 st -> P2 st) -> sim n P2 m1 m2 Q -> sim n P1 m1 m2 Q.
Proof. intros Hw Hs st a s' Hi HP. by apply Hs; [|apply Hw]. Qed.

Lemma sim_bind {A B A' B'} Pre (m1 : P A) (m2 : M B) (k1 : A -> P A') (k2 : B -> M B') Q R :
  stable Pre -> sim n Pre m1 m2 Q ->
  (forall a b, sim n (fun st => Pre st /\ Q a b st) (k1 a) (k2 b) R) ->
  sim n Pre (m1 ≫= k1) (m2 ≫= k2) R.
Proof.
  intros Hst Hm Hk st a s' Hi HP H. ok_inv.
  destruct (Hm st _ _ Hi HP ltac:(eassumption)) as (b & st1 & E1 & Hs1 & Hi1 & He1 & HQ).
  subst. edestruct (Hk x b st1) as (b' & st2 & E2 & Hs2 & Hi2 & He2 & HR);
    [done|split; [by eapply Hst|exact HQ]|eassumption|].
  exists b', st2. split_and!; [|done|done|by etrans|done].
  unfold mbind, ST_bind. by rewrite E1.
Qed.

Lemma sim_ret {A B} Pre (a : A) (b : B) (Q : A -> B -> HParseState -> Prop) :
  (forall st, inv n st -> Pre st -> Q a b st) -> sim n Pre (mret a) (mret b) Q.
Proof. intros HQ st a' s' Hi HP [= <- <-]. exists b, st. split_and!; [done..|by apply HQ]. Qed.

Lemma sim_fail {A} Pre (m2 : M A) Q : @sim pres A n Pre out_of_fuel m2 Q.
Proof. intros st a s' _ _ [=]. Qed.

Lemma sim_throw {A B} Pre f (m2 : M B) Q : @sim A B n Pre (throw f) m2 Q.
Proof. intros st a s' _ _ [=]. Qed.

Lemma inv_set_stream s st : inv n st -> inv n (set_stream s st).
Proof. intros [H1 H2 H3 H4 H5 H6]. split; done. Qed.

Lemma ext_set_stream s st : ext st (set_stream s st).
Proof. split; eauto; done. Qed.

Lemma sim_get {A B} Pre (k1 : HInputStream -> P A) (k2 : HInputStream -> M B) Q :
  (forall s, sim n Pre (k1 s) (k2 s) Q) -> sim n Pre (get ≫= k1) (gets ps_stream ≫= k2) Q.
Proof. intros Hk st a s' Hi HP H. ok_inv. by apply Hk. Qed.

(** A step that changes the stream only, the same way on both sides. *)
Lemma sim_stream {A A' B'} Pre (f : HInputStream -> outcome (A * HInputStream))
    (k1 : A -> P A') (k2 : A -> M B') Q :
  stable Pre -> (forall a, sim n Pre (k1 a) (k2 a) Q) ->
  sim n Pre ((f : P A) ≫= k1)
    ((fun st => '(a, s) ← f (ps_stream st); Ok (a, set_stream s st)) ≫= k2) Q.
Proof.
  intros Hst Hk st a s' Hi HP H. ok_inv.
  match goal with E : f _ = Ok (?x, ?s1) |- _ =>
    edestruct (Hk x (set_stream s1 st)) as (b & st2 & E2 & Hs2 & Hi2 & He2 & HR);
      [by apply inv_set_stream|eapply Hst; [apply ext_set_stream|done]|eassumption|];
      exists b, st2; split_and!;
      [unfold mbind, ST_bind; rewrite E; exact E2|done|done|
       etrans; [apply ext_set_stream|done]|done] end.
Qed.

Lemma sim_read {A B} Pre c sg (k1 : Z -> P A) (k2 : Z -> M B) Q :
  stable Pre -> (forall v, sim n Pre (k1 v) (k2 v) Q) ->
  sim n Pre (p_read c sg ≫= k1) (read_bits c sg ≫= k2) Q.
Proof. intros. by apply (sim_stream _ (fun s => h_read_bits s c sg)). Qed.

Lemma sim_put {A B} Pre s (m1 : P A) (m2 : M B) Q :
  stable Pre -> sim n Pre m1 m2 Q ->
  sim n Pre (p_put s ≫= fun _ => m1) (put_stream s ≫= fun _ => m2) Q.
Proof.
  intros. by apply (sim_stream _ (fun _ => Ok (tt, s)) (fun _ => m1) (fun _ => m2)).
Qed.

Lemma sim_lift {A A' B'} Pre (o : outcome A) (k1 : A -> P A') (k2 : A -> M B') Q :
  (forall a, o = Ok a -> sim n Pre (k1 a) (k2 a) Q) ->
  sim n Pre (lift o ≫= k1) (lift o ≫= k2) Q.
Proof.
  intros Hk st a s' Hi HP H. ok_inv. unfold mbind, ST_bind, lift. by apply Hk.
Qed.

Lemma res_rel_fresh t x st br :
  inv n st -> ps_results st !! x = Some br -> ast br = t -> fresh_opt t.
Proof. intros Hi H <-. by eapply Forall_lookup in H; [|apply (inv_fresh _ _ Hi)]. Qed.

(** Reading a result object: its token is the specification's. *)
Lemma sim_load {A B} Pre t x (m1 : P A) (k2 : HParseResult -> M B) Q :
  (forall st, Pre st -> res_rel (Some t) (Some x) st) ->
  (fresh_opt t -> forall b, sim n Pre m1 (k2 (mkResult t b)) Q) ->
  sim n Pre m1 (load_result (Some x) ≫= k2) Q.
Proof.
  intros HPre Hk st a s' Hi HP H. destruct (HPre st HP) as ([t' b] & Hx & Et).
  simpl in Et. subst t'.
  destruct (Hk (res_rel_fresh _ _ _ _ Hi Hx eq_refl) b st a s') as (c & st' & E & ?); [done..|].
  exists c, st'. split; [|done]. unfold load_result, mbind, ST_bind, result_at. simpl.
  rewrite Hx. exact E.
Qed.

(** A fresh result object. *)
Lemma sim_new_result Pre t : fresh_opt t -> sim n Pre (mret (Some t)) (new_result t) res_rel.
Proof.
  intros Ht st a s' Hi HP [= <- <-].
  assert (Hext : ext st (set_results (ps_results st ++ [mkResult t 0]) st)).
  { split; try done. intros x br H. exists br. split; [|done]. by apply lookup_app_l_Some. }
  do 2 eexists. split; [done|]. split_and!; [done| |done|].
  - destruct Hi as [H1 H2 H3 H4 H5 H6]. split; try done.
    + intros k v Hk. destruct (H3 k v Hk) as (cv & Hv & Hok). exists cv. split; [done|].
      unfold entry_ok in *. destruct (cv_value cv); [done|].
      destruct Hok as (j & a & Hj & Hr). exists j, a. split; [done|].
      by eapply res_rel_ext.
    + simpl. apply Forall_app. by repeat constructor.
    + by eapply res_rel_ext.
  - simpl. exists (mkResult t 0). split; [|done]. by apply list_lookup_middle.
Qed.

Lemma sim_token Pre d :
  fresh_opt (Some (new_tok d)) -> sim n Pre (p_tok d) (make_token d) res_rel.
Proof. intros. by apply sim_new_result. Qed.

Lemma sim_none Pre : sim n Pre p_fail (mret None) res_rel.
Proof. by apply sim_ret. Qed.
End rules.

Create HintDb sim.
#[local] Hint Resolve stable_true stable_and stable_res_rel : sim.

(** * The combinators *)

Section combinators.
Context (n : nat) (rec1 : ptr -> P pres) (rec2 : ptr -> M ptr).
Context (Hrec : forall p, sim n (fun _ => True) (rec1 p) (rec2 p) res_rel).
Context (Hcont : pure_continuation continuation).

Lemma sim_rec {A B} Pre p (k1 : pres -> P A) (k2 : ptr -> M B) Q :
  stable Pre -> sim n Pre (k1 None) (k2 None) Q ->
  (forall t x, sim n (fun st => Pre st /\ res_rel (Some t) (Some x) st)
                 (k1 (Some t)) (k2 (Some x)) Q) ->
  sim n Pre (rec1 p ≫= k1) (rec2 p ≫= k2) Q.
Proof.
  intros Hst Hn Hs. eapply sim_bind; [done|by eapply sim_weaken; [|apply Hrec]|].
  intros [t|] [x|]; try (intros st ?? _ [_ []]; fail); [apply Hs|].
  by eapply sim_weaken; [|apply Hn]; intros st [? _].
Qed.

Lemma sim_rec_tail Pre p : sim n Pre (rec1 p) (rec2 p) res_rel.
Proof. by eapply sim_weaken; [|apply Hrec]. Qed.

(** Returning a result object obtained before. *)
Lemma sim_forward (Pre : HParseState -> Prop) t x :
  (forall st, Pre st -> res_rel (Some t) (Some x) st) ->
  sim n Pre (mret (Some t)) (mret (Some x)) res_rel.
Proof. intros. by apply sim_ret; auto. Qed.

(** The precondition knows the result object. *)
Ltac sim_pre := let H := fresh in intros ? H; cbv beta in H; tauto.
Ltac sim_load_step :=
  match goal with
  | |- sim _ ?Pre _ (load_result (Some ?x) ≫= _) _ =>
      match Pre with
      | context [res_rel (Some ?t) (Some x)] =>
          apply (sim_load _ _ t x); [sim_pre|intros ? ?; cbn [ast]]
      end
  end.
Ltac sim_step :=
  first
    [ apply sim_none
    | apply sim_get; intros ?
    | apply sim_read; [solve [eauto with sim]|intros ?]
    | apply sim_put; [solve [eauto with sim]|]
    | apply sim_lift; intros ? ?
    | apply sim_rec; [solve [eauto with sim]| |intros ? ?]; cbv beta iota
    | apply sim_rec_tail
    | apply sim_forward; sim_pre
    | sim_load_step
    | apply sim_throw
    | apply sim_token; solve [eauto with fresh]
    | apply sim_new_result; solve [eauto with fresh] ].
Ltac sim_auto := repeat (sim_step || case_match).

(** Loops that return data rather than a result object. *)
Definition eq_data {A} (good : A -> Prop) (a b : A) (_ : HParseState) : Prop :=
  a = b /\ good a.

Lemma sim_data {A B C} Pre good (m1 : P A) (m2 : M A) (k1 : A -> P B) (k2 : A -> M C) Q :
  stable Pre -> sim n Pre m1 m2 (eq_data good) ->
  (forall a, good a -> sim n Pre (k1 a) (k2 a) Q) ->
  sim n Pre (m1 ≫= k1) (m2 ≫= k2) Q.
Proof.
  intros Hst Hm Hk. eapply sim_bind; [done|exact Hm|]. intros a b st c s' Hi [HP [<- Hg]].
  by apply Hk.
Qed.

Lemma sim_ret_data {A} Pre good (a : A) :
  good a -> sim n Pre (mret a) (mret a) (eq_data good).
Proof. intros. by apply sim_ret. Qed.

Lemma sim_lift_data {A} Pre good (o : outcome A) :
  (forall a, o = Ok a -> good a) -> sim n Pre (lift o) (lift o) (eq_data good).
Proof.
  intros Hg st a s' Hi HP H. apply lift_ok in H as [-> ->].
  exists a, st. split_and!; [done..|split; [done|by apply Hg]].
Qed.

Lemma sim_token_loop Pre str len i :
  stable Pre ->
  sim n Pre (peg_token_loop str len i) (token_loop str len i) (eq_data (fun _ => True)).
Proof.
  intros Hst. revert i. induction len as [|len IH]; intros i; cbn [peg_token_loop token_loop].
  - by apply sim_ret_data.
  - sim_auto; [apply IH|by apply sim_ret_data].
Qed.

Lemma sim_spaces Pre fuel :
  stable Pre -> sim n Pre (peg_spaces fuel) (whitespace_loop fuel) (eq_data (fun _ => True)).
Proof.
  intros Hst. induction fuel as [|fuel IH]; cbn [peg_spaces whitespace_loop].
  - intros st a s' _ _ [=].
  - sim_auto; solve [apply IH|by apply sim_ret_data].
Qed.

Definition good_arr (o : option (HCountedArray HParsedToken)) : Prop :=
  forall arr, o = Some arr -> fresh_arr arr.

Lemma sim_seq Pre ps seq :
  stable Pre -> fresh_arr seq ->
  sim n Pre (peg_seq rec1 ps seq) (sequence_loop rec2 ps seq) (eq_data good_arr).
Proof.
  intros Hst. revert Pre Hst seq.
  induction ps as [|p ps IH]; intros Pre Hst seq Hseq; cbn [peg_seq sequence_loop].
  - apply sim_ret_data. by intros arr [= <-].
  - sim_auto; try (apply IH; [eauto with sim|]; eauto using fresh_append). 
    by apply sim_ret_data.
Qed.

Lemma sim_alts Pre backup ps :
  stable Pre -> sim n Pre (peg_alts rec1 backup ps) (choice_loop rec2 backup ps) res_rel.
Proof.
  intros Hst. revert Pre Hst. induction ps as [|p ps IH]; intros Pre Hst;
    cbn [peg_alts choice_loop]; sim_auto. apply IH; eauto with sim.
Qed.

Lemma sim_pick Pre ps i which a r :
  stable Pre -> (forall st, Pre st -> res_rel a r st) ->
  sim n Pre (peg_pick rec1 ps i which a) (ignoreseq_loop rec2 ps i which r) res_rel.
Proof.
  intros Hst Hr. revert Pre Hst i a r Hr.
  induction ps as [|p ps IH]; intros Pre Hst i a r Hr; cbn [peg_pick ignoreseq_loop].
  - apply sim_ret. auto.
  - sim_step; [apply sim_none|]. apply IH; [eauto with sim|].
    intros st [HP Hx]. destruct (i =? which); auto.
Qed.

Definition good_perm (x : bool * HCountedArray HParsedToken * list bool) : Prop :=
  fresh_arr x.1.2.

Lemma sim_perm_loop Pre tail1 tail2 ps bak idx seq set :
  stable Pre ->
  (forall Pre seq set, stable Pre -> fresh_arr seq ->
     sim n Pre (tail1 seq set) (tail2 seq set) (eq_data good_perm)) ->
  fresh_arr seq ->
  sim n Pre (peg_perm_loop rec1 tail1 ps bak idx seq set)
    (perm_loop rec2 tail2 ps bak idx seq set) (eq_data good_perm).
Proof.
  intros Hst Htail. revert Pre Hst seq set.
  induction idx as [|i idx IH]; intros Pre Hst seq set Hseq; cbn [peg_perm_loop perm_loop].
  - by apply sim_ret_data.
  - sim_step. case_match; [|by apply IH]. sim_auto; try (apply IH; eauto with sim; fail).
    + apply IH; eauto using fresh_store with sim.
    + eapply sim_data; [eauto with sim|apply Htail; eauto using fresh_store with sim|].
      intros [[ok seq'] set'] Hg. sim_auto; [by apply sim_ret_data|].
      apply IH; eauto with sim.
Qed.

Lemma sim_perm_tail Pre fuel ps seq set :
  stable Pre -> fresh_arr seq ->
  sim n Pre (peg_perm_tail rec1 fuel ps seq set)
    (parse_permutation_tail rec2 fuel ps seq set) (eq_data good_perm).
Proof.
  revert Pre seq set. induction fuel as [|fuel IH]; intros Pre seq set Hst Hseq;
    cbn [peg_perm_tail parse_permutation_tail]; [by apply sim_ret_data|].
  sim_step. eapply sim_data; [done|by apply sim_perm_loop|].
  intros [[ok seq'] set'] Hg. sim_auto; by apply sim_ret_data.
Qed.

Definition good_many (x : HCountedArray HParsedToken * Z * HInputStream * bool) : Prop :=
  fresh_arr x.1.1.1.

Lemma sim_many_loop Pre fuel env seq count bak :
  stable Pre -> fresh_arr seq ->
  sim n Pre (peg_many_loop rec1 fuel env seq count bak)
    (many_loop rec2 fuel env seq count bak) (eq_data good_many).
Proof.
  revert Pre seq count bak. induction fuel as [|fuel IH]; intros Pre seq count bak Hst Hseq;
    cbn [peg_many_loop many_loop]; (destruct (rp_min_p env || _); [|by apply sim_ret_data]).
  { intros st a s' _ _ [=]. }
  sim_step. eapply sim_data with (good := fun _ => True); [done| |intros sep_ok _].
  { case_match; [|by apply sim_ret_data]. sim_step; by apply sim_ret_data. }
  destruct (negb sep_ok); [by apply sim_ret_data|].
  sim_step; [by apply sim_ret_data|]. sim_step.
  eapply sim_data with (good := fresh_arr); [eauto with sim| |intros seq' Hseq'].
  { case_match; [|by apply sim_ret_data].
    apply sim_lift_data. intros a Ha. by eapply fresh_append. }
  apply IH; eauto with sim.
Qed.

Lemma sim_many Pre env :
  stable Pre -> sim n Pre (peg_many rec1 lf env) (parse_many rec2 lf env) res_rel.
Proof.
  intros Hst. unfold peg_many, parse_many. cbv zeta. sim_step.
  eapply sim_data; [done|apply sim_many_loop; eauto with fresh|].
  intros [[[seq count] bak] err] Hg. sim_auto.
Qed.

Lemma sim_bind_k Pre b t (k1 : ptr * list HParser -> P pres) (k2 : ptr -> M ptr) Q :
  (forall kx, sim n Pre (k1 (kx, store)) (k2 kx) Q) ->
  sim n Pre (lift (continuation (bd_k b) t (bd_env b) store) ≫= k1)
    (run_continuation continuation b t ≫= k2) Q.
Proof.
  intros Hk st a s' Hi HP H. ok_inv.
  match goal with E : continuation _ _ _ _ = Ok ?x |- _ =>
    destruct x as [kx ps]; rename E into Ec end.
  pose proof (Hcont _ _ _ _ _ _ Ec) as ->.
  destruct (Hk kx st a s') as (c & st' & E2 & ?); [done..|].
  exists c, st'. split; [|done]. unfold run_continuation, mbind, ST_bind.
  rewrite (inv_parsers _ _ Hi). change (@mbind outcome _) with (@outcome_bind).
  unfold outcome_bind. rewrite Ec.
  assert (set_parsers store st = st) as ->; [|done].
  destruct st; simpl in *. f_equal. by rewrite <- (inv_parsers _ _ Hi).
Qed.

Lemma sim_switch_if Pre {A B} diff (k1 : P A) (k2 : M B) Q :
  stable Pre -> sim n Pre k1 k2 Q ->
  sim n Pre (peg_switch_if diff ≫= fun _ => k1) (switch_if diff ≫= fun _ => k2) Q.
Proof.
  intros Hst Hk st a s' Hi HP H.
  pose proof (sim_stream n Pre (peg_switch_if diff) (fun _ => k1) (fun _ => k2) Q Hst
    (fun _ => Hk) st a s' Hi HP H) as (b & st' & E & ?).
  exists b, st'. split; [|done]. revert E. unfold mbind, ST_bind, switch_if, peg_switch_if.
  destruct (has_flag _ _).
  - unfold mbind, outcome_bind. by destruct (switch_bit_order (ps_stream st)).
  - unfold mbind, outcome_bind. by destruct st.
Qed.

Lemma sim_xor_endianness Pre {A B} diff (k1 : P A) (k2 : M B) Q :
  stable Pre -> sim n Pre k1 k2 Q ->
  sim n Pre (peg_xor_endianness diff ≫= fun _ => k1) (xor_endianness diff ≫= fun _ => k2) Q.
Proof.
  intros Hst Hk. by apply (sim_stream n Pre (peg_xor_endianness diff)
    (fun _ => k1) (fun _ => k2)).
Qed.

Ltac sim_all := repeat first
  [ apply sim_many; solve [eauto with sim]
  | apply sim_alts; solve [eauto with sim]
  | apply sim_bind_k; intros ?
  | apply sim_switch_if; [solve [eauto with sim]|]
  | apply sim_xor_endianness; [solve [eauto with sim]|]
  | sim_step | case_match ].

Lemma sim_vt_parse e :
  memo_safe_env e ->
  sim n (fun _ => True) (peg_step rec1 lf continuation store e)
    (vt_parse rec2 lf continuation e) res_rel.
Proof.
  intros Hsafe. destruct e; cbn [peg_step vt_parse memo_safe_env] in *; try done.
  - unfold peg_bits, parse_bits. sim_all; destruct (be_signedp env); sim_all.
  - unfold peg_ch, parse_ch. sim_all.
  - unfold peg_charset, parse_charset. sim_all.
  - unfold peg_token, parse_token.
    eapply sim_data; [eauto with sim|apply sim_token_loop; eauto with sim|].
    intros b _. sim_all.
  - unfold peg_end, parse_end. sim_all.
  - unfold parse_epsilon. sim_all.
  - unfold parse_nothing. sim_all.
  - unfold parse_unimplemented. apply sim_ret. intros st Hi _. apply (inv_static _ _ Hi).
  - unfold peg_and, parse_and. sim_all.
  - unfold peg_not, parse_not. sim_all.
  - unfold peg_optional, parse_optional. sim_all.
  - unfold peg_ignore, parse_ignore. sim_all.
  - unfold peg_whitespace, parse_whitespace.
    eapply sim_data; [eauto with sim|apply sim_spaces; eauto with sim|].
    intros b _. sim_all.
  - unfold peg_sequence, parse_sequence.
    eapply sim_data; [eauto with sim|apply sim_seq; eauto with sim fresh|].
    intros o Ho. case_match; sim_all.
  - unfold peg_choice, parse_choice. sim_all.
  - unfold peg_permutation, parse_permutation.
    eapply sim_data; [eauto with sim|apply sim_perm_tail; eauto with sim fresh|].
    intros [[ok seq] set] Hg. sim_all.
  - unfold peg_xor, parse_xor. sim_all.
  - apply sim_many. eauto with sim.
  - unfold peg_length_value, parse_length_value. sim_all.
  - unfold peg_int_range, parse_int_range, in_range. sim_step; [sim_step|sim_load_step].
    destruct (tok_data <$> t) as [[]|]; sim_all.
  - apply sim_pick; [eauto with sim|done].
  - unfold peg_action, parse_action. sim_all.
    destruct (Hsafe _ eq_refl) as [Hblind Hfresh]. rewrite (Hblind _ b). sim_step.
    apply sim_new_result. eauto.
  - unfold peg_attr_bool, parse_attr_bool. sim_all. rewrite (Hsafe _ b). sim_all.
  - unfold peg_bind, parse_bind. sim_all.
  - unfold peg_endianness, parse_endianness. sim_all.
Qed.
End combinators.

(** * One parse *)

Lemma entry_ok_ext n st st' k cv : ext st st' -> entry_ok n st k cv -> entry_ok n st' k cv.
Proof.
  intros He. unfold entry_ok. destruct (cv_value cv); [done|].
  intros (j & a & Hj & Hr). exists j, a. split; [done|]. by eapply res_rel_ext.
Qed.

Lemma inv_le n j st : (j <= n)%nat -> inv n st -> inv j st.
Proof.
  intros Hj [H1 H2 H3 H4 H5 H6]. split; try done. intros k v Hk.
  destruct (H3 k v Hk) as (cv & Hv & Hok). exists cv. split; [done|].
  revert Hok. unfold entry_ok. destruct (cv_value cv); [|done].
  intros Hno r Hr. apply (Hno r). by eapply peg_ok_mono; [| |exact Hr].
Qed.

(** Writing a result's length leaves its token alone. *)
Lemma finish_result_ok n bak x st t :
  inv n st -> res_rel (Some t) (Some x) st ->
  exists st', finish_result bak x st = Ok (tt, st') /\ inv n st' /\ ext st st' /\
    ps_stream st' = ps_stream st.
Proof.
  intros Hi ([t' bl] & Hx & Ht). simpl in Ht. subst t'.
  pose proof (res_rel_fresh n t x st _ Hi Hx eq_refl) as Hf.
  assert (Hupd : forall bl', inv n (set_results (<[x := mkResult t bl']> (ps_results st)) st) /\
    ext st (set_results (<[x := mkResult t bl']> (ps_results st)) st)).
  { intros bl'.
    assert (ext st (set_results (<[x := mkResult t bl']> (ps_results st)) st)) as He.
    { split; try done. intros y br Hy. simpl. destruct (decide (x = y)) as [->|Hne].
      - exists (mkResult t bl'). split; [|by simplify_eq].
        apply list_lookup_insert_eq. by eapply lookup_lt_Some.
      - exists br. by rewrite list_lookup_insert_ne. }
    split; [|done]. pose proof Hi as [H1 H2 H3 H4 H5 H6]. split; try done.
    - intros k v Hk. destruct (H3 k v Hk) as (cv & Hv & Hok). exists cv. split; [done|].
      by eapply entry_ok_ext.
    - simpl. by apply Forall_insert.
    - by eapply res_rel_ext. }
  unfold finish_result, load_result, result_at, mbind, ST_bind, gets. simpl.
  rewrite Hx. cbn [deref]. destruct (negb (is_overrun (ps_stream st))).
  - eexists. split; [reflexivity|]. cbn [ast].
    assert (match t with
            | Some t => Some (if negb (tok_bit_length t =? 0)
                then set_tok_bit_length t (uint64 (h_input_stream_pos (ps_stream st)
                       - h_input_stream_pos bak)) else t)
            | None => None
            end = t) as ->.
    { destruct t as [t|]; [|done]. by rewrite (fresh_bit_length t (Hf _ eq_refl)). }
    split; [apply Hupd|split; [apply Hupd|done]].
  - eexists. split; [reflexivity|]. split; [apply Hupd|split; [apply Hupd|done]].
Qed.

Lemma parser_at_some p q : store !! p = Some q -> parser_at store (Some p) = Ok q.
Proof. intros Hq. unfold parser_at. simpl. by rewrite Hq. Qed.

Lemma perform_ok n rec1 rec2 p q st a s' :
  pure_continuation continuation ->
  (forall p, sim n (fun _ => True) (rec1 p) (rec2 p) res_rel) ->
  store !! p = Some q -> memo_safe_env (p_env q) -> inv n st ->
  (r ← peg_step rec1 lf continuation store (p_env q);
   s ← get; if is_overrun s then p_fail else mret r) (ps_stream st) = Ok (a, s') ->
  exists b st', perform_lowlevel_parse rec2 lf continuation (Some p) st = Ok (b, st') /\
    ps_stream st' = s' /\ inv n st' /\ ext st st' /\ res_rel a b st'.
Proof.
  intros Hcont Hrec Hq Hsafe Hi H. ok_inv.
  edestruct (sim_vt_parse n rec1 rec2 Hrec Hcont (p_env q) Hsafe st)
    as (b & st1 & E1 & Hs1 & Hi1 & He1 & Hr1); [done|done|eassumption|].
  unfold perform_lowlevel_parse. cbv beta iota.
  unfold mbind, ST_bind, gets, get, lift. rewrite (inv_parsers _ _ Hi), (parser_at_some _ _ Hq).
  rewrite E1. destruct b as [b|].
  - destruct x as [t|]; [|done].
    destruct (finish_result_ok n (ps_stream st) b st1 t Hi1 Hr1) as (st2 & -> & Hi2 & He2 & Hs2).
    simpl. rewrite Hs2. subst. destruct (is_overrun (ps_stream st1)); unfold p_fail in *; ok_inv.
    all: do 2 eexists; split; [done|]; split_and!; try done.
    all: try by etrans.
    by eapply res_rel_ext.
  - destruct x; [done|]. simpl. subst. destruct (is_overrun (ps_stream st1)); unfold p_fail in *; ok_inv.
    all: do 2 eexists; split; [done|]; split_and!; done.
Qed.

(** Storing a finished parse of [k], from a state [st'] whose other parses
    in progress are those of [st]. *)
Record ext_but (k : HParserCacheKey) (st st' : HParseState) : Prop := {
  extb_results : forall x br, ps_results st !! x = Some br ->
    exists br', ps_results st' !! x = Some br' /\ ast br' = ast br;
  extb_lrs : forall a l, ps_lrs st !! a = Some l -> ps_lrs st' !! a = Some l;
  extb_stack : ps_lr_stack st' = ps_lr_stack st;
  extb_progress : forall k' v, k' <> k -> in_progress st' k' v <-> in_progress st k' v;
}.

Lemma ext_ext_but k st st' : ext st st' -> ext_but k st st'.
Proof. intros [? ? ? ?]. split; auto. Qed.

Definition put_right (k : HParserCacheKey) (b : ptr) (st : HParseState) : HParseState :=
  set_cache (<[k := length (ps_values st)]> (ps_cache st))
    (set_values (ps_values st ++ [mkCacheValue (PC_RIGHT b) (ps_stream st)]) st).

Lemma put_right_run k b st : cache_result k b st = Ok (b, put_right k b st).
Proof. done. Qed.

Lemma put_right_ok j n st st' k a b :
  inv n st -> inv j st' -> ext_but k st st' -> (forall v, ~ in_progress st k v) ->
  peg continuation lf store n (Some k.2) k.1 = Ok (a, ps_stream st') -> res_rel a b st' ->
  inv n (put_right k b st') /\ ext st (put_right k b st').
Proof.
  intros Hi Hi' He Hnp Hpeg Hr.
  assert (Hold : forall k' v, k' <> k -> ps_cache st' !! k' = Some v ->
    exists cv, (ps_values st' ++ [mkCacheValue (PC_RIGHT b) (ps_stream st')]) !! v = Some cv /\
      ps_values st' !! v = Some cv /\ entry_ok j st' k' cv).
  { intros k' v Hne Hk. destruct (inv_cache _ _ Hi' k' v Hk) as (cv & Hv & Hok).
    exists cv. split; [by apply lookup_app_l_Some|done]. }
  split.
  - split; try apply Hi'.
    + intros k' v. simpl. destruct (decide (k' = k)) as [->|Hne].
      * rewrite lookup_insert_eq. intros [= <-].
        exists (mkCacheValue (PC_RIGHT b) (ps_stream st')).
        split; [by apply list_lookup_middle|]. by exists n, a.
      * rewrite lookup_insert_ne by done. intros Hk.
        destruct (Hold k' v Hne Hk) as (cv & Hv1 & Hv & Hok). exists cv. split; [done|].
        revert Hok. unfold entry_ok. destruct cv as [[l|r] s]; simpl; [|done]. intros _.
        assert (in_progress st k' v) as [Hk0 (l0 & s0 & Hv0)].
        { apply (extb_progress _ _ _ He); [done|]. split; eauto. }
        destruct (inv_cache _ _ Hi k' v Hk0) as (cv0 & Hv0' & Hok0).
        assert (cv0 = mkCacheValue (PC_LEFT l0) s0) as -> by congruence. exact Hok0.
    + intros k1 k2 v. simpl.
      assert (Hlt : forall k' v, ps_cache st' !! k' = Some v -> (v < length (ps_values st'))%nat).
      { intros k' v' Hk. destruct (inv_cache _ _ Hi' k' v' Hk) as (cv & Hv & _).
        by eapply lookup_lt_Some. }
      intros H1 H2. apply lookup_insert_Some in H1 as [[<- <-]|[? H1]];
        apply lookup_insert_Some in H2 as [[<- E]|[? H2]]; try done.
      * apply Hlt in H2. lia.
      * apply Hlt in H1. lia.
      * by eapply (inv_inj _ _ Hi').
  - split; try apply He.
    intros k' v. unfold in_progress. simpl. destruct (decide (k' = k)) as [->|Hne].
    + split; [|by intros ?%Hnp].
      rewrite lookup_insert_eq. intros [[= <-] (l & s & Hv)].
      by rewrite list_lookup_middle in Hv by done.
    + rewrite lookup_insert_ne by done. rewrite <- (extb_progress _ _ _ He k' v Hne).
      unfold in_progress. split; intros [Hk Hl]; (split; [done|]); destruct Hl as (l & s & Hl).
      * destruct (Hold k' v Hne Hk) as (cv & Hv1 & Hv & _). exists l, s. congruence.
      * exists l, s. by apply lookup_app_l_Some.
Qed.

(** * The back end *)

(** The state in which the body of a parse of [k] runs: its left recursion
    is on the stack and the cache says the parse is in progress. *)
Definition begin_parse (k : HParserCacheKey) (st : HParseState) : HParseState :=
  set_cache (<[k := length (ps_values st)]> (ps_cache st))
    (set_values (ps_values st ++ [mkCacheValue (PC_LEFT (length (ps_lrs st))) (ps_stream st)])
      (set_lr_stack (length (ps_lrs st) :: ps_lr_stack st)
        (set_lrs (ps_lrs st ++ [mkLeftRec None k.2 None]) st))).

Lemma begin_parse_inv n j k st :
  inv n st -> (j <= n)%nat -> ps_cache st !! k = None ->
  (forall r, peg continuation lf store j (Some k.2) k.1 <> Ok r) ->
  inv j (begin_parse k st).
Proof.
  intros Hi Hj Hk Hno. pose proof (inv_le _ _ _ Hj Hi) as [H1 H2 H3 H4 H5 H6].
  assert (Hlt : forall k' v, ps_cache st !! k' = Some v -> (v < length (ps_values st))%nat).
  { intros k' v Hk'. destruct (H3 k' v Hk') as (cv & Hv & _). by eapply lookup_lt_Some. }
  split; try done.
  - intros k' v. simpl. destruct (decide (k' = k)) as [->|Hne].
    + rewrite lookup_insert_eq. intros [= <-]. eexists. by rewrite list_lookup_middle.
    + rewrite lookup_insert_ne by done. intros Hk'. destruct (H3 k' v Hk') as (cv & Hv & Hok).
      exists cv. split; [by apply lookup_app_l_Some|done].
  - intros k1 k2 v. simpl. intros E1 E2.
    apply lookup_insert_Some in E1 as [[<- <-]|[? E1]];
      apply lookup_insert_Some in E2 as [[<- E]|[? E2]]; try done.
    + apply Hlt in E2. lia.
    + apply Hlt in E1. lia.
    + by eapply H4.
Qed.

(** After the body: popping the stack and moving the entry. *)
Definition end_parse (c : nat) (st : HParseState) : HParseState :=
  set_values (<[c := mkCacheValue
      (default (PC_RIGHT None) (cv_value <$> ps_values st !! c)) (ps_stream st)]> (ps_values st))
    (set_lr_stack (tail (ps_lr_stack st)) st).

Lemma end_parse_ok j k st st2 :
  inv j st2 -> ext (begin_parse k st) st2 -> (forall k' v, ps_cache st !! k' = Some v ->
    (v < length (ps_values st))%nat) ->
  let c := length (ps_values st) in
  inv j (end_parse c st2) /\ ext_but k st (end_parse c st2).
Proof.
  intros Hi He Hlt c.
  assert (in_progress st2 k c) as [Hk2 (l2 & s2 & Hc2)].
  { apply (ext_progress _ _ He). split; [apply lookup_insert_eq|].
    do 2 eexists. by apply list_lookup_middle. }
  unfold end_parse. rewrite Hc2. simpl.
  pose proof (lookup_lt_Some _ _ _ Hc2) as Hc2lt.
  split.
  - pose proof Hi as [H1 H2 H3 H4 H5 H6]. split; try done.
    intros k' v. simpl. intros Hk'. destruct (H3 k' v Hk') as (cv & Hv & Hok).
    destruct (decide (v = c)) as [->|Hne].
    + rewrite list_lookup_insert_eq by done. eexists. split; [done|].
      rewrite Hc2 in Hv. injection Hv as <-. exact Hok.
    + exists cv. by rewrite list_lookup_insert_ne.
  - split.
    + intros x br Hx. by apply (ext_results _ _ He).
    + intros a l Hl. apply (ext_lrs _ _ He). by apply lookup_app_l_Some.
    + simpl. by rewrite (ext_stack _ _ He).
    + intros k' v Hne. unfold in_progress. simpl.
      assert (in_progress st2 k' v <-> in_progress st k' v) as Hiff.
      { rewrite (ext_progress _ _ He). unfold in_progress, begin_parse. simpl.
        rewrite lookup_insert_ne by done.
        split; intros [Hk Hl]; (split; [done|]); destruct Hl as (l & s & Hl).
        - exists l, s. by rewrite lookup_app_l in Hl by eauto.
        - exists l, s. by apply lookup_app_l_Some. }
      rewrite <- Hiff. unfold in_progress.
      assert (ps_cache st2 !! k' = Some v -> v <> c) as Hvc.
      { intros Hk' ->. apply Hne. by eapply (inv_inj _ _ Hi). }
      split; intros [Hk Hl]; (split; [done|]); destruct Hl as (l & s & Hl); exists l, s.
      * by rewrite list_lookup_insert_ne in Hl by (apply not_eq_sym; auto).
      * by rewrite list_lookup_insert_ne by (apply not_eq_sym; auto).
Qed.

Lemma begin_uncached_run k st :
  k.1 = ps_stream st ->
  begin_uncached k st = Ok (length (ps_lrs st), begin_parse k st).
Proof. done. Qed.

Lemma end_uncached_run rec2 k c base r st lr :
  in_progress st k c -> ps_lrs st !! base = Some lr -> lr_head lr = None ->
  end_uncached rec2 lf continuation k base r st = Ok (r, put_right k r (end_parse c st)).
Proof.
  intros [Hk (l & s & Hc)] Hlr Hh. unfold end_uncached, end_parse. rewrite Hc.
  unfold mbind, ST_bind, modify, cache_get, gets, lift, load_value, load_lr, store_value.
  simpl. rewrite Hk. simpl. rewrite Hc. simpl. rewrite Hlr. destruct lr; simpl in *; by subst.
Qed.

Lemma recall_no_heads rec2 k st :
  ps_heads st = ∅ -> recall rec2 lf continuation k st = Ok (ps_cache st !! k, st).
Proof.
  intros Hh. unfold recall, cache_get, heads_get, mbind, ST_bind, gets. by rewrite Hh, lookup_empty.
Qed.

Lemma cache_lt n st k v : inv n st -> ps_cache st !! k = Some v -> (v < length (ps_values st))%nat.
Proof.
  intros Hi Hk. destruct (inv_cache _ _ Hi k v Hk) as (cv & Hv & _). by eapply lookup_lt_Some.
Qed.

(** A parse whose key is not in the cache. *)
Lemma uncached_ok n m k q st a s' :
  pure_continuation continuation ->
  (forall j m p, (j < n)%nat -> (j <= m)%nat ->
     sim j (fun _ => True) (peg continuation lf store j p) (h_do_parse continuation lf m p) res_rel) ->
  (n <= S m)%nat -> store !! k.2 = Some q -> memo_safe_env (p_env q) -> inv n st ->
  k.1 = ps_stream st -> (higher (p_env q) = true -> ps_cache st !! k = None) ->
  peg continuation lf store n (Some k.2) k.1 = Ok (a, s') ->
  exists b st', parse_uncached (h_do_parse continuation lf m) lf continuation k
                  (higher (p_env q)) st = Ok (b, st') /\
    ps_stream st' = s' /\ inv n st' /\ ext st st' /\ res_rel a b st'.
Proof.
  intros Hcont IH Hm Hq Hsafe Hi Hs Hhigh Hpeg.
  assert (Hnp : forall v, ~ in_progress st k v).
  { intros v [Hk (l & s & Hv)]. destruct (inv_cache _ _ Hi k v Hk) as (cv & Hv' & Hok).
    rewrite Hv in Hv'. injection Hv' as <-. by apply (Hok (a, s')). }
  destruct (peg_least _ _ _ _ _ _ _ Hpeg) as (j & Hj & Hpj & Hno).
  assert (Hbody : forall st1, inv j st1 -> ps_stream st1 = k.1 ->
    exists b st2, perform_lowlevel_parse (h_do_parse continuation lf m) lf continuation
                    (Some k.2) st1 = Ok (b, st2) /\
      ps_stream st2 = s' /\ inv j st2 /\ ext st1 st2 /\ res_rel a b st2).
  { intros st1 Hi1 Hs1. eapply perform_ok; [done|intros p; apply IH; lia|done..|].
    rewrite Hs1. cbn [peg] in Hpj. rewrite (parser_at_some _ _ Hq) in Hpj. exact Hpj. }
  unfold parse_uncached, key_parser. fold (snd k). destruct (higher (p_env q)).
  - specialize (Hhigh eq_refl). unfold mbind at 1, ST_bind at 1.
    rewrite (begin_uncached_run k st Hs).
    assert (inv j (begin_parse k st)) as Hi1 by (eapply begin_parse_inv; eauto with lia).
    destruct (Hbody (begin_parse k st) Hi1) as (b & st2 & E & Hs2 & Hi2 & He2 & Hr2); [done|].
    unfold mbind, ST_bind. rewrite E.
    destruct (end_parse_ok j k st st2) as [Hi3 He3]; [done..|by intros; eapply cache_lt|].
    set (c := length (ps_values st)) in *.
    assert (in_progress st2 k c).
    { apply (ext_progress _ _ He2). split; [apply lookup_insert_eq|].
      do 2 eexists. by apply list_lookup_middle. }
    rewrite (end_uncached_run _ _ c _ _ _ (mkLeftRec None k.2 None)).
    2: done.
    2: { apply (ext_lrs _ _ He2). by apply list_lookup_middle. }
    2: done.
    assert (res_rel a b (end_parse c st2)) as Hr3.
    { revert Hr2. unfold end_parse. by destruct a, b. }
    destruct (put_right_ok j n st (end_parse c st2) k a b) as [Hi4 He4]; [done..| |done|].
    { simpl. by rewrite Hs2. }
    do 2 eexists. split; [done|]. split_and!; [done..|]. by destruct a, b.
  - destruct (Hbody st) as (b & st2 & E & Hs2 & Hi2 & He2 & Hr2);
      [by eapply inv_le; [|exact Hi]; lia|done|].
    unfold mbind, ST_bind. rewrite E, put_right_run.
    destruct (put_right_ok j n st st2 k a b) as [Hi4 He4]; [done|done| |done| |done|].
    { by apply ext_ext_but. } { by rewrite Hs2. }
    do 2 eexists. split; [done|]. split_and!; [done..|]. by destruct a, b.
Qed.

Lemma do_parse_sim :
  pure_continuation continuation -> memo_safe store ->
  forall n m p, (n <= m)%nat ->
    sim n (fun _ => True) (peg continuation lf store n p) (h_do_parse continuation lf m p) res_rel.
Proof.
  intros Hcont Hsafe n. induction (lt_wf n) as [n _ IH].
  intros m p Hm st a s' Hi _ Hpeg.
  destruct n as [|n]; [discriminate|]. destruct m as [|m]; [lia|].
  pose proof Hpeg as Hp0. cbn [peg] in Hp0.
  apply ST_bind_ok in Hp0 as (q & s1 & Hq & _). apply lift_ok in Hq as [Hq _].
  destruct p as [p|]; [|discriminate].
  assert (store !! p = Some q) as Hst.
  { revert Hq. unfold parser_at. simpl. apply deref_ok. }
  assert (memo_safe_env (p_env q)) as Hsq by (by eapply Forall_lookup in Hst; [|exact Hsafe]).
  cbn [h_do_parse]. unfold h_do_parse_body. unfold mbind at 1, ST_bind at 1.
  unfold get at 1. unfold mbind at 1, ST_bind at 1. rewrite (inv_parsers _ _ Hi), Hq.
  unfold lift at 1. cbn [deref]. unfold mbind at 1, ST_bind at 1. unfold lift at 1.
  set (k := ((ps_stream st, p) : HParserCacheKey)).
  assert (Hun : (higher (p_env q) = true -> ps_cache st !! k = None) ->
    exists b st', parse_uncached (h_do_parse continuation lf m) lf continuation k
                  (higher (p_env q)) st = Ok (b, st') /\
    ps_stream st' = s' /\ inv (S n) st' /\ ext st st' /\ res_rel a b st').
  { intros Hc. eapply (uncached_ok (S n) m k); [done| |lia|done..].
    intros j m' p' Hj Hm'. by apply IH. }
  unfold mbind at 1, ST_bind at 1.
  destruct (higher (p_env q)) eqn:Hh.
  - rewrite recall_no_heads by apply Hi. destruct (ps_cache st !! k) as [v|] eqn:Hk.
    + destruct (inv_cache _ _ Hi k v Hk) as ([val s2] & Hv & Hok).
      assert (load_value v st = Ok (mkCacheValue val s2, st)) as Hload
        by (unfold load_value; by rewrite Hv).
      unfold mbind at 1, ST_bind at 1. rewrite Hload.
      unfold mbind at 1, ST_bind at 1. cbn [put_stream modify].
      destruct val as [l|r]; cbn [cv_value cv_stream] in *.
      * destruct (Hok (a, s') Hpeg).
      * destruct Hok as (j & a' & Hj & Hr). simpl in Hj.
        pose proof (peg_det _ _ _ _ _ _ _ _ _ Hj Hpeg) as [= -> ->].
        do 2 eexists. split; [done|].
        split_and!; [done|by apply inv_set_stream|by apply ext_set_stream|].
        eapply res_rel_ext; [apply ext_set_stream|done].
    + by apply Hun.
  - by apply Hun.
Qed.
End correct.

(** * Theorems *)

Lemma initial_inv continuation lf store n s :
  inv continuation lf store n (initial_state store s).
Proof.
  split; try done; simpl.
  - repeat constructor. by apply fresh_new_leaf.
  - eexists. split; [done|]. done.
Qed.

(** C18: packrat parsing refines the specification: when [peg] gives a result,
    the memoising parser started on an empty cache returns the same token or
    failure and ends at the same place in the stream, with its left recursion
    stack empty again. *)
Theorem packrat_refines_peg continuation lf store n m p s a s' :
  pure_continuation continuation -> memo_safe store -> (n <= m)%nat ->
  peg continuation lf store n p s = Ok (a, s') ->
  exists r st, h_packrat_parse continuation lf m store p s = Ok (r, st) /\
    ast <$> r = a /\ ps_stream st = s' /\ ps_lr_stack st = [].
Proof.
  intros Hcont Hsafe Hm Hpeg.
  edestruct (do_parse_sim continuation lf store Hcont Hsafe n m p Hm (initial_state store s))
    as (b & st & E & Hs & Hi & He & Hr); [apply initial_inv|done|exact Hpeg|].
  unfold h_packrat_parse. rewrite E. cbn [mbind outcome_bind].
  pose proof (ext_stack _ _ He) as Hstack.
  destruct b as [x|], a as [t|]; try done.
  - destruct Hr as (br & Hx & Ht). unfold result_at. simpl. rewrite Hx.
    eexists _, _. split; [done|]. simpl. by rewrite Ht.
  - eexists _, _. split; [done|]. done.
Qed.

(** The states that parses leave: the first one, and those after any parses of any
    parsers of the graph, at any places of any streams, for which the specification
    gives a result with [n] fuel. *)
Inductive warm (continuation : nat -> option HParsedToken -> Z -> PM ptr) (lf : nat) (store : list HParser) (n : nat)
    : HParseState -> Prop :=
| warm_start s : warm continuation lf store n (initial_state store s)
| warm_parse m p s a s' st r st' :
    warm continuation lf store n st -> (n <= m)%nat -> peg continuation lf store n p s = Ok (a, s') ->
    h_do_parse continuation lf m p (set_stream s st) = Ok (r, st') -> warm continuation lf store n st'.

Lemma warm_inv continuation lf store n st :
  pure_continuation continuation -> memo_safe store -> warm continuation lf store n st -> inv continuation lf store n st.
Proof.
  intros Hcont Hsafe. induction 1 as [s|m p s a s' st r st' _ IH Hm Hpeg E]; [apply initial_inv|].
  edestruct (do_parse_sim continuation lf store Hcont Hsafe n m p Hm (set_stream s st))
    as (r' & st1 & E' & _ & Hi & _); [by apply inv_set_stream|done|exact Hpeg|].
  rewrite E in E'. by injection E' as <- <-.
Qed.


(** * Witnesses *)

(** The balanced parentheses of [paren_store], which need no continuation. *)
Definition no_bind : nat -> option HParsedToken -> Z -> PM ptr := fun _ _ _ => mret None.

Lemma no_bind_pure : pure_continuation no_bind.
Proof. by intros k t e ps kx ps' [= _ ->]. Qed.

Lemma paren_store_safe : memo_safe paren_store.
Proof. repeat constructor. Qed.

Lemma packrat_refines_peg_witness :
  exists r st, h_packrat_parse no_bind 9 30 paren_store (Some 6%nat)
      (buffer_stream [40; 40; 120; 41; 41]) = Ok (r, st) /\
    is_Some r /\ bit_pos (ps_stream st) = 40 /\ ps_lr_stack st = [].
Proof.
  edestruct (packrat_refines_peg no_bind 9 paren_store 30 30 (Some 6%nat)
    (buffer_stream [40; 40; 120; 41; 41])) as (r & st & E & Hr & Hs & Hl);
    [exact no_bind_pure|exact paren_store_safe|reflexivity|vm_compute; reflexivity|].
  exists r, st. split; [exact E|]. rewrite Hs. split; [|split; [reflexivity|exact Hl]].
  destruct r; [by eexists|discriminate].
Defined.

(** "((x))" at its second character: the group there is parsed first, then the whole
    with the cache that this has left. *)
Definition inner_place : HInputStream := mkStream [40; 40; 120; 41; 41] 0 1 5 0 0 3 false true.

