(* ===== verification/PackratDefects.v ===== *)
(** The packrat parser on concrete grammars: left recursion, and where the code
    departs from its documentation. *)

From S2P Require Import Prelude Stream BitWriter Charset CArray Token Parser Combinators.
From S2P Require Import Packrat.

Definition no_cont : nat -> option HParsedToken -> Z -> PM ptr := fun _ _ _ => mret None.

(** Build a parser and run h_packrat_parse on a buffer. *)
Definition packrat_parse (m : PM ptr) (input : list Z) : outcome (option HParseResult) :=
  '(p, st) ← m initial_store;
  '(r, _) ← h_packrat_parse no_cont 50 50 st p (buffer_stream input);
  Ok r.

(** * Left recursion *)

(** E -> E '-' digit | digit, then the end of the input *)
Definition minus_grammar : PM ptr :=
  d ← h_ch_range__m 48 57;
  m ← h_ch__m 45;
  e ← h_indirect__m;
  s ← h_sequence__mv e [m; d; None];
  c ← h_choice__mv s [d; None];
  _ ← h_bind_indirect e c;
  z ← h_end_p__m;
  h_left__m e z.

(** The shape of a token: sequences as lists of shapes, numbers as themselves. *)
Inductive shape := Num (n : Z) | Nil | Cons (x s : shape) | Other.
Fixpoint shape_of (fuel : nat) (t : option HParsedToken) : shape :=
  match fuel, t with
  | S fuel, Some t =>
      match tok_data t with
      | TT_UINT n => Num n
      | TT_SEQUENCE s => foldr (fun x s => Cons (shape_of fuel x) s) Nil (ca_contents s)
      | _ => Other
      end
  | _, _ => Other
  end.

(** Left recursion is parsed by growing a seed: the grammar of subtraction,
    whose rule starts with itself, parses "1-2-3" to the left-associative tree,
    and does not accept "1-". *)
Theorem h_do_parse_left_recursion :
  (exists r, packrat_parse minus_grammar [49; 45; 50; 45; 51] = Ok (Some r) /\
     shape_of 9 (ast r) = 
       Cons (Cons (Num 49) (Cons (Num 45) (Cons (Num 50) Nil))) (Cons (Num 45) (Cons (Num 51) Nil))) /\
  packrat_parse minus_grammar [49; 45] = Ok None.
Proof. split; [eexists; split|]; vm_compute; reflexivity. Qed.

(** * Lengths *)

Definition two_chars (f : ptr -> ptr -> PM ptr) : PM ptr :=
  a ← h_ch__m 97; b ← h_ch__m 97; f a b.

(** The documentation of h_butnot and of h_difference (src/src/hammer.h) are
    each other's: on two matches of the same length h_butnot fails and
    h_difference succeeds. *)
Theorem h_butnot_difference_same_length :
  packrat_parse (two_chars h_butnot__m) [97] = Ok None /\
  packrat_parse (two_chars h_difference__m) [97] =
    Ok (Some (mkResult (Some (new_tok (TT_UINT 97))) 8)).
Proof. split; vm_compute; reflexivity. Qed.

(** 'a' 'b', with the result of 'a' *)
Definition left_ab (f : ptr -> ptr -> PM ptr) : PM ptr :=
  a ← h_ch__m 97; b ← h_ch__m 98; l ← h_left__m a b; f l a.

(** A result that is handed on keeps the length of the inner match: h_left of
    two characters counts as one character long, and h_butnot rejects the
    16-bit match of "ab" against the 8-bit match of "a". *)
Theorem h_butnot_forwarded_length :
  packrat_parse (left_ab (fun l _ => mret l)) [97; 98] =
    Ok (Some (mkResult (Some (new_tok (TT_UINT 97))) 8)) /\
  packrat_parse (left_ab h_butnot__m) [97; 98] = Ok None.
Proof. split; vm_compute; reflexivity. Qed.

(** * Repetitions that do not advance *)

Lemma h_do_parse_epsilon lf fuel e q st :
  ps_parsers st !! e = Some q -> p_env q = epsilon_vt -> is_overrun (ps_stream st) = false ->
  exists r st', h_do_parse no_cont lf (S fuel) (Some e) st = Ok (Some r, st') /\
    ps_parsers st' = ps_parsers st /\ ps_stream st' = ps_stream st /\
    ps_results st' !! r = Some (mkResult None 0).
Proof.
  intros Hq He Ho. destruct st as [ps c s l h sy rs vs ls hs]. simpl in *.
  exists (length rs). eexists. cbn [h_do_parse].
  unfold h_do_parse_body, mbind, ST_bind, get, gets, lift, parser_at. simpl.
  rewrite Hq. simpl. rewrite He. simpl. unfold parse_uncached. simpl.
  unfold perform_lowlevel_parse, mbind, ST_bind, gets, get, lift, parser_at. simpl.
  rewrite Hq. simpl. rewrite He. simpl.
  unfold parse_epsilon, new_result, finish_result, load_result, result_at, store_result,
    mbind, ST_bind, gets, modify. simpl.
  rewrite list_lookup_middle by done. simpl. rewrite Z.sub_diag. simpl.
  change (sint64 (uint64 0)) with 0. rewrite Ho. simpl. rewrite Ho.
  unfold cache_result, cached_result, new_value, cache_put, mbind, ST_bind, gets, modify. simpl.
  split; [reflexivity|]. simpl. split_and!; try done.
  rewrite list_lookup_insert_eq by (rewrite length_app; simpl; lia). done.
Qed.

Lemma many_loop_epsilon lf env e q fuel st seq count bak :
  rp_min_p env = true -> rp_sep env = None -> rp_p env = Some e ->
  ps_parsers st !! e = Some q -> p_env q = epsilon_vt -> is_overrun (ps_stream st) = false ->
  many_loop (h_do_parse no_cont lf (S fuel)) lf env seq count bak st = OutOfFuel.
Proof.
  intros Hm Hs Hp Hq He Ho. generalize lf at 2 as k. intros k.
  revert st seq count bak Hq Ho. induction k as [|k IH]; intros st seq count bak Hq Ho;
    cbn [many_loop]; rewrite Hm; cbn [orb]; [done|].
  rewrite Hs, bool_decide_false, andb_false_r by (by intros H). rewrite Hp.
  destruct (h_do_parse_epsilon lf fuel e q st Hq He Ho) as (r & st' & E & Hps & Hst & Hr).
  unfold mbind, ST_bind, gets, mret, ST_ret. cbn iota beta. cbn [negb].
  match goal with |- context [h_do_parse no_cont lf (S fuel) (Some e) st] => rewrite E end.
  unfold load_result, result_at. simpl. rewrite Hr. simpl.
  apply IH; [by rewrite Hps|by rewrite Hst].
Qed.

Lemma many_loop_no_fuel lf env seq count bak st :
  rp_min_p env = true -> rp_sep env = None ->
  many_loop (h_do_parse no_cont lf 0) lf env seq count bak st = OutOfFuel.
Proof.
  intros Hm Hs. destruct lf as [|k] eqn:E at 2; cbn [many_loop]; rewrite Hm; cbn [orb]; [done|].
  rewrite Hs, bool_decide_false, andb_false_r by (by intros H). done.
Qed.

(** The first call of h_packrat_parse enters the parser itself. *)
Lemma packrat_enters lf fuel ps p q s :
  ps !! p = Some q -> higher (p_env q) = true ->
  (forall st, ps_parsers st = ps -> ps_stream st = s ->
     vt_parse (h_do_parse no_cont lf fuel) lf no_cont (p_env q) st = OutOfFuel) ->
  h_packrat_parse no_cont lf (S fuel) ps (Some p) s = OutOfFuel.
Proof.
  intros Hq Hh Hv. unfold h_packrat_parse. cbn [h_do_parse]. unfold h_do_parse_body.
  unfold mbind, ST_bind, get, gets, lift, parser_at, outcome_bind. simpl. rewrite Hq. simpl. rewrite Hh.
  unfold recall, cache_get, heads_get, mbind, ST_bind, gets. simpl. rewrite !lookup_empty.
  simpl. unfold parse_uncached, begin_uncached, new_lr, cached_lr, new_value, cache_put,
    perform_lowlevel_parse, modify, mbind, ST_bind, get, gets, lift, parser_at. simpl.
  rewrite Hq. simpl. by rewrite Hv.
Qed.

(** A repetition of a parser that can succeed without input never ends:
    h_many of epsilon exhausts every bound on the depth of the recursion and on
    the number of rounds, on every input. *)
Theorem h_many_epsilon_diverges lf fuel s :
  is_overrun s = false ->
  exists p st, (e ← h_epsilon_p__m; h_many__m e) initial_store = Ok (p, st) /\
    h_packrat_parse no_cont lf fuel st p s = OutOfFuel.
Proof.
  intros Ho. do 2 eexists. split; [reflexivity|]. destruct fuel as [|fuel]; [done|].
  eapply packrat_enters; [reflexivity|done|]. intros st Hps Hs.
  cbn [vt_parse p_env]. unfold parse_many, mbind at 1, ST_bind at 1, gets.
  unfold mbind, ST_bind.
  match goal with |- context [many_loop ?d ?k ?env ?seq 0 ?b st] =>
    assert (many_loop d k env seq 0 b st = OutOfFuel) as -> end; [|done].
  destruct fuel as [|fuel]; [by apply many_loop_no_fuel|].
  eapply many_loop_epsilon; [done..|by rewrite Hps|done|by rewrite Hs].
Qed.

(** * Witness *)

Lemma h_many_epsilon_diverges_witness :
  exists p st, (e ← h_epsilon_p__m; h_many__m e) initial_store = Ok (p, st) /\
    h_packrat_parse no_cont 50 50 st p (buffer_stream [97]) = OutOfFuel.
Proof. apply (h_many_epsilon_diverges 50 50 (buffer_stream [97])). reflexivity. Defined.
