(* ===== verification/HashTable.v ===== *)
(** Hash tables (src/src/datastructures.c: h_hashtable_*, h_hashset_equal,
    h_djbhash, h_hash_ptr; src/src/internal.h: HHashTable).

    A bucket is the chain of entries from [contents[i]] on; a NULL key marks
    an entry that is not there. The two functions of a table are parameters:
    [hashFunc], and [equalFunc], which compares a key with a possibly NULL one.
    Tables without deletions are proved to be finite maps ([MapImpl]), and the
    behaviour of deletions is shown by example. *)

From S2P Require Import Prelude.

Record HHashTableEntry (K V : Type) := mkEntry {
  he_key : option K;
  he_value : option V;
  he_hashval : Z;
}.
Arguments mkEntry {K V}.
Arguments he_key {K V}.
Arguments he_value {K V}.
Arguments he_hashval {K V}.

Record HHashTable (K V : Type) := mkTable {
  ht_contents : list (list (HHashTableEntry K V));
  ht_capacity : Z;
  ht_used : Z;
}.
Arguments mkTable {K V}.
Arguments ht_contents {K V}.
Arguments ht_capacity {K V}.
Arguments ht_used {K V}.

(** [h_djbhash] over a byte buffer. *)
Definition h_djbhash (buf : list Z) : Z :=
  foldl (fun hash b => uint32 (hash * 33 + b)) 5381 buf.
(** [h_hash_ptr] and [h_eq_ptr] on addresses. *)
Definition h_hash_ptr (p : Z) : Z := uint32 (Z.shiftr p 4).
Definition h_eq_ptr (p q : Z) : bool := p =? q.

Section hashtable.
Context {K V : Type}.
Context (hashFunc : K -> Z) (equalFunc : K -> option K -> outcome bool).

Abbreviation entry := (HHashTableEntry K V).
Abbreviation table := (HHashTable K V).

Definition empty_entry : entry := mkEntry None None 0.

Definition h_hashtable_new : table := mkTable (replicate 64 [empty_entry]) 64 0.

(** [&ht->contents[hashval & (ht->capacity - 1)]] *)
Definition bucket_index (capacity hashval : Z) : nat :=
  Z.to_nat (Z.land hashval (capacity - 1)).

(** [hte->hashval == hashval && equalFunc(key, hte->key)] *)
Definition entry_matches (key : K) (hashval : Z) (e : entry) : outcome bool :=
  if he_hashval e =? hashval then equalFunc key (he_key e) else Ok false.

Fixpoint bucket_get (key : K) (hashval : Z) (b : list entry) : outcome (option V) :=
  match b with
  | [] => Ok None
  | e :: b =>
      match he_key e with
      | None => bucket_get key hashval b
      | Some _ =>
          hit ← entry_matches key hashval e;
          if (hit : bool) then Ok (he_value e) else bucket_get key hashval b
      end
  end.

Definition h_hashtable_get (ht : table) (key : K) : outcome (option V) :=
  let hashval := hashFunc key in
  b ← deref OutOfBounds (ht_contents ht !! bucket_index (ht_capacity ht) hashval);
  bucket_get key hashval b.

(** The walk of [put_raw]: overwrite the matching entry or add a link. *)
Fixpoint bucket_put (key : K) (new_entry : entry) (b : list entry)
    : outcome (list entry * bool) :=
  match b with
  | [] => Ok ([new_entry], true)
  | e :: b =>
      hit ← entry_matches key (he_hashval new_entry) e;
      if (hit : bool) then Ok (new_entry :: b, false)
      else '(b', added) ← bucket_put key new_entry b; Ok (e :: b', added)
  end.

Definition h_hashtable_put_raw (ht : table) (key : K) (value : option V) (hashval : Z)
    : outcome table :=
  let new_entry := mkEntry (Some key) value hashval in
  let i := bucket_index (ht_capacity ht) hashval in
  b ← deref OutOfBounds (ht_contents ht !! i);
  hte ← deref OutOfBounds (head b);
  '(b', added) ←
    (match he_key hte with
     | Some _ => bucket_put key new_entry b
     | None => Ok (new_entry :: tail b, true)
     end);
  Ok (mkTable (<[i := b']> (ht_contents ht)) (ht_capacity ht)
        (if (added : bool) then ht_used ht + 1 else ht_used ht)).

(** [while (n * 1.3 > ht->capacity) ht->capacity *= 2]; no capacity is a
    multiple of 13, so the comparison is the exact one. *)
Fixpoint grow_capacity (fuel : nat) (n capacity : Z) : outcome Z :=
  if capacity * 10 <? n * 13 then
    match fuel with
    | O => OutOfFuel
    | S fuel => grow_capacity fuel n (capacity * 2)
    end
  else Ok capacity.

(** The entries of a list of chains, put again one by one. *)
Fixpoint put_entries (ht : table) (es : list entry) : outcome table :=
  match es with
  | [] => Ok ht
  | e :: es =>
      match he_key e with
      | None => put_entries ht es
      | Some key =>
          ht ← h_hashtable_put_raw ht key (he_value e) (he_hashval e); put_entries ht es
      end
  end.

Definition h_hashtable_ensure_capacity (ht : table) (n : Z) : outcome table :=
  capacity ← grow_capacity (Z.to_nat n) n (ht_capacity ht);
  if capacity =? ht_capacity ht then Ok ht
  else put_entries (mkTable (replicate (Z.to_nat capacity) [empty_entry]) capacity 0)
         (mjoin (ht_contents ht)).

Definition h_hashtable_put (ht : table) (key : K) (value : option V) : outcome table :=
  ht ← h_hashtable_ensure_capacity ht (ht_used ht + 1);
  h_hashtable_put_raw ht key value (hashFunc key).

Fixpoint update_entries (dst : table) (es : list entry) : outcome table :=
  match es with
  | [] => Ok dst
  | e :: es =>
      match he_key e with
      | None => update_entries dst es
      | Some key => dst ← h_hashtable_put dst key (he_value e); update_entries dst es
      end
  end.
Definition h_hashtable_update (dst src : table) : outcome table :=
  update_entries dst (mjoin (ht_contents src)).

Fixpoint merge_entries (combine : option V -> option V -> option V) (dst : table)
    (es : list entry) : outcome table :=
  match es with
  | [] => Ok dst
  | e :: es =>
      match he_key e with
      | None => merge_entries combine dst es
      | Some key =>
          dstvalue ← h_hashtable_get dst key;
          dst ← h_hashtable_put dst key (combine dstvalue (he_value e));
          merge_entries combine dst es
      end
  end.
Definition h_hashtable_merge (combine : option V -> option V -> option V) (dst src : table)
    : outcome table :=
  merge_entries combine dst (mjoin (ht_contents src)).

(** [present] and [del] compare a NULL key like any other. *)
Fixpoint bucket_present (key : K) (hashval : Z) (b : list entry) : outcome bool :=
  match b with
  | [] => Ok false
  | e :: b =>
      hit ← entry_matches key hashval e;
      if (hit : bool) then Ok true else bucket_present key hashval b
  end.
Definition h_hashtable_present (ht : table) (key : K) : outcome bool :=
  let hashval := hashFunc key in
  b ← deref OutOfBounds (ht_contents ht !! bucket_index (ht_capacity ht) hashval);
  bucket_present key hashval b.

(** The entry is overwritten by its successor, or emptied when it is last. *)
Fixpoint bucket_del (key : K) (hashval : Z) (b : list entry) : outcome (list entry) :=
  match b with
  | [] => Ok []
  | e :: b =>
      hit ← entry_matches key hashval e;
      if (hit : bool) then Ok (match b with [] => [empty_entry] | _ => b end)
      else b' ← bucket_del key hashval b; Ok (e :: b')
  end.
Definition h_hashtable_del (ht : table) (key : K) : outcome table :=
  let hashval := hashFunc key in
  let i := bucket_index (ht_capacity ht) hashval in
  b ← deref OutOfBounds (ht_contents ht !! i);
  b' ← bucket_del key hashval b;
  Ok (mkTable (<[i := b']> (ht_contents ht)) (ht_capacity ht) (ht_used ht)).

Definition h_hashtable_empty (ht : table) : bool := ht_used ht =? 0.

(** [while(xs && xs->key == NULL) xs=xs->next] *)
Fixpoint skip_null (b : list entry) : list entry :=
  match b with
  | [] => []
  | e :: b' => match he_key e with None => skip_null b' | Some _ => b end
  end.

(** The loop of [hte_same_length], on chains that shrink in every round. *)
Fixpoint hte_same_length (fuel : nat) (xs ys : list entry) : outcome bool :=
  match xs, ys with
  | _ :: xs', _ :: ys' =>
      match fuel with
      | O => OutOfFuel
      | S fuel => hte_same_length fuel (skip_null xs') (skip_null ys')
      end
  | [], [] => Ok true
  | _, _ => Ok false
  end.

(** Is there an entry of [ys] for this key? (The shortcut on equal pointers
    is the same test: a key equals itself.) *)
Fixpoint hte_find (key : K) (hashval : Z) (ys : list entry) : outcome bool :=
  match ys with
  | [] => Ok false
  | hte :: ys =>
      hit ← entry_matches key hashval hte;
      if (hit : bool) then Ok true else hte_find key hashval ys
  end.
Fixpoint hte_subset (xs ys : list entry) : outcome bool :=
  match xs with
  | [] => Ok true
  | x :: xs =>
      match he_key x with
      | None => hte_subset xs ys
      | Some key =>
          found ← hte_find key (he_hashval x) ys;
          if (found : bool) then hte_subset xs ys else Ok false
      end
  end.
Definition hte_equal (xs ys : list entry) : outcome bool :=
  b ← hte_same_length (length xs) xs ys;
  if (b : bool) then hte_subset xs ys else Ok false.

Fixpoint buckets_equal (bs1 bs2 : list (list entry)) : outcome bool :=
  match bs1, bs2 with
  | xs :: bs1, ys :: bs2 =>
      b ← hte_equal xs ys;
      if (b : bool) then buckets_equal bs1 bs2 else Ok false
  | _, _ => Ok true
  end.
Definition h_hashset_equal (a b : table) : outcome bool :=
  _ ← assert_ok (ht_capacity a =? ht_capacity b);
  buckets_equal (ht_contents a) (ht_contents b).
End hashtable.

(** * Tables as finite maps *)

(** What a table promises its users: lookups and insertions of a finite map.
    [mi_rep t m] says that the table [t] stands for the map [m]. *)
Class MapImpl (T K V : Type) `{Countable K} := {
  mi_rep : T -> gmap K V -> Prop;
  mi_new : T;
  mi_get : T -> K -> outcome (option V);
  mi_put : T -> K -> V -> outcome T;
  mi_new_rep : mi_rep mi_new ∅;
  mi_get_rep t m k : mi_rep t m -> mi_get t k = Ok (m !! k);
  mi_put_rep t m k v : mi_rep t m ->
    exists t', mi_put t k v = Ok t' /\ mi_rep t' (<[k := v]> m);
}.

Section refinement.
Context {K V : Type} `{Countable K}.
Context (hashFunc : K -> Z) (equalFunc : K -> option K -> outcome bool).
Context (Hhash : forall k, 0 <= hashFunc k < 2 ^ 32).
Context (Hequal : forall k k', equalFunc k (Some k') = Ok (bool_decide (k = k'))).

Abbreviation entry := (HHashTableEntry K V).
Abbreviation table := (HHashTable K V).

(** The live entries of a chain, as an association list. *)
Fixpoint live (b : list entry) : list (K * option V) :=
  match b with
  | [] => []
  | e :: b => match he_key e with Some k => (k, he_value e) :: live b | None => live b end
  end.

(** A chain without deleted links: one empty entry, or distinct keys that
    belong to this bucket. *)
Definition bucket_ok (capacity : Z) (i : nat) (b : list entry) : Prop :=
  b = [empty_entry] \/
  (b <> [] /\ NoDup (live b).*1 /\
   Forall (fun e => exists k, he_key e = Some k /\ he_hashval e = hashFunc k /\
                    bucket_index capacity (hashFunc k) = i) b).

Record table_wf (t : table) : Prop := {
  twf_capacity : exists j, 6 <= j /\ ht_capacity t = 2 ^ j;
  twf_length : length (ht_contents t) = Z.to_nat (ht_capacity t);
  twf_buckets : forall i b, ht_contents t !! i = Some b -> bucket_ok (ht_capacity t) i b;
}.

Definition assoc (k : K) (l : list (K * option V)) : option V :=
  match list_find (fun x => x.1 = k) l with Some (_, x) => x.2 | None => None end.

Lemma assoc_cons k k' v l : assoc k ((k', v) :: l) = if decide (k' = k) then v else assoc k l.
Proof.
  unfold assoc. simpl. destruct (decide (k' = k)); simpl; [done|].
  by destruct (list_find _ l) as [[]|].
Qed.

Lemma bucket_index_lt c h : (exists j, 6 <= j /\ c = 2 ^ j) -> 0 <= h ->
  (bucket_index c h < Z.to_nat c)%nat.
Proof.
  intros (j & Hj & ->) Hh. unfold bucket_index. rewrite land_ones_mod by lia.
  pose proof (Z.mod_pos_bound h (2 ^ j)). lia.
Qed.

Lemma live_bucket_cases c i b :
  bucket_ok c i b -> b = [empty_entry] \/
    (exists e b', b = e :: b' /\ is_Some (he_key e)) /\
    NoDup (live b).*1 /\
    Forall (fun e => exists k, he_key e = Some k /\ he_hashval e = hashFunc k /\
                    bucket_index c (hashFunc k) = i) b.
Proof.
  intros [->|(Hne & Hnd & Hall)]; [by left|right]. split; [|done].
  destruct b as [|e b]; [done|]. exists e, b. split; [done|].
  apply Forall_cons_1 in Hall as [(k & Hk & _) _]. by rewrite Hk.
Qed.

Lemma bucket_get_live key b :
  Forall (fun e => exists k, he_key e = Some k /\ he_hashval e = hashFunc k) b ->
  bucket_get equalFunc key (hashFunc key) b = Ok (assoc key (live b)).
Proof.
  induction 1 as [|e b (k & Hk & Hv) _ IH]; [done|]. cbn [bucket_get live].
  rewrite Hk, assoc_cons. unfold entry_matches. rewrite Hv, Hk.
  destruct (Z.eqb_spec (hashFunc k) (hashFunc key)) as [E|E].
  - rewrite Hequal. cbn [mbind outcome_bind].
    destruct (decide (k = key)) as [->|Hne]; [by rewrite bool_decide_true|].
    by rewrite bool_decide_false.
  - cbn [mbind outcome_bind]. rewrite decide_False; [done|]. by intros ->.
Qed.

Lemma bucket_put_live key value b c i :
  Forall (fun e => exists k, he_key e = Some k /\ he_hashval e = hashFunc k /\
                    bucket_index c (hashFunc k) = i) b ->
  NoDup (live b).*1 -> bucket_index c (hashFunc key) = i ->
  exists b' added, bucket_put equalFunc key (mkEntry (Some key) value (hashFunc key)) b =
      Ok (b', added) /\ b' <> [] /\
    Forall (fun e => exists k, he_key e = Some k /\ he_hashval e = hashFunc k /\
                    bucket_index c (hashFunc k) = i) b' /\
    NoDup (live b').*1 /\
    (forall k, k ∈ (live b').*1 <-> k = key \/ k ∈ (live b).*1) /\
    (forall k, assoc k (live b') = if decide (k = key) then value else assoc k (live b)).
Proof.
  intros Hall. revert i Hall. induction b as [|e b IH]; intros i Hall Hnd Hi.
  - do 2 eexists. split; [done|]. split; [done|]. split_and!.
    + repeat constructor. by exists key.
    + simpl. apply NoDup_singleton.
    + intros k. simpl. rewrite list_elem_of_singleton. split; [by left|]. by intros [->|?%elem_of_nil].
    + intros k. simpl. rewrite assoc_cons. destruct (decide (key = k)), (decide (k = key)); congruence.
  - apply Forall_cons_1 in Hall as [(k0 & Hk0 & Hv0 & Hi0) Hall'].
    cbn [bucket_put]. unfold entry_matches. cbn [he_hashval]. rewrite Hv0, Hk0.
    assert (Hhit : (if hashFunc k0 =? hashFunc key then equalFunc key (Some k0) else Ok false) =
      Ok (bool_decide (key = k0))).
    { destruct (Z.eqb_spec (hashFunc k0) (hashFunc key)); [apply Hequal|].
      rewrite bool_decide_false; [done|]. by intros ->. }
    rewrite Hhit. cbn [mbind outcome_bind]. cbn [live] in *. rewrite Hk0 in *.
    simpl in Hnd. apply list.NoDup_cons in Hnd as [Hnin Hnd].
    destruct (decide (key = k0)) as [->|Hne].
    + rewrite bool_decide_true by done. do 2 eexists. split; [done|]. split; [done|]. split_and!.
      * constructor; [by exists k0|done].
      * simpl. by constructor.
      * intros k. simpl. rewrite elem_of_cons. tauto.
      * intros k. simpl. rewrite !assoc_cons.
        destruct (decide (k0 = k)), (decide (k = k0)); congruence.
    + rewrite bool_decide_false by done.
      destruct (IH i Hall' Hnd Hi) as (b' & added & E & Hb' & Hall2 & Hnd2 & Hel & Has).
      rewrite E. cbn [mbind outcome_bind]. do 2 eexists. split; [done|]. split; [done|].
      cbn [live]. rewrite Hk0. split_and!.
      * constructor; [by exists k0|done].
      * simpl. constructor; [|done]. rewrite Hel. intros [->|]; done.
      * intros k. simpl. rewrite !elem_of_cons, Hel. tauto.
      * intros k. rewrite !assoc_cons, Has.
        destruct (decide (k0 = k)), (decide (k = key)); congruence.
Qed.

(** ** Lookups and single insertions *)

Definition ht_bucket (t : table) (k : K) : list entry :=
  default [] (ht_contents t !! bucket_index (ht_capacity t) (hashFunc k)).
Definition ht_lookup (t : table) (k : K) : option V := assoc k (live (ht_bucket t k)).

Lemma bucket_lookup t k :
  table_wf t -> ht_contents t !! bucket_index (ht_capacity t) (hashFunc k) = Some (ht_bucket t k) /\
    bucket_ok (ht_capacity t) (bucket_index (ht_capacity t) (hashFunc k)) (ht_bucket t k).
Proof.
  intros Hwf. unfold ht_bucket.
  destruct (lookup_lt_is_Some_2 (ht_contents t) (bucket_index (ht_capacity t) (hashFunc k)))
    as [b Hb].
  - rewrite (twf_length _ Hwf). apply bucket_index_lt; [apply Hwf|apply Hhash].
  - rewrite Hb. split; [done|]. by eapply twf_buckets.
Qed.

Lemma h_hashtable_get_lookup t k :
  table_wf t -> h_hashtable_get hashFunc equalFunc t k = Ok (ht_lookup t k).
Proof.
  intros Hwf. destruct (bucket_lookup t k Hwf) as [Hb Hok]. unfold h_hashtable_get, ht_lookup.
  rewrite Hb. cbn [deref mbind outcome_bind].
  destruct (live_bucket_cases _ _ _ Hok) as [->|(_ & _ & Hall)]; [done|].
  apply bucket_get_live. eapply list.Forall_impl; [exact Hall|]. intros e (k' & ? & ? & _). eauto.
Qed.

Lemma put_raw_ok t key value :
  table_wf t ->
  exists t', h_hashtable_put_raw equalFunc t key value (hashFunc key) = Ok t' /\
    table_wf t' /\ ht_capacity t' = ht_capacity t /\
    forall k, ht_lookup t' k = if decide (k = key) then value else ht_lookup t k.
Proof.
  intros Hwf. destruct (bucket_lookup t key Hwf) as [Hb Hok]. unfold h_hashtable_put_raw.
  rewrite Hb. cbn [deref mbind outcome_bind].
  set (i := bucket_index (ht_capacity t) (hashFunc key)) in *.
  set (ne := mkEntry (Some key) value (hashFunc key)).
  assert (Hbucket : exists b' added,
    (match head (ht_bucket t key) with
     | Some hte => match he_key hte with
                   | Some _ => bucket_put equalFunc key ne (ht_bucket t key)
                   | None => Ok (ne :: tail (ht_bucket t key), true)
                   end
     | None => Fault OutOfBounds
     end) = Ok (b', added) /\ bucket_ok (ht_capacity t) i b' /\
    forall k, assoc k (live b') =
      if decide (k = key) then value else assoc k (live (ht_bucket t key))).
  { destruct (live_bucket_cases _ _ _ Hok) as [->|((e & b & He & [k0 Hk0]) & Hnd & Hall)].
    - simpl. do 2 eexists. split; [done|]. split.
      + right. split; [done|]. split; [apply NoDup_singleton|]. repeat constructor.
        by exists key.
      + intros k. simpl. rewrite assoc_cons.
        destruct (decide (key = k)), (decide (k = key)); congruence.
    - destruct (bucket_put_live key value (ht_bucket t key) _ i Hall Hnd eq_refl)
        as (b' & added & E & Hne & Hall' & Hnd' & _ & Has).
      exists b', added. rewrite He in *. cbn [head]. rewrite Hk0. split; [exact E|]. split; [|done].
      by right. }
  destruct Hbucket as (b' & added & E & Hok' & Has).
  destruct (head (ht_bucket t key)) as [hte|]; [|discriminate].
  cbn [deref mbind outcome_bind]. rewrite E. cbn [mbind outcome_bind].
  pose proof (lookup_lt_Some _ _ _ Hb) as Hlt.
  eexists. split; [done|]. split_and!.
  - destruct Hwf as [H1 H2 H3]. split; simpl; [done|by rewrite length_insert|].
    intros i' b Hi'. destruct (decide (i = i')) as [<-|Hne].
    + rewrite list_lookup_insert_eq in Hi' by done. by injection Hi' as <-.
    + rewrite list_lookup_insert_ne in Hi' by done. by eapply H3.
  - done.
  - intros k. unfold ht_lookup, ht_bucket. simpl.
    destruct (decide (i = bucket_index (ht_capacity t) (hashFunc k))) as [Hi|Hne].
    + rewrite <- Hi, list_lookup_insert_eq by done. simpl. rewrite Has.
      by rewrite Hb.
    + rewrite list_lookup_insert_ne by done. destruct (decide (k = key)) as [->|]; done.
Qed.

(** ** Growth *)

Lemma empty_wf c : (exists j, 6 <= j /\ c = 2 ^ j) ->
  table_wf (mkTable (replicate (Z.to_nat c) [empty_entry]) c 0).
Proof.
  intros Hc. split; simpl; [done|by rewrite length_replicate|].
  intros i b Hb. apply lookup_replicate in Hb as [-> _]. by left.
Qed.

Lemma empty_lookup c k :
  ht_lookup (mkTable (replicate (Z.to_nat c) [empty_entry]) c 0) k = None.
Proof.
  unfold ht_lookup, ht_bucket. simpl.
  destruct (replicate _ _ !! _) eqn:E; simpl; [|done].
  by apply lookup_replicate in E as [-> _].
Qed.

Lemma assoc_not_elem k l : k ∉ l.*1 -> assoc k l = None.
Proof.
  induction l as [|[k' v] l IH]; [done|]. simpl. intros Hn.
  apply not_elem_of_cons in Hn as [Hne Hn]. rewrite assoc_cons, decide_False by congruence.
  by apply IH.
Qed.

Lemma assoc_elem k v l : NoDup l.*1 -> (k, v) ∈ l -> assoc k l = v.
Proof.
  induction l as [|[k' v'] l IH]; intros Hnd Hin; [by apply elem_of_nil in Hin|].
  simpl in Hnd. apply list.NoDup_cons in Hnd as [Hnin Hnd]. rewrite assoc_cons.
  apply elem_of_cons in Hin as [[= -> ->]|Hin]; [by rewrite decide_True|].
  rewrite decide_False; [by apply IH|]. intros ->. apply Hnin.
  by apply (list_elem_of_fmap_2 fst) in Hin.
Qed.

Lemma live_app b1 b2 : live (b1 ++ b2) = live b1 ++ live b2.
Proof.
  induction b1 as [|e b1 IH]; [done|]. simpl. rewrite IH. by destruct (he_key e).
Qed.

Lemma put_entries_ok t es :
  table_wf t -> NoDup (live es).*1 ->
  Forall (fun e => forall k, he_key e = Some k -> he_hashval e = hashFunc k) es ->
  exists t', put_entries equalFunc t es = Ok t' /\ table_wf t' /\
    ht_capacity t' = ht_capacity t /\
    forall k, ht_lookup t' k = if decide (k ∈ (live es).*1) then assoc k (live es) else ht_lookup t k.
Proof.
  intros Hwf Hnd Hh. revert t Hwf Hnd. induction Hh as [|e es Hhv Hh IH]; intros t Hwf Hnd;
    cbn [put_entries live] in *.
  { exists t. split_and!; [done..|]. intros k. by rewrite decide_False by apply not_elem_of_nil. }
  destruct (he_key e) as [key|]; [|by apply IH]. rewrite (Hhv key eq_refl).
  simpl in Hnd. apply list.NoDup_cons in Hnd as [Hnin Hnd].
  destruct (put_raw_ok t key (he_value e) Hwf) as (t1 & -> & Hwf1 & Hc1 & Hl1).
  cbn [mbind outcome_bind]. destruct (IH t1 Hwf1 Hnd) as (t' & -> & Hwf' & Hc' & Hl').
  exists t'. split_and!; [done|done|congruence|]. intros k. rewrite Hl', Hl1, assoc_cons. simpl.
  destruct (decide (k = key)) as [->|Hne].
  - rewrite decide_False by done. rewrite decide_True by (by left). by rewrite decide_True.
  - destruct (decide (k ∈ (live es).*1)) as [Hin|Hin].
    + rewrite decide_True by (by right). by rewrite decide_False by congruence.
    + rewrite decide_False; [done|]. by rewrite elem_of_cons; intros [|].
Qed.

(** The entries of all the buckets from the [o]-th on. *)
Lemma live_join c o bs :
  (forall i b, bs !! i = Some b -> bucket_ok c (o + i) b) ->
  NoDup (live (mjoin bs)).*1 /\
  Forall (fun e => forall k, he_key e = Some k -> he_hashval e = hashFunc k) (mjoin bs) /\
  (forall k v, (k, v) ∈ live (mjoin bs) <->
     exists i b, bs !! i = Some b /\ (k, v) ∈ live b) /\
  (forall k, k ∈ (live (mjoin bs)).*1 -> (o <= bucket_index c (hashFunc k))%nat).
Proof.
  revert o. induction bs as [|b bs IH]; intros o Hok; simpl.
  { split; [apply NoDup_nil_2|]. split; [done|]. split.
    - intros k v. split; [by intros ?%elem_of_nil|]. intros (i & b & Hb & _). done.
    - by intros k ?%elem_of_nil. }
  destruct (IH (S o)) as (Hnd & Hh & Hin & Hidx).
  { intros i b' Hb'. replace (S o + i)%nat with (o + S i)%nat by lia. by apply Hok. }
  assert (bucket_ok c o b) as Hb by (rewrite <- (Nat.add_0_r o); by apply Hok).
  assert (Hkeys : forall k, k ∈ (live b).*1 -> bucket_index c (hashFunc k) = o).
  { destruct (live_bucket_cases _ _ _ Hb) as [->|(_ & _ & Hall)]; [by intros k ?%elem_of_nil|].
    clear -Hall. induction Hall as [|e b (k0 & Hk0 & _ & Hi) _ IH]; [by intros k ?%elem_of_nil|].
    simpl. rewrite Hk0. simpl. intros k [->|Hk]%elem_of_cons; [done|by apply IH]. }
  assert (NoDup (live b).*1 /\
    Forall (fun e => forall k, he_key e = Some k -> he_hashval e = hashFunc k) b) as [Hndb Hhb].
  { destruct (live_bucket_cases _ _ _ Hb) as [->|(_ & Hndb & Hall)].
    - split; [apply NoDup_nil_2|]. by repeat constructor.
    - split; [done|]. eapply list.Forall_impl; [exact Hall|].
      intros e (k0 & Hk0 & Hv & _) k Hk. congruence. }
  rewrite live_app, fmap_app. split_and!.
  - apply list.NoDup_app. split; [done|]. split; [|done].
    intros k Hk Hk'. apply Hkeys in Hk. apply Hidx in Hk'. lia.
  - apply list.Forall_app. done.
  - intros k v. rewrite elem_of_app, Hin. split.
    + intros [Hk|(i & b' & Hi & Hk)]; [by exists 0%nat, b|by exists (S i), b'].
    + intros ([|i] & b' & Hi & Hk); simpl in Hi; [simplify_eq; by left|right; eauto].
  - intros k [Hk|Hk]%elem_of_app; [apply Hkeys in Hk; lia|apply Hidx in Hk; lia].
Qed.

Lemma assoc_join t k :
  table_wf t -> assoc k (live (mjoin (ht_contents t))) = ht_lookup t k.
Proof.
  intros Hwf. destruct (live_join (ht_capacity t) 0 (ht_contents t)) as (Hnd & _ & Hin & _).
  { intros i b. apply (twf_buckets _ Hwf). }
  destruct (bucket_lookup t k Hwf) as [Hb Hok]. unfold ht_lookup.
  assert (NoDup (live (ht_bucket t k)).*1) as Hndb.
  { destruct (live_bucket_cases _ _ _ Hok) as [->|(_ & ? & _)]; [apply NoDup_nil_2|done]. }
  destruct (decide (k ∈ (live (ht_bucket t k)).*1)) as [Hk|Hk].
  - apply list_elem_of_fmap in Hk as ([k' v] & -> & Hk). simpl in *.
    rewrite (assoc_elem k' v) by (done || (apply Hin; eauto)). by rewrite (assoc_elem k' v).
  - rewrite (assoc_not_elem _ _ Hk). apply assoc_not_elem.
    intros ([k' v] & -> & Hkv)%list_elem_of_fmap. apply Hin in Hkv as (i & b & Hi & Hkv).
    simpl in *. apply Hk. assert (i = bucket_index (ht_capacity t) (hashFunc k')) as ->.
    { destruct (live_bucket_cases _ _ _ (twf_buckets _ Hwf _ _ Hi)) as [->|(_ & _ & Hall)].
      - by apply elem_of_nil in Hkv.
      - clear -Hall Hkv. induction Hall as [|e b (k0 & Hk0 & _ & Hi) _ IH];
          [by apply elem_of_nil in Hkv|].
        simpl in Hkv. rewrite Hk0 in Hkv. apply elem_of_cons in Hkv as [[= -> _]|]; [done|].
        by apply IH. }
    rewrite Hb in Hi. injection Hi as <-. by apply (list_elem_of_fmap_2 fst) in Hkv.
Qed.

Lemma grow_capacity_ok fuel n c :
  0 < c -> n * 13 <= c * 2 ^ Z.of_nat fuel * 10 ->
  exists j, 0 <= j /\ grow_capacity fuel n c = Ok (c * 2 ^ j) /\ n * 13 <= c * 2 ^ j * 10.
Proof.
  revert c. induction fuel as [|fuel IH]; intros c Hc Hf; cbn [grow_capacity];
    destruct (Z.ltb_spec (c * 10) (n * 13)).
  - simpl in Hf. lia.
  - exists 0. rewrite Z.pow_0_r, Z.mul_1_r. split_and!; [lia|done|lia].
  - destruct (IH (c * 2)) as (j & Hj & E & Hle); [lia| |].
    { rewrite Nat2Z.inj_succ, Z.pow_succ_r in Hf by lia. lia. }
    exists (j + 1). rewrite Z.pow_add_r by lia. change (2 ^ 1) with 2.
    replace (c * (2 ^ j * 2)) with (c * 2 * 2 ^ j) by lia. split_and!; [lia|done|lia].
  - exists 0. rewrite Z.pow_0_r, Z.mul_1_r. split_and!; [lia|done|lia].
Qed.

Lemma ensure_capacity_ok t n :
  table_wf t ->
  exists t', h_hashtable_ensure_capacity equalFunc t n = Ok t' /\ table_wf t' /\
    n * 13 <= ht_capacity t' * 10 /\ forall k, ht_lookup t' k = ht_lookup t k.
Proof.
  intros Hwf. destruct (twf_capacity _ Hwf) as (j & Hj & Hc).
  assert (0 < ht_capacity t) by (rewrite Hc; lia).
  destruct (grow_capacity_ok (Z.to_nat n) n (ht_capacity t)) as (d & Hd & E & Hle); [done| |].
  { destruct (Z.le_gt_cases n 0); [nia|]. rewrite Z2Nat.id by lia.
    assert (2 ^ 6 <= ht_capacity t) by (rewrite Hc; apply Z.pow_le_mono_r; lia).
    assert (n < 2 ^ n) by (apply Z.pow_gt_lin_r; lia). nia. }
  unfold h_hashtable_ensure_capacity. rewrite E. cbn [mbind outcome_bind].
  destruct (Z.eqb_spec (ht_capacity t * 2 ^ d) (ht_capacity t)) as [Eq|Hne].
  - exists t. split_and!; [done|done|lia|done].
  - destruct (live_join (ht_capacity t) 0 (ht_contents t)) as (Hnd & Hh & _ & _).
    { intros i b. apply (twf_buckets _ Hwf). }
    destruct (put_entries_ok (mkTable (replicate (Z.to_nat (ht_capacity t * 2 ^ d)) [empty_entry])
      (ht_capacity t * 2 ^ d) 0) (mjoin (ht_contents t))) as (t' & -> & Hwf' & Hc' & Hl').
    { apply empty_wf. exists (j + d). split; [lia|]. by rewrite Hc, Z.pow_add_r by lia. }
    { done. } { done. }
    exists t'. split_and!; [done|done|by rewrite Hc'|]. intros k. rewrite Hl', empty_lookup.
    rewrite <- (assoc_join t k Hwf). case_decide as Hk; [done|]. by rewrite assoc_not_elem.
Qed.

Lemma put_ok t key value :
  table_wf t ->
  exists t', h_hashtable_put hashFunc equalFunc t key value = Ok t' /\ table_wf t' /\
    forall k, ht_lookup t' k = if decide (k = key) then value else ht_lookup t k.
Proof.
  intros Hwf. unfold h_hashtable_put.
  destruct (ensure_capacity_ok t (ht_used t + 1) Hwf) as (t1 & -> & Hwf1 & _ & Hl1).
  cbn [mbind outcome_bind].
  destruct (put_raw_ok t1 key value Hwf1) as (t2 & -> & Hwf2 & _ & Hl2).
  exists t2. split_and!; [done..|]. intros k. by rewrite Hl2, Hl1.
Qed.

Lemma hashtable_new_wf : table_wf h_hashtable_new.
Proof. apply (empty_wf 64). by exists 6. Qed.

(** ** The interface *)

#[local] Program Instance hashtable_map : MapImpl (HHashTable K V) K V := {
  mi_rep t m := table_wf t /\ forall k, ht_lookup t k = m !! k;
  mi_new := h_hashtable_new;
  mi_get := h_hashtable_get hashFunc equalFunc;
  mi_put t k v := h_hashtable_put hashFunc equalFunc t k (Some v);
}.
Next Obligation. split; [apply hashtable_new_wf|]. intros k. by rewrite (empty_lookup 64), lookup_empty. Qed.
Next Obligation. intros t m k [Hwf Hl]. by rewrite h_hashtable_get_lookup, Hl. Qed.
Next Obligation.
  intros t m k v [Hwf Hl]. destruct (put_ok t k (Some v) Hwf) as (t' & E & Hwf' & Hl').
  exists t'. split; [done|]. split; [done|]. intros k'. rewrite Hl', Hl.
  case_decide as Hk; [by rewrite Hk, lookup_insert_eq|by rewrite lookup_insert_ne].
Qed.
End refinement.

(** Insertions in turn, with any insertion function. *)
Fixpoint put_all {T K V} (put : T -> K -> V -> outcome T) (t : T) (ops : list (K * V)) : outcome T :=
  match ops with
  | [] => Ok t
  | (k, v) :: ops => t ← put t k v; put_all put t ops
  end.
Definition insert_all {K V} `{Countable K} (m : gmap K V) (ops : list (K * V)) : gmap K V :=
  foldl (fun m o => <[o.1 := o.2]> m) m ops.

(** A client of the interface. *)
Section client.
Context {T K V : Type} `{MapImpl T K V}.

Lemma put_all_rep t m ops :
  mi_rep t m -> exists t', put_all mi_put t ops = Ok t' /\ mi_rep t' (insert_all m ops).
Proof.
  revert t m. induction ops as [|[k v] ops IH]; intros t m Hrep; simpl; [eauto|].
  destruct (mi_put_rep t m k v Hrep) as (t1 & -> & Hrep1). by apply IH.
Qed.
End client.

Section theorems.
Context {K V : Type} `{Countable K}.
Context (hashFunc : K -> Z) (equalFunc : K -> option K -> outcome bool).

(** C21: a hash table is a finite map: after any sequence of insertions, over
    any number of resizes and whatever the hash function, looking a key up
    gives the value put last, or NULL; the table never runs out of room. *)
Theorem hashtable_refines_map (ops : list (K * V)) :
  (forall k, 0 <= hashFunc k < 2 ^ 32) ->
  (forall k k', equalFunc k (Some k') = Ok (bool_decide (k = k'))) ->
  exists t,
    put_all (fun t k v => h_hashtable_put hashFunc equalFunc t k (Some v)) h_hashtable_new ops
      = Ok t /\
    forall k, h_hashtable_get hashFunc equalFunc t k = Ok (insert_all (∅ : gmap K V) ops !! k).
Proof.
  intros Hh He. pose (I := hashtable_map (V := V) hashFunc equalFunc Hh He).
  destruct (put_all_rep (H0 := I) _ ∅ ops (mi_new_rep (MapImpl := I))) as (t & E & Hrep).
  exists t. split; [exact E|]. intros k. apply (mi_get_rep (MapImpl := I) t _ k Hrep).
Qed.

(** [h_hashtable_update] is the union of the tables, the source winning;
    entries are taken with their values, whatever the order of the buckets. *)
Theorem h_hashtable_update_union (dst src : HHashTable K V) :
  (forall k, 0 <= hashFunc k < 2 ^ 32) ->
  (forall k k', equalFunc k (Some k') = Ok (bool_decide (k = k'))) ->
  table_wf hashFunc dst -> table_wf hashFunc src ->
  exists dst', h_hashtable_update hashFunc equalFunc dst src = Ok dst' /\
    table_wf hashFunc dst' /\
    forall k, h_hashtable_get hashFunc equalFunc dst' k =
      if decide (k ∈ (live (mjoin (ht_contents src))).*1)
      then h_hashtable_get hashFunc equalFunc src k
      else h_hashtable_get hashFunc equalFunc dst k.
Proof.
  intros Hh He Hwd Hws. unfold h_hashtable_update.
  destruct (live_join hashFunc (ht_capacity src) 0 (ht_contents src)) as (Hnd & _ & _ & _).
  { intros i b. apply (twf_buckets _ _ Hws). }
  assert (Hupd : forall (es : list (HHashTableEntry K V)) (dst : HHashTable K V), NoDup (live es).*1 -> table_wf hashFunc dst ->
    exists dst', update_entries hashFunc equalFunc dst es = Ok dst' /\
      table_wf hashFunc dst' /\
      forall k, ht_lookup hashFunc dst' k =
        if decide (k ∈ (live es).*1) then assoc k (live es) else ht_lookup hashFunc dst k).
  { clear -Hh He. intros es. induction es as [|e es IH]; intros dst Hnd Hwd;
      cbn [update_entries live] in *.
    { exists dst. split_and!; [done..|]. intros k. by rewrite decide_False by apply not_elem_of_nil. }
    destruct (he_key e) as [key|]; [|by apply IH].
    simpl in Hnd. apply list.NoDup_cons in Hnd as [Hnin Hnd].
    destruct (put_ok hashFunc equalFunc Hh He dst key (he_value e) Hwd) as (t1 & -> & Hw1 & Hl1).
    cbn [mbind outcome_bind]. destruct (IH t1 Hnd Hw1) as (t' & -> & Hw' & Hl').
    exists t'. split_and!; [done..|]. intros k. rewrite Hl', Hl1, assoc_cons. simpl.
    destruct (decide (k = key)) as [->|Hne].
    - rewrite decide_False by done. rewrite decide_True by (by left). by rewrite decide_True.
    - destruct (decide (k ∈ (live es).*1)) as [Hin|Hin].
      + rewrite decide_True by (by right). by rewrite decide_False by congruence.
      + rewrite decide_False; [done|]. by rewrite elem_of_cons; intros [|]. }
  destruct (Hupd _ dst Hnd Hwd) as (dst' & E & Hw' & Hl'). exists dst'. split_and!; [done..|].
  intros k. rewrite !(h_hashtable_get_lookup hashFunc equalFunc Hh He) by done.
  rewrite Hl'. case_decide; [|done]. by rewrite (assoc_join hashFunc Hh).
Qed.
End theorems.

(** * Deletion and equality of sets *)

(** h_hashtable_present passes a NULL key to the comparison function when
    the key's hash is 0: on an empty table it does what the function does. *)
Theorem h_hashtable_present_null {K V} (hashFunc : K -> Z) (equalFunc : K -> option K -> outcome bool)
    (key : K) :
  hashFunc key = 0 -> equalFunc key None = Fault NullDeref ->
  h_hashtable_present hashFunc equalFunc (@h_hashtable_new K V) key = Fault NullDeref /\
  h_hashtable_get hashFunc equalFunc (@h_hashtable_new K V) key = Ok None.
Proof.
  intros Hh He. unfold h_hashtable_present, h_hashtable_get. rewrite Hh. simpl.
  unfold entry_matches. simpl. by rewrite He.
Qed.

(** Keys are numbers, all in one bucket. *)
Definition same_bucket (k : Z) : Z := 64 * (k + 1).
Definition num_equal (k : Z) (k' : option Z) : outcome bool :=
  match k' with Some k' => Ok (k =? k') | None => Fault NullDeref end.

(** Deletion can bring an overwritten value back: with three keys in one
    bucket, delete 2, put 3 again, delete 1, put 3 anew, delete 3, and 3 is
    still there with its earlier value. *)
Theorem h_hashtable_del_reexposes :
  let put t k v := h_hashtable_put same_bucket num_equal t k (Some v) in
  (t ← put h_hashtable_new 1 10; t ← put t 2 20; t ← h_hashtable_del same_bucket num_equal t 2;
   t ← put t 3 30; t ← h_hashtable_del same_bucket num_equal t 1; t ← put t 3 31;
   t ← h_hashtable_del same_bucket num_equal t 3;
   h_hashtable_get same_bucket num_equal t 3) = Ok (Some 30).
Proof. vm_compute. reflexivity. Qed.

Lemma buckets_equal_app {K V} (equalFunc : K -> option K -> outcome bool)
    (p1 p2 : list (list (HHashTableEntry K V))) r1 r2 :
  Forall2 (fun xs ys => hte_equal equalFunc xs ys = Ok true) p1 p2 ->
  buckets_equal equalFunc (p1 ++ r1) (p2 ++ r2) = buckets_equal equalFunc r1 r2.
Proof. induction 1 as [|xs ys p1 p2 E _ IH]; [done|]. simpl. by rewrite E. Qed.

(** h_hashset_equal is not symmetric: the empty set equals every set of one
    element, which does not equal the empty set. *)
Theorem h_hashset_equal_empty {K V} (hashFunc : K -> Z)
    (equalFunc : K -> option K -> outcome bool) (key : K) :
  0 < hashFunc key ->
  exists t, h_hashtable_put hashFunc equalFunc (@h_hashtable_new K V) key None = Ok t /\
    h_hashset_equal equalFunc h_hashtable_new t = Ok true /\
    h_hashset_equal equalFunc t h_hashtable_new = Ok false.
Proof.
  intros Hh. set (i := bucket_index 64 (hashFunc key)).
  set (x := mkEntry (Some key) (None : option V) (hashFunc key)).
  assert (i < 64)%nat as Hi by (apply (bucket_index_lt 64); [by exists 6|lia]).
  assert (hte_equal equalFunc [x] [empty_entry] = Ok false) as Hne.
  { unfold hte_equal, x. cbn [length hte_same_length skip_null mbind outcome_bind hte_subset
      he_key hte_find he_hashval]. unfold entry_matches, empty_entry. cbn [he_hashval].
    destruct (Z.eqb_spec 0 (hashFunc key)); [lia|done]. }
  assert (forall n, Forall2 (fun xs ys : list (HHashTableEntry K V) =>
    hte_equal equalFunc xs ys = Ok true) (replicate n [empty_entry]) (replicate n [empty_entry]))
    as Hrep by (intros n; induction n; constructor; done).
  exists (mkTable (<[i := [x]]> (replicate 64 [empty_entry])) 64 1). split.
  - unfold h_hashtable_put, h_hashtable_ensure_capacity.
    cbn [h_hashtable_new ht_used ht_capacity]. change (grow_capacity _ _ _) with (Ok 64).
    cbn [mbind outcome_bind]. rewrite Z.eqb_refl. cbn [mbind outcome_bind].
    unfold h_hashtable_put_raw.
    cbn [h_hashtable_new ht_used ht_capacity ht_contents]. fold i.
    by rewrite lookup_replicate_2 by done.
  - unfold h_hashset_equal. cbn [h_hashtable_new ht_contents ht_capacity].
    rewrite insert_take_drop by (by rewrite length_replicate).
    rewrite take_replicate, drop_replicate, Nat.min_l by lia.
    replace (replicate 64 [empty_entry]) with
      (replicate i [@empty_entry K V] ++ [empty_entry] :: replicate (64 - S i) [empty_entry]).
    2: { change ([empty_entry] :: replicate (64 - S i) [@empty_entry K V]) with
           (replicate (S (64 - S i)) [@empty_entry K V]).
         rewrite <- replicate_add. f_equal. lia. }
    cbn [Z.eqb Pos.eqb assert_ok mbind outcome_bind]. rewrite !buckets_equal_app by done.
    split; cbn [buckets_equal].
    + change (hte_equal equalFunc [empty_entry] [x]) with (@Ok bool true).
      cbn [mbind outcome_bind].
      rewrite <- (app_nil_r (replicate _ _)), buckets_equal_app by done. done.
    + rewrite Hne. done.
Qed.

(** * Witnesses *)

Definition num_key (k : Z) : Z := k mod 2 ^ 32.
Definition num_key_equal (k : Z) (k' : option Z) : outcome bool :=
  match k' with Some k' => Ok (bool_decide (k = k')) | None => Fault NullDeref end.

Lemma num_key_range k : 0 <= num_key k < 2 ^ 32.
Proof. apply Z.mod_pos_bound. lia. Qed.

Lemma hashtable_refines_map_witness :
  exists t,
    put_all (fun t k v => h_hashtable_put num_key num_key_equal t k (Some v)) h_hashtable_new
      [(1, 10); (65, 20); (1, 30)] = Ok t /\
    h_hashtable_get num_key num_key_equal t 1 = Ok (Some 30) /\
    h_hashtable_get num_key num_key_equal t 65 = Ok (Some 20).
Proof.
  destruct (hashtable_refines_map num_key num_key_equal [(1, 10); (65, 20); (1, 30)])
    as (t & E & Hl); [exact num_key_range|done|].
  exists t. split; [exact E|]. rewrite !Hl. split; reflexivity.
Defined.

Lemma h_hashtable_update_union_witness :
  exists src dst', h_hashtable_put num_key num_key_equal h_hashtable_new 7 (Some 70) = Ok src /\
    h_hashtable_update num_key num_key_equal h_hashtable_new src = Ok dst' /\
    h_hashtable_get num_key num_key_equal dst' 7 = Ok (Some 70).
Proof.
  destruct (put_ok num_key num_key_equal num_key_range (fun _ _ => eq_refl) h_hashtable_new 7 (Some 70)
    (hashtable_new_wf num_key)) as (src & E & Hwf & _).
  vm_compute in E. injection E as <-.
  destruct (h_hashtable_update_union num_key num_key_equal _ _ num_key_range (fun _ _ => eq_refl)
    (hashtable_new_wf num_key) Hwf) as (t & E & _ & Hl).
  do 2 eexists. split; [vm_compute; reflexivity|]. split; [exact E|].
  rewrite Hl. vm_compute. reflexivity.
Defined.

Lemma h_hashtable_present_null_witness :
  h_hashtable_present num_key num_key_equal (@h_hashtable_new Z Z) 0 = Fault NullDeref.
Proof. apply (h_hashtable_present_null num_key num_key_equal 0); reflexivity. Defined.

Lemma h_hashset_equal_empty_witness :
  exists t, h_hashtable_put num_key num_key_equal (@h_hashtable_new Z Z) 5 None = Ok t /\
    h_hashset_equal num_key_equal h_hashtable_new t = Ok true /\
    h_hashset_equal num_key_equal t h_hashtable_new = Ok false.
Proof. apply (h_hashset_equal_empty num_key num_key_equal 5). reflexivity. Defined.
