(* ===== verification/SArray.v ===== *)
(** Sparse arrays (src/src/internal.h: HSArray, h_sarray_*, H_SARRAY_FOREACH_KV_;
    src/src/datastructures.c: h_sarray_new).

    The nodes are never initialised: an element is valid when its node points
    to a used entry that points back. The theorems hold for any initial
    memory. *)

From S2P Require Import Prelude.

Record HSArrayNode (A : Type) := mkSNode { sn_elem : Z; sn_index : Z; sn_content : A }.
Arguments mkSNode {A}.
Arguments sn_elem {A}.
Arguments sn_index {A}.
Arguments sn_content {A}.

Record HSArray (A : Type) := mkSArray {
  sa_nodes : list (HSArrayNode A);
  sa_capacity : Z;
  sa_used : Z;
}.
Arguments mkSArray {A}.
Arguments sa_nodes {A}.
Arguments sa_capacity {A}.
Arguments sa_used {A}.

Section sarray.
Context {A : Type}.

(** [h_sarray_new]: [memory] is what the allocator returned. *)
Definition h_sarray_new (memory : list (HSArrayNode A)) : HSArray A :=
  mkSArray memory (Z.of_nat (length memory)) 0.

Definition sa_node (arr : HSArray A) (n : Z) : outcome (HSArrayNode A) :=
  if (0 <=? n) then deref OutOfBounds (sa_nodes arr !! Z.to_nat n) else Fault OutOfBounds.

Definition h_sarray_isset (arr : HSArray A) (n : Z) : outcome bool :=
  _ ← assert_ok (n <? sa_capacity arr);
  nd ← sa_node arr n;
  if sn_index nd <? sa_used arr then
    back ← sa_node arr (sn_index nd);
    Ok (sn_elem back =? n)
  else Ok false.

Definition h_sarray_get (arr : HSArray A) (n : Z) : outcome (option A) :=
  _ ← assert_ok (n <? sa_capacity arr);
  b ← h_sarray_isset arr n;
  if (b : bool) then nd ← sa_node arr n; Ok (Some (sn_content nd)) else Ok None.

Definition sa_store (arr : HSArray A) (n : Z) (nd : HSArrayNode A) : outcome (HSArray A) :=
  _ ← sa_node arr n;
  Ok (mkSArray (<[Z.to_nat n := nd]> (sa_nodes arr)) (sa_capacity arr) (sa_used arr)).

Definition h_sarray_set (arr : HSArray A) (n : Z) (val : A) : outcome (HSArray A) :=
  _ ← assert_ok (n <? sa_capacity arr);
  nd ← sa_node arr n;
  arr ← sa_store arr n (mkSNode (sn_elem nd) (sn_index nd) val);
  b ← h_sarray_isset arr n;
  if (b : bool) then Ok arr else
  u ← sa_node arr (sa_used arr);
  arr ← sa_store arr (sa_used arr) (mkSNode n (sn_index u) (sn_content u));
  nd ← sa_node arr n;
  arr ← sa_store arr n (mkSNode (sn_elem nd) (sa_used arr) (sn_content nd));
  Ok (mkSArray (sa_nodes arr) (sa_capacity arr) (sa_used arr + 1)).

Definition h_sarray_clear (arr : HSArray A) : HSArray A :=
  mkSArray (sa_nodes arr) (sa_capacity arr) 0.

(** [idx = nodes[intvar].elem, var = nodes[nodes[intvar].elem].content] *)
Definition foreach_at (arr : HSArray A) (intvar : Z) : outcome (Z * A) :=
  nd ← sa_node arr intvar;
  c ← sa_node arr (sn_elem nd);
  Ok (sn_elem nd, sn_content c).

(** h_SARRAY_FOREACH_KV_ as it expands: the step reads the node at [intvar]
    before it increments [intvar]. The visited pairs, for a body that leaves
    the array alone. *)
Fixpoint foreach_loop (fuel : nat) (arr : HSArray A) (intvar : Z) (cur : Z * A)
    : outcome (list (Z * A)) :=
  if intvar <? sa_used arr then
    match fuel with
    | O => OutOfFuel
    | S fuel =>
        next ← foreach_at arr intvar;
        rest ← foreach_loop fuel arr (intvar + 1) next;
        Ok (cur :: rest)
    end
  else Ok [].
Definition h_sarray_foreach (arr : HSArray A) : outcome (list (Z * A)) :=
  cur ← foreach_at arr 0;
  foreach_loop (Z.to_nat (sa_used arr)) arr 0 cur.

(** * Invariant *)

(** The elements in the order of their entries. *)
Definition sa_elems (arr : HSArray A) : list Z :=
  sn_elem <$> take (Z.to_nat (sa_used arr)) (sa_nodes arr).

Record sarray_wf (arr : HSArray A) : Prop := {
  swf_capacity : sa_capacity arr = Z.of_nat (length (sa_nodes arr));
  swf_used : 0 <= sa_used arr <= sa_capacity arr;
  swf_nonneg : Forall (fun nd => 0 <= sn_index nd) (sa_nodes arr);
  swf_back : forall i n, sa_elems arr !! i = Some n ->
    0 <= n < sa_capacity arr /\
    exists nd, sa_nodes arr !! Z.to_nat n = Some nd /\ sn_index nd = Z.of_nat i;
}.

Lemma sa_node_ok arr n :
  sarray_wf arr -> 0 <= n < sa_capacity arr ->
  exists nd, sa_node arr n = Ok nd /\ sa_nodes arr !! Z.to_nat n = Some nd /\ 0 <= sn_index nd.
Proof.
  intros Hwf Hn. destruct (lookup_lt_is_Some_2 (sa_nodes arr) (Z.to_nat n)) as [nd Hnd].
  { rewrite (swf_capacity _ Hwf) in Hn. lia. }
  exists nd. unfold sa_node. rewrite (proj2 (Z.leb_le 0 n)), Hnd by lia. split_and!; [done..|].
  by eapply Forall_lookup in Hnd; [|apply (swf_nonneg _ Hwf)].
Qed.

Lemma sa_elems_lookup arr i :
  sa_elems arr !! i =
    if decide (i < Z.to_nat (sa_used arr))%nat then sn_elem <$> sa_nodes arr !! i else None.
Proof.
  unfold sa_elems. rewrite list_lookup_fmap. case_decide.
  - by rewrite lookup_take_lt.
  - by rewrite lookup_take_ge by lia.
Qed.

Lemma isset_ok arr n :
  sarray_wf arr -> 0 <= n < sa_capacity arr ->
  h_sarray_isset arr n = Ok (bool_decide (n ∈ sa_elems arr)).
Proof.
  intros Hwf Hn. destruct (sa_node_ok arr n Hwf Hn) as (nd & E & Hnd & Hi).
  unfold h_sarray_isset. rewrite (proj2 (Z.ltb_lt n _)) by lia. cbn [assert_ok mbind outcome_bind].
  rewrite E. cbn [mbind outcome_bind].
  assert (Hin : n ∈ sa_elems arr -> sn_index nd < sa_used arr /\
    sa_elems arr !! Z.to_nat (sn_index nd) = Some n).
  { intros (i & Hi')%list_elem_of_lookup. destruct (swf_back _ Hwf i n Hi') as (_ & nd' & Hnd' & E').
    rewrite Hnd in Hnd'. injection Hnd' as <-. rewrite E', Nat2Z.id. split; [|done].
    rewrite sa_elems_lookup in Hi'. case_decide; [lia|done]. }
  destruct (Z.ltb_spec (sn_index nd) (sa_used arr)) as [Hlt|Hge].
  - destruct (sa_node_ok arr (sn_index nd) Hwf) as (back & Eb & Hb & _).
    { pose proof (swf_used _ Hwf). lia. }
    rewrite Eb. cbn [mbind outcome_bind]. f_equal.
    assert (sa_elems arr !! Z.to_nat (sn_index nd) = Some (sn_elem back)) as Hel.
    { rewrite sa_elems_lookup, decide_True by lia. by rewrite Hb. }
    destruct (Z.eqb_spec (sn_elem back) n) as [Heq|Hneq].
    + rewrite bool_decide_true; [done|]. apply list_elem_of_lookup. exists (Z.to_nat (sn_index nd)).
      by rewrite Hel, Heq.
    + rewrite bool_decide_false; [done|]. intros [_ Hn']%Hin. congruence.
  - rewrite bool_decide_false; [done|]. intros [? _]%Hin. lia.
Qed.

Lemma sa_elems_nodup arr : sarray_wf arr -> NoDup (sa_elems arr).
Proof.
  intros Hwf. apply NoDup_alt. intros i j n Hi Hj.
  destruct (swf_back _ Hwf i n Hi) as (_ & nd & Hnd & E).
  destruct (swf_back _ Hwf j n Hj) as (_ & nd' & Hnd' & E'). simplify_eq. lia.
Qed.

(** An element that is not set leaves room for its entry. *)
Lemma sa_room arr n :
  sarray_wf arr -> 0 <= n < sa_capacity arr -> n ∉ sa_elems arr -> sa_used arr < sa_capacity arr.
Proof.
  intros Hwf Hn Hnin.
  assert (n :: sa_elems arr ⊆+ (Z.of_nat <$> seq 0 (Z.to_nat (sa_capacity arr)))) as Hsub.
  { apply NoDup_submseteq.
    - constructor; [done|by apply sa_elems_nodup].
    - intros x [->|Hx]%elem_of_cons; apply list_elem_of_fmap.
      + exists (Z.to_nat n). split; [lia|]. apply elem_of_seq. lia.
      + apply list_elem_of_lookup in Hx as [i Hi].
        destruct (swf_back _ Hwf i x Hi) as (Hx & _).
        exists (Z.to_nat x). split; [lia|]. apply elem_of_seq. lia. }
  apply submseteq_length in Hsub. rewrite length_fmap, length_seq in Hsub. simpl in Hsub.
  unfold sa_elems in Hsub. rewrite length_fmap, length_take in Hsub.
  pose proof (swf_used _ Hwf). pose proof (swf_capacity _ Hwf). lia.
Qed.

Lemma sa_store_ok arr n nd :
  sarray_wf arr -> 0 <= n < sa_capacity arr ->
  sa_store arr n nd =
    Ok (mkSArray (<[Z.to_nat n := nd]> (sa_nodes arr)) (sa_capacity arr) (sa_used arr)).
Proof.
  intros Hwf Hn. unfold sa_store. by destruct (sa_node_ok arr n Hwf Hn) as (? & -> & _).
Qed.

(** Storing a content only. *)
Lemma set_content_wf arr n nd v :
  sarray_wf arr -> sa_nodes arr !! Z.to_nat n = Some nd ->
  let arr' := mkSArray (<[Z.to_nat n := mkSNode (sn_elem nd) (sn_index nd) v]> (sa_nodes arr))
                (sa_capacity arr) (sa_used arr) in
  sarray_wf arr' /\ sa_elems arr' = sa_elems arr.
Proof.
  intros Hwf Hnd arr'. pose proof (lookup_lt_Some _ _ _ Hnd) as Hlt.
  assert (sa_elems arr' = sa_elems arr) as Hel.
  { unfold sa_elems, arr'. simpl. apply list_eq. intros i. rewrite !list_lookup_fmap.
    destruct (decide (i < Z.to_nat (sa_used arr))%nat).
    - rewrite !lookup_take_lt by done. destruct (decide (i = Z.to_nat n)) as [->|].
      + by rewrite list_lookup_insert_eq, Hnd.
      + by rewrite list_lookup_insert_ne.
    - by rewrite !lookup_take_ge by lia. }
  split; [|done]. destruct Hwf as [H1 H2 H3 H4]. split; simpl.
  - by rewrite length_insert.
  - done.
  - apply Forall_insert; [done|]. simpl. by eapply Forall_lookup in Hnd; [|exact H3].
  - intros i m. rewrite Hel. intros Hi. destruct (H4 i m Hi) as (Hm & nd' & Hnd' & E).
    split; [done|]. destruct (decide (Z.to_nat n = Z.to_nat m)) as [Heq|Hne].
    + rewrite Heq, list_lookup_insert_eq by lia. eexists. split; [done|]. simpl.
      rewrite <- Heq in Hnd'. congruence.
    + rewrite list_lookup_insert_ne by done. eauto.
Qed.

(** The map a sparse array stands for. *)
Definition sa_lookup (arr : HSArray A) (n : Z) : option A :=
  if decide (n ∈ sa_elems arr) then sn_content <$> sa_nodes arr !! Z.to_nat n else None.

Lemma get_ok arr n :
  sarray_wf arr -> 0 <= n < sa_capacity arr -> h_sarray_get arr n = Ok (sa_lookup arr n).
Proof.
  intros Hwf Hn. unfold h_sarray_get, sa_lookup.
  rewrite (proj2 (Z.ltb_lt n _)), isset_ok by (done || lia). cbn [assert_ok mbind outcome_bind].
  destruct (sa_node_ok arr n Hwf Hn) as (nd & -> & Hnd & _).
  case_bool_decide; case_decide; try done. by rewrite Hnd.
Qed.

Lemma set_ok arr n v :
  sarray_wf arr -> 0 <= n < sa_capacity arr ->
  exists arr', h_sarray_set arr n v = Ok arr' /\ sarray_wf arr' /\
    sa_capacity arr' = sa_capacity arr /\
    sa_elems arr' = (if decide (n ∈ sa_elems arr) then sa_elems arr else sa_elems arr ++ [n]) /\
    (forall m, 0 <= m -> m <> n -> sn_content <$> sa_nodes arr' !! Z.to_nat m =
                                   sn_content <$> sa_nodes arr !! Z.to_nat m) /\
    sn_content <$> sa_nodes arr' !! Z.to_nat n = Some v.
Proof.
  intros Hwf Hn. destruct (sa_node_ok arr n Hwf Hn) as (nd & E & Hnd & Hi).
  unfold h_sarray_set. rewrite (proj2 (Z.ltb_lt n _)) by lia. cbn [assert_ok mbind outcome_bind].
  rewrite E. cbn [mbind outcome_bind]. rewrite sa_store_ok by done. cbn [mbind outcome_bind].
  set (arr1 := mkSArray _ _ _).
  destruct (set_content_wf arr n nd v Hwf Hnd) as [Hwf1 Hel1]. fold arr1 in Hwf1, Hel1.
  pose proof (lookup_lt_Some _ _ _ Hnd) as Hlt.
  assert (Hn1 : 0 <= n < sa_capacity arr1) by done.
  rewrite isset_ok, Hel1 by done. cbn [mbind outcome_bind].
  assert (sa_nodes arr1 !! Z.to_nat n = Some (mkSNode (sn_elem nd) (sn_index nd) v)) as Hnd1
    by (by apply list_lookup_insert_eq).
  assert (Hother : forall m, 0 <= m -> m <> n ->
    sa_nodes arr1 !! Z.to_nat m = sa_nodes arr !! Z.to_nat m)
    by (intros m Hm Hne; apply list_lookup_insert_ne; lia).
  case_bool_decide as Hin.
  - exists arr1. rewrite decide_True by done. split_and!; try done.
    + intros m Hm Hne. by rewrite Hother.
    + by rewrite Hnd1.
  - rewrite decide_False by done.
    pose proof (sa_room arr n Hwf Hn Hin) as Hroom. pose proof (swf_used _ Hwf).
    assert (length (sa_nodes arr1) = length (sa_nodes arr)) as Hlen1 by apply length_insert.
    assert (sa_used arr1 = sa_used arr) as Hused1 by done.
    assert (sa_capacity arr1 = sa_capacity arr) as Hcap1 by done. clearbody arr1.
    assert (Hu1 : 0 <= sa_used arr1 < sa_capacity arr1) by lia.
    destruct (sa_node_ok arr1 (sa_used arr1) Hwf1 Hu1) as (u & Eu & Hu & Hui).
    rewrite Eu. cbn [mbind outcome_bind]. rewrite sa_store_ok by done. cbn [mbind outcome_bind].
    rewrite Hused1 in *. set (k := Z.to_nat (sa_used arr)) in *.
    set (nodes2 := <[k := mkSNode n (sn_index u) (sn_content u)]> (sa_nodes arr1)).
    assert (length nodes2 = length (sa_nodes arr)) as Hlen2
      by (unfold nodes2; by rewrite length_insert).
    destruct (lookup_lt_is_Some_2 nodes2 (Z.to_nat n)) as [nd2 Hnd2]; [lia|].
    unfold sa_store, sa_node. cbn [sa_nodes sa_capacity sa_used].
    rewrite (proj2 (Z.leb_le 0 n)), Hnd2 by lia. cbn [deref mbind outcome_bind sa_nodes].
    set (nodes3 := <[Z.to_nat n := mkSNode (sn_elem nd2) (sa_used arr) (sn_content nd2)]> nodes2).
    assert (Hk : (k < length (sa_nodes arr))%nat) by (pose proof (swf_capacity _ Hwf); lia).
    assert (Hnd2' : nd2 = if decide (k = Z.to_nat n) then mkSNode n (sn_index nd) v
                          else mkSNode (sn_elem nd) (sn_index nd) v).
    { unfold nodes2 in Hnd2. case_decide as Ek.
      - rewrite Ek, list_lookup_insert_eq in Hnd2 by lia. rewrite Ek, Hnd1 in Hu. by simplify_eq/=.
      - rewrite list_lookup_insert_ne, Hnd1 in Hnd2 by done. by simplify_eq/=. }
    eexists. split; [done|].
    set (arr3 := mkSArray nodes3 _ _).
    assert (Helem : forall i, (i < k)%nat -> sn_elem <$> nodes3 !! i = sn_elem <$> sa_nodes arr !! i).
    { intros i Hik. unfold nodes3. destruct (decide (i = Z.to_nat n)) as [->|Hne].
      - rewrite list_lookup_insert_eq by lia. rewrite Hnd. simpl. f_equal.
        rewrite Hnd2', decide_False by lia. done.
      - rewrite list_lookup_insert_ne by done. unfold nodes2.
        rewrite list_lookup_insert_ne by lia.
        rewrite <- (Nat2Z.id i), Hother by lia. done. }
    assert (Hlast : sn_elem <$> nodes3 !! k = Some n).
    { unfold nodes3. destruct (decide (k = Z.to_nat n)) as [Ek|Ek].
      - rewrite Ek, list_lookup_insert_eq by lia. cbn [fmap option_fmap option_map sn_elem]. rewrite Hnd2'. by try case_decide.
      - rewrite list_lookup_insert_ne by done. unfold nodes2.
        by rewrite list_lookup_insert_eq by lia. }
    assert (length (sa_elems arr) = k) as Hlk.
    { unfold sa_elems. rewrite length_fmap, length_take. lia. }
    assert (Hel3 : sa_elems arr3 = sa_elems arr ++ [n]).
    { apply list_eq. intros i. rewrite sa_elems_lookup. cbn [arr3 sa_used sa_nodes].
      destruct (decide (i < k)%nat).
      - rewrite decide_True by lia. rewrite Helem, lookup_app_l by lia.
        by rewrite sa_elems_lookup, decide_True.
      - rewrite lookup_app_r by lia. rewrite Hlk. destruct (decide (i = k)) as [->|].
        + rewrite decide_True by lia. by rewrite Hlast, Nat.sub_diag.
        + rewrite decide_False by lia. symmetry. apply lookup_ge_None. simpl. lia. }
    assert (Hidx : forall m, 0 <= m -> m <> n ->
      sn_index <$> nodes3 !! Z.to_nat m = sn_index <$> sa_nodes arr !! Z.to_nat m /\
      sn_content <$> nodes3 !! Z.to_nat m = sn_content <$> sa_nodes arr !! Z.to_nat m).
    { intros m Hm Hne. unfold nodes3. rewrite list_lookup_insert_ne by lia. unfold nodes2.
      destruct (decide (k = Z.to_nat m)) as [Ek|Ek].
      - rewrite Ek, list_lookup_insert_eq by lia. rewrite Ek, Hother in Hu by done.
        by rewrite Hu.
      - rewrite list_lookup_insert_ne by done. by rewrite Hother. }
    split_and!; try done.
    + split.
      * cbn [arr3 sa_capacity sa_nodes]. unfold nodes3. rewrite length_insert, Hlen2, Hcap1.
        apply (swf_capacity _ Hwf).
      * cbn [arr3 sa_capacity sa_used]. lia.
      * cbn [arr3 sa_nodes]. unfold nodes3, nodes2. apply Forall_insert; [|simpl; lia].
        apply Forall_insert; [apply (swf_nonneg _ Hwf1)|done].
      * intros i m. rewrite Hel3. intros Hi3. cbn [arr3 sa_capacity sa_nodes]. rewrite Hcap1.
        destruct (decide (i < k)%nat).
        -- rewrite lookup_app_l in Hi3 by lia.
           destruct (swf_back _ Hwf i m Hi3) as (Hm & nd' & Hnd' & E').
           split; [done|]. assert (m <> n) as Hmn.
           { intros ->. apply Hin. apply list_elem_of_lookup. eauto. }
           destruct (Hidx m) as [Hi' _]; [lia|done|]. rewrite Hnd' in Hi'.
           destruct (nodes3 !! Z.to_nat m) as [x|]; [|done].
           exists x. split; [done|]. simpl in Hi'. congruence.
        -- rewrite lookup_app_r in Hi3 by lia. rewrite Hlk in Hi3.
           destruct (i - k)%nat eqn:Eik; [|done]. simpl in Hi3. injection Hi3 as <-.
           split; [done|]. unfold nodes3. rewrite list_lookup_insert_eq by lia.
           eexists. split; [done|]. simpl. lia.
    + intros m Hm Hne. by apply Hidx.
    + cbn [arr3 sa_nodes]. unfold nodes3. rewrite list_lookup_insert_eq by lia. simpl.
      rewrite Hnd2'. by case_decide.
Qed.
End sarray.

Lemma foreach_loop_visits {A} (arr : HSArray A) n i cur (l : Z -> Z * A) :
  0 <= i -> (forall j, 0 <= j < sa_used arr -> foreach_at arr j = Ok (l j)) ->
  sa_used arr - i = Z.of_nat n ->
  foreach_loop n arr i cur =
    Ok (take n (cur :: ((fun k => l (i + Z.of_nat k)) <$> seq 0 n))).
Proof.
  intros Hi Hl. revert i cur Hi. induction n as [|n IH]; intros i cur Hi Hn; cbn [foreach_loop].
  - by destruct (Z.ltb_spec i (sa_used arr)); [lia|].
  - destruct (Z.ltb_spec i (sa_used arr)); [|lia]. rewrite Hl by lia. cbn [mbind outcome_bind].
    rewrite IH by lia. cbn [mbind outcome_bind]. rewrite <- cons_seq, fmap_cons. cbn [take].
    do 2 f_equal. f_equal. rewrite Z.add_0_r. f_equal.
    rewrite <- fmap_S_seq, <- list_fmap_compose. apply list_fmap_ext.
    intros k x _. simpl. f_equal. lia.
Qed.

Lemma foreach_at_ok {A} (arr : HSArray A) j :
  sarray_wf arr -> 0 <= j < sa_used arr ->
  exists e v, sa_elems arr !! Z.to_nat j = Some e /\ 0 <= e < sa_capacity arr /\
    foreach_at arr j = Ok (e, v) /\ sa_lookup arr e = Some v.
Proof.
  intros Hwf Hj. pose proof (swf_used _ Hwf).
  destruct (sa_node_ok arr j Hwf) as (nd & E & Hnd & _); [lia|].
  assert (sa_elems arr !! Z.to_nat j = Some (sn_elem nd)) as Hel.
  { rewrite sa_elems_lookup, decide_True by lia. by rewrite Hnd. }
  destruct (swf_back _ Hwf _ _ Hel) as (He & c & Hc & _).
  exists (sn_elem nd), (sn_content c). split_and!; [done|lia|lia| |].
  - unfold foreach_at. rewrite E. cbn [mbind outcome_bind]. unfold sa_node.
    by rewrite (proj2 (Z.leb_le 0 _)), Hc by lia.
  - unfold sa_lookup. rewrite decide_True, Hc by (by eapply list_elem_of_lookup_2). done.
Qed.

Lemma clear_wf {A} (arr : HSArray A) : sarray_wf arr -> sarray_wf (h_sarray_clear arr).
Proof. intros [H1 H2 H3 H4]. split; simpl; try done; lia. Qed.

Lemma sarray_new_wf {A} (memory : list (HSArrayNode A)) :
  Forall (fun nd => 0 <= sn_index nd) memory -> sarray_wf (h_sarray_new memory).
Proof. intros Hmem. split; simpl; try done; lia. Qed.

Lemma lookup_unused {A} (arr : HSArray A) n : sa_used arr = 0 -> sa_lookup arr n = None.
Proof.
  intros Hu. unfold sa_lookup, sa_elems. rewrite Hu. case_decide as Hin; [|done].
  by apply not_elem_of_nil in Hin.
Qed.

(** Setting an element, in terms of the map. *)
Lemma set_lookup_ok {A} (arr : HSArray A) n v :
  sarray_wf arr -> 0 <= n < sa_capacity arr ->
  exists arr', h_sarray_set arr n v = Ok arr' /\ sarray_wf arr' /\
    sa_capacity arr' = sa_capacity arr /\ 0 < sa_used arr' /\ sa_lookup arr' n = Some v /\
    forall m, 0 <= m -> m <> n -> sa_lookup arr' m = sa_lookup arr m.
Proof.
  intros Hwf Hn. destruct (set_ok arr n v Hwf Hn) as (arr' & E & Hwf' & Hc & Hel & Hoth & Hv).
  assert (n ∈ sa_elems arr') as Hin.
  { rewrite Hel. case_decide; [done|]. apply elem_of_app. right. by left. }
  exists arr'. split_and!; try done.
  - apply list_elem_of_lookup in Hin as [i Hi]. rewrite sa_elems_lookup in Hi. case_decide; [lia|done].
  - unfold sa_lookup. by rewrite decide_True.
  - intros m Hm Hne. unfold sa_lookup. rewrite Hoth, Hel by done.
    destruct (decide (m ∈ sa_elems arr)) as [Hm'|Hm'].
    + rewrite decide_True; [done|]. case_decide; [done|]. apply elem_of_app. by left.
    + rewrite decide_False; [done|]. case_decide; [done|].
      rewrite elem_of_app, list_elem_of_singleton. tauto.
Qed.

(** The iteration of a sound array: the pairs, and the order of the keys. *)
Lemma foreach_ok {A} (arr : HSArray A) :
  sarray_wf arr -> 0 < sa_used arr ->
  exists kvs, h_sarray_foreach arr = Ok kvs /\
    Forall (fun kv => 0 <= kv.1 < sa_capacity arr /\ sa_lookup arr kv.1 = Some kv.2) kvs /\
    kvs.*1 = take 1 (sa_elems arr) ++ take (length (sa_elems arr) - 1) (sa_elems arr).
Proof.
  intros Hwf Hu. destruct (foreach_at_ok arr 0 Hwf) as (e0 & v0 & _ & _ & E0 & _); [lia|].
  set (l j := match foreach_at arr j with Ok x => x | _ => (e0, v0) end).
  assert (forall j, 0 <= j < sa_used arr -> foreach_at arr j = Ok (l j)) as Hl.
  { intros j Hj. unfold l. by destruct (foreach_at_ok arr j Hwf Hj) as (? & ? & _ & _ & -> & _). }
  assert (forall j, 0 <= j < sa_used arr -> sa_elems arr !! Z.to_nat j = Some (l j).1 /\
    0 <= (l j).1 < sa_capacity arr /\ sa_lookup arr (l j).1 = Some (l j).2) as Hp.
  { intros j Hj. destruct (foreach_at_ok arr j Hwf Hj) as (e & v & He & Hr & E & Hv).
    rewrite (Hl j Hj) in E. by injection E as ->. }
  unfold h_sarray_foreach. rewrite Hl by lia. cbn [mbind outcome_bind].
  rewrite (foreach_loop_visits _ _ _ _ l) by (done || lia).
  assert (((fun k => l (0 + Z.of_nat k)) <$> seq 0 (Z.to_nat (sa_used arr))).*1 = sa_elems arr) as Hk.
  { apply list_eq. intros i. rewrite !list_lookup_fmap, sa_elems_lookup.
    destruct (decide (i < Z.to_nat (sa_used arr))%nat) as [Hi|Hi].
    - rewrite lookup_seq_lt by done. simpl.
      destruct (Hp (Z.of_nat i)) as (Hx & _); [lia|]. rewrite Nat2Z.id, sa_elems_lookup, decide_True in Hx by done.
      by rewrite Hx.
    - by rewrite lookup_seq_ge by lia. }
  assert (length (sa_elems arr) = Z.to_nat (sa_used arr)) as Hn
    by (by rewrite <- Hk, !length_fmap, length_seq).
  eexists. split; [done|]. split.
  - apply Forall_take. constructor; [by apply Hp|]. apply list.Forall_forall. intros kv Hkv.
    apply list_elem_of_fmap in Hkv as (k & -> & Hk'%elem_of_seq). apply Hp. lia.
  - rewrite Hn. destruct (Z.to_nat (sa_used arr)) as [|n] eqn:E; [lia|].
    cbn [take]. rewrite fmap_cons, fmap_take, Hk. simpl. rewrite Nat.sub_0_r.
    destruct (Hp 0) as (Hx & _); [lia|]. destruct (sa_elems arr); [done|]. simpl in Hx. by simplify_eq/=.
Qed.

(** C27: sparse arrays need no initialisation: from any memory the invariant
    holds, an array that was cleared has no element, a set element is read back,
    the others are unchanged, and the set never runs out of entries. *)
Theorem h_sarray_spec {A} (memory : list (HSArrayNode A)) :
  Forall (fun nd => 0 <= sn_index nd) memory ->
  sarray_wf (h_sarray_new memory) /\
  forall arr : HSArray A, sarray_wf arr ->
    (sarray_wf (h_sarray_clear arr) /\
     forall n, 0 <= n < sa_capacity arr -> h_sarray_get (h_sarray_clear arr) n = Ok None) /\
    (forall n v, 0 <= n < sa_capacity arr ->
     exists arr', h_sarray_set arr n v = Ok arr' /\ sarray_wf arr' /\
       sa_capacity arr' = sa_capacity arr /\ h_sarray_get arr' n = Ok (Some v) /\
       forall m, 0 <= m < sa_capacity arr -> m <> n -> h_sarray_get arr' m = h_sarray_get arr m).
Proof.
  intros Hmem. split; [by apply sarray_new_wf|]. intros arr Hwf. split.
  - split; [by apply clear_wf|]. intros n Hn. rewrite get_ok by auto using clear_wf. done.
  - intros n v Hn. destruct (set_lookup_ok arr n v Hwf Hn) as (arr' & E & Hwf' & Hc & _ & Hv & Hm).
    exists arr'. split_and!; [done..| |].
    + rewrite get_ok by (done || by rewrite Hc). by rewrite Hv.
    + intros m Hr Hne. rewrite !get_ok by (done || by rewrite Hc). by rewrite Hm by lia.
Qed.

(** C38: The iteration macro visits the first element twice and never the last,
    in every sound array: its step reads the node before it increments the
    index. With one element set that element is visited once. *)
Theorem h_sarray_foreach_skips_last {A} (arr : HSArray A) e es :
  sarray_wf arr -> sa_elems arr = e :: es ->
  exists kvs, h_sarray_foreach arr = Ok kvs /\
    Forall (fun kv => h_sarray_get arr kv.1 = Ok (Some kv.2)) kvs /\
    kvs.*1 = e :: take (length es) (e :: es).
Proof.
  intros Hwf He.
  assert (0 < sa_used arr) as Hu.
  { assert (sa_elems arr !! 0%nat = Some e) as H by (by rewrite He).
    rewrite sa_elems_lookup in H. case_decide; [lia|done]. }
  destruct (foreach_ok arr Hwf Hu) as (kvs & E & Hkv & Hk). exists kvs. split; [done|]. split.
  - eapply list.Forall_impl; [exact Hkv|]. intros [k v] [Hr Hv]. simpl in *.
    rewrite get_ok by done. by rewrite Hv.
  - rewrite Hk, He. simpl. by rewrite Nat.sub_0_r.
Qed.

(** * Witnesses *)

(** Memory with arbitrary indices, and the array with 3 set before 1. *)
Definition sparse_memory : list (HSArrayNode nat) :=
  [mkSNode 7 3 0%nat; mkSNode 9 1 0%nat; mkSNode 0 2 0%nat; mkSNode 0 0 0%nat].
Definition sparse_3_1 : HSArray nat :=
  mkSArray [mkSNode 3 3 0%nat; mkSNode 1 1 20%nat; mkSNode 0 2 0%nat; mkSNode 0 0 10%nat] 4 2.

Lemma sparse_memory_nonneg : Forall (fun nd => 0 <= sn_index nd) sparse_memory.
Proof. repeat constructor; simpl; lia. Qed.

Lemma sparse_3_1_wf : sarray_wf sparse_3_1.
Proof.
  split; simpl; try lia.
  - repeat constructor; simpl; lia.
  - intros i n Hi. destruct i as [|[|i]]; simplify_eq/=; (split; [lia|]); by eexists.
Qed.

Lemma h_sarray_spec_witness :
  sarray_wf (h_sarray_new sparse_memory) /\
  exists arr', h_sarray_set sparse_3_1 2 30%nat = Ok arr' /\
    h_sarray_get arr' 2 = Ok (Some 30%nat) /\ h_sarray_get arr' 3 = Ok (Some 10%nat).
Proof.
  destruct (h_sarray_spec sparse_memory sparse_memory_nonneg) as [Hn H].
  split; [exact Hn|]. destruct (H sparse_3_1 sparse_3_1_wf) as [_ Hset].
  destruct (Hset 2 30%nat ltac:(simpl; lia)) as (arr' & E & _ & _ & Hg & Ho).
  exists arr'. split; [exact E|]. split; [exact Hg|]. apply (Ho 3); simpl; lia.
Defined.

Lemma h_sarray_foreach_skips_last_witness :
  exists kvs, h_sarray_foreach sparse_3_1 = Ok kvs /\
    Forall (fun kv => h_sarray_get sparse_3_1 kv.1 = Ok (Some kv.2)) kvs /\
    kvs.*1 = [3; 3].
Proof. exact (h_sarray_foreach_skips_last sparse_3_1 3 [1] sparse_3_1_wf eq_refl). Defined.
