(* ===== verification/Slist.v ===== *)
(** Singly linked lists (src/src/datastructures.c: h_slist_*; src/src/internal.h:
    HSlist, HSlistNode, h_slist_top, h_slist_empty).

    Nodes live in a heap indexed by address and are changed in place, as in the
    code. [slist h sl l] says that the list [sl] of the heap [h] holds [l]; the
    operations are proved to do to [l] what the packrat back end assumes. *)

From S2P Require Import Prelude.

Record HSlistNode := mkSlNode { sl_elem : nat; sl_next : option nat }.
Record HSlist := mkSlist { sl_head : option nat }.

Abbreviation SM := (ST (list HSlistNode)).

(** [h_arena_malloc] of a node. *)
Definition new_node (nd : HSlistNode) : SM (option nat) := fun h =>
  Ok (Some (length h), h ++ [nd]).
Definition load_node (a : nat) : SM HSlistNode := fun h =>
  nd ← deref OutOfBounds (h !! a); Ok (nd, h).
Definition store_node (a : nat) (nd : HSlistNode) : SM unit := modify (fun h => <[a := nd]> h).

Definition h_slist_new : HSlist := mkSlist None.

Definition h_slist_push (sl : HSlist) (item : nat) : SM HSlist :=
  a ← new_node (mkSlNode item (sl_head sl)); mret (mkSlist a).

(** [h_slist_drop] and [h_slist_pop], which differ in freeing the node. *)
Definition h_slist_pop (sl : HSlist) : SM (option nat * HSlist) :=
  match sl_head sl with
  | None => mret (None, sl)
  | Some a => nd ← load_node a; mret (Some (sl_elem nd), mkSlist (sl_next nd))
  end.
Definition h_slist_drop (sl : HSlist) : SM (option nat * HSlist) := h_slist_pop sl.

Definition h_slist_top (sl : HSlist) : SM nat :=
  a ← lift (deref NullDeref (sl_head sl)); nd ← load_node a; mret (sl_elem nd).

Definition h_slist_empty (sl : HSlist) : bool := bool_decide (sl_head sl = None).

(** The loop of [h_slist_find]; [fuel] bounds the length of the list. *)
Fixpoint find_loop (fuel : nat) (node : option nat) (item : nat) : SM bool :=
  match node with
  | None => mret false
  | Some a =>
      match fuel with
      | O => out_of_fuel
      | S fuel =>
          nd ← load_node a;
          if (sl_elem nd =? item)%nat then mret true else find_loop fuel (sl_next nd) item
      end
  end.
Definition h_slist_find (sl : HSlist) (item : nat) : SM bool := fun h =>
  find_loop (length h) (sl_head sl) item h.

(** The loop of [h_slist_remove_all]: the head of the list at the end. *)
Fixpoint remove_loop (fuel : nat) (node prev : option nat) (hd : option nat) (item : nat)
    : SM (option nat) :=
  match node with
  | None => mret hd
  | Some a =>
      match fuel with
      | O => out_of_fuel
      | S fuel =>
          nd ← load_node a;
          if (sl_elem nd =? item)%nat then
            match prev with
            | Some b =>
                pd ← load_node b;
                _ ← store_node b (mkSlNode (sl_elem pd) (sl_next nd));
                remove_loop fuel (sl_next nd) prev hd item
            | None => remove_loop fuel (sl_next nd) None (sl_next nd) item
            end
          else remove_loop fuel (sl_next nd) (Some a) hd item
      end
  end.
Definition h_slist_remove_all (sl : HSlist) (item : nat) : SM HSlist := fun h =>
  '(hd, h') ← remove_loop (length h) (sl_head sl) None (sl_head sl) item h; Ok (mkSlist hd, h').

(** The loop of [h_slist_copy]: append each element after [tail]. *)
Fixpoint copy_loop (fuel : nat) (head : option nat) (tail : nat) : SM unit :=
  match head with
  | None => mret tt
  | Some a =>
      match fuel with
      | O => out_of_fuel
      | S fuel =>
          nd ← load_node a;
          node ← new_node (mkSlNode (sl_elem nd) None);
          td ← load_node tail;
          _ ← store_node tail (mkSlNode (sl_elem td) node);
          n ← lift (deref NullDeref node);
          copy_loop fuel (sl_next nd) n
      end
  end.
Definition h_slist_copy (sl : HSlist) : SM HSlist := fun h =>
  match sl_head sl with
  | None => Ok (h_slist_new, h)
  | Some a =>
      (nd ← load_node a;
       ret ← h_slist_push h_slist_new (sl_elem nd);
       tail ← lift (deref NullDeref (sl_head ret));
       _ ← copy_loop (length h) (sl_next nd) tail;
       mret ret) h
  end.

(** * Representation *)

(** The nodes at [addrs] link [p] to NULL and hold [l]. *)
Fixpoint chain (h : list HSlistNode) (p : option nat) (addrs l : list nat) : Prop :=
  match addrs, l with
  | [], [] => p = None
  | a :: addrs, x :: l => p = Some a /\ exists q, h !! a = Some (mkSlNode x q) /\ chain h q addrs l
  | _, _ => False
  end.

Definition slist (h : list HSlistNode) (sl : HSlist) (addrs l : list nat) : Prop :=
  NoDup addrs /\ chain h (sl_head sl) addrs l.

Lemma chain_frame h h' p addrs l :
  (forall a, a ∈ addrs -> h' !! a = h !! a) -> chain h p addrs l -> chain h' p addrs l.
Proof.
  revert p l. induction addrs as [|a addrs IH]; intros p [|x l] Hf; simpl; try done.
  intros [-> (q & Ha & Hc)]. split; [done|]. exists q. rewrite Hf by (by left).
  split; [done|]. apply IH; [|done]. intros. apply Hf. by right.
Qed.

Lemma chain_lt h p addrs l a : chain h p addrs l -> a ∈ addrs -> (a < length h)%nat.
Proof.
  revert p l. induction addrs as [|b addrs IH]; intros p [|x l] Hc Ha; simpl in Hc; try done.
  - by apply elem_of_nil in Ha.
  - destruct Hc as [_ (q & Hb & Hc)]. apply elem_of_cons in Ha as [->|Ha]; [|by eapply IH].
    by eapply lookup_lt_Some.
Qed.

Lemma chain_length h p addrs l : chain h p addrs l -> length addrs = length l.
Proof.
  revert p l. induction addrs as [|b addrs IH]; intros p [|x l] Hc; simpl in *; try done.
  destruct Hc as [_ (q & _ & Hc)]. by rewrite (IH _ _ Hc).
Qed.

Lemma slist_fuel h p addrs l : NoDup addrs -> chain h p addrs l -> (length l <= length h)%nat.
Proof.
  intros Hnd Hc. rewrite <- (chain_length _ _ _ _ Hc), <- (length_seq (length h) 0).
  apply submseteq_length, NoDup_submseteq; [done|]. intros a Ha. apply elem_of_seq.
  pose proof (chain_lt _ _ _ _ _ Hc Ha). lia.
Qed.

Lemma find_loop_ok fuel h p addrs l item :
  chain h p addrs l -> (length l <= fuel)%nat ->
  find_loop fuel p item h = Ok (bool_decide (item ∈ l), h).
Proof.
  revert p addrs l. induction fuel as [|fuel IH]; intros p [|a addrs] [|x l] Hc Hf;
    simpl in Hc, Hf; try done; try lia.
  1,2: subst; done.
  destruct Hc as [-> (q & Ha & Hc)]. cbn [find_loop].
  unfold mbind, ST_bind, load_node. rewrite Ha. cbn.
  destruct (Nat.eqb_spec x item) as [->|Hne].
  - rewrite bool_decide_true by (by left). done.
  - rewrite (IH q addrs l) by (done || lia). do 2 f_equal. apply bool_decide_ext.
    rewrite elem_of_cons. split; [by right|]. by intros [->|].
Qed.

(** Removal after a node [b] that stays. *)
Lemma remove_loop_after fuel h p addrs l item b y hd :
  chain h p addrs l -> (length l <= fuel)%nat -> NoDup (b :: addrs) ->
  h !! b = Some (mkSlNode y p) ->
  exists h' addrs', remove_loop fuel p (Some b) hd item h = Ok (hd, h') /\
    chain h' (Some b) (b :: addrs') (y :: filter (.≠ item) l) /\
    addrs' `sublist_of` addrs /\ length h' = length h /\
    forall a, a ∉ b :: addrs -> h' !! a = h !! a.
Proof.
  revert h p addrs l b y. induction fuel as [|fuel IH]; intros h p [|a addrs] [|x l] b y Hc Hf Hnd Hb;
    simpl in Hc, Hf; try done; try lia.
  1,2: subst; exists h, []; cbn [remove_loop]; split_and!; try done; simpl; eauto.
  destruct Hc as [-> (q & Ha & Hc)]. cbn [remove_loop].
  apply list.NoDup_cons in Hnd as [Hbn Hnd]. apply not_elem_of_cons in Hbn as [Hba Hbn].
  unfold mbind at 1, ST_bind at 1, load_node at 1. rewrite Ha. cbn [deref mbind outcome_bind sl_elem sl_next].
  destruct (Nat.eqb_spec x item) as [->|Hne].
  - unfold mbind at 1, ST_bind at 1, load_node at 1. rewrite Hb. cbn [deref mbind outcome_bind sl_elem].
    unfold mbind at 1, ST_bind at 1, store_node, modify.
    apply list.NoDup_cons in Hnd as [Han Hnd].
    destruct (IH (<[b := mkSlNode y q]> h) q addrs l b y) as (h' & addrs' & E & Hc' & Hs & Hl & Hfr).
    { eapply chain_frame; [|exact Hc]. intros c Hcin. apply list_lookup_insert_ne. by intros ->. }
    { lia. } { by constructor. }
    { apply list_lookup_insert_eq. by eapply lookup_lt_Some. }
    exists h', addrs'. rewrite filter_cons_False by (by intros ?). split; [exact E|].
    split; [exact Hc'|]. split; [by apply sublist_cons|].
    split; [by rewrite Hl, length_insert|]. intros c Hcn.
    apply not_elem_of_cons in Hcn as [? Hcn]. apply not_elem_of_cons in Hcn as [? Hcn].
    rewrite Hfr by (by apply not_elem_of_cons). by apply list_lookup_insert_ne.
  - destruct (IH h q addrs l a x) as (h' & addrs' & E & Hc' & Hs & Hl & Hfr); [done|lia|done|done|].
    exists h', (a :: addrs'). rewrite filter_cons_True by done. split; [exact E|].
    split_and!.
    + simpl. split; [done|]. exists (Some a). split; [|exact Hc'].
      rewrite Hfr; [done|]. by apply not_elem_of_cons.
    + by apply sublist_skip.
    + done.
    + intros c Hcn. apply not_elem_of_cons in Hcn as [? Hcn]. by apply Hfr.
Qed.

(** Removal while the head itself may go. *)
Lemma remove_loop_head fuel h p addrs l item :
  chain h p addrs l -> (length l <= fuel)%nat -> NoDup addrs ->
  exists hd h' addrs', remove_loop fuel p None p item h = Ok (hd, h') /\
    chain h' hd addrs' (filter (.≠ item) l) /\ addrs' `sublist_of` addrs /\
    length h' = length h /\ forall a, a ∉ addrs -> h' !! a = h !! a.
Proof.
  revert h p addrs l. induction fuel as [|fuel IH]; intros h p [|a addrs] [|x l] Hc Hf Hnd;
    simpl in Hc, Hf; try done; try lia.
  1,2: subst; exists None, h, []; done.
  destruct Hc as [-> (q & Ha & Hc)]. cbn [remove_loop].
  unfold mbind at 1, ST_bind at 1, load_node at 1. rewrite Ha. cbn [deref mbind outcome_bind sl_elem sl_next].
  destruct (Nat.eqb_spec x item) as [->|Hne].
  - apply list.NoDup_cons in Hnd as [Han Hnd].
    destruct (IH h q addrs l) as (hd & h' & addrs' & E & Hc' & Hs & Hl & Hfr); [done|lia|done|].
    exists hd, h', addrs'. rewrite filter_cons_False by (by intros ?).
    split_and!; [exact E|done|by apply sublist_cons|done|].
    intros c Hcn. apply Hfr. intros Hin. apply Hcn. by right.
  - destruct (remove_loop_after fuel h q addrs l item a x (Some a)) as
      (h' & addrs' & E & Hc' & Hs & Hl & Hfr); [done|lia|done|done|].
    exists (Some a), h', (a :: addrs'). rewrite filter_cons_True by done.
    split_and!; [exact E|exact Hc'|by apply sublist_skip|done|done].
Qed.

(** Copying after a node [t] whose next is NULL. *)
Lemma copy_loop_ok fuel h p addrs l t y :
  chain h p addrs l -> (length l <= fuel)%nat -> t ∉ addrs -> h !! t = Some (mkSlNode y None) ->
  exists h' new, copy_loop fuel p t h = Ok (tt, h') /\
    chain h' (Some t) (t :: new) (y :: l) /\ new = seq (length h) (length l) /\
    (length h' = length h + length l)%nat /\
    forall a, a <> t -> (a < length h)%nat -> h' !! a = h !! a.
Proof.
  revert h p addrs l t y. induction fuel as [|fuel IH]; intros h p [|a addrs] [|x l] t y Hc Hf Ht Hty;
    simpl in Hc, Hf; try done; try lia.
  1,2: subst; exists h, []; cbn; split_and!; try done; eauto; lia.
  destruct Hc as [-> (q & Ha & Hc)]. cbn [copy_loop].
  apply not_elem_of_cons in Ht as [Hta Htn].
  unfold mbind at 1, ST_bind at 1, load_node at 1. rewrite Ha. cbn [deref mbind outcome_bind sl_elem sl_next].
  unfold mbind at 1, ST_bind at 1, new_node. pose proof (lookup_lt_Some _ _ _ Hty) as Htl.
  unfold mbind at 1, ST_bind at 1, load_node at 1.
  rewrite lookup_app_l, Hty by done. cbn [deref mbind outcome_bind sl_elem].
  unfold mbind at 1, ST_bind at 1, store_node, modify.
  unfold mbind at 1, ST_bind at 1, lift. cbn [deref].
  set (h1 := <[t := _]> _). set (n := length h).
  assert (length h1 = S (length h)) as Hl1.
  { unfold h1. rewrite length_insert, length_app. simpl. lia. }
  assert (Hold : forall c, c <> t -> (c < length h)%nat -> h1 !! c = h !! c).
  { intros c Hct Hcl. unfold h1. rewrite list_lookup_insert_ne by done. by apply lookup_app_l. }
  assert (Hn : h1 !! n = Some (mkSlNode x None)).
  { unfold h1, n. rewrite list_lookup_insert_ne by lia. by apply list_lookup_middle. }
  destruct (IH h1 q addrs l n x) as (h' & new & E & Hc' & Hnew & Hl & Hfr).
  { eapply chain_frame; [|exact Hc]. intros c Hcin. apply Hold; [by intros ->|].
    by eapply chain_lt. }
  { lia. }
  { intros Hin. apply (chain_lt _ _ _ _ _ Hc) in Hin. unfold n in Hin. lia. }
  { done. }
  exists h', (n :: new). split; [exact E|]. split_and!.
  - split; [done|]. exists (Some n). split; [|exact Hc'].
    rewrite Hfr by (unfold n in *; lia). unfold h1. apply list_lookup_insert_eq.
    rewrite length_app. simpl. lia.
  - simpl. rewrite Hnew, Hl1. done.
  - simpl. lia.
  - intros c Hct Hcl. rewrite Hfr by (unfold n; lia). by apply Hold.
Qed.

(** The linked lists implement lists: pushing, popping and finding, removing
    all occurrences of an item, and copying into fresh nodes; nodes of other
    lists are left alone, so a copy does not see later changes. *)
Theorem h_slist_spec h sl addrs l item :
  slist h sl addrs l ->
  (exists sl', h_slist_push sl item h = Ok (sl', h ++ [mkSlNode item (sl_head sl)]) /\
     slist (h ++ [mkSlNode item (sl_head sl)]) sl' (length h :: addrs) (item :: l)) /\
  (exists sl', h_slist_pop sl h = Ok (head l, sl', h) /\ slist h sl' (tail addrs) (tail l)) /\
  h_slist_find sl item h = Ok (bool_decide (item ∈ l), h) /\
  (exists sl' h' addrs', h_slist_remove_all sl item h = Ok (sl', h') /\
     slist h' sl' addrs' (filter (.≠ item) l) /\ addrs' `sublist_of` addrs /\
     forall a, a ∉ addrs -> h' !! a = h !! a) /\
  (exists sl' h', h_slist_copy sl h = Ok (sl', h') /\ slist h' sl addrs l /\
     slist h' sl' (seq (length h) (length l)) l).
Proof.
  intros [Hnd Hc]. pose proof (slist_fuel _ _ _ _ Hnd Hc) as Hfuel. split_and!.
  - eexists. split; [done|]. split.
    + constructor; [|done]. intros Hin. apply (chain_lt _ _ _ _ _ Hc) in Hin. lia.
    + simpl. split; [done|]. eexists. split; [by apply list_lookup_middle|].
      eapply chain_frame; [|exact Hc]. intros a Ha. apply lookup_app_l. by eapply chain_lt.
  - unfold h_slist_pop. destruct addrs as [|a addrs], l as [|x l]; simpl in Hc; try done.
    + rewrite Hc. eexists. split; [done|]. by split.
    + destruct Hc as [-> (q & Ha & Hc)]. unfold mbind, ST_bind, load_node. rewrite Ha. cbn.
      eexists. split; [done|]. apply list.NoDup_cons in Hnd as [_ Hnd]. by split.
  - by apply (find_loop_ok _ _ _ addrs).
  - destruct (remove_loop_head (length h) h (sl_head sl) addrs l item)
      as (hd & h' & addrs' & E & Hc' & Hs & _ & Hfr); [done..|].
    exists (mkSlist hd), h', addrs'. unfold h_slist_remove_all. rewrite E. split_and!; try done.
    split; [|done]. by eapply sublist_NoDup.
  - unfold h_slist_copy. destruct addrs as [|a addrs], l as [|x l]; simpl in Hc; try done.
    + rewrite Hc. do 2 eexists. split; [done|]. split; split; simpl; done.
    + pose proof Hc as [-> (q & Ha & Hc1)].
      unfold mbind at 1, ST_bind at 1, load_node. rewrite Ha. cbn [deref mbind outcome_bind sl_elem sl_next].
      unfold mbind at 1, ST_bind at 1.
      change (h_slist_push h_slist_new x h) with
        (@Ok (HSlist * list HSlistNode) (mkSlist (Some (length h)), h ++ [mkSlNode x None])).
      cbv beta iota. unfold mbind at 1, ST_bind at 1, lift. cbn [deref sl_head].
      set (h1 := h ++ [mkSlNode x None]).
      assert (Hold : forall c, (c < length h)%nat -> h1 !! c = h !! c)
        by (intros; by apply lookup_app_l).
      destruct (copy_loop_ok (length h) h1 q addrs l (length h) x) as (h' & new & E & Hc' & -> & Hl & Hfr).
      { eapply chain_frame; [|exact Hc1]. intros c Hcin. apply Hold. by eapply chain_lt. }
      { simpl in Hfuel. lia. }
      { intros Hin. apply (chain_lt _ _ _ _ _ Hc1) in Hin. lia. }
      { by apply list_lookup_middle. }
      unfold mbind, ST_bind. rewrite E. do 2 eexists. split; [done|].
      assert (length h1 = S (length h)) as Hl1 by (unfold h1; rewrite length_app; simpl; lia).
      split; split.
      * done.
      * eapply (chain_frame h); [|simpl; eauto]. intros c Hcin.
        pose proof (chain_lt h (Some a) (a :: addrs) (x :: l) c) as Hclt.
        specialize (Hclt ltac:(simpl; eauto) Hcin). rewrite Hfr by lia. by apply Hold.
      * apply NoDup_seq.
      * rewrite Hl1 in Hc'. exact Hc'.
Qed.

(** * Witness *)

(** The list 4, 5, 4 in the nodes 2, 0, 1. *)
Definition some_nodes : list HSlistNode :=
  [mkSlNode 5 (Some 1%nat); mkSlNode 4 None; mkSlNode 4 (Some 0%nat)].

Lemma some_nodes_slist : slist some_nodes (mkSlist (Some 2%nat)) [2; 0; 1]%nat [4; 5; 4]%nat.
Proof. split; [by apply (bool_decide_unpack _)|]. simpl. eauto 10. Qed.

Lemma h_slist_spec_witness :
  h_slist_find (mkSlist (Some 2%nat)) 4 some_nodes = Ok (true, some_nodes) /\
  exists sl' h' addrs', h_slist_remove_all (mkSlist (Some 2%nat)) 4 some_nodes = Ok (sl', h') /\
    slist h' sl' addrs' [5%nat].
Proof.
  destruct (h_slist_spec some_nodes (mkSlist (Some 2%nat)) _ _ 4 some_nodes_slist)
    as (_ & _ & Hf & (sl' & h' & addrs' & E & Hs & _) & _).
  split; [exact Hf|]. exists sl', h', addrs'. split; [exact E|exact Hs].
Defined.
