(* ===== verification/Platform.v ===== *)
(** The system allocator (src/src/system_allocator.c) and the stop watch of
    src/src/platform_bsdlike.c.

    The heap of the C library maps the addresses of blocks to their cells. A
    cell is a byte, a part of a size_t that was stored, or not initialised.
    With DEBUG__MEMFILL every block starts with its size, and new memory is
    filled with a byte. *)

From S2P Require Import Prelude.

(** * The C library *)

Inductive cell := Indet | Byte (b : Z) | Frag (size : Z) (i : nat).
#[global] Instance cell_eq_dec : EqDecision cell.
Proof. solve_decision. Defined.
Abbreviation heap := (gmap Z (list cell)).
Abbreviation H := (ST heap).

Section Allocator.
(** Where the library puts a block of this many bytes, if anywhere; where it
    moves one. *)
Context (malloc_at : heap -> Z -> option Z) (realloc_at : heap -> Z -> Z -> option Z).

Definition malloc (n : Z) : H (option Z) := fun h =>
  match malloc_at h n with
  | None => Ok (None, h)
  | Some b => Ok (Some b, <[b := replicate (Z.to_nat n) Indet]> h)
  end.

(** The cells up to the smaller of the sizes are kept. *)
Definition resize (n : nat) (cells : list cell) : list cell := take n cells ++ replicate (n - length cells) Indet.
Definition realloc (b n : Z) : H (option Z) := fun h =>
  cells ← deref OutOfBounds (h !! b);
  match realloc_at h b n with
  | None => Ok (None, h)
  | Some b' => Ok (Some b', <[b' := resize (Z.to_nat n) cells]> (delete b h))
  end.

Definition free (b : Z) : H unit := fun h =>
  _ ← deref OutOfBounds (h !! b); Ok (tt, delete b h).

(** Writes [cells] into the block [b] from offset [off] on. *)
Definition store_at (b : Z) (off : nat) (new : list cell) : H unit := fun h =>
  cells ← deref OutOfBounds (h !! b);
  if (off + length new <=? length cells)%nat
  then Ok (tt, <[b := take off cells ++ new ++ drop (off + length new) cells]> h)
  else Fault OutOfBounds.

(** A size_t at the start of a block. *)
Definition frags (size : Z) : list cell := Frag size <$> seq 0 8.
Definition load_size (b : Z) : H Z := fun h =>
  cells ← deref OutOfBounds (h !! b);
  match cells with
  | Frag size _ :: _ => if bool_decide (take 8 cells = frags size) then Ok (size, h) else Fault OutOfBounds
  | _ => Fault OutOfBounds
  end.

(** * The system allocator *)

(** [DEBUG__MEMFILL], when it is defined. *)
Context (DEBUG__MEMFILL : option Z).

Definition BLOCK_HEADER_SIZE : Z := match DEBUG__MEMFILL with Some _ => 8 | None => 0 end.
Definition block_size (alloc_size : Z) : Z := uint64 (BLOCK_HEADER_SIZE + alloc_size).
Definition block_for_user_ptr (uptr : Z) : Z := uptr - BLOCK_HEADER_SIZE.
Definition user_ptr (block : Z) : Z := block + BLOCK_HEADER_SIZE.

(** [memset(uptr + from, DEBUG__MEMFILL, n)] and the size in the header. *)
Definition fill (block : Z) (from n : nat) (size c : Z) : H unit :=
  _ ← store_at block (Z.to_nat BLOCK_HEADER_SIZE + from) (replicate n (Byte c));
  store_at block 0 (frags size).

Definition system_alloc (size : Z) : H (option Z) :=
  block ← malloc (block_size size);
  match block with
  | None => mret None
  | Some block =>
      _ ← match DEBUG__MEMFILL with Some c => fill block 0 (Z.to_nat size) size c | None => mret tt end;
      mret (Some (user_ptr block))
  end.

Definition system_realloc (uptr : option Z) (size : Z) : H (option Z) :=
  match uptr with
  | None => system_alloc size
  | Some uptr =>
      block ← realloc (block_for_user_ptr uptr) (block_size size);
      match block with
      | None => mret None
      | Some block =>
          _ ← match DEBUG__MEMFILL with
              | Some c =>
                  old_size ← load_size block;
                  if old_size <? size
                  then fill block (Z.to_nat old_size) (Z.to_nat (size - old_size)) size c
                  else store_at block 0 (frags size)
              | None => mret tt
              end;
          mret (Some (user_ptr block))
      end
  end.

Definition system_free (uptr : option Z) : H unit :=
  match uptr with None => mret tt | Some uptr => free (block_for_user_ptr uptr) end.

(** * What it promises *)

(** [u] is an allocation with the cells [user]. *)
Definition area (h : heap) (u : Z) (user : list cell) : Prop :=
  h !! block_for_user_ptr u =
    Some (match DEBUG__MEMFILL with Some _ => frags (Z.of_nat (length user)) ++ user | None => user end).

(** What new memory holds. *)
Definition fresh : cell := match DEBUG__MEMFILL with Some c => Byte c | None => Indet end.

Lemma block_user b : block_for_user_ptr (user_ptr b) = b.
Proof. unfold block_for_user_ptr, user_ptr. lia. Qed.

Lemma length_frags size : length (frags size) = 8%nat.
Proof. done. Qed.

Lemma block_size_small size : 0 <= size -> 8 + size < 2 ^ 64 -> block_size size = BLOCK_HEADER_SIZE + size.
Proof. intros H0 Hs. apply wrapu_small. unfold BLOCK_HEADER_SIZE. destruct DEBUG__MEMFILL; lia. Qed.

Lemma store_at_ok b off new h cells :
  h !! b = Some cells -> (off + length new <= length cells)%nat ->
  store_at b off new h = Ok (tt, <[b := take off cells ++ new ++ drop (off + length new) cells]> h).
Proof. intros Hb Hl. unfold store_at. rewrite Hb. cbn [deref mbind outcome_bind]. by rewrite (proj2 (Nat.leb_le _ _)). Qed.

(** Filling the last cells of a block with a header. *)
Lemma fill_ok b from n size c h hd user tl :
  BLOCK_HEADER_SIZE = 8 -> h !! b = Some (hd ++ user ++ tl) -> length hd = 8%nat -> length user = from -> length tl = n ->
  fill b from n size c h = Ok (tt, <[b := frags size ++ user ++ replicate n (Byte c)]> h).
Proof.
  intros HB Hb Hhd Hu Htl. unfold fill, mbind, ST_bind. rewrite HB. change (Z.to_nat 8) with 8%nat.
  erewrite store_at_ok; [|exact Hb|rewrite !length_app, length_replicate; lia].
  assert (take (8 + from) (hd ++ user ++ tl) = hd ++ user) as ->.
  { rewrite app_assoc, take_app_length'; [done|rewrite length_app; lia]. }
  rewrite (drop_ge (hd ++ user ++ tl)) by (rewrite !length_app, length_replicate; lia). rewrite app_nil_r, <- app_assoc.
  erewrite store_at_ok; [|by rewrite lookup_insert_eq|rewrite !length_app, length_frags, Hhd; lia].
  rewrite insert_insert_eq. cbn [take app]. rewrite length_frags, drop_app_length' by lia. done.
Qed.
Lemma header_cases :
  (exists c, DEBUG__MEMFILL = Some c /\ BLOCK_HEADER_SIZE = 8) \/ (DEBUG__MEMFILL = None /\ BLOCK_HEADER_SIZE = 0).
Proof. unfold BLOCK_HEADER_SIZE. destruct DEBUG__MEMFILL as [c|]; [left; by exists c|by right]. Qed.

(** An allocation is NULL, with nothing changed, or a new area of that many fresh
    cells; the other blocks stay. *)
Lemma system_alloc_spec size h :
  0 <= size -> 8 + size < 2 ^ 64 ->
  (malloc_at h (block_size size) = None /\ system_alloc size h = Ok (None, h)) \/
  exists u h', system_alloc size h = Ok (Some u, h') /\ malloc_at h (block_size size) = Some (block_for_user_ptr u) /\
    area h' u (replicate (Z.to_nat size) fresh) /\
    forall b, b <> block_for_user_ptr u -> h' !! b = h !! b.
Proof.
  intros H0 Hs. unfold system_alloc, mbind, ST_bind, malloc. destruct (malloc_at h _) as [b|] eqn:E; [right|by left].
  exists (user_ptr b). rewrite block_user. unfold area, fresh. rewrite block_user.
  destruct header_cases as [(c & Ec & HB)|[Ec HB]]; rewrite Ec.
  - erewrite (fill_ok b 0 _ size c _ (replicate 8 Indet) [] (replicate (Z.to_nat size) Indet));
      [|done| |done|done|by rewrite length_replicate].
    2: { rewrite lookup_insert_eq, block_size_small, HB, Z2Nat.inj_add, replicate_add by lia. done. }
    eexists. rewrite insert_insert_eq. split; [done|]. split; [done|]. split.
    + rewrite lookup_insert_eq, length_replicate, Z2Nat.id by lia. done.
    + intros b' Hb. by rewrite lookup_insert_ne.
  - eexists. split; [done|]. split; [done|]. rewrite block_size_small, HB, Z.add_0_l by lia. split.
    + by rewrite lookup_insert_eq.
    + intros b' Hb. by rewrite lookup_insert_ne.
Qed.

(** A reallocation is NULL, with nothing changed, or an area with the cells of the
    old one as far as they go and fresh cells after them. *)
Lemma system_realloc_spec u user size h :
  area h u user -> 0 <= size -> 8 + size < 2 ^ 64 ->
  (realloc_at h (block_for_user_ptr u) (block_size size) = None /\ system_realloc (Some u) size h = Ok (None, h)) \/
  exists u' h', system_realloc (Some u) size h = Ok (Some u', h') /\
    realloc_at h (block_for_user_ptr u) (block_size size) = Some (block_for_user_ptr u') /\
    area h' u' (take (Z.to_nat size) user ++ replicate (Z.to_nat size - length user) fresh) /\
    forall b, b <> block_for_user_ptr u -> b <> block_for_user_ptr u' -> h' !! b = h !! b.
Proof.
  intros Ha H0 Hs. unfold system_realloc, mbind, ST_bind, realloc. unfold area in Ha. rewrite Ha. cbn [deref].
  destruct (realloc_at h _ _) as [b|] eqn:E; [right|by left]. cbn [mbind outcome_bind].
  exists (user_ptr b). unfold area, fresh. rewrite block_user, block_size_small by lia.
  assert (forall h1 new b', b' <> block_for_user_ptr u -> b' <> b ->
    <[b := new]> (<[b := h1]> (delete (block_for_user_ptr u) h)) !! b' = h !! b') as Hother.
  { intros h1 new b' H1 H2. by rewrite !lookup_insert_ne, lookup_delete_ne. }
  destruct header_cases as [(c & Ec & HB)|[Ec HB]]; rewrite Ec, HB in *.
  - unfold resize. rewrite length_app, length_frags, Z2Nat.inj_add by lia. change (Z.to_nat 8) with 8%nat.
    replace (8 + Z.to_nat size - (8 + length user))%nat with (Z.to_nat size - length user)%nat by lia.
    assert (take (8 + Z.to_nat size) (frags (Z.of_nat (length user)) ++ user) =
      frags (Z.of_nat (length user)) ++ take (Z.to_nat size) user) as -> by (by apply take_app_add').
    rewrite <- app_assoc. set (tl := replicate _ Indet).
    assert (load_size b (<[b := frags (Z.of_nat (length user)) ++ take (Z.to_nat size) user ++ tl]>
      (delete (block_for_user_ptr u) h)) = Ok (Z.of_nat (length user), <[b := frags (Z.of_nat (length user)) ++
      take (Z.to_nat size) user ++ tl]> (delete (block_for_user_ptr u) h))) as ->.
    { unfold load_size. rewrite lookup_insert_eq. cbn [deref mbind outcome_bind frags fmap list_fmap seq app].
      by rewrite bool_decide_true. }
    destruct (Z.ltb_spec (Z.of_nat (length user)) size).
    + erewrite (fill_ok b _ _ size c _ (frags (Z.of_nat (length user))) (take (Z.to_nat size) user) tl);
        [|done|by rewrite lookup_insert_eq|done|rewrite length_take; lia|unfold tl; rewrite length_replicate; lia].
      eexists. split; [done|]. split; [done|]. split; [|intros b' H1 H2; by apply Hother].
      rewrite lookup_insert_eq, length_app, length_take, length_replicate. repeat f_equal; lia.
    + assert (tl = []) as -> by (unfold tl; by replace (Z.to_nat size - length user)%nat with 0%nat by lia).
      erewrite store_at_ok; [|by rewrite lookup_insert_eq|rewrite !length_app, !length_frags; lia].
      eexists. split; [done|]. split; [done|]. split; [|intros b' H1 H2; by apply Hother].
      rewrite lookup_insert_eq, length_frags, drop_app_length' by done. cbn [take app].
      replace (Z.to_nat size - length user)%nat with 0%nat by lia. cbn [replicate].
      rewrite app_nil_r. assert (Z.of_nat (length (take (Z.to_nat size) user)) = size) as -> by (rewrite length_take; lia).
      done.
  - eexists. split; [done|]. split; [done|]. rewrite Z.add_0_l. split.
    + rewrite lookup_insert_eq. done.
    + intros b' H1 H2. by rewrite lookup_insert_ne, lookup_delete_ne.
Qed.

Lemma system_free_spec u user h :
  area h u user -> system_free (Some u) h = Ok (tt, delete (block_for_user_ptr u) h).
Proof. intros Ha. unfold system_free, free. by rewrite Ha. Qed.

End Allocator.

(** The size of the block wraps around within eight bytes of the largest size_t:
    with DEBUG__MEMFILL the header does not fit, and filling the area leaves the
    block. *)
Lemma system_alloc_wraps malloc_at c h b :
  malloc_at h 7 = Some b -> system_alloc malloc_at (Some c) (2 ^ 64 - 1) h = Fault OutOfBounds.
Proof.
  intros Hb. unfold system_alloc, mbind, ST_bind, malloc.
  change (block_size (Some c) (2 ^ 64 - 1)) with 7. rewrite Hb. unfold fill, mbind, ST_bind, store_at.
  rewrite lookup_insert_eq. cbn [deref mbind outcome_bind].
  rewrite (proj2 (Nat.leb_gt _ _)); [done|]. rewrite !length_replicate. change (BLOCK_HEADER_SIZE (Some c)) with 8. lia.
Qed.

(** * The stop watch *)

Record timespec := mkTimespec { tv_sec : Z; tv_nsec : Z }.
Definition ns (t : timespec) : Z := tv_sec t * 1000000000 + tv_nsec t.

(** [h_platform_stopwatch_reset] keeps what gettime says; the difference later on. *)
Definition h_platform_stopwatch_reset (now : timespec) : timespec := now.
Definition h_platform_stopwatch_ns (start ts_now : timespec) : Z :=
  sint64 (sint64 ((tv_sec ts_now - tv_sec start) * 1000000000) + (tv_nsec ts_now - tv_nsec start)).

(** Within 290 years the difference does not overflow. *)
Lemma h_platform_stopwatch_ns_spec start ts_now :
  0 <= tv_nsec start < 1000000000 -> 0 <= tv_nsec ts_now < 1000000000 ->
  0 <= tv_sec start -> tv_sec start <= tv_sec ts_now < 9000000000 ->
  h_platform_stopwatch_ns (h_platform_stopwatch_reset start) ts_now = ns ts_now - ns start.
Proof.
  intros. unfold h_platform_stopwatch_ns, h_platform_stopwatch_reset, ns.
  rewrite (wraps_small 64 ((tv_sec ts_now - tv_sec start) * 1000000000)), wraps_small
    by (change (2 ^ (64 - 1)) with 9223372036854775808; lia).
  lia.
Qed.

(** gettime on NetBSD, from the user and system times of getrusage. *)
Record timeval := mkTimeval { tvl_sec : Z; tvl_usec : Z }.
Definition gettime (ru_utime ru_stime : timeval) : outcome timespec :=
  let tv_nsec := (tvl_usec ru_utime + tvl_usec ru_stime) * 1000 in
  let tv_sec := tvl_sec ru_utime + tvl_sec ru_utime in
  let ts := if 1000000000 <=? tv_nsec then mkTimespec (tv_sec + 1) (tv_nsec - 1000000000)
            else mkTimespec tv_sec tv_nsec in
  match ts with mkTimespec _ tv_nsec => _ ← assert_ok (tv_nsec <=? 1000000000); Ok ts end.

(** The nanoseconds are normal; the seconds are twice those of the user time, and
    those of the system time are lost. *)
Lemma gettime_spec u s :
  0 <= tvl_usec u < 1000000 -> 0 <= tvl_usec s < 1000000 ->
  exists t, gettime u s = Ok t /\ 0 <= tv_nsec t < 1000000000 /\
    ns t = 2 * tvl_sec u * 1000000000 + (tvl_usec u + tvl_usec s) * 1000.
Proof.
  intros Hu Hs. unfold gettime. destruct (Z.leb_spec 1000000000 ((tvl_usec u + tvl_usec s) * 1000));
    rewrite (proj2 (Z.leb_le _ _)) by lia; eexists; (split; [done|]); unfold ns; simpl; lia.
Qed.
