(* ===== verification/Arena.v ===== *)
(** The arena allocator (src/src/allocator.c: h_new_arena, h_arena_malloc,
    h_delete_arena, h_allocator_stats).

    [mm__->alloc] is the parameter [alloc]: its n-th call, for a size, gives a
    block or fails; blocks are named by the number of the call. Sizes are
    size_t, additions wrap. The theorems: the memory handed out is disjoint and
    inside its block, the statistics add up, and deletion frees every block. *)

From S2P Require Import Prelude.

(** sizeof of the two records and of a pointer, on a 64-bit platform. *)
Definition sizeof_link : Z := 24.
Definition sizeof_arena : Z := 40.
Definition sizeof_ptr : Z := 8.

(** A block on the chain: a dedicated one has no header but the next pointer. *)
Record arena_link := mkLink {
  ln_block : nat;
  ln_dedicated : bool;
  ln_free : Z;
  ln_used : Z;
}.

Record HArena := mkArena {
  ar_head : arena_link;
  ar_next : list arena_link;    (** the chain after the head *)
  ar_self : nat;                (** the block of the arena itself *)
  ar_block_size : Z;
  ar_used : Z;
  ar_wasted : Z;
}.

(** What the allocator has been asked for: the sizes of the blocks it gave. *)
Record heap := mkHeap { hp_calls : nat; hp_blocks : gmap nat Z }.

(** An address: block and offset. *)
Record address := mkAddr { ad_block : nat; ad_offset : Z }.

Section arena.
Context (alloc_ok : nat -> Z -> bool).

Definition mm_alloc (size : Z) : ST heap (option nat) := fun h =>
  let n := hp_calls h in
  if alloc_ok n size
  then Ok (Some n, mkHeap (S n) (<[n := size]> (hp_blocks h)))
  else Ok (None, mkHeap (S n) (hp_blocks h)).

Definition h_new_arena (block_size : Z) : ST heap (option HArena) :=
  let block_size := if block_size =? 0 then 4096 else block_size in
  ret ← mm_alloc sizeof_arena;
  link ← mm_alloc (uint64 (sizeof_link + block_size));
  match link with
  | None => mret None
  | Some b =>
      (* memset(link, 0, ...), then the fields of ret *)
      self ← lift (deref NullDeref ret);
      mret (Some (mkArena (mkLink b false block_size 0) [] self block_size 0
                    (uint64 (sizeof_link + sizeof_arena + block_size))))
  end.

Definition h_arena_malloc (arena : HArena) (size : Z) : ST heap (option address * HArena) :=
  let hd := ar_head arena in
  if size <=? ln_free hd then
    mret (Some (mkAddr (ln_block hd) (sizeof_link + ln_used hd)),
          mkArena (mkLink (ln_block hd) (ln_dedicated hd) (ln_free hd - size) (ln_used hd + size))
            (ar_next arena) (ar_self arena) (ar_block_size arena)
            (uint64 (ar_used arena + size)) (uint64 (ar_wasted arena - size)))
  else if ar_block_size arena <? size then
    let used := uint64 (ar_used arena + size) in
    let wasted := uint64 (ar_wasted arena + sizeof_ptr) in
    link ← mm_alloc (uint64 (size + sizeof_ptr));
    match link with
    | None => mret (None, mkArena hd (ar_next arena) (ar_self arena) (ar_block_size arena) used wasted)
    | Some b =>
        mret (Some (mkAddr b sizeof_ptr),
              mkArena hd (mkLink b true 0 size :: ar_next arena) (ar_self arena)
                (ar_block_size arena) used wasted)
    end
  else
    link ← mm_alloc (uint64 (sizeof_link + ar_block_size arena));
    match link with
    | None => mret (None, arena)
    | Some b =>
        mret (Some (mkAddr b sizeof_link),
              mkArena (mkLink b false (ar_block_size arena - size) size) (hd :: ar_next arena)
                (ar_self arena) (ar_block_size arena) (uint64 (ar_used arena + size))
                (uint64 (ar_wasted arena + sizeof_link + ar_block_size arena - size)))
    end.

(** [h_delete_arena]: the blocks it frees, in order. *)
Definition h_delete_arena (arena : HArena) : list nat :=
  (ln_block <$> ar_head arena :: ar_next arena) ++ [ar_self arena].

Definition h_allocator_stats (arena : HArena) : Z * Z := (ar_used arena, ar_wasted arena).

(** * Invariant *)

(** The memory got from the allocator. *)
Definition total (h : heap) : Z := map_fold (fun _ size acc => size + acc) 0 (hp_blocks h).

(** [regions] are the pieces handed out: address and size. The head block is
    filled from its start; the pieces are inside their blocks and apart. *)
Record arena_inv (h : heap) (a : HArena) (regions : list (address * Z)) : Prop := {
  ai_fresh : forall n size, hp_blocks h !! n = Some size -> (n < hp_calls h)%nat;
  ai_blocks : Permutation (h_delete_arena a) (map_to_list (hp_blocks h)).*1;
  ai_size : 0 < ar_block_size a < 2 ^ 62;
  ai_head : hp_blocks h !! ln_block (ar_head a) = Some (sizeof_link + ar_block_size a);
  ai_fill : 0 <= ln_free (ar_head a) /\ 0 <= ln_used (ar_head a) /\
            ln_free (ar_head a) + ln_used (ar_head a) = ar_block_size a;
  ai_inside : Forall (fun r => exists size, hp_blocks h !! ad_block r.1 = Some size /\
                 0 <= ad_offset r.1 /\ 0 <= r.2 /\ ad_offset r.1 + r.2 <= size) regions;
  ai_below : Forall (fun r => ad_block r.1 = ln_block (ar_head a) ->
                 ad_offset r.1 + r.2 <= sizeof_link + ln_used (ar_head a)) regions;
  ai_apart : forall i j r s, regions !! i = Some r -> regions !! j = Some s -> i <> j ->
    ad_block r.1 <> ad_block s.1 \/ ad_offset r.1 + r.2 <= ad_offset s.1 \/
    ad_offset s.1 + s.2 <= ad_offset r.1;
  ai_stats : ar_used a + ar_wasted a = total h;
  ai_stats_range : 0 <= ar_used a /\ 0 <= ar_wasted a /\ ar_block_size a - ln_used (ar_head a) <= ar_wasted a;
}.

Lemma total_insert h n size calls :
  hp_blocks h !! n = None -> total (mkHeap calls (<[n := size]> (hp_blocks h))) = size + total h.
Proof.
  intros Hn. unfold total. simpl. apply map_fold_insert_L; [|done].
  intros. lia.
Qed.

(** The caller's piece joins the regions. *)
Lemma regions_cons h a regions ad size bsize :
  arena_inv h a regions -> 0 <= size -> hp_blocks h !! ad_block ad = Some bsize ->
  0 <= ad_offset ad -> ad_offset ad + size <= bsize ->
  (forall r, r ∈ regions -> ad_block ad <> ad_block r.1 \/ ad_offset ad + size <= ad_offset r.1 \/
     ad_offset r.1 + r.2 <= ad_offset ad) ->
  Forall (fun r => exists size, hp_blocks h !! ad_block r.1 = Some size /\
    0 <= ad_offset r.1 /\ 0 <= r.2 /\ ad_offset r.1 + r.2 <= size) ((ad, size) :: regions) /\
  (forall i j r s, ((ad, size) :: regions) !! i = Some r -> ((ad, size) :: regions) !! j = Some s ->
    i <> j -> ad_block r.1 <> ad_block s.1 \/ ad_offset r.1 + r.2 <= ad_offset s.1 \/
    ad_offset s.1 + s.2 <= ad_offset r.1).
Proof.
  intros Hi Hs Hb Ho Hle Hap. split.
  { constructor; [by exists bsize|apply Hi]. }
  intros [|i] [|j] r s Hr Hs' Hne; simpl in Hr, Hs'; try done.
  - injection Hr as <-. simpl. apply Hap. by eapply list_elem_of_lookup_2.
  - injection Hs' as <-. simpl.
    destruct (Hap r) as [?|[?|?]]; [by eapply list_elem_of_lookup_2|auto..].
  - eapply (ai_apart _ _ _ Hi); [done..|]. by intros ->.
Qed.

(** A piece in a block the allocator just gave. *)
Lemma regions_new h a regions size bsize o :
  arena_inv h a regions -> 0 <= size -> 0 <= o -> o + size <= bsize ->
  let n := hp_calls h in
  let h' := mkHeap (S n) (<[n := bsize]> (hp_blocks h)) in
  hp_blocks h !! n = None /\
  (forall m sz, hp_blocks h' !! m = Some sz -> (m < hp_calls h')%nat) /\
  (map_to_list (hp_blocks h')).*1 ≡ₚ n :: (map_to_list (hp_blocks h)).*1 /\
  total h' = bsize + total h /\
  (forall m, m <> n -> hp_blocks h' !! m = hp_blocks h !! m) /\
  Forall (fun r => exists size, hp_blocks h' !! ad_block r.1 = Some size /\
    0 <= ad_offset r.1 /\ 0 <= r.2 /\ ad_offset r.1 + r.2 <= size) ((mkAddr n o, size) :: regions) /\
  Forall (fun r => ad_block r.1 <> n) regions /\
  (forall i j r s, ((mkAddr n o, size) :: regions) !! i = Some r ->
    ((mkAddr n o, size) :: regions) !! j = Some s ->
    i <> j -> ad_block r.1 <> ad_block s.1 \/ ad_offset r.1 + r.2 <= ad_offset s.1 \/
    ad_offset s.1 + s.2 <= ad_offset r.1).
Proof.
  intros Hi Hs Ho Hle n h'.
  assert (Hnew : hp_blocks h !! n = None).
  { destruct (hp_blocks h !! n) eqn:E; [|done]. apply (ai_fresh _ _ _ Hi) in E. lia. }
  assert (Hoth : forall m, m <> n -> hp_blocks h' !! m = hp_blocks h !! m)
    by (intros; by apply lookup_insert_ne).
  assert (Hneq : Forall (fun r => ad_block r.1 <> n) regions).
  { eapply list.Forall_impl; [apply (ai_inside _ _ _ Hi)|].
    intros r (sz & Hb & _) E. rewrite E, Hnew in Hb. done. }
  split_and!; try done.
  - intros m sz Hm. destruct (decide (m = n)) as [->|Hne]; [simpl; lia|].
    rewrite Hoth in Hm by done. apply (ai_fresh _ _ _ Hi) in Hm. simpl. lia.
  - simpl. by rewrite map_to_list_insert.
  - by apply total_insert.
  - constructor.
    + exists bsize. split; [apply lookup_insert_eq|done].
    + apply list.Forall_forall. intros r Hr.
      assert (Hr2 := Hr). eapply list.Forall_forall in Hr; [|apply (ai_inside _ _ _ Hi)].
      eapply list.Forall_forall in Hr2; [|exact Hneq]. by rewrite Hoth.
  - intros [|i] [|j] r s Hr Hs' Hij; simpl in Hr, Hs'; try done.
    + injection Hr as <-. left. simpl. intros E. eapply Forall_lookup in Hs'; [|exact Hneq].
      by apply Hs'.
    + injection Hs' as <-. left. simpl. eapply Forall_lookup in Hr; [|exact Hneq]. done.
    + eapply (ai_apart _ _ _ Hi); [done..|]. by intros ->.
Qed.
End arena.

(** C26: allocation from an arena returns a fresh piece of memory of the size
    asked for, inside a block and apart from every piece handed out before, on
    the fast path, in a new block and in a dedicated block; the statistics stay
    the sum of the blocks obtained. *)
Theorem h_arena_malloc_spec alloc_ok h a regions size :
  arena_inv h a regions -> 0 <= size < 2 ^ 62 -> total h < 2 ^ 63 ->
  exists r a' h', h_arena_malloc alloc_ok a size h = Ok (r, a', h') /\
    match r with
    | Some ad => arena_inv h' a' ((ad, size) :: regions)
    | None => exists n sz, alloc_ok n sz = false
    end.
Proof.
  intros Hi Hs Ht. pose proof Hi as [F B S Hd [Fi1 [Fi2 Fi3]] In Be Ap St [Sr1 [Sr2 Sr3]]].
  unfold h_arena_malloc. destruct (Z.leb_spec size (ln_free (ar_head a))) as [Hfit|Hfit].
  - do 3 eexists. split; [done|]. cbn [ad_block].
    set (ad := mkAddr _ _).
    destruct (regions_cons h a regions ad size _ Hi ltac:(lia) Hd) as [In' Ap'].
    { simpl. unfold sizeof_link. lia. } { simpl. unfold sizeof_link. lia. }
    { intros r Hr. destruct (decide (ad_block ad = ad_block r.1)) as [E|]; [right; right|by left].
      eapply list.Forall_forall in Hr; [|exact Be]. simpl in *. apply Hr. by rewrite <- E. }
    split; simpl; try done; try lia.
    + constructor; [simpl; intros; lia|]. eapply list.Forall_impl; [exact Be|].
      intros r Hr Heq. specialize (Hr Heq). lia.
    + rewrite !wrapu_small by lia. lia.
    + rewrite !wrapu_small by lia. lia.
  - assert (Hself : forall n, hp_blocks h !! n = None -> ln_block (ar_head a) <> n).
    { intros n Hn E. rewrite E, Hn in Hd. done. }
    destruct (Z.ltb_spec (ar_block_size a) size) as [Hbig|Hbig].
    + unfold mbind, ST_bind, mm_alloc. rewrite wrapu_small by (unfold sizeof_ptr; lia).
      destruct (alloc_ok _ _) eqn:Eok; [|do 3 eexists; split; [done|]; simpl; by eauto].
      destruct (regions_new h a regions size (size + sizeof_ptr) sizeof_ptr Hi)
        as (Hnew & F' & B' & T' & Hoth & In' & Ne' & Ap'); [unfold sizeof_ptr; lia..|].
      do 3 eexists. split; [done|]. cbn beta iota. split; simpl; try done.
      * rewrite B', <- B. unfold h_delete_arena. simpl. apply Permutation_swap.
      * rewrite lookup_insert_ne by (apply not_eq_sym; auto). done.
      * constructor; [simpl; intros E; by destruct (Hself _ Hnew)|].
        eapply list.Forall_impl; [exact Be|]. intros r Hr Heq. by apply Hr.
      * unfold sizeof_ptr in *. rewrite !wrapu_small by lia. lia.
      * unfold sizeof_ptr in *. rewrite !wrapu_small by lia. lia.
    + unfold mbind, ST_bind, mm_alloc. rewrite (wrapu_small _ (sizeof_link + _)) by (unfold sizeof_link; lia).
      destruct (alloc_ok _ _) eqn:Eok; [|do 3 eexists; split; [done|]; simpl; by eauto].
      destruct (regions_new h a regions size (sizeof_link + ar_block_size a) sizeof_link Hi)
        as (Hnew & F' & B' & T' & Hoth & In' & Ne' & Ap'); [unfold sizeof_link; lia..|].
      do 3 eexists. split; [done|]. cbn beta iota. split; simpl; try done; try lia.
      * rewrite B', <- B. done.
      * apply lookup_insert_eq.
      * constructor; [simpl; lia|]. eapply list.Forall_impl; [exact Ne'|].
        intros r Hr Heq. done.
      * unfold sizeof_link in *. rewrite !wrapu_small by lia. lia.
      * unfold sizeof_link in *. rewrite !wrapu_small by lia. lia.
Qed.

Definition empty_heap : heap := mkHeap 0 ∅.

Lemma h_new_arena_ok alloc_ok block_size :
  (forall n sz, alloc_ok n sz = true) -> 0 <= block_size < 2 ^ 61 ->
  exists a h, h_new_arena alloc_ok block_size empty_heap = Ok (Some a, h) /\ arena_inv h a [] /\
    total h < 2 ^ 62.
Proof.
  intros Hok Hb. unfold h_new_arena, mbind, ST_bind, mm_alloc. rewrite Hok. cbn beta iota.
  rewrite Hok. cbn beta iota.
  assert (0 < (if block_size =? 0 then 4096 else block_size) < 2 ^ 61) as Hbs
    by (destruct (Z.eqb_spec block_size 0); lia).
  set (bs := if block_size =? 0 then 4096 else block_size) in *.
  do 2 eexists. split; [done|].
  match goal with |- _ /\ total ?h < _ => assert (total h = sizeof_arena + (sizeof_link + bs)) as Ht end.
  { unfold total. cbn [hp_blocks empty_heap]. rewrite map_fold_insert_L; [|intros; lia|by rewrite lookup_insert_ne].
    rewrite map_fold_insert_L; [|intros; lia|apply lookup_empty]. rewrite map_fold_empty.
    rewrite !wrapu_small by (unfold sizeof_link, sizeof_arena; lia). lia. }
  split; [|rewrite Ht; unfold sizeof_link, sizeof_arena; lia].
  cbn [hp_blocks hp_calls empty_heap] in Ht.
  split; try done;
    cbn [hp_blocks hp_calls empty_heap ar_head ar_block_size ar_used ar_wasted ln_free ln_used ln_block].
  - intros n size Hn. apply lookup_insert_Some in Hn as [[<- _]|[_ Hn]]; [lia|].
    apply lookup_insert_Some in Hn as [[<- _]|[_ Hn]]; [lia|by rewrite lookup_empty in Hn].
  - lia.
  - rewrite lookup_insert_eq. by rewrite wrapu_small by (unfold sizeof_link; lia).
  - lia.
  - rewrite Ht, !wrapu_small by (unfold sizeof_link, sizeof_arena; lia). lia.
  - rewrite !wrapu_small by (unfold sizeof_link, sizeof_arena; lia). unfold sizeof_link, sizeof_arena. lia.
Qed.

(** A new arena has handed out nothing, holds its two blocks, and deleting
    an arena frees exactly the blocks it got, each once. *)
Theorem h_new_arena_spec alloc_ok block_size :
  (forall n sz, alloc_ok n sz = true) -> 0 <= block_size < 2 ^ 61 ->
  exists a h, h_new_arena alloc_ok block_size empty_heap = Ok (Some a, h) /\ arena_inv h a [] /\
    forall h' a' regions, arena_inv h' a' regions ->
      h_delete_arena a' ≡ₚ (map_to_list (hp_blocks h')).*1 /\ NoDup (h_delete_arena a').
Proof.
  intros Hok Hb. destruct (h_new_arena_ok alloc_ok block_size Hok Hb) as (a & h & E & Hi & _).
  exists a, h. split; [done|]. split; [done|]. intros h' a' regions Hi'.
  pose proof (ai_blocks _ _ _ Hi') as Hp. split; [done|].
  rewrite Hp. apply NoDup_fst_map_to_list.
Qed.

Lemma h_new_arena_spec_witness :
  exists a h, h_new_arena (fun _ _ => true) 4096 empty_heap = Ok (Some a, h) /\
    NoDup (h_delete_arena a).
Proof.
  destruct (h_new_arena_spec (fun _ _ => true) 4096) as (a & h & E & Hi & Hd); [done|lia|].
  exists a, h. split; [exact E|]. exact (proj2 (Hd h a [] Hi)).
Defined.

Lemma h_arena_malloc_spec_witness :
  exists a h r a' h', h_new_arena (fun _ _ => true) 4096 empty_heap = Ok (Some a, h) /\
    h_arena_malloc (fun _ _ => true) a 10000 h = Ok (r, a', h') /\ r <> None.
Proof.
  destruct (h_new_arena_ok (fun _ _ => true) 4096) as (a & h & E & Hi & Ht); [done|lia|].
  destruct (h_arena_malloc_spec (fun _ _ => true) h a [] 10000 Hi) as (r & a' & h' & E' & Hr);
    [lia|lia|].
  exists a, h, r, a', h'. split; [exact E|]. split; [exact E'|]. intros ->.
  destruct Hr as (n & sz & Hr). discriminate Hr.
Defined.
