(* ===== verification/Regex.v ===== *)
(** The regular back end (src/src/backends/regex.c and regex.h, the
    compile_to_rvm functions and stack actions of src/src/parsers/*.c).

    A parser compiles to a program of a non-deterministic byte machine; its
    threads carry traces of stack operations; the trace of the accepting thread
    is replayed on a stack of tokens. Instruction addresses are 16 bits wide. *)

From S2P Require Import Prelude Stream Charset CArray Token Parser SArray.

(** * Programs *)

Inductive HRVMOp :=
| RVM_ACCEPT | RVM_GOTO | RVM_FORK | RVM_PUSH | RVM_ACTION | RVM_CAPTURE | RVM_EOF
| RVM_MATCH | RVM_STEP.
#[global] Instance HRVMOp_eq_dec : EqDecision HRVMOp.
Proof. solve_decision. Defined.

Record HRVMInsn := mkInsn { op : HRVMOp; arg : Z }.

(** The action functions, by name, and the environment pointers they get. *)
Inductive HSVMActionFunc :=
| h_svm_action_bits | h_svm_action_ch | h_svm_action_charset_ch | h_svm_action_optional
| h_svm_action_pop | h_svm_action_action | h_svm_action_attr_bool | h_svm_action_ignoreseq
| h_svm_action_validate_int_range | h_svm_action_make_sequence | h_svm_action_clear_to_mark.
#[global] Instance HSVMActionFunc_eq_dec : EqDecision HSVMActionFunc.
Proof. solve_decision. Defined.

Inductive env_ptr :=
| E_null
| E_env (p : nat)    (** the environment of the parser at [p] *)
| E_chr (c : Z).     (** a character cast to a pointer *)
#[global] Instance env_ptr_eq_dec : EqDecision env_ptr.
Proof. solve_decision. Defined.

(** The arrays, with the number of entries allocated. *)
Record HRVMProg := mkProg {
  pr_insns : list HRVMInsn;
  pr_insns_cap : Z;
  pr_actions : list (HSVMActionFunc * env_ptr);
  pr_actions_cap : Z;
}.
Definition pr_length (p : HRVMProg) : Z := Z.of_nat (length (pr_insns p)).
Definition pr_action_count (p : HRVMProg) : Z := Z.of_nat (length (pr_actions p)).
Definition empty_prog : HRVMProg := mkProg [] 0 [] 0.

Abbreviation R := (ST HRVMProg).

Section build.
(** [realloc] of this many entries succeeds. *)
Context (realloc_ok : Z -> bool).

(** The array of [count] entries must be scaled up first. *)
Definition scale (count cap : Z) : outcome Z :=
  if Z.land count (count + 1) =? 0
  then let array_size := (count + 1) * 2 in
       if realloc_ok array_size then Ok array_size else Fault Longjmp
  else Ok cap.

Definition h_rvm_insert_insn (o : HRVMOp) (a : Z) : R Z := fun p =>
  cap ← scale (pr_length p) (pr_insns_cap p);
  if pr_length p <? cap
  then Ok (uint16 (pr_length p),
           mkProg (pr_insns p ++ [mkInsn o (uint16 a)]) cap (pr_actions p) (pr_actions_cap p))
  else Fault OutOfBounds.

Definition h_rvm_create_action (f : HSVMActionFunc) (env : env_ptr) : R Z := fun p =>
  match list_find (.= (f, env)) (pr_actions p) with
  | Some (i, _) => Ok (uint16 (Z.of_nat i), p)
  | None =>
      cap ← scale (pr_action_count p) (pr_actions_cap p);
      if pr_action_count p <? cap
      then Ok (uint16 (pr_action_count p),
               mkProg (pr_insns p) (pr_insns_cap p) (pr_actions p ++ [(f, env)]) cap)
      else Fault OutOfBounds
  end.

Definition h_rvm_get_ip : R Z := gets (fun p => uint16 (pr_length p)).

Definition h_rvm_patch_arg (ip new_val : Z) : R unit := fun p =>
  _ ← assert_ok (ip <? pr_length p);
  Ok (tt, mkProg (alter (fun i => mkInsn (op i) new_val) (Z.to_nat ip) (pr_insns p))
            (pr_insns_cap p) (pr_actions p) (pr_actions_cap p)).

Definition insert_ (o : HRVMOp) (a : Z) : R unit := _ ← h_rvm_insert_insn o a; mret tt.
Definition insert_action (f : HSVMActionFunc) (env : env_ptr) : R unit :=
  a ← h_rvm_create_action f env; insert_ RVM_ACTION a.

(** * compile_to_rvm *)

Fixpoint repeat_m (n : nat) (m : R unit) : R unit :=
  match n with O => mret tt | S n => _ ← m; repeat_m n m end.

Definition bits_ctrvm (e : bits_env) (self : nat) : R bool :=
  _ ← insert_ RVM_PUSH 0;
  _ ← repeat_m (Z.to_nat (be_length e / 8))
        (_ ← insert_ RVM_MATCH 65280; insert_ RVM_STEP 0);
  _ ← insert_ RVM_CAPTURE 0;
  _ ← insert_action h_svm_action_bits (E_env self);
  mret true.

Definition ch_ctrvm (env : Z) : R bool :=
  let c := uint8 env in
  _ ← insert_ RVM_PUSH 0;
  _ ← insert_ RVM_MATCH (Z.lor c (Z.shiftl c 8));
  _ ← insert_ RVM_STEP 0;
  _ ← insert_ RVM_CAPTURE 0;
  _ ← insert_action h_svm_action_ch (E_chr env);
  mret true.

(** The loop over the 257 positions: [range_start] of the open range, if any. *)
Fixpoint cs_ranges (cs : HCharset) (positions : list Z) (collecting : option Z) : R unit :=
  match positions with
  | [] => mret tt
  | i :: positions =>
      b ← (if i <? 256 then lift (charset_isset cs i) else mret false);
      if (b : bool) then
        cs_ranges cs positions (match collecting with None => Some i | c => c end)
      else
        match collecting with
        | None => cs_ranges cs positions None
        | Some range_start =>
            insn ← h_rvm_insert_insn RVM_FORK 0;
            _ ← insert_ RVM_MATCH (Z.lor range_start (Z.shiftl (i - 1) 8));
            _ ← insert_ RVM_GOTO 0;
            ip ← h_rvm_get_ip;
            _ ← h_rvm_patch_arg insn ip;
            cs_ranges cs positions None
        end
  end.
(** [for (i = start; i < jump; ++i) if (RVM_GOTO == insns[i].op) patch(i, jump)] *)
Fixpoint patch_gotos (n : nat) (i jump : Z) : R unit :=
  match n with
  | O => mret tt
  | S n =>
      if i <? jump then
        p ← get;
        ins ← lift (deref OutOfBounds (pr_insns p !! Z.to_nat i));
        _ ← (if bool_decide (op ins = RVM_GOTO) then h_rvm_patch_arg i jump else mret tt);
        patch_gotos n (i + 1) jump
      else mret tt
  end.
Definition cs_ctrvm (cs : HCharset) (self : nat) : R bool :=
  _ ← insert_ RVM_PUSH 0;
  start ← h_rvm_get_ip;
  _ ← cs_ranges cs (Z.of_nat <$> seq 0 257) None;
  _ ← insert_ RVM_MATCH 255;
  jump ← h_rvm_insert_insn RVM_STEP 0;
  _ ← patch_gotos (Z.to_nat (jump - start)) start jump;
  _ ← insert_ RVM_CAPTURE 0;
  _ ← insert_action h_svm_action_charset_ch (E_env self);
  mret true.

Fixpoint token_insns (str : list Z) : R unit :=
  match str with
  | [] => mret tt
  | c :: str =>
      _ ← insert_ RVM_MATCH (Z.lor c (Z.shiftl c 8));
      _ ← insert_ RVM_STEP 0;
      token_insns str
  end.
Definition token_ctrvm (t : HToken) : R bool :=
  _ ← insert_ RVM_PUSH 0;
  _ ← token_insns (take (Z.to_nat (tk_len t)) (tk_str t));
  _ ← insert_ RVM_CAPTURE 0;
  mret true.

Definition end_ctrvm : R bool := _ ← insert_ RVM_EOF 0; mret true.
Definition epsilon_ctrvm : R bool := mret true.
Definition nothing_ctrvm : R bool :=
  _ ← insert_ RVM_MATCH 0; _ ← insert_ RVM_MATCH 65535; mret true.
Definition h_not_regular : R bool := mret false.

Section combinators.
Context (compile : ptr -> R bool).   (** h_compile_regex *)

Definition opt_ctrvm (p : ptr) : R bool :=
  _ ← insert_ RVM_PUSH 0;
  insn ← h_rvm_insert_insn RVM_FORK 0;
  ok ← compile p;
  if negb ok then mret false else
  ip ← h_rvm_get_ip;
  _ ← h_rvm_patch_arg insn ip;
  _ ← insert_action h_svm_action_optional E_null;
  mret true.

(** The result of compiling the parser is not looked at. *)
Definition ignore_ctrvm (p : ptr) : R bool :=
  _ ← compile p;
  _ ← insert_action h_svm_action_pop E_null;
  mret true.

Fixpoint ws_ranges (ranges : list Z) (start : Z) : R unit :=
  match ranges with
  | [] => mret tt
  | r :: ranges =>
      next ← h_rvm_insert_insn RVM_FORK 0;
      _ ← insert_ RVM_MATCH r;
      _ ← insert_ RVM_STEP 0;
      _ ← insert_ RVM_GOTO start;
      ip ← h_rvm_get_ip;
      _ ← h_rvm_patch_arg next ip;
      ws_ranges ranges start
  end.
Definition ws_ctrvm (p : ptr) : R bool :=
  start ← h_rvm_get_ip;
  _ ← ws_ranges [3337; 8224] start;
  compile p.

Fixpoint compile_all (ps : list ptr) : R bool :=
  match ps with
  | [] => mret true
  | p :: ps => ok ← compile p; if (ok : bool) then compile_all ps else mret false
  end.
Definition sequence_ctrvm (s : HSequence) : R bool :=
  _ ← insert_ RVM_PUSH 0;
  ok ← compile_all (sq_array s);
  if negb ok then mret false else
  _ ← insert_action h_svm_action_make_sequence E_null;
  mret true.

(** The alternatives: the addresses of their final gotos, or failure. *)
Fixpoint choice_alts (ps : list ptr) : R (option (list Z)) :=
  match ps with
  | [] => mret (Some [])
  | p :: ps =>
      insn ← h_rvm_insert_insn RVM_FORK 0;
      ok ← compile p;
      if negb ok then mret None else
      g ← h_rvm_insert_insn RVM_GOTO 65535;
      ip ← h_rvm_get_ip;
      _ ← h_rvm_patch_arg insn ip;
      gs ← choice_alts ps;
      mret (cons g <$> gs)
  end.
Fixpoint patch_all (gotos : list Z) (jump : Z) : R unit :=
  match gotos with
  | [] => mret tt
  | g :: gotos => _ ← h_rvm_patch_arg g jump; patch_all gotos jump
  end.
Definition choice_ctrvm (s : HSequence) : R bool :=
  gotos ← choice_alts (sq_array s);
  match gotos with
  | None => mret false
  | Some gotos =>
      _ ← insert_ RVM_MATCH 255;
      jump ← h_rvm_get_ip;
      _ ← patch_all gotos jump;
      mret true
  end.

(** A separator between marks, its tokens thrown away; nothing when NULL. *)
Definition compile_sep (clear_to_mark : Z) (sep : ptr) : R bool :=
  match sep with
  | None => mret true
  | Some _ =>
      _ ← insert_ RVM_PUSH 0;
      ok ← compile sep;
      if negb ok then mret false else
      _ ← insert_ RVM_ACTION clear_to_mark;
      mret true
  end.
Fixpoint many_n (n : nat) (first : bool) (clear_to_mark : Z) (r : HRepeat) : R bool :=
  match n with
  | O => mret true
  | S n =>
      ok ← (if first then mret true else compile_sep clear_to_mark (rp_sep r));
      if negb ok then mret false else
      ok ← compile (rp_p r);
      if negb ok then mret false else
      many_n n false clear_to_mark r
  end.
Definition many_ctrvm (r : HRepeat) : R bool :=
  clear_to_mark ← h_rvm_create_action h_svm_action_clear_to_mark E_null;
  if rp_min_p r then
    _ ← insert_ RVM_PUSH 0;
    _ ← lift (assert_ok (rp_count r <? 2));
    end_fork ← (if rp_count r =? 0 then h_rvm_insert_insn RVM_FORK 65535 else mret 65535);
    goto_mid ← h_rvm_insert_insn RVM_GOTO 65535;
    nxt ← h_rvm_get_ip;
    ok ← compile_sep clear_to_mark (rp_sep r);
    if negb ok then mret false else
    ip ← h_rvm_get_ip;
    _ ← h_rvm_patch_arg goto_mid ip;
    ok ← compile (rp_p r);
    if negb ok then mret false else
    _ ← insert_ RVM_FORK nxt;
    ip ← h_rvm_get_ip;
    _ ← (if rp_count r =? 0 then h_rvm_patch_arg end_fork ip else mret tt);
    _ ← insert_action h_svm_action_make_sequence E_null;
    mret true
  else
    _ ← insert_ RVM_PUSH 0;
    ok ← many_n (Z.to_nat (rp_count r)) true clear_to_mark r;
    if negb ok then mret false else
    _ ← insert_action h_svm_action_make_sequence E_null;
    mret true.

(** Compiles, and always answers no. *)
Definition ir_ctrvm (r : HRange) (self : nat) : R bool :=
  _ ← compile (rg_p r);
  _ ← insert_action h_svm_action_validate_int_range (E_env self);
  mret false.

Fixpoint is_items (ps : list ptr) : R bool :=
  match ps with
  | [] => mret true
  | p :: ps =>
      _ ← insert_ RVM_PUSH 0;
      ok ← compile p;
      if (ok : bool) then is_items ps else mret false
  end.
Definition is_ctrvm (s : HIgnoreSeq) (self : nat) : R bool :=
  ok ← is_items (is_parsers s);
  if negb ok then mret false else
  _ ← insert_action h_svm_action_ignoreseq (E_env self);
  mret true.

Definition callback_ctrvm (p : ptr) (f : HSVMActionFunc) (self : nat) : R bool :=
  _ ← insert_ RVM_PUSH 0;
  ok ← compile p;
  if negb ok then mret false else
  _ ← insert_action f (E_env self);
  mret true.
Definition action_ctrvm (a : HParseAction) (self : nat) : R bool :=
  callback_ctrvm (pa_p a) h_svm_action_action self.
Definition ab_ctrvm (a : HAttrBool) (self : nat) : R bool :=
  callback_ctrvm (ab_p a) h_svm_action_attr_bool self.

(** [parser->vtable->compile_to_rvm(prog, parser->env)] *)
Definition vt_compile_to_rvm (e : parser_env) (self : nat) : R bool :=
  match e with
  | bits_vt e => bits_ctrvm e self
  | ch_vt c => ch_ctrvm c
  | charset_vt cs => cs_ctrvm cs self
  | token_vt t => token_ctrvm t
  | end_vt => end_ctrvm
  | epsilon_vt => epsilon_ctrvm
  | nothing_vt => nothing_ctrvm
  | optional_vt p => opt_ctrvm p
  | ignore_vt p => ignore_ctrvm p
  | whitespace_vt p => ws_ctrvm p
  | sequence_vt s => sequence_ctrvm s
  | choice_vt s => choice_ctrvm s
  | many_vt r => many_ctrvm r
  | int_range_vt r => ir_ctrvm r self
  | ignoreseq_vt s => is_ctrvm s self
  | action_vt a => action_ctrvm a self
  | attr_bool_vt a => ab_ctrvm a self
  | length_value_vt _ => throw NullDeref
  | unimplemented_vt | and_vt _ | not_vt _ | permutation_vt _ | butnot_vt _ | difference_vt _
  | xor_vt _ | bind_vt _ | endianness_vt _ | indirect_vt _ | put_vt _ | get_vt _ => h_not_regular
  end.
End combinators.

Context (store : list HParser).

Fixpoint h_compile_regex (fuel : nat) (p : ptr) : R bool :=
  match fuel with
  | O => out_of_fuel
  | S fuel =>
      q ← lift (parser_at store p);
      a ← lift (deref NullDeref p);
      vt_compile_to_rvm (h_compile_regex fuel) (p_env q) a
  end.

(** [h_regex_compile]: the return code, and the program on success. A
    [longjmp] out of the compiler gives [false], the code of success. *)
Definition h_regex_compile (fuel : nat) (p : ptr) : outcome (Z * option HRVMProg) :=
  '(valid, _) ← isValidRegular fuel p store;
  if negb valid then Ok (-1, None) else
  match h_compile_regex fuel p empty_prog with
  | Fault Longjmp => Ok (0, None)
  | Fault f => Fault f
  | OutOfFuel => OutOfFuel
  | Ok (false, _) => Ok (2, None)
  | Ok (true, prog) =>
      '(_, prog) ← insert_ RVM_ACCEPT 0 prog;
      Ok (0, Some prog)
  end.
End build.

(** * The byte machine *)

Inductive HSVMOp := SVM_PUSH | SVM_NOP | SVM_ACTION | SVM_CAPTURE | SVM_ACCEPT.

Record trace_node := mkTrace { tr_opcode : HSVMOp; tr_arg : Z; tr_input_pos : Z }.
(** A trace, its last operation first. *)
Definition HRVMTrace := list trace_node.
Definition invert_trace (t : HRVMTrace) : HRVMTrace := rev t.

Record HRVMThread := mkThread { th_trace : HRVMTrace; th_ip : Z }.

(** The locals of h_rvm_run__m during one byte; the queue's top comes first. *)
Record vm_state := mkVm {
  vm_heads_n : HSArray HRVMTrace;
  vm_seen : list Z;
  vm_queue : list HRVMThread;
  vm_ret : option HRVMTrace;
  vm_live : Z;
}.

Section run.
Context (prog : HRVMProg) (input : list Z).

Definition seen_at (seen : list Z) (ip : Z) : outcome Z := deref OutOfBounds (seen !! Z.to_nat ip).
Definition set_seen (seen : list Z) (ip v : Z) : outcome (list Z) :=
  _ ← seen_at seen ip; Ok (<[Z.to_nat ip := v]> seen).

(** One round of [while (ipq_top > 0)], on a queue with top [th]. *)
Definition vm_step (off ch : Z) (s : vm_state) (th : HRVMThread) (rest : list HRVMThread)
    : outcome vm_state :=
  let '(mkVm heads_n seen _ ret live) := s in
  let ip := th_ip th in
  v ← seen_at seen ip;
  if v =? 1 then Ok (mkVm heads_n seen rest ret live) else
  seen ← set_seen seen ip 1;
  insn ← deref OutOfBounds (pr_insns prog !! Z.to_nat ip);
  let a := arg insn in
  let push_svm o x := mkTrace o x off :: th_trace th in
  let next := uint16 (ip + 1) in
  let continue t ip := Ok (mkVm heads_n seen (mkThread t ip :: rest) ret live) in
  let kill := Ok (mkVm heads_n seen rest ret live) in
  match op insn with
  | RVM_ACCEPT => Ok (mkVm heads_n seen rest (Some (push_svm SVM_ACCEPT 0)) live)
  | RVM_MATCH =>
      let hi := Z.land (Z.shiftr a 8) 255 in
      let lo := Z.land a 255 in
      if (ch <? lo) || (hi <? ch) then kill else continue (th_trace th) next
  | RVM_GOTO => continue (th_trace th) a
  | RVM_FORK =>
      sa ← seen_at seen a;
      if sa =? 0 then
        seen ← set_seen seen next 2;
        if (S (S (length rest)) <=? length (pr_insns prog))%nat
        then Ok (mkVm heads_n seen
                   (mkThread (th_trace th) a :: mkThread (th_trace th) next :: rest) ret live)
        else Fault OutOfBounds
      else continue (th_trace th) next
  | RVM_PUSH => continue (push_svm SVM_PUSH 0) next
  | RVM_ACTION => continue (push_svm SVM_ACTION a) next
  | RVM_CAPTURE => continue (push_svm SVM_CAPTURE 0) next
  | RVM_EOF =>
      if off =? Z.of_nat (length input) then continue (th_trace th) next else kill
  | RVM_STEP =>
      heads_n ← h_sarray_set heads_n next (th_trace th);
      Ok (mkVm heads_n seen rest ret (live + 1))
  end.

Fixpoint vm_loop (fuel : nat) (off ch : Z) (s : vm_state) : outcome vm_state :=
  match vm_queue s with
  | [] => Ok s
  | th :: rest =>
      match fuel with
      | O => OutOfFuel
      | S fuel => s ← vm_step off ch s th rest; vm_loop fuel off ch s
      end
  end.

(** The body of the macro loop over the threads of this byte. *)
Fixpoint vm_heads (fuel : nat) (off ch : Z) (heads : list (Z * HRVMTrace)) (s : vm_state)
    : outcome vm_state :=
  match heads with
  | [] => Ok s
  | (ip, tr) :: heads =>
      s ← vm_loop fuel off ch
            (mkVm (vm_heads_n s) (vm_seen s) [mkThread tr (uint16 ip)] (vm_ret s) (vm_live s));
      vm_heads fuel off ch heads s
  end.

(** Enough rounds for one head: see [vm_loop_terminates]. *)
Definition vm_fuel : nat := 4 * length (pr_insns prog) + 2.

(** The loop over [off], from [off] to [len]: [ret_trace] at its end. *)
Fixpoint vm_bytes (n : nat) (off : Z) (heads_n heads_p : HSArray HRVMTrace) (live : Z)
    (ret : option HRVMTrace) : outcome (option HRVMTrace) :=
  match n with
  | O => Ok ret
  | S n =>
      ch ← (if off =? Z.of_nat (length input) then Ok 0
            else deref OutOfBounds (input !! Z.to_nat off));
      let heads_t := heads_n in
      let heads_n := h_sarray_clear heads_p in
      let heads_p := heads_t in
      if live =? 0 then Ok ret else
      heads ← h_sarray_foreach heads_p;
      s ← vm_heads vm_fuel off ch heads
            (mkVm heads_n (replicate (length (pr_insns prog)) 0) [] ret 0);
      vm_bytes n (off + 1) (vm_heads_n s) heads_p (vm_live s) (vm_ret s)
  end.

(** The trace of the last accepting thread; [memory] is uninitialised. *)
Definition rvm_trace (memory1 memory2 : list (HSArrayNode HRVMTrace)) : outcome (option HRVMTrace) :=
  heads_n ← h_sarray_set (h_sarray_new memory1) 0 [mkTrace SVM_NOP 0 0];
  vm_bytes (S (length input)) 0 heads_n (h_sarray_new memory2) 1 None.
End run.

(** * The stack machine *)

(** The stack, its top first; an entry may be NULL. *)
Abbreviation stack := (list (option HParsedToken)).

Definition top (s : stack) : outcome (HParsedToken * stack) :=
  match s with
  | Some t :: s => Ok (t, s)
  | None :: _ => Fault NullDeref
  | [] => Fault OutOfBounds
  end.

Definition is_mark (t : HParsedToken) : bool :=
  match tok_data t with TT_MARK => true | _ => false end.

(** [res = (res << 8) | token[i]] *)
Definition bytes_value (bs : list Z) : Z :=
  foldl (fun res b => Z.lor (uint64 (Z.shiftl res 8)) b) 0 bs.

Definition top_bytes (t : HParsedToken) : outcome (list Z) :=
  match tok_data t with TT_BYTES bs => Ok bs | _ => Fault AssertFail end.

Definition svm_action_bits (e : bits_env) (s : stack) : outcome (bool * stack) :=
  '(t, s) ← top s;
  bs ← top_bytes t;
  let res := bytes_value bs in
  let n := Z.of_nat (length bs) * 8 - 1 in
  _ ← shl_ok 64 n;
  let msb := uint64 (Z.shiftl (if be_signedp e then 1 else 0) n) in
  let res := uint64 (Z.lxor res msb - msb) in
  Ok (true, Some (set_tok_data t (if be_signedp e then TT_SINT (sint64 res) else TT_UINT res)) :: s).

Definition svm_action_ch (s : stack) : outcome (bool * stack) :=
  '(t, s) ← top s;
  bs ← top_bytes t;
  Ok (true, Some (set_tok_data t (TT_UINT (bytes_value bs))) :: s).

Definition svm_action_optional (s : stack) : outcome (bool * stack) :=
  '(t, s) ← top s;
  if is_mark t then Ok (true, Some (set_tok_data t TT_NONE) :: s)
  else
    '(m, s) ← top s;
    _ ← assert_ok (is_mark m);
    Ok (true, Some t :: s).

Definition svm_action_pop (s : stack) : outcome (bool * stack) :=
  _ ← assert_ok (0 <? Z.of_nat (length s)); Ok (true, tail s).

(** The result on top of a mark, the mark replaced; NULL for a bare mark. *)
Definition take_result (s : stack) : outcome (option HParsedToken * stack) :=
  _ ← assert_ok (1 <=? Z.of_nat (length s));
  '(t, s) ← top s;
  if is_mark t then Ok (None, s)
  else
    _ ← assert_ok (1 <=? Z.of_nat (length s));
    '(m, s) ← top s;
    _ ← assert_ok (is_mark m);
    Ok (Some t, s).

Definition svm_action_action (a : HParseAction) (s : stack) : outcome (bool * stack) :=
  '(x, s) ← take_result s;
  action ← deref NullDeref (pa_action a);
  (* the result on the C stack has no bit_length: it is not initialised *)
  tok ← action (mkResult x 0) (pa_user_data a);
  match tok with
  | Some _ => Ok (true, tok :: s)
  | None => Ok (true, s)
  end.

Definition svm_action_attr_bool (a : HAttrBool) (s : stack) : outcome (bool * stack) :=
  '(x, s) ← take_result s;
  ok ← ab_pred a (mkResult x 0) (ab_user_data a);
  Ok (ok, match x with Some _ => x :: s | None => s end).

(** [while (ctx->stack[--ctx->stack_count]->token_type != TT_MARK);] *)
Fixpoint drop_to_mark (s : stack) : outcome stack :=
  match s with
  | [] => Fault OutOfBounds
  | None :: _ => Fault NullDeref
  | Some t :: s => if is_mark t then Ok s else drop_to_mark s
  end.
Fixpoint ignoreseq_items (n : nat) (which : Z) (save : option HParsedToken) (s : stack)
    : outcome (option HParsedToken * stack) :=
  match n with
  | O => Ok (save, s)
  | S n =>
      save ← (if Z.of_nat n =? which
              then '(t, _) ← top s; Ok (if is_mark t then save else Some t)
              else Ok save);
      s ← drop_to_mark s;
      ignoreseq_items n which save s
  end.
Definition svm_action_ignoreseq (q : HIgnoreSeq) (s : stack) : outcome (bool * stack) :=
  let len := length (is_parsers q) in
  _ ← assert_ok (1 <=? Z.of_nat len);
  '(save, s) ← ignoreseq_items len (is_which q) None s;
  Ok (true, save :: s).

Definition svm_action_validate_int_range (r : HRange) (s : stack) : outcome (bool * stack) :=
  '(head, _) ← top s;
  Ok (match tok_data head with
      | TT_SINT v => (rg_lower r <=? v) && (v <=? rg_upper r)
      | TT_UINT v => (uint64 (rg_lower r) <=? v) && (v <=? uint64 (rg_upper r))
      | _ => false
      end, s).

(** The entries above the topmost mark, in stack order; all of them without one. *)
Fixpoint h_svm_count_to_mark (s : stack) : outcome nat :=
  match s with
  | [] => Ok 0%nat
  | None :: _ => Fault NullDeref
  | Some t :: s => if is_mark t then Ok 0%nat else n ← h_svm_count_to_mark s; Ok (S n)
  end.

Definition svm_action_make_sequence (s : stack) : outcome (bool * stack) :=
  n_items ← h_svm_count_to_mark s;
  _ ← assert_ok (n_items <? length s)%nat;
  '(res, below) ← top (drop n_items s);
  _ ← assert_ok (is_mark res);
  let items := rev (take n_items s) in
  let carray := h_carray_new_sized n_items in
  let elements := items ++ drop n_items (ca_elements carray) in
  Ok (true, Some (set_tok_data res (TT_SEQUENCE (mkCArray (ca_capacity carray) n_items elements)))
            :: below).

Fixpoint svm_action_clear_to_mark (s : stack) : outcome (bool * stack) :=
  match s with
  | [] => Ok (false, [])
  | None :: _ => Fault NullDeref
  | Some t :: s => if is_mark t then Ok (true, s) else svm_action_clear_to_mark s
  end.

Section replay.
Context (store : list HParser) (prog : HRVMProg) (input : list Z).

Definition run_action (f : HSVMActionFunc) (env : env_ptr) (s : stack) : outcome (bool * stack) :=
  let e := match env with E_env p => p_env <$> store !! p | _ => None end in
  match f, e with
  | h_svm_action_bits, Some (bits_vt b) => svm_action_bits b s
  | h_svm_action_ch, _ | h_svm_action_charset_ch, _ => svm_action_ch s
  | h_svm_action_optional, _ => svm_action_optional s
  | h_svm_action_pop, _ => svm_action_pop s
  | h_svm_action_action, Some (action_vt a) => svm_action_action a s
  | h_svm_action_attr_bool, Some (attr_bool_vt a) => svm_action_attr_bool a s
  | h_svm_action_ignoreseq, Some (ignoreseq_vt q) => svm_action_ignoreseq q s
  | h_svm_action_validate_int_range, Some (int_range_vt r) => svm_action_validate_int_range r s
  | h_svm_action_make_sequence, _ => svm_action_make_sequence s
  | h_svm_action_clear_to_mark, _ => svm_action_clear_to_mark s
  | _, _ => Fault NullDeref
  end.

(** [run_trace]: a result, or NULL when an action fails or no SVM_ACCEPT comes. *)
Fixpoint run_trace (trace : HRVMTrace) (s : stack) : outcome (option HParseResult) :=
  match trace with
  | [] => Ok None
  | cur :: trace =>
      match tr_opcode cur with
      | SVM_PUSH => run_trace trace (Some (mkTok TT_MARK (tr_input_pos cur) 0 0) :: s)
      | SVM_NOP => run_trace trace s
      | SVM_ACTION =>
          '(f, env) ← deref OutOfBounds (pr_actions prog !! Z.to_nat (tr_arg cur));
          '(ok, s) ← run_action f env s;
          if (ok : bool) then run_trace trace s else Ok None
      | SVM_CAPTURE =>
          '(t, s) ← top s;
          _ ← assert_ok (is_mark t);
          _ ← assert_ok (tok_bit_offset t =? 0);
          let bs := take (Z.to_nat (tr_input_pos cur - tok_index t))
                      (drop (Z.to_nat (tok_index t)) input) in
          run_trace trace (Some (set_tok_data t (TT_BYTES bs)) :: s)
      | SVM_ACCEPT =>
          _ ← assert_ok (length s <=? 1)%nat;
          Ok (Some (mkResult (default None (head s)) (tr_input_pos cur * 8)))
      end
  end.

(** [h_rvm_run__m] *)
Definition h_rvm_run__m (memory1 memory2 : list (HSArrayNode HRVMTrace))
    : outcome (option HParseResult) :=
  ret_trace ← rvm_trace prog input memory1 memory2;
  match ret_trace with
  | None => Ok None
  | Some t => run_trace (invert_trace t) []
  end.
End replay.
