(* ===== verification/RegexDebug.v ===== *)
(** Dumps of programs and traces (src/src/backends/regex_debug.c). *)

From Stdlib Require Import Ascii String.
From S2P Require Import Prelude Text Regex.

Definition rvm_op_names (o : HRVMOp) : text :=
  match o with
  | RVM_ACCEPT => lit "ACCEPT"
  | RVM_GOTO => lit "GOTO"
  | RVM_FORK => lit "FORK"
  | RVM_PUSH => lit "PUSH"
  | RVM_ACTION => lit "ACTION"
  | RVM_CAPTURE => lit "CAPTURE"
  | RVM_EOF => lit "EOF"
  | RVM_MATCH => lit "MATCH"
  | RVM_STEP => lit "STEP"
  end.

Definition svm_op_names (o : HSVMOp) : text :=
  match o with
  | SVM_PUSH => lit "PUSH"
  | SVM_NOP => lit "NOP"
  | SVM_ACTION => lit "ACTION"
  | SVM_CAPTURE => lit "CAPTURE"
  | SVM_ACCEPT => lit "ACCEPT"
  end.

(** [%-10s] *)
Definition pad_right (s : text) : text := s ++ replicate (10 - length s) 32.
(** [%hd] *)
Definition fmt_short (n : Z) : text :=
  let n := wraps 16 n in if n <? 0 then [45] ++ fmt_dec (- n) else fmt_dec n.
(** [%04zd] *)
Definition fmt_zero4 (n : Z) : text := replicate (4 - length (fmt_dec n)) 48 ++ fmt_dec n.

(** A byte, and its character when it is printable. *)
Definition dump_char (c : Z) : text :=
  fmt_byte c ++ (if (32 <=? c) && (c <=? 126) then lit " ('" ++ [c] ++ lit "')" else []).

Section Dump.
(** What [%p] prints for the address of a function. *)
Context (getsym : HSVMActionFunc -> text).

Definition action_name (prog : HRVMProg) (i : Z) : outcome text :=
  a ← deref OutOfBounds (pr_actions prog !! Z.to_nat i); Ok (getsym a.1).

Definition dump_insn (prog : HRVMProg) (insn : HRVMInsn) : outcome text :=
  match op insn with
  | RVM_GOTO | RVM_FORK => Ok (fmt_short (arg insn))
  | RVM_ACTION => action_name prog (arg insn)
  | RVM_MATCH =>
      let low := uint8 (Z.land (arg insn) 255) in
      let high := uint8 (Z.land (Z.shiftr (arg insn) 8) 255) in
      if high <? low then Ok (lit "NONE") else Ok (dump_char low ++ lit " - " ++ dump_char high)
  | _ => Ok []
  end.

Fixpoint dump_insns (prog : HRVMProg) (i : Z) (insns : list HRVMInsn) : outcome text :=
  match insns with
  | [] => Ok []
  | insn :: insns =>
      out ← dump_insn prog insn;
      outs ← dump_insns prog (i + 1) insns;
      Ok (fmt_dec4 i ++ [32] ++ pad_right (rvm_op_names (op insn)) ++ out ++ [10] ++ outs)
  end.
Definition dump_rvm_prog (prog : HRVMProg) : outcome text := dump_insns prog 0 (pr_insns prog).

(** The trace that h_rvm_run__m has inverted, its first operation first. *)
Fixpoint dump_svm_prog (prog : HRVMProg) (trace : HRVMTrace) : outcome text :=
  match trace with
  | [] => Ok []
  | t :: trace =>
      out ← match tr_opcode t with SVM_ACTION => action_name prog (tr_arg t) | _ => Ok [] end;
      outs ← dump_svm_prog prog trace;
      Ok ([64] ++ fmt_zero4 (tr_input_pos t) ++ [32] ++ pad_right (svm_op_names (tr_opcode t))
          ++ out ++ [10] ++ outs)
  end.

(** A program whose actions exist is dumped. *)
Lemma dump_rvm_prog_ok prog :
  Forall (fun insn => op insn = RVM_ACTION -> 0 <= arg insn < pr_action_count prog) (pr_insns prog) ->
  exists out, dump_rvm_prog prog = Ok out.
Proof.
  intros H. unfold dump_rvm_prog. generalize 0 as z. revert H.
  generalize (pr_insns prog). intros l H.
  induction H as [|insn insns Hi _ IH]; intros z; cbn [dump_insns]; [by eexists|].
  assert (exists out, dump_insn prog insn = Ok out) as [out ->].
  { unfold dump_insn. destruct (op insn) eqn:E; try (by eexists); [|case_match; by eexists].
    specialize (Hi eq_refl). unfold action_name, pr_action_count in *.
    destruct (lookup_lt_is_Some_2 (pr_actions prog) (Z.to_nat (arg insn))) as [a ->]; [lia|by eexists]. }
  destruct (IH (z + 1)) as [outs E]. cbn [mbind outcome_bind]. rewrite E. by eexists.
Qed.
End Dump.

(** A jump beyond 32767 is shown as a negative number. *)
Example far_jump : dump_rvm_prog (fun _ => []) (mkProg [mkInsn RVM_GOTO 40000] 1 [] 0) =
  Ok (lit "   0 GOTO      -25536" ++ [10]).
Proof. reflexivity. Qed.
