(* ===== verification/RegexVM.v ===== *)
(** The byte machine of the regular back end: on every safe program and every
    input it ends, stays inside its arrays, and accepts only along paths of the
    program. *)

From S2P Require Import Prelude Stream Charset CArray Token Parser SArray Regex.

(** * Safe programs *)

(** The instruction at [i] leads to instructions and actions that exist. *)
Definition insn_safe (p : HRVMProg) (i : Z) (insn : HRVMInsn) : Prop :=
  0 <= arg insn /\
  match op insn with
  | RVM_ACCEPT => True
  | RVM_GOTO => arg insn < pr_length p
  | RVM_FORK => arg insn < pr_length p /\ i + 1 < pr_length p
  | RVM_ACTION => arg insn < pr_action_count p /\ i + 1 < pr_length p
  | _ => i + 1 < pr_length p
  end.

Record prog_safe (p : HRVMProg) : Prop := {
  ps_size : 0 < pr_length p <= 65536;
  ps_insns : forall i insn, 0 <= i -> pr_insns p !! Z.to_nat i = Some insn -> insn_safe p i insn;
}.

(** * The paths of a program *)

Section paths.
Context (prog : HRVMProg) (input : list Z).

Definition insn_at (ip : Z) (o : HRVMOp) (a : Z) : Prop :=
  0 <= ip /\ pr_insns prog !! Z.to_nat ip = Some (mkInsn o a).

(** A run of the non-deterministic machine is at byte [off] and address [ip]
    with the trace [t]. At the end of the input the byte is 0. *)
Inductive path : Z -> Z -> HRVMTrace -> Prop :=
| path_start : path 0 0 [mkTrace SVM_NOP 0 0]
| path_match off ip t a :
    path off ip t -> insn_at ip RVM_MATCH a ->
    Z.land a 255 <= (if off =? Z.of_nat (length input) then 0
                     else default 0 (input !! Z.to_nat off)) <= Z.land (Z.shiftr a 8) 255 ->
    path off (ip + 1) t
| path_goto off ip t a : path off ip t -> insn_at ip RVM_GOTO a -> path off a t
| path_fork off ip t a : path off ip t -> insn_at ip RVM_FORK a -> path off a t
| path_next off ip t a : path off ip t -> insn_at ip RVM_FORK a -> path off (ip + 1) t
| path_push off ip t a :
    path off ip t -> insn_at ip RVM_PUSH a -> path off (ip + 1) (mkTrace SVM_PUSH 0 off :: t)
| path_action off ip t a :
    path off ip t -> insn_at ip RVM_ACTION a -> path off (ip + 1) (mkTrace SVM_ACTION a off :: t)
| path_capture off ip t a :
    path off ip t -> insn_at ip RVM_CAPTURE a -> path off (ip + 1) (mkTrace SVM_CAPTURE 0 off :: t)
| path_eof off ip t a :
    path off ip t -> insn_at ip RVM_EOF a -> off = Z.of_nat (length input) -> path off (ip + 1) t
| path_step off ip t a :
    path off ip t -> insn_at ip RVM_STEP a -> path (off + 1) (ip + 1) t.

Definition accepts (t : HRVMTrace) : Prop :=
  exists off ip a t', path off ip t' /\ insn_at ip RVM_ACCEPT a /\
    off <= Z.of_nat (length input) /\ t = mkTrace SVM_ACCEPT 0 off :: t'.
End paths.

(** * The queue of one byte *)

(** The entries of [seen] that are [x]. *)
Fixpoint cnt (x : Z) (seen : list Z) : Z :=
  match seen with
  | [] => 0
  | y :: seen => (if y =? x then 1 else 0) + cnt x seen
  end.

Lemma cnt_insert x seen i v w :
  seen !! i = Some v ->
  cnt x (<[i:=w]> seen) = cnt x seen - (if v =? x then 1 else 0) + (if w =? x then 1 else 0).
Proof.
  revert i. induction seen as [|y seen IH]; intros [|i] Hi; simplify_eq/=; [lia|].
  rewrite (IH _ Hi). lia.
Qed.

Lemma cnt_nonneg x seen : 0 <= cnt x seen.
Proof. induction seen as [|y seen IH]; simpl; [lia|]. destruct (y =? x); lia. Qed.

Lemma cnt_total seen : cnt 0 seen + cnt 2 seen <= Z.of_nat (length seen).
Proof.
  induction seen as [|y seen IH]; [done|]. simpl length. cbn [cnt].
  destruct (Z.eqb_spec y 0), (Z.eqb_spec y 2); lia.
Qed.

(** Is the top of the queue at an address that was not seen? *)
Definition fresh_top (seen : list Z) (q : list HRVMThread) : Z :=
  match q with
  | [] => 0
  | th :: _ => match seen !! Z.to_nat (th_ip th) with Some 0 => 1 | _ => 0 end
  end.

Lemma fresh_top_range seen q : 0 <= fresh_top seen q <= Z.min 1 (cnt 0 seen).
Proof.
  pose proof (cnt_nonneg 0 seen). destruct q as [|th q]; simpl; [lia|].
  destruct (seen !! _) as [[]|] eqn:E; try lia.
  pose proof (cnt_insert 0 _ _ _ 1 E). pose proof (cnt_nonneg 0 (<[Z.to_nat (th_ip th):=1]> seen)).
  simpl in *. lia.
Qed.

(** What every round makes smaller, and what bounds the queue. *)
Definition mu (seen : list Z) (q : list HRVMThread) : Z :=
  4 * cnt 0 seen + cnt 2 seen + Z.of_nat (length q) - 2 * fresh_top seen q.
Definition room (seen : list Z) (q : list HRVMThread) : Z :=
  Z.of_nat (length q) + cnt 0 seen - fresh_top seen q.

Section measure.
Context (seen : list Z) (th : HRVMThread) (rest : list HRVMThread) (v : Z).
Context (Hv : seen !! Z.to_nat (th_ip th) = Some v) (Hr : 0 <= v <= 2).

Lemma fresh_top_seen : fresh_top seen (th :: rest) = if v =? 0 then 1 else 0.
Proof. simpl. rewrite Hv. destruct v as [|p|p]; [done|by destruct p|lia]. Qed.

(** The thread is at an address that was processed. *)
Lemma measure_pop : v = 1 ->
  mu seen rest < mu seen (th :: rest) /\ room seen rest <= room seen (th :: rest).
Proof.
  intros Hv1. pose proof fresh_top_seen as E. rewrite Hv1 in E. change (1 =? 0) with false in E.
  pose proof (fresh_top_range seen rest).
  unfold mu, room. rewrite E. cbn [length]. lia.
Qed.

(** Its address is processed and at most one thread takes its place. *)
Lemma measure_mark q :
  v <> 1 -> (q = rest \/ exists th', q = th' :: rest) ->
  mu (<[Z.to_nat (th_ip th):=1]> seen) q < mu seen (th :: rest) /\
  room (<[Z.to_nat (th_ip th):=1]> seen) q <= room seen (th :: rest).
Proof.
  intros Hv1 Hq. pose proof fresh_top_seen as E.
  pose proof (cnt_insert 0 _ _ _ 1 Hv) as E0. pose proof (cnt_insert 2 _ _ _ 1 Hv) as E2.
  set (seen1 := <[_:=1]> seen) in *. pose proof (fresh_top_range seen1 q).
  assert (Z.of_nat (length q) <= Z.of_nat (length rest) + 1) by (destruct Hq as [->|[? ->]]; simpl; lia).
  change (1 =? 0) with false in E0. change (1 =? 2) with false in E2.
  unfold mu, room. rewrite E. cbn [length].
  destruct (Z.eqb_spec v 0), (Z.eqb_spec v 2); lia.
Qed.

(** It forks to [a], which was not seen, and to [nx]. *)
Lemma measure_fork ta tn x :
  v <> 1 -> <[Z.to_nat (th_ip th):=1]> seen !! Z.to_nat (th_ip ta) = Some 0 ->
  <[Z.to_nat (th_ip th):=1]> seen !! Z.to_nat (th_ip tn) = Some x ->
  let seen2 := <[Z.to_nat (th_ip tn):=2]> (<[Z.to_nat (th_ip th):=1]> seen) in
  mu seen2 (ta :: tn :: rest) < mu seen (th :: rest) /\
  room seen2 (ta :: tn :: rest) <= room seen (th :: rest) /\
  Z.of_nat (length rest) + 2 <= room seen2 (ta :: tn :: rest).
Proof.
  intros Hv1 Ha Hx seen2. pose proof fresh_top_seen as E.
  pose proof (cnt_insert 0 _ _ _ 1 Hv) as E0. pose proof (cnt_insert 2 _ _ _ 1 Hv) as E2.
  pose proof (cnt_insert 0 _ _ _ 2 Hx) as F0. pose proof (cnt_insert 2 _ _ _ 2 Hx) as F2.
  fold seen2 in F0, F2. pose proof (fresh_top_range seen2 (ta :: tn :: rest)) as Hf.
  assert (fresh_top seen2 (ta :: tn :: rest) =
    if decide (Z.to_nat (th_ip tn) = Z.to_nat (th_ip ta)) then 0 else 1) as Ef.
  { simpl. unfold seen2. case_decide as Hd.
    - rewrite Hd, list_lookup_insert_eq; [done|]. by eapply lookup_lt_Some.
    - by rewrite list_lookup_insert_ne, Ha by done. }
  change (1 =? 0) with false in E0. change (1 =? 2) with false in E2.
  change (2 =? 0) with false in F0. change (2 =? 2) with true in F2.
  rewrite Ef in Hf. unfold mu, room. rewrite E, Ef. cbn [length].
  case_decide as Hd; [rewrite Hd, Ha in Hx; injection Hx as <-;
    change (0 =? 0) with true in F0; change (0 =? 2) with false in F2; cbn iota in F0, F2|];
    destruct (Z.eqb_spec v 0), (Z.eqb_spec v 2); try destruct (Z.eqb_spec x 0), (Z.eqb_spec x 2);
    lia.
Qed.
End measure.

(** * The machine keeps to its arrays and to the paths *)

Section machine.
Context (prog : HRVMProg) (input : list Z) (Hsafe : prog_safe prog).

Local Abbreviation n := (pr_length prog).
Local Abbreviation len := (Z.of_nat (length input)).
Local Abbreviation path := (path prog input).
Local Abbreviation accepts := (accepts prog input).

Definition seen_wf (seen : list Z) : Prop :=
  length seen = length (pr_insns prog) /\ Forall (fun v => 0 <= v <= 2) seen.

(** The threads saved for byte [off]. *)
Record heads_wf (off : Z) (heads : HSArray HRVMTrace) : Prop := {
  hw_wf : sarray_wf heads;
  hw_capacity : sa_capacity heads = n;
  hw_path : forall ip t, 0 <= ip -> sa_lookup heads ip = Some t -> path off ip t;
}.

Definition thread_wf (off : Z) (th : HRVMThread) : Prop :=
  0 <= th_ip th < n /\ path off (th_ip th) (th_trace th).

Record vm_inv (off : Z) (s : vm_state) : Prop := {
  vi_heads : heads_wf (off + 1) (vm_heads_n s);
  vi_live : 0 <= vm_live s /\ (0 < vm_live s -> 0 < sa_used (vm_heads_n s));
  vi_seen : seen_wf (vm_seen s);
  vi_queue : Forall (thread_wf off) (vm_queue s);
  vi_room : room (vm_seen s) (vm_queue s) <= n;
  vi_ret : forall t, vm_ret s = Some t -> accepts t;
}.

Lemma seen_at_ok seen ip : seen_wf seen -> 0 <= ip < n ->
  exists v, seen_at seen ip = Ok v /\ seen !! Z.to_nat ip = Some v /\ 0 <= v <= 2.
Proof.
  intros [Hl Hb] Hip. destruct (lookup_lt_is_Some_2 seen (Z.to_nat ip)) as [v Hv].
  { unfold pr_length in Hip. lia. }
  exists v. unfold seen_at. rewrite Hv. split; [done|]. split; [done|].
  exact (proj1 (Forall_lookup _ _) Hb _ _ Hv).
Qed.

Lemma set_seen_ok seen ip v : seen_wf seen -> 0 <= ip < n -> 0 <= v <= 2 ->
  set_seen seen ip v = Ok (<[Z.to_nat ip := v]> seen) /\ seen_wf (<[Z.to_nat ip := v]> seen).
Proof.
  intros Hs Hip Hv. destruct (seen_at_ok seen ip Hs Hip) as (x & E & _).
  unfold set_seen. rewrite E. destruct Hs as [Hl Hb]. split; [done|]. split.
  - by rewrite length_insert.
  - by apply Forall_insert.
Qed.

(** One round from a state whose queue is [th :: rest]. *)
Definition step_ok (off : Z) (s : vm_state) (o : outcome vm_state) : Prop :=
  exists s', o = Ok s' /\ vm_inv off s' /\
    mu (vm_seen s') (vm_queue s') < mu (vm_seen s) (vm_queue s).

Section step.
Context (off ch : Z) (heads_n : HSArray HRVMTrace) (seen : list Z).
Context (ret : option HRVMTrace) (live : Z) (th : HRVMThread) (rest : list HRVMThread) (v : Z).
Local Abbreviation s := (mkVm heads_n seen (th :: rest) ret live).
Local Abbreviation seen1 := (<[Z.to_nat (th_ip th):=1]> seen).
Context (Hinv : vm_inv off s) (Hv : seen !! Z.to_nat (th_ip th) = Some v) (Hv2 : 0 <= v <= 2)
  (Hv1 : v <> 1).

Lemma thread_top : thread_wf off th /\ Forall (thread_wf off) rest /\ seen_wf seen1.
Proof.
  pose proof (vi_queue _ _ Hinv) as Hq. simpl in Hq. apply Forall_cons_1 in Hq as [Ht Hr].
  split; [done|]. split; [done|]. apply set_seen_ok; [apply (vi_seen _ _ Hinv)|apply Ht|lia].
Qed.

(** The thread ends, perhaps with another return trace. *)
Lemma step_kill ret' : (forall t, ret' = Some t -> accepts t) ->
  step_ok off s (Ok (mkVm heads_n seen1 rest ret' live)).
Proof.
  intros Hret. destruct thread_top as (Ht & Hr & Hs1).
  destruct (measure_mark seen th rest v Hv Hv2 rest Hv1) as [Hmu Hroom]; [by left|].
  pose proof (vi_room _ _ Hinv) as Hn. simpl in Hn.
  eexists. split; [done|]. split; [|done].
  split; simpl; [apply Hinv|apply Hinv|done|done|lia|done].
Qed.

(** The thread goes on at [ip] with trace [t]. *)
Lemma step_continue t ip :
  0 <= ip < n -> path off ip t ->
  step_ok off s (Ok (mkVm heads_n seen1 (mkThread t ip :: rest) ret live)).
Proof.
  intros Hip Hp. destruct thread_top as (Ht & Hr & Hs1).
  destruct (measure_mark seen th rest v Hv Hv2 (mkThread t ip :: rest) Hv1) as [Hmu Hroom];
    [right; by eexists|].
  pose proof (vi_room _ _ Hinv) as Hn. simpl in Hn.
  eexists. split; [done|]. split; [|done].
  split; simpl; [apply Hinv|apply Hinv|done|by constructor|lia|apply Hinv].
Qed.

(** The thread is saved for the next byte. *)
Lemma step_save ip : 0 <= ip < n -> path (off + 1) ip (th_trace th) ->
  step_ok off s (heads_n ← h_sarray_set heads_n ip (th_trace th);
                 Ok (mkVm heads_n seen1 rest ret (live + 1))).
Proof.
  intros Hip Hp. destruct thread_top as (Ht & Hr & Hs1).
  destruct (vi_heads _ _ Hinv) as [Hwf Hc Hpath]. simpl in *.
  destruct (set_lookup_ok heads_n ip (th_trace th) Hwf) as (h' & -> & Hwf' & Hc' & Hu & Hl & Ho);
    [lia|].
  destruct (measure_mark seen th rest v Hv Hv2 rest Hv1) as [Hmu Hroom]; [by left|].
  pose proof (vi_room _ _ Hinv) as Hn. pose proof (vi_live _ _ Hinv) as [Hlive _]. simpl in *.
  eexists. split; [done|]. split; [|done].
  split; simpl; [|lia|done|done|lia|apply Hinv].
  split; [done|lia|]. intros ip' t' Hip' Ht'. destruct (decide (ip' = ip)) as [->|Hne].
  - rewrite Hl in Ht'. by injection Ht' as <-.
  - rewrite Ho in Ht' by done. by apply Hpath.
Qed.

(** The thread forks. *)
Lemma step_fork a nx :
  0 <= a < n -> 0 <= nx < n -> path off a (th_trace th) -> path off nx (th_trace th) ->
  seen1 !! Z.to_nat a = Some 0 ->
  step_ok off s
    (seen ← set_seen seen1 nx 2;
     if (S (S (length rest)) <=? length (pr_insns prog))%nat
     then Ok (mkVm heads_n seen
                (mkThread (th_trace th) a :: mkThread (th_trace th) nx :: rest) ret live)
     else Fault OutOfBounds).
Proof.
  intros Ha Hnx Hpa Hpn Hsa. destruct thread_top as (Ht & Hr & Hs1).
  destruct (seen_at_ok seen1 nx Hs1 Hnx) as (x & _ & Hx & _).
  destruct (set_seen_ok seen1 nx 2 Hs1 Hnx) as [-> Hs2]; [lia|]. cbn [mbind outcome_bind].
  destruct (measure_fork seen th rest v Hv Hv2 (mkThread (th_trace th) a)
    (mkThread (th_trace th) nx) x Hv1 Hsa Hx) as (Hmu & Hroom & Hq). simpl th_ip in *.
  pose proof (vi_room _ _ Hinv) as Hn. simpl in Hn.
  destruct (Nat.leb_spec (S (S (length rest))) (length (pr_insns prog)));
    [|unfold pr_length in *; lia].
  eexists. split; [done|]. split; [|done].
  split; simpl vm_seen; simpl vm_queue; simpl; [apply Hinv|apply Hinv|done| |lia|apply Hinv].
  constructor; [done|]. by constructor.
Qed.
End step.

(** The byte the machine looks at. *)
Definition byte_of (off : Z) : Z :=
  if off =? len then 0 else default 0 (input !! Z.to_nat off).

Lemma next_ok ip : 0 <= ip -> ip + 1 < n -> uint16 (ip + 1) = ip + 1.
Proof.
  intros. pose proof (ps_size _ Hsafe). apply wrapu_small. change (2 ^ 16) with 65536. lia.
Qed.

Lemma vm_step_ok off s th rest :
  0 <= off <= len -> vm_inv off s -> vm_queue s = th :: rest ->
  step_ok off s (vm_step prog input off (byte_of off) s th rest).
Proof.
  intros Hoff Hinv Hq. destruct s as [heads_n seen q ret live]. simpl in Hq. subst q.
  pose proof (vi_queue _ _ Hinv) as Hqu. apply Forall_cons_1 in Hqu as [[Hip Hpath] _].
  destruct (seen_at_ok seen _ (vi_seen _ _ Hinv) Hip) as (v & E & Hv & Hv2).
  unfold vm_step. rewrite E. cbn [mbind outcome_bind]. destruct (Z.eqb_spec v 1) as [->|Hv1].
  { pose proof (measure_pop seen th rest 1 Hv Hv2 eq_refl) as [Hmu Hroom].
    pose proof (vi_room _ _ Hinv) as Hn. simpl in Hn.
    eexists. split; [done|]. split; [|done].
    split; simpl; try apply Hinv; [|lia]. pose proof (vi_queue _ _ Hinv) as Hqu.
    by apply Forall_cons_1 in Hqu as [_ Hqu]. }
  destruct (set_seen_ok seen (th_ip th) 1 (vi_seen _ _ Hinv) Hip) as [-> Hs1]; [lia|].
  cbn [mbind outcome_bind].
  destruct (lookup_lt_is_Some_2 (pr_insns prog) (Z.to_nat (th_ip th))) as [[o a] Hi];
    [unfold pr_length in Hip; lia|].
  rewrite Hi. cbn [deref mbind outcome_bind op arg].
  destruct (ps_insns _ Hsafe _ _ (proj1 Hip) Hi) as [Ha Ht]. cbn [op arg] in Ha, Ht.
  assert (insn_at prog (th_ip th) o a) as Hat by (split; [lia|done]).
  assert (forall t, path off (th_ip th + 1) t -> th_ip th + 1 < n ->
    step_ok off (mkVm heads_n seen (th :: rest) ret live)
      (Ok (mkVm heads_n (<[Z.to_nat (th_ip th):=1]> seen)
             (mkThread t (uint16 (th_ip th + 1)) :: rest) ret live))) as Hgo.
  { intros t Hp Hlt. rewrite next_ok by lia. apply (step_continue _ _ _ _ _ _ _ v); try done. lia. }
  assert (step_ok off (mkVm heads_n seen (th :: rest) ret live)
      (Ok (mkVm heads_n (<[Z.to_nat (th_ip th):=1]> seen) rest ret live))) as Hkill.
  { apply (step_kill _ _ _ _ _ _ _ v); try done. apply (vi_ret _ _ Hinv). }
  destruct o.
  - apply (step_kill _ _ _ _ _ _ _ v); try done. intros t [= <-].
    exists off, (th_ip th), a, (th_trace th). split_and!; try done; apply Hat || lia.
  - apply (step_continue _ _ _ _ _ _ _ v); try done; try lia. by eapply path_goto.
  - destruct Ht as [Ht1 Ht2].
    destruct (seen_at_ok _ a Hs1 ltac:(lia)) as (x & -> & Hx & _). cbn [mbind outcome_bind].
    destruct (Z.eqb_spec x 0) as [->|]; [|by apply Hgo; [eapply path_next|]].
    rewrite next_ok by lia. apply (step_fork _ _ _ _ _ _ _ v); try done; try lia; [by eapply path_fork|by eapply path_next].
  - apply Hgo; [by eapply path_push|done].
  - destruct Ht. apply Hgo; [by eapply path_action|done].
  - apply Hgo; [by eapply path_capture|done].
  - destruct (Z.eqb_spec off len); [|done]. apply Hgo; [by eapply path_eof|done].
  - destruct (Z.ltb_spec (byte_of off) (Z.land a 255)),
      (Z.ltb_spec (Z.land (Z.shiftr a 8) 255) (byte_of off)); try done.
    apply Hgo; [|done]. eapply path_match; [done|done|]. unfold byte_of in *. lia.
  - rewrite next_ok by lia. apply (step_save _ _ _ _ _ _ _ v); try done; try lia.
    by eapply path_step.
Qed.

(** The rounds of one head end when the queue is empty. *)
Lemma vm_loop_terminates fuel off s :
  0 <= off <= len -> vm_inv off s -> mu (vm_seen s) (vm_queue s) <= Z.of_nat fuel ->
  exists s', vm_loop prog input fuel off (byte_of off) s = Ok s' /\ vm_inv off s' /\ vm_queue s' = [].
Proof.
  intros Hoff. revert s. induction fuel as [|fuel IH]; intros s Hinv Hmu; cbn [vm_loop];
    destruct (vm_queue s) as [|th rest] eqn:Hq; try by exists s.
  - pose proof (fresh_top_range (vm_seen s) (th :: rest)). pose proof (cnt_nonneg 2 (vm_seen s)).
    unfold mu in Hmu. cbn [length] in Hmu. lia.
  - rewrite <- Hq in Hmu. destruct (vm_step_ok off s th rest Hoff Hinv Hq) as (s' & -> & Hinv' & Hlt).
    cbn [mbind outcome_bind]. apply IH; [done|lia].
Qed.

(** The state before the first head, and after each. *)
Lemma vm_heads_ok off heads s :
  0 <= off <= len -> vm_inv off s ->
  Forall (fun kv => 0 <= kv.1 < n /\ path off kv.1 kv.2) heads -> vm_queue s = [] ->
  exists s', vm_heads prog input (vm_fuel prog) off (byte_of off) heads s = Ok s' /\ vm_inv off s'.
Proof.
  intros Hoff. revert s. induction heads as [|[ip tr] heads IH]; intros s Hinv Hh Hq; [by exists s|].
  apply Forall_cons_1 in Hh as [[Hip Hp] Hh]. cbn [vm_heads]. simpl in Hip, Hp.
  pose proof (ps_size _ Hsafe) as Hn.
  rewrite (wrapu_small 16 ip) by (change (2 ^ 16) with 65536; lia).
  set (s1 := mkVm _ _ _ _ _).
  assert (Hseen := vi_seen _ _ Hinv). pose proof (cnt_total (vm_seen s)) as Ht.
  pose proof (fresh_top_range (vm_seen s) [mkThread tr ip]) as Hf.
  pose proof (cnt_nonneg 0 (vm_seen s)). pose proof (cnt_nonneg 2 (vm_seen s)).
  destruct (seen_at_ok _ ip Hseen Hip) as (v & _ & Hv & Hv2).
  assert (vm_inv off s1) as Hinv1.
  { split; simpl; try apply Hinv; [constructor; [by split|constructor]|].
    pose proof (cnt_insert 0 _ _ _ 0 Hv) as E0. change (0 =? 0) with true in E0.
    pose proof (cnt_total (<[Z.to_nat ip:=0]> (vm_seen s))) as Ht1. rewrite length_insert in Ht1.
    pose proof (cnt_nonneg 2 (<[Z.to_nat ip:=0]> (vm_seen s))).
    destruct Hseen as [Hl _]. unfold room, pr_length in *.
    rewrite (fresh_top_seen (vm_seen s) (mkThread tr ip) [] v Hv Hv2). cbn [length].
    destruct (v =? 0); lia. }
  destruct (vm_loop_terminates (vm_fuel prog) off s1 Hoff Hinv1) as (s' & -> & Hinv' & Hq').
  { unfold mu, vm_fuel. simpl. destruct Hseen as [Hl _]. simpl in Hf. lia. }
  cbn [mbind outcome_bind]. by apply IH.
Qed.

(** The state each byte starts from. *)
Lemma vm_inv_start off heads ret :
  sarray_wf heads -> sa_capacity heads = n -> (forall t, ret = Some t -> accepts t) ->
  vm_inv off (mkVm (h_sarray_clear heads) (replicate (length (pr_insns prog)) 0) [] ret 0).
Proof.
  intros Hwf Hc Hret. split; simpl; try done; try lia.
  - split; [by apply clear_wf|done|]. intros ip t _ Ht. by rewrite lookup_unused in Ht.
  - split; [apply length_replicate|]. apply Forall_replicate. lia.
  - pose proof (cnt_total (replicate (length (pr_insns prog)) 0)) as Ht.
    rewrite length_replicate in Ht.
    pose proof (cnt_nonneg 2 (replicate (length (pr_insns prog)) 0)).
    unfold room, pr_length. simpl length. simpl fresh_top. lia.
Qed.

Lemma vm_bytes_ok k off heads_n heads_p live ret :
  0 <= off -> off + Z.of_nat k = len + 1 ->
  heads_wf off heads_n -> sarray_wf heads_p -> sa_capacity heads_p = n ->
  0 <= live -> (0 < live -> 0 < sa_used heads_n) -> (forall t, ret = Some t -> accepts t) ->
  exists r, vm_bytes prog input k off heads_n heads_p live ret = Ok r /\
    forall t, r = Some t -> accepts t.
Proof.
  revert off heads_n heads_p live ret.
  induction k as [|k IH]; intros off heads_n heads_p live ret Hoff Hk Hn Hp Hcp Hlive Hu Hret;
    [by exists ret|].
  cbn [vm_bytes].
  assert ((if off =? len then Ok 0 else deref OutOfBounds (input !! Z.to_nat off)) =
    Ok (byte_of off)) as ->.
  { unfold byte_of. destruct (Z.eqb_spec off len); [done|].
    destruct (lookup_lt_is_Some_2 input (Z.to_nat off)) as [x Hx]; [lia|]. by rewrite Hx. }
  cbn [mbind outcome_bind]. destruct (Z.eqb_spec live 0); [by exists ret|].
  destruct (foreach_ok heads_n (hw_wf _ _ Hn)) as (kvs & -> & Hkv & _); [lia|].
  cbn [mbind outcome_bind].
  destruct (vm_heads_ok off kvs (mkVm (h_sarray_clear heads_p)
    (replicate (length (pr_insns prog)) 0) [] ret 0)) as (s' & -> & Hinv'); [lia| | |done|].
  - by apply vm_inv_start.
  - eapply list.Forall_impl; [exact Hkv|]. intros [ip t] [Hip Ht]. simpl in *.
    rewrite (hw_capacity _ _ Hn) in Hip. split; [done|]. apply (hw_path _ _ Hn); [lia|done].
  - cbn [mbind outcome_bind]. pose proof (vi_live _ _ Hinv'). apply IH; try apply Hinv'; try lia.
    + apply (hw_wf _ _ Hn).
    + apply (hw_capacity _ _ Hn).
Qed.
End machine.

Lemma rvm_trace_ok prog input memory1 memory2 :
  prog_safe prog ->
  length memory1 = length (pr_insns prog) -> length memory2 = length (pr_insns prog) ->
  Forall (fun nd => 0 <= sn_index nd) memory1 -> Forall (fun nd => 0 <= sn_index nd) memory2 ->
  exists r, rvm_trace prog input memory1 memory2 = Ok r /\
    forall t, r = Some t -> accepts prog input t.
Proof.
  intros Hsafe Hl1 Hl2 Hm1 Hm2. pose proof (ps_size _ Hsafe) as Hn.
  assert (sa_capacity (h_sarray_new memory1) = pr_length prog) as Hc1
    by (unfold pr_length; simpl; by rewrite Hl1).
  unfold rvm_trace.
  destruct (set_lookup_ok (h_sarray_new memory1) 0 [mkTrace SVM_NOP 0 0] (sarray_new_wf _ Hm1))
    as (heads & -> & Hwf & Hc & Hu & Hl & Ho); [lia|].
  cbn [mbind outcome_bind]. apply vm_bytes_ok; try done; try lia.
  - split; [done|lia|]. intros ip t Hip Ht. destruct (decide (ip = 0)) as [->|Hne].
    + rewrite Hl in Ht. injection Ht as <-. constructor.
    + rewrite Ho, lookup_unused in Ht by done. done.
  - by apply sarray_new_wf.
  - unfold pr_length. simpl. by rewrite Hl2.
Qed.

Lemma rvm_trace_accepts prog input memory1 memory2 t :
  prog_safe prog ->
  length memory1 = length (pr_insns prog) -> length memory2 = length (pr_insns prog) ->
  Forall (fun nd => 0 <= sn_index nd) memory1 -> Forall (fun nd => 0 <= sn_index nd) memory2 ->
  rvm_trace prog input memory1 memory2 = Ok (Some t) -> accepts prog input t.
Proof.
  intros Hs H1 H2 H3 H4 Ht. destruct (rvm_trace_ok prog input memory1 memory2 Hs H1 H2 H3 H4) as (r & E & Hr).
  apply Hr. congruence.
Qed.

Lemma path_off prog input off ip t : path prog input off ip t -> 0 <= off.
Proof. induction 1; lia. Qed.

(** C20: the byte machine is safe and terminates: run on a safe program, any
    input and any uninitialised memory, it never leaves its arrays (the thread
    queue, insn_seen, the sparse arrays) and needs at most [vm_fuel] rounds
    for a thread; the trace it returns is that of an accepting path of the
    program on the input. *)
Theorem rvm_trace_sound prog input memory1 memory2 :
  prog_safe prog ->
  length memory1 = length (pr_insns prog) -> length memory2 = length (pr_insns prog) ->
  Forall (fun nd => 0 <= sn_index nd) memory1 -> Forall (fun nd => 0 <= sn_index nd) memory2 ->
  exists r, rvm_trace prog input memory1 memory2 = Ok r /\
    forall t, r = Some t -> accepts prog input t.
Proof. apply rvm_trace_ok. Qed.

(** * Witness *)

(** [('a' | 'b')* then the end], with a cell for every instruction. *)
Definition ab_star : HRVMProg :=
  mkProg [mkInsn RVM_FORK 4; mkInsn RVM_MATCH 25185; mkInsn RVM_STEP 0; mkInsn RVM_GOTO 0;
          mkInsn RVM_EOF 0; mkInsn RVM_ACCEPT 0] 8 [] 0.
Definition ab_memory : list (HSArrayNode HRVMTrace) := replicate 6 (mkSNode 0 0 []).

Lemma ab_star_safe : prog_safe ab_star.
Proof.
  split; [vm_compute; split; congruence|]. intros i insn Hi H.
  assert (Z.to_nat i < 6)%nat as Hlt by exact (lookup_lt_Some _ _ _ H).
  assert (i = 0 \/ i = 1 \/ i = 2 \/ i = 3 \/ i = 4 \/ i = 5) as Hc by lia.
  destruct Hc as [->|[->|[->|[->|[->| ->]]]]]; injection H as <-; vm_compute; intuition congruence.
Qed.

Lemma ab_memory_nonneg : Forall (fun nd => 0 <= sn_index nd) ab_memory.
Proof. repeat constructor; simpl; lia. Qed.

Lemma rvm_trace_sound_witness :
  exists r, rvm_trace ab_star [97; 98; 97] ab_memory ab_memory = Ok r /\
    forall t, r = Some t -> accepts ab_star [97; 98; 97] t.
Proof.
  exact (rvm_trace_sound ab_star [97; 98; 97] ab_memory ab_memory ab_star_safe eq_refl eq_refl
    ab_memory_nonneg ab_memory_nonneg).
Defined.
