(* ===== verification/RegexCompile.v ===== *)
(** The compiler of the regular back end: the programs it returns are safe for
    the byte machine, and compilation does not fail on the parsers it accepts;
    with the exception of ignored parsers that do not compile. [limited] compares
    compiling with little memory and with all that it asks for. *)

From S2P Require Import Prelude Stream Charset CArray Token Parser Validity SArray Regex.
From S2P Require Import RegexVM.

(** * The arrays of the program *)

Definition cap_ok (count cap : Z) : Prop :=
  count = 0 \/ (count < cap /\ exists k, 0 <= k /\ cap = 2 ^ k).

(** [count & (count + 1)] is 0 only when [count + 1] is a power of two. *)
Lemma land_succ_pow2 c : 0 <= c -> Z.land c (c + 1) = 0 -> exists k, 0 <= k /\ c + 1 = 2 ^ k.
Proof.
  intros Hc Hl. exists (Z.log2 (c + 1)). split; [apply Z.log2_nonneg|].
  destruct (Z.log2_spec (c + 1)) as [H1 H2]; [lia|].
  destruct (Z.eq_dec (c + 1) (2 ^ Z.log2 (c + 1))) as [|Hne]; [done|]. exfalso.
  assert (0 < 2 ^ Z.log2 (c + 1)) by (apply Z.pow_pos_nonneg; [lia|apply Z.log2_nonneg]).
  assert (Z.testbit (Z.land c (c + 1)) (Z.log2 (c + 1)) = true) as Hb; [|by rewrite Hl, Z.bits_0 in Hb].
  rewrite Z.land_spec, (Z.bit_log2 (c + 1)) by lia.
  assert (Z.log2 c = Z.log2 (c + 1)) as <-; [|rewrite Z.bit_log2; [done|lia]].
  apply Z.log2_unique; [apply Z.log2_nonneg|lia].
Qed.

Lemma land_pred_pow2 k : 0 <= k -> Z.land (2 ^ k - 1) (2 ^ k - 1 + 1) = 0.
Proof.
  intros Hk. rewrite Z.land_comm, land_ones_mod by lia.
  replace (2 ^ k - 1 + 1) with (2 ^ k) by lia. apply Z.mod_same. lia.
Qed.

Lemma scale_ok realloc_ok count cap :
  0 <= count -> cap_ok count cap ->
  (exists cap', scale realloc_ok count cap = Ok cap' /\ count < cap' /\ cap_ok (count + 1) cap') \/
  (scale realloc_ok count cap = Fault Longjmp /\ exists n, realloc_ok n = false).
Proof.
  intros Hc Hcap. unfold scale. destruct (Z.eqb_spec (Z.land count (count + 1)) 0) as [Hl|Hl].
  - destruct (land_succ_pow2 count Hc Hl) as (k & Hk & Ek).
    destruct (realloc_ok ((count + 1) * 2)) eqn:Er; [left|right; eauto].
    exists ((count + 1) * 2). split; [done|]. split; [lia|]. right. split; [lia|].
    exists (k + 1). split; [lia|]. rewrite Z.pow_add_r by lia. lia.
  - left. exists cap. split; [done|]. destruct Hcap as [->|(Hlt & k & Hk & ->)]; [done|].
    split; [done|]. right. split; [|eauto].
    destruct (Z.eq_dec (count + 1) (2 ^ k)) as [E|]; [|lia]. exfalso. apply Hl.
    replace count with (2 ^ k - 1) by lia. by apply land_pred_pow2.
Qed.

(** * Programs under construction *)

(** Jumps lead to instructions or to the end of the code so far. *)
Definition target_ok (p : HRVMProg) (insn : HRVMInsn) : Prop :=
  match op insn with
  | RVM_GOTO | RVM_FORK => arg insn <= pr_length p
  | RVM_ACTION => arg insn < pr_action_count p
  | _ => True
  end.

Definition is_jump (o : HRVMOp) : Prop := o = RVM_GOTO \/ o = RVM_FORK.

(** [pend] lists the jumps that still have to be patched. What is said of the
    instructions holds while addresses fit in 16 bits. *)
Record prog_wf (p : HRVMProg) (pend : list Z) : Prop := {
  pw_insns_cap : cap_ok (pr_length p) (pr_insns_cap p);
  pw_actions_cap : cap_ok (pr_action_count p) (pr_actions_cap p);
  pw_insns : pr_length p <= 65536 -> forall i insn, pr_insns p !! i = Some insn ->
    0 <= arg insn /\ (Z.of_nat i ∈ pend \/ target_ok p insn);
  pw_pend : pr_length p <= 65536 -> forall i, i ∈ pend ->
    0 <= i /\ exists insn, pr_insns p !! Z.to_nat i = Some insn /\ is_jump (op insn);
}.

Definition grows (p p' : HRVMProg) : Prop :=
  pr_length p <= pr_length p' /\ pr_action_count p <= pr_action_count p'.
#[global] Instance grows_preorder : PreOrder grows.
Proof. split; [intros p; split; lia|intros p q r [] []; split; lia]. Qed.

Lemma target_ok_grows p p' insn : grows p p' -> target_ok p insn -> target_ok p' insn.
Proof. intros []. unfold target_ok. destruct (op insn); lia. Qed.

Lemma prog_wf_pend p pend pend' :
  prog_wf p pend -> (forall i, i ∈ pend <-> i ∈ pend') -> prog_wf p pend'.
Proof.
  intros [H1 H2 H3 H4] He. split; try done.
  - intros Hs i insn Hi. rewrite <- He. by apply H3.
  - intros Hs i. rewrite <- He. by apply H4.
Qed.

Lemma pr_length_nonneg p : 0 <= pr_length p.
Proof. unfold pr_length. lia. Qed.
Lemma pr_action_count_nonneg p : 0 <= pr_action_count p.
Proof. unfold pr_action_count. lia. Qed.
Lemma uint16_le z : 0 <= z -> 0 <= uint16 z <= z.
Proof.
  intros. pose proof (wrapu_range 16 z). unfold wrapu in *.
  pose proof (Z.mod_le z (2 ^ 16)). lia.
Qed.
Lemma uint16_small z : 0 <= z < 65536 -> uint16 z = z.
Proof. intros. apply wrapu_small. by change (2 ^ 16) with 65536. Qed.

(** ** Weakest preconditions *)

Section wp.
Context (realloc_ok : Z -> bool).

(** [m] ends in [Q], or reallocation fails; no other fault. *)
Definition wp {A} (m : R A) (Q : A -> HRVMProg -> Prop) (p : HRVMProg) : Prop :=
  match m p with
  | Ok (a, p') => Q a p'
  | Fault f => f = Longjmp /\ exists n, realloc_ok n = false
  | OutOfFuel => False
  end.

Lemma wp_ret {A} (a : A) Q p : Q a p -> wp (mret a) Q p.
Proof. done. Qed.

Lemma wp_bind {A B} (m : R A) (k : A -> R B) Q p :
  wp m (fun a p' => wp (k a) Q p') p -> wp (m ≫= k) Q p.
Proof. unfold wp, mbind, ST_bind. by destruct (m p) as [[a p']| |]. Qed.

Lemma wp_mono {A} (m : R A) (Q Q' : A -> HRVMProg -> Prop) p :
  wp m Q p -> (forall a p', Q a p' -> Q' a p') -> wp m Q' p.
Proof. unfold wp. destruct (m p) as [[a p']| |]; auto. Qed.

(** Adding an instruction; [pend] may grow by its address. *)
Lemma wp_insert_gen o a p pend pend' Q :
  prog_wf p pend -> 
  (pend' = pend /\ (pr_length p < 65536 -> target_ok p (mkInsn o (uint16 a))) \/
   is_jump o /\ pend' = uint16 (pr_length p) :: pend) ->
  (forall p', grows p p' -> pr_length p' = pr_length p + 1 -> prog_wf p' pend' ->
     pr_insns p' = pr_insns p ++ [mkInsn o (uint16 a)] ->
     Q (uint16 (pr_length p)) p') ->
  wp (h_rvm_insert_insn realloc_ok o a) Q p.
Proof.
  intros Hwf Hpend HQ. unfold wp, h_rvm_insert_insn.
  destruct (scale_ok realloc_ok (pr_length p) (pr_insns_cap p)) as [(cap & -> & Hlt & Hcap)|[-> Hn]];
    [apply pr_length_nonneg|apply Hwf| |by split].
  cbn [mbind outcome_bind]. destruct (Z.ltb_spec (pr_length p) cap); [|lia].
  set (p' := mkProg _ _ _ _).
  assert (pr_length p' = pr_length p + 1) as Hl.
  { unfold p', pr_length. cbn [pr_insns]. rewrite length_app. simpl. lia. }
  assert (grows p p') as Hg by (split; [lia|by unfold p', pr_action_count]).
  apply HQ; try done. destruct Hwf as [H1 H2 H3 H4]. split.
  - rewrite Hl. exact Hcap.
  - exact H2.
  - intros Hs i insn Hi. cbn [pr_insns] in Hi. apply lookup_app_Some in Hi as [Hi|[Hge Hi]].
    + destruct (H3 ltac:(lia) i insn Hi) as [Ha Ht]. split; [done|].
      destruct Ht as [Ht|Ht]; [left|right; by eapply target_ok_grows].
      destruct Hpend as [[-> _]|[_ ->]]; [done|by right].
    + apply list_lookup_singleton_Some in Hi as [Hi <-]. cbn [arg].
      split; [apply wrapu_range; lia|]. destruct Hpend as [[-> Ht]|[Hj ->]].
      * right. eapply target_ok_grows; [done|]. apply Ht. lia.
      * left. rewrite uint16_small by (pose proof (pr_length_nonneg p); lia).
        unfold pr_length. replace (Z.of_nat i) with (Z.of_nat (length (pr_insns p))) by lia. by left.
  - intros Hs i Hi. cbn [pr_insns].
    assert (forall j, j ∈ pend -> 0 <= j /\ exists insn,
      (pr_insns p ++ [mkInsn o (uint16 a)]) !! Z.to_nat j = Some insn /\ is_jump (op insn)) as Hold.
    { intros j Hj. destruct (H4 ltac:(lia) j Hj) as (Hj0 & insn & E & Hjmp). split; [done|].
      exists insn. split; [|done]. by apply lookup_app_l_Some. }
    destruct Hpend as [[-> _]|[Hj ->]]; [by apply Hold|].
    apply elem_of_cons in Hi as [->|Hi]; [|by apply Hold].
    rewrite uint16_small by (pose proof (pr_length_nonneg p); lia).
    split; [apply pr_length_nonneg|]. exists (mkInsn o (uint16 a)). split; [|done].
    unfold p', pr_length. cbn [pr_insns]. rewrite Nat2Z.id. by apply list_lookup_middle.
Qed.

Lemma wp_create_action f env p pend Q :
  prog_wf p pend ->
  (forall a p', grows p p' -> pr_length p' = pr_length p -> prog_wf p' pend ->
     0 <= a < pr_action_count p' -> Q (uint16 a) p') ->
  wp (h_rvm_create_action realloc_ok f env) Q p.
Proof.
  intros Hwf HQ. unfold wp, h_rvm_create_action.
  destruct (list_find (.= (f, env)) (pr_actions p)) as [[i x]|] eqn:Ef.
  { apply list_find_Some in Ef as (Hi & _). apply lookup_lt_Some in Hi.
    apply HQ; try done. unfold pr_action_count. lia. }
  destruct (scale_ok realloc_ok (pr_action_count p) (pr_actions_cap p))
    as [(cap & -> & Hlt & Hcap)|[-> Hn]]; [apply pr_action_count_nonneg|apply Hwf| |by split].
  cbn [mbind outcome_bind]. destruct (Z.ltb_spec (pr_action_count p) cap); [|lia].
  set (p' := mkProg _ _ _ _).
  assert (pr_action_count p' = pr_action_count p + 1) as Hl.
  { unfold p', pr_action_count. cbn [pr_actions]. rewrite length_app. simpl. lia. }
  assert (grows p p') as Hg by (split; [by unfold p', pr_length|lia]).
  apply HQ; [done|done| |pose proof (pr_action_count_nonneg p); lia].
  destruct Hwf as [H1 H2 H3 H4]. split; [done|by rewrite Hl| |done].
  intros Hs i insn Hi. destruct (H3 Hs i insn Hi) as [Ha Ht]. split; [done|].
  destruct Ht as [Ht|Ht]; [by left|right]. by eapply target_ok_grows.
Qed.

(** Patching a jump; it need not be patched again. *)
Lemma wp_patch ip v p pend pend' Q :
  prog_wf p pend -> 0 <= ip < pr_length p -> 0 <= v <= pr_length p ->
  (pr_length p <= 65536 -> exists insn, pr_insns p !! Z.to_nat ip = Some insn /\ is_jump (op insn)) ->
  (forall i, i ∈ pend -> i = ip \/ i ∈ pend') -> (forall i, i ∈ pend' -> i ∈ pend) ->
  (forall p', grows p p' -> pr_length p' = pr_length p -> prog_wf p' pend' ->
     (forall i insn, pr_insns p !! i = Some insn ->
        exists insn', pr_insns p' !! i = Some insn' /\ op insn' = op insn) -> Q tt p') ->
  wp (h_rvm_patch_arg ip v) Q p.
Proof.
  intros Hwf Hip Hv Hjmp Hpend Hpend' HQ. unfold wp, h_rvm_patch_arg.
  rewrite (proj2 (Z.ltb_lt _ _)) by lia. cbn [assert_ok mbind outcome_bind].
  set (p' := mkProg _ _ _ _).
  assert (pr_length p' = pr_length p) as Hl by (unfold p', pr_length; simpl; by rewrite length_alter).
  assert (grows p p') as Hg by (split; [lia|done]).
  assert (forall i insn, pr_insns p !! i = Some insn ->
    exists insn', pr_insns p' !! i = Some insn' /\ op insn' = op insn) as Hop.
  { intros i insn Hi. cbn [p' pr_insns]. destruct (decide (Z.to_nat ip = i)) as [<-|Hne].
    - rewrite list_lookup_alter_eq, Hi. by eexists.
    - rewrite list_lookup_alter_ne by done. eauto. }
  apply HQ; try done. destruct Hwf as [H1 H2 H3 H4]. split.
  - by rewrite Hl.
  - done.
  - rewrite Hl. intros Hs i insn Hi. cbn [p' pr_insns] in Hi.
    destruct (decide (Z.to_nat ip = i)) as [<-|Hne].
    + destruct (Hjmp Hs) as (old & Hold & Hj).
      rewrite list_lookup_alter_eq, Hold in Hi. injection Hi as <-. cbn [arg]. split; [lia|].
      right. unfold target_ok. cbn [op arg]. rewrite Hl. destruct Hj as [-> | ->]; lia.
    + rewrite list_lookup_alter_ne in Hi by done. destruct (H3 Hs i insn Hi) as [Ha [Ht|Ht]].
      * split; [done|]. left. destruct (Hpend _ Ht) as [E|]; [lia|done].
      * split; [done|]. right. by eapply target_ok_grows.
  - rewrite Hl. intros Hs i Hi. destruct (H4 Hs i (Hpend' i Hi)) as (Hi0 & insn & E & Hj).
    split; [done|]. destruct (Hop _ _ E) as (insn' & E' & Ho). exists insn'. by rewrite Ho.
Qed.

Lemma wp_patch_pending ip v p pend Q :
  prog_wf p (ip :: pend) -> 0 <= ip < pr_length p -> 0 <= v <= pr_length p ->
  (forall p', grows p p' -> pr_length p' = pr_length p -> prog_wf p' pend -> Q tt p') ->
  wp (h_rvm_patch_arg ip v) Q p.
Proof.
  intros Hwf Hip Hv HQ. eapply wp_patch; [exact Hwf|done|done| | | |].
  - intros Hs. destruct (pw_pend _ _ Hwf Hs ip) as (_ & H); [by left|done].
  - intros i Hi. by apply elem_of_cons in Hi.
  - intros i Hi. by right.
  - intros p' Hg Hl Hw _. by apply HQ.
Qed.

Lemma wp_get_ip p Q :
  (forall v, v = uint16 (pr_length p) -> 0 <= v <= pr_length p -> Q v p) -> wp h_rvm_get_ip Q p.
Proof. intros HQ. apply HQ; [done|]. apply uint16_le, pr_length_nonneg. Qed.

(** Code that adds whole instructions to every program, and answers [P]. *)
Definition emits {A} (m : R A) (P : A -> Prop) : Prop :=
  forall p pend, prog_wf p pend -> wp m (fun a p' => grows p p' /\ prog_wf p' pend /\ P a) p.

Lemma emits_ret {A} (a : A) (P : A -> Prop) : P a -> emits (mret a) P.
Proof. intros HP p pend Hwf. by apply wp_ret. Qed.

Lemma emits_bind {A B} (m : R A) (k : A -> R B) P P' :
  emits m P -> (forall a, P a -> emits (k a) P') -> emits (m ≫= k) P'.
Proof.
  intros Hm Hk p pend Hwf. apply wp_bind. eapply wp_mono; [by apply Hm|].
  intros a p' (Hg & Hw & Ha). eapply wp_mono; [by apply Hk|].
  intros b p'' (Hg' & Hw' & Hb). split; [by etransitivity|done].
Qed.

(** Continuing with code that emits. *)
Lemma wp_emits {A B} (m : R A) (k : A -> R B) P Q p pend :
  emits m P -> prog_wf p pend ->
  (forall a p', grows p p' -> prog_wf p' pend -> P a -> wp (k a) Q p') ->
  wp (m ≫= k) Q p.
Proof.
  intros Hm Hwf HQ. apply wp_bind. eapply wp_mono; [by apply Hm|].
  intros a p' (Hg & Hw & Ha). by apply HQ.
Qed.

(** An instruction that needs no patch. *)
Lemma emits_insert o a :
  match o with RVM_GOTO | RVM_FORK => uint16 a = 0 | RVM_ACTION => False | _ => True end ->
  emits (h_rvm_insert_insn realloc_ok o a) (fun _ => True).
Proof.
  intros Ho p pend Hwf. eapply wp_insert_gen; [exact Hwf|left|by intros].
  split; [done|]. intros _. unfold target_ok. cbn [op arg].
  pose proof (pr_length_nonneg p). destruct o; try done; lia.
Qed.

Lemma emits_insert_ o a :
  match o with RVM_GOTO | RVM_FORK => uint16 a = 0 | RVM_ACTION => False | _ => True end ->
  emits (insert_ realloc_ok o a) (fun _ => True).
Proof. intros Ho. eapply emits_bind; [by apply emits_insert|]. intros. by apply emits_ret. Qed.

(** A jump back to [v], an address of the program so far. *)
Lemma wp_insert_jump o v p pend Q :
  prog_wf p pend -> is_jump o -> 0 <= v <= pr_length p ->
  (forall ip p', grows p p' -> prog_wf p' pend -> Q ip p') ->
  wp (h_rvm_insert_insn realloc_ok o v) Q p.
Proof.
  intros Hwf Ho Hv HQ. eapply wp_insert_gen; [exact Hwf|left|intros; by apply HQ].
  split; [done|]. intros _. unfold target_ok. cbn [op arg].
  pose proof (uint16_le v). destruct Ho as [-> | ->]; lia.
Qed.

(** A jump whose target is not known yet. *)
Lemma wp_insert_pending o v p pend Q :
  prog_wf p pend -> is_jump o ->
  (forall ip p', grows p p' -> prog_wf p' (ip :: pend) -> 0 <= ip < pr_length p' -> Q ip p') ->
  wp (h_rvm_insert_insn realloc_ok o v) Q p.
Proof.
  intros Hwf Ho HQ. eapply wp_insert_gen; [exact Hwf|right; by split|].
  intros p' Hg Hl Hw _. apply HQ; [done..|].
  pose proof (uint16_le (pr_length p) (pr_length_nonneg p)). lia.
Qed.

Lemma emits_action f env : emits (insert_action realloc_ok f env) (fun _ => True).
Proof.
  intros p pend Hwf. unfold insert_action. apply wp_bind. eapply wp_create_action; [exact Hwf|].
  intros a p' Hg Hl Hw Ha. apply wp_bind. eapply wp_insert_gen; [exact Hw|left; split; [done|]|].
  - intros _. unfold target_ok. cbn [op arg]. rewrite (wrapu_small 16 (uint16 a)) by (apply wrapu_range; lia).
    pose proof (uint16_le a). lia.
  - intros p'' Hg' Hl' Hw' _. apply wp_ret. split; [by etransitivity|done].
Qed.
End wp.

(** Chains of code that emits. *)
Ltac emits_chain :=
  repeat match goal with
  | |- emits _ (mret _) _ => apply emits_ret
  | |- emits _ (insert_ _ _ _) _ => apply emits_insert_; done
  | |- emits _ (insert_action _ _ _) _ => apply emits_action
  | |- emits _ (_ ≫= _) _ => eapply emits_bind; [|intros ? _]
  end.

(** * The primitive parsers *)

Section primitives.
Context (realloc_ok : Z -> bool).
Local Abbreviation emits := (emits realloc_ok).
Local Abbreviation wp := (wp realloc_ok).

Lemma emits_repeat k m : emits m (fun _ => True) -> emits (repeat_m k m) (fun _ => True).
Proof. intros Hm. induction k as [|k IH]; simpl; [by apply emits_ret|]. by eapply emits_bind. Qed.

Lemma bits_ctrvm_emits e self : emits (bits_ctrvm realloc_ok e self) (eq true).
Proof.
  unfold bits_ctrvm. emits_chain; [|done]. apply emits_repeat. emits_chain.
Qed.

Lemma ch_ctrvm_emits c : emits (ch_ctrvm realloc_ok c) (eq true).
Proof. unfold ch_ctrvm. by emits_chain. Qed.

Lemma token_insns_emits str : emits (token_insns realloc_ok str) (fun _ => True).
Proof. induction str as [|c str IH]; cbn [token_insns]; by emits_chain. Qed.

Lemma token_ctrvm_emits t : emits (token_ctrvm realloc_ok t) (eq true).
Proof. unfold token_ctrvm. emits_chain; [|done]. apply token_insns_emits. Qed.

Lemma end_ctrvm_emits : emits (end_ctrvm realloc_ok) (eq true).
Proof. unfold end_ctrvm. by emits_chain. Qed.
Lemma epsilon_ctrvm_emits : emits epsilon_ctrvm (eq true).
Proof. by apply emits_ret. Qed.
Lemma nothing_ctrvm_emits : emits (nothing_ctrvm realloc_ok) (eq true).
Proof. unfold nothing_ctrvm. by emits_chain. Qed.

Lemma cs_ranges_emits cs positions collecting :
  charset_wf cs -> Forall (fun i => 0 <= i) positions ->
  emits (cs_ranges realloc_ok cs positions collecting) (fun _ => True).
Proof.
  intros Hcs Hpos. revert collecting.
  induction Hpos as [|i positions Hi _ IH]; intros collecting; cbn [cs_ranges]; [by apply emits_ret|].
  eapply (emits_bind _ _ _ (fun _ => True)).
  { destruct (Z.ltb_spec i 256); [|by apply emits_ret].
    rewrite charset_isset_mem by (done || lia). by apply (emits_ret _ (charset_mem cs i)). }
  intros b _. destruct b; [apply IH|]. destruct collecting as [r|]; [|apply IH].
  intros p pend Hwf. apply wp_bind. eapply wp_insert_pending; [exact Hwf|by right|].
  intros insn p1 Hg1 Hw1 Hi1.
  eapply wp_emits; [apply emits_insert_; done|exact Hw1|]. intros _ p2 Hg2 Hw2 _.
  eapply wp_emits; [by apply emits_insert_|exact Hw2|]. intros _ p3 Hg3 Hw3 _.
  apply wp_bind, wp_get_ip. intros v _ Hv. apply wp_bind.
  eapply wp_patch_pending; [exact Hw3|destruct Hg2, Hg3; lia|done|].
  intros p4 Hg4 _ Hw4. eapply wp_mono; [by apply IH|].
  intros a p5 (Hg5 & Hw5 & _). split; [|done].
  do 4 (etransitivity; [eassumption|]). done.
Qed.

Lemma patch_gotos_ok k i jump p pend :
  prog_wf p pend -> 0 <= i -> jump <= pr_length p -> 0 <= jump ->
  wp (patch_gotos k i jump) (fun _ p' => grows p p' /\ prog_wf p' pend) p.
Proof.
  revert i p. induction k as [|k IH]; intros i p Hwf Hi Hj Hj0; cbn [patch_gotos]; [by apply wp_ret|].
  destruct (Z.ltb_spec i jump); [|by apply wp_ret].
  apply wp_bind. change (wp (ins ← lift (deref OutOfBounds (pr_insns p !! Z.to_nat i));
    _ ← (if bool_decide (op ins = RVM_GOTO) then h_rvm_patch_arg i jump else mret tt);
    patch_gotos k (i + 1) jump) (fun _ p' => grows p p' /\ prog_wf p' pend) p).
  destruct (lookup_lt_is_Some_2 (pr_insns p) (Z.to_nat i)) as [ins Hins]; [unfold pr_length in *; lia|].
  rewrite Hins. apply wp_bind.
  change (wp (_ ← (if bool_decide (op ins = RVM_GOTO) then h_rvm_patch_arg i jump else mret tt);
    patch_gotos k (i + 1) jump) (fun _ p' => grows p p' /\ prog_wf p' pend) p).
  case_bool_decide as Ho; [|apply IH; done || lia]. apply wp_bind.
  eapply (wp_patch _ i jump p pend pend); [done|lia|lia| |by right|done|].
  - intros _. exists ins. split; [done|by left].
  - intros p' Hg Hl Hw _. eapply wp_mono; [apply IH; done || lia|].
    intros _ p'' [Hg' Hw']. split; [by etransitivity|done].
Qed.

Lemma cs_ctrvm_emits cs self : charset_wf cs -> emits (cs_ctrvm realloc_ok cs self) (eq true).
Proof.
  intros Hcs p pend Hwf. unfold cs_ctrvm.
  eapply wp_emits; [by apply emits_insert_|exact Hwf|]. intros _ p1 Hg1 Hw1 _.
  apply wp_bind, wp_get_ip. intros start _ Hstart.
  eapply wp_emits; [apply cs_ranges_emits; [done|]|exact Hw1|].
  { apply list.Forall_forall. intros x (k & -> & _)%list_elem_of_fmap. lia. }
  intros _ p2 Hg2 Hw2 _. eapply wp_emits; [by apply emits_insert_|exact Hw2|].
  intros _ p3 Hg3 Hw3 _. apply wp_bind. eapply wp_insert_gen; [exact Hw3|left; by split|].
  intros p4 Hg4 Hl4 Hw4 _. apply wp_bind.
  pose proof (uint16_le (pr_length p3) (pr_length_nonneg p3)).
  eapply wp_mono; [apply patch_gotos_ok; [exact Hw4|lia..]|].
  intros _ p5 [Hg5 Hw5].
  assert (emits (_ ← insert_ realloc_ok RVM_CAPTURE 0;
    _ ← insert_action realloc_ok h_svm_action_charset_ch (E_env self); mret true) (eq true)) as He
    by (by emits_chain).
  eapply wp_mono; [by apply He|]. intros a p6 (Hg6 & Hw6 & Ha). split; [|done].
  do 5 (etransitivity; [eassumption|]). done.
Qed.
End primitives.

(** * The combinators *)

Section combinators.
Context (realloc_ok : Z -> bool) (compile : ptr -> R bool).
Local Abbreviation emits := (emits realloc_ok).
Local Abbreviation wp := (wp realloc_ok).

(** [p] compiles. *)
Definition compiles (p : ptr) : Prop := emits (compile p) (eq true).

Lemma emits_compile {B} p (k : bool -> R B) P :
  compiles p -> emits (k true) P -> emits (b ← compile p; k b) P.
Proof. intros Hp Hk. eapply emits_bind; [exact Hp|]. by intros b <-. Qed.

Lemma wp_compile {B} p (k : bool -> R B) Q g pend :
  compiles p -> prog_wf g pend ->
  (forall g', grows g g' -> prog_wf g' pend -> wp (k true) Q g') ->
  wp (b ← compile p; k b) Q g.
Proof.
  intros Hp Hwf HQ. eapply wp_emits; [exact Hp|exact Hwf|]. intros b g' Hg Hw <-. by apply HQ.
Qed.

Lemma opt_ctrvm_emits p : compiles p -> emits (opt_ctrvm realloc_ok compile p) (eq true).
Proof.
  intros Hp g pend Hwf. unfold opt_ctrvm.
  eapply wp_emits; [by apply emits_insert_|exact Hwf|]. intros _ g1 Hg1 Hw1 _.
  apply wp_bind. eapply wp_insert_pending; [exact Hw1|by right|]. intros insn g2 Hg2 Hw2 Hi2.
  eapply wp_compile; [done|exact Hw2|]. intros g3 Hg3 Hw3. cbn [negb].
  apply wp_bind, wp_get_ip. intros ip _ Hip. apply wp_bind.
  eapply wp_patch_pending; [exact Hw3|destruct Hg3; lia|done|]. intros g4 Hg4 _ Hw4.
  assert (emits (_ ← insert_action realloc_ok h_svm_action_optional E_null; mret true) (eq true))
    as He by (by emits_chain).
  eapply wp_mono; [by apply He|]. intros a g5 (Hg5 & Hw5 & Ha). split; [|done].
  do 4 (etransitivity; [eassumption|]). done.
Qed.

Lemma ignore_ctrvm_emits p : compiles p -> emits (ignore_ctrvm realloc_ok compile p) (eq true).
Proof. intros Hp. unfold ignore_ctrvm. apply emits_compile; [done|]. by emits_chain. Qed.

Lemma ws_ranges_ok ranges start g pend :
  prog_wf g pend -> 0 <= start <= pr_length g ->
  wp (ws_ranges realloc_ok ranges start) (fun _ g' => grows g g' /\ prog_wf g' pend) g.
Proof.
  revert g. induction ranges as [|r ranges IH]; intros g Hwf Hs; cbn [ws_ranges]; [by apply wp_ret|].
  apply wp_bind. eapply wp_insert_pending; [exact Hwf|by right|]. intros nxt g1 Hg1 Hw1 Hn1.
  eapply wp_emits; [by apply emits_insert_|exact Hw1|]. intros _ g2 Hg2 Hw2 _.
  eapply wp_emits; [by apply emits_insert_|exact Hw2|]. intros _ g3 Hg3 Hw3 _.
  unfold insert_. apply wp_bind, wp_bind.
  eapply wp_insert_jump; [exact Hw3|by left|destruct Hg1, Hg2, Hg3; lia|].
  intros _ g4 Hg4 Hw4. apply wp_ret. apply wp_bind, wp_get_ip. intros ip _ Hip. apply wp_bind.
  eapply wp_patch_pending; [exact Hw4|destruct Hg2, Hg3, Hg4; lia|done|]. intros g5 Hg5 _ Hw5.
  eapply wp_mono; [apply IH; [exact Hw5|destruct Hg1, Hg2, Hg3, Hg4, Hg5; lia]|].
  intros _ g6 [Hg6 Hw6]. split; [|done]. do 5 (etransitivity; [eassumption|]). done.
Qed.

Lemma ws_ctrvm_emits p : compiles p -> emits (ws_ctrvm realloc_ok compile p) (eq true).
Proof.
  intros Hp g pend Hwf. unfold ws_ctrvm. apply wp_bind, wp_get_ip. intros start _ Hs.
  apply wp_bind. eapply wp_mono; [by apply ws_ranges_ok|]. intros _ g1 [Hg1 Hw1].
  eapply wp_mono; [by apply Hp|]. intros a g2 (Hg2 & Hw2 & Ha). split; [by etransitivity|done].
Qed.

Lemma compile_all_emits ps : Forall compiles ps -> emits (compile_all compile ps) (eq true).
Proof.
  induction 1 as [|p ps Hp _ IH]; cbn [compile_all]; [by apply emits_ret|].
  by apply (emits_compile p (fun ok => if ok then compile_all compile ps else mret false)).
Qed.

Lemma sequence_ctrvm_emits s :
  Forall compiles (sq_array s) -> emits (sequence_ctrvm realloc_ok compile s) (eq true).
Proof.
  intros Hs. unfold sequence_ctrvm. eapply emits_bind; [by apply emits_insert_|intros _ _].
  eapply emits_bind; [by apply compile_all_emits|]. intros b <-. cbn [negb]. by emits_chain.
Qed.

(** The final gotos of the alternatives are pending. *)
Lemma choice_alts_ok ps g pend :
  Forall compiles ps -> prog_wf g pend ->
  wp (choice_alts realloc_ok compile ps)
    (fun r g' => exists gs, r = Some gs /\ grows g g' /\ prog_wf g' (gs ++ pend) /\
       Forall (fun i => 0 <= i < pr_length g') gs) g.
Proof.
  intros Hps. revert g pend. induction Hps as [|p ps Hp _ IH]; intros g pend Hwf; cbn [choice_alts].
  { apply wp_ret. by exists []. }
  apply wp_bind. eapply wp_insert_pending; [exact Hwf|by right|]. intros insn g1 Hg1 Hw1 Hi1.
  eapply wp_compile; [done|exact Hw1|]. intros g2 Hg2 Hw2. cbn [negb].
  apply wp_bind. eapply wp_insert_pending; [exact Hw2|by left|]. intros gt g3 Hg3 Hw3 Hi3.
  apply wp_bind, wp_get_ip. intros ip _ Hip. apply wp_bind.
  eapply (wp_patch_pending _ _ _ _ (gt :: pend));
    [eapply prog_wf_pend; [exact Hw3|]|destruct Hg2, Hg3; lia|done|].
  { intros i. rewrite !elem_of_cons. tauto. }
  intros g4 Hg4 Hl4 Hw4. apply wp_bind. eapply wp_mono; [by apply IH|].
  intros r g5 (gs & -> & Hg5 & Hw5 & Hgs). apply wp_ret. exists (gt :: gs). split; [done|].
  split; [do 4 (etransitivity; [eassumption|]); done|]. split.
  - eapply prog_wf_pend; [exact Hw5|]. intros i. simpl. rewrite elem_of_app, !elem_of_cons, elem_of_app.
    tauto.
  - constructor; [destruct Hg4, Hg5; lia|done].
Qed.

Lemma patch_all_ok gs jump g pend :
  prog_wf g (gs ++ pend) -> Forall (fun i => 0 <= i < pr_length g) gs -> 0 <= jump <= pr_length g ->
  wp (patch_all gs jump) (fun _ g' => grows g g' /\ prog_wf g' pend) g.
Proof.
  revert g. induction gs as [|i gs IH]; intros g Hwf Hgs Hj; cbn [patch_all]; [by apply wp_ret|].
  apply Forall_cons_1 in Hgs as [Hi Hgs]. apply wp_bind.
  eapply wp_patch_pending; [exact Hwf|done|done|]. intros g1 Hg1 Hl1 Hw1.
  eapply wp_mono; [apply IH; [exact Hw1|by rewrite Hl1|lia]|].
  intros _ g2 [Hg2 Hw2]. split; [by etransitivity|done].
Qed.

Lemma choice_ctrvm_emits s :
  Forall compiles (sq_array s) -> emits (choice_ctrvm realloc_ok compile s) (eq true).
Proof.
  intros Hs g pend Hwf. unfold choice_ctrvm. apply wp_bind.
  eapply wp_mono; [by apply choice_alts_ok|]. intros r g1 (gs & -> & Hg1 & Hw1 & Hgs).
  eapply wp_emits; [by apply emits_insert_|exact Hw1|]. intros _ g2 Hg2 Hw2 _.
  apply wp_bind, wp_get_ip. intros jump _ Hj. apply wp_bind.
  eapply wp_mono; [apply patch_all_ok; [exact Hw2| |done]|].
  { eapply list.Forall_impl; [exact Hgs|]. intros i Hi. destruct Hg2. simpl in Hi. lia. }
  intros _ g3 [Hg3 Hw3]. apply wp_ret. split; [|done]. do 2 (etransitivity; [eassumption|]). done.
Qed.

(** A separator, with the action [ctm] that was created before. *)
Lemma compile_sep_ok ctm sep g pend :
  (forall s, sep = Some s -> compiles (Some s)) -> prog_wf g pend ->
  0 <= ctm < pr_action_count g ->
  wp (compile_sep realloc_ok compile ctm sep)
    (fun a g' => grows g g' /\ prog_wf g' pend /\ true = a) g.
Proof.
  intros Hs Hwf Hc. unfold compile_sep. destruct sep as [s|]; [|by apply wp_ret].
  eapply wp_emits; [by apply emits_insert_|exact Hwf|]. intros _ g1 Hg1 Hw1 _.
  eapply wp_compile; [by apply Hs|exact Hw1|]. intros g2 Hg2 Hw2. cbn [negb].
  unfold insert_. apply wp_bind, wp_bind. eapply wp_insert_gen; [exact Hw2|left; split; [done|]|].
  { intros _. unfold target_ok. cbn [op arg]. pose proof (uint16_le ctm). destruct Hg1, Hg2. lia. }
  intros g3 Hg3 _ Hw3 _. apply wp_ret, wp_ret. split; [|done].
  do 2 (etransitivity; [eassumption|]). done.
Qed.

Lemma many_n_ok k first ctm r g pend :
  compiles (rp_p r) -> (forall s, rp_sep r = Some s -> compiles (Some s)) -> prog_wf g pend ->
  0 <= ctm < pr_action_count g ->
  wp (many_n realloc_ok compile k first ctm r)
    (fun a g' => grows g g' /\ prog_wf g' pend /\ true = a) g.
Proof.
  intros Hp Hs. revert first g. induction k as [|k IH]; intros first g Hwf Hc; cbn [many_n];
    [by apply wp_ret|].
  apply wp_bind. eapply (wp_mono _ _ (fun a g' => grows g g' /\ prog_wf g' pend /\ true = a)).
  { destruct first; [by apply wp_ret|by apply compile_sep_ok]. }
  intros b g1 (Hg1 & Hw1 & <-). cbn [negb].
  eapply wp_compile; [done|exact Hw1|]. intros g2 Hg2 Hw2. cbn [negb].
  eapply wp_mono; [apply IH; [exact Hw2|destruct Hg1, Hg2; lia]|].
  intros a g3 (Hg3 & Hw3 & Ha). split; [|done]. do 2 (etransitivity; [eassumption|]). done.
Qed.

(** The loop of a repetition: everything between the two forks. *)
Lemma many_body_ok ctm r (k : R bool) Q g pend :
  compiles (rp_p r) -> (forall s, rp_sep r = Some s -> compiles (Some s)) -> prog_wf g pend ->
  0 <= ctm < pr_action_count g ->
  (forall g', grows g g' -> prog_wf g' pend -> wp k Q g') ->
  wp (goto_mid ← h_rvm_insert_insn realloc_ok RVM_GOTO 65535;
      nxt ← h_rvm_get_ip;
      ok ← compile_sep realloc_ok compile ctm (rp_sep r);
      if negb ok then mret false else
      ip ← h_rvm_get_ip;
      _ ← h_rvm_patch_arg goto_mid ip;
      ok ← compile (rp_p r);
      if negb ok then mret false else
      _ ← insert_ realloc_ok RVM_FORK nxt; k) Q g.
Proof.
  intros Hp Hs Hwf Hc HQ.
  apply wp_bind. eapply wp_insert_pending; [exact Hwf|by left|]. intros mid g1 Hg1 Hw1 Hm1.
  apply wp_bind, wp_get_ip. intros nxt _ Hn. apply wp_bind.
  eapply wp_mono; [apply compile_sep_ok; [done|exact Hw1|destruct Hg1; lia]|].
  intros b g2 (Hg2 & Hw2 & <-). cbn [negb].
  apply wp_bind, wp_get_ip. intros ip _ Hip. apply wp_bind.
  eapply wp_patch_pending; [exact Hw2|destruct Hg2; lia|done|]. intros g3 Hg3 _ Hw3.
  eapply wp_compile; [done|exact Hw3|]. intros g4 Hg4 Hw4. cbn [negb].
  unfold insert_. apply wp_bind, wp_bind.
  eapply wp_insert_jump; [exact Hw4|by right|destruct Hg2, Hg3, Hg4; lia|].
  intros _ g5 Hg5 Hw5. apply wp_ret. apply HQ; [|done].
  do 4 (etransitivity; [eassumption|]). done.
Qed.

Lemma many_ctrvm_emits r :
  compiles (rp_p r) -> (forall s, rp_sep r = Some s -> compiles (Some s)) ->
  (rp_min_p r = true -> rp_count r < 2) ->
  emits (many_ctrvm realloc_ok compile r) (eq true).
Proof.
  intros Hp Hs Hmin g pend Hwf. unfold many_ctrvm.
  assert (emits (_ ← insert_action realloc_ok h_svm_action_make_sequence E_null; mret true) (eq true))
    as He by (by emits_chain).
  apply wp_bind. eapply wp_create_action; [exact Hwf|]. intros a g0 Hg0 _ Hw0 Ha.
  pose proof (uint16_le a ltac:(lia)) as Hu. set (ctm := uint16 a) in *. clearbody ctm.
  destruct (rp_min_p r).
  - eapply wp_emits; [by apply emits_insert_|exact Hw0|]. intros _ g1 Hg1 Hw1 _.
    rewrite (proj2 (Z.ltb_lt _ _)) by auto. cbn [assert_ok].
    change (lift (Ok tt)) with (mret tt : R unit).
    apply wp_bind, wp_ret, wp_bind. destruct (Z.eqb_spec (rp_count r) 0) as [E|E].
    + eapply wp_insert_pending; [exact Hw1|by right|]. intros ef g2 Hg2 Hw2 Hi2.
      apply (many_body_ok ctm r _ _ _ (ef :: pend)); try done; [destruct Hg1, Hg2; lia|].
      intros g3 Hg3 Hw3. apply wp_bind, wp_get_ip. intros ip _ Hip. apply wp_bind.
      eapply wp_patch_pending; [exact Hw3|destruct Hg3; lia|done|]. intros g4 Hg4 _ Hw4.
      eapply wp_mono; [by apply He|]. intros b g5 (Hg5 & Hw5 & Hb). split; [|done].
      do 5 (etransitivity; [eassumption|]). done.
    + apply wp_ret, (many_body_ok ctm r _ _ _ pend); try done; [destruct Hg1; lia|].
      intros g3 Hg3 Hw3. apply wp_bind, wp_get_ip. intros ip _ Hip. apply wp_bind, wp_ret.
      eapply wp_mono; [by apply He|]. intros b g5 (Hg5 & Hw5 & Hb). split; [|done].
      do 3 (etransitivity; [eassumption|]). done.
  - eapply wp_emits; [by apply emits_insert_|exact Hw0|]. intros _ g1 Hg1 Hw1 _. apply wp_bind.
    eapply wp_mono; [apply many_n_ok; [done|done|exact Hw1|destruct Hg1; lia]|].
    intros b g2 (Hg2 & Hw2 & <-). cbn [negb].
    eapply wp_mono; [by apply He|]. intros b g5 (Hg5 & Hw5 & Hb). split; [|done].
    do 3 (etransitivity; [eassumption|]). done.
Qed.

Lemma is_items_emits ps : Forall compiles ps -> emits (is_items realloc_ok compile ps) (eq true).
Proof.
  induction 1 as [|p ps Hp _ IH]; cbn [is_items]; [by apply emits_ret|].
  eapply emits_bind; [by apply emits_insert_|intros _ _].
  by apply (emits_compile p (fun ok => if ok then is_items realloc_ok compile ps else mret false)).
Qed.

Lemma is_ctrvm_emits q self :
  Forall compiles (is_parsers q) -> emits (is_ctrvm realloc_ok compile q self) (eq true).
Proof.
  intros Hq. unfold is_ctrvm. eapply emits_bind; [by apply is_items_emits|].
  intros b <-. cbn [negb]. by emits_chain.
Qed.

Lemma callback_ctrvm_emits p f self :
  compiles p -> emits (callback_ctrvm realloc_ok compile p f self) (eq true).
Proof.
  intros Hp. unfold callback_ctrvm. eapply emits_bind; [by apply emits_insert_|intros _ _].
  apply (emits_compile p (fun ok => if negb ok then mret false else _)); [done|]. cbn [negb].
  by emits_chain.
Qed.
End combinators.

(** * Whole parsers *)

(** Parsers made by the constructors, without int_range, whose compilation
    always fails. *)
Definition rvm_ok_env (e : parser_env) : Prop :=
  match e with
  | charset_vt cs => charset_wf cs
  | many_vt r => rp_min_p r = true -> rp_count r < 2
  | int_range_vt _ => False
  | _ => True
  end.

Lemma vt_compile_emits realloc_ok compile e self :
  rvm_ok_env e -> Forall (compiles realloc_ok compile) (children e) ->
  (exists rec st, yes (vt_isValidRegular rec e) st) ->
  emits realloc_ok (vt_compile_to_rvm realloc_ok compile e self) (eq true).
Proof.
  intros Hok Hc (rec & st & Hy).
  destruct e; cbn [children vt_compile_to_rvm vt_isValidRegular rvm_ok_env] in *; try done;
    try apply Forall_inv in Hc as Hp.
  all: try first
    [ apply bits_ctrvm_emits | apply ch_ctrvm_emits | by apply cs_ctrvm_emits
    | apply token_ctrvm_emits | apply end_ctrvm_emits | apply epsilon_ctrvm_emits
    | apply nothing_ctrvm_emits | by apply opt_ctrvm_emits | by apply ignore_ctrvm_emits
    | by apply ws_ctrvm_emits | by apply sequence_ctrvm_emits | by apply choice_ctrvm_emits
    | by apply is_ctrvm_emits | by apply callback_ctrvm_emits ].
  apply many_ctrvm_emits; [done| |done]. intros s Hs. apply Forall_cons_1 in Hc as [_ Hc].
  rewrite Hs in Hc. by apply Forall_inv in Hc.
Qed.

Lemma h_compile_regex_emits realloc_ok store a fuel :
  store_wf store -> Forall (fun q => rvm_ok_env (p_env q)) store ->
  (a < length store)%nat -> (a < fuel)%nat ->
  isValidRegular fuel (Some a) store = Ok (true, store) ->
  emits realloc_ok (h_compile_regex realloc_ok store fuel (Some a)) (eq true).
Proof.
  intros Hst Hok. revert fuel. induction a as [a IH] using lt_wf_ind; intros [|fuel] Ha Hf; [lia|].
  destruct (lookup_lt_is_Some_2 _ _ Ha) as [q Hq]. rewrite (isValidRegular_unfold _ _ _ _ Hq).
  intros Hy. pose proof (Hst _ _ Hq) as Hc.
  assert (rvm_ok_env (p_env q)) as Hq' by exact (proj1 (Forall_lookup _ _) Hok _ _ Hq).
  destruct (is_indirect (p_env q)) eqn:Hi; [by destruct (p_env q)|].
  assert (Forall (fun p => answers (isValidRegular fuel p) store) (children (p_env q))) as Hans.
  { eapply list.Forall_impl; [exact Hc|]. intros p (c & -> & Hlt).
    apply isValidRegular_answers; auto with lia. }
  destruct (vt_isValidRegular_children _ _ _ Hy Hans) as [[r Er]|Hyes]; [by rewrite Er in Hq'|].
  intros p pend Hwf. cbn [h_compile_regex].
  assert (parser_at store (Some a) = Ok q) as -> by (unfold parser_at; simpl; by rewrite Hq).
  cbn [deref].
  change (lift (Ok q)) with (mret q : R HParser). change (lift (Ok a)) with (mret a : R nat).
  apply wp_bind, wp_ret, wp_bind, wp_ret.
  apply vt_compile_emits; [done| |by do 2 eexists|done].
  apply list.Forall_forall. intros x Hx.
  pose proof (proj1 (list.Forall_forall _ _) Hc x Hx) as (c & -> & Hlt).
  apply IH; [lia..|]. by apply (proj1 (list.Forall_forall _ _) Hyes).
Qed.

(** A program under construction with nothing pending is safe once it is closed
    by RVM_ACCEPT. *)
Lemma prog_wf_safe p p' :
  prog_wf p [] -> pr_insns p' = pr_insns p ++ [mkInsn RVM_ACCEPT (uint16 0)] -> grows p p' ->
  pr_length p' = pr_length p + 1 -> pr_length p' <= 65536 -> prog_safe p'.
Proof.
  intros Hwf Hi [_ Hact] Hl Hs. pose proof (pr_length_nonneg p). split; [lia|].
  intros i insn Hi0 Hin. rewrite Hi in Hin.
  apply lookup_app_Some in Hin as [Hin|[_ Hin]].
  - destruct (pw_insns _ _ Hwf ltac:(lia) _ _ Hin) as [Ha Ht]. split; [done|].
    assert (i < pr_length p) by (apply lookup_lt_Some in Hin; unfold pr_length; lia).
    destruct Ht as [Ht|Ht]; [by apply not_elem_of_nil in Ht|]. unfold target_ok in Ht.
    destruct (op insn); lia.
  - apply list_lookup_singleton_Some in Hin as [_ <-]. by split.
Qed.

Lemma empty_prog_wf : prog_wf empty_prog [].
Proof.
  split; [by left|by left|done|]. intros _ i Hi. by apply not_elem_of_nil in Hi.
Qed.

(** * Compiling with an allocator that may refuse *)

Section Memory.
Context (realloc_ok : Z -> bool).

(** [realloc] is asked for [2 ^ (k + 1)] entries when an array of [2 ^ k - 1] gets
    another one: these are the sizes asked for while the arrays grow from those of
    [p] to those of [p']. *)
Definition asked (p p' : HRVMProg) (k : Z) : Prop :=
  0 <= k /\ (pr_length p < 2 ^ k <= pr_length p' \/ pr_action_count p < 2 ^ k <= pr_action_count p').
Definition granted (p p' : HRVMProg) : Prop := forall k, asked p p' k -> realloc_ok (2 ^ (k + 1)) = true.
Definition refused (p p' : HRVMProg) : Prop := exists k, asked p p' k /\ realloc_ok (2 ^ (k + 1)) = false.

Lemma asked_trans p q r k : grows p q -> grows q r -> asked p r k <-> asked p q k \/ asked q r k.
Proof. unfold grows, asked. lia. Qed.

(** [m] does what [m'] does with all the memory it asks for, up to the first
    request that is refused. *)
Definition limited {A} (m m' : R A) : Prop :=
  forall p, match m' p with
            | Ok (a, p') => grows p p' /\ (m p = Ok (a, p') /\ granted p p' \/ m p = Fault Longjmp /\ refused p p')
            | o => m p = o \/ m p = Fault Longjmp
            end.

Lemma limited_same {A} (m : R A) : (forall p, match m p with Ok (_, p') => grows p p' | _ => True end) ->
  (forall p a p', m p = Ok (a, p') -> pr_length p' = pr_length p /\ pr_action_count p' = pr_action_count p) ->
  limited m m.
Proof.
  intros Hg Hs p. specialize (Hg p). destruct (m p) as [[a p']|f|] eqn:E; [|by left..].
  split; [done|left]. split; [done|]. intros k [_ Hk]. apply Hs in E. lia.
Qed.

Lemma limited_still {A} (m : R A) :
  (forall p a p', m p = Ok (a, p') -> pr_length p' = pr_length p /\ pr_action_count p' = pr_action_count p) ->
  limited m m.
Proof.
  intros Hs. apply limited_same; [|done]. intros p. destruct (m p) as [[a p']|f|] eqn:E; [|done..].
  apply Hs in E. split; lia.
Qed.

Lemma limited_ret {A} (a : A) : limited (mret a) (mret a).
Proof. apply limited_still. by intros p b p' [= _ <-]. Qed.
Lemma limited_throw {A} (f : fault) : limited (throw f : R A) (throw f).
Proof. by apply limited_still. Qed.
Lemma limited_lift {A} (o : outcome A) : limited (lift o : R A) (lift o).
Proof. apply limited_still. intros p b p'. unfold lift. destruct o; by intros [= _ <-]. Qed.
Lemma limited_get : limited (get : R HRVMProg) get.
Proof. apply limited_still. by intros p b p' [= _ <-]. Qed.
Lemma limited_get_ip : limited h_rvm_get_ip h_rvm_get_ip.
Proof. apply limited_still. by intros p b p' [= _ <-]. Qed.
Lemma limited_patch ip v : limited (h_rvm_patch_arg ip v) (h_rvm_patch_arg ip v).
Proof.
  apply limited_still. intros p u p' (? & _ & [= _ <-])%outcome_bind_ok.
  unfold pr_length, pr_action_count. cbn [pr_insns pr_actions]. by rewrite length_alter.
Qed.

Lemma limited_bind {A B} (m m' : R A) (k k' : A -> R B) :
  limited m m' -> (forall a, limited (k a) (k' a)) -> limited (m ≫= k) (m' ≫= k').
Proof.
  intros Hm Hk p. specialize (Hm p). unfold mbind, ST_bind. destruct (m' p) as [[a q]|f|].
  2-3: by destruct Hm as [-> | ->]; [left|right].
  destruct Hm as [Hg [[-> Hall]|[-> Hno]]].
  - specialize (Hk a q). destruct (k' a q) as [[b r]|f|]; [|done..].
    destruct Hk as [Hg' Hk]. split; [by etransitivity|].
    destruct Hk as [[E Hall']|[E (j & Hj & Hno')]]; [left|right]; (split; [done|]).
    + intros j Hj. apply (asked_trans p q r) in Hj as [Hj|Hj]; auto.
    + exists j. split; [|done]. apply (asked_trans p q r); auto.
  - destruct (k' a q) as [[b r]|f|] eqn:Ek; [|by right..].
    pose proof (Hk a q) as H. rewrite Ek in H. destruct H as [Hg' _].
    split; [by etransitivity|right]. split; [done|]. destruct Hno as (j & Hj & Hno). exists j.
    split; [|done]. apply (asked_trans p q r); auto.
Qed.

Lemma limited_if {A} (b : bool) (m1 m2 m1' m2' : R A) :
  limited m1 m1' -> limited m2 m2' -> limited (if b then m1 else m2) (if b then m1' else m2').
Proof. by destruct b. Qed.

(** Growing one of the arrays asks for the next power of two, or for nothing. *)
Lemma scale_limited count cap :
  0 <= count ->
  scale realloc_ok count cap = scale (fun _ => true) count cap /\
    (forall k, 0 <= k -> count < 2 ^ k <= count + 1 -> realloc_ok (2 ^ (k + 1)) = true) \/
  scale realloc_ok count cap = Fault Longjmp /\
    exists k, 0 <= k /\ count < 2 ^ k <= count + 1 /\ realloc_ok (2 ^ (k + 1)) = false.
Proof.
  intros Hc. unfold scale. destruct (Z.eqb_spec (Z.land count (count + 1)) 0) as [Hl|Hl].
  - destruct (land_succ_pow2 count Hc Hl) as (k & Hk & Ek).
    assert ((count + 1) * 2 = 2 ^ (k + 1)) as E2 by (rewrite Z.pow_add_r by lia; lia).
    destruct (realloc_ok ((count + 1) * 2)) eqn:Er; [left|right]; (split; [done|]).
    + intros j Hj Hp. assert (2 ^ j = count + 1) as Ej by lia.
      replace (2 ^ (j + 1)) with ((count + 1) * 2) by (rewrite Z.pow_add_r by lia; lia). done.
    + exists k. split; [done|]. split; [lia|]. by rewrite <- E2.
  - left. split; [done|]. intros j Hj Hp. exfalso. apply Hl.
    replace count with (2 ^ j - 1) by lia. by apply land_pred_pow2.
Qed.

Lemma limited_insert_insn o a : limited (h_rvm_insert_insn realloc_ok o a) (h_rvm_insert_insn (fun _ => true) o a).
Proof.
  intros p. unfold h_rvm_insert_insn.
  assert (forall cap, let p' := mkProg (pr_insns p ++ [mkInsn o (uint16 a)]) cap (pr_actions p) (pr_actions_cap p) in
    grows p p' /\ forall k, asked p p' k <-> 0 <= k /\ pr_length p < 2 ^ k <= pr_length p + 1) as Hp'.
  { intros cap p'. unfold grows, asked, pr_length, pr_action_count. cbn [p' pr_insns pr_actions].
    rewrite length_app. cbn [length]. split; [lia|]. intros k. lia. }
  destruct (scale_limited (pr_length p) (pr_insns_cap p) (pr_length_nonneg p)) as [[-> Hall]|[-> (k & Hk & Hin & Hno)]].
  - destruct (scale (fun _ => true) _ _) as [cap|f|]; cbn [mbind outcome_bind]; [|by left..].
    destruct (pr_length p <? cap); [|by left]. split; [apply Hp'|left]. split; [done|].
    intros k [Hk Hin]%(proj2 (Hp' cap)). by apply Hall.
  - destruct (scale (fun _ => true) _ _) as [cap|f|]; cbn [mbind outcome_bind]; [|by right..].
    destruct (pr_length p <? cap); [|by right]. split; [apply Hp'|right]. split; [done|].
    exists k. split; [by apply (proj2 (Hp' cap))|done].
Qed.

Lemma limited_create f env : limited (h_rvm_create_action realloc_ok f env) (h_rvm_create_action (fun _ => true) f env).
Proof.
  intros p. unfold h_rvm_create_action. destruct (list_find _ _) as [[i x]|].
  { split; [done|left]. split; [done|]. intros k [_ Hk]. lia. }
  assert (forall cap, let p' := mkProg (pr_insns p) (pr_insns_cap p) (pr_actions p ++ [(f, env)]) cap in
    grows p p' /\ forall k, asked p p' k <-> 0 <= k /\ pr_action_count p < 2 ^ k <= pr_action_count p + 1) as Hp'.
  { intros cap p'. unfold grows, asked, pr_length, pr_action_count. cbn [p' pr_insns pr_actions].
    rewrite length_app. cbn [length]. split; [lia|]. intros k. lia. }
  destruct (scale_limited (pr_action_count p) (pr_actions_cap p) (pr_action_count_nonneg p))
    as [[-> Hall]|[-> (k & Hk & Hin & Hno)]].
  - destruct (scale (fun _ => true) _ _) as [cap|g|]; cbn [mbind outcome_bind]; [|by left..].
    destruct (pr_action_count p <? cap); [|by left]. split; [apply Hp'|left]. split; [done|].
    intros k [Hk Hin]%(proj2 (Hp' cap)). by apply Hall.
  - destruct (scale (fun _ => true) _ _) as [cap|g|]; cbn [mbind outcome_bind]; [|by right..].
    destruct (pr_action_count p <? cap); [|by right]. split; [apply Hp'|right]. split; [done|].
    exists k. split; [by apply (proj2 (Hp' cap))|done].
Qed.

Lemma limited_insert o a : limited (insert_ realloc_ok o a) (insert_ (fun _ => true) o a).
Proof. apply limited_bind; [apply limited_insert_insn|intros; apply limited_ret]. Qed.
Lemma limited_action f env : limited (insert_action realloc_ok f env) (insert_action (fun _ => true) f env).
Proof. apply limited_bind; [apply limited_create|intros; apply limited_insert]. Qed.
End Memory.

Create HintDb memory.
#[export] Hint Resolve limited_ret limited_throw limited_lift limited_get limited_get_ip limited_patch
  limited_insert_insn limited_create limited_insert limited_action : memory.

Ltac limit := repeat first
  [ solve [eauto with memory] | apply limited_if | apply limited_bind; [|intros ?] | case_match ].

Section Memory_compile.
Context (realloc_ok : Z -> bool) (compile compile' : ptr -> R bool).
Context (Hcompile : forall p, limited realloc_ok (compile p) (compile' p)).
Local Abbreviation limited := (limited realloc_ok).
Local Abbreviation all := (fun _ : Z => true).

Lemma limited_repeat n m m' : limited m m' -> limited (repeat_m n m) (repeat_m n m').
Proof. intros Hm. induction n; simpl; limit. Qed.
Lemma limited_token str : limited (token_insns realloc_ok str) (token_insns all str).
Proof. induction str; simpl; limit. Qed.
Lemma limited_cs_ranges cs positions collecting :
  limited (cs_ranges realloc_ok cs positions collecting) (cs_ranges all cs positions collecting).
Proof. revert collecting. induction positions; intros [?|]; simpl; limit. Qed.
Lemma limited_patch_gotos n i jump : limited (patch_gotos n i jump) (patch_gotos n i jump).
Proof. revert i. induction n; intros i; simpl; limit. Qed.
Lemma limited_ws_ranges ranges start : limited (ws_ranges realloc_ok ranges start) (ws_ranges all ranges start).
Proof. induction ranges; simpl; limit. Qed.
Lemma limited_compile_all ps : limited (compile_all compile ps) (compile_all compile' ps).
Proof. induction ps; simpl; limit. Qed.
Lemma limited_choice_alts ps : limited (choice_alts realloc_ok compile ps) (choice_alts all compile' ps).
Proof. induction ps; simpl; limit. Qed.
Lemma limited_patch_all gs jump : limited (patch_all gs jump) (patch_all gs jump).
Proof. induction gs; simpl; limit. Qed.
Lemma limited_sep ctm sep : limited (compile_sep realloc_ok compile ctm sep) (compile_sep all compile' ctm sep).
Proof. destruct sep; simpl; limit. Qed.
Lemma limited_many_n n first ctm r :
  limited (many_n realloc_ok compile n first ctm r) (many_n all compile' n first ctm r).
Proof. pose proof limited_sep. revert first. induction n; intros first; simpl; limit. Qed.
Lemma limited_items ps : limited (is_items realloc_ok compile ps) (is_items all compile' ps).
Proof. induction ps; simpl; limit. Qed.
#[local] Hint Resolve limited_repeat limited_token limited_cs_ranges limited_patch_gotos limited_ws_ranges
  limited_compile_all limited_choice_alts limited_patch_all limited_sep limited_many_n limited_items : memory.

Lemma limited_vt e self : limited (vt_compile_to_rvm realloc_ok compile e self) (vt_compile_to_rvm all compile' e self).
Proof.
  destruct e; cbn [vt_compile_to_rvm];
    unfold bits_ctrvm, ch_ctrvm, cs_ctrvm, token_ctrvm, end_ctrvm, epsilon_ctrvm, nothing_ctrvm, opt_ctrvm, ignore_ctrvm,
      ws_ctrvm, sequence_ctrvm, choice_ctrvm, many_ctrvm, ir_ctrvm, is_ctrvm, action_ctrvm, ab_ctrvm, callback_ctrvm,
      h_not_regular; limit.
  apply limited_repeat. limit.
Qed.
End Memory_compile.

Lemma h_compile_regex_limited realloc_ok store fuel p :
  limited realloc_ok (h_compile_regex realloc_ok store fuel p) (h_compile_regex (fun _ => true) store fuel p).
Proof.
  revert p. induction fuel as [|fuel IH]; intros p; cbn [h_compile_regex]; [intros q; by left|].
  limit. by apply limited_vt.
Qed.

(** Compiling a regular parser: the program of unlimited memory, or a refused
    reallocation. *)
Lemma h_regex_compile_memory realloc_ok store a fuel :
  store_wf store -> Forall (fun q => rvm_ok_env (p_env q)) store ->
  (a < length store)%nat -> (a < fuel)%nat -> isValidRegular fuel (Some a) store = Ok (true, store) ->
  exists body p,
    h_compile_regex (fun _ => true) store fuel (Some a) empty_prog = Ok (true, body) /\
    insert_ (fun _ => true) RVM_ACCEPT 0 body = Ok (tt, p) /\
    (pr_length p <= 65536 -> prog_safe p) /\
    (granted realloc_ok empty_prog p /\ h_regex_compile realloc_ok store fuel (Some a) = Ok (0, Some p) \/
     refused realloc_ok empty_prog body /\ h_regex_compile realloc_ok store fuel (Some a) = Ok (0, None) \/
     granted realloc_ok empty_prog body /\ refused realloc_ok body p /\
       h_regex_compile realloc_ok store fuel (Some a) = Fault Longjmp).
Proof.
  intros Hst Hok Ha Hf Hb. unfold h_regex_compile. rewrite Hb. cbn [mbind outcome_bind negb].
  pose proof (h_compile_regex_emits (fun _ => true) store a fuel Hst Hok Ha Hf Hb _ _ empty_prog_wf) as Hc.
  pose proof (h_compile_regex_limited realloc_ok store fuel (Some a) empty_prog) as Hm.
  unfold wp in Hc. destruct (h_compile_regex (fun _ => true) _ _ _ _) as [[b p]|f|]; [|by destruct Hc as (_ & ? & ?)|done].
  destruct Hc as (_ & Hw & <-).
  assert (wp (fun _ => true) (insert_ (fun _ => true) RVM_ACCEPT 0)
    (fun _ p' => pr_length p' <= 65536 -> prog_safe p') p) as Hi.
  { apply wp_bind. eapply wp_insert_gen; [exact Hw|by left|]. intros p' Hg Hl Hw' Hin.
    exact (prog_wf_safe _ _ Hw Hin Hg Hl). }
  pose proof (limited_insert realloc_ok RVM_ACCEPT 0 p) as Hl.
  unfold wp in Hi. destruct (insert_ (fun _ => true) RVM_ACCEPT 0 p) as [[[] p']|f|] eqn:Ea; [|by destruct Hi as (_ & ? & ?)|done].
  exists p, p'. split; [done|]. split; [done|]. split; [done|].
  destruct Hm as [Hg [[-> Hall]|[-> Hno]]]; [|right; by left]. destruct Hl as [Hg' [[-> Hall']|[-> Hno']]].
  - left. split; [|done]. intros k [Hk|Hk]%(asked_trans _ _ _ _ Hg Hg'); auto.
  - right; right. done.
Qed.

(** C19: compilation to the byte machine is sound and complete up to memory. For
    every parser of a graph that the constructors build without int_range (a
    charset is well-formed, a repetition with a minimum asks for at most one;
    int_range passes isValidRegular and is then refused by the compiler, with code
    2): h_regex_compile returns -1 when the parser is not regular. When it is
    regular there is one program, the one made where every reallocation succeeds;
    with at most 65536 instructions, the range of the 16-bit addresses, it is safe:
    every jump, fork and action index leads to an instruction or action that
    exists, no forward reference is left unpatched, and no path runs off the end.
    The compiler answers with this program exactly when [realloc] grants the sizes
    that the arrays pass through. Otherwise it jumps: out of h_compile_regex, and
    returns [false], the code of success, without a program; or, when only the
    final RVM_ACCEPT needs more memory, through the jump buffer that
    h_regex_compile has cleared before. *)
Theorem h_regex_compile_safe realloc_ok store a fuel :
  store_wf store -> Forall (fun q => rvm_ok_env (p_env q)) store ->
  (a < length store)%nat -> (a < fuel)%nat ->
  (isValidRegular fuel (Some a) store = Ok (false, store) /\
   h_regex_compile realloc_ok store fuel (Some a) = Ok (-1, None)) \/
  (isValidRegular fuel (Some a) store = Ok (true, store) /\
   exists body p,
     h_compile_regex (fun _ => true) store fuel (Some a) empty_prog = Ok (true, body) /\
     insert_ (fun _ => true) RVM_ACCEPT 0 body = Ok (tt, p) /\
     (pr_length p <= 65536 -> prog_safe p) /\
     (granted realloc_ok empty_prog p /\ h_regex_compile realloc_ok store fuel (Some a) = Ok (0, Some p) \/
      refused realloc_ok empty_prog body /\ h_regex_compile realloc_ok store fuel (Some a) = Ok (0, None) \/
      granted realloc_ok empty_prog body /\ refused realloc_ok body p /\
        h_regex_compile realloc_ok store fuel (Some a) = Fault Longjmp)).
Proof.
  intros Hst Hok Ha Hf. destruct (isValidRegular_answers store a fuel Hst Ha Hf) as [[] Hb].
  - right. split; [done|by apply h_regex_compile_memory].
  - left. split; [done|]. unfold h_regex_compile. by rewrite Hb.
Qed.

(** * Witness *)

(** The repetition of [paren_store] is regular, its nested parentheses are not. *)
Definition paren_prefix : list HParser := take 4 paren_store ++
  [mkParser (many_vt {| rp_p := Some 3%nat; rp_sep := Some 1%nat; rp_count := 0; rp_min_p := true |})
     PB_PACKRAT None None].

Lemma paren_prefix_wf : store_wf paren_prefix.
Proof. check_store_wf. Qed.

Lemma h_regex_compile_safe_witness :
  exists p, h_regex_compile (fun n => n <=? 64) paren_prefix 9 (Some 4%nat) = Ok (0, Some p) /\
    prog_safe p /\
  h_regex_compile (fun n => n <=? 8) paren_prefix 9 (Some 4%nat) = Ok (0, None).
Proof.
  destruct (h_regex_compile_safe (fun n => n <=? 64) paren_prefix 4 9) as [[Hv _]|[_ H]].
  - exact paren_prefix_wf.
  - repeat constructor.
  - vm_compute; lia.
  - lia.
  - discriminate.
  - destruct H as (body & p & Eb & Ep & Hp & H). vm_compute in Eb. injection Eb as <-.
    vm_compute in Ep. injection Ep as <-. eexists. split; [|split; [apply Hp; vm_compute; discriminate|]].
    + destruct H as [[_ E]|[[_ E]|(_ & _ & E)]]; [exact E|vm_compute in E; discriminate E..].
    + vm_compute. reflexivity.
Defined.
