(* ===== verification/RegexDefects.v ===== *)
(** The regular back end from end to end on concrete parsers: where it departs
    from the packrat back end or from memory safety. *)

From S2P Require Import Prelude Stream BitWriter Charset CArray Token Parser Combinators.
From S2P Require Import Packrat.
From S2P Require Import SArray Regex RegexVM.

(** Compile a parser and run it, with allocations that succeed and zeroed
    memory: the code of h_regex_compile and the result of the parse. *)
Definition regex_run (m : PM ptr) (input : list Z)
    : outcome (Z * outcome (option HParseResult)) :=
  '(p, st) ← m initial_store;
  '(code, prog) ← h_regex_compile (fun _ => true) st 20 p;
  match prog with
  | None => Ok (code, Ok None)
  | Some g =>
      let memory := replicate (length (pr_insns g)) (mkSNode 0 0 []) in
      Ok (code, h_rvm_run__m st g input memory memory)
  end.

Definition no_continuation : nat -> option HParsedToken -> Z -> PM ptr := fun _ _ _ => mret None.

(** The same parser on the packrat back end. *)
Definition packrat_run (m : PM ptr) (input : list Z) : outcome (option HParseResult) :=
  '(p, st) ← m initial_store;
  '(r, _) ← h_packrat_parse no_continuation 20 20 st p (buffer_stream input);
  Ok r.

(** [h_ignore(h_choice(h_ch('a'), h_int_range(h_ch('z'), 1, 5), NULL))] *)
Definition ignored_choice : PM ptr :=
  a ← h_ch__m 97;
  z ← h_ch__m 122;
  r ← h_int_range__m z 1 5;
  c ← h_choice__mv a [r; None];
  h_ignore__m c.

(** ignore_ctrvm does not look at the result of its child: an ignored choice
    with an int_range compiles "successfully" to a program whose first
    alternative jumps to address 65535, and parsing "a" reads outside the
    program, where the packrat parser succeeds. *)
Theorem h_ignore_unpatched_goto :
  regex_run ignored_choice [97] = Ok (0, Fault OutOfBounds) /\
  packrat_run ignored_choice [97] = Ok (Some (mkResult None 8)).
Proof. split; vm_compute; reflexivity. Qed.

(** [h_choice(h_token("ab"), h_token("ac"), NULL)] *)
Definition two_tokens : PM ptr :=
  p ← h_token__m [97; 98];
  q ← h_token__m [97; 99];
  h_choice__mv p [q; None].

(** The thread of the first alternative is saved last and never resumed: the
    regular back end rejects "ab" against "ab" | "ac" and accepts "ac", the
    packrat back end accepts both. *)
Theorem h_choice_drops_thread :
  regex_run two_tokens [97; 98] = Ok (0, Ok None) /\
  packrat_run two_tokens [97; 98] =
    Ok (Some (mkResult (Some (new_tok (TT_BYTES [97; 98]))) 16)) /\
  regex_run two_tokens [97; 99] =
    Ok (0, Ok (Some (mkResult (Some (new_tok (TT_BYTES [97; 99]))) 16))) /\
  packrat_run two_tokens [97; 99] =
    Ok (Some (mkResult (Some (new_tok (TT_BYTES [97; 99]))) 16)).
Proof. split_and!; vm_compute; reflexivity. Qed.

(** [h_int_range(h_uint8(), lower, upper)] *)
Definition byte_range (lower upper : Z) : PM ptr :=
  u ← h_uint8__m; h_int_range__m u lower upper.

(** IsValidRegular accepts every int_range and h_regex_compile never compiles
    one: it returns 2, whatever the bounds. *)
Theorem h_int_range_not_compiled lower upper :
  exists p st, byte_range lower upper initial_store = Ok (p, st) /\
    isValidRegular 20 p st = Ok (true, st) /\
    h_regex_compile (fun _ => true) st 20 p = Ok (2, None).
Proof. do 2 eexists. split; [reflexivity|]. split; vm_compute; reflexivity. Qed.

(** Ignoring a parser that leaves nothing on the stack removes what is not
    its own: an ignored epsilon compiles and every parse of it stops in an
    assertion, where the packrat parser succeeds. *)
Theorem h_ignore_epsilon_pops_nothing :
  regex_run (e ← h_epsilon_p__m; h_ignore__m e) [] = Ok (0, Fault AssertFail) /\
  packrat_run (e ← h_epsilon_p__m; h_ignore__m e) [] = Ok (Some (mkResult None 0)).
Proof. split; vm_compute; reflexivity. Qed.

(** [h_sequence(h_ch('a'), h_left(h_end_p(), h_epsilon_p()), NULL)] *)
Definition sequence_of_nothing : PM ptr :=
  a ← h_ch__m 97;
  e ← h_end_p__m;
  n ← h_epsilon_p__m;
  l ← h_left__m e n;
  h_sequence__mv a [l; None].

(** An ignoreseq whose picked item leaves no token pushes NULL, and the mark
    count of the sequence around it reads through that pointer: the parse of
    "a" compiles, matches and faults, where the packrat parser returns the
    sequence of the one character. *)
Theorem h_ignoreseq_pushes_null :
  regex_run sequence_of_nothing [97] = Ok (0, Fault NullDeref) /\
  regex_run sequence_of_nothing [98] = Ok (0, Ok None) /\
  packrat_run sequence_of_nothing [97] = Ok (Some (mkResult (Some (new_tok
    (TT_SEQUENCE (mkCArray 2 1 [Some (new_tok (TT_UINT 97)); None])))) 8)).
Proof. split_and!; vm_compute; reflexivity. Qed.
