(* ===== verification/Desugar.v ===== *)
(** Desugaring to context-free grammars (src/src/desugar.c,
    src/src/backends/contextfree.h, the desugar and reshape functions of
    src/src/parsers/*.c).

    The choices of a grammar are mutable and shared, cyclic grammars point back
    at them: they live in a heap of their own, and the memoised result of a
    parser is the address in its [p_desugared]. *)

From S2P Require Import Prelude Stream Charset CArray Token Parser.

(** * Reshape functions *)

(** The value of a token that the caller requires to be a TT_UINT. *)
Definition assert_uint (t : option HParsedToken) : outcome Z :=
  t ← deref NullDeref t;
  match tok_data t with TT_UINT v => Ok v | _ => Fault AssertFail end.

Fixpoint reshape_bits_loop (els : list (option HParsedToken)) (ret : Z) : outcome Z :=
  match els with
  | [] => Ok ret
  | t :: els =>
      v ← assert_uint t;
      reshape_bits_loop els (Z.lor (uint64 (Z.shiftl ret 8)) (Z.land v 255))
  end.

(** [elements[0]] of a signed value is read before the asserts of the loop. *)
Definition reshape_bits : HAction := fun p signedp_p =>
  '(_, seq) ← assert_seq (ast p);
  let signedp := negb (signedp_p =? 0) in
  start ← (if signedp
           then t ← carray_elem seq 0; v ← assert_uint t;
                Ok (if negb (Z.land v 128 =? 0) then uint64 (-1) else 0)
           else Ok 0);
  ret ← reshape_bits_loop (take (ca_used seq) (ca_elements seq)) start;
  Ok (Some (new_tok (if signedp then TT_SINT (sint64 ret) else TT_UINT ret))).

Fixpoint reshape_token_loop (els : list (option HParsedToken)) : outcome (list Z) :=
  match els with
  | [] => Ok []
  | t :: els => v ← assert_uint t; arr ← reshape_token_loop els; Ok (uint8 v :: arr)
  end.
Definition reshape_token : HAction := fun p _ =>
  '(_, seq) ← assert_seq (ast p);
  arr ← reshape_token_loop (take (ca_used seq) (ca_elements seq));
  Ok (Some (new_tok (TT_BYTES arr))).

Definition reshape_optional : HAction := fun p _ =>
  '(_, seq) ← assert_seq (ast p);
  res ← (if (0 <? ca_used seq)%nat then carray_elem seq 0 else Ok None);
  match res with
  | Some _ => Ok res
  | None => Ok (Some (new_tok TT_NONE))
  end.

Fixpoint reshape_sequence_loop (els : list (option HParsedToken)) (seq : HCountedArray HParsedToken)
    : outcome (HCountedArray HParsedToken) :=
  match els with
  | [] => Ok seq
  | None :: els => reshape_sequence_loop els seq
  | t :: els => seq ← h_carray_append seq t; reshape_sequence_loop els seq
  end.
Definition reshape_sequence : HAction := fun p _ =>
  '(tok, s) ← assert_seq (ast p);
  seq ← reshape_sequence_loop (take (ca_used s) (ca_elements s)) h_carray_new;
  Ok (Some (mkTok (TT_SEQUENCE seq) (tok_index tok) 0 (tok_bit_offset tok))).

(** [elements[n-2]] is kept and [elements[n-1]] followed; [fuel] bounds the
    depth of the token. *)
Fixpoint reshape_many_loop (fuel : nat) (tok : option HParsedToken)
    (seq : HCountedArray HParsedToken) : outcome (HCountedArray HParsedToken) :=
  match tok with
  | None => Ok seq
  | Some _ =>
      match fuel with
      | O => OutOfFuel
      | S fuel =>
          '(_, s) ← assert_seq tok;
          if (0 <? ca_used s)%nat then
            _ ← assert_ok (ca_used s <=? 3)%nat;
            item ← (if (2 <=? ca_used s)%nat then carray_elem s (ca_used s - 2)
                    else Fault OutOfBounds);
            seq ← h_carray_append seq item;
            next ← carray_elem s (ca_used s - 1);
            reshape_many_loop fuel next seq
          else Ok seq
      end
  end.
Definition reshape_many : HAction := fun p _ =>
  seq ← reshape_many_loop (match ast p with Some t => S (tok_depth t) | None => 0 end)
          (ast p) h_carray_new;
  tok ← deref NullDeref (ast p);
  Ok (Some (mkTok (TT_SEQUENCE seq) (tok_index tok) 0 (tok_bit_offset tok))).

(** The reshape functions by name. *)
Inductive reshape_fn :=
| R_act_first | R_act_second | R_act_last | R_act_ignore
| R_bits | R_token | R_optional | R_sequence | R_many.
#[global] Instance reshape_fn_eq_dec : EqDecision reshape_fn.
Proof. solve_decision. Defined.

Definition reshape_action (r : reshape_fn) : HAction :=
  match r with
  | R_act_first => h_act_first
  | R_act_second => h_act_second
  | R_act_last => h_act_last
  | R_act_ignore => h_act_ignore
  | R_bits => reshape_bits
  | R_token => reshape_token
  | R_optional => reshape_optional
  | R_sequence => reshape_sequence
  | R_many => reshape_many
  end.

(** * Grammars *)

(** The type tag with its member of the union. *)
Inductive HCFChoiceType :=
| HCF_END
| HCF_CHOICE (seq : list (list nat))   (** the sequences, each with its items *)
| HCF_CHARSET (charset : HCharset)
| HCF_CHAR (chr : Z)
| CF_invalid                            (** [~0] *)
| CF_uninit                             (** fresh from the allocator *)
| CF_freed.
#[global] Instance HCFChoiceType_eq_dec : EqDecision HCFChoiceType.
Proof. solve_decision. Defined.

(** [cf_user_data] is [None] until it is written. *)
Record HCFChoice := mkChoice {
  cf_type : HCFChoiceType;
  cf_reshape : option reshape_fn;
  cf_action : option HAction;
  cf_pred : option HPredicate;
  cf_user_data : option Z;
}.

Definition uninit_choice : HCFChoice := mkChoice CF_uninit None None None None.
Definition set_type (t : HCFChoiceType) (c : HCFChoice) : HCFChoice :=
  mkChoice t (cf_reshape c) (cf_action c) (cf_pred c) (cf_user_data c).
Definition set_reshape (r : reshape_fn) (c : HCFChoice) : HCFChoice :=
  mkChoice (cf_type c) (Some r) (cf_action c) (cf_pred c) (cf_user_data c).
Definition set_user_data (d : Z) (c : HCFChoice) : HCFChoice :=
  mkChoice (cf_type c) (cf_reshape c) (cf_action c) (cf_pred c) (Some d).
Definition set_action (a : option HAction) (c : HCFChoice) : HCFChoice :=
  mkChoice (cf_type c) (cf_reshape c) a (cf_pred c) (cf_user_data c).
Definition set_pred (f : HPredicate) (c : HCFChoice) : HCFChoice :=
  mkChoice (cf_type c) (cf_reshape c) (cf_action c) (Some f) (cf_user_data c).

(** The open choices, innermost first. *)
Record HCFStack := mkCFStack {
  cs_stack : list nat;
  cs_last_completed : option nat;
  cs_prealloc : option nat;
}.

Record dstate := mkDState {
  ds_parsers : list HParser;
  ds_choices : list HCFChoice;
  ds_stk : HCFStack;
}.
Abbreviation D := (ST dstate).

Definition h_cfstack_new : HCFStack := mkCFStack [] None None.

Definition put_stk (stk : HCFStack) : D unit :=
  modify (fun s => mkDState (ds_parsers s) (ds_choices s) stk).
Definition update_choice (c : nat) (f : HCFChoice -> HCFChoice) : D unit :=
  modify (fun s => mkDState (ds_parsers s) (alter f c (ds_choices s)) (ds_stk s)).
Definition load_choice (c : nat) : D HCFChoice := fun s =>
  c ← deref OutOfBounds (ds_choices s !! c); Ok (c, s).
(** [h_new(HCFChoice, 1)] *)
Definition alloc_choice : D nat := fun s =>
  Ok (length (ds_choices s),
      mkDState (ds_parsers s) (ds_choices s ++ [uninit_choice]) (ds_stk s)).

(** [HCFS_THIS_CHOICE]: stk__->stack[stk__->count-1] *)
Definition this_choice : D nat := fun s =>
  c ← deref OutOfBounds (head (cs_stack (ds_stk s))); Ok (c, s).

Definition set_last_completed (c : nat) : D unit :=
  modify (fun s => mkDState (ds_parsers s) (ds_choices s)
    (mkCFStack (cs_stack (ds_stk s)) (Some c) (cs_prealloc (ds_stk s)))).
Definition set_prealloc (c : option nat) : D unit :=
  modify (fun s => mkDState (ds_parsers s) (ds_choices s)
    (mkCFStack (cs_stack (ds_stk s)) (cs_last_completed (ds_stk s)) c)).

Definition h_cfstack_free : D unit := fun s =>
  match cs_prealloc (ds_stk s) with
  | None => Ok (tt, s)
  | Some c => update_choice c (set_type CF_freed) s
  end.

(** Append [item] to the last of the sequences. *)
Fixpoint add_to_last (seq : list (list nat)) (item : nat) : list (list nat) :=
  match seq with
  | [] => []
  | [items] => [items ++ [item]]
  | items :: seq => items :: add_to_last seq item
  end.

Definition h_cfstack_add_to_seq (item : nat) : D unit :=
  cur_top ← this_choice;
  c ← load_choice cur_top;
  match cf_type c with
  | HCF_CHOICE seq =>
      _ ← lift (assert_ok (negb (bool_decide (seq = []))));
      _ ← set_last_completed item;
      update_choice cur_top (set_type (HCF_CHOICE (add_to_last seq item)))
  | _ => throw AssertFail
  end.

Definition h_cfstack_new_choice_raw : D nat :=
  stk ← gets ds_stk;
  ret ← (match cs_prealloc stk with Some c => mret c | None => alloc_choice end);
  _ ← set_prealloc None;
  _ ← update_choice ret (fun c => mkChoice CF_invalid None None None (cf_user_data c));
  match cs_stack stk with
  | [] => mret ret
  | _ :: _ => _ ← h_cfstack_add_to_seq ret; mret ret
  end.

Definition add_leaf (t : HCFChoiceType) : D unit :=
  ni ← h_cfstack_new_choice_raw;
  _ ← update_choice ni (set_type t);
  set_last_completed ni.
Definition h_cfstack_add_charset (charset : HCharset) : D unit := add_leaf (HCF_CHARSET charset).
Definition h_cfstack_add_char (chr : Z) : D unit := add_leaf (HCF_CHAR chr).
Definition h_cfstack_add_end : D unit := add_leaf HCF_END.

Definition h_cfstack_begin_choice : D unit :=
  choice ← h_cfstack_new_choice_raw;
  _ ← update_choice choice (set_type (HCF_CHOICE []));
  modify (fun s => mkDState (ds_parsers s) (ds_choices s)
    (mkCFStack (choice :: cs_stack (ds_stk s)) (cs_last_completed (ds_stk s))
       (cs_prealloc (ds_stk s)))).

Definition h_cfstack_begin_seq : D unit :=
  t ← this_choice;
  c ← load_choice t;
  match cf_type c with
  | HCF_CHOICE seq => update_choice t (set_type (HCF_CHOICE (seq ++ [[]])))
  | _ => throw OutOfBounds
  end.

Definition h_cfstack_end_choice : D unit :=
  stk ← gets ds_stk;
  match cs_stack stk with
  | [] => throw AssertFail
  | c :: stack => put_stk (mkCFStack stack (Some c) (cs_prealloc stk))
  end.

(** [HCFS_BEGIN_CHOICE() { body } HCFS_END_CHOICE()] and its sequences. *)
Definition choice_ (body : D unit) : D unit :=
  _ ← h_cfstack_begin_choice; _ ← body; h_cfstack_end_choice.
Definition seq_ (body : D unit) : D unit := _ ← h_cfstack_begin_seq; body.
Definition update_this (f : HCFChoice -> HCFChoice) : D unit :=
  c ← this_choice; update_choice c f.

Fixpoint each {A} (f : A -> D unit) (l : list A) : D unit :=
  match l with [] => mret tt | a :: l => _ ← f a; each f l end.

(** * The desugar functions *)

Section desugar.
Context (desugar : ptr -> D unit).   (** HCFS_DESUGAR *)

Definition desugar_bits (bits : bits_env) : D unit :=
  _ ← lift (assert_ok (be_length bits mod 8 =? 0));
  match_all ← lift (charset_set_all new_charset all_chars (fun _ => 1));
  choice_ (
    _ ← seq_ (each (fun _ => h_cfstack_add_charset match_all)
                (seq 0 (Z.to_nat (be_length bits / 8))));
    c ← this_choice;
    _ ← update_choice c (set_reshape R_bits);
    (* the choice itself is an arbitrary non-null pointer *)
    update_choice c (set_user_data (if be_signedp bits then 1 + Z.of_nat c else 0))).

Definition desugar_ch (c : Z) : D unit := h_cfstack_add_char (uint8 c).
Definition desugar_charset (cs : HCharset) : D unit := h_cfstack_add_charset cs.
Definition desugar_end : D unit := h_cfstack_add_end.
Definition desugar_nothing : D unit := choice_ (mret tt).
Definition desugar_epsilon : D unit :=
  choice_ (_ ← seq_ (mret tt); update_this (set_reshape R_act_ignore)).

Definition desugar_token (t : HToken) : D unit :=
  choice_ (
    _ ← seq_ (each h_cfstack_add_char (take (Z.to_nat (tk_len t)) (tk_str t)));
    _ ← update_this (set_reshape R_token);
    update_this (set_user_data 0)).

Definition desugar_action (a : HParseAction) : D unit :=
  choice_ (
    _ ← seq_ (desugar (pa_p a));
    _ ← update_this (set_user_data (pa_user_data a));
    _ ← update_this (set_action (pa_action a));
    update_this (set_reshape R_act_first)).

Definition desugar_ab (a : HAttrBool) : D unit :=
  choice_ (
    _ ← seq_ (desugar (ab_p a));
    _ ← update_this (set_pred (ab_pred a));
    _ ← update_this (set_reshape R_act_first);
    update_this (set_user_data (ab_user_data a))).

Definition desugar_choice (s : HSequence) : D unit :=
  choice_ (
    _ ← each (fun p => seq_ (desugar p)) (sq_array s);
    update_this (set_reshape R_act_first)).

Definition desugar_sequence (s : HSequence) : D unit :=
  choice_ (
    _ ← seq_ (each desugar (sq_array s));
    _ ← update_this (set_reshape R_sequence);
    update_this (set_user_data 0)).

Definition desugar_ignore (p : ptr) : D unit :=
  choice_ (_ ← seq_ (desugar p); update_this (set_reshape R_act_ignore)).

Definition desugar_ignoreseq (q : HIgnoreSeq) : D unit :=
  choice_ (
    _ ← seq_ (each desugar (is_parsers q));
    if is_which q =? 0 then update_this (set_reshape R_act_first)
    else if is_which q =? 1 then update_this (set_reshape R_act_second)
    else if is_which q =? uint64 (Z.of_nat (length (is_parsers q)) - 1)
    then update_this (set_reshape R_act_last)
    else throw AssertFail).

Definition desugar_indirect (i : HIndirectEnv) : D unit := desugar (in_parser i).

Definition desugar_optional (p : ptr) : D unit :=
  choice_ (
    _ ← seq_ (desugar p);
    _ ← seq_ (mret tt);
    _ ← update_this (set_reshape R_optional);
    update_this (set_user_data 0)).

Definition desugar_many (r : HRepeat) : D unit :=
  if negb (rp_min_p r) then throw AssertFail
  else if 1 <? rp_count r then throw AssertFail
  else
    choice_ (
      _ ← seq_ (
            _ ← desugar (rp_p r);
            choice_ (
              _ ← seq_ (
                    _ ← (match rp_sep r with None => mret tt | Some _ => desugar (rp_sep r) end);
                    _ ← desugar (rp_p r);
                    c ← this_choice; h_cfstack_add_to_seq c);
              seq_ (mret tt)));
      _ ← (if rp_count r =? 0 then seq_ (mret tt) else mret tt);
      update_this (set_reshape R_many)).

Definition SPACE_CHRS : list Z := [32; 12; 10; 13; 9; 11].
Definition desugar_whitespace (p : ptr) : D unit :=
  ws_cs ← lift (charset_set_all new_charset SPACE_CHRS (fun _ => 1));
  choice_ (
    _ ← seq_ (
          _ ← choice_ (
                _ ← seq_ (_ ← h_cfstack_add_charset ws_cs;
                          c ← this_choice; h_cfstack_add_to_seq c);
                seq_ (mret tt));
          desugar p);
    update_this (set_reshape R_act_last)).

(** [for (i=low; i<=high; ++i) charset_set(cs, i, 1)] with [n] rounds. *)
Fixpoint range_loop (n : nat) (i : Z) (cs : HCharset) : outcome HCharset :=
  match n with
  | O => Ok cs
  | S n => cs ← charset_set cs (uint8 i) 1; range_loop n (i + 1) cs
  end.
(** The loop does not end when [high] is the largest integer. *)
Definition range_charset (low high : Z) : outcome HCharset :=
  if (low <=? high) && (high =? 2 ^ 64 - 1) then OutOfFuel
  else range_loop (Z.to_nat (high - low + 1)) low new_charset.

(** [bytes] is a uint8_t; [1 << (8 * (bytes - 1))] is a shift of an int. *)
Fixpoint gen_int_range (low high : Z) (bytes : nat) : D unit :=
  match bytes with
  | O => mret tt
  | 1%nat => cs ← lift (range_charset low high); h_cfstack_add_charset cs
  | S bytes' =>
      let sh := 8 * Z.of_nat bytes' in
      _ ← lift (shl_ok 64 sh);
      let low_head := Z.land (Z.shiftr low sh) 255 in
      let hi_head := Z.land (Z.shiftr high sh) 255 in
      if negb (low_head =? hi_head) then
        choice_ (
          _ ← seq_ (
                _ ← h_cfstack_add_char low_head;
                _ ← lift (shl_ok 32 sh);
                gen_int_range (Z.land low (2 ^ sh - 1)) (2 ^ sh - 1) bytes');
          _ ← seq_ (
                hd ← lift (charset_set_all new_charset all_chars
                       (fun i => b2z ((low_head <? i) && (i <? hi_head))));
                rest ← lift (charset_set_all new_charset all_chars (fun _ => 1));
                _ ← h_cfstack_add_charset hd;
                each (fun _ => h_cfstack_add_charset rest) (seq 2 (bytes - 2)));
          seq_ (
            _ ← h_cfstack_add_char hi_head;
            _ ← lift (shl_ok 32 sh);
            gen_int_range 0 (Z.land high (2 ^ sh - 1)) bytes'))
      else
        choice_ (
          seq_ (
            _ ← h_cfstack_add_char low_head;
            _ ← lift (shl_ok 32 sh);
            gen_int_range (Z.land low (2 ^ sh - 1)) (Z.land high (2 ^ sh - 1)) bytes'))
  end.

(** [r->p->env] is taken to be the environment of a bits parser. *)
Definition desugar_int_range (r : HRange) : D unit :=
  ps ← gets ds_parsers;
  q ← lift (parser_at ps (rg_p r));
  match p_env q with
  | bits_vt be =>
      gen_int_range (uint64 (rg_lower r)) (uint64 (rg_upper r)) (Z.to_nat (be_length be / 8))
  | _ => throw OutOfBounds
  end.

(** [assert(vtable->desugar != NULL)] and the call. *)
Definition vt_desugar (e : parser_env) : option (D unit) :=
  match e with
  | bits_vt b => Some (desugar_bits b)
  | ch_vt c => Some (desugar_ch c)
  | charset_vt cs => Some (desugar_charset cs)
  | token_vt t => Some (desugar_token t)
  | end_vt => Some desugar_end
  | epsilon_vt => Some desugar_epsilon
  | nothing_vt => Some desugar_nothing
  | optional_vt p => Some (desugar_optional p)
  | ignore_vt p => Some (desugar_ignore p)
  | whitespace_vt p => Some (desugar_whitespace p)
  | sequence_vt s => Some (desugar_sequence s)
  | choice_vt s => Some (desugar_choice s)
  | many_vt r => Some (desugar_many r)
  | int_range_vt r => Some (desugar_int_range r)
  | ignoreseq_vt q => Some (desugar_ignoreseq q)
  | action_vt a => Some (desugar_action a)
  | attr_bool_vt a => Some (desugar_ab a)
  | indirect_vt i => Some (desugar_indirect i)
  | unimplemented_vt | and_vt _ | not_vt _ | permutation_vt _ | butnot_vt _ | difference_vt _
  | xor_vt _ | length_value_vt _ | bind_vt _ | endianness_vt _ | put_vt _ | get_vt _ => None
  end.
End desugar.

(** [parser->desugared = c] *)
Definition set_desugared (a : nat) (c : option nat) : D unit :=
  modify (fun s => mkDState
    (alter (fun q => mkParser (p_env q) (p_backend q) (p_backend_data q) c) a (ds_parsers s))
    (ds_choices s) (ds_stk s)).

(** [h_desugar(mm__, stk__, parser)], [nested] when [stk__] is not NULL. *)
Fixpoint h_desugar (fuel : nat) (nested : bool) (parser : ptr) : D ptr :=
  match fuel with
  | O => out_of_fuel
  | S fuel =>
      a ← lift (deref NullDeref parser);
      ps ← gets ds_parsers;
      q ← lift (parser_at ps parser);
      _ ← (match p_desugared q with
           | None =>
               _ ← (if nested then mret tt else put_stk h_cfstack_new);
               stk ← gets ds_stk;
               c ← (match cs_prealloc stk with
                    | Some c => mret c
                    | None => c ← alloc_choice; _ ← set_prealloc (Some c); mret c
                    end);
               run ← lift (deref AssertFail
                       (vt_desugar (fun p => _ ← h_desugar fuel true p; mret tt) (p_env q)));
               _ ← set_desugared a (Some c);
               _ ← run;
               if nested then mret tt else h_cfstack_free
           | Some c => if nested then h_cfstack_add_to_seq c else mret tt
           end);
      ps ← gets ds_parsers;
      q ← lift (parser_at ps parser);
      mret (p_desugared q)
  end.

(** [h_desugar(mm__, NULL, parser)]; [h] holds the choices of earlier calls. *)
Definition desugar_parser (fuel : nat) (p : ptr) (st : list HParser) (h : list HCFChoice)
    : outcome (ptr * list HParser * list HCFChoice) :=
  '(c, s) ← h_desugar fuel false p (mkDState st h h_cfstack_new);
  Ok (c, ds_parsers s, ds_choices s).
