(* ===== verification/Grammar.v ===== *)
(** The languages of desugared grammars: what a choice of src/src/internal.h
    (HCFChoice) derives, the leftmost rewriting of its sequences, and the sets
    of first and following strings that the analysis of src/src/cfgrammar.c
    approximates. *)

From S2P Require Import Prelude Charset Desugar.

(** * The language of a grammar *)

Inductive symbol := Sym (c : Z) | Sym_end.
#[global] Instance symbol_eq_dec : EqDecision symbol.
Proof. solve_decision. Defined.

(** The strings a choice of the grammar [g] derives, and the strings of a
    sequence of items. *)
Inductive derives (g : list HCFChoice) : nat -> list symbol -> Prop :=
| derives_char c ch x : g !! c = Some ch -> cf_type ch = HCF_CHAR x -> derives g c [Sym x]
| derives_charset c ch cs x :
    g !! c = Some ch -> cf_type ch = HCF_CHARSET cs -> 0 <= x < 256 ->
    charset_isset cs x = Ok true ->
    derives g c [Sym x]
| derives_end c ch : g !! c = Some ch -> cf_type ch = HCF_END -> derives g c [Sym_end]
| derives_choice c ch seqs items w :
    g !! c = Some ch -> cf_type ch = HCF_CHOICE seqs -> items ∈ seqs ->
    derives_seq g items w -> derives g c w
with derives_seq (g : list HCFChoice) : list nat -> list symbol -> Prop :=
| derives_nil : derives_seq g [] []
| derives_cons c items w1 w2 :
    derives g c w1 -> derives_seq g items w2 -> derives_seq g (c :: items) (w1 ++ w2).

Lemma derives_inv g c w ch :
  derives g c w -> g !! c = Some ch ->
  match cf_type ch with
  | HCF_CHAR x => w = [Sym x]
  | HCF_CHARSET cs => exists x, w = [Sym x] /\ 0 <= x < 256 /\ charset_isset cs x = Ok true
  | HCF_END => w = [Sym_end]
  | HCF_CHOICE seqs => exists items, items ∈ seqs /\ derives_seq g items w
  | _ => False
  end.
Proof. intros Hd Hc. destruct Hd; simplify_eq; rewrite ?H0; eauto. Qed.

Lemma derives_seq_inv g c items w :
  derives_seq g (c :: items) w ->
  exists w1 w2, w = w1 ++ w2 /\ derives g c w1 /\ derives_seq g items w2.
Proof. inversion 1; eauto. Qed.

Lemma derives_nil_inv g w : derives_seq g [] w -> w = [].
Proof. by inversion 1. Qed.

Lemma derives_one g c w : derives g c w -> derives_seq g [c] w.
Proof. intros H. rewrite <- (app_nil_r w). by repeat constructor. Qed.

(** Takes a derivation over a concrete grammar apart. *)
Ltac derives_cases :=
  repeat match goal with
  | H : derives_seq _ [] _ |- _ => apply derives_nil_inv in H
  | H : derives_seq _ (_ :: _) _ |- _ =>
      apply derives_seq_inv in H as (? & ? & ? & ? & ?)
  | H : derives ?g ?c _ |- _ => eapply (derives_inv g c) in H; [|reflexivity]; cbn in H
  | H : exists _, _ |- _ => destruct H
  | H : _ /\ _ |- _ => destruct H
  | H : _ ∈ _ :: _ |- _ => apply elem_of_cons in H as [->|H]
  | H : _ ∈ [] |- _ => by apply not_elem_of_nil in H
  end; subst.

Scheme derives_mut := Minimality for derives Sort Prop
  with derives_seq_mut := Minimality for derives_seq Sort Prop.

(** * Nonterminals *)

Definition is_choice (g : list HCFChoice) (c : nat) : Prop :=
  exists ch seqs, g !! c = Some ch /\ cf_type ch = HCF_CHOICE seqs.

(** [x] occurs in a production of [c]. *)
Definition occurs (g : list HCFChoice) (c x : nat) : Prop :=
  exists ch seqs items, g !! c = Some ch /\ cf_type ch = HCF_CHOICE seqs /\ items ∈ seqs /\ x ∈ items.

(** [x] occurs in some sentential form of [c]. *)
Definition reachable (g : list HCFChoice) : nat -> nat -> Prop := rtc (occurs g).

(** A choice that desugaring finished: its type is set and its items exist. *)
Definition choice_wf (g : list HCFChoice) (ch : HCFChoice) : Prop :=
  match cf_type ch with
  | HCF_CHOICE seqs => Forall (Forall (fun x => (x < length g)%nat)) seqs
  | HCF_CHARSET cs => charset_wf cs
  | HCF_CHAR c => 0 <= c < 256
  | HCF_END => True
  | CF_invalid | CF_uninit | CF_freed => False
  end.
Definition grammar_wf (g : list HCFChoice) : Prop := Forall (choice_wf g) g.

Lemma grammar_wf_lookup g c ch : grammar_wf g -> g !! c = Some ch -> choice_wf g ch.
Proof. intros Hg Hc. exact (proj1 (Forall_lookup _ _) Hg _ _ Hc). Qed.

(** * Leftmost rewriting *)

Inductive terminal (g : list HCFChoice) : nat -> symbol -> Prop :=
| terminal_char c ch x : g !! c = Some ch -> cf_type ch = HCF_CHAR x -> terminal g c (Sym x)
| terminal_charset c ch cs x :
    g !! c = Some ch -> cf_type ch = HCF_CHARSET cs -> 0 <= x < 256 ->
    charset_isset cs x = Ok true -> terminal g c (Sym x)
| terminal_end c ch : g !! c = Some ch -> cf_type ch = HCF_END -> terminal g c Sym_end.

(** The sequence [s] rewrites to the string [w] before the sequence [r]. *)
Inductive leftmost (g : list HCFChoice) : list nat -> list symbol -> list nat -> Prop :=
| leftmost_refl s : leftmost g s [] s
| leftmost_terminal c x s w r :
    terminal g c x -> leftmost g s w r -> leftmost g (c :: s) (x :: w) r
| leftmost_choice c ch seqs items s w r :
    g !! c = Some ch -> cf_type ch = HCF_CHOICE seqs -> items ∈ seqs ->
    leftmost g (items ++ s) w r -> leftmost g (c :: s) w r.

Lemma leftmost_app g s w r t : leftmost g s w r -> leftmost g (s ++ t) w (r ++ t).
Proof.
  induction 1 as [s|c x s w r Hx _ IH|c ch seqs items s w r Hc Ht Hi _ IH].
  - constructor.
  - by constructor.
  - eapply leftmost_choice; [done..|]. by rewrite app_assoc.
Qed.

Lemma leftmost_trans g s w r v q :
  leftmost g s w r -> leftmost g r v q -> leftmost g s (w ++ v) q.
Proof.
  induction 1 as [s|c x s w r Hx _ IH|c ch seqs items s w r Hc Ht Hi _ IH]; intros Hq;
    [done|..]; simpl.
  - constructor; auto.
  - eapply leftmost_choice; eauto.
Qed.

(** A leftmost rewriting to nothing but a string is a derivation. *)
Lemma derives_seq_app g s1 s2 w :
  derives_seq g (s1 ++ s2) w ->
  exists w1 w2, w = w1 ++ w2 /\ derives_seq g s1 w1 /\ derives_seq g s2 w2.
Proof.
  revert w. induction s1 as [|c s1 IH]; intros w H; simpl in H.
  - exists [], w. split; [done|]. split; [constructor|done].
  - apply derives_seq_inv in H as (w1 & w2 & -> & H1 & H2).
    apply IH in H2 as (w3 & w4 & -> & H3 & H4).
    exists (w1 ++ w3), w4. rewrite app_assoc. split; [done|]. split; [by constructor|done].
Qed.

Lemma leftmost_derives g s w : leftmost g s w [] -> derives_seq g s w.
Proof.
  remember [] as r eqn:Hr. induction 1 as [s|c x s w r Hx _ IH|c ch seqs items s w r Hc Ht Hi _ IH];
    subst.
  - constructor.
  - apply (derives_cons g c s [x] w); [|by apply IH].
    destruct Hx; [by eapply derives_char|by eapply derives_charset|by eapply derives_end].
  - destruct (derives_seq_app _ _ _ _ (IH eq_refl)) as (w1 & w2 & -> & H1 & H2).
    constructor; [by eapply derives_choice|done].
Qed.

(** * First and following strings *)

(** No further symbol is looked at: [k] are there, or the end of the input is. *)
Definition full (k : nat) (w : list symbol) : Prop := length w = k \/ exists u, w = u ++ [Sym_end].

(** At most [k] symbols, the end of the input only as the last one. *)
Definition cut (k : nat) (w : list symbol) : Prop :=
  (length w <= k)%nat /\ forall u v, w = u ++ Sym_end :: v -> v = [].

Definition first_k (g : list HCFChoice) (k : nat) (s : list nat) (w : list symbol) : Prop :=
  cut k w /\ exists r, leftmost g s w r /\ (full k w \/ r = []).

(** [x] can stand before the sequence [b] in a sentential form of [start]. *)
Inductive context (g : list HCFChoice) (start : nat) : nat -> list nat -> Prop :=
| context_start : context g start start []
| context_item a b ch seqs items l x r :
    context g start a b -> g !! a = Some ch -> cf_type ch = HCF_CHOICE seqs ->
    items ∈ seqs -> items = l ++ x :: r -> context g start x (r ++ b).

(** The strings of the sequence [s] with the end of the input after it. *)
Definition after_k (g : list HCFChoice) (k : nat) (s : list nat) (w : list symbol) : Prop :=
  cut k w /\
  ((full k w /\ exists r, leftmost g s w r) \/
   exists v, w = v ++ [Sym_end] /\ leftmost g s v []).

Definition follow_k (g : list HCFChoice) (start k x : nat) (w : list symbol) : Prop :=
  exists b, context g start x b /\ after_k g k b w.

Definition predict_k (g : list HCFChoice) (start k a : nat) (rhs : list nat)
    (w : list symbol) : Prop :=
  exists b, context g start a b /\ after_k g k (rhs ++ b) w /\ full k w.
