(* ===== verification/DesugarWf.v ===== *)
(** Desugaring makes well-formed grammars: what h_desugar adds to the heap of
    choices is well formed, except for choices that were freed, and what was in
    the heap before stays as it was. *)

From S2P Require Import Prelude Stream Charset CArray Token Parser Desugar Grammar.

(** * The types of parsers and of choices *)

Definition choice_ok (h : list HCFChoice) (ch : HCFChoice) : Prop :=
  choice_wf h ch \/ cf_type ch = CF_freed.
Definition heap_ok (h : list HCFChoice) : Prop := Forall (choice_ok h) h.

(** What the constructors put into environments. *)
Definition env_ok (e : parser_env) : Prop :=
  match e with
  | charset_vt cs => charset_wf cs
  | token_vt t => Forall (fun c => 0 <= c < 256) (tk_str t)
  | _ => True
  end.

(** [n] choices: memoised results point at them. *)
Definition parser_ok (n : nat) (q : HParser) : Prop :=
  env_ok (p_env q) /\ forall c, p_desugared q = Some c -> (c < n)%nat.
Definition parsers_ok (n : nat) (st : list HParser) : Prop := Forall (parser_ok n) st.

Lemma choice_ok_longer h h' ch :
  (length h <= length h')%nat -> choice_ok h ch -> choice_ok h' ch.
Proof.
  intros Hl [Hc|]; [left|by right]. unfold choice_wf in *. destruct (cf_type ch); try done.
  eapply list.Forall_impl; [exact Hc|]. intros items Hi. eapply list.Forall_impl; [exact Hi|]. simpl. lia.
Qed.

Lemma parsers_ok_more n n' st : (n <= n')%nat -> parsers_ok n st -> parsers_ok n' st.
Proof.
  intros Hn Hst. eapply list.Forall_impl; [exact Hst|]. intros q [He Hd]. split; [done|].
  intros c Hc. specialize (Hd _ Hc). lia.
Qed.

(** * The state of desugaring *)

Section Desugaring.
Context (h0 : list HCFChoice).

Abbreviation size s := (length (ds_choices s)).
Abbreviation open_ s := (cs_stack (ds_stk s)).
Abbreviation prealloc s := (cs_prealloc (ds_stk s)).
Definition fresh (s : dstate) (c : nat) : Prop := (length h0 <= c < size s)%nat.
Definition unfilled (s : dstate) (c : nat) : Prop := fresh s c /\ c ∉ open_ s.

(** [hole] is a choice that is being filled; so is the preallocated one. *)
Record filling (hole : option nat) (s : dstate) : Prop := {
  fi_prefix : h0 `prefix_of` ds_choices s;
  fi_stack : Forall (fresh s) (open_ s);
  fi_prealloc : forall c, prealloc s = Some c -> unfilled s c;
  fi_hole : forall c, hole = Some c -> unfilled s c;
  fi_choices : forall i ch, ds_choices s !! i = Some ch ->
    choice_ok (ds_choices s) ch \/ hole = Some i \/ prealloc s = Some i;
  fi_parsers : parsers_ok (size s) (ds_parsers s);
}.

Lemma fi_old hole s : filling hole s -> (length h0 <= size s)%nat.
Proof. intros Hs. by apply prefix_length, (fi_prefix _ _ Hs). Qed.

(** A run leaves [Q]; the heap does not shrink. *)
Definition runs {A} (s : dstate) (m : D A) (Q : A -> dstate -> Prop) : Prop :=
  forall a s', m s = Ok (a, s') -> (size s <= size s')%nat /\ Q a s'.
Definition keeps {A} (m : D A) : Prop :=
  forall s, filling None s -> runs s m (fun _ => filling None).

Lemma runs_bind {A B} s (m : D A) (k : A -> D B) Q R :
  runs s m Q -> (forall a s', (size s <= size s')%nat -> Q a s' -> runs s' (k a) R) ->
  runs s (m ≫= k) R.
Proof.
  intros Hm Hk b s' H. apply ST_bind_ok in H as (a & s1 & H1 & H2).
  destruct (Hm _ _ H1) as (Hl & HQ). destruct (Hk _ _ Hl HQ _ _ H2) as (Hl' & HR). split; [lia|done].
Qed.

Lemma runs_weaken {A} s (m : D A) (Q R : A -> dstate -> Prop) :
  runs s m Q -> (forall a s', Q a s' -> R a s') -> runs s m R.
Proof. intros Hm HQ a s' [Hl H]%Hm. auto. Qed.

Lemma runs_lift {A B} s (o : outcome A) (k : A -> D B) R :
  (forall a, o = Ok a -> runs s (k a) R) -> runs s (lift o ≫= k) R.
Proof.
  intros Hk b s' H. apply ST_bind_ok in H as (a & s1 & [Ho ->]%lift_ok & H2). by eapply Hk.
Qed.

Lemma keeps_bind {A B} (m : D A) (k : A -> D B) : keeps m -> (forall a, keeps (k a)) -> keeps (m ≫= k).
Proof. intros Hm Hk s Hs. eapply runs_bind; [by apply Hm|]. intros a s' _ Hs'. by apply Hk. Qed.

Lemma keeps_lift {A B} (o : outcome A) (k : A -> D B) :
  (forall a, o = Ok a -> keeps (k a)) -> keeps (lift o ≫= k).
Proof. intros Hk s Hs. apply runs_lift. intros a Ha. by apply Hk. Qed.

Lemma keeps_ret {A} (a : A) : keeps (mret a).
Proof. by intros s Hs b s' [= <- <-]. Qed.

Lemma keeps_gets {A} (f : dstate -> A) : keeps (gets f).
Proof. by intros s Hs b s' [= <- <-]. Qed.

Lemma keeps_throw {A} f : keeps (@throw _ A f).
Proof. by intros s Hs b s' H. Qed.

Lemma keeps_each {A} (f : A -> D unit) l : (forall a, a ∈ l -> keeps (f a)) -> keeps (each f l).
Proof.
  induction l as [|a l IH]; intros Hf; [apply keeps_ret|]. cbn [each].
  apply keeps_bind; [apply Hf; by left|]. intros _. apply IH. intros b Hb. apply Hf. by right.
Qed.

Lemma this_choice_runs {B} hole s (k : nat -> D B) R :
  filling hole s -> (forall c, fresh s c -> c ∈ open_ s -> runs s (k c) R) ->
  runs s (this_choice ≫= k) R.
Proof.
  intros Hs Hk b s' H. apply ST_bind_ok in H as (c & s1 & H1 & H2). unfold this_choice in H1.
  apply outcome_bind_ok in H1 as (c' & Hc%deref_ok%head_Some_elem_of & H1). injection H1 as -> ->.
  apply (Hk c); [|done..]. exact (proj1 (list.Forall_forall _ _) (fi_stack _ _ Hs) _ Hc).
Qed.

(** The states in which one choice is changed. *)
Definition with_choice (c : nat) (f : HCFChoice -> HCFChoice) (s : dstate) : dstate :=
  mkDState (ds_parsers s) (alter f c (ds_choices s)) (ds_stk s).

Lemma runs_update s c f (Q : unit -> dstate -> Prop) :
  Q tt (with_choice c f s) -> runs s (update_choice c f) Q.
Proof. intros HQ [] s' [= <-]. split; [simpl; by rewrite length_alter|done]. Qed.

(** [c] may be filled by the change. *)
Lemma with_choice_filling hole hole' s c f :
  filling hole s -> fresh s c -> (hole = hole' \/ (hole = Some c /\ hole' = None)) ->
  (forall ch, ds_choices s !! c = Some ch ->
     hole' = Some c \/ ((hole = Some c \/ choice_ok (ds_choices s) ch) -> choice_ok (ds_choices s) (f ch))) ->
  filling hole' (with_choice c f s).
Proof.
  intros [Hp Hst Hpre Hho Hch Hps] [Hc1 Hc2] Hh Hf.
  assert (length (alter f c (ds_choices s)) = size s) as Hl by apply length_alter.
  split; simpl; unfold unfilled, fresh in *; simpl; rewrite ?Hl; try done.
  - destruct Hp as [l ->]. rewrite alter_app_r_alt by done. by apply prefix_app_r.
  - intros c' ->. apply Hho. by destruct Hh as [|[]].
  - intros i ch Hi. destruct (decide (c = i)) as [<-|Hne].
    + rewrite list_lookup_alter_eq in Hi. destruct (ds_choices s !! c) as [ch0|] eqn:E; [|done].
      simplify_eq/=. destruct (Hf _ eq_refl) as [->|Hok]; [by auto|].
      destruct (Hch _ _ E) as [Hw|[Hx|Hx]]; [left..|by auto];
        (apply (choice_ok_longer (ds_choices s)); [by rewrite Hl|by apply Hok; auto]).
    + rewrite list_lookup_alter_ne in Hi by done. destruct (Hch _ _ Hi) as [Hw|[Hx|Hx]]; [| |by auto].
      * left. apply (choice_ok_longer (ds_choices s)); [by rewrite Hl|done].
      * destruct Hh as [->|[-> ->]]; [by auto|]. congruence.
Qed.

(** ** Updates *)

Definition keeps_type (f : HCFChoice -> HCFChoice) : Prop := forall ch, cf_type (f ch) = cf_type ch.

Lemma keeps_type_ok f h ch : keeps_type f -> choice_ok h ch -> choice_ok h (f ch).
Proof. intros Hf [Hc|Hc]; [left|right; by rewrite Hf]. unfold choice_wf in *. by rewrite Hf. Qed.

Lemma update_type_runs c f s :
  filling None s -> fresh s c -> keeps_type f -> runs s (update_choice c f) (fun _ => filling None).
Proof.
  intros Hs Hc Hf. apply runs_update. eapply with_choice_filling; [done..|by left|].
  intros ch Hch. right. intros [|Hok]; [done|]. by apply keeps_type_ok.
Qed.

Lemma this_keeps {A} (k : nat -> D A) :
  (forall s c, filling None s -> fresh s c -> runs s (k c) (fun _ => filling None)) ->
  keeps (this_choice ≫= k).
Proof. intros Hk s Hs. eapply this_choice_runs; [done|]. intros c Hc _. by apply Hk. Qed.

Lemma update_this_keeps f : keeps_type f -> keeps (update_this f).
Proof.
  intros Hf. apply this_keeps. intros s c Hs Hc. by apply update_type_runs.
Qed.

Lemma add_to_last_ok (h : list HCFChoice) seq item :
  Forall (Forall (fun x => (x < length h)%nat)) seq -> (item < length h)%nat ->
  Forall (Forall (fun x => (x < length h)%nat)) (add_to_last seq item).
Proof.
  intros Hs Hi. induction Hs as [|items seq H1 H2 IH]; [constructor|]. destruct seq as [|i2 seq].
  - constructor; [|constructor]. apply Forall_app. split; [done|]. by repeat constructor.
  - by constructor.
Qed.

(** The sequences of an open choice. *)
Lemma fi_items hole s c ch seqs :
  filling hole s -> c ∈ open_ s -> ds_choices s !! c = Some ch -> cf_type ch = HCF_CHOICE seqs ->
  Forall (Forall (fun x => (x < size s)%nat)) seqs.
Proof.
  intros Hs Ho Hc Ht. destruct (fi_choices _ _ Hs _ _ Hc) as [[Hw|Hf]|[Hh|Hh]].
  - unfold choice_wf in Hw. by rewrite Ht in Hw.
  - congruence.
  - by destruct (fi_hole _ _ Hs _ Hh) as [_ ?].
  - by destruct (fi_prealloc _ _ Hs _ Hh) as [_ ?].
Qed.

Lemma load_choice_runs {B} s c (k : HCFChoice -> D B) R :
  (forall ch, ds_choices s !! c = Some ch -> runs s (k ch) R) -> runs s (load_choice c ≫= k) R.
Proof.
  intros Hk b s' H. apply ST_bind_ok in H as (ch & s1 & H1 & H2). unfold load_choice in H1.
  apply outcome_bind_ok in H1 as (ch' & Hc%deref_ok & H1). injection H1 as -> ->. by eapply Hk.
Qed.

(** The open choices are changed only in their last sequence. *)
Lemma set_last_completed_filling hole s c :
  filling hole s ->
  filling hole (mkDState (ds_parsers s) (ds_choices s) (mkCFStack (open_ s) (Some c) (prealloc s))).
Proof. by intros []. Qed.

Lemma add_to_seq_runs hole item s :
  filling hole s -> (item < size s)%nat ->
  runs s (h_cfstack_add_to_seq item) (fun _ s' => filling hole s' /\ ds_stk s' =
    mkCFStack (open_ s) (Some item) (prealloc s) /\ size s' = size s).
Proof.
  intros Hs Hi. unfold h_cfstack_add_to_seq. eapply this_choice_runs; [done|]. intros c Hc Ho.
  apply load_choice_runs. intros ch Hch. destruct (cf_type ch) as [|seq| | | | |] eqn:Ht; try done.
  apply runs_lift. intros _ _.
  apply (runs_bind _ _ _ (fun _ s' => s' = mkDState (ds_parsers s) (ds_choices s)
    (mkCFStack (open_ s) (Some item) (prealloc s)))); [by intros [] s' [= <-]|].
  intros _ s' _ ->. apply runs_update. split_and!; [|done|simpl; by rewrite length_alter].
  eapply with_choice_filling; [by apply set_last_completed_filling|done|by left|].
  intros ch0 _. right. intros _. left. simpl. apply add_to_last_ok; [|done]. by eapply fi_items.
Qed.

(** ** New choices *)

Definition with_prealloc (c : option nat) (s : dstate) : dstate :=
  mkDState (ds_parsers s) (ds_choices s) (mkCFStack (open_ s) (cs_last_completed (ds_stk s)) c).

(** The preallocated choice is a hole of another kind. *)
Lemma prealloc_hole c s :
  filling (Some c) (with_prealloc None s) <-> filling None (with_prealloc (Some c) s).
Proof.
  split; intros [Hp Hst Hpre Hho Hch Hps]; (split; simpl in *; [done|done|..|done]); try done.
  - intros i ch Hi. destruct (Hch _ _ Hi) as [|[|]]; [by left|by auto|done].
  - intros i ch Hi. destruct (Hch _ _ Hi) as [|[|]]; [by left|done|by auto].
Qed.

Lemma alloc_choice_runs s :
  filling None s -> prealloc s = None ->
  runs s alloc_choice (fun c s' => filling (Some c) s' /\ s' = with_prealloc None s' /\ open_ s' = open_ s).
Proof.
  intros Hs Hpr c s' [= <- <-]. pose proof (fi_old _ _ Hs) as Hold. destruct Hs as [Hp Hst _ _ Hch Hps].
  assert (length (ds_choices s ++ [uninit_choice]) = S (size s)) as Hl by (rewrite length_app; simpl; lia).
  assert (forall c, fresh s c -> (length h0 <= c < S (size s))%nat) as Hfr by (unfold fresh; lia).
  split; [simpl; lia|]. split_and!; [|by destruct s as [? ? []]; simpl in *; subst|done].
  split; unfold unfilled, fresh; simpl; rewrite ?Hl; try done.
  - by apply prefix_app_r.
  - eapply list.Forall_impl; [exact Hst|]. exact Hfr.
  - by rewrite Hpr.
  - intros c [= <-]. split; [lia|]. intros Hin.
    pose proof (proj1 (list.Forall_forall _ _) Hst _ Hin) as [_ ?]. lia.
  - intros i ch Hi. apply lookup_app_Some in Hi as [Hi|[Hge Hi]].
    + destruct (Hch _ _ Hi) as [Hc|[|]]; [left|done|by rewrite Hpr in *].
      apply (choice_ok_longer (ds_choices s)); [by rewrite Hl; lia|done].
    + apply list_lookup_singleton_Some in Hi as [Hi _]. right. left. f_equal. lia.
  - eapply parsers_ok_more; [|done]. lia.
Qed.

Lemma new_choice_raw_runs s :
  filling None s ->
  runs s h_cfstack_new_choice_raw (fun c s' => filling (Some c) s' /\ prealloc s' = None /\ open_ s' = open_ s).
Proof.
  intros Hs. unfold h_cfstack_new_choice_raw.
  apply (runs_bind _ _ _ (fun stk s' => stk = ds_stk s /\ s' = s)); [by intros stk s' [= <- <-]|].
  intros stk _ _ [-> ->].
  apply (runs_bind _ _ _ (fun c s' => filling (Some c) (with_prealloc None s') /\ open_ s' = open_ s)).
  { destruct (prealloc s) as [c|] eqn:Hpr.
    - intros c' s' [= <- <-]. split; [done|]. split; [|done]. apply prealloc_hole.
      destruct s as [? ? []]; simpl in *; by subst.
    - eapply runs_weaken; [by apply alloc_choice_runs|]. intros c s' (Hf & E & Ho). by rewrite <- E. }
  intros c s1 _ [H1 Ho1].
  apply (runs_bind _ _ _ (fun _ s' => s' = with_prealloc None s1)); [by intros [] s' [= <-]|].
  intros ? s2 _ ->.
  apply (runs_bind _ _ _ (fun _ s' => filling (Some c) s' /\ prealloc s' = None /\ open_ s' = open_ s)).
  { apply runs_update. split; [|done]. pose proof (fi_hole _ _ H1 _ eq_refl) as [Hc _].
    eapply with_choice_filling; [done..|by left|by left]. }
  intros ? s3 _ (H3 & Hp3 & Ho3).
  destruct (open_ s) as [|top stack] eqn:E; [intros c' s' [= <- <-]; by split_and!|].
  pose proof (fi_hole _ _ H3 _ eq_refl) as [[_ Hc] _].
  eapply runs_bind; [by apply add_to_seq_runs|]. intros ? s4 _ (H4 & E4 & _) c' s' [= <- <-].
  rewrite E4. by rewrite Ho3.
Qed.

(** The hole is filled. *)
Lemma fill_hole t c s :
  filling (Some c) s -> choice_ok (ds_choices s) (set_type t uninit_choice) ->
  filling None (with_choice c (set_type t) s).
Proof.
  intros Hs Ht. pose proof (fi_hole _ _ Hs _ eq_refl) as [Hc _].
  eapply with_choice_filling; [done..|by right|]. intros ch _. right. intros _.
  destruct Ht as [Ht|Ht]; [by left|by right].
Qed.

Lemma add_leaf_keeps t :
  (forall h, choice_ok h (set_type t uninit_choice)) -> keeps (add_leaf t).
Proof.
  intros Ht s Hs. unfold add_leaf. eapply runs_bind; [by apply new_choice_raw_runs|].
  intros c s1 _ (H1 & _).
  apply (runs_bind _ _ _ (fun _ => filling None)); [apply runs_update; by apply fill_hole|].
  intros ? s2 _ H2 [] s' [= <-]. split; [done|]. by destruct H2.
Qed.

Lemma add_charset_keeps cs : charset_wf cs -> keeps (h_cfstack_add_charset cs).
Proof. intros Hcs. apply add_leaf_keeps. by left. Qed.
Lemma add_char_keeps c : 0 <= c < 256 -> keeps (h_cfstack_add_char c).
Proof. intros Hc. apply add_leaf_keeps. by left. Qed.

Lemma begin_choice_keeps : keeps h_cfstack_begin_choice.
Proof.
  intros s Hs. unfold h_cfstack_begin_choice. eapply runs_bind; [by apply new_choice_raw_runs|].
  intros c s1 _ (H1 & Hp1 & Ho1). pose proof (fi_hole _ _ H1 _ eq_refl) as [Hc _].
  apply (runs_bind _ _ _ (fun _ s' => s' = with_choice c (set_type (HCF_CHOICE [])) s1)); [by apply runs_update|].
  intros ? s2 _ ->. assert (filling None (with_choice c (set_type (HCF_CHOICE [])) s1)) as H2.
  { apply fill_hole; [done|]. left. constructor. }
  intros [] s' [= <-]. split; [done|]. destruct H2 as [? ? ? ? ? ?]. split; simpl in *; try done.
  - constructor; [|done]. unfold fresh in *. simpl. by rewrite length_alter.
  - by rewrite Hp1.
Qed.

Lemma begin_seq_keeps : keeps h_cfstack_begin_seq.
Proof.
  intros s Hs. unfold h_cfstack_begin_seq. eapply this_choice_runs; [done|]. intros c Hc Ho.
  apply load_choice_runs. intros ch Hch. destruct (cf_type ch) as [|seq| | | | |] eqn:Ht; try done.
  apply runs_update. eapply with_choice_filling; [done..|by left|]. intros ch0 _. right. intros _. left.
  simpl. apply Forall_app. split; [by eapply fi_items|]. by repeat constructor.
Qed.

Lemma end_choice_keeps : keeps h_cfstack_end_choice.
Proof.
  intros s Hs. unfold h_cfstack_end_choice.
  apply (runs_bind _ _ _ (fun stk s' => stk = ds_stk s /\ s' = s)); [by intros stk s' [= <- <-]|].
  intros _ _ _ [-> ->]. destruct (open_ s) as [|c stack] eqn:E; [done|]. intros [] s' [= <-]. split; [done|].
  destruct Hs as [? Hst Hpre ? ? ?]. rewrite E in *. apply Forall_cons_1 in Hst as [_ Hst].
  split; simpl; try done. intros c' [Hc' Hn]%Hpre. rewrite E in Hn. split; [done|].
  simpl. set_solver.
Qed.

Lemma choice_keeps body : keeps body -> keeps (choice_ body).
Proof.
  intros Hb. unfold choice_. apply keeps_bind; [apply begin_choice_keeps|]. intros _.
  apply keeps_bind; [done|]. intros _. apply end_choice_keeps.
Qed.

Lemma seq_keeps body : keeps body -> keeps (seq_ body).
Proof. intros Hb. apply keeps_bind; [apply begin_seq_keeps|done]. Qed.

(** The choice that refers to itself. *)
Lemma add_this_keeps : keeps (c ← this_choice; h_cfstack_add_to_seq c).
Proof.
  intros s Hs. eapply this_choice_runs; [done|]. intros c [_ Hc] _.
  eapply runs_weaken; [by apply add_to_seq_runs|]. by intros _ s' [? _].
Qed.

(** ** The desugar functions *)

Lemma charset_set_all_wf poss val cs :
  Forall (fun c => 0 <= c < 256) poss -> charset_set_all new_charset poss val = Ok cs -> charset_wf cs.
Proof.
  intros Hp H. destruct (charset_set_all_ok poss new_charset val new_charset_wf Hp) as (cs' & E & Hw & _).
  rewrite E in H. by simplify_eq.
Qed.

Lemma all_set_wf cs : charset_set_all new_charset all_chars (fun _ => 1) = Ok cs -> charset_wf cs.
Proof. apply charset_set_all_wf, all_chars_range. Qed.

Lemma range_loop_wf n : forall i cs cs', charset_wf cs -> range_loop n i cs = Ok cs' -> charset_wf cs'.
Proof.
  induction n as [|n IH]; intros i cs cs' Hcs H; simpl in H; [by simplify_eq|].
  apply outcome_bind_ok in H as (cs1 & H1 & H).
  destruct (charset_set_ok cs (uint8 i) 1 Hcs) as (cs2 & E & Hw & _); [by apply Z.mod_pos_bound|].
  rewrite E in H1. simplify_eq. by eapply IH.
Qed.

Lemma range_charset_wf low high cs : range_charset low high = Ok cs -> charset_wf cs.
Proof. unfold range_charset. case_match; [done|]. apply range_loop_wf, new_charset_wf. Qed.

Lemma land_255 x : 0 <= Z.land x 255 < 256.
Proof. change 255 with (Z.ones 8). rewrite Z.land_ones by lia. by apply Z.mod_pos_bound. Qed.

(** Follows the structure of a run. *)
Ltac keep :=
  repeat match goal with
  | |- forall _, _ => intro
  | |- keeps (choice_ _) => apply choice_keeps
  | |- keeps (seq_ _) => apply seq_keeps
  | |- keeps (update_this _) => apply update_this_keeps; by intros ?
  | |- keeps (c ← this_choice; h_cfstack_add_to_seq c) => apply add_this_keeps
  | |- keeps (h_cfstack_add_charset _) => apply add_charset_keeps
  | |- keeps (h_cfstack_add_char _) => apply add_char_keeps
  | |- keeps h_cfstack_add_end => apply add_leaf_keeps; by left
  | |- keeps (mret _) => apply keeps_ret
  | |- keeps (throw _) => apply keeps_throw
  | |- keeps (gets _) => apply keeps_gets
  | |- keeps (each _ _) => apply keeps_each
  | |- keeps (this_choice ≫= _) => apply this_keeps
  | |- keeps (lift _ ≫= _) => apply keeps_lift
  | |- keeps (_ ≫= _) => apply keeps_bind
  | |- keeps (match ?x with _ => _ end) => destruct x
  | |- 0 <= Z.land _ 255 < 256 => apply land_255
  end.

Section Parsers.
Context (desugar : ptr -> D unit) (Hdesugar : forall p, keeps (desugar p)).

Lemma gen_int_range_keeps bytes : forall low high, keeps (gen_int_range low high bytes).
Proof.
  induction bytes as [|bytes IH]; intros low high; [apply keeps_ret|].
  cbn [gen_int_range]. keep; try apply IH; [by eapply range_charset_wf| |by eapply all_set_wf].
  eapply charset_set_all_wf; [apply all_chars_range|done].
Qed.

Lemma vt_desugar_keeps e run : env_ok e -> vt_desugar desugar e = Some run -> keeps run.
Proof.
  intros He Hr. destruct e; simplify_eq/=.
  all: try (unfold desugar_optional, desugar_ignore, desugar_sequence, desugar_choice, desugar_ignoreseq,
    desugar_action, desugar_ab, desugar_many, desugar_epsilon, desugar_nothing; keep; by apply Hdesugar).
  - unfold desugar_bits. keep; [by eapply all_set_wf|].
    clear H H0. eapply runs_bind; [by apply update_type_runs|]. intros ? s1 Hl Hs1.
    apply update_type_runs; [done|unfold fresh in *; lia|done].
  - apply add_char_keeps, Z.mod_pos_bound. lia.
  - by apply add_charset_keeps.
  - unfold desugar_token. keep. apply (proj1 (list.Forall_forall _ _) He).
    rewrite <- (take_drop (Z.to_nat (tk_len t))). apply elem_of_app. by left.
  - apply add_leaf_keeps. by left.
  - unfold desugar_whitespace. keep; [|apply Hdesugar].
    eapply charset_set_all_wf; [|eassumption]. unfold SPACE_CHRS. by repeat (constructor; [lia|]).
  - unfold desugar_int_range. keep. apply gen_int_range_keeps.
Qed.

End Parsers.

(** ** h_desugar *)

Lemma set_desugared_keeps a c s :
  filling None s -> (c < size s)%nat -> runs s (set_desugared a (Some c)) (fun _ => filling None).
Proof.
  intros [Hp Hst Hpre Hho Hch Hps] Hc [] s' [= <-]. split; [done|]. split; simpl; try done.
  apply Forall_alter; [done|]. intros q Hq Hok. destruct Hok as [He _]. split; [done|].
  by intros c' [= <-].
Qed.

(** The parser that is looked at. *)
Lemma parser_runs {B} s p (k : list HParser -> HParser -> D B) R :
  (forall q, parser_at (ds_parsers s) p = Ok q -> runs s (k (ds_parsers s) q) R) ->
  runs s (ps ← gets ds_parsers; q ← lift (parser_at ps p); k ps q) R.
Proof.
  intros Hk. apply (runs_bind _ _ _ (fun ps s' => ps = ds_parsers s /\ s' = s)); [by intros ps s' [= <- <-]|].
  intros _ _ _ [-> ->]. apply runs_lift, Hk.
Qed.

Lemma parser_at_ok n st p q : parsers_ok n st -> parser_at st p = Ok q -> parser_ok n q.
Proof.
  intros Hst H. unfold parser_at in H. apply outcome_bind_ok in H as (a & _ & H%deref_ok).
  by eapply (proj1 (Forall_lookup _ _)).
Qed.

(** The result of a call: the memoised choice of the parser. *)
Definition desugared (c : ptr) (s : dstate) : Prop := filling None s /\ forall x, c = Some x -> (x < size s)%nat.

Lemma gets_runs {A B} s (f : dstate -> A) (k : A -> D B) R :
  runs s (k (f s)) R -> runs s (gets f ≫= k) R.
Proof. done. Qed.

Lemma result_runs s p :
  filling None s ->
  runs s (ps ← gets ds_parsers; q ← lift (parser_at ps p); mret (p_desugared q)) desugared.
Proof.
  intros Hs. apply parser_runs. intros q Hq c s' [= <- <-]. split; [done|]. split; [done|].
  intros x Hx. by eapply (parser_at_ok _ _ _ _ (fi_parsers _ _ Hs)).
Qed.

(** The choice that is preallocated for a parser. *)
Lemma prealloc_runs s :
  filling None s ->
  runs s (match prealloc s with
          | Some c => mret c
          | None => c ← alloc_choice; _ ← set_prealloc (Some c); mret c
          end) (fun c s' => filling None s' /\ (c < size s')%nat).
Proof.
  intros Hs. destruct (prealloc s) as [c|] eqn:Hp.
  - intros c' s' [= <- <-]. split; [done|]. split; [done|]. by apply (fi_prealloc _ _ Hs) in Hp as [[_ ?] _].
  - eapply runs_bind; [by apply alloc_choice_runs|]. intros c s1 _ (H1 & E1 & _).
    pose proof (fi_hole _ _ H1 _ eq_refl) as [[_ Hc] _]. rewrite E1 in H1. apply prealloc_hole in H1.
    apply (runs_bind _ _ _ (fun _ s' => s' = with_prealloc (Some c) s1)); [by intros [] s' [= <-]|].
    intros ? s2 _ -> c' s' [= <- <-]. by split_and!.
Qed.

(** At the top, a choice that was preallocated and not used is freed. *)
Lemma cfstack_free_runs s :
  filling None s -> runs s h_cfstack_free (fun _ s' => filling None s' /\ heap_ok (ds_choices s')).
Proof.
  intros Hs. unfold h_cfstack_free.
  assert (forall s', filling None s' -> (forall c, prealloc s' = Some c -> forall ch,
    ds_choices s' !! c = Some ch -> cf_type ch = CF_freed) -> heap_ok (ds_choices s')) as Hok.
  { intros s' Hs' Hp. apply Forall_lookup. intros i ch Hi.
    destruct (fi_choices _ _ Hs' _ _ Hi) as [|[|Hpi]]; [done..|]. right. by eapply Hp. }
  destruct (prealloc s) as [c|] eqn:Hp.
  - pose proof (fi_prealloc _ _ Hs _ Hp) as [Hc _].
    assert (filling None (with_choice c (set_type CF_freed) s)) as Hs'.
    { eapply with_choice_filling; [done..|by left|]. intros ch _. right. intros _. by right. }
    intros [] s' H. rewrite Hp in H. injection H as <-.
    split; [simpl; by rewrite length_alter|]. split; [done|]. apply Hok; [done|].
    simpl. rewrite Hp. intros c' [= <-] ch Hch. rewrite list_lookup_alter_eq in Hch.
    destruct (ds_choices s !! c); by simplify_eq/=.
  - intros [] s' H. rewrite Hp in H. injection H as <-.
    split; [done|]. split; [done|]. apply Hok; [done|]. by rewrite Hp.
Qed.

(** The desugaring of a parser without a memoised result. *)
Lemma desugar_new_runs {B} (desugar : ptr -> D unit) s a q (k : D B) (Q : B -> dstate -> Prop) :
  (forall p, keeps (desugar p)) -> filling None s -> env_ok (p_env q) ->
  (forall s', filling None s' -> runs s' k Q) ->
  runs s (stk ← gets ds_stk;
          c ← (match cs_prealloc stk with
               | Some c => mret c
               | None => c ← alloc_choice; _ ← set_prealloc (Some c); mret c
               end);
          run ← lift (deref AssertFail (vt_desugar desugar (p_env q)));
          _ ← set_desugared a (Some c);
          _ ← run;
          k) Q.
Proof.
  intros Hd Hs He Hk. apply gets_runs. eapply runs_bind; [by apply prealloc_runs|].
  intros c s1 _ [H1 Hc]. apply runs_lift. intros run Hrun%deref_ok.
  eapply runs_bind; [by apply set_desugared_keeps|]. intros ? s2 _ H2.
  eapply runs_bind; [by apply (vt_desugar_keeps desugar Hd _ _ He Hrun)|]. intros ? s3 _ H3. by apply Hk.
Qed.

Lemma h_desugar_runs fuel : forall p s, filling None s -> runs s (h_desugar fuel true p) desugared.
Proof.
  induction fuel as [|fuel IH]; intros p s Hs; [done|]. cbn [h_desugar].
  apply runs_lift. intros a _. apply parser_runs. intros q Hq.
  pose proof (parser_at_ok _ _ _ _ (fi_parsers _ _ Hs) Hq) as [He Hc].
  eapply (runs_bind _ _ _ (fun _ => filling None)); [|intros ? s1 _ H1; by apply result_runs].
  destruct (p_desugared q) as [c|].
  - eapply runs_weaken; [by apply add_to_seq_runs, Hc|]. by intros _ s' [? _].
  - eapply runs_bind; [by apply keeps_ret|]. intros ? s1 _ H1.
    apply desugar_new_runs; [|done|done|by apply keeps_ret].
    intros p' s2 H2. eapply runs_bind; [by apply IH|]. intros ? s3 _ [H3 _]. by apply keeps_ret.
Qed.

Lemma h_desugar_top_runs fuel p s :
  filling None s -> heap_ok (ds_choices s) ->
  (ds_stk s = h_cfstack_new) ->
  runs s (h_desugar fuel false p) (fun c s' => desugared c s' /\ heap_ok (ds_choices s')).
Proof.
  intros Hs Hh Hst. destruct fuel as [|fuel]; [done|]. cbn [h_desugar].
  apply runs_lift. intros a _. apply parser_runs. intros q Hq.
  pose proof (parser_at_ok _ _ _ _ (fi_parsers _ _ Hs) Hq) as [He Hc].
  apply (runs_bind _ _ _ (fun _ s' => filling None s' /\ heap_ok (ds_choices s'))).
  - destruct (p_desugared q) as [c|]; [by intros [] s' [= <-]|].
    apply (runs_bind _ _ _ (fun _ s' => s' = s)).
    { intros [] s' [= <-]. split; [done|]. destruct s; simpl in *; by subst. }
    intros ? s1 _ ->. apply desugar_new_runs; [|done|done|apply cfstack_free_runs].
    intros p' s2 H2. eapply runs_bind; [by apply h_desugar_runs|]. intros ? s3 _ [H3 _]. by apply keeps_ret.
  - intros ? s1 _ [H1 Hh1] c s' H. assert (s' = s1) as -> by by ok_inv.
    split; [done|]. split; [|done]. by apply result_runs in H as [].
Qed.

(** The desugaring of lalr.c: a choice around the parser. *)
Lemma augmented_runs fuel p s :
  filling None s -> ds_stk s = h_cfstack_new ->
  runs s (augmented ← alloc_choice;
          _ ← put_stk (mkCFStack [] None (Some augmented));
          _ ← choice_ (
            _ ← seq_ (_ ← h_desugar fuel true p; mret tt);
            update_this (set_reshape R_act_first));
          _ ← h_cfstack_free;
          mret augmented)
    (fun c s' => filling None s' /\ heap_ok (ds_choices s') /\ (c < size s')%nat).
Proof.
  intros Hs Hst. eapply runs_bind; [apply alloc_choice_runs; [done|by rewrite Hst]|].
  intros c s1 _ (H1 & E1 & Ho1). pose proof (fi_hole _ _ H1 _ eq_refl) as [[_ Hc] _].
  apply (runs_bind _ _ _ (fun _ s' => filling None s' /\ size s' = size s1)).
  { intros [] s' [= <-]. split; [done|]. split; [|done]. rewrite E1 in H1. apply prealloc_hole in H1.
    rewrite Hst in Ho1. simpl in Ho1. unfold with_prealloc in H1. rewrite Ho1 in H1. by destruct H1. }
  intros ? s2 Hl2 [H2 E2]. apply (runs_bind _ _ _ (fun _ => filling None)).
  { apply choice_keeps; [|done]. apply keeps_bind; [|intros _; by apply update_this_keeps].
    apply seq_keeps. intros s3 H3. eapply runs_bind; [by apply h_desugar_runs|].
    intros ? s4 _ [H4 _]. by apply keeps_ret. }
  intros ? s3 Hl3 H3. eapply runs_bind; [by apply cfstack_free_runs|].
  intros ? s4 Hl4 [H4 Hok] c' s' [= <- <-]. split; [done|]. split_and!; [done..|lia].
Qed.

End Desugaring.

Lemma desugar_start h st :
  heap_ok h -> parsers_ok (length h) st -> filling h None (mkDState st h h_cfstack_new).
Proof.
  intros Hh Hst. split; simpl; try done. intros i ch Hi. left.
  by eapply (proj1 (Forall_lookup _ _)).
Qed.

(** Without freed choices the heap is a grammar. *)
Definition none_freed (h : list HCFChoice) : bool :=
  forallb (fun ch => bool_decide (cf_type ch <> CF_freed)) h.

Lemma heap_ok_grammar_wf h : heap_ok h -> none_freed h = true -> grammar_wf h.
Proof.
  intros Hh Hf. unfold none_freed in Hf. rewrite forallb_forall in Hf. apply list.Forall_forall.
  intros ch Hin. destruct (proj1 (list.Forall_forall _ _) Hh _ Hin) as [|Hc]; [done|].
  apply list_elem_of_In, Hf, bool_decide_eq_true in Hin. done.
Qed.

(** * Properties *)

(** C15: Desugaring makes well-formed grammars: from a heap of choices and parsers
    whose charsets, tokens and memoised results are well formed, a run that ends
    leaves the choices of earlier grammars as they were, every new choice is
    complete (its type is set and its sequences name choices of the heap) or was
    freed at the end, and the result and what the parsers memoise are in the heap. *)
Theorem desugar_parser_wf fuel p st h c st' h' :
  heap_ok h -> parsers_ok (length h) st -> desugar_parser fuel p st h = Ok (c, st', h') ->
  h `prefix_of` h' /\ heap_ok h' /\ parsers_ok (length h') st' /\ forall x, c = Some x -> (x < length h')%nat.
Proof.
  intros Hh Hst H. apply outcome_bind_ok in H as ([c0 s] & H & E). simplify_eq.
  destruct (h_desugar_top_runs h fuel p _ (desugar_start h st Hh Hst) Hh eq_refl _ _ H)
    as (_ & [Hs Hc] & Hok).
  split_and!; [apply Hs|done|apply Hs|done].
Qed.

Lemma desugar_parser_wf_witness :
  exists p st c st' h',
    (d ← h_ch_range__m 48 57; h_many1__m d) initial_store = Ok (p, st) /\
    desugar_parser 10 p st [] = Ok (c, st', h') /\ none_freed h' = true /\
    [] `prefix_of` h' /\ heap_ok h' /\ parsers_ok (length h') st' /\
    forall x, c = Some x -> (x < length h')%nat.
Proof.
  do 5 eexists. split; [vm_compute; reflexivity|]. apply and_keep; [vm_compute; reflexivity|].
  intros E. split; [vm_compute; reflexivity|].
  apply (desugar_parser_wf _ _ _ _ _ _ _ (list.Forall_nil_2 _)) in E; [exact E|]. clear E.
  repeat (constructor; [split; [|done]|]); try constructor; try done. repeat constructor; lia.
Defined.
