(* ===== verification/DesugarLang.v ===== *)
(** Desugaring preserves languages: the choice that h_desugar makes for a parser
    derives exactly the strings that the combinators of the parser describe, for
    graphs without indirect parsers (h_desugar goes wrong on these, DesugarFacts)
    and with int_range over single bytes (the others lose a byte).

    A choice is open while it is on the stack or preallocated. The proof rests on
    this: choices that are not open refer to such choices only and do not change
    any more, so that what they derive is settled. *)

From S2P Require Import Prelude Stream Charset CArray Token Parser Validity Desugar Grammar DesugarWf.

(** * Languages *)

Definition language : Type := list symbol -> Prop.
Definition lang_eq (L M : language) : Prop := forall w, L w <-> M w.
Infix "≡ₗ" := lang_eq (at level 70).
#[export] Instance lang_eq_equiv : Equivalence lang_eq.
Proof.
  split; [by intros L w|intros L M H w; symmetry; apply H|]. intros L M N H1 H2 w.
  etrans; [apply H1|apply H2].
Qed.

Definition l_none : language := fun _ => False.
Definition l_empty : language := fun w => w = [].
Definition l_char (P : Z -> Prop) : language := fun w => exists x, w = [Sym x] /\ P x.
Definition l_cat (L M : language) : language := fun w => exists u v, w = u ++ v /\ L u /\ M v.
Definition l_or (L M : language) : language := fun w => L w \/ M w.
Fixpoint l_cats (Ls : list language) : language :=
  match Ls with [] => l_empty | L :: Ls => l_cat L (l_cats Ls) end.
Fixpoint l_ors (Ls : list language) : language :=
  match Ls with [] => l_none | L :: Ls => l_or L (l_ors Ls) end.
Inductive l_star (L : language) : language :=
| l_star_nil : l_star L []
| l_star_cons u v : L u -> l_star L v -> l_star L (u ++ v).

#[export] Instance l_cat_proper : Proper (lang_eq ==> lang_eq ==> lang_eq) l_cat.
Proof.
  intros L L' HL M M' HM w.
  split; intros (u & v & -> & Hu & Hv); exists u, v; (split_and!; [done|by apply HL|by apply HM]).
Qed.
#[export] Instance l_or_proper : Proper (lang_eq ==> lang_eq ==> lang_eq) l_or.
Proof. intros L L' HL M M' HM w. split; (intros [H|H]; [left; by apply HL|right; by apply HM]). Qed.
#[export] Instance l_star_proper : Proper (lang_eq ==> lang_eq) l_star.
Proof.
  assert (forall L L', L ≡ₗ L' -> forall w, l_star L w -> l_star L' w) as Hle.
  { intros L L' HL w Hw. induction Hw as [|u v Hu _ IH]; constructor; [by apply HL|done]. }
  intros L L' HL w. split; by apply Hle.
Qed.

Lemma l_cats_proper Ls Ms : Forall2 lang_eq Ls Ms -> l_cats Ls ≡ₗ l_cats Ms.
Proof. induction 1; [done|]. by apply l_cat_proper. Qed.
Lemma l_ors_proper Ls Ms : Forall2 lang_eq Ls Ms -> l_ors Ls ≡ₗ l_ors Ms.
Proof. induction 1; [done|]. by apply l_or_proper. Qed.

Lemma l_cat_empty_r L : l_cat L l_empty ≡ₗ L.
Proof.
  intros w. split; [intros (u & v & -> & Hu & ->); by rewrite app_nil_r|]. intros Hw.
  exists w, []. by rewrite app_nil_r.
Qed.
Lemma l_cat_empty_l L : l_cat l_empty L ≡ₗ L.
Proof. intros w. split; [by intros (u & v & -> & -> & Hv)|]. intros Hw. by exists [], w. Qed.
Lemma l_cat_assoc L M N : l_cat (l_cat L M) N ≡ₗ l_cat L (l_cat M N).
Proof.
  intros w. split.
  - intros (? & v & -> & (u1 & u2 & -> & H1 & H2) & Hv). exists u1, (u2 ++ v). rewrite app_assoc.
    split_and!; [done..|]. by exists u2, v.
  - intros (u & ? & -> & Hu & (v1 & v2 & -> & H1 & H2)). exists (u ++ v1), v2. rewrite app_assoc.
    split_and!; [done| |done]. by exists u, v1.
Qed.
Lemma l_or_none_r L : l_or L l_none ≡ₗ L.
Proof. intros w. unfold l_or, l_none. tauto. Qed.

(** ** What the combinators describe *)

Section Meaning.
Context (L : ptr -> language).   (** the languages of the parsers pointed at *)

Definition any_byte (x : Z) : Prop := 0 <= x < 256.

(** One or more items with separators in between; none for a count of 0. *)
Definition more_language (r : HRepeat) : language :=
  match rp_sep r with None => L (rp_p r) | Some _ => l_cat (L (rp_sep r)) (L (rp_p r)) end.
Definition many_language (r : HRepeat) : language :=
  if rp_count r =? 0 then l_or (l_cat (L (rp_p r)) (l_star (more_language r))) l_empty
  else l_cat (L (rp_p r)) (l_star (more_language r)).

Definition env_language (e : parser_env) : language :=
  match e with
  | bits_vt b => l_cats (replicate (Z.to_nat (be_length b / 8)) (l_char any_byte))
  | ch_vt c => l_char (fun x => x = uint8 c)
  | charset_vt cs => l_char (fun x => any_byte x /\ charset_isset cs x = Ok true)
  | token_vt t => fun w => w = Sym <$> take (Z.to_nat (tk_len t)) (tk_str t)
  | end_vt => fun w => w = [Sym_end]
  | epsilon_vt => l_empty
  | nothing_vt => l_none
  | optional_vt p => l_or (L p) l_empty
  | ignore_vt p => L p
  | whitespace_vt p => l_cat (l_star (l_char (fun x => x ∈ SPACE_CHRS))) (L p)
  | sequence_vt s => l_cats (L <$> sq_array s)
  | choice_vt s => l_ors (L <$> sq_array s)
  | many_vt r => many_language r
  | int_range_vt r => l_char (fun x => rg_lower r <= x <= rg_upper r)
  | ignoreseq_vt q => l_cats (L <$> is_parsers q)
  | action_vt a => L (pa_p a)
  | attr_bool_vt a => L (ab_p a)
  | _ => l_none
  end.
End Meaning.

(** A parser describes what its children determine. *)
Lemma env_language_proper (L M : ptr -> language) e :
  Forall (fun p => L p ≡ₗ M p) (children e) -> env_language L e ≡ₗ env_language M e.
Proof.
  intros He. destruct e; cbn [children env_language] in *; try done; try exact (Forall_inv He).
  - apply l_or_proper; [exact (Forall_inv He)|done].
  - apply l_cat_proper; [done|exact (Forall_inv He)].
  - apply l_cats_proper. by apply Forall2_fmap, Forall_Forall2_diag.
  - apply l_ors_proper. by apply Forall2_fmap, Forall_Forall2_diag.
  - apply Forall_cons_1 in He as [Hp Hs]. unfold many_language.
    assert (more_language L r ≡ₗ more_language M r) as Hm.
    { unfold more_language. destruct (rp_sep r); [|done]. apply l_cat_proper; [exact (Forall_inv Hs)|done]. }
    assert (l_cat (L (rp_p r)) (l_star (more_language L r))
      ≡ₗ l_cat (M (rp_p r)) (l_star (more_language M r))) as Hl by (apply l_cat_proper; [done|by apply l_star_proper]).
    destruct (rp_count r =? 0); [by apply l_or_proper|done].
  - apply l_cats_proper. by apply Forall2_fmap, Forall_Forall2_diag.
Qed.

(** The parsers that the theorem is about: those with a desugar function other
    than indirect, with arguments for which no assert fails, and int_range over
    single bytes only. *)
Definition supported (st : list HParser) (e : parser_env) : Prop :=
  match e with
  | bits_vt b => be_length b mod 8 = 0
  | many_vt r => rp_min_p r = true /\ 0 <= rp_count r <= 1
  | ignoreseq_vt q => is_which q = 0 \/ is_which q = 1 \/ is_which q = uint64 (Z.of_nat (length (is_parsers q)) - 1)
  | int_range_vt r =>
      0 <= rg_lower r <= rg_upper r /\ rg_upper r < 256 /\
      exists a q b, rg_p r = Some a /\ st !! a = Some q /\ p_env q = bits_vt b /\ be_length b / 8 = 1
  | ch_vt _ | charset_vt _ | token_vt _ | end_vt | epsilon_vt | nothing_vt | optional_vt _ | ignore_vt _
  | whitespace_vt _ | sequence_vt _ | choice_vt _ | action_vt _ | attr_bool_vt _ => True
  | _ => False
  end.

(** The language of the parser at [a] of a store in which parsers point at
    earlier ones; [n] is more than [a]. *)
Fixpoint parser_language (st : list HParser) (n : nat) (p : ptr) : language :=
  match n, p with
  | S n, Some a =>
      match st !! a with
      | Some q => env_language (parser_language st n) (p_env q)
      | None => l_none
      end
  | _, _ => l_none
  end.

(** * What is settled *)

Abbreviation size s := (length (ds_choices s)).
Abbreviation open_ s := (cs_stack (ds_stk s)).
Abbreviation prealloc s := (cs_prealloc (ds_stk s)).

Definition typ (h : list HCFChoice) (c : nat) : option HCFChoiceType := cf_type <$> h !! c.
Definition refs (t : HCFChoiceType) : list nat :=
  match t with HCF_CHOICE seqs => concat seqs | _ => [] end.

(** Two heaps that have the same types on a set that is closed under references. *)
Lemma derives_same (P : nat -> Prop) h h' :
  (forall c, P c -> typ h' c = typ h c) ->
  (forall c t, P c -> typ h c = Some t -> Forall P (refs t)) ->
  forall c w, P c -> derives h c w -> derives h' c w.
Proof.
  intros Htyp Hrefs c w Hc Hd. revert Hc.
  assert (forall c ch, P c -> h !! c = Some ch -> exists ch', h' !! c = Some ch' /\ cf_type ch' = cf_type ch) as Hat.
  { intros x ch Hx Ech. specialize (Htyp x Hx). unfold typ in Htyp. rewrite Ech in Htyp.
    apply fmap_Some in Htyp as (ch' & E' & Et). by exists ch'. }
  apply (derives_mut h (fun c w => P c -> derives h' c w) (fun l w => Forall P l -> derives_seq h' l w)); [..|done].
  - intros x ch v Ex Et Hx. destruct (Hat x ch Hx Ex) as (ch' & E' & Et').
    eapply derives_char; [done|congruence].
  - intros x ch cs v Ex Et ? ? Hx. destruct (Hat x ch Hx Ex) as (ch' & E' & Et').
    eapply derives_charset; [done|by rewrite Et'|done..].
  - intros x ch Ex Et Hx. destruct (Hat x ch Hx Ex) as (ch' & E' & Et').
    eapply derives_end; [done|congruence].
  - intros x ch seqs items v Ex Et Hi _ IH Hx. destruct (Hat x ch Hx Ex) as (ch' & E' & Et').
    eapply derives_choice; [done|by rewrite Et'|done|]. apply IH.
    assert (Forall P (concat seqs)) as Hp.
    { apply (Hrefs x (HCF_CHOICE seqs) Hx). unfold typ. by rewrite Ex, <- Et. }
    apply list.Forall_forall. intros y Hy. eapply list.Forall_forall; [exact Hp|].
    apply list_elem_of_In, in_concat. exists items. by rewrite <- !list_elem_of_In.
  - constructor.
  - intros x items w1 w2 _ IH1 _ IH2 [Hx Hi]%Forall_cons_1. constructor; auto.
Qed.

(** * The meaning of parsers *)

Section Store.
Context (st : list HParser) (N : nat).

(** A graph of supported parsers in which parsers point at earlier ones. *)
Inductive desugarable : nat -> Prop :=
| desugarable_intro a q :
    st !! a = Some q -> supported st (p_env q) ->
    (forall p, p ∈ children (p_env q) -> exists b, p = Some b /\ (b < a)%nat /\ desugarable b) ->
    desugarable a.

(** A pointer to such a parser, among the first [n]. *)
Definition sub (n : nat) (p : ptr) : Prop := exists a, p = Some a /\ (a < n)%nat /\ desugarable a.

Lemma sub_mono n m p : (n <= m)%nat -> sub n p -> sub m p.
Proof. intros Hnm (a & -> & Ha & Hd). exists a. split_and!; [done|lia|done]. Qed.

Lemma desugarable_inv a q :
  desugarable a -> st !! a = Some q -> supported st (p_env q) /\ Forall (sub a) (children (p_env q)).
Proof.
  intros Ha Hq. destruct Ha as [a q' Hq' Hs Hc]. rewrite Hq in Hq'. injection Hq' as <-. split; [done|].
  by apply list.Forall_forall.
Qed.

Lemma desugarable_lookup a : desugarable a -> exists q, st !! a = Some q.
Proof. intros [? q Hq _ _]. by exists q. Qed.

Lemma parser_language_fuel n : forall m a,
  (a < n)%nat -> (a < m)%nat -> desugarable a ->
  parser_language st n (Some a) ≡ₗ parser_language st m (Some a).
Proof.
  induction n as [|n IH]; intros [|m] a Hn Hm Ha; [lia..|]. cbn [parser_language].
  destruct (st !! a) as [q|] eqn:Hq; [|done]. apply env_language_proper.
  destruct (desugarable_inv a q Ha Hq) as [_ Hch].
  eapply list.Forall_impl; [exact Hch|]. intros p (b & -> & Hb & Hdb). apply IH; [lia..|done].
Qed.

(** The equation of the languages of parsers. *)
Lemma parser_language_eq a q :
  (a < N)%nat -> desugarable a -> st !! a = Some q ->
  parser_language st N (Some a) ≡ₗ env_language (parser_language st N) (p_env q).
Proof.
  intros Ha Hd Hq. etrans; [apply (parser_language_fuel N (S N) a); [lia..|done]|].
  cbn [parser_language]. by rewrite Hq.
Qed.

(** * Runs *)

Definition closed (s : dstate) (c : nat) : Prop :=
  (c < size s)%nat /\ (c ∉ open_ s) /\ prealloc s <> Some c.

(** The type of a settled choice. *)
Definition type_ok (s : dstate) (t : HCFChoiceType) : Prop := t <> CF_freed /\ Forall (closed s) (refs t).

(** The parsers below [n] that have a choice have the right one. *)
Definition memo_ok (n : nat) (s : dstate) : Prop :=
  forall a q c, (a < n)%nat -> desugarable a -> ds_parsers s !! a = Some q -> p_desugared q = Some c ->
    closed s c /\ derives (ds_choices s) c ≡ₗ parser_language st (S a) (Some a).

Record ready (n : nat) (s : dstate) : Prop := {
  re_le : (n <= N)%nat;
  re_env : p_env <$> ds_parsers s = p_env <$> st;
  re_open : NoDup (open_ s) /\ Forall (fun c => (c < size s)%nat) (open_ s);
  re_pre : forall c, prealloc s = Some c -> (c < size s)%nat /\ c ∉ open_ s;
  re_types : forall c t, closed s c -> typ (ds_choices s) c = Some t -> type_ok s t;
  re_memo : memo_ok n s;
}.

(** [later s s']: what is settled in [s] is settled in [s'] in the same way. *)
Definition later (s s' : dstate) : Prop :=
  forall c, closed s c -> closed s' c /\ typ (ds_choices s') c = typ (ds_choices s) c.

Lemma later_refl s : later s s.
Proof. done. Qed.
Lemma later_trans s1 s2 s3 : later s1 s2 -> later s2 s3 -> later s1 s3.
Proof. intros H1 H2 c [Hc E]%H1. apply H2 in Hc as [Hc E']. split; [done|congruence]. Qed.

Lemma later_derives n s s' c :
  ready n s -> later s s' -> closed s c -> derives (ds_choices s') c ≡ₗ derives (ds_choices s) c.
Proof.
  intros Hr Hl Hc w. split; intros H; (eapply (derives_same (closed s)); [..|exact Hc|exact H]).
  - intros x Hx. symmetry. by apply Hl.
  - intros x t Hx Et. apply (re_types _ _ Hr x); [done|]. rewrite <- Et. symmetry. by apply Hl.
  - intros x Hx. by apply Hl.
  - intros x t Hx Et. by apply (re_types _ _ Hr x).
Qed.

Lemma later_derives_seq n s s' l :
  ready n s -> later s s' -> Forall (closed s) l ->
  derives_seq (ds_choices s') l ≡ₗ derives_seq (ds_choices s) l.
Proof.
  intros Hr Hl. induction 1 as [|c l Hc _ IH]; intros w.
  - split; intros H%derives_nil_inv; subst; constructor.
  - split; intros (w1 & w2 & -> & H1 & H2)%derives_seq_inv; constructor; try (by apply IH);
      by apply (later_derives n s s').
Qed.

(** A change that settles some more choices. *)
Lemma ready_more n s s' :
  ready n s -> later s s' -> ds_parsers s' = ds_parsers s ->
  NoDup (open_ s') /\ Forall (fun c => (c < size s')%nat) (open_ s') ->
  (forall c, prealloc s' = Some c -> (c < size s')%nat /\ c ∉ open_ s') ->
  (forall c t, closed s' c -> typ (ds_choices s') c = Some t ->
     closed s c \/ type_ok s' t) ->
  ready n s'.
Proof.
  intros Hr Hl Hps Ho Hp Hrefs. split; [apply Hr|rewrite Hps; apply Hr|done..| |].
  - intros c t Hc Et. destruct (Hrefs _ _ Hc Et) as [Hs|]; [|done].
    destruct (re_types _ _ Hr c t Hs) as [Hne Hx]; [rewrite <- Et; symmetry; by apply Hl|].
    split; [done|]. eapply list.Forall_impl; [exact Hx|]. intros x Hc'. by apply Hl.
  - intros a q c Ha Hda Hq Hc. rewrite Hps in Hq. destruct (re_memo _ _ Hr a q c Ha Hda Hq Hc) as [Hcl Hd].
    split; [by apply Hl|]. etrans; [by eapply later_derives|done].
Qed.

(** What a run does to the sequences [f] of the innermost open choice. *)
Record step (n : nat) (f : list (list nat) -> list (list nat)) (s s' : dstate) : Prop := {
  sp_ready : ready n s';
  sp_later : later s s';
  sp_open : open_ s' = open_ s;
  sp_pre : prealloc s' = None;
  sp_top : forall t seqs, head (open_ s) = Some t -> typ (ds_choices s) t = Some (HCF_CHOICE seqs) ->
    typ (ds_choices s') t = Some (HCF_CHOICE (f seqs));
  sp_rest : forall t, t ∈ tail (open_ s) -> typ (ds_choices s') t = typ (ds_choices s) t;
  sp_frame : forall a, (n <= a)%nat -> ds_parsers s' !! a = ds_parsers s !! a;
}.

Lemma step_refl n s : ready n s -> prealloc s = None -> step n (fun l => l) s s.
Proof. by split. Qed.

Lemma step_trans n f g s1 s2 s3 :
  step n f s1 s2 -> step n g s2 s3 -> step n (fun l => g (f l)) s1 s3.
Proof.
  intros [] []. split; [done|by eapply later_trans|congruence|done|..].
  - intros t seqs Ht Es. apply sp_top1; [congruence|]. by apply sp_top0.
  - intros t Ht. rewrite sp_rest1, sp_rest0 by congruence. done.
  - intros a Ha. rewrite sp_frame1, sp_frame0; done.
Qed.

(** ** The operations of the stack *)

Lemma typ_set h c t x :
  (c < length h)%nat -> typ (alter (set_type t) c h) x = if decide (x = c) then Some t else typ h x.
Proof.
  intros Hc. unfold typ. case_decide as Hx; [subst; rewrite list_lookup_alter_eq|by rewrite list_lookup_alter_ne].
  by destruct (lookup_lt_is_Some_2 h c Hc) as [ch ->].
Qed.

Lemma typ_keep h c f x : keeps_type f -> typ (alter f c h) x = typ h x.
Proof.
  intros Hf. unfold typ. destruct (decide (x = c)) as [->|Hx]; [|by rewrite list_lookup_alter_ne].
  rewrite list_lookup_alter_eq. destruct (h !! c); simpl; [|done]. by rewrite Hf.
Qed.

Lemma typ_lt h c t : typ h c = Some t -> (c < length h)%nat.
Proof. unfold typ. intros (ch & H & _)%fmap_Some. by eapply lookup_lt_Some. Qed.

(** The type of one choice is set. *)
Record typed (c : nat) (t : HCFChoiceType) (s s' : dstate) : Prop := {
  ty_parsers : ds_parsers s' = ds_parsers s;
  ty_open : open_ s' = open_ s;
  ty_pre : prealloc s' = prealloc s;
  ty_size : size s' = size s;
  ty_typ : forall x, typ (ds_choices s') x = if decide (x = c) then Some t else typ (ds_choices s) x;
}.

Lemma ST_bind_eq {S A B} (m : ST S A) (k : A -> ST S B) s a s1 r :
  m s = Ok (a, s1) -> k a s1 = r -> (m ≫= k) s = r.
Proof. intros Hm Hk. unfold mbind, ST_bind. by rewrite Hm. Qed.

Lemma add_to_seq_ok item s s' :
  h_cfstack_add_to_seq item s = Ok (tt, s') ->
  exists t rest seqs, open_ s = t :: rest /\ typ (ds_choices s) t = Some (HCF_CHOICE seqs) /\
    typed t (HCF_CHOICE (add_to_last seqs item)) s s'.
Proof.
  intros H. unfold h_cfstack_add_to_seq in H. apply ST_bind_ok in H as (t & s1 & H1 & H).
  unfold this_choice in H1. apply outcome_bind_ok in H1 as (t' & Ht%deref_ok & H1). injection H1 as -> ->.
  apply ST_bind_ok in H as (ch & s2 & H1 & H). unfold load_choice in H1.
  apply outcome_bind_ok in H1 as (ch' & Hc%deref_ok & H1). injection H1 as -> ->.
  destruct (cf_type ch) as [|seqs| | | | |] eqn:Et; try (intros; discriminate H).
  destruct (open_ s2) as [|t0 rest] eqn:Eo; simplify_eq/=. exists t, rest, seqs.
  apply ST_bind_ok in H as ([] & ? & [_ ->]%lift_ok & H).
  unfold set_last_completed, update_choice in H. apply ST_bind_ok in H as ([] & ? & [= <-] & [= <-]).
  split_and!; [done|by unfold typ; rewrite Hc; simpl; f_equal|]. split; try done; simpl; [by rewrite length_alter|].
  intros x. apply typ_set. by eapply lookup_lt_Some.
Qed.

(** The innermost open choice has a sequence that items can go to. *)
Definition top_ok (s : dstate) : Prop :=
  forall t, head (open_ s) = Some t -> exists seqs, typ (ds_choices s) t = Some (HCF_CHOICE seqs) /\ seqs <> [].

Lemma add_to_seq_runs_ok item s t rest :
  open_ s = t :: rest -> top_ok s -> exists s', h_cfstack_add_to_seq item s = Ok (tt, s').
Proof.
  intros Ho Ht. destruct (Ht t) as (seqs & (ch & Ech & Et)%fmap_Some & Hne); [by rewrite Ho|].
  eexists. unfold h_cfstack_add_to_seq. eapply ST_bind_eq; [unfold this_choice; by rewrite Ho|].
  eapply ST_bind_eq; [unfold load_choice; by rewrite Ech|]. cbn beta. rewrite <- Et.
  eapply ST_bind_eq; [by rewrite bool_decide_eq_false_2|]. by eapply ST_bind_eq.
Qed.

(** A new choice [c] that the innermost open one refers to. *)
Record made (c : nat) (s s' : dstate) : Prop := {
  md_parsers : ds_parsers s' = ds_parsers s;
  md_pre : prealloc s' = None;
  md_open : open_ s' = open_ s;
  md_size : forall x, (x < size s')%nat <-> (x < size s)%nat \/ x = c;
  md_new : (c ∉ open_ s);
  md_closed : ~ closed s c;
  md_prealloc : forall c0, prealloc s = Some c0 -> c = c0;
  md_typ : forall x, x <> c -> Some x <> head (open_ s) -> typ (ds_choices s') x = typ (ds_choices s) x;
  md_top : forall t seqs, head (open_ s) = Some t -> typ (ds_choices s) t = Some (HCF_CHOICE seqs) ->
    typ (ds_choices s') t = Some (HCF_CHOICE (add_to_last seqs c));
}.

Lemma made_lt c s s' : made c s s' -> (c < size s')%nat.
Proof. intros Hm. apply (md_size _ _ _ Hm). by right. Qed.

(** The steps of h_cfstack_new_choice_raw before the choice is put into the
    innermost open one. *)
Lemma raw_alloc_ok n s c s' :
  ready n s ->
  (match prealloc s with Some c => mret c | None => alloc_choice end) s = Ok (c, s') ->
  ds_parsers s' = ds_parsers s /\ open_ s' = open_ s /\ (c ∉ open_ s) /\ ~ closed s c /\
  (forall c0, prealloc s = Some c0 -> c = c0) /\
  (forall x, (x < size s')%nat <-> (x < size s)%nat \/ x = c) /\
  (forall x, x <> c -> typ (ds_choices s') x = typ (ds_choices s) x).
Proof.
  intros Hr H. destruct (prealloc s) as [c0|] eqn:Hp.
  - injection H as <- <-. destruct (re_pre _ _ Hr _ Hp) as [Hl Ho]. unfold closed.
    split_and!; try done; [tauto|by intros ? [=]|]. intros x. split; [tauto|by intros [| ->]].
  - injection H as <- <-. unfold closed. simpl. rewrite length_app. simpl. split_and!; try done; try lia.
    + intros Hin. pose proof (proj1 (list.Forall_forall _ _) (proj2 (re_open _ _ Hr)) _ Hin). simpl in *. lia.
    + intros x Hx. unfold typ. destruct (decide (x < size s)%nat); [by rewrite lookup_app_l|].
      rewrite !lookup_ge_None_2; [done|lia|rewrite length_app; simpl; lia].
Qed.

Lemma new_choice_raw_made n s c s' :
  ready n s -> h_cfstack_new_choice_raw s = Ok (c, s') -> made c s s'.
Proof.
  intros Hr H. unfold h_cfstack_new_choice_raw in H. apply ST_bind_ok in H as (stk & ? & [= <- <-] & H).
  apply ST_bind_ok in H as (c1 & s1 & H1 & H). destruct (raw_alloc_ok _ _ _ _ Hr H1) as (Eps & Eo & Hn & Hnc & Hpc & Hsz & Ht).
  apply ST_bind_ok in H as ([] & ? & [= <-] & H). apply ST_bind_ok in H as ([] & ? & [= <-] & H).
  assert (forall x, x <> c1 -> typ (alter (fun ch => mkChoice CF_invalid None None None (cf_user_data ch)) c1 (ds_choices s1)) x
    = typ (ds_choices s) x) as Ht'.
  { intros x Hx. rewrite <- Ht by done. unfold typ. by rewrite list_lookup_alter_ne. }
  destruct (open_ s) as [|t rest] eqn:Eopen.
  - injection H as <- <-. split; simpl; rewrite ?length_alter, ?Eo, ?Eopen; try done. intros x Hx _. by apply Ht'.
  - apply ST_bind_ok in H as ([] & s2 & H2 & [= <- <-]).
    apply add_to_seq_ok in H2 as (t' & rest' & seqs & E1 & E2 & [E3 E4 E5 E6 E7]). simpl in *.
    rewrite Eo in E1. injection E1 as <- <-.
    assert (t <> c1) as Hne by (intros ->; apply Hn; by left).
    split; rewrite ?E3, ?E4, ?E5, ?E6, ?length_alter, ?Eo, ?Eopen; try done.
    + intros x Hx Hh. rewrite E7, decide_False by (intros ->; by apply Hh). by apply Ht'.
    + intros t' seqs' [= <-] Es. rewrite E7, decide_True by done. rewrite Ht' in E2 by done. congruence.
Qed.

Lemma new_choice_raw_runs_ok n s :
  ready n s -> top_ok s -> exists c s', h_cfstack_new_choice_raw s = Ok (c, s').
Proof.
  intros Hr Ht. unfold h_cfstack_new_choice_raw.
  assert (exists c s1, (match prealloc s with Some c => mret c | None => alloc_choice end) s = Ok (c, s1)) as (c & s1 & H1)
    by (destruct (prealloc s); by do 2 eexists).
  destruct (raw_alloc_ok n s c s1 Hr H1) as (_ & Eo & Hn & _ & _ & _ & Hty).
  destruct (open_ s) as [|t rest] eqn:Ho.
  - do 2 eexists. eapply ST_bind_eq; [done|]. eapply ST_bind_eq; [exact H1|]. eapply ST_bind_eq; [done|].
    eapply ST_bind_eq; [done|]. cbn beta. by rewrite Ho.
  - edestruct (add_to_seq_runs_ok c) as (s' & H2); [|
      |do 2 eexists; eapply ST_bind_eq; [done|]; eapply ST_bind_eq; [exact H1|]; eapply ST_bind_eq; [done|];
       eapply ST_bind_eq; [done|]; cbn beta; rewrite Ho; eapply ST_bind_eq; [exact H2|done]].
    + simpl. exact Eo.
    + intros t' Ht'. simpl in Ht'. rewrite Eo in Ht'. injection Ht' as <-.
      destruct (Ht t) as (seqs & Es & Hne); [by rewrite Ho|]. exists seqs. split; [|done]. simpl.
      assert (t <> c) as Htc by (intros ->; apply Hn; by left).
      unfold typ. rewrite list_lookup_alter_ne by done. etrans; [by apply Hty|done].
Qed.

Lemma begin_choice_runs_ok n s :
  ready n s -> top_ok s -> exists s', h_cfstack_begin_choice s = Ok (tt, s').
Proof.
  intros Hr Ht. destruct (new_choice_raw_runs_ok n s Hr Ht) as (c & s1 & H1). eexists.
  eapply ST_bind_eq; [exact H1|]. by eapply ST_bind_eq.
Qed.

Lemma made_closed c s s' x : made c s s' -> closed s' x <-> closed s x \/ x = c.
Proof.
  intros Hm. unfold closed. rewrite (md_size _ _ _ Hm), (md_open _ _ _ Hm), (md_pre _ _ _ Hm). split.
  - intros (Hx & Ho & _). destruct (decide (x = c)) as [|Hne]; [by right|left].
    split_and!; [by destruct Hx|done|]. intros Hp%(md_prealloc _ _ _ Hm). congruence.
  - intros [(Hx & Ho & _)| ->]; [by auto|]. pose proof (md_new _ _ _ Hm). by auto.
Qed.

(** The tops of the two stacks as far as [made] leaves them. *)
Lemma made_tops n c s s' :
  ready n s -> made c s s' -> forall t, t ∈ tail (open_ s) -> typ (ds_choices s') t = typ (ds_choices s) t.
Proof.
  intros Hr Hm t Ht. apply (md_typ _ _ _ Hm).
  - intros ->. apply (md_new _ _ _ Hm). destruct (open_ s); [by apply not_elem_of_nil in Ht|by right].
  - intros Hh. destruct (re_open _ _ Hr) as [Hnd _]. destruct (open_ s) as [|y l]; [done|].
    injection Hh as ->. by apply list.NoDup_cons in Hnd as [].
Qed.

Lemma made_later n c s s' :
  ready n s -> made c s s' -> later s s'.
Proof.
  intros Hr Hm x Hx. split; [apply (made_closed _ _ _ _ Hm); by left|].
  apply (md_typ _ _ _ Hm); [intros ->; by apply (md_closed _ _ _ Hm)|].
  intros Hh. destruct Hx as (_ & Ho & _). apply Ho. destruct (open_ s); [done|]. injection Hh as ->. by left.
Qed.

Lemma typed_closed c t s s' x : typed c t s s' -> closed s' x <-> closed s x.
Proof. intros []. unfold closed. by rewrite ty_size0, ty_open0, ty_pre0. Qed.

Lemma leaf_step n c t s s1 s2 :
  ready n s -> made c s s1 -> typed c t s1 s2 -> refs t = [] -> t <> CF_freed ->
  step n (fun l => add_to_last l c) s s2 /\ closed s2 c.
Proof.
  intros Hr Hm Ht Hrefs Hne0.
  assert (forall x, closed s2 x <-> closed s x \/ x = c) as Hcl.
  { intros x. rewrite (typed_closed _ _ _ _ _ Ht). by apply made_closed. }
  assert (later s s2) as Hl.
  { intros x Hx. split; [apply Hcl; by left|]. rewrite (ty_typ _ _ _ _ Ht), decide_False.
    - by apply (made_later n c s s1).
    - intros ->. by apply (md_closed _ _ _ Hm). }
  assert (forall x, x ∈ open_ s -> x <> c) as Hne by (intros x Hx ->; by apply (md_new _ _ _ Hm)).
  split; [|apply Hcl; by right]. split.
  - apply (ready_more n s); try done.
    + rewrite (ty_parsers _ _ _ _ Ht). apply Hm.
    + rewrite (ty_open _ _ _ _ Ht), (md_open _ _ _ Hm). split; [apply Hr|].
      eapply list.Forall_impl; [apply Hr|]. intros x Hx. rewrite (ty_size _ _ _ _ Ht). apply Hm. by left.
    + rewrite (ty_pre _ _ _ _ Ht), (md_pre _ _ _ Hm). done.
    + intros x t' [Hx| ->]%Hcl Et; [by left|right]. rewrite (ty_typ _ _ _ _ Ht), decide_True in Et by done.
      injection Et as <-. split; [done|]. by rewrite Hrefs.
  - done.
  - rewrite (ty_open _ _ _ _ Ht). apply Hm.
  - rewrite (ty_pre _ _ _ _ Ht). apply Hm.
  - intros t' seqs Hh Es. rewrite (ty_typ _ _ _ _ Ht), decide_False by (apply Hne; by apply head_Some_elem_of).
    by apply Hm.
  - intros t' Ht'. rewrite (ty_typ _ _ _ _ Ht), decide_False.
    + by apply (made_tops n c s).
    + apply Hne. destruct (open_ s); [by apply not_elem_of_nil in Ht'|by right].
  - intros a _. by rewrite (ty_parsers _ _ _ _ Ht), (md_parsers _ _ _ Hm).
Qed.

(** A choice that is opened, and closed again after [body] has given it [seqs]. *)
Record opened (n c : nat) (s s' : dstate) : Prop := {
  op_ready : ready n s';
  op_closed : forall x, closed s' x <-> closed s x;
  op_typ : forall x, closed s x -> typ (ds_choices s') x = typ (ds_choices s) x;
  op_open : open_ s' = c :: open_ s;
  op_pre : prealloc s' = None;
  op_new : typ (ds_choices s') c = Some (HCF_CHOICE []);
  op_prealloc : forall c0, prealloc s = Some c0 -> c = c0;
  op_parsers : ds_parsers s' = ds_parsers s;
  op_top : forall t seqs, head (open_ s) = Some t -> typ (ds_choices s) t = Some (HCF_CHOICE seqs) ->
    typ (ds_choices s') t = Some (HCF_CHOICE (add_to_last seqs c));
  op_rest : forall t, t ∈ tail (open_ s) -> typ (ds_choices s') t = typ (ds_choices s) t;
}.

Lemma begin_choice_opened n s s' :
  ready n s -> h_cfstack_begin_choice s = Ok (tt, s') -> exists c, opened n c s s'.
Proof.
  intros Hr H. unfold h_cfstack_begin_choice in H. apply ST_bind_ok in H as (c & s1 & Hm%(new_choice_raw_made n) & H); [|done].
  apply ST_bind_ok in H as ([] & ? & [= <-] & [= <-]). exists c.
  set (s2 := mkDState _ _ _). pose proof (made_lt _ _ _ Hm) as Hlt.
  assert (forall x, typ (ds_choices s2) x = if decide (x = c) then Some (HCF_CHOICE []) else typ (ds_choices s1) x) as Hty.
  { intros x. by apply typ_set. }
  assert (size s2 = size s1) as Hsz by apply length_alter.
  assert (open_ s2 = c :: open_ s) as Ho by (unfold s2; simpl; by rewrite (md_open _ _ _ Hm)).
  assert (prealloc s2 = None) as Hp by apply (md_pre _ _ _ Hm).
  assert (forall x, closed s2 x <-> closed s x) as Hcl.
  { intros x. transitivity (closed s1 x /\ x <> c).
    - unfold closed. rewrite Hsz, Ho, Hp, (md_open _ _ _ Hm), (md_pre _ _ _ Hm). set_solver.
    - rewrite (made_closed _ _ _ _ Hm). pose proof (md_closed _ _ _ Hm). split; [tauto|].
      intros Hx. split; [tauto|by intros ->]. }
  assert (forall x, x ∈ open_ s -> x <> c) as Hne by (intros x Hx ->; by apply (md_new _ _ _ Hm)).
  assert (forall x, closed s x -> typ (ds_choices s2) x = typ (ds_choices s) x) as Hct.
  { intros x Hx. rewrite Hty, decide_False by (intros ->; by apply (md_closed _ _ _ Hm)).
    by apply (made_later n c s s1). }
  split; try done.
  - apply (ready_more n s); try done.
    + intros x Hx. split; [by apply Hcl|by apply Hct].
    + apply Hm.
    + rewrite Ho. split; [apply list.NoDup_cons; split; [apply Hm|apply Hr]|].
      rewrite Hsz. constructor; [done|]. eapply list.Forall_impl; [apply Hr|].
      intros x Hx. apply Hm. by left.
    + rewrite Hp. done.
    + intros x t' Hx%Hcl _. by left.
  - by rewrite Hty, decide_True.
  - apply Hm.
  - apply Hm.
  - intros t seqs Hh Es. rewrite Hty, decide_False by (apply Hne; by apply head_Some_elem_of). by apply Hm.
  - intros t Ht. rewrite Hty, decide_False; [by apply (made_tops n c s)|].
    apply Hne. destruct (open_ s); [by apply not_elem_of_nil in Ht|by right].
Qed.

Lemma choice_step n c f s s1 s2 s3 :
  ready n s -> opened n c s s1 -> step n f s1 s2 -> h_cfstack_end_choice s2 = Ok (tt, s3) ->
  Forall (Forall (fun x => closed s2 x \/ x = c)) (f []) ->
  step n (fun l => add_to_last l c) s s3 /\ closed s3 c /\ ds_choices s3 = ds_choices s2 /\ later s2 s3 /\
  typ (ds_choices s3) c = Some (HCF_CHOICE (f [])).
Proof.
  intros Hr Hop Hst He Hseqs. unfold h_cfstack_end_choice in He.
  apply ST_bind_ok in He as (stk & ? & [= <- <-] & He).
  pose proof (sp_open _ _ _ _ Hst) as Ho. rewrite (op_open _ _ _ _ Hop) in Ho.
  destruct (open_ s2) as [|c2 rest] eqn:Eo; [done|]. injection Ho as -> ->. injection He as <-.
  set (s3 := mkDState _ _ _). pose proof (sp_ready _ _ _ _ Hst) as Hr2.
  destruct (re_open _ _ Hr2) as [Hnd Hlts]. rewrite Eo in Hnd, Hlts.
  apply list.NoDup_cons in Hnd as [Hnin Hnd]. apply Forall_cons_1 in Hlts as [Hlt Hlts].
  assert (prealloc s2 = None) as Hp2 by apply Hst. assert (prealloc s3 = None) as Hp3 by apply Hst.
  assert (forall x, closed s3 x <-> closed s2 x \/ x = c) as Hcl.
  { intros x. unfold closed. rewrite Hp3, Hp2, Eo. simpl. split.
    - intros (Hx & Hox & _). destruct (decide (x = c)) as [|Hne]; [by right|left].
      split_and!; [done| |done]. intros [->|]%elem_of_cons; done.
    - intros [(Hx & Hox & _)| ->]; [|by split_and!]. split_and!; [done| |done]. intros Hin. apply Hox. by right. }
  assert (later s2 s3) as Hl23 by (intros x Hx; split; [apply Hcl; by left|done]).
  assert (typ (ds_choices s3) c = Some (HCF_CHOICE (f []))) as Htc.
  { apply (sp_top _ _ _ _ Hst); [by rewrite (op_open _ _ _ _ Hop)|apply Hop]. }
  assert (later s s3) as Hl.
  { apply (later_trans _ s2); [|done]. apply (later_trans _ s1); [|apply Hst].
    intros x Hx. split; [by apply Hop|by apply Hop]. }
  assert (forall t, t ∈ open_ s -> typ (ds_choices s3) t = typ (ds_choices s1) t) as Hrest.
  { intros t Ht. apply (sp_rest _ _ _ _ Hst). by rewrite (op_open _ _ _ _ Hop). }
  split_and!; [|apply Hcl; by right|done..]. split; try done.
  - assert (ready n s3) as Hr3; [|done]. apply (ready_more n s2); try done.
    + by rewrite Hp3.
    + intros x t' [Hx| ->]%Hcl Et; [by left|right]. rewrite Htc in Et. injection Et as <-. split; [done|]. simpl.
      apply Forall_concat. eapply list.Forall_impl; [exact Hseqs|]. intros items Hi.
      eapply list.Forall_impl; [exact Hi|]. intros y Hy. by apply Hcl.
  - intros t seqs Hh Es. rewrite Hrest by (by apply head_Some_elem_of). by apply Hop.
  - intros t Ht. rewrite Hrest; [by apply (op_rest _ _ _ _ Hop)|]. destruct (open_ s); [by apply not_elem_of_nil in Ht|by right].
  - intros a Ha. simpl. rewrite (sp_frame _ _ _ _ Hst) by done. by rewrite (op_parsers _ _ _ _ Hop).
Qed.

Lemma top_step n f s s' t rest seqs :
  ready n s -> prealloc s = None -> open_ s = t :: rest -> typ (ds_choices s) t = Some (HCF_CHOICE seqs) ->
  typed t (HCF_CHOICE (f seqs)) s s' -> step n f s s'.
Proof.
  intros Hr Hp Ho Et Hty. pose proof (fun x => typed_closed _ _ _ _ x Hty) as Hcl.
  destruct (re_open _ _ Hr) as [Hnd Hlt]. rewrite Ho in Hnd. apply list.NoDup_cons in Hnd as [Hnin _].
  assert (later s s') as Hl.
  { intros x Hx. split; [by apply Hcl|]. rewrite (ty_typ _ _ _ _ Hty), decide_False; [done|].
    intros ->. destruct Hx as (_ & Hx & _). apply Hx. rewrite Ho. by left. }
  split; try apply Hty; try done.
  - apply (ready_more n s); try done; [apply Hty|..].
    + rewrite (ty_open _ _ _ _ Hty), (ty_size _ _ _ _ Hty). apply Hr.
    + rewrite (ty_pre _ _ _ _ Hty), Hp. done.
    + intros x t' Hx%Hcl _. by left.
  - by rewrite (ty_pre _ _ _ _ Hty).
  - intros t' seqs' Hh Es. rewrite Ho in Hh. injection Hh as <-.
    rewrite (ty_typ _ _ _ _ Hty), decide_True by done. congruence.
  - intros t' Ht'. rewrite (ty_typ _ _ _ _ Hty), decide_False; [done|]. intros ->. by rewrite Ho in Ht'.
  - intros a _. by rewrite (ty_parsers _ _ _ _ Hty).
Qed.

(** * What the operations describe *)

Definition add_items (l : list (list nat)) (items : list nat) : list (list nat) := foldl add_to_last l items.

Lemma add_items_last l items new : add_items (l ++ [items]) new = l ++ [items ++ new].
Proof.
  revert items. induction new as [|c new IH]; intros items; cbn [add_items foldl]; [by rewrite app_nil_r|].
  assert (add_to_last (l ++ [items]) c = l ++ [items ++ [c]]) as ->.
  { clear. induction l as [|x l IH]; [done|]. cbn. rewrite IH. by destruct l. }
  unfold add_items in IH. by rewrite IH, <- app_assoc.
Qed.

(** [m] adds items that derive [L] to the last sequence of the innermost open
    choice [t], and then the items [tl t]. *)
Definition appends (tl : nat -> list nat) (n : nat) (m : D unit) (L : language) : Prop :=
  forall s t rest, ready n s -> open_ s = t :: rest -> prealloc s = None -> top_ok s ->
  exists s' new, m s = Ok (tt, s') /\ step n (fun l => add_items l (new ++ tl t)) s s' /\
    Forall (closed s') new /\ derives_seq (ds_choices s') new ≡ₗ L.
Abbreviation items := (appends (fun _ => [])).

(** [m] adds sequences that derive the strings of [L] to it. *)
Definition adds (n : nat) (m : D unit) (L : language) : Prop :=
  forall s t rest seqs, ready n s -> open_ s = t :: rest -> prealloc s = None ->
  typ (ds_choices s) t = Some (HCF_CHOICE seqs) ->
  exists s' new, m s = Ok (tt, s') /\ step n (fun l => l ++ new) s s' /\ Forall (Forall (closed s')) new /\
    forall w, (exists its, its ∈ new /\ derives_seq (ds_choices s') its w) <-> L w.

(** [m] makes a choice that derives [L], the preallocated one if there is one. *)
Definition makes (n : nat) (m : D unit) (L : language) : Prop :=
  forall s, ready n s -> top_ok s ->
  exists s' c, m s = Ok (tt, s') /\ step n (fun l => add_to_last l c) s s' /\ closed s' c /\
    (forall c0, prealloc s = Some c0 -> c = c0) /\ derives (ds_choices s') c ≡ₗ L.

Lemma step_ext n f g s s' : (forall l, f l = g l) -> step n f s s' -> step n g s s'.
Proof. intros Hf []. split; try done. intros t seqs Ht Es. rewrite <- Hf. by apply sp_top0. Qed.

Lemma forall_later s s' l : later s s' -> Forall (closed s) l -> Forall (closed s') l.
Proof. intros Hl H. eapply list.Forall_impl; [exact H|]. intros c Hc. by apply Hl. Qed.

Lemma derives_seq_cat h l1 l2 : derives_seq h (l1 ++ l2) ≡ₗ l_cat (derives_seq h l1) (derives_seq h l2).
Proof.
  intros w. revert w. induction l1 as [|c l1 IH]; intros w; cbn [app].
  - split; [intros H; exists [], w; by repeat constructor|].
    by intros (u & v & -> & ->%derives_nil_inv & Hv).
  - split.
    + intros (w1 & w2 & -> & H1 & (u & v & -> & Hu & Hv)%IH)%derives_seq_inv. exists (w1 ++ u), v.
      rewrite app_assoc. split_and!; [done|by constructor|done].
    + intros (u & v & -> & (u1 & u2 & -> & H1 & H2)%derives_seq_inv & Hv). rewrite <- app_assoc.
      constructor; [done|]. apply IH. by exists u2, v.
Qed.

Lemma add_items_nonempty l its : l <> [] -> add_items l its <> [].
Proof.
  revert l. induction its as [|c its IH]; intros l Hl; [done|]. apply IH. destruct l as [|x [|y l]]; done.
Qed.

Lemma step_top_ok n f s s' : step n f s s' -> (forall l, l <> [] -> f l <> []) -> top_ok s -> top_ok s'.
Proof.
  intros HS Hf Ht t Hh. rewrite (sp_open _ _ _ _ HS) in Hh. destruct (Ht t Hh) as (seqs & Es & Hne).
  exists (f seqs). split; [by apply HS|by apply Hf].
Qed.

Lemma items_then tl n m k L M :
  items n m L -> appends tl n k M -> appends tl n (_ ← m; k) (l_cat L M).
Proof.
  intros Hm Hk s t rest Hr Ho Hp Ht.
  destruct (Hm s t rest Hr Ho Hp Ht) as (s1 & new1 & H1 & S1 & C1 & D1).
  pose proof (sp_ready _ _ _ _ S1) as Hr1.
  assert (top_ok s1) as Ht1 by (eapply step_top_ok; [done|by intros; apply add_items_nonempty|done]).
  destruct (Hk s1 t rest Hr1 ltac:(rewrite (sp_open _ _ _ _ S1); exact Ho) (sp_pre _ _ _ _ S1) Ht1)
    as (s2 & new2 & H2 & S2 & C2 & D2).
  exists s2, (new1 ++ new2). split_and!.
  - by eapply ST_bind_eq.
  - eapply step_ext; [|by eapply step_trans]. intros l. unfold add_items.
    by rewrite app_nil_r, <- foldl_app, app_assoc.
  - apply Forall_app. split; [|done]. by apply (forall_later s1); [apply S2|].
  - etrans; [apply derives_seq_cat|]. apply l_cat_proper; [|done].
    etrans; [by eapply later_derives_seq; [| apply S2|]|done].
Qed.

Lemma appends_eq tl n m L M : appends tl n m L -> L ≡ₗ M -> appends tl n m M.
Proof.
  intros Hm HL s t rest Hr Ho Hp Ht. destruct (Hm s t rest Hr Ho Hp Ht) as (s' & new & H & HS & HC & HD).
  exists s', new. split_and!; [done..|by etrans].
Qed.

Lemma derives_seq_nil h : derives_seq h [] ≡ₗ l_empty.
Proof. intros w. split; [apply derives_nil_inv|intros ->; constructor]. Qed.

Lemma items_ret n : items n (mret tt) l_empty.
Proof.
  intros s t rest Hr Ho Hp Ht. exists s, []. split_and!; [done| |constructor|apply derives_seq_nil].
  by apply step_refl.
Qed.

Lemma items_each {A} n (f : A -> D unit) (Lf : A -> language) l :
  (forall a, a ∈ l -> items n (f a) (Lf a)) -> items n (each f l) (l_cats (Lf <$> l)).
Proof.
  induction l as [|a l IH]; intros Hf; [apply items_ret|]. cbn [each fmap list_fmap l_cats].
  apply items_then; [apply Hf; by left|]. apply IH. intros b Hb. apply Hf. by right.
Qed.

Lemma items_one n c s s' L :
  step n (fun l => add_to_last l c) s s' -> closed s' c -> derives (ds_choices s') c ≡ₗ L ->
  exists new, step n (fun l => add_items l (new ++ [])) s s' /\ Forall (closed s') new /\
    derives_seq (ds_choices s') new ≡ₗ L.
Proof.
  intros HS HC HD. exists [c]. split_and!; [done|by constructor|]. intros w. rewrite <- (HD w).
  split; [|apply derives_one].
  intros (w1 & w2 & -> & H1 & ->%derives_nil_inv)%derives_seq_inv. by rewrite app_nil_r.
Qed.

Lemma items_makes n m L : makes n m L -> items n m L.
Proof.
  intros Hm s t rest Hr Ho Hp Ht. destruct (Hm s Hr Ht) as (s' & c & H & HS & HC & _ & HD).
  exists s'. destruct (items_one n c s s' L HS HC HD) as (new & ?). by exists new.
Qed.

Lemma add_to_seq_step n item s t rest :
  ready n s -> open_ s = t :: rest -> prealloc s = None -> top_ok s ->
  exists s', h_cfstack_add_to_seq item s = Ok (tt, s') /\ step n (fun l => add_to_last l item) s s' /\
    ds_parsers s' = ds_parsers s.
Proof.
  intros Hr Ho Hp Ht. destruct (add_to_seq_runs_ok item s t rest Ho Ht) as (s' & H). exists s'. split; [done|].
  apply add_to_seq_ok in H as (t' & rest' & seqs & E1 & E2 & E3). split; [by eapply top_step|apply E3].
Qed.

Lemma this_choice_eq {A} s t rest (k : nat -> D A) r :
  open_ s = t :: rest -> k t s = r -> (c ← this_choice; k c) s = r.
Proof. intros Ho Hk. eapply ST_bind_eq; [|exact Hk]. unfold this_choice. by rewrite Ho. Qed.

(** The choice that refers to itself. *)
Lemma appends_self n : appends (fun t => [t]) n (c ← this_choice; h_cfstack_add_to_seq c) l_empty.
Proof.
  intros s t rest Hr Ho Hp Ht. destruct (add_to_seq_step n t s t rest Hr Ho Hp Ht) as (s' & H & S & _).
  exists s', []. split_and!; [by eapply this_choice_eq|done|constructor|apply derives_seq_nil].
Qed.

(** ** Sequences and choices *)

Lemma adds_bind n m k L M : adds n m L -> adds n k M -> adds n (_ ← m; k) (l_or L M).
Proof.
  intros Hm Hk s t rest seqs Hr Ho Hp Ht.
  destruct (Hm s t rest seqs Hr Ho Hp Ht) as (s1 & new1 & H1 & S1 & C1 & D1).
  assert (typ (ds_choices s1) t = Some (HCF_CHOICE (seqs ++ new1))) as Ht1.
  { apply (sp_top _ _ _ _ S1); [by rewrite Ho|done]. }
  pose proof (sp_ready _ _ _ _ S1) as Hr1.
  destruct (Hk s1 t rest _ Hr1 ltac:(rewrite (sp_open _ _ _ _ S1); exact Ho) (sp_pre _ _ _ _ S1) Ht1)
    as (s2 & new2 & H2 & S2 & C2 & D2).
  assert (forall its, its ∈ new1 -> derives_seq (ds_choices s2) its ≡ₗ derives_seq (ds_choices s1) its) as Hd.
  { intros its Hi. eapply later_derives_seq; [done|apply S2|]. by eapply list.Forall_forall in C1. }
  exists s2, (new1 ++ new2). split_and!.
  - by eapply ST_bind_eq.
  - eapply step_ext; [|by eapply step_trans]. intros l. by rewrite app_assoc.
  - apply Forall_app. split; [|done]. eapply list.Forall_impl; [exact C1|]. intros its Hi.
    by apply (forall_later s1); [apply S2|].
  - intros w. unfold l_or. rewrite <- (D1 w), <- (D2 w). split.
    + intros (its & [Hi|Hi]%elem_of_app & Hw); [left|right]; exists its; (split; [done|]); [by apply Hd|done].
    + intros [(its & Hi & Hw)|(its & Hi & Hw)]; exists its; (split; [apply elem_of_app; auto|]); [by apply Hd|done].
Qed.

Lemma adds_eq n m L M : adds n m L -> L ≡ₗ M -> adds n m M.
Proof.
  intros Hm HL s t rest seqs Hr Ho Hp Ht. destruct (Hm s t rest seqs Hr Ho Hp Ht) as (s' & new & H & HS & HC & HD).
  exists s', new. split_and!; [done..|]. intros w. etrans; [apply HD|apply HL].
Qed.

(** Changes that leave the types alone. *)
Definition neutral (m : D unit) : Prop :=
  forall s t rest, open_ s = t :: rest -> exists s', m s = Ok (tt, s') /\
    ds_parsers s' = ds_parsers s /\ ds_stk s' = ds_stk s /\
    size s' = size s /\ forall x, typ (ds_choices s') x = typ (ds_choices s) x.

Lemma neutral_step n s s' :
  ready n s -> prealloc s = None -> ds_parsers s' = ds_parsers s -> ds_stk s' = ds_stk s ->
  size s' = size s -> (forall x, typ (ds_choices s') x = typ (ds_choices s) x) -> step n (fun l => l) s s'.
Proof.
  intros Hr Hp E1 E2 E3 E4.
  assert (forall x, closed s' x <-> closed s x) as Hcl by (intros x; unfold closed; by rewrite E2, E3).
  assert (later s s') as Hl by (intros x Hx; by rewrite Hcl, E4).
  split; rewrite ?E2; try done.
  - apply (ready_more n s); try done; rewrite ?E2, ?E3;
      [apply (re_open _ _ Hr)|apply (re_pre _ _ Hr)|]. intros c t Hc%Hcl _. by left.
  - intros t seqs _. by rewrite E4.
  - intros a _. by rewrite E1.
Qed.

Lemma adds_neutral n m : neutral m -> adds n m l_none.
Proof.
  intros Hm s t rest seqs Hr Ho Hp _. destruct (Hm s t rest Ho) as (s' & H & E1 & E2 & E3 & E4).
  exists s', []. split_and!; [done| |constructor|].
  - eapply step_ext; [|by eapply neutral_step]. intros l. by rewrite app_nil_r.
  - intros w. split; [by intros (its & Hi%not_elem_of_nil & _)|done].
Qed.

Lemma neutral_ret : neutral (mret tt).
Proof. intros s t rest Ho. by exists s. Qed.
Lemma neutral_bind m k : neutral m -> neutral k -> neutral (_ ← m; k).
Proof.
  intros Hm Hk s t rest Ho. destruct (Hm s t rest Ho) as (s1 & H1 & ? & E1 & ? & T1).
  destruct (Hk s1 t rest ltac:(rewrite E1; exact Ho)) as (s2 & H2 & ? & E2 & ? & T2).
  exists s2. split_and!; [by eapply ST_bind_eq|congruence..|]. intros x. by rewrite T2.
Qed.
Lemma neutral_update c f : keeps_type f -> neutral (update_choice c f).
Proof.
  intros Hf s t rest Ho. eexists. split_and!; [done..|apply length_alter|]. intros x. by apply typ_keep.
Qed.
Lemma neutral_this (k : nat -> D unit) : (forall c, neutral (k c)) -> neutral (c ← this_choice; k c).
Proof.
  intros Hk s t rest Ho. destruct (Hk t s t rest Ho) as (s' & H & ?). exists s'. split; [|done].
  by eapply this_choice_eq.
Qed.
Lemma neutral_update_this f : keeps_type f -> neutral (update_this f).
Proof. intros Hf. apply neutral_this. intros c. by apply neutral_update. Qed.

(** The last change to a choice is to what is made of its results. *)
Lemma adds_then n m k L : adds n m L -> neutral k -> adds n (_ ← m; k) L.
Proof. intros Hm Hk. eapply adds_eq; [by apply adds_bind, adds_neutral|apply l_or_none_r]. Qed.

Lemma begin_seq_step n s t rest seqs :
  ready n s -> open_ s = t :: rest -> prealloc s = None -> typ (ds_choices s) t = Some (HCF_CHOICE seqs) ->
  exists s', h_cfstack_begin_seq s = Ok (tt, s') /\ step n (fun l => l ++ [[]]) s s' /\ top_ok s'.
Proof.
  intros Hr Ho Hp Et. pose proof (typ_lt _ _ _ Et) as Hlt.
  pose proof Et as (ch & Ech & Ec)%fmap_Some.
  set (s' := mkDState (ds_parsers s) (alter (set_type (HCF_CHOICE (seqs ++ [[]]))) t (ds_choices s)) (ds_stk s)).
  assert (typed t (HCF_CHOICE (seqs ++ [[]])) s s') as Hty.
  { split; try done; [apply length_alter|]. intros x. by apply typ_set. }
  exists s'. split_and!.
  - eapply this_choice_eq; [done|]. eapply ST_bind_eq; [unfold load_choice; by rewrite Ech|]. cbn beta. by rewrite <- Ec.
  - by eapply (top_step n (fun l => l ++ [[]])).
  - intros t' Ht'. rewrite (ty_open _ _ _ _ Hty), Ho in Ht'. injection Ht' as <-. exists (seqs ++ [[]]).
    split; [by rewrite (ty_typ _ _ _ _ Hty), decide_True|]. by destruct seqs.
Qed.

(** A sequence, and what it ends with. *)
Lemma seq_appends tl n m L s t rest seqs :
  appends tl n m L -> ready n s -> open_ s = t :: rest -> prealloc s = None ->
  typ (ds_choices s) t = Some (HCF_CHOICE seqs) ->
  exists s' new, seq_ m s = Ok (tt, s') /\ step n (fun l => l ++ [new ++ tl t]) s s' /\ Forall (closed s') new /\
    derives_seq (ds_choices s') new ≡ₗ L.
Proof.
  intros Hm Hr Ho Hp Et. destruct (begin_seq_step n s t rest seqs Hr Ho Hp Et) as (s1 & H1 & S1 & Ht1).
  destruct (Hm s1 t rest (sp_ready _ _ _ _ S1) ltac:(rewrite (sp_open _ _ _ _ S1); exact Ho) (sp_pre _ _ _ _ S1) Ht1)
    as (s2 & new & H2 & S2 & C2 & D2).
  exists s2, new. split_and!; [by eapply ST_bind_eq| |done..].
  eapply step_ext; [|by eapply step_trans]. intros l. apply (add_items_last l []).
Qed.

Lemma adds_seq n m L : items n m L -> adds n (seq_ m) L.
Proof.
  intros Hm s t rest seqs Hr Ho Hp Et.
  destruct (seq_appends _ _ _ _ _ _ _ _ Hm Hr Ho Hp Et) as (s' & new & H & S & C & HD).
  exists s', [new]. split_and!; [done|by rewrite app_nil_r in S|by constructor|]. intros w. rewrite <- (HD w). split.
  - intros (its & ->%list_elem_of_singleton & Hw). done.
  - intros Hw. exists new. split; [by left|done].
Qed.

Lemma end_choice_eq s c rest :
  open_ s = c :: rest -> exists s', h_cfstack_end_choice s = Ok (tt, s').
Proof. intros Ho. eexists. eapply ST_bind_eq; [done|]. cbn beta. by rewrite Ho. Qed.

Lemma makes_choice n m L : adds n m L -> makes n (choice_ m) L.
Proof.
  intros Hm s Hr Ht. destruct (begin_choice_runs_ok n s Hr Ht) as (s1 & H1).
  destruct (begin_choice_opened _ _ _ Hr H1) as (c & Hop).
  destruct (Hm s1 c _ [] (op_ready _ _ _ _ Hop) (op_open _ _ _ _ Hop) (op_pre _ _ _ _ Hop) (op_new _ _ _ _ Hop))
    as (s2 & new & H2 & S2 & C2 & D2).
  destruct (end_choice_eq s2 c (open_ s)) as (s3 & H3); [by rewrite (sp_open _ _ _ _ S2), (op_open _ _ _ _ Hop)|].
  destruct (choice_step _ _ _ _ _ _ _ Hr Hop S2 H3) as (S3 & C3 & E3 & _ & T3).
  { eapply list.Forall_impl; [exact C2|]. intros its Hi. eapply list.Forall_impl; [exact Hi|]. by left. }
  exists s3, c. split_and!; [|done..|apply Hop|].
  { eapply ST_bind_eq; [exact H1|]. by eapply ST_bind_eq. }
  intros w. rewrite <- (D2 w), <- E3. simpl in T3.
  unfold typ in T3. apply fmap_Some in T3 as (ch & Ech & Et). split.
  - intros Hw. pose proof (derives_inv _ _ _ _ Hw Ech) as Hi. by rewrite <- Et in Hi.
  - intros (its & Hi & Hw). by eapply derives_choice.
Qed.

(** The choice of a sequence that ends with the choice itself, or of nothing. *)
Lemma star_derives h c new L :
  typ h c = Some (HCF_CHOICE [new ++ [c]; []]) -> derives_seq h new ≡ₗ L -> derives h c ≡ₗ l_star L.
Proof.
  intros (ch & Ech & Et)%fmap_Some HL w. split.
  - assert (forall x v, derives h x v -> c = x -> l_star L v) as Hgo; [|intros Hd; by eapply Hgo].
    apply (derives_mut h (fun x w => c = x -> l_star L w)
      (fun l w => forall pre, l = pre ++ [c] -> exists u v, w = u ++ v /\ derives_seq h pre u /\ l_star L v)).
    1-3: intros; subst; simplify_eq; congruence.
    + intros x ch' seqs its v0 Ex Et' Hi Hd IH <-. simplify_eq. rewrite Et' in Et. injection Et as <-.
      apply elem_of_cons in Hi as [-> |Hi].
      * destruct (IH new eq_refl) as (u & v & -> & Hu & Hv). constructor; [by apply HL|done].
      * apply list_elem_of_singleton in Hi as ->. apply derives_nil_inv in Hd as ->. constructor.
    + intros [|y pre] E; discriminate E.
    + intros x its w1 w2 Hd1 IH1 Hd2 IH2 [|y pre] E; injection E as -> E.
      * subst its. apply derives_nil_inv in Hd2 as ->. exists [], w1. rewrite app_nil_r.
        split_and!; [done|constructor|by apply IH1].
      * destruct (IH2 pre E) as (u & v & -> & Hu & Hv). exists (w1 ++ u), v. rewrite app_assoc.
        split_and!; [done|by constructor|done].
  - induction 1 as [|u v Hu _ IH].
    + eapply derives_choice; [done..|right; by left|constructor].
    + eapply derives_choice; [done..|by left|]. apply derives_seq_cat. exists u, v.
      split_and!; [done|by apply HL|by apply derives_one].
Qed.

Lemma makes_star n m L :
  appends (fun t => [t]) n m L -> makes n (choice_ (_ ← seq_ m; seq_ (mret tt))) (l_star L).
Proof.
  intros Hm s Hr Ht. destruct (begin_choice_runs_ok n s Hr Ht) as (s1 & H1).
  destruct (begin_choice_opened _ _ _ Hr H1) as (c & Hop). pose proof (op_open _ _ _ _ Hop) as Ho.
  destruct (seq_appends _ _ _ _ _ _ _ _ Hm (op_ready _ _ _ _ Hop) Ho (op_pre _ _ _ _ Hop) (op_new _ _ _ _ Hop))
    as (s2 & new & H2 & S2 & C2 & D2).
  pose proof (sp_ready _ _ _ _ S2) as Hr2.
  assert (open_ s2 = c :: open_ s) as Ho2 by (rewrite (sp_open _ _ _ _ S2); exact Ho).
  destruct (begin_seq_step n s2 c _ ([] ++ [new ++ [c]]) Hr2 Ho2 (sp_pre _ _ _ _ S2)) as (s3 & H3 & S3 & _).
  { apply (sp_top _ _ _ _ S2); [by rewrite Ho|apply Hop]. }
  destruct (end_choice_eq s3 c (open_ s)) as (s4 & H4); [by rewrite (sp_open _ _ _ _ S3)|].
  destruct (choice_step _ _ _ _ _ _ _ Hr Hop (step_trans _ _ _ _ _ _ S2 S3) H4) as (S4 & C4 & E4 & _ & T4).
  { cbn. repeat constructor. apply Forall_app. split; [|constructor; [by right|done]].
    eapply list.Forall_impl; [exact C2|]. intros x Hx. left. by apply (sp_later _ _ _ _ S3). }
  exists s4, c. split_and!; [|done..|apply Hop|].
  { eapply ST_bind_eq; [exact H1|]. eapply ST_bind_eq; [|exact H4]. eapply ST_bind_eq; [exact H2|].
    by eapply ST_bind_eq. }
  apply (star_derives _ _ new); [done|]. rewrite E4.
  etrans; [by eapply later_derives_seq; [|apply S3|]|done].
Qed.

(** ** Leaves *)

Lemma makes_leaf n t L :
  refs t = [] -> t <> CF_freed -> (forall h c, typ h c = Some t -> derives h c ≡ₗ L) -> makes n (add_leaf t) L.
Proof.
  intros Ht Hne HL s Hr Htop. destruct (new_choice_raw_runs_ok n s Hr Htop) as (c & s1 & H1).
  pose proof (new_choice_raw_made n s c s1 Hr H1) as Hm.
  set (s3 := mkDState (ds_parsers s1) (alter (set_type t) c (ds_choices s1))
    (mkCFStack (open_ s1) (Some c) (prealloc s1))).
  assert (typed c t s1 s3) as Hty.
  { split; try done; [apply length_alter|]. intros x. apply typ_set. by eapply made_lt. }
  destruct (leaf_step n c t s s1 s3 Hr Hm Hty Ht Hne) as [S C].
  exists s3, c. split_and!; [|done..|apply Hm|].
  - eapply ST_bind_eq; [exact H1|]. by eapply ST_bind_eq.
  - apply HL. rewrite (ty_typ _ _ _ _ Hty). by rewrite decide_True.
Qed.

Lemma makes_char n x : makes n (h_cfstack_add_char x) (l_char (fun y => y = x)).
Proof.
  apply makes_leaf; [done..|]. intros h c (ch & Ech & Et)%fmap_Some w. split.
  - intros Hd. pose proof (derives_inv _ _ _ _ Hd Ech) as Hi. rewrite <- Et in Hi. by exists x.
  - intros (y & -> & ->). by eapply derives_char.
Qed.

Lemma makes_charset n cs (P : Z -> Prop) :
  (forall x, any_byte x /\ charset_isset cs x = Ok true <-> P x) ->
  makes n (h_cfstack_add_charset cs) (l_char P).
Proof.
  intros HP. apply makes_leaf; [done..|]. intros h c (ch & Ech & Et)%fmap_Some w. split.
  - intros Hd. pose proof (derives_inv _ _ _ _ Hd Ech) as Hi. rewrite <- Et in Hi.
    destruct Hi as (x & -> & Hx). exists x. split; [done|]. by apply HP.
  - intros (x & -> & [Hx Hi]%HP). by eapply derives_charset.
Qed.

Lemma makes_end n : makes n h_cfstack_add_end (fun w => w = [Sym_end]).
Proof.
  apply makes_leaf; [done..|]. intros h c (ch & Ech & Et)%fmap_Some w. split.
  - intros Hd. pose proof (derives_inv _ _ _ _ Hd Ech) as Hi. by rewrite <- Et in Hi.
  - intros ->. by eapply derives_end.
Qed.

Lemma makes_lift {A} n (o : outcome A) (k : A -> D unit) L :
  (exists a, o = Ok a /\ makes n (k a) L) -> makes n (lift o ≫= k) L.
Proof.
  intros (a & -> & Hk) s Hr Ht. destruct (Hk s Hr Ht) as (s' & c & H & Hc). exists s', c. split; [|done].
  by eapply ST_bind_eq.
Qed.

(** The charsets of the desugar functions. *)
Lemma new_charset_mem x : charset_mem new_charset x = false.
Proof.
  unfold charset_mem. destruct (new_charset !! Z.to_nat (x / 32)) as [w|] eqn:E; [|apply Z.bits_0].
  apply lookup_replicate in E as [-> _]. apply Z.bits_0.
Qed.

Lemma set_all_isset poss :
  Forall (fun c => 0 <= c < 256) poss ->
  exists cs, charset_set_all new_charset poss (fun _ => 1) = Ok cs /\
    forall x, any_byte x /\ charset_isset cs x = Ok true <-> x ∈ poss.
Proof.
  intros Hp. destruct (charset_set_all_ok poss new_charset (fun _ => 1) new_charset_wf Hp) as (cs & E & Hw & H1 & H2).
  exists cs. split; [done|]. intros x. split.
  - intros [Hx Hi]. destruct (decide (x ∈ poss)) as [|Hn]; [done|].
    rewrite charset_isset_mem, (H2 _ Hx Hn) in Hi by done. by rewrite new_charset_mem in Hi.
  - intros Hx. assert (any_byte x) as Hb by (exact (proj1 (list.Forall_forall _ _) Hp _ Hx)). split; [done|].
    by rewrite charset_isset_mem, (H1 _ Hb Hx).
Qed.

Lemma all_chars_elem x : x ∈ all_chars <-> any_byte x.
Proof.
  split; [apply (proj1 (list.Forall_forall _ _) all_chars_range)|]. intros Hx. unfold all_chars.
  apply list_elem_of_fmap. exists (Z.to_nat x). unfold any_byte in Hx. split; [lia|]. apply elem_of_seq. lia.
Qed.

Lemma range_loop_mem n : forall i cs,
  charset_wf cs -> 0 <= i -> i + Z.of_nat n <= 256 ->
  exists cs', range_loop n i cs = Ok cs' /\ charset_wf cs' /\ forall x, any_byte x ->
    charset_mem cs' x = bool_decide (i <= x < i + Z.of_nat n) || charset_mem cs x.
Proof.
  induction n as [|n IH]; intros i cs Hcs Hi Hn; cbn [range_loop].
  { exists cs. split_and!; [done..|]. intros x _. by rewrite bool_decide_eq_false_2 by lia. }
  assert (uint8 i = i) as Eu by (apply wrapu_small; change (2 ^ 8) with 256; lia). rewrite Eu.
  destruct (charset_set_ok cs i 1 Hcs) as (cs1 & E & Hw & Hm); [lia|].
  destruct (IH (i + 1) cs1 Hw) as (cs' & E' & Hw' & Hm'); [lia..|]. exists cs'. split_and!; [|done|].
  { rewrite E. exact E'. }
  intros x Hx. rewrite Hm', Hm by done. destruct (x =? i) eqn:Ex.
  - apply Z.eqb_eq in Ex as ->. rewrite (bool_decide_eq_true_2 (i <= i < _)) by lia. by rewrite orb_true_r.
  - apply Z.eqb_neq in Ex. f_equal. apply bool_decide_ext. lia.
Qed.

(** ** The desugar functions *)

Lemma adds_each {A} n (f : A -> D unit) (Lf : A -> language) l :
  (forall a, a ∈ l -> adds n (f a) (Lf a)) -> adds n (each f l) (l_ors (Lf <$> l)).
Proof.
  induction l as [|a l IH]; intros Hf; [apply adds_neutral, neutral_ret|]. cbn [each fmap list_fmap l_ors].
  apply adds_bind; [apply Hf; by left|]. apply IH. intros b Hb. apply Hf. by right.
Qed.

Lemma adds_empty n : adds n (seq_ (mret tt)) l_empty.
Proof. apply adds_seq, items_ret. Qed.

(** One sequence, and changes that are neutral. *)
Lemma makes_seq n m k L : items n m L -> neutral k -> makes n (choice_ (_ ← seq_ m; k)) L.
Proof. intros Hm Hk. apply makes_choice, adds_then; [by apply adds_seq|done]. Qed.

Ltac neutral :=
  repeat match goal with
  | |- neutral (mret _) => apply neutral_ret
  | |- neutral (update_this _) => apply neutral_update_this; by intros ?
  | |- neutral (update_choice _ _) => apply neutral_update; by intros ?
  | |- neutral (this_choice ≫= _) => apply neutral_this; intros ?
  | |- neutral (_ ≫= _) => apply neutral_bind
  | |- neutral (if ?b then _ else _) => destruct b
  end.

Section Functions.
Context (desugar : ptr -> D unit) (n : nat) (L : ptr -> language).
Context (Hd : forall p, sub n p -> items n (desugar p) (L p)).

Lemma items_all ps : Forall (sub n) ps -> items n (each desugar ps) (l_cats (L <$> ps)).
Proof. intros Hps. apply items_each. intros p Hp. apply Hd. by eapply list.Forall_forall in Hps. Qed.

Lemma desugar_bits_makes b :
  be_length b mod 8 = 0 -> makes n (desugar_bits b) (env_language L (bits_vt b)).
Proof.
  intros Hb. apply makes_lift. exists tt. split; [by rewrite Hb|]. apply makes_lift.
  destruct (set_all_isset all_chars all_chars_range) as (cs & E & Hcs). exists cs. split; [done|].
  apply makes_seq; [|neutral]. cbn [env_language].
  replace (replicate (Z.to_nat (be_length b / 8)) (l_char any_byte))
    with ((fun _ : nat => l_char any_byte) <$> seq 0 (Z.to_nat (be_length b / 8))).
  - apply items_each. intros i _. apply items_makes, makes_charset. intros x.
    rewrite Hcs. apply all_chars_elem.
  - generalize 0%nat. induction (Z.to_nat (be_length b / 8)) as [|m IH]; intros i; [done|]. simpl. by f_equal.
Qed.

Lemma token_language l : l_cats ((fun x => l_char (fun y => y = x)) <$> l) ≡ₗ (fun w => w = Sym <$> l).
Proof.
  induction l as [|x l IH]; intros w; [done|]. cbn. split.
  - intros (u & v & -> & (y & -> & ->) & ->%IH). done.
  - intros ->. exists [Sym x], (Sym <$> l). split_and!; [done|by exists x|by apply IH].
Qed.

Lemma desugar_token_makes t : makes n (desugar_token t) (env_language L (token_vt t)).
Proof.
  apply makes_seq; [|neutral]. eapply appends_eq; [|apply token_language].
  apply items_each. intros x _. apply items_makes, makes_char.
Qed.

Lemma desugar_optional_makes p : sub n p -> makes n (desugar_optional desugar p) (env_language L (optional_vt p)).
Proof.
  intros Hp. apply makes_choice. apply adds_bind; [by apply adds_seq, Hd|].
  apply adds_then; [apply adds_empty|neutral].
Qed.

Lemma desugar_choice_makes s :
  Forall (sub n) (sq_array s) -> makes n (desugar_choice desugar s) (env_language L (choice_vt s)).
Proof.
  intros Hps. apply makes_choice, adds_then; [|neutral]. apply adds_each. intros p Hp.
  apply adds_seq, Hd. by eapply list.Forall_forall in Hps.
Qed.

Lemma desugar_many_makes r :
  rp_min_p r = true -> rp_count r <= 1 ->
  Forall (sub n) (children (many_vt r)) -> makes n (desugar_many desugar r) (env_language L (many_vt r)).
Proof.
  intros Hmin Hcount [Hp Hs]%Forall_cons_1. unfold desugar_many. rewrite Hmin. cbn [negb].
  replace (1 <? rp_count r) with false by lia. apply makes_choice.
  assert (makes n (choice_ (
      _ ← seq_ (
            _ ← (match rp_sep r with None => mret tt | Some _ => desugar (rp_sep r) end);
            _ ← desugar (rp_p r);
            c ← this_choice; h_cfstack_add_to_seq c);
      seq_ (mret tt))) (l_star (more_language L r))) as Hm.
  { apply makes_star. unfold more_language. destruct (rp_sep r) as [a|].
    - eapply appends_eq.
      + apply items_then; [exact (Hd _ (Forall_inv Hs))|]. apply items_then; [by apply Hd|apply appends_self].
      + apply l_cat_proper; [done|apply l_cat_empty_r].
    - eapply appends_eq.
      + apply items_then; [apply items_ret|]. apply items_then; [by apply Hd|apply appends_self].
      + etrans; [apply l_cat_empty_l|apply l_cat_empty_r]. }
  cbn [env_language]. unfold many_language. eapply adds_eq.
  - apply adds_bind; [apply adds_seq, items_then; [by apply Hd|by apply items_makes]|].
    apply (adds_then _ _ _ (if rp_count r =? 0 then l_empty else l_none)); [|neutral].
    destruct (rp_count r =? 0); [apply adds_empty|apply adds_neutral, neutral_ret].
  - destruct (rp_count r =? 0); [done|apply l_or_none_r].
Qed.

Lemma desugar_whitespace_makes p :
  sub n p -> makes n (desugar_whitespace desugar p) (env_language L (whitespace_vt p)).
Proof.
  intros Hp. unfold desugar_whitespace. apply makes_lift.
  destruct (set_all_isset SPACE_CHRS) as (cs & E & Hcs).
  { unfold SPACE_CHRS. by repeat (constructor; [lia|]). }
  exists cs. split; [done|]. apply makes_seq; [|neutral].
  apply items_then; [|by apply Hd]. apply items_makes, makes_star.
  eapply appends_eq; [|apply l_cat_empty_r]. apply items_then; [|apply appends_self].
  by apply items_makes, makes_charset.
Qed.

Lemma desugar_int_range_makes r :
  supported st (int_range_vt r) -> makes n (desugar_int_range r) (env_language L (int_range_vt r)).
Proof.
  intros (Hlo & Hhi & a & q & b & Ea & Hq & Eb & Hb) s Hr Ht.
  assert (exists q', ds_parsers s !! a = Some q' /\ p_env q' = p_env q) as (q' & Hq' & Eq).
  { pose proof (f_equal (.!! a) (re_env _ _ Hr)) as E. rewrite !list_lookup_fmap, Hq in E. simpl in E.
    apply fmap_Some in E as (q' & Hq' & E). by exists q'. }
  assert (makes n (cs ← lift (range_charset (uint64 (rg_lower r)) (uint64 (rg_upper r)));
    h_cfstack_add_charset cs) (l_char (fun x => rg_lower r <= x <= rg_upper r))) as Hm.
  { assert (forall y, 0 <= y < 256 -> uint64 y = y) as Hu.
    { intros y Hy. apply wrapu_small. change (2 ^ 64) with 18446744073709551616. lia. }
    rewrite !Hu by lia. apply makes_lift. unfold range_charset.
    rewrite (proj2 (Z.eqb_neq (rg_upper r) (2 ^ 64 - 1))) by (change (2 ^ 64) with 18446744073709551616; lia).
    rewrite andb_false_r.
    destruct (range_loop_mem (Z.to_nat (rg_upper r - rg_lower r + 1)) (rg_lower r) new_charset new_charset_wf)
      as (cs & E & Hw & Hmem); [lia..|].
    exists cs. split; [done|]. apply makes_charset. intros x. split.
    - intros [Hx Hi]. rewrite charset_isset_mem, Hmem, new_charset_mem, orb_false_r in Hi by done.
      injection Hi as Hi%bool_decide_eq_true. lia.
    - intros Hx. assert (any_byte x) as Hxb by (unfold any_byte; lia). split; [done|].
      rewrite charset_isset_mem, Hmem, bool_decide_eq_true_2 by (done || lia). done. }
  destruct (Hm s Hr Ht) as (s' & c & H & Hc). exists s', c. split; [|done]. unfold desugar_int_range.
  eapply ST_bind_eq; [done|]. cbn beta. rewrite Ea. unfold parser_at. cbn [deref mbind outcome_bind].
  eapply ST_bind_eq; [by rewrite Hq'|]. cbn beta. rewrite Eq, Eb, Hb. exact H.
Qed.

Lemma desugar_ignoreseq_makes q :
  supported st (ignoreseq_vt q) -> Forall (sub n) (is_parsers q) ->
  makes n (desugar_ignoreseq desugar q) (env_language L (ignoreseq_vt q)).
Proof.
  intros Hw Hps. apply makes_seq; [by apply items_all|]. cbn [supported] in Hw.
  destruct (is_which q =? 0) eqn:E0; [neutral|]. destruct (is_which q =? 1) eqn:E1; [neutral|].
  destruct (is_which q =? uint64 (Z.of_nat (length (is_parsers q)) - 1)) eqn:E2; [neutral|]. lia.
Qed.

Lemma vt_desugar_makes e :
  supported st e -> Forall (sub n) (children e) ->
  exists run, vt_desugar desugar e = Some run /\ makes n run (env_language L e).
Proof.
  intros Hs He. destruct e; try done; cbn [vt_desugar]; eexists; (split; [reflexivity|]); cbn [children] in He.
  - by apply desugar_bits_makes.
  - apply makes_char.
  - by apply makes_charset.
  - apply desugar_token_makes.
  - apply makes_end.
  - apply makes_seq; [apply items_ret|neutral].
  - apply makes_choice, adds_neutral, neutral_ret.
  - apply desugar_optional_makes. exact (Forall_inv He).
  - apply makes_seq; [apply Hd; exact (Forall_inv He)|neutral].
  - apply desugar_whitespace_makes. exact (Forall_inv He).
  - apply makes_seq; [by apply items_all|neutral].
  - by apply desugar_choice_makes.
  - destruct Hs as [? []]. by apply desugar_many_makes.
  - by apply desugar_int_range_makes.
  - by apply desugar_ignoreseq_makes.
  - apply makes_seq; [apply Hd; exact (Forall_inv He)|neutral].
  - apply makes_seq; [apply Hd; exact (Forall_inv He)|neutral].
Qed.

End Functions.
(** ** h_desugar *)

Abbreviation lang := (parser_language st N).

(** The state in which the desugar function of the parser at [a] runs. *)
Definition memoised_at (a : nat) (s : dstate) : dstate :=
  mkDState (alter (fun q => mkParser (p_env q) (p_backend q) (p_backend_data q) (Some (size s))) a (ds_parsers s))
    (ds_choices s ++ [uninit_choice]) (mkCFStack (open_ s) (cs_last_completed (ds_stk s)) (Some (size s))).

Lemma memoised_at_ready n a s :
  ready n s -> (a < n)%nat -> prealloc s = None -> ready a (memoised_at a s) /\ later s (memoised_at a s).
Proof.
  intros Hr Ha Hp. set (s1 := memoised_at a s). assert (size s1 = S (size s)) as Hsz by (simpl; rewrite length_app; simpl; lia).
  assert (forall x, closed s1 x <-> closed s x) as Hcl.
  { intros x. unfold closed. rewrite Hsz, Hp. simpl. split; intros (H1 & H2 & H3); split_and!; try done; try lia.
    - destruct (decide (x = size s)) as [->|]; [by destruct H3|lia].
    - intros [= E]. lia. }
  assert (forall x, (x < size s)%nat -> typ (ds_choices s1) x = typ (ds_choices s) x) as Hty.
  { intros x Hx. unfold typ. simpl. by rewrite lookup_app_l. }
  assert (later s s1) as Hl by (intros x Hx; split; [by apply Hcl|apply Hty, Hx]).
  split; [|done]. split.
  - pose proof (re_le _ _ Hr). lia.
  - rewrite <- (re_env _ _ Hr). simpl. apply list_eq. intros b. rewrite !list_lookup_fmap.
    destruct (decide (b = a)) as [->|]; [|by rewrite list_lookup_alter_ne]. rewrite list_lookup_alter_eq.
    by destruct (ds_parsers s !! a).
  - destruct (re_open _ _ Hr) as [Hnd Hlt]. split; [done|]. rewrite Hsz.
    eapply list.Forall_impl; [exact Hlt|]. simpl. lia.
  - intros c [= <-]. rewrite Hsz. split; [lia|]. intros Hin.
    pose proof (proj1 (list.Forall_forall _ _) (proj2 (re_open _ _ Hr)) _ Hin). simpl in *. lia.
  - intros c t Hc%Hcl Et. rewrite (Hty c) in Et by apply Hc.
    destruct (re_types _ _ Hr c t Hc Et) as [Hne Hx]. split; [done|].
    eapply list.Forall_impl; [exact Hx|]. intros x Hc'. by apply Hcl.
  - intros b q c Hb Hdb Hq Hc. simpl in Hq. rewrite list_lookup_alter_ne in Hq by lia.
    destruct (re_memo _ _ Hr b q c ltac:(lia) Hdb Hq Hc) as [Hbc HD]. split; [by apply Hcl|].
    etrans; [by eapply later_derives|done].
Qed.

Lemma desugar_new_step n a q desugar s :
  ready n s -> (a < n)%nat -> desugarable a -> prealloc s = None -> top_ok s -> ds_parsers s !! a = Some q ->
  (forall p, sub a p -> items a (desugar p) (lang p)) ->
  exists run s', vt_desugar desugar (p_env q) = Some run /\ run (memoised_at a s) = Ok (tt, s') /\
    step n (fun l => add_to_last l (size s)) s s' /\ closed s' (size s) /\
    derives (ds_choices s') (size s) ≡ₗ lang (Some a) /\
    exists q', ds_parsers s' !! a = Some q' /\ p_desugared q' = Some (size s).
Proof.
  intros Hr Ha Hda Hp Ht Hq Hd. destruct (memoised_at_ready n a s Hr Ha Hp) as [Hr1 Hl1].
  set (s1 := memoised_at a s) in *. pose proof (re_le _ _ Hr) as Hn.
  assert (exists q0, st !! a = Some q0 /\ p_env q0 = p_env q) as (q0 & Hq0 & Eq0).
  { pose proof (f_equal (.!! a) (re_env _ _ Hr)) as E. rewrite !list_lookup_fmap, Hq in E. simpl in E.
    symmetry in E. apply fmap_Some in E as (q0 & Hq0 & E). by exists q0. }
  assert (supported st (p_env q) /\ Forall (sub a) (children (p_env q))) as [Hs Hch]
    by (rewrite <- Eq0; by apply desugarable_inv).
  assert (forall x, (x < size s)%nat -> typ (ds_choices s1) x = typ (ds_choices s) x) as Hty.
  { intros x Hx. unfold typ. simpl. by rewrite lookup_app_l. }
  assert (top_ok s1) as Ht1.
  { intros t Hh. destruct (Ht t Hh) as (seqs & Es & Hne). exists seqs. split; [|done].
    rewrite Hty; [done|]. by eapply typ_lt. }
  destruct (vt_desugar_makes desugar a lang Hd _ Hs Hch) as (run & Hrun & Hm).
  destruct (Hm s1 Hr1 Ht1) as (s' & c & H & S & C & Hpc & HD). exists run, s'.
  rewrite (Hpc (size s) eq_refl) in *. clear c Hpc.
  assert (later s s') as Hl by (eapply later_trans; [done|apply S]).
  assert (derives (ds_choices s') (size s) ≡ₗ lang (Some a)) as HL.
  { etrans; [exact HD|]. rewrite <- Eq0. symmetry. apply parser_language_eq; [lia|done..]. }
  assert (ds_parsers s' !! a = Some (mkParser (p_env q) (p_backend q) (p_backend_data q) (Some (size s)))) as Hqa.
  { rewrite (sp_frame _ _ _ _ S) by done. simpl. by rewrite list_lookup_alter_eq, Hq. }
  assert (forall b, (a < b)%nat -> ds_parsers s' !! b = ds_parsers s !! b) as Hframe.
  { intros b Hb. rewrite (sp_frame _ _ _ _ S) by lia. simpl. by rewrite list_lookup_alter_ne by lia. }
  assert (ready n s') as Hr'.
  { destruct (sp_ready _ _ _ _ S) as [_ He Ho Hpr Hrefs Hmemo]. split; try done.
    intros b qb c Hb Hdb Hqb Hc. destruct (lt_eq_lt_dec b a) as [[Hlt| ->]|Hgt].
    - by eapply Hmemo.
    - rewrite Hqa in Hqb. injection Hqb as <-. injection Hc as <-. split; [done|].
      etrans; [exact HL|apply parser_language_fuel; [lia..|done]].
    - rewrite Hframe in Hqb by done. destruct (re_memo _ _ Hr b qb c Hb Hdb Hqb Hc) as [Hbc HDb].
      split; [by apply Hl|]. etrans; [apply (later_derives n s s' c Hr Hl Hbc)|]. exact HDb. }
  assert (forall x, x ∈ open_ s -> (x < size s)%nat) as Hlt.
  { exact (proj1 (list.Forall_forall _ _) (proj2 (re_open _ _ Hr))). }
  split_and!; [done..| |done|done|by eexists]. split; try done; try apply S.
  - intros t seqs Hh Es. apply (sp_top _ _ _ _ S); [done|]. rewrite Hty; [done|]. by apply Hlt, head_Some_elem_of.
  - intros t Hin. rewrite (sp_rest _ _ _ _ S) by done. apply Hty, Hlt. destruct (open_ s); [by apply not_elem_of_nil in Hin|by right].
  - intros b Hb. apply Hframe. lia.
Qed.

(** A parser that has a choice already. *)
Lemma items_memoised n a q c s t rest :
  ready n s -> open_ s = t :: rest -> prealloc s = None -> top_ok s -> (a < n)%nat -> desugarable a ->
  ds_parsers s !! a = Some q -> p_desugared q = Some c ->
  exists s', h_cfstack_add_to_seq c s = Ok (tt, s') /\ step n (fun l => add_to_last l c) s s' /\
    ds_parsers s' = ds_parsers s /\ closed s' c /\ derives (ds_choices s') c ≡ₗ lang (Some a).
Proof.
  intros Hr Ho Hp Ht Ha Hda Hq Hc. destruct (add_to_seq_step n c s t rest Hr Ho Hp Ht) as (s' & H & S & Eps).
  exists s'. destruct (re_memo _ _ Hr a q c Ha Hda Hq Hc) as [Hcl HD]. pose proof (re_le _ _ Hr).
  split_and!; [done..|by apply S|].
  etrans; [apply (later_derives n s s' c Hr (sp_later _ _ _ _ S) Hcl)|].
  etrans; [exact HD|apply parser_language_fuel; [lia..|done]].
Qed.

Lemma parser_at_eq {A} s a q (k : list HParser -> HParser -> D A) r :
  ds_parsers s !! a = Some q -> k (ds_parsers s) q s = r ->
  (ps ← gets ds_parsers; q ← lift (parser_at ps (Some a)); k ps q) s = r.
Proof.
  intros Hq Hk. eapply ST_bind_eq; [done|]. cbn beta. eapply ST_bind_eq; [|exact Hk].
  unfold parser_at. cbn [deref mbind outcome_bind]. by rewrite Hq.
Qed.

(** The two cases of h_desugar. *)
Lemma h_desugar_memoised fuel (nested : bool) a q c s s' q' :
  ds_parsers s !! a = Some q -> p_desugared q = Some c ->
  (if nested then h_cfstack_add_to_seq c else mret tt) s = Ok (tt, s') -> ds_parsers s' !! a = Some q' ->
  h_desugar (S fuel) nested (Some a) s = Ok (p_desugared q', s').
Proof.
  intros Hq Hc H Hq'. cbn [h_desugar]. eapply ST_bind_eq; [done|]. cbn beta.
  eapply parser_at_eq; [done|]. cbn beta. eapply ST_bind_eq; [rewrite Hc; exact H|].
  by eapply parser_at_eq.
Qed.

Lemma h_desugar_new fuel (nested : bool) a q run s s' q' :
  ds_parsers s !! a = Some q -> p_desugared q = None -> prealloc s = None ->
  (nested = false -> ds_stk s = h_cfstack_new /\ prealloc s' = None) ->
  vt_desugar (fun p => _ ← h_desugar fuel true p; mret tt) (p_env q) = Some run ->
  run (memoised_at a s) = Ok (tt, s') -> ds_parsers s' !! a = Some q' ->
  h_desugar (S fuel) nested (Some a) s = Ok (p_desugared q', s').
Proof.
  intros Hq Hc Hp Hn Hrun H Hq'. cbn [h_desugar]. eapply ST_bind_eq; [done|]. cbn beta.
  eapply parser_at_eq; [done|]. cbn beta. rewrite Hc. eapply ST_bind_eq; [|by eapply parser_at_eq].
  eapply (ST_bind_eq _ _ _ tt s).
  { destruct nested; [done|]. destruct (Hn eq_refl) as [<- _]. by destruct s. }
  eapply ST_bind_eq; [done|]. cbn beta. rewrite Hp. eapply ST_bind_eq; [done|]. cbn beta.
  eapply ST_bind_eq; [by rewrite Hrun|]. eapply ST_bind_eq; [done|]. eapply ST_bind_eq; [exact H|].
  destruct nested; [done|]. destruct (Hn eq_refl) as [_ Hp']. unfold h_cfstack_free. by rewrite Hp'.
Qed.

Lemma h_desugar_items fuel : forall n p,
  sub n p -> sub fuel p -> items n (_ ← h_desugar fuel true p; mret tt) (lang p).
Proof.
  induction fuel as [|fuel IH]; intros n p (a & -> & Ha & Hda) (a' & [= <-] & Hf & _) s t rest Hr Ho Hpr Ht; [lia|].
  assert (exists q, ds_parsers s !! a = Some q) as (q & Hq).
  { apply desugarable_lookup in Hda as (q0 & Hq0). pose proof (f_equal (.!! a) (re_env _ _ Hr)) as E.
    rewrite !list_lookup_fmap, Hq0 in E. simpl in E. apply fmap_Some in E as (q & Hq & _). by exists q. }
  destruct (p_desugared q) as [c|] eqn:Hc.
  - destruct (items_memoised n a q c s t rest) as (s' & H & S & Eps & C & HD); [done..|].
    exists s'. destruct (items_one n c s s' _ S C HD) as (new & HS & Hnew). exists new. split; [|done].
    eapply ST_bind_eq; [|done]. eapply (h_desugar_memoised _ true); try done. by rewrite Eps.
  - destruct (desugar_new_step n a q (fun p => _ ← h_desugar fuel true p; mret tt) s Hr Ha Hda Hpr Ht Hq)
      as (run & s' & Hrun & H & S & C & HD & q' & Hq' & _).
    { intros p Hp. apply IH; [done|]. eapply sub_mono; [|done]. lia. }
    exists s'. destruct (items_one n _ s s' _ S C HD) as (new & HS & Hnew). exists new. split; [|done].
    eapply ST_bind_eq; [|done]. by eapply h_desugar_new.
Qed.

End Store.

(** * Properties *)

(** The parsers of [st] below [n] that have a choice of [h] have one for the
    language of the parser in the store [st0]. *)
Definition memoised (st0 st : list HParser) (h : list HCFChoice) (n : nat) : Prop :=
  forall a q c, (a < n)%nat -> desugarable st0 a -> st !! a = Some q -> p_desugared q = Some c ->
    (c < length h)%nat /\ derives h c ≡ₗ parser_language st0 (S a) (Some a).

Lemma start_ready st h n :
  grammar_wf h -> memoised st st h n -> ready st n n (mkDState st h h_cfstack_new).
Proof.
  intros Hh Hm. assert (forall x, closed (mkDState st h h_cfstack_new) x <-> (x < length h)%nat) as Hcl.
  { intros x. unfold closed. simpl. split; [tauto|]. intros Hx. split_and!; [done|apply not_elem_of_nil|done]. }
  split; simpl; try done; [by split; constructor| |].
  - intros c t Hc Et. apply fmap_Some in Et as (ch & Ech & ->).
    pose proof (proj1 (Forall_lookup _ _) Hh _ _ Ech) as Hw.
    unfold choice_wf in Hw. destruct (cf_type ch) as [|seqs| | | | |]; try done; (split; [done|]); try by constructor.
    simpl.
    apply Forall_concat. eapply list.Forall_impl; [exact Hw|]. intros its Hi.
    eapply list.Forall_impl; [exact Hi|]. intros x Hx. by apply Hcl.
  - intros a q c Ha Hda Hq Hc. rewrite Hcl. by apply (Hm a q c).
Qed.

Lemma ready_memoised st n s : ready st n n s -> cs_stack (ds_stk s) = [] -> memoised st (ds_parsers s) (ds_choices s) n.
Proof. intros Hr Ho a q c Ha Hda Hq Hc. destruct (re_memo _ _ _ _ Hr a q c Ha Hda Hq Hc) as [[Hx _] HD]. done. Qed.

(** At the end every choice is settled. *)
Lemma ready_none_freed st n s :
  ready st n n s -> cs_stack (ds_stk s) = [] /\ cs_prealloc (ds_stk s) = None -> none_freed (ds_choices s) = true.
Proof.
  intros Hr [Ho Hp]. apply forallb_forall. intros ch Hin%list_elem_of_In.
  apply list_elem_of_lookup in Hin as [c Hc]. apply bool_decide_eq_true. intros Et.
  destruct (re_types _ _ _ _ Hr c CF_freed) as [Hne _]; [| |done].
  - unfold closed. rewrite Ho, Hp. split_and!; [by eapply lookup_lt_Some|apply not_elem_of_nil|done].
  - unfold typ. by rewrite Hc, <- Et.
Qed.

(** Both cases at the top. *)
Lemma desugar_parser_ok fuel a st h :
  desugarable st a -> (a < fuel)%nat -> grammar_wf h -> memoised st st h (S a) ->
  exists x st' h', desugar_parser fuel (Some a) st h = Ok (Some x, st', h') /\
    derives h' x ≡ₗ parser_language st (S a) (Some a) /\ memoised st st' h' (S a) /\ none_freed h' = true.
Proof.
  intros Hda Hf Hh Hm. set (s := mkDState st h h_cfstack_new).
  pose proof (start_ready st h (S a) Hh Hm) as Hr. fold s in Hr.
  destruct fuel as [|fuel]; [lia|]. unfold desugar_parser. fold s.
  destruct (desugarable_lookup st a Hda) as [q Hq]. destruct (p_desugared q) as [c|] eqn:Hc.
  - exists c, st, h. rewrite (h_desugar_memoised fuel false a q c s s q) by done. rewrite Hc. split; [done|].
    split_and!; [apply (Hm a q c); [lia|done..]|done|exact (ready_none_freed _ _ s Hr (conj eq_refl eq_refl))].
  - destruct (desugar_new_step st (S a) (S a) a q (fun p => _ ← h_desugar fuel true p; mret tt) s Hr)
      as (run & s' & Hrun & H & S & _ & HD & q' & Hq' & Hc'); [lia|done..|by intros t [=]|done| |].
    { intros p Hp. apply (h_desugar_items st (S a) fuel a p Hp). eapply sub_mono; [|done]. lia. }
    exists (length h), (ds_parsers s'), (ds_choices s').
    rewrite (h_desugar_new fuel false a q run s s' q') by (done || (intros _; split; [done|apply S])).
    rewrite Hc'. split; [done|]. split; [exact HD|].
    assert (cs_stack (ds_stk s') = []) as Ho by (by rewrite (sp_open _ _ _ _ _ _ S)).
    split; [by apply ready_memoised; [apply S|]|].
    eapply ready_none_freed; [apply S|]. split; [done|apply S].
Qed.

(** The well-formedness of the result, from DesugarWf. *)
Lemma desugar_parser_grammar fuel p st h c st' h' :
  grammar_wf h -> parsers_ok (length h) st -> desugar_parser fuel p st h = Ok (c, st', h') ->
  none_freed h' = true ->
  h `prefix_of` h' /\ grammar_wf h' /\ parsers_ok (length h') st' /\ forall x, c = Some x -> (x < length h')%nat.
Proof.
  intros Hh Hst H Hf. assert (heap_ok h) as Hok by (eapply list.Forall_impl; [exact Hh|]; by left).
  apply outcome_bind_ok in H as ([c0 s] & H & E). injection E as <- <- <-.
  destruct (h_desugar_top_runs h fuel p _ (desugar_start h st Hok Hst) Hok eq_refl _ _ H)
    as (_ & [Hs Hc] & Hok').
  split_and!; [apply Hs|by apply heap_ok_grammar_wf|apply Hs|done].
Qed.

(** C1: Desugaring succeeds and preserves the language of a parser. For a parser
    of the store built from earlier parsers by the combinators that have a
    desugar function, without indirect parsers and with int_range over single
    bytes, and from well-formed choices where memoised results are right: with fuel for the depth of the graph h_desugar returns a choice that
    derives exactly the strings that the combinators describe (sequences
    concatenate, choices unite, many and sepBy iterate, whitespace is skipped).
    The choices that were there stay, all are well formed and none is freed, and
    the memoised results are right again. *)
Theorem desugar_parser_language fuel a st h :
  desugarable st a -> (a < fuel)%nat -> grammar_wf h -> parsers_ok (length h) st -> memoised st st h (S a) ->
  exists x st' h', desugar_parser fuel (Some a) st h = Ok (Some x, st', h') /\
    derives h' x ≡ₗ parser_language st (S a) (Some a) /\
    h `prefix_of` h' /\ grammar_wf h' /\ parsers_ok (length h') st' /\ memoised st st' h' (S a).
Proof.
  intros Hda Hf Hh Hst Hm.
  destruct (desugar_parser_ok fuel a st h Hda Hf Hh Hm) as (x & st' & h' & E & Hd & Hm' & Hfree).
  destruct (desugar_parser_grammar _ _ _ _ _ _ _ Hh Hst E Hfree) as (? & ? & ? & _).
  exists x, st', h'. by split_and!.
Qed.

(** * Witnesses *)

(** Numbers with commas in between, up to the end of the input. *)
Definition number_list : PM ptr :=
  d ← h_ch_range__m 48 57; m ← h_many1__m d; n ← h_whitespace__m m; c ← h_ch__m 44;
  l ← h_sepBy__m n c; e ← h_end_p__m; h_sequence__mv l [e; None].
Definition number_list_store : list HParser :=
  match number_list initial_store with Ok (_, st) => st | _ => [] end.

(** Decides [desugarable] of a concrete store. *)
Ltac desugarable_graph :=
  eapply desugarable_intro; [reflexivity|vm_compute; intuition congruence|];
  let p := fresh in let Hp := fresh in intros p Hp; cbv [children p_env sq_array rp_p rp_sep] in Hp;
  repeat (apply elem_of_cons in Hp as [-> |Hp]);
  try (by apply not_elem_of_nil in Hp);
  (eexists; split_and!; [reflexivity|lia|desugarable_graph]).

Lemma number_list_desugarable : desugarable number_list_store 7.
Proof. let st := eval vm_compute in number_list_store in change (desugarable st 7). desugarable_graph. Qed.

Lemma no_memo st n : Forall (fun q => p_desugared q = None) st -> memoised st st [] n.
Proof. intros Hn a q c _ _ Hq Hc. pose proof (proj1 (Forall_lookup _ _) Hn _ _ Hq) as E. simpl in E. congruence. Qed.

Lemma number_list_parsers_ok : parsers_ok 0 number_list_store.
Proof.
  let st := eval vm_compute in number_list_store in change (parsers_ok 0 st).
  repeat (constructor; [split; [|done]|]); try constructor; try done. repeat constructor; lia.
Qed.

Lemma number_list_no_memo : Forall (fun q => p_desugared q = None) number_list_store.
Proof.
  let st := eval vm_compute in number_list_store in change (Forall (fun q => p_desugared q = None) st).
  repeat constructor.
Qed.

Lemma desugar_parser_language_witness :
  number_list initial_store = Ok (Some 7%nat, number_list_store) /\
  exists x st' h', desugar_parser 20 (Some 7%nat) number_list_store [] = Ok (Some x, st', h') /\
    derives h' x ≡ₗ parser_language number_list_store 8 (Some 7%nat).
Proof.
  split; [vm_compute; reflexivity|].
  destruct (desugar_parser_language 20 7 number_list_store []) as (x & st' & h' & E & Hd & _).
  - apply number_list_desugarable.
  - lia.
  - constructor.
  - apply number_list_parsers_ok.
  - apply no_memo, number_list_no_memo.
  - exists x, st', h'. split; [exact E|exact Hd].
Defined.
