(* ===== verification/DesugarFacts.v ===== *)
(** What the desugared grammars give back: the reshape functions rebuild the
    results of the combinators from the parse trees of their grammars, and two
    defects of the desugaring. *)

From S2P Require Import Prelude Stream BitWriter Charset CArray Token Parser Peg Desugar.
From S2P Require Import Grammar.

(** * Totality *)

Lemma h_carray_append_ends {A} (arr : HCountedArray A) item : ends (h_carray_append arr item).
Proof. unfold h_carray_append, carray_store. case_match; auto with ends. Qed.

Lemma carray_elem_ends {A} (arr : HCountedArray A) i : ends (carray_elem arr i).
Proof. apply ends_deref. Qed.

Lemma assert_seq_ends t : ends (assert_seq t).
Proof. unfold assert_seq. repeat case_match; auto with ends. Qed.

Lemma assert_nonempty_seq_ends p : ends (assert_nonempty_seq p).
Proof.
  unfold assert_nonempty_seq. apply ends_bind; [apply assert_seq_ends|]. intros [tok seq] _. auto with ends.
Qed.

Lemma assert_uint_ends t : ends (assert_uint t).
Proof. unfold assert_uint. apply ends_bind; [apply ends_deref|]. intros a _. by case_match. Qed.

#[export] Hint Resolve h_carray_append_ends carray_elem_ends assert_seq_ends assert_nonempty_seq_ends
  assert_uint_ends : ends.

Lemma reshape_bits_loop_ends els : forall ret, ends (reshape_bits_loop els ret).
Proof. induction els as [|t els IH]; intros ret; simpl; auto with ends. Qed.

Lemma reshape_token_loop_ends els : ends (reshape_token_loop els).
Proof. induction els as [|t els IH]; simpl; auto 6 with ends. Qed.

Lemma reshape_sequence_loop_ends els : forall seq, ends (reshape_sequence_loop els seq).
Proof. induction els as [|[t|] els IH]; intros seq; simpl; auto with ends. Qed.

(** The loop follows the last element down the token. *)
Lemma reshape_many_loop_ends fuel : forall t seq,
  (forall tok, t = Some tok -> (tok_depth tok < fuel)%nat) -> ends (reshape_many_loop fuel t seq).
Proof.
  induction fuel as [|fuel IH]; intros [tok|] seq Hd; try done; [specialize (Hd _ eq_refl); lia|].
  specialize (Hd _ eq_refl). destruct tok as [d i l o]. cbn [reshape_many_loop assert_seq tok_data].
  destruct d; try done. cbn [mbind outcome_bind]. case_match; [|done].
  apply ends_bind; [auto with ends|]. intros _ _. apply ends_bind; [case_match; auto with ends|].
  intros item _. apply ends_bind; [auto with ends|]. intros seq' _. apply ends_bind; [auto with ends|].
  intros next Hn. apply IH. intros tok ->. unfold carray_elem in Hn. apply deref_ok in Hn.
  apply list_elem_of_lookup_2 in Hn. pose proof (tok_depth_elem _ i l o _ Hn). lia.
Qed.

(** No reshape function runs forever. *)
Lemma reshape_action_ends r p u : ends (reshape_action r p u).
Proof.
  destruct r; cbn [reshape_action].
  - unfold h_act_first. auto with ends.
  - unfold h_act_second. auto with ends.
  - unfold h_act_last. auto with ends.
  - apply ends_ok.
  - unfold reshape_bits. apply ends_bind; [auto with ends|]. intros [tok seq] _.
    apply ends_bind; [case_match; auto 6 with ends|]. intros start _.
    apply ends_bind; [apply reshape_bits_loop_ends|auto with ends].
  - unfold reshape_token. apply ends_bind; [auto with ends|]. intros [tok seq] _.
    apply ends_bind; [apply reshape_token_loop_ends|auto with ends].
  - unfold reshape_optional. apply ends_bind; [auto with ends|]. intros [tok seq] _.
    apply ends_bind; [case_match; auto with ends|]. intros res _. case_match; auto with ends.
  - unfold reshape_sequence. apply ends_bind; [auto with ends|]. intros [tok seq] _.
    apply ends_bind; [apply reshape_sequence_loop_ends|auto with ends].
  - unfold reshape_many. apply ends_bind; [|auto with ends]. apply reshape_many_loop_ends.
    intros tok Ht. rewrite Ht. lia.
Qed.

(** * many *)

(** The parse trees of [Ma -> A Mar], [Mar -> Sep A Mar], each possibly empty,
    with the items they hold. *)
Inductive mar : list (option HParsedToken) -> HParsedToken -> Prop :=
| mar_nil s i l o : ca_used s = 0%nat -> mar [] (mkTok (TT_SEQUENCE s) i l o)
| mar_cons sep item items t s i l o :
    carray_wf s -> (length sep <= 1)%nat -> ca_contents s = sep ++ [item; Some t] ->
    mar items t -> mar (item :: items) (mkTok (TT_SEQUENCE s) i l o).

Lemma reshape_many_loop_ok items t fuel seq :
  mar items t -> carray_wf seq -> (tok_depth t < fuel)%nat ->
  exists seq', reshape_many_loop fuel (Some t) seq = Ok seq' /\ carray_wf seq' /\
    ca_contents seq' = ca_contents seq ++ items.
Proof.
  intros Ht. revert fuel seq.
  induction Ht as [s i l o Hs|sep item items t s i l o Hs Hsep Hc Ht IH];
    intros [|fuel] seq Hseq Hf; try lia; cbn [reshape_many_loop assert_seq tok_data mbind outcome_bind].
  - rewrite Hs. simpl. exists seq. by rewrite app_nil_r.
  - pose proof (contents_length s Hs) as Hu. rewrite Hc, length_app in Hu. simpl in Hu.
    destruct (Nat.ltb_spec 0 (ca_used s)); [|lia].
    destruct (Nat.leb_spec (ca_used s) 3); [|lia]. cbn [assert_ok mbind outcome_bind].
    destruct (Nat.leb_spec 2 (ca_used s)); [|lia].
    rewrite (carray_elem_contents s (ca_used s - 2) item);
      [|rewrite Hc, lookup_app_r by lia; by replace (ca_used s - 2 - length sep)%nat with 0%nat by lia].
    cbn [mbind outcome_bind].
    destruct (h_carray_append_ok seq item Hseq) as (seq1 & -> & Hseq1 & Hc1 & _).
    cbn [mbind outcome_bind].
    rewrite (carray_elem_contents s (ca_used s - 1) (Some t));
      [|rewrite Hc, lookup_app_r by lia; by replace (ca_used s - 1 - length sep)%nat with 1%nat by lia].
    cbn [mbind outcome_bind].
    destruct (IH fuel seq1 Hseq1) as (seq2 & -> & Hseq2 & Hc2).
    { assert (Some t ∈ ca_elements s).
      { apply elem_of_contents. rewrite Hc. set_solver. }
      pose proof (tok_depth_elem s i l o t H2). lia. }
    exists seq2. split; [done|]. split; [done|]. by rewrite Hc2, Hc1, <- app_assoc.
Qed.

Lemma reshape_many_ok items t b u :
  mar items t ->
  exists seq, reshape_many (mkResult (Some t) b) u =
      Ok (Some (mkTok (TT_SEQUENCE seq) (tok_index t) 0 (tok_bit_offset t))) /\
    carray_wf seq /\ ca_contents seq = items.
Proof.
  intros Ht. unfold reshape_many. cbn [ast].
  destruct (reshape_many_loop_ok items t (S (tok_depth t)) h_carray_new Ht
    (carray_new_sized_wf 4)) as (seq & -> & Hseq & Hc); [lia|].
  exists seq. split; [done|]. split; [done|]. by rewrite Hc.
Qed.

(** C34: reshape_many turns the right-nested parse tree of a desugared many,
    many1, sepBy or sepBy1 into the flat sequence of its items in order, the
    separators dropped, whatever the length. *)
Theorem reshape_many_spec items t b u :
  mar items t ->
  exists seq, reshape_many (mkResult (Some t) b) u =
      Ok (Some (mkTok (TT_SEQUENCE seq) (tok_index t) 0 (tok_bit_offset t))) /\
    carray_wf seq /\ ca_contents seq = items.
Proof. apply reshape_many_ok. Qed.

(** * bits *)

(** The value of the bytes, the first one the most significant. *)
Definition be_value (acc : Z) (bytes : list Z) : Z := foldl (fun acc b => acc * 256 + b) acc bytes.

Lemma be_value_cons acc b bytes : be_value acc (b :: bytes) = be_value (acc * 256 + b) bytes.
Proof. done. Qed.

Lemma be_value_acc acc bytes :
  be_value acc bytes = acc * 2 ^ (8 * Z.of_nat (length bytes)) + be_value 0 bytes.
Proof.
  revert acc. induction bytes as [|b bytes IH]; intros acc; [unfold be_value; simpl; lia|].
  rewrite !be_value_cons, (IH (acc * 256 + b)), (IH (0 * 256 + b)).
  replace (8 * Z.of_nat (length (b :: bytes))) with (8 + 8 * Z.of_nat (length bytes)) by (simpl length; lia).
  rewrite Z.pow_add_r by lia. change (2 ^ 8) with 256. nia.
Qed.

(** The first byte is the most significant one. *)
Lemma be_value_head b bytes :
  be_value 0 (b :: bytes) = b * 2 ^ (8 * Z.of_nat (length bytes)) + be_value 0 bytes.
Proof. by rewrite be_value_cons, be_value_acc. Qed.

Lemma be_value_range bytes :
  Forall byte bytes -> 0 <= be_value 0 bytes < 2 ^ (8 * Z.of_nat (length bytes)).
Proof.
  induction 1 as [|b bytes Hb _ IH]; [done|]. rewrite be_value_head. unfold byte in *.
  replace (8 * Z.of_nat (length (b :: bytes))) with (8 + 8 * Z.of_nat (length bytes)) by (simpl length; lia).
  rewrite Z.pow_add_r by lia. change (2 ^ 8) with 256. nia.
Qed.

(** The bytes of a buffer spell its bits. *)
Lemma be_value_bits pre bytes :
  Forall byte bytes ->
  be_bits (pre ++ bytes) (8 * Z.of_nat (length pre)) (8 * length bytes) = be_value 0 bytes.
Proof.
  intros Hb. revert pre. induction Hb as [|b bytes Hb _ IH]; intros pre; [done|].
  replace (8 * length (b :: bytes))%nat with (8 + 8 * length bytes)%nat by (simpl; lia).
  rewrite be_bits_app. specialize (IH (pre ++ [b])). rewrite <- app_assoc in IH. cbn [app] in IH.
  rewrite length_app, Nat2Z.inj_add in IH.
  replace (8 * Z.of_nat (length pre) + Z.of_nat 8)
    with (8 * (Z.of_nat (length pre) + Z.of_nat (length [b]))) by (simpl length; lia).
  rewrite IH.
  replace (8 * Z.of_nat (length pre)) with (Z.of_nat (length pre) * 8 + 0) by lia.
  rewrite be_bits_byte by lia. unfold byte_at. rewrite Nat2Z.id, list_lookup_middle by done.
  unfold byte in Hb. simpl default. change (2 ^ (8 - 0 - Z.of_nat 8)) with 1.
  rewrite Z.div_1_r, Z.mod_small by (simpl; lia).
  rewrite be_value_head. do 2 f_equal. f_equal. lia.
Qed.

(** The token of a byte, anywhere in the input. *)
Definition byte_token (b : Z) (t : option HParsedToken) : Prop :=
  exists i l o, t = Some (mkTok (TT_UINT b) i l o).

Lemma reshape_bits_loop_ok bytes toks ret :
  Forall2 byte_token bytes toks -> Forall byte bytes -> 0 <= ret < 2 ^ 64 ->
  reshape_bits_loop toks ret = Ok (uint64 (be_value ret bytes)).
Proof.
  intros Ht. revert ret. induction Ht as [|b tok bytes toks (i & l & o & ->) _ IH]; intros ret Hbs Hret; cbn.
  - f_equal. symmetry. unfold wrapu. by apply Z.mod_small.
  - apply Forall_cons_1 in Hbs as [Hb Hbs]. unfold assert_uint. cbn. unfold byte in Hb. change 255 with (2 ^ 8 - 1).
    rewrite (land_ones_mod b 8), (Z.mod_small b) by lia.
    assert (uint64 (Z.shiftl ret 8) = Z.shiftl (ret mod 2 ^ 56) 8) as ->.
    { unfold wrapu. rewrite !Z.shiftl_mul_pow2 by lia. rewrite !(Z.mul_comm _ (2 ^ 8)).
      change (2 ^ 64) with (2 ^ 8 * 2 ^ 56). by rewrite Zmult_mod_distr_l. }
    pose proof (Z.mod_pos_bound ret (2 ^ 56) ltac:(lia)) as Hm.
    rewrite lor_shiftl_add by lia. rewrite IH by (done || unfold byte in *; lia). f_equal.
    change (foldl _ ?x bytes) with (be_value x bytes).
    rewrite (be_value_acc (_ + b)), (be_value_acc (ret * 256 + b)). unfold wrapu.
    rewrite (Z.div_mod ret (2 ^ 56)) at 2 by lia.
    rewrite <- (Z_mod_plus_full _ (ret / 2 ^ 56 * 2 ^ (8 * Z.of_nat (length bytes))) (2 ^ 64)).
    f_equal. change (2 ^ 64) with (2 ^ 56 * 256). change (2 ^ 8) with 256. lia.
Qed.

Lemma top_bit b : byte b -> (Z.land b 128 =? 0) = (b <? 128).
Proof.
  unfold byte. intros Hb.
  assert (forallb (fun n => Bool.eqb (Z.land (Z.of_nat n) 128 =? 0) (Z.of_nat n <? 128)) (seq 0 256)
    = true) as H by (vm_compute; done).
  rewrite forallb_forall in H. specialize (H (Z.to_nat b)). rewrite Z2Nat.id in H by lia.
  apply eqb_prop, H, in_seq. lia.
Qed.

(** Reading a whole buffer gives the big-endian value of its bytes. *)
Lemma read_buffer bytes signed_p :
  Forall byte bytes -> (1 <= length bytes <= 8)%nat ->
  let n := 8 * Z.of_nat (length bytes) in
  h_read_bits (buffer_stream bytes) n signed_p =
    Ok (read_value n signed_p (be_value 0 bytes), seek (buffer_stream bytes) n).
Proof.
  intros Hb Hlen n. rewrite h_read_bits_in_bounds; [| |done|done|lia|].
  - unfold stream_bits. simpl.
    change (has_flag BIT_BIG_ENDIAN _) with true. cbn iota.
    replace (Z.to_nat n) with (8 * length bytes)%nat by lia.
    pose proof (be_value_bits [] bytes Hb) as E. cbn [app length] in E.
    change (8 * Z.of_nat 0) with 0 in E. change (bit_pos (buffer_stream bytes)) with 0.
    rewrite E. do 2 f_equal.
  - split; simpl; try lia; done.
  - unfold bit_pos. simpl. lia.
Qed.

(** Starting from all ones when the first bit is set extends the sign. *)
Lemma be_value_sign b0 bytes :
  Forall byte (b0 :: bytes) -> (length bytes <= 7)%nat ->
  let n := 8 * Z.of_nat (length (b0 :: bytes)) in
  let v := be_value 0 (b0 :: bytes) in
  (if 2 ^ (n - 1) <=? v then v - 2 ^ n else v) =
  sint64 (uint64 (be_value (if negb (b0 <? 128) then uint64 (-1) else 0) (b0 :: bytes))).
Proof.
  intros Hb Hlen n v. pose proof (be_value_range _ Hb) as Hv. fold v n in Hv.
  assert (2 ^ n <= 2 ^ 64) as Hn by (apply Z.pow_le_mono_r; subst n; simpl length; lia).
  rewrite be_value_acc. fold v n.
  assert (v = b0 * 2 ^ (n - 8) + be_value 0 bytes) as Hv0.
  { subst v n. rewrite be_value_head. simpl length. do 3 f_equal. lia. }
  apply Forall_cons_1 in Hb as [Hb0 Hbs]. pose proof (be_value_range bytes Hbs) as Hrest.
  replace (8 * Z.of_nat (length bytes)) with (n - 8) in Hrest by (subst n; simpl length; lia).
  assert (2 ^ (n - 1) = 128 * 2 ^ (n - 8)) as H1.
  { replace (n - 1) with (7 + (n - 8)) by lia. rewrite Z.pow_add_r by (subst n; simpl length; lia).
    done. }
  assert (2 ^ n = 256 * 2 ^ (n - 8)) as H2.
  { replace n with (8 + (n - 8)) at 1 by lia. rewrite Z.pow_add_r by (subst n; simpl length; lia).
    done. }
  unfold byte in Hb0.
  destruct (Z.ltb_spec b0 128), (Z.leb_spec (2 ^ (n - 1)) v); try nia; cbn [negb].
  - rewrite wrapu_small, wraps_small; nia.
  - rewrite (wraps_eqm 64 _ (v - 2 ^ n)); [symmetry; apply wraps_small; nia|].
    unfold wrapu. rewrite Z.mod_mod by lia. change (-1 mod 2 ^ 64) with (2 ^ 64 - 1).
    replace ((2 ^ 64 - 1) * 2 ^ n + v) with (v - 2 ^ n + 2 ^ n * 2 ^ 64) by lia.
    apply Z_mod_plus_full.
Qed.

(** The parse tree of a desugared bits parser: a sequence of the bytes read. *)
Definition bits_tree (bytes : list Z) (t : HParsedToken) : Prop :=
  exists seq i l o, t = mkTok (TT_SEQUENCE seq) i l o /\ carray_wf seq /\
    Forall2 byte_token bytes (ca_contents seq).

(** C35: reshape_bits agrees with the bit reader: on the tokens of the bytes of
    a desugared bits parser of one to eight bytes, wherever they are in the input,
    it gives the token the packrat parser gives on the same bytes, sign extension
    included. *)
Theorem reshape_bits_spec bytes t b u :
  Forall byte bytes -> (1 <= length bytes <= 8)%nat -> bits_tree bytes t ->
  exists tok s', reshape_bits (mkResult (Some t) b) u = Ok (Some tok) /\
    peg_bits {| be_length := 8 * Z.of_nat (length bytes); be_signedp := negb (u =? 0) |}
      (buffer_stream bytes) = Ok (Some (Some tok), s').
Proof.
  intros Hb Hlen (seq & i & l & o & -> & Hs & Hc).
  unfold peg_bits, p_read, mbind, ST_bind. cbn [be_length be_signedp]. rewrite read_buffer by done.
  unfold reshape_bits. cbn [ast assert_seq tok_data mbind outcome_bind].
  fold (ca_contents seq).
  destruct (Z.eqb_spec u 0) as [->|Hu]; cbn [negb mbind outcome_bind].
  - rewrite (reshape_bits_loop_ok bytes) by (done || lia). cbn [mbind outcome_bind].
    do 2 eexists. split; [reflexivity|]. unfold p_tok, mret, ST_ret, read_value.
    unfold wrapu. by rewrite wraps_mod by lia.
  - destruct bytes as [|b0 bytes]; [simpl in Hlen; lia|].
    apply Forall2_cons_inv_l in Hc as Hc'. destruct Hc' as (t0 & ts & (i0 & l0 & o0 & ->) & _ & Ec).
    rewrite (carray_elem_contents seq 0 (Some (mkTok (TT_UINT b0) i0 l0 o0))) by by rewrite Ec.
    cbn [mbind outcome_bind]. unfold assert_uint at 1. cbn [deref mbind outcome_bind tok_data].
    rewrite top_bit by exact (Forall_inv Hb).
    rewrite (reshape_bits_loop_ok (b0 :: bytes)); [|done..|case_match; [apply wrapu_range|]; lia].
    cbn [mbind outcome_bind]. do 2 eexists. split; [reflexivity|].
    unfold p_tok, mret, ST_ret, read_value. simpl in Hlen.
    by rewrite (be_value_sign b0 bytes Hb) by lia.
Qed.

(** * Two defects *)

(** The grammar a constructor's parser desugars to. *)
Definition grammar_of (m : PM ptr) : outcome (ptr * list HCFChoice) :=
  '(p, st) ← m initial_store;
  '(c, _, g) ← desugar_parser 20 p st [];
  Ok (c, g).

(** S -> ( S ) S | \epsilon, with [h_indirect]. *)
Definition balanced : PM ptr :=
  e ← h_indirect__m;
  l ← h_ch__m 40;
  r ← h_ch__m 41;
  s ← h_sequence__mv l [e; r; e; None];
  eps ← h_epsilon_p__m;
  c ← h_choice__mv s [eps; None];
  _ ← h_bind_indirect e c;
  mret c.

(** C39: an indirect parser whose target is already being desugared leaves its
    preallocated choice behind, and the next parser desugared takes it: the
    second use of the indirect parser stands for that parser. The grammar of
    balanced parentheses derives "())" and does not derive "()". *)
Theorem h_desugar_indirect_twice :
  exists c g, grammar_of balanced = Ok (Some c, g) /\
    derives g c [Sym 40; Sym 41; Sym 41] /\ ~ derives g c [Sym 40; Sym 41].
Proof.
  do 2 eexists. split; [vm_compute; reflexivity|]. split.
  - eapply derives_choice; [done..|apply list_elem_of_here|].
    apply derives_one. eapply derives_choice; [done..|apply list_elem_of_here|].
    apply (derives_cons _ 2 [_; _; _] [Sym 40] [Sym 41; Sym 41]); [by eapply derives_char|].
    apply (derives_cons _ 0 [_; _] [] [Sym 41; Sym 41]).
    { eapply derives_choice; [done..|apply list_elem_of_further, list_elem_of_here|].
      apply derives_one. eapply derives_choice; [done..|apply list_elem_of_here|constructor]. }
    apply (derives_cons _ 3 [_] [Sym 41] [Sym 41]); [by eapply derives_char|].
    apply derives_one. by eapply derives_char.
  - intros H. eapply derives_inv in H; [|reflexivity]. cbn in H.
    destruct H as (items & Hi & H). apply elem_of_cons in Hi as [->|Hi].
    + apply derives_seq_inv in H as (w1 & w2 & E & H & H2). apply derives_nil_inv in H2 as ->.
      rewrite app_nil_r in E. subst w1. eapply derives_inv in H; [|reflexivity]. cbn in H.
      destruct H as (items & Hi & H). apply list_elem_of_singleton in Hi as ->.
      apply derives_seq_inv in H as (w1 & w2 & E & H1 & H).
      apply derives_seq_inv in H as (w3 & w4 & E2 & H3 & H).
      clear H3. derives_cases. apply (f_equal length) in E. rewrite !length_app in E. simpl in E. lia.
    + apply list_elem_of_singleton in Hi as ->.
      derives_cases; done.
Qed.

(** C40: the sequence for the first bytes strictly between those of the bounds is
    one byte short: [h_int_range(h_uint16(), 256, 770)] desugars to a grammar
    that derives the single byte 2 and not the number 512. *)
Theorem gen_int_range_middle_short :
  exists c g, grammar_of (p ← h_uint16__m; h_int_range__m p 256 770) = Ok (Some c, g) /\
    derives g c [Sym 2] /\ ~ derives g c [Sym 2; Sym 0].
Proof.
  do 2 eexists. split; [vm_compute; reflexivity|]. split.
  - eapply derives_choice; [done..|apply list_elem_of_further, list_elem_of_here|].
    apply derives_one. by eapply derives_charset; [done..|vm_compute].
  - intros H. derives_cases; done.
Qed.

(** * Witnesses *)

(** The tree of [1, 2] with a separator between them. *)
Definition seq_tok (els : list (option HParsedToken)) : HParsedToken :=
  new_tok (TT_SEQUENCE (mkCArray (S (length els)) (length els) (els ++ [None]))).
Definition mar_1_2 : HParsedToken :=
  seq_tok [Some (new_tok (TT_UINT 1));
    Some (seq_tok [Some (new_tok (TT_UINT 44)); Some (new_tok (TT_UINT 2)); Some (seq_tok [])])].

Lemma mar_1_2_ok : mar [Some (new_tok (TT_UINT 1)); Some (new_tok (TT_UINT 2))] mar_1_2.
Proof.
  eapply (mar_cons []); [split; simpl; lia|simpl; lia|reflexivity|].
  eapply (mar_cons [Some (new_tok (TT_UINT 44))]); [split; simpl; lia|simpl; lia|reflexivity|].
  by constructor.
Qed.

Lemma reshape_many_spec_witness :
  exists seq, reshape_many (mkResult (Some mar_1_2) 0) 0 =
      Ok (Some (new_tok (TT_SEQUENCE seq))) /\
    carray_wf seq /\
    ca_contents seq = [Some (new_tok (TT_UINT 1)); Some (new_tok (TT_UINT 2))].
Proof. exact (reshape_many_spec _ mar_1_2 0 0 mar_1_2_ok). Defined.

Lemma reshape_bits_spec_witness :
  exists tok s',
    reshape_bits (mkResult (Some (seq_tok [Some (mkTok (TT_UINT 255) 7 0 0); Some (mkTok (TT_UINT 1) 8 0 0)])) 0) 1
      = Ok (Some tok) /\
    peg_bits {| be_length := 16; be_signedp := true |} (buffer_stream [255; 1])
      = Ok (Some (Some tok), s').
Proof.
  apply (reshape_bits_spec [255; 1]).
  - repeat constructor; lia.
  - simpl; lia.
  - do 4 eexists. split; [reflexivity|]. split; [split; simpl; lia|].
    repeat constructor; by do 3 eexists.
Defined.
