(* ===== verification/StringMap.v ===== *)
(** String maps (HStringMap of src/src/cfgrammar.h, h_stringmap_xxx of
    src/src/cfgrammar.c): trees of strings of input bytes, which may end with
    the end of the input.

    A map is a value here: a submap belongs to one map, since every function
    that stores a submap has made it (h_stringmap_put_char,
    combine_stringmap, stringset_extend). Maps that several places hold are the
    roots of FirstSets. [char_branches] lists the entries in the order they were
    put; the hash table is modelled in HashTable. *)

From S2P Require Import Prelude Stream ByteStream Charset Desugar Grammar.

(** The values: [INSET], [CONFLICT] or a pointer to a production or an action. *)
Inductive sm_value := INSET | CONFLICT | V_production (nt i : nat) | V_action (a : nat).
#[global] Instance sm_value_eq_dec : EqDecision sm_value.
Proof. solve_decision. Defined.

#[warnings="-register-all"]
Inductive HStringMap :=
  mkStringMap (epsilon_branch end_branch : option sm_value)
    (char_branches : list (Z * HStringMap)) (arena : nat).

Definition sm_epsilon_branch (m : HStringMap) := let 'mkStringMap e _ _ _ := m in e.
Definition sm_end_branch (m : HStringMap) := let 'mkStringMap _ d _ _ := m in d.
Definition sm_char_branches (m : HStringMap) := let 'mkStringMap _ _ l _ := m in l.
Definition sm_arena (m : HStringMap) := let 'mkStringMap _ _ _ a := m in a.

(** Keys avoid 0, which is NULL. *)
Definition char_key (c : Z) : Z := Z.lor 256 c.
Definition key_char (k : Z) : Z := uint8 (Z.land 255 k).

(** [h_hashtable_get] and [h_hashtable_put] on [char_branches]. *)
Fixpoint branch_get {A} (key : Z) (l : list (Z * A)) : option A :=
  match l with
  | [] => None
  | (k, m) :: l => if k =? key then Some m else branch_get key l
  end.
Fixpoint branch_put {A} (key : Z) (m : A) (l : list (Z * A)) : list (Z * A) :=
  match l with
  | [] => [(key, m)]
  | (k, m') :: l => if k =? key then (key, m) :: l else (k, m') :: branch_put key m l
  end.

Definition h_stringmap_new (arena : nat) : HStringMap := mkStringMap None None [] arena.

Definition set_epsilon (v : option sm_value) (m : HStringMap) : HStringMap :=
  mkStringMap v (sm_end_branch m) (sm_char_branches m) (sm_arena m).
Definition set_end (v : option sm_value) (m : HStringMap) : HStringMap :=
  mkStringMap (sm_epsilon_branch m) v (sm_char_branches m) (sm_arena m).
Definition set_branch (key : Z) (ends : HStringMap) (m : HStringMap) : HStringMap :=
  mkStringMap (sm_epsilon_branch m) (sm_end_branch m) (branch_put key ends (sm_char_branches m))
    (sm_arena m).

Definition h_stringmap_put_end (m : HStringMap) (v : sm_value) : HStringMap := set_end (Some v) m.
Definition h_stringmap_put_epsilon (m : HStringMap) (v : sm_value) : HStringMap :=
  set_epsilon (Some v) m.
Definition h_stringmap_put_after (m : HStringMap) (c : Z) (ends : HStringMap) : HStringMap :=
  set_branch (char_key c) ends m.
Definition h_stringmap_put_char (m : HStringMap) (c : Z) (v : sm_value) : HStringMap :=
  h_stringmap_put_after m c (h_stringmap_put_epsilon (h_stringmap_new (sm_arena m)) v).

(** [h_hashtable_merge] puts for each entry of [n] what [combine_stringmap]
    returns: the submap of [m], a new one in the arena of [n]'s if there is
    none, updated with the submap of [n]. *)
Fixpoint h_stringmap_update (m n : HStringMap) {struct n} : HStringMap :=
  let 'mkStringMap eps end_ chars _ := n in
  let m := match eps with Some _ => set_epsilon eps m | None => m end in
  let m := match end_ with Some _ => set_end end_ m | None => m end in
  (fix merge (m : HStringMap) (l : list (Z * HStringMap)) {struct l} : HStringMap :=
     match l with
     | [] => m
     | (key, m2) :: l =>
         let m1 := match branch_get key (sm_char_branches m) with
                   | Some m1 => m1
                   | None => h_stringmap_new (sm_arena m2)
                   end in
         merge (set_branch key (h_stringmap_update m1 m2) m) l
     end) m chars.

Definition h_stringmap_copy (a : nat) (m : HStringMap) : HStringMap :=
  h_stringmap_update (h_stringmap_new a) m.

(** [old] NULL replaces all values, [new] NULL removes them. *)
Definition replace_value (old new v : option sm_value) : option sm_value :=
  match old with
  | None => match v with Some _ => new | None => None end
  | Some _ => if decide (v = old) then new else v
  end.
Fixpoint h_stringmap_replace (m : HStringMap) (old new : option sm_value) : HStringMap :=
  let 'mkStringMap eps end_ chars a := m in
  mkStringMap (replace_value old new eps) (replace_value old new end_)
    ((fix entries (l : list (Z * HStringMap)) : list (Z * HStringMap) :=
        match l with
        | [] => []
        | (key, m_) :: l => (key, h_stringmap_replace m_ old new) :: entries l
        end) chars) a.

Definition h_stringmap_get_char (m : HStringMap) (c : Z) : option HStringMap :=
  branch_get (char_key c) (sm_char_branches m).

(** The loop of [h_stringmap_get] over the bytes left. *)
Fixpoint h_stringmap_get (m : HStringMap) (str : list Z) (end_p : bool) : option sm_value :=
  match str with
  | [] => sm_epsilon_branch m
  | c :: str =>
      if bool_decide (str = []) && end_p && bool_decide (is_Some (sm_end_branch m))
      then sm_end_branch m
      else match h_stringmap_get_char m c with
           | None => None
           | Some m => h_stringmap_get m str end_p
           end
  end.

(** NULL, a value, or [NEED_INPUT]. *)
Inductive lookahead := LA_none | LA_value (v : sm_value) | NEED_INPUT.
Definition la_of (v : option sm_value) : lookahead :=
  match v with Some v => LA_value v | None => LA_none end.

(** The nesting depth of a map, which bounds the loop. *)
Fixpoint sm_depth (m : HStringMap) : nat :=
  let 'mkStringMap _ _ chars _ := m in
  S ((fix depths (l : list (Z * HStringMap)) : nat :=
        match l with [] => O | (_, m) :: l => max (sm_depth m) (depths l) end) chars).

(** The arenas [freed] were deleted: a node in one of them must not be read. *)
Definition node_alive (freed : list nat) (m : HStringMap) : bool := negb (bool_decide (sm_arena m ∈ freed)).
Definition use_node (freed : list nat) (m : HStringMap) : outcome unit :=
  if node_alive freed m then Ok tt else Fault UseAfterFree.

Fixpoint get_lookahead_loop (freed : list nat) (fuel : nat) (m : HStringMap) (la : HInputStream) : outcome lookahead :=
  match fuel with
  | O => OutOfFuel
  | S fuel =>
      _ ← use_node freed m;
      match sm_epsilon_branch m with
      | Some v => Ok (LA_value v)
      | None =>
          '(c, la) ← h_read_bits la 8 false;
          if is_overrun la then
            Ok (if is_last_chunk la then la_of (sm_end_branch m) else NEED_INPUT)
          else
            match h_stringmap_get_char m (uint8 c) with
            | None => Ok LA_none
            | Some m => get_lookahead_loop freed fuel m la
            end
      end
  end.
Definition h_stringmap_get_lookahead (freed : list nat) (m : HStringMap) (la : HInputStream) : outcome lookahead :=
  get_lookahead_loop freed (sm_depth m) m la.

Definition h_stringmap_present (m : HStringMap) (str : list Z) (end_p : bool) : bool :=
  bool_decide (is_Some (h_stringmap_get m str end_p)).
Definition h_stringmap_present_epsilon (m : HStringMap) : bool :=
  bool_decide (is_Some (sm_epsilon_branch m)).
Definition h_stringmap_empty (m : HStringMap) : bool :=
  bool_decide (sm_epsilon_branch m = None) && bool_decide (sm_end_branch m = None)
  && bool_decide (length (sm_char_branches m) = 0%nat).

Definition is_singleton_epsilon (m : HStringMap) : bool :=
  bool_decide (is_Some (sm_epsilon_branch m)) && bool_decide (sm_end_branch m = None)
  && bool_decide (length (sm_char_branches m) = 0%nat).

Fixpoint any_string_shorter (k : nat) (m : HStringMap) : bool :=
  match k with
  | O => false
  | S k => bool_decide (is_Some (sm_epsilon_branch m))
           || existsb (fun e => any_string_shorter k e.2) (sm_char_branches m)
  end.

Fixpoint remove_all_shorter (k : nat) (m : HStringMap) : HStringMap :=
  match k with
  | O => m
  | S k' =>
      let m := set_epsilon None m in
      if (k =? 1)%nat then m else
      mkStringMap (sm_epsilon_branch m) (sm_end_branch m)
        ((fun e => (e.1, remove_all_shorter k' e.2)) <$> sm_char_branches m) (sm_arena m)
  end.

(** * Facts *)

(** The value of a string of bytes. *)
Fixpoint sm_lookup (w : list symbol) (m : HStringMap) : option sm_value :=
  match w with
  | [] => sm_epsilon_branch m
  | Sym_end :: w => match w with [] => sm_end_branch m | _ => None end
  | Sym c :: w =>
      if decide (0 <= c < 256) then
        match h_stringmap_get_char m c with Some m => sm_lookup w m | None => None end
      else None
  end.

(** The map as a set of strings. *)
Definition sm_in (w : list symbol) (m : HStringMap) : Prop := is_Some (sm_lookup w m).

(** Induction over a map and its submaps. *)
Lemma string_map_ind (P : HStringMap -> Prop) :
  (forall eps end_ chars a, Forall (fun e => P e.2) chars -> P (mkStringMap eps end_ chars a)) ->
  forall m, P m.
Proof.
  intros H. fix IH 1. intros [eps end_ chars a]. apply H. clear H.
  induction chars as [|[k m] chars IHc]; constructor; [apply IH|exact IHc].
Qed.

(** Each key is that of a byte and has one entry, at every level, and no path is
    longer than [k]. *)
Inductive sm_wf : nat -> HStringMap -> Prop :=
| sm_wf_node k eps end_ chars a :
    NoDup chars.*1 ->
    (forall e, e ∈ chars -> (0 < k)%nat /\ exists c, 0 <= c < 256 /\ e.1 = char_key c) ->
    (forall e, e ∈ chars -> sm_wf (pred k) e.2) -> sm_wf k (mkStringMap eps end_ chars a).

Lemma branch_get_put {A} key key' (m : A) l :
  branch_get key' (branch_put key m l) = if key =? key' then Some m else branch_get key' l.
Proof.
  induction l as [|[k m'] l IH]; simpl; [done|].
  destruct (Z.eqb_spec k key) as [->|Hk]; simpl; [by destruct (key =? key')|].
  rewrite IH. destruct (Z.eqb_spec k key'), (Z.eqb_spec key key'); congruence.
Qed.

Lemma branch_put_keys {A} key (m : A) l :
  (branch_put key m l).*1 = if decide (key ∈ l.*1) then l.*1 else l.*1 ++ [key].
Proof.
  induction l as [|[k m'] l IH]; [done|]. cbn [branch_put].
  destruct (Z.eqb_spec k key) as [->|Hk]; rewrite !fmap_cons; cbn [fst].
  - rewrite decide_True by (by left). done.
  - rewrite IH. case_decide as Hl; case_decide as Hd; try done.
    + destruct Hd. by right.
    + by apply elem_of_cons in Hd as [|].
Qed.

Lemma branch_put_elem {A} key (m : A) l e :
  e ∈ branch_put key m l -> e = (key, m) \/ e ∈ l.
Proof.
  induction l as [|[k m'] l IH]; simpl.
  - intros H. left. by apply list_elem_of_singleton in H.
  - destruct (Z.eqb_spec k key) as [->|Hk]; intros H; apply elem_of_cons in H as [->|H]; auto.
    + right. by right.
    + right. by left.
    + destruct (IH H) as [->|]; [by left|right; by right].
Qed.

Lemma branch_get_elem {A} key (l : list (Z * A)) m : branch_get key l = Some m -> (key, m) ∈ l.
Proof.
  induction l as [|[k m'] l IH]; simpl; [done|].
  destruct (Z.eqb_spec k key) as [->|Hk]; [intros [= ->]; by left|intros H; right; auto].
Qed.

Lemma branch_get_nodup {A} key (l : list (Z * A)) m :
  NoDup l.*1 -> (key, m) ∈ l -> branch_get key l = Some m.
Proof.
  induction l as [|[k m'] l IH]; simpl; intros Hnd H; [by apply not_elem_of_nil in H|].
  apply list.NoDup_cons in Hnd as [Hk Hnd]. apply elem_of_cons in H as [[= -> ->]|H].
  - by rewrite Z.eqb_refl.
  - destruct (Z.eqb_spec k key) as [->|]; [|by apply IH].
    destruct Hk. apply list_elem_of_fmap. by exists (key, m).
Qed.

Lemma branch_get_none {A} key (l : list (Z * A)) : key ∉ l.*1 -> branch_get key l = None.
Proof.
  induction l as [|[k m'] l IH]; simpl; intros H; [done|].
  apply not_elem_of_cons in H as [H1 H2]. destruct (Z.eqb_spec k key); [congruence|auto].
Qed.

Lemma set_branch_wf k c n m :
  0 <= c < 256 -> sm_wf (S k) m -> sm_wf k n -> sm_wf (S k) (set_branch (char_key c) n m).
Proof.
  intros Hb Hm Hn. inversion Hm as [k' eps end_ chars a Hnd Hk Hc]; subst. constructor.
  - simpl. rewrite branch_put_keys. case_decide as Hd; [done|].
    apply list.NoDup_app. split_and!; [done| |apply NoDup_singleton].
    intros x Hx Hx'. by apply list_elem_of_singleton in Hx' as ->.
  - simpl. intros e He. split; [lia|].
    apply branch_put_elem in He as [->|He]; [by exists c|by apply Hk].
  - simpl. intros e He. apply branch_put_elem in He as [->|He]; auto.
Qed.

Lemma new_map_wf k a : sm_wf k (h_stringmap_new a).
Proof. constructor; [constructor|..]; intros e He; by apply not_elem_of_nil in He. Qed.

Lemma set_epsilon_wf k v m : sm_wf k m -> sm_wf k (set_epsilon v m).
Proof. destruct 1. by constructor. Qed.
Lemma set_end_wf k v m : sm_wf k m -> sm_wf k (set_end v m).
Proof. destruct 1. by constructor. Qed.

Lemma put_char_wf k c v m :
  0 <= c < 256 -> sm_wf (S k) m -> sm_wf (S k) (h_stringmap_put_char m c v).
Proof. intros Hc Hm. by apply set_branch_wf; [| |apply set_epsilon_wf, new_map_wf]. Qed.

Create HintDb sm_wf.
#[export] Hint Resolve set_branch_wf new_map_wf set_epsilon_wf set_end_wf put_char_wf : sm_wf.

Lemma sm_wf_branch k key m n :
  sm_wf k m -> branch_get key (sm_char_branches m) = Some n -> sm_wf (pred k) n.
Proof.
  destruct 1 as [k eps end_ chars a Hnd Hk Hc]. simpl. intros H.
  by apply (Hc (key, n)), branch_get_elem.
Qed.

(** A key of a map reads back as the byte it was made of. *)
Lemma char_key_byte c : 0 <= c < 256 -> char_key c = 256 + c.
Proof.
  intros Hc. unfold char_key. change 256 with (Z.shiftl 1 8). rewrite lor_shiftl_add by lia. done.
Qed.

Lemma key_char_key c : 0 <= c < 256 -> key_char (char_key c) = c.
Proof.
  intros Hc. unfold key_char. rewrite char_key_byte by done.
  rewrite Z.land_comm. change 255 with (Z.ones 8). rewrite Z.land_ones by lia.
  unfold wrapu. rewrite Z.mod_mod by lia. rewrite <- Z.add_mod_idemp_l by lia.
  change (256 mod 2 ^ 8) with 0. rewrite Z.add_0_l. apply Z.mod_small. lia.
Qed.

Lemma char_key_inj c d : 0 <= c < 256 -> 0 <= d < 256 -> char_key c = char_key d -> c = d.
Proof. intros Hc Hd. rewrite !char_key_byte by done. lia. Qed.

(** ** What the operations do to the values of strings *)

Lemma lookup_new w a : sm_lookup w (h_stringmap_new a) = None.
Proof. destruct w as [|[c|] [|y w]]; simpl; try done; by case_decide. Qed.

Lemma lookup_set_epsilon w v m :
  sm_lookup w (set_epsilon v m) = if decide (w = []) then v else sm_lookup w m.
Proof. by destruct w as [|[c|] w]. Qed.

Lemma lookup_set_end w v m :
  sm_lookup w (set_end v m) = if decide (w = [Sym_end]) then v else sm_lookup w m.
Proof. destruct w as [|[c|] [|y w]]; by try case_decide. Qed.

Lemma lookup_branch key n m w :
  sm_lookup w (set_branch key n m) =
  match w with
  | Sym c :: w' =>
      if decide (0 <= c < 256) then
        if key =? char_key c then sm_lookup w' n else sm_lookup w m
      else None
  | _ => sm_lookup w m
  end.
Proof.
  destruct w as [|[c|] w]; try done. simpl. case_decide; [|done].
  unfold h_stringmap_get_char. simpl. rewrite branch_get_put. by destruct (key =? char_key c).
Qed.

Lemma lookup_put_after w c n m :
  0 <= c < 256 ->
  sm_lookup w (h_stringmap_put_after m c n) =
  match w with
  | Sym d :: w' => if decide (d = c) then sm_lookup w' n else sm_lookup w m
  | _ => sm_lookup w m
  end.
Proof.
  intros Hc. unfold h_stringmap_put_after. rewrite lookup_branch.
  destruct w as [|[d|] w]; try done. simpl. case_decide as Hd.
  - destruct (Z.eqb_spec (char_key c) (char_key d)) as [He|He].
    + apply char_key_inj in He as ->; [|done..]. by rewrite decide_True.
    + by rewrite decide_False by congruence.
  - by rewrite decide_False by (intros ->; done).
Qed.

Lemma lookup_put_char w c v m :
  0 <= c < 256 ->
  sm_lookup w (h_stringmap_put_char m c v) =
  match w with
  | Sym d :: w' =>
      if decide (d = c) then if decide (w' = []) then Some v else None else sm_lookup w m
  | _ => sm_lookup w m
  end.
Proof.
  intros Hc. unfold h_stringmap_put_char. rewrite lookup_put_after by done.
  destruct w as [|[d|] w]; try done. case_decide; [|done].
  unfold h_stringmap_put_epsilon. by rewrite lookup_set_epsilon, lookup_new.
Qed.

(** The loop of [h_hashtable_merge] in [h_stringmap_update]. *)
Fixpoint merge_branches (m : HStringMap) (l : list (Z * HStringMap)) : HStringMap :=
  match l with
  | [] => m
  | (key, m2) :: l =>
      let m1 := match branch_get key (sm_char_branches m) with
                | Some m1 => m1
                | None => h_stringmap_new (sm_arena m2)
                end in
      merge_branches (set_branch key (h_stringmap_update m1 m2) m) l
  end.

Lemma update_unfold m eps end_ chars a :
  h_stringmap_update m (mkStringMap eps end_ chars a) =
  merge_branches
    (let m := match eps with Some _ => set_epsilon eps m | None => m end in
     match end_ with Some _ => set_end end_ m | None => m end) chars.
Proof. done. Qed.

(** The node that is updated stays in its arena. *)
Lemma update_arena m n : sm_arena (h_stringmap_update m n) = sm_arena m.
Proof.
  destruct n as [eps end_ chars a]. rewrite update_unfold. cbn zeta.
  assert (forall m, sm_arena (merge_branches m chars) = sm_arena m) as ->.
  { induction chars as [|[k n] l IH]; intros m'; [done|]. cbn [merge_branches]. by rewrite IH. }
  by destruct eps, end_.
Qed.

Lemma merge_branches_wf k l m :
  (forall e, e ∈ l -> (0 < k)%nat /\ exists c, 0 <= c < 256 /\ e.1 = char_key c) ->
  (forall e, e ∈ l -> forall m1, sm_wf (pred k) m1 -> sm_wf (pred k) (h_stringmap_update m1 e.2)) ->
  sm_wf k m -> sm_wf k (merge_branches m l).
Proof.
  revert m. induction l as [|[key m2] l IH]; intros m Hk Hl Hm; [done|]. cbn [merge_branches].
  apply IH; [intros e He; apply Hk; by right|intros e He; apply Hl; by right|].
  destruct (Hk (key, m2)) as (Hpos & c & Hc & He); [by left|]. simpl in He. subst.
  destruct k as [|k]; [lia|]. apply set_branch_wf; [done..|].
  apply (Hl (char_key c, m2)); [by left|].
  case_match; [by eapply (sm_wf_branch (S k))|apply new_map_wf].
Qed.

Lemma h_stringmap_update_wf k m n : sm_wf k m -> sm_wf k n -> sm_wf k (h_stringmap_update m n).
Proof.
  intros Hm Hn. revert m Hm. induction Hn as [k eps end_ chars a Hnd Hk _ IH]; intros m Hm.
  rewrite update_unfold. apply merge_branches_wf; [done|intros e He; by apply IH|].
  destruct eps, end_; eauto with sm_wf.
Qed.
#[export] Hint Resolve h_stringmap_update_wf : sm_wf.

Lemma lookup_merge l m w :
  NoDup l.*1 ->
  (forall e, e ∈ l -> forall m1 w, sm_lookup w (h_stringmap_update m1 e.2) =
     match sm_lookup w e.2 with Some v => Some v | None => sm_lookup w m1 end) ->
  sm_lookup w (merge_branches m l) =
  match w with
  | Sym c :: w' =>
      match branch_get (char_key c) l with
      | Some n =>
          if decide (0 <= c < 256) then
            match sm_lookup w' n with Some v => Some v | None => sm_lookup w m end
          else None
      | None => sm_lookup w m
      end
  | _ => sm_lookup w m
  end.
Proof.
  revert m. induction l as [|[key m2] l IH]; intros m Hnd Hl; cbn [merge_branches branch_get].
  { by destruct w as [|[c|] w]. }
  rewrite fmap_cons in Hnd. apply list.NoDup_cons in Hnd as [Hk Hnd].
  rewrite IH by (done || intros e He; apply Hl; by right). rewrite !lookup_branch.
  destruct w as [|[c|] w]; [done| |done].
  destruct (Z.eqb_spec key (char_key c)) as [->|Hne].
  2: { case_decide; [by destruct (branch_get _ l)|].
       cbn [sm_lookup]. rewrite decide_False by done. by destruct (branch_get _ l). }
  rewrite branch_get_none by done. case_decide as Hc; [|done].
  rewrite (Hl (char_key c, m2)) by (by left). cbn [snd].
  destruct (sm_lookup w m2); [done|]. cbn [sm_lookup]. rewrite decide_True by done.
  unfold h_stringmap_get_char.
  destruct (branch_get (char_key c) (sm_char_branches m)); [done|]. apply lookup_new.
Qed.

(** Updating is the union in which the second map takes precedence. *)
Lemma lookup_update k m n w :
  sm_wf k n ->
  sm_lookup w (h_stringmap_update m n) =
  match sm_lookup w n with Some v => Some v | None => sm_lookup w m end.
Proof.
  intros Hn. revert m w. induction Hn as [k eps end_ chars a Hnd Hk _ IH]; intros m w.
  rewrite update_unfold, lookup_merge by (done || intros e He; by apply IH).
  destruct w as [|[c|] w]; cbn [sm_lookup sm_epsilon_branch sm_end_branch].
  - by destruct eps, end_.
  - unfold h_stringmap_get_char at 3. cbn [sm_char_branches].
    destruct (decide _) as [Hc|Hc]; [|by destruct (branch_get _ _)].
    destruct (branch_get (char_key c) chars); by destruct eps, end_.
  - destruct w; [by destruct eps, end_|done].
Qed.

Lemma in_update k m n w : sm_wf k n -> sm_in w (h_stringmap_update m n) <-> sm_in w n \/ sm_in w m.
Proof.
  intros Hn. unfold sm_in. rewrite (lookup_update k) by done.
  destruct (sm_lookup w n) as [v|].
  - split; [by left|by exists v].
  - split; [by right|]. by intros [[v Hv]|H].
Qed.

Lemma replace_unfold eps end_ chars a old new :
  h_stringmap_replace (mkStringMap eps end_ chars a) old new =
  mkStringMap (replace_value old new eps) (replace_value old new end_)
    ((fun e => (e.1, h_stringmap_replace e.2 old new)) <$> chars) a.
Proof.
  cbn [h_stringmap_replace]. f_equal.
  induction chars as [|[k n] l IH]; [done|]. rewrite fmap_cons. by rewrite <- IH.
Qed.

Lemma branch_get_fmap {A B} (f : A -> B) key (l : list (Z * A)) :
  branch_get key ((fun e => (e.1, f e.2)) <$> l) = f <$> branch_get key l.
Proof.
  induction l as [|[k n] l IH]; [done|]. rewrite fmap_cons. simpl. by destruct (k =? key).
Qed.

Lemma lookup_replace m old new w :
  sm_lookup w (h_stringmap_replace m old new) = replace_value old new (sm_lookup w m).
Proof.
  assert (replace_value old new None = None) as Hnone by by destruct old.
  revert w. induction m as [eps end_ chars a IH] using string_map_ind; intros [|[c|] w].
  - done.
  - rewrite replace_unfold. cbn [sm_lookup]. case_decide; [|done].
    unfold h_stringmap_get_char. cbn [sm_char_branches].
    rewrite (branch_get_fmap (fun m => h_stringmap_replace m old new)).
    destruct (branch_get (char_key c) chars) as [n|] eqn:Hn; simpl; [|done].
    apply branch_get_elem in Hn. exact (proj1 (list.Forall_forall _ _) IH _ Hn w).
  - by destruct w.
Qed.

Lemma h_stringmap_replace_wf k m old new : sm_wf k m -> sm_wf k (h_stringmap_replace m old new).
Proof.
  induction 1 as [k eps end_ chars a Hnd Hk Hc IH]. rewrite replace_unfold. constructor.
  - by rewrite <- list_fmap_compose.
  - intros e He. apply list_elem_of_fmap in He as (e' & -> & He). destruct (Hk e' He); eauto.
  - intros e He. apply list_elem_of_fmap in He as (e' & -> & He). by apply IH.
Qed.

(** ** The helpers of the analysis *)

(** A string without an end is looked up along its bytes. *)
Lemma any_string_shorter_spec k n m :
  sm_wf n m ->
  any_string_shorter k m = true <->
  exists cs, (length cs < k)%nat /\ sm_in (Sym <$> cs) m.
Proof.
  revert n m. induction k as [|k IH]; intros n m Hm; [split; [done|intros (? & ? & _); lia]|].
  cbn [any_string_shorter]. rewrite orb_true_iff, bool_decide_eq_true, existsb_exists.
  inversion Hm as [n' eps end_ chars a Hnd Hk Hc]; subst. cbn [sm_char_branches]. split.
  - intros [He|([key e] & He%list_elem_of_In & Hs)]; [exists []; split; [simpl; lia|done]|].
    apply (IH (pred n)) in Hs as (cs & Hl & Hin); [|by apply (Hc (key, e))].
    destruct (Hk _ He) as (_ & c & Hb & Hkey). simpl in Hkey. subst.
    exists (c :: cs). split; [simpl; lia|]. unfold sm_in. simpl. rewrite decide_True by done.
    unfold h_stringmap_get_char. simpl. by rewrite (branch_get_nodup _ _ e).
  - intros ([|c cs] & Hl & Hin); [by left|right]. unfold sm_in in Hin. simpl in Hin, Hl.
    case_decide as Hb; [|by destruct Hin]. unfold h_stringmap_get_char in Hin. simpl in Hin.
    destruct (branch_get _ chars) as [e|] eqn:He; [|by destruct Hin].
    apply branch_get_elem in He. exists (char_key c, e). rewrite <- list_elem_of_In.
    split; [done|]. apply (IH (pred n)); [by apply (Hc (char_key c, e))|].
    exists cs. split; [lia|done].
Qed.

Lemma is_singleton_epsilon_spec n m w :
  sm_wf n m -> is_singleton_epsilon m = true -> sm_in w m <-> w = [].
Proof.
  intros Hm [[H1 H2]%andb_prop H3]%andb_prop. apply bool_decide_eq_true in H1, H2, H3.
  destruct m as [eps end_ chars a]. simpl in *. subst. destruct chars; [|done].
  unfold sm_in. split; [|by intros ->]. destruct w as [|[c|] [|y w]]; simpl; try done;
    try (by intros [? ?]); case_decide; by intros [? ?].
Qed.

Lemma remove_all_shorter_unfold k m :
  remove_all_shorter (S k) m =
  if (S k =? 1)%nat then set_epsilon None m
  else mkStringMap None (sm_end_branch m)
         ((fun e => (e.1, remove_all_shorter k e.2)) <$> sm_char_branches m) (sm_arena m).
Proof. done. Qed.

(** Strings of [k] symbols and those that end with the input are kept. *)
Lemma remove_all_shorter_spec k m w :
  sm_in w (remove_all_shorter k m) <->
  sm_in w m /\ ((k <= length w)%nat \/ exists u, w = u ++ [Sym_end]).
Proof.
  revert m w. induction k as [|k IH]; intros m w; [simpl; intuition lia|].
  rewrite remove_all_shorter_unfold. unfold sm_in. destruct (Nat.eqb_spec (S k) 1) as [->%eq_add_S|Hk].
  - rewrite lookup_set_epsilon. case_decide as Hw.
    + subst. split; [by intros []|]. intros [_ [|[u Hu]]]; [simpl in *; lia|]. by destruct u.
    + split; [|by intros []]. intros H. split; [done|]. left. destruct w; [done|simpl; lia].
  - destruct w as [|[c|] w]; simpl.
    + split; [by intros []|]. intros [_ [|[[|] Hu]]]; [lia|done..].
    + case_decide as Hc; [|by split; [intros []|intros [[] ?]]].
      unfold h_stringmap_get_char. simpl. rewrite (branch_get_fmap (remove_all_shorter k)).
      destruct (branch_get _ _) as [e|]; simpl; [|by split; [intros []|intros [[] ?]]].
      fold (sm_in w (remove_all_shorter k e)) (sm_in w e). rewrite IH.
      assert ((exists u, w = u ++ [Sym_end]) <-> exists u, Sym c :: w = u ++ [Sym_end]) as Hu.
      { split; intros [u Hu]; [exists (Sym c :: u); by rewrite Hu|].
        destruct u as [|x u]; [done|]. injection Hu as <- ->. by exists u. }
      rewrite Hu. intuition lia.
    + destruct w; [|by split; [intros []|intros [[] ?]]]. split; [|by intros []].
      intros H. split; [done|]. right. by exists [].
Qed.

Lemma remove_all_shorter_wf k n m : sm_wf n m -> sm_wf n (remove_all_shorter k m).
Proof.
  intros Hm. revert k. induction Hm as [n eps end_ chars a Hnd Hk Hc IH]; intros [|k];
    [by constructor|].
  rewrite remove_all_shorter_unfold. case_match; [by constructor|]. constructor; simpl.
  - by rewrite <- list_fmap_compose.
  - intros e He. apply list_elem_of_fmap in He as (e' & -> & He). destruct (Hk e' He); eauto.
  - intros e He. apply list_elem_of_fmap in He as (e' & -> & He). by apply IH.
Qed.
#[export] Hint Resolve remove_all_shorter_wf h_stringmap_replace_wf : sm_wf.

(** ** Lookahead *)

(** The loop of [h_stringmap_get_lookahead] over the bytes that are left. *)
Fixpoint predict_bytes (m : HStringMap) (bytes : list Z) (last : bool) : lookahead :=
  match sm_epsilon_branch m with
  | Some v => LA_value v
  | None =>
      match bytes with
      | [] => if last then la_of (sm_end_branch m) else NEED_INPUT
      | c :: bytes =>
          match h_stringmap_get_char m c with
          | None => LA_none
          | Some m => predict_bytes m bytes last
          end
      end
  end.

Lemma branch_depth key m n :
  branch_get key (sm_char_branches m) = Some n -> (sm_depth n < sm_depth m)%nat.
Proof.
  destruct m as [eps end_ chars a]. cbn [sm_char_branches sm_depth]. intros H.
  apply Nat.lt_succ_r. induction chars as [|[k m] chars IH]; [done|]. simpl in H.
  destruct (k =? key); [injection H as ->; lia|]. specialize (IH H). lia.
Qed.

Lemma sm_depth_pos m : (0 < sm_depth m)%nat.
Proof. destruct m. simpl. lia. Qed.

(** No node of the map is in a deleted arena. *)
Fixpoint sm_alive (freed : list nat) (m : HStringMap) : bool :=
  let 'mkStringMap _ _ chars _ := m in
  node_alive freed m &&
  (fix all (l : list (Z * HStringMap)) : bool :=
     match l with [] => true | (_, n) :: l => sm_alive freed n && all l end) chars.

Lemma sm_alive_unfold freed eps end_ chars a :
  sm_alive freed (mkStringMap eps end_ chars a) =
  node_alive freed (mkStringMap eps end_ chars a) && forallb (fun e => sm_alive freed e.2) chars.
Proof. cbn [sm_alive]. f_equal. by induction chars as [|[k n] chars IH]; simpl; [|rewrite IH]. Qed.

Lemma sm_alive_node freed m : sm_alive freed m = true -> node_alive freed m = true.
Proof. destruct m. rewrite sm_alive_unfold. by intros [? _]%andb_true_iff. Qed.

Lemma sm_alive_branch freed m c n : sm_alive freed m = true -> h_stringmap_get_char m c = Some n -> sm_alive freed n = true.
Proof.
  destruct m as [eps end_ chars a]. rewrite sm_alive_unfold. intros [_ H]%andb_true_iff. unfold h_stringmap_get_char.
  cbn [sm_char_branches]. induction chars as [|[k n'] chars IH]; [done|]. simpl in *.
  apply andb_true_iff in H as [Hn H]. case_match; [by intros [= <-]|by apply IH].
Qed.

Lemma sm_alive_nil m : sm_alive [] m = true.
Proof.
  induction m as [eps end_ chars a IH] using string_map_ind. rewrite sm_alive_unfold. simpl.
  apply forallb_forall. intros e He%list_elem_of_In. by eapply list.Forall_forall in IH.
Qed.

Lemma get_lookahead_loop_ok freed fuel m la :
  sm_alive freed m = true -> byte_aligned la -> (is_overrun la = true -> rest la = []) -> (sm_depth m <= fuel)%nat ->
  get_lookahead_loop freed fuel m la = Ok (predict_bytes m (rest la) (is_last_chunk la)).
Proof.
  revert m la. induction fuel as [|fuel IH]; intros m la Hm Hla Ho Hf.
  { pose proof (sm_depth_pos m). lia. }
  cbn [get_lookahead_loop]. unfold use_node. rewrite (sm_alive_node _ _ Hm). cbn [mbind outcome_bind].
  rewrite read_byte by done.
  destruct (rest la) as [|c l] eqn:Hr; simpl.
  - destruct (sm_epsilon_branch m); [done|]. by destruct (is_last_chunk la).
  - destruct (sm_epsilon_branch m); [done|]. simpl.
    destruct (is_overrun la) eqn:Hov; [by specialize (Ho eq_refl)|].
    pose proof (rest_bytes la Hla) as Hb. rewrite Hr in Hb. apply Forall_cons_1 in Hb as [Hb _].
    rewrite wrapu_small by (unfold byte in Hb; lia).
    destruct (h_stringmap_get_char m c) as [n|] eqn:Hn; [|done].
    destruct (next_byte_aligned la c l Hla Hr) as [Ha Hr'].
    rewrite IH; [by rewrite Hr'|by eapply sm_alive_branch|done| |].
    + rewrite next_byte_overrun. congruence.
    + apply branch_depth in Hn. lia.
Qed.

(** [w] is a string of the map with value [v] that the bytes begin with. *)
Definition sm_matches (m : HStringMap) (bytes : list Z) (last : bool) (w : list symbol) (v : sm_value)
    : Prop :=
  sm_lookup w m = Some v /\
  ((exists n, w = Sym <$> take n bytes) \/ (last = true /\ w = (Sym <$> bytes) ++ [Sym_end])).

Lemma sm_matches_cons m c bytes last w v :
  0 <= c < 256 ->
  sm_matches m (c :: bytes) last w v <->
  (w = [] /\ sm_epsilon_branch m = Some v) \/
  exists n w', h_stringmap_get_char m c = Some n /\ w = Sym c :: w' /\ sm_matches n bytes last w' v.
Proof.
  intros Hc. unfold sm_matches. split.
  - intros [Hl [[[|n] ->]|[Hlast ->]]]; [by left|right..]; simpl in Hl;
      rewrite decide_True in Hl by done;
      (destruct (h_stringmap_get_char m c) as [m'|]; [|done]).
    + exists m', (Sym <$> take n bytes). eauto 10.
    + exists m', ((Sym <$> bytes) ++ [Sym_end]). eauto 10.
  - intros [[-> He]|(n & w' & Hn & -> & Hl & Hw)]; [split; [done|left; by exists O]|].
    split; [simpl; by rewrite decide_True, Hn|].
    destruct Hw as [[k ->]|[Hlast ->]]; [left; by exists (S k)|by right].
Qed.

(** The node that the bytes lead to; [None] when a branch is missing. *)
Fixpoint sm_walk (m : HStringMap) (bytes : list Z) : option HStringMap :=
  match bytes with
  | [] => Some m
  | c :: bytes => match h_stringmap_get_char m c with Some m => sm_walk m bytes | None => None end
  end.

(** What the lookahead loop answers. Without a match it asks for input exactly
    when all the bytes lead to a node of the map and more may come. *)
Definition lookahead_spec (m : HStringMap) (bytes : list Z) (last : bool) (r : lookahead) : Prop :=
  match r with
  | LA_value v =>
      exists w, sm_matches m bytes last w v /\
        forall w' v', sm_matches m bytes last w' v' -> (length w <= length w')%nat
  | LA_none => (forall w v, ~ sm_matches m bytes last w v) /\ (last = true \/ sm_walk m bytes = None)
  | NEED_INPUT =>
      (forall w v, ~ sm_matches m bytes last w v) /\ last = false /\ is_Some (sm_walk m bytes)
  end.

Lemma predict_bytes_spec bytes m last :
  Forall byte bytes -> lookahead_spec m bytes last (predict_bytes m bytes last).
Proof.
  intros Hb. revert m. induction Hb as [|c bytes Hc Hb IH]; intros m; cbn [predict_bytes].
  - destruct (sm_epsilon_branch m) as [v|] eqn:He; [|destruct last].
    + exists []. split; [split; [done|left; by exists O]|intros; simpl; lia].
    + assert (forall w v, sm_matches m [] true w v -> w = [Sym_end] /\ sm_end_branch m = Some v) as H.
      { intros w v [Hl [[n ->]|[_ ->]]]; [|done]. rewrite take_nil in Hl. simpl in Hl. congruence. }
      destruct (sm_end_branch m) as [v|] eqn:Hd; simpl.
      * exists [Sym_end]. split; [split; [done|by right]|]. by intros w' v' [-> _]%H.
      * split; [by intros w v [_ ?]%H|by left].
    + split_and!; [|done|by exists m]. intros w v [Hl [[n ->]|[? _]]]; [|done]. rewrite take_nil in Hl.
      simpl in Hl. congruence.
  - pose proof (fun w v => sm_matches_cons m c bytes last w v Hc) as Hcons.
    destruct (sm_epsilon_branch m) as [v|] eqn:He.
    { exists []. split; [apply Hcons; by left|intros; simpl; lia]. }
    destruct (h_stringmap_get_char m c) as [n|] eqn:Hn.
    2: { simpl. rewrite Hn. split; [|by right]. intros w v [[_ ?]|(n & _ & ? & _)]%Hcons; congruence. }
    specialize (IH n). destruct (predict_bytes n bytes last); simpl in *; rewrite ?Hn.
    + destruct IH as [IH Hw]. split; [|done].
      intros w v [[_ ?]|(n' & w' & ? & _ & Hm)]%Hcons; [congruence|]. simplify_eq. by eapply IH.
    + destruct IH as (w & Hw & Hmin). exists (Sym c :: w). split; [apply Hcons; eauto 10|].
      intros w' v' [[_ ?]|(n' & w'' & ? & -> & Hm)]%Hcons; [congruence|]. simplify_eq. simpl.
      apply le_n_S. by eapply Hmin.
    + destruct IH as (IH & Hlast & Hw). split_and!; [|done..].
      intros w v' [[_ ?]|(n' & w' & ? & _ & Hm)]%Hcons; [congruence|]. simplify_eq. by eapply IH.
Qed.

Lemma get_lookahead_spec freed m la :
  sm_alive freed m = true -> byte_aligned la -> (is_overrun la = true -> rest la = []) ->
  exists r, h_stringmap_get_lookahead freed m la = Ok r /\
    lookahead_spec m (rest la) (is_last_chunk la) r.
Proof.
  intros Hm Hla Ho. eexists. split; [by apply get_lookahead_loop_ok|].
  by apply predict_bytes_spec, rest_bytes.
Qed.

(** * Properties *)

(** C29: h_stringmap_get_lookahead always ends, on maps without nodes of deleted
    arenas. It returns the value of the shortest string of the map that the input
    begins with, where the end of the input may follow the bytes of the last
    chunk. When no string of the map matches, it returns NEED_INPUT exactly when
    the chunk is not the last one and its bytes lead to a node of the map, and
    NULL otherwise. *)
Theorem h_stringmap_get_lookahead_spec freed m la :
  sm_alive freed m = true -> byte_aligned la -> (is_overrun la = true -> rest la = []) ->
  exists r, h_stringmap_get_lookahead freed m la = Ok r /\
    lookahead_spec m (rest la) (is_last_chunk la) r.
Proof. apply get_lookahead_spec. Qed.

(** h_stringmap_update is the union of two maps in which the second one
    takes precedence, h_stringmap_replace maps the values, and both keep maps
    well formed: one branch for each byte and no path longer than before. *)
Theorem h_stringmap_update_union k m n old new w :
  sm_wf k m -> sm_wf k n ->
  sm_wf k (h_stringmap_update m n) /\
  sm_lookup w (h_stringmap_update m n) =
    match sm_lookup w n with Some v => Some v | None => sm_lookup w m end /\
  sm_wf k (h_stringmap_replace m old new) /\
  sm_lookup w (h_stringmap_replace m old new) = replace_value old new (sm_lookup w m).
Proof.
  intros Hm Hn. split_and!; [by eauto with sm_wf|by eapply lookup_update|by eauto with sm_wf|].
  apply lookup_replace.
Qed.

(** The string "ab" and the end of the input after "b". *)
Definition sample_map : HStringMap :=
  h_stringmap_put_after (h_stringmap_put_char (h_stringmap_new 0) 98 INSET) 97
    (h_stringmap_put_end (h_stringmap_put_char (h_stringmap_new 0) 98 (V_action 1)) (V_action 2)).
Definition sample_window : HInputStream := mkStream [97; 98] 0 0 2 0 0 0 false false.

Lemma h_stringmap_get_lookahead_spec_witness :
  exists r, h_stringmap_get_lookahead [1%nat] sample_map sample_window = Ok r /\
    lookahead_spec sample_map (rest sample_window) false r /\ r = LA_value (V_action 1).
Proof.
  destruct (h_stringmap_get_lookahead_spec [1%nat] sample_map sample_window) as (r & E & Hr);
    [reflexivity|by repeat constructor|done|].
  exists r. split_and!; [done..|]. cbv in E. by injection E.
Defined.

Lemma h_stringmap_update_union_witness :
  sm_wf 2 (h_stringmap_update sample_map sample_map) /\
  sm_lookup [Sym 97; Sym 98] (h_stringmap_update sample_map sample_map) =
    Some (V_action 1).
Proof.
  assert (sm_wf 2 sample_map) as Hw.
  { unfold sample_map. apply set_branch_wf; [done| |].
    - apply put_char_wf; [done|]. apply new_map_wf.
    - apply set_end_wf, put_char_wf; [done|]. apply new_map_wf. }
  destruct (h_stringmap_update_union 2 sample_map sample_map None None
              [Sym 97; Sym 98] Hw Hw) as (H1 & -> & _).
  split; [done|]. reflexivity.
Defined.
