(* ===== verification/CfGrammar.v ===== *)
(** Context-free grammars (HCFGrammar of src/src/cfgrammar.h; collection of the
    nonterminals and of those that derive the empty string in
    src/src/cfgrammar.c), on the choices that Desugar builds.

    A grammar points at choices; the heap of choices is the argument [h]. The
    order in which a loop meets the entries of a hash table of pointers depends
    on their addresses: it is a parameter, [IterationOrder]. *)

From S2P Require Import Prelude Charset Token Parser Desugar Grammar StringMap.

Class IterationOrder := {
  iter_order : forall {A}, list A -> list A;
  iter_order_perm : forall A (l : list A), iter_order l ≡ₚ l;
}.

(** [first] and [follow] have [kmax + 1] tables, keyed by symbols; NULL tables
    are the empty list. *)
Record HCFGrammar := mkCFGrammar {
  g_start : option nat;
  g_nts : list nat;                       (** in the order of their numbers *)
  g_geneps : option (list nat);
  g_first : list (gmap nat HStringMap);
  g_follow : list (gmap nat HStringMap);
  g_kmax : nat;
  g_arena : nat;
}.

Definition set_start (s : option nat) (g : HCFGrammar) : HCFGrammar :=
  mkCFGrammar s (g_nts g) (g_geneps g) (g_first g) (g_follow g) (g_kmax g) (g_arena g).
Definition set_nts (l : list nat) (g : HCFGrammar) : HCFGrammar :=
  mkCFGrammar (g_start g) l (g_geneps g) (g_first g) (g_follow g) (g_kmax g) (g_arena g).
Definition set_geneps (l : option (list nat)) (g : HCFGrammar) : HCFGrammar :=
  mkCFGrammar (g_start g) (g_nts g) l (g_first g) (g_follow g) (g_kmax g) (g_arena g).
Definition set_tables (first follow : list (gmap nat HStringMap)) (k : nat) (g : HCFGrammar)
    : HCFGrammar :=
  mkCFGrammar (g_start g) (g_nts g) (g_geneps g) first follow k (g_arena g).

Definition h_cfgrammar_new (arena : nat) : HCFGrammar := mkCFGrammar None [] None [] [] 0 arena.

Definition singleton_epsilon (g : HCFGrammar) : HStringMap :=
  h_stringmap_put_epsilon (h_stringmap_new (g_arena g)) INSET.

(** [h_hashset_put] *)
Definition set_put (x : nat) (l : list nat) : list nat := if decide (x ∈ l) then l else l ++ [x].

Definition choice_at (h : list HCFChoice) (symbol : nat) : outcome HCFChoice :=
  deref NullDeref (h !! symbol).

(** [fuel] bounds the nesting of the calls: a choice is entered once. *)
Fixpoint collect_nts (fuel : nat) (h : list HCFChoice) (symbol : nat) (nts : list nat)
    : outcome (list nat) :=
  if decide (symbol ∈ nts) then Ok nts else
  match fuel with
  | O => OutOfFuel
  | S fuel =>
      ch ← choice_at h symbol;
      match cf_type ch with
      | HCF_CHAR _ | HCF_END => Ok nts
      | HCF_CHARSET _ => Ok nts
      | HCF_CHOICE seq =>
          for_each (for_each (collect_nts fuel h)) seq (set_put symbol nts)
      | _ => Fault AssertFail
      end
  end.

Definition h_derives_epsilon (h : list HCFChoice) (g : HCFGrammar) (symbol : nat) : outcome bool :=
  geneps ← deref AssertFail (g_geneps g);
  ch ← choice_at h symbol;
  match cf_type ch with
  | HCF_END | HCF_CHAR _ | HCF_CHARSET _ => Ok false
  | _ => Ok (bool_decide (symbol ∈ geneps))
  end.

Fixpoint h_derives_epsilon_seq (h : list HCFChoice) (g : HCFGrammar) (s : list nat) : outcome bool :=
  match s with
  | [] => Ok true
  | x :: s => b ← h_derives_epsilon h g x; if b : bool then h_derives_epsilon_seq h g s else Ok false
  end.

(** The loop over the productions of [symbol], which stops at the first that
    derives the empty string. *)
Fixpoint geneps_productions (h : list HCFChoice) (symbol : nat) (seq : list (list nat))
    (g : HCFGrammar) : outcome HCFGrammar :=
  match seq with
  | [] => Ok g
  | items :: seq =>
      b ← h_derives_epsilon_seq h g items;
      if b : bool then
        geneps ← deref NullDeref (g_geneps g); Ok (set_geneps (Some (set_put symbol geneps)) g)
      else geneps_productions h symbol seq g
  end.

Section Collect.
Context `{IterationOrder}.

Definition geneps_pass (h : list HCFChoice) (g : HCFGrammar) : outcome HCFGrammar :=
  for_each (fun symbol g =>
    ch ← choice_at h symbol;
    match cf_type ch with
    | HCF_CHOICE seq => geneps_productions h symbol seq g
    | _ => Fault AssertFail
    end) (iter_order (g_nts g)) g.

Fixpoint geneps_loop (fuel : nat) (h : list HCFChoice) (g : HCFGrammar) : outcome HCFGrammar :=
  match fuel with
  | O => OutOfFuel
  | S fuel =>
      prev ← deref NullDeref (g_geneps g);
      g ← geneps_pass h g;
      geneps ← deref NullDeref (g_geneps g);
      if (length geneps =? length prev)%nat then Ok g else geneps_loop fuel h g
  end.

(** Each pass but the last adds a nonterminal. *)
Definition collect_geneps (h : list HCFChoice) (g : HCFGrammar) : outcome HCFGrammar :=
  match g_geneps g with
  | Some _ => Ok g
  | None => geneps_loop (S (length (g_nts g))) h (set_geneps (Some []) g)
  end.

(** The new choice that wraps a terminal; its [user_data] is not written. *)
Definition wrap_terminal (desugared : nat) : HCFChoice :=
  mkChoice (HCF_CHOICE [[desugared]]) (Some R_act_first) None None None.

Definition h_cfgrammar_ (arena : nat) (h : list HCFChoice) (desugared : nat)
    : outcome (HCFGrammar * list HCFChoice) :=
  let g := h_cfgrammar_new arena in
  nts ← collect_nts (S (length h)) h desugared [];
  let '(g, h) :=
    if bool_decide (nts = []) then
      (set_start (Some (length h)) (set_nts [length h] g), h ++ [wrap_terminal desugared])
    else (set_start (Some desugared) (set_nts nts g), h) in
  g ← collect_geneps h g;
  Ok (g, h).

(** NULL if the back end is not suitable. [h] holds the choices of grammars that
    were made before. *)
Definition h_cfgrammar (fuel arena : nat) (p : ptr) (st : list HParser) (h : list HCFChoice)
    : outcome (option HCFGrammar * list HParser * list HCFChoice) :=
  '(valid, st) ← isValidCF fuel p st;
  if valid : bool then
    '(desugared, st, h) ← desugar_parser fuel p st h;
    match desugared with
    | None => Ok (None, st, h)
    | Some c => '(g, h) ← h_cfgrammar_ arena h c; Ok (Some g, st, h)
    end
  else Ok (None, st, h).

End Collect.

(** * The nonterminals *)

Lemma is_choice_lt h x : is_choice h x -> (x < length h)%nat.
Proof. intros (ch & seqs & Hx & _). by eapply lookup_lt_Some. Qed.

Lemma choice_at_lt h x : (x < length h)%nat -> exists ch, h !! x = Some ch /\ choice_at h x = Ok ch.
Proof. intros [ch Hx]%lookup_lt_is_Some. exists ch. unfold choice_at. by rewrite Hx. Qed.

Lemma wf_items h x ch seqs y :
  grammar_wf h -> h !! x = Some ch -> cf_type ch = HCF_CHOICE seqs -> y ∈ concat seqs ->
  (y < length h)%nat.
Proof.
  intros Hh Hx Ht Hy. pose proof (grammar_wf_lookup _ _ _ Hh Hx) as Hw. unfold choice_wf in Hw.
  rewrite Ht in Hw. apply Forall_concat in Hw.
  exact (proj1 (list.Forall_forall _ _) Hw _ Hy).
Qed.

Lemma occurs_concat h x y :
  occurs h x y <-> exists ch seqs, h !! x = Some ch /\ cf_type ch = HCF_CHOICE seqs /\ y ∈ concat seqs.
Proof.
  split.
  - intros (ch & seqs & items & ? & ? & Hi & Hy). exists ch, seqs. split_and!; try done.
    apply list_elem_of_In, in_concat. exists items. by rewrite <- !list_elem_of_In.
  - intros (ch & seqs & ? & ? & Hy). apply list_elem_of_In, in_concat in Hy as (items & Hi & Hy).
    apply list_elem_of_In in Hi, Hy. by exists ch, seqs, items.
Qed.

Definition is_terminal_type (t : HCFChoiceType) : bool :=
  match t with HCF_CHAR _ | HCF_END | HCF_CHARSET _ => true | _ => false end.

(** What a call adds to the table: nonterminals reachable from the symbol,
    itself first, with the nonterminals of their productions. *)
Record collected (h : list HCFChoice) (from : nat) (nts add : list nat) : Prop := {
  col_nodup : NoDup (nts ++ add);
  col_reach : forall x, x ∈ add -> is_choice h x /\ reachable h from x;
  col_closed : forall y z, y ∈ add -> occurs h y z -> is_choice h z -> z ∈ nts ++ add;
}.

Lemma collected_nil h from nts : NoDup nts -> collected h from nts [].
Proof.
  intros Hn. constructor; [by rewrite app_nil_r|..];
    intros *; intros Hx; by apply not_elem_of_nil in Hx.
Qed.

Lemma collected_app h from x nts add1 add2 :
  reachable h from x -> collected h from nts add1 -> collected h x (nts ++ add1) add2 ->
  forall y z, y ∈ add1 ++ add2 ->
    (is_choice h y /\ reachable h from y) /\
    (occurs h y z -> is_choice h z -> z ∈ (nts ++ add1) ++ add2).
Proof.
  intros Hx [_ R1 C1] [_ R2 C2] y z [Hy|Hy]%elem_of_app; split; try by auto.
  - intros Ho Hz. apply elem_of_app. left. by eapply C1.
  - destruct (R2 _ Hy) as [? Hr]. split; [done|by etrans].
  - by apply C2.
Qed.

(** The loop over the symbols of the productions of [from]. *)
Lemma collect_items_ok h visit from nts items :
  NoDup nts -> (forall x, x ∈ nts -> is_choice h x) -> (forall x, x ∈ items -> occurs h from x) ->
  (forall x add, x ∈ items -> NoDup (nts ++ add) -> (forall y, y ∈ nts ++ add -> is_choice h y) ->
     exists add2, visit x (nts ++ add) = Ok ((nts ++ add) ++ add2) /\
       collected h x (nts ++ add) add2 /\ (is_choice h x -> x ∈ (nts ++ add) ++ add2)) ->
  exists add, for_each visit items nts = Ok (nts ++ add) /\ collected h from nts add /\
    forall x, x ∈ items -> is_choice h x -> x ∈ nts ++ add.
Proof.
  intros Hnd Hc Hocc Hv.
  destruct (for_each_ind (fun done nts' => exists add, nts' = nts ++ add /\
              collected h from nts add /\ forall x, x ∈ done -> is_choice h x -> x ∈ nts')
              visit items nts)
    as (nts' & -> & add & -> & Hadd); [..|by exists add].
  - exists []. rewrite app_nil_r. split_and!; [done|by apply collected_nil|].
    intros x Hx. by apply not_elem_of_nil in Hx.
  - intros done_ x rest nts' El (add & -> & Hadd & Hall).
    assert (x ∈ items) as Hx by (rewrite El; apply elem_of_app; right; left).
    destruct (Hv x add) as (add2 & -> & Hadd2 & Hsx); [done|apply Hadd|..].
    { intros y [Hy|Hy]%elem_of_app; [by apply Hc|by apply Hadd]. }
    pose proof (collected_app _ _ _ _ _ _ (rtc_once _ _ (Hocc _ Hx)) Hadd Hadd2) as Hcol.
    eexists. split; [done|]. exists (add ++ add2). rewrite app_assoc. split_and!; [done|..].
    + constructor; rewrite ?app_assoc; [apply Hadd2|..].
      * intros y Hy. by apply (Hcol y y).
      * intros y z Hy. by apply Hcol.
    + intros y [Hy|Hy%list_elem_of_singleton]%elem_of_app Hcy; [|subst; auto].
      apply elem_of_app. left. by apply Hall.
Qed.

Lemma collected_cons h from nts add :
  is_choice h from -> collected h from (nts ++ [from]) add ->
  (forall x, occurs h from x -> is_choice h x -> x ∈ (nts ++ [from]) ++ add) ->
  collected h from nts (from :: add).
Proof.
  intros Hc [Hn Hr Hcl] Hall. rewrite <- app_assoc in *. constructor; [done|..].
  - intros y [->|Hy]%elem_of_cons; [split; [done|apply rtc_refl]|by apply Hr].
  - intros y z [->|Hy]%elem_of_cons Ho Hz; [by apply Hall|by eapply Hcl].
Qed.

Lemma wf_choice_cases h x ch :
  grammar_wf h -> h !! x = Some ch ->
  (exists seqs, cf_type ch = HCF_CHOICE seqs /\ is_choice h x) \/
  (is_terminal_type (cf_type ch) = true /\ ~ is_choice h x).
Proof.
  intros Hh Hx. pose proof (grammar_wf_lookup _ _ _ Hh Hx) as Hw. unfold choice_wf in Hw.
  destruct (cf_type ch) eqn:Ht; try done; [right|left|right..];
    try (split; [done|intros (ch' & seqs & Hx' & Ht'); congruence]).
  exists seq. split; [done|by exists ch, seq].
Qed.

Lemma collect_nts_ok h fuel symbol nts :
  grammar_wf h -> (symbol < length h)%nat -> NoDup nts -> (forall x, x ∈ nts -> is_choice h x) ->
  (length h < fuel + length nts)%nat ->
  exists add, collect_nts fuel h symbol nts = Ok (nts ++ add) /\ collected h symbol nts add /\
    (is_choice h symbol -> symbol ∈ nts \/ exists add', add = symbol :: add').
Proof.
  intros Hh. revert symbol nts. induction fuel as [|fuel IH]; intros symbol nts Hs Hnd Hc Hf.
  { exfalso. apply (nodup_bounded nts (length h)) in Hnd; [simpl in Hf; lia|].
    intros x Hx. by apply is_choice_lt, Hc. }
  simpl. case_decide as Hin.
  { exists []. rewrite app_nil_r. eauto using collected_nil. }
  destruct (choice_at_lt h symbol Hs) as (ch & Hch & ->). cbn [mbind outcome_bind].
  destruct (wf_choice_cases _ _ _ Hh Hch) as [(seqs & Ht & Hsym)|[Ht Hsym]].
  2: { exists []. rewrite app_nil_r. split; [by destruct (cf_type ch)|].
       split; [by apply collected_nil|done]. }
  rewrite Ht, for_each_concat. unfold set_put. rewrite decide_False by done.
  assert (forall x, x ∈ concat seqs -> occurs h symbol x) as Hocc.
  { intros x Hx. apply occurs_concat. by exists ch, seqs. }
  assert (NoDup (nts ++ [symbol])) as Hnd1.
  { apply list.NoDup_app. split_and!; [done| |apply NoDup_singleton].
    intros x Hx Hx'. by apply list_elem_of_singleton in Hx' as ->. }
  destruct (collect_items_ok h (collect_nts fuel h) symbol (nts ++ [symbol]) (concat seqs))
    as (add & -> & Hadd & Hall); [done| |done|..].
  - intros x [Hx|Hx%list_elem_of_singleton]%elem_of_app; subst; auto.
  - intros x add Hx Hn Hca.
    destruct (IH x ((nts ++ [symbol]) ++ add)) as (add2 & -> & Hadd2 & Hsx); [|done..| |].
    + by eapply wf_items.
    + rewrite !length_app. simpl. lia.
    + eexists. split_and!; [done..|]. intros Hcx. apply elem_of_app.
      destruct (Hsx Hcx) as [|[add' ->]]; [by left|right; left].
  - exists (symbol :: add). rewrite <- app_assoc. split_and!; [done| |eauto].
    apply collected_cons; [done..|]. intros x (ch' & seqs' & ? & ? & ?)%occurs_concat.
    apply Hall. assert (seqs = seqs') as -> by congruence. done.
Qed.

(** * The nonterminals that derive the empty string *)

Definition knownb (h : list HCFChoice) (G : list nat) (x : nat) : bool :=
  match h !! x with
  | Some ch => negb (is_terminal_type (cf_type ch)) && bool_decide (x ∈ G)
  | None => false
  end.

Lemma knownb_true h G x : knownb h G x = true -> x ∈ G.
Proof. unfold knownb. destruct (h !! x); [|done]. intros [_ ?%bool_decide_eq_true]%andb_prop. done. Qed.

Lemma h_derives_epsilon_ok h g G x :
  (x < length h)%nat -> g_geneps g = Some G -> h_derives_epsilon h g x = Ok (knownb h G x).
Proof.
  intros Hx HG. unfold h_derives_epsilon. rewrite HG.
  destruct (choice_at_lt h x Hx) as (ch & Hch & ->). unfold knownb. rewrite Hch. simpl.
  by destruct (cf_type ch).
Qed.

Lemma h_derives_epsilon_seq_ok h g G s :
  (forall x, x ∈ s -> (x < length h)%nat) -> g_geneps g = Some G ->
  h_derives_epsilon_seq h g s = Ok (forallb (knownb h G) s).
Proof.
  intros Hs HG. induction s as [|x s IH]; [done|]. simpl.
  rewrite (h_derives_epsilon_ok h g G) by (done || apply Hs; left). simpl.
  destruct (knownb h G x); [|done]. apply IH. intros y Hy. apply Hs. by right.
Qed.

(** What one step of the pass makes of the set. *)
Definition geneps_next (h : list HCFChoice) (symbol : nat) (seqs : list (list nat)) (G : list nat)
    : list nat :=
  if existsb (forallb (knownb h G)) seqs then set_put symbol G else G.

Lemma geneps_productions_ok h symbol seqs g G :
  (forall x, x ∈ concat seqs -> (x < length h)%nat) -> g_geneps g = Some G ->
  geneps_productions h symbol seqs g = Ok (set_geneps (Some (geneps_next h symbol seqs G)) g).
Proof.
  intros Hs HG. unfold geneps_next.
  induction seqs as [|items seqs IH]; [destruct g; simpl in *; by subst|]. simpl.
  rewrite (h_derives_epsilon_seq_ok h g G); [|intros x Hx; apply Hs, elem_of_app; by left|done].
  simpl. destruct (forallb (knownb h G) items); simpl; [by rewrite HG|].
  apply IH. intros x Hx. apply Hs, elem_of_app. by right.
Qed.

(** Members of [nts] that derive the empty string, each once. *)
Record geneps_ok (h : list HCFChoice) (nts G : list nat) : Prop := {
  ge_nodup : NoDup G;
  ge_sub : forall x, x ∈ G -> x ∈ nts;
  ge_sound : forall x, x ∈ G -> derives h x [];
}.

Lemma known_derives h nts G s :
  geneps_ok h nts G -> forallb (knownb h G) s = true -> derives_seq h s [].
Proof.
  intros HG. induction s as [|x s IH]; [constructor|]. intros [Hx Hs]%andb_prop.
  apply (derives_cons h x s [] []); [|auto]. apply (ge_sound _ _ _ HG), (knownb_true _ _ _ Hx).
Qed.

Lemma geneps_next_ok h nts symbol ch seqs G :
  geneps_ok h nts G -> symbol ∈ nts -> h !! symbol = Some ch -> cf_type ch = HCF_CHOICE seqs ->
  geneps_ok h nts (geneps_next h symbol seqs G) /\
  exists add, geneps_next h symbol seqs G = G ++ add /\
    (add = [] -> existsb (forallb (knownb h G)) seqs = true -> symbol ∈ G).
Proof.
  intros HG Hs Hch Ht. unfold geneps_next, set_put.
  destruct (existsb _ seqs) eqn:He; [case_decide as Hin|].
  1, 3: split; [done|exists []; by rewrite app_nil_r].
  split; [|by exists [symbol]].
  apply existsb_exists in He as (items & Hi%list_elem_of_In & Hk).
  assert (derives h symbol []) as Hd.
  { apply (derives_choice h symbol ch seqs items); [done..|]. by eapply known_derives. }
  destruct HG as [Hn Hsub Hsnd]. constructor.
  - apply list.NoDup_app. split_and!; [done| |apply NoDup_singleton].
    intros x Hx Hx'. by apply list_elem_of_singleton in Hx' as ->.
  - intros x [Hx|Hx%list_elem_of_singleton]%elem_of_app; subst; auto.
  - intros x [Hx|Hx%list_elem_of_singleton]%elem_of_app; subst; auto.
Qed.

(** No production shows that a further nonterminal derives the empty string. *)
Definition geneps_stable (h : list HCFChoice) (nts G : list nat) : Prop :=
  forall x ch seqs, x ∈ nts -> h !! x = Some ch -> cf_type ch = HCF_CHOICE seqs ->
    existsb (forallb (knownb h G)) seqs = true -> x ∈ G.

Section CollectFacts.
Context `{IterationOrder}.

Lemma geneps_pass_ok h g G :
  grammar_wf h -> (forall x, x ∈ g_nts g -> is_choice h x) -> g_geneps g = Some G ->
  geneps_ok h (g_nts g) G ->
  exists add, geneps_pass h g = Ok (set_geneps (Some (G ++ add)) g) /\
    geneps_ok h (g_nts g) (G ++ add) /\ (add = [] -> geneps_stable h (g_nts g) G).
Proof.
  intros Hh Hc HG Hok. unfold geneps_pass.
  destruct (for_each_ind (fun done g' => exists add, g' = set_geneps (Some (G ++ add)) g /\
     geneps_ok h (g_nts g) (G ++ add) /\ (add = [] -> geneps_stable h done G))
     (fun symbol g => ch ← choice_at h symbol;
        match cf_type ch with
        | HCF_CHOICE seq => geneps_productions h symbol seq g
        | _ => Fault AssertFail
        end) (iter_order (g_nts g)) g) as (g' & -> & add & -> & Hadd & Hst).
  - exists []. rewrite app_nil_r. split_and!; [by destruct g; simpl in *; subst|done|].
    intros _ x ch seqs Hx. by apply not_elem_of_nil in Hx.
  - intros done_ x rest g' El (add & -> & Hadd & Hst).
    assert (x ∈ g_nts g) as Hx.
    { rewrite <- (iter_order_perm _ (g_nts g)), El. apply elem_of_app. by right; left. }
    destruct (Hc x Hx) as (ch & seqs & Hch & Ht).
    unfold choice_at. rewrite Hch. cbn [deref mbind outcome_bind]. rewrite Ht.
    rewrite (geneps_productions_ok h x seqs _ (G ++ add)); [|by intros y Hy; eapply wf_items|done].
    destruct (geneps_next_ok h (g_nts g) x ch seqs (G ++ add)) as (Hok' & add2 & Eadd2 & Hst2);
      [done..|].
    eexists. split; [done|]. exists (add ++ add2). rewrite app_assoc, <- Eadd2.
    split_and!; [done..|]. intros [-> ->]%app_nil. rewrite app_nil_r in Hst2.
    intros y ch' seqs' [Hy|Hy%list_elem_of_singleton]%elem_of_app Hy' Ht'; [by eapply Hst|].
    subst y. replace seqs' with seqs by congruence. auto.
  - exists add. split_and!; [done..|]. intros Ha x ch seqs Hx. apply Hst; [done|].
    by rewrite (iter_order_perm _ (g_nts g)).
Qed.

Lemma geneps_loop_ok fuel h g G :
  grammar_wf h -> (forall x, x ∈ g_nts g -> is_choice h x) -> g_geneps g = Some G ->
  geneps_ok h (g_nts g) G -> (length (g_nts g) < fuel + length G)%nat ->
  exists G', geneps_loop fuel h g = Ok (set_geneps (Some G') g) /\
    geneps_ok h (g_nts g) G' /\ geneps_stable h (g_nts g) G'.
Proof.
  intros Hh Hc. revert g G Hc. induction fuel as [|fuel IH]; intros g G Hc HG Hok Hf.
  { exfalso. pose proof (submseteq_length _ _ (NoDup_submseteq _ _ (ge_nodup _ _ _ Hok)
      (ge_sub _ _ _ Hok))). simpl in Hf. lia. }
  simpl. rewrite HG. simpl.
  destruct (geneps_pass_ok h g G) as (add & -> & Hok' & Hst); [done..|]. simpl.
  rewrite length_app. destruct add as [|a add].
  - rewrite app_nil_r in *. rewrite Nat.add_0_r, Nat.eqb_refl. eauto.
  - replace (length G + length (a :: add) =? length G)%nat with false
      by (symmetry; apply Nat.eqb_neq; simpl; lia).
    destruct (IH (set_geneps (Some (G ++ a :: add)) g) (G ++ a :: add)) as (G' & -> & ?);
      [done..|rewrite length_app; simpl in *; lia|]. by exists G'.
Qed.

Lemma geneps_complete h nts G :
  grammar_wf h -> (forall x y, x ∈ nts -> occurs h x y -> is_choice h y -> y ∈ nts) ->
  geneps_stable h nts G ->
  forall x, x ∈ nts -> derives h x [] -> x ∈ G.
Proof.
  intros Hh Hcl Hst x Hx Hd. remember [] as w eqn:Hw. revert Hw Hx.
  refine (derives_mut h (fun x w => w = [] -> x ∈ nts -> x ∈ G)
    (fun s w => w = [] -> (forall y, y ∈ s -> is_choice h y -> y ∈ nts) ->
                forallb (knownb h G) s = true) _ _ _ _ _ _ x w Hd); try done.
  - intros c ch seqs items w' Hch Ht Hi _ IH -> Hc. eapply Hst; [done..|].
    apply existsb_exists. exists items. split; [by apply list_elem_of_In|].
    apply IH; [done|]. intros y Hy. apply (Hcl c); [done|]. by exists ch, seqs, items.
  - intros c items w1 w2 Hdc IH1 _ IH2 [-> ->]%app_nil Hall. simpl.
    rewrite IH2 by (done || intros y Hy; apply Hall; by right). rewrite andb_true_r.
    unfold knownb. inversion Hdc as [| | |? ch seqs ? ? Hch Ht]; subst. rewrite Hch, Ht. simpl.
    apply bool_decide_eq_true, IH1; [done|]. apply Hall; [left|by exists ch, seqs].
Qed.

Lemma collect_geneps_ok h g :
  grammar_wf h -> (forall x, x ∈ g_nts g -> is_choice h x) ->
  (forall x y, x ∈ g_nts g -> occurs h x y -> is_choice h y -> y ∈ g_nts g) ->
  g_geneps g = None ->
  exists G, collect_geneps h g = Ok (set_geneps (Some G) g) /\
    forall x, x ∈ G <-> x ∈ g_nts g /\ derives h x [].
Proof.
  intros Hh Hc Hcl HG. unfold collect_geneps. rewrite HG.
  destruct (geneps_loop_ok (S (length (g_nts g))) h (set_geneps (Some []) g) [])
    as (G & -> & [Hn Hsub Hsnd] & Hst); [done..| |simpl; lia|].
  { constructor; [constructor|..]; intros x Hx; by apply not_elem_of_nil in Hx. }
  exists G. split; [done|]. intros x. split; [by auto|]. intros [Hx Hd].
  by eapply geneps_complete.
Qed.

End CollectFacts.

(** * Adding a choice to the heap *)

Lemma derives_extend h t x w : derives h x w -> derives (h ++ t) x w.
Proof.
  intros Hd. refine (derives_mut h (derives (h ++ t)) (derives_seq (h ++ t)) _ _ _ _ _ _ x w Hd);
    intros; try by constructor.
  - eapply derives_char; [by apply lookup_app_l_Some|done].
  - eapply derives_charset; [by apply lookup_app_l_Some|done..].
  - eapply derives_end; [by apply lookup_app_l_Some|done].
  - eapply derives_choice; [by apply lookup_app_l_Some|done..].
Qed.

Lemma derives_restrict h t x w :
  grammar_wf h -> (x < length h)%nat -> derives (h ++ t) x w -> derives h x w.
Proof.
  intros Hh Hx Hd. revert Hx.
  refine (derives_mut (h ++ t) (fun x w => (x < length h)%nat -> derives h x w)
    (fun s w => (forall y, y ∈ s -> (y < length h)%nat) -> derives_seq h s w)
    _ _ _ _ _ _ x w Hd).
  - intros c ch x' Hc Ht Hlt. rewrite lookup_app_l in Hc by done. by eapply derives_char.
  - intros c ch cs x' Hc Ht Hr Hs Hlt. rewrite lookup_app_l in Hc by done.
    by eapply derives_charset.
  - intros c ch Hc Ht Hlt. rewrite lookup_app_l in Hc by done. by eapply derives_end.
  - intros c ch seqs items w' Hc Ht Hi _ IH Hlt. rewrite lookup_app_l in Hc by done.
    eapply derives_choice; [done..|]. apply IH. intros y Hy.
    apply (wf_items h c ch seqs); [done..|]. apply list_elem_of_In, in_concat. exists items.
    by rewrite <- !list_elem_of_In.
  - constructor.
  - intros c items w1 w2 _ IH1 _ IH2 Hlt. constructor.
    + apply IH1, Hlt. left.
    + apply IH2. intros y Hy. apply Hlt. by right.
Qed.

Lemma choice_wf_extend h t ch : choice_wf h ch -> choice_wf (h ++ t) ch.
Proof.
  unfold choice_wf. destruct (cf_type ch); try done. intros Hseq.
  eapply list.Forall_impl; [exact Hseq|]. intros items Hi.
  eapply list.Forall_impl; [exact Hi|]. intros x. rewrite length_app. lia.
Qed.

Lemma wrap_wf h s : grammar_wf h -> (s < length h)%nat -> grammar_wf (h ++ [wrap_terminal s]).
Proof.
  intros Hh Hs. apply Forall_app. split.
  - eapply list.Forall_impl; [exact Hh|]. intros ch. by apply choice_wf_extend.
  - repeat constructor. rewrite length_app. simpl. lia.
Qed.

Lemma wrap_derives h s w :
  grammar_wf h -> (s < length h)%nat ->
  derives (h ++ [wrap_terminal s]) (length h) w <-> derives h s w.
Proof.
  intros Hh Hs.
  assert ((h ++ [wrap_terminal s]) !! length h = Some (wrap_terminal s)) as Hw.
  { by rewrite lookup_app_r, Nat.sub_diag. }
  split; intros Hd.
  - apply (derives_inv _ _ _ _ Hd) in Hw as (items & Hi%list_elem_of_singleton & Hd'). subst.
    apply derives_seq_inv in Hd' as (w1 & w2 & -> & H1 & ->%derives_nil_inv).
    rewrite app_nil_r. by eapply derives_restrict.
  - eapply derives_choice; [done..|by left|]. by apply derives_one, derives_extend.
Qed.

(** The nonterminals, when they are closed under occurrence. *)
Lemma nts_reachable h start (nts : list nat) :
  start ∈ nts -> (forall x, x ∈ nts -> is_choice h x /\ reachable h start x) ->
  (forall x y, x ∈ nts -> occurs h x y -> is_choice h y -> y ∈ nts) ->
  forall x, x ∈ nts <-> is_choice h x /\ reachable h start x.
Proof.
  intros Hs Hr Hc x. split; [by apply Hr|]. intros [Hx Hp]. revert Hs. clear Hr.
  induction Hp as [x|y z x Hyz Hzx IH]; intros Hy; [done|]. apply IH; [done|].
  apply (Hc y); [done..|]. destruct Hzx as [|z z' ? Ho _]; [done|].
  destruct Ho as (ch & seqs & _ & ? & ? & _). by exists ch, seqs.
Qed.

Lemma terminal_reachable h s x : ~ is_choice h s -> reachable h s x -> x = s.
Proof.
  intros Hs Hr. destruct Hr as [|s y x Ho _]; [done|]. destruct Hs.
  destruct Ho as (ch & seqs & _ & ? & ? & _). by exists ch, seqs.
Qed.

Lemma wrap_occurs h s y : occurs (h ++ [wrap_terminal s]) (length h) y -> y = s.
Proof.
  intros (ch & seqs & items & Hc & Ht & Hi & Hy).
  rewrite lookup_app_r, Nat.sub_diag in Hc by done. injection Hc as <-. injection Ht as <-.
  apply list_elem_of_singleton in Hi as ->. by apply list_elem_of_singleton in Hy.
Qed.

Lemma wrap_not_choice h s :
  (s < length h)%nat -> ~ is_choice h s -> ~ is_choice (h ++ [wrap_terminal s]) s.
Proof.
  intros Hs Hn (ch & seqs & Hc & Ht). apply Hn. exists ch, seqs.
  by rewrite lookup_app_l in Hc.
Qed.

Lemma wrap_grammar `{IterationOrder} arena h s (h' := h ++ [wrap_terminal s])
    (g := set_start (Some (length h)) (set_nts [length h] (h_cfgrammar_new arena))) :
  grammar_wf h -> (s < length h)%nat -> ~ is_choice h s ->
  exists G, collect_geneps h' g = Ok (set_geneps (Some G) g) /\
    (forall x, x ∈ [length h] <-> is_choice h' x /\ reachable h' (length h) x) /\
    (forall x, x ∈ G <-> x ∈ [length h] /\ derives h' x []).
Proof.
  intros Hh Hs Hsc. pose proof (wrap_not_choice h s Hs Hsc) as Hsw.
  assert (forall x, x ∈ [length h] -> is_choice h' x /\ reachable h' (length h) x) as Hr.
  { intros x ->%list_elem_of_singleton. split; [|apply rtc_refl].
    exists (wrap_terminal s), [[s]]. subst h'. by rewrite lookup_app_r, Nat.sub_diag. }
  assert (forall x y, x ∈ [length h] -> occurs h' x y -> is_choice h' y -> y ∈ [length h]) as Hc.
  { intros x y ->%list_elem_of_singleton ->%wrap_occurs Hy. by destruct Hsw. }
  destruct (collect_geneps_ok h' g) as (G & HG1 & HG);
    [by apply wrap_wf|intros x Hx; by apply Hr|exact Hc|done|].
  exists G. split; [done|]. split; [|done]. apply nts_reachable; [by left|done..].
Qed.

(** What h_cfgrammar_ returns: the grammar of the start symbol, or of a new
    choice around it, with its tables still empty. *)
Record cfgrammar_of (arena : nat) (h : list HCFChoice) (s : nat) (g : HCFGrammar)
    (h' : list HCFChoice) (start : nat) (geneps : list nat) : Prop := {
  cg_grammar : g = set_geneps (Some geneps)
    (set_start (Some start) (set_nts (g_nts g) (h_cfgrammar_new arena)));
  cg_head : head (g_nts g) = Some start;
  cg_nodup : NoDup (g_nts g);
  cg_nts : forall x, x ∈ g_nts g <-> is_choice h' x /\ reachable h' start x;
  cg_geneps : forall x, x ∈ geneps <-> x ∈ g_nts g /\ derives h' x [];
  cg_language : forall w, derives h' start w <-> derives h s w;
  cg_wf : grammar_wf h';
}.

Lemma h_cfgrammar_ok `{IterationOrder} arena h s :
  grammar_wf h -> (s < length h)%nat ->
  exists g h' start geneps,
    h_cfgrammar_ arena h s = Ok (g, h') /\ cfgrammar_of arena h s g h' start geneps.
Proof.
  intros Hh Hs. unfold h_cfgrammar_.
  destruct (collect_nts_ok h (S (length h)) s []) as (nts & -> & [Hn Hr Hc] & Hd);
    [done|done|constructor|intros x Hx; by apply not_elem_of_nil in Hx|simpl; lia|].
  cbn [app mbind outcome_bind] in *. destruct (choice_at_lt h s Hs) as (ch & Hch & _).
  destruct (wf_choice_cases h s ch Hh Hch) as [(seqs & Ht & Hsc)|[_ Hsc]].
  - destruct (Hd Hsc) as [Hx|[add ->]]; [by apply not_elem_of_nil in Hx|]. clear Hd.
    rewrite bool_decide_false by done.
    destruct (collect_geneps_ok h (set_start (Some s) (set_nts (s :: add) (h_cfgrammar_new arena))))
      as (G & -> & HG); [done|intros x Hx; by apply Hr|exact Hc|done|].
    do 4 eexists. split; [done|]. split; try done. apply nts_reachable; [by left|done..].
  - assert (nts = []) as ->.
    { destruct nts as [|x nts]; [done|]. destruct (Hr x) as [Hx Hsx]; [by left|].
      by apply (terminal_reachable h s x Hsc) in Hsx as ->. }
    rewrite bool_decide_true by done.
    destruct (wrap_grammar arena h s) as (G & HG1 & Hr' & HG); [done..|].
    do 4 eexists. rewrite HG1. split; [done|]. split; try done; [apply NoDup_singleton|..].
    + intros w. by apply wrap_derives.
    + by apply wrap_wf.
Qed.

(** * Properties *)

(** C17: h_cfgrammar_ ends on every desugared grammar, with the start symbol (a
    new choice around a terminal) as nonterminal number 0 and a grammar of the
    same language; its nonterminals are the choices that the start symbol can
    reach, each once, and geneps holds those that derive the empty string,
    whatever the order in which the hash tables are walked. *)
Theorem h_cfgrammar_spec `{IterationOrder} arena h s :
  grammar_wf h -> (s < length h)%nat ->
  exists g h' start geneps,
    h_cfgrammar_ arena h s = Ok (g, h') /\ g_start g = Some start /\ g_geneps g = Some geneps /\
    head (g_nts g) = Some start /\ NoDup (g_nts g) /\
    (forall x, x ∈ g_nts g <-> is_choice h' x /\ reachable h' start x) /\
    (forall x, x ∈ geneps <-> x ∈ g_nts g /\ derives h' x []) /\
    (forall w, derives h' start w <-> derives h s w).
Proof.
  intros Hh Hs. destruct (h_cfgrammar_ok arena h s Hh Hs) as (g & h' & start & G & E & Hg).
  exists g, h', start, G. destruct Hg as [Eg]. split_and!; try done; by rewrite Eg.
Qed.

Definition insertion_order : IterationOrder :=
  {| iter_order := fun A l => l; iter_order_perm := fun A l => Permutation_refl l |}.
Definition reverse_order : IterationOrder :=
  {| iter_order := fun A l => rev l; iter_order_perm := fun A l => Permutation_sym (Permutation_rev l) |}.

(** S -> '(' S ')' S | "" *)
Definition parens : list HCFChoice :=
  [mkChoice (HCF_CHOICE [[1; 0; 2; 0]; []]%nat) None None None None;
   mkChoice (HCF_CHAR 40) None None None None;
   mkChoice (HCF_CHAR 41) None None None None].

Lemma parens_wf : grammar_wf parens.
Proof. repeat constructor; simpl; lia. Qed.

Lemma h_cfgrammar_spec_witness :
  exists g h' start geneps,
    @h_cfgrammar_ reverse_order 0 parens 0 = Ok (g, h') /\ g_start g = Some start /\
    g_geneps g = Some geneps /\ head (g_nts g) = Some start /\ NoDup (g_nts g) /\
    (forall x, x ∈ g_nts g <-> is_choice h' x /\ reachable h' start x) /\
    (forall x, x ∈ geneps <-> x ∈ g_nts g /\ derives h' x []) /\
    (forall w, derives h' start w <-> derives parens 0 w).
Proof. apply (@h_cfgrammar_spec reverse_order 0 parens 0); [apply parens_wf|simpl; lia]. Defined.
