(* ===== verification/GrammarPrint.v ===== *)
(** Printing of grammars, sets of symbols and string maps (the h_pprint functions
    at the end of src/src/cfgrammar.c).

    What a FILE gets is a text. The symbols are choices of the heap [h]; the names
    of the nonterminals are their numbers in the grammar in base 26. *)

From Stdlib Require Import Ascii String.
From S2P Require Import Prelude Text Charset Token Desugar Grammar StringMap CfGrammar.

Definition h_pprint_char (c : Z) : text :=
  if c =? 34 then lit "\" ++ [34]
  else if c =? 92 then lit "\\"
  else if c =? 8 then lit "\b"
  else if c =? 9 then lit "\t"
  else if c =? 10 then lit "\n"
  else if c =? 13 then lit "\r"
  else if isprint c then [c]
  else lit "\x" ++ fmt_BYTE c.

Definition pprint_charset_char (c : Z) : text :=
  if c =? 34 then [c]
  else if c =? 45 then lit "\-"
  else if c =? 93 then lit "\-"
  else h_pprint_char c.

(** [for(; i<256 && charset_isset(cs, i); i++);] *)
Fixpoint range_end (fuel : nat) (cs : HCharset) (i : Z) : outcome Z :=
  if negb (i <? 256) then Ok i else
  b ← charset_isset cs i;
  if negb b then Ok i else
  match fuel with
  | O => OutOfFuel
  | S fuel => range_end fuel cs (i + 1)
  end.

(** [i+2<256 && charset_isset(cs, i+1) && charset_isset(cs, i+2)] *)
Definition starts_range (cs : HCharset) (i : Z) : outcome bool :=
  if negb (i + 2 <? 256) then Ok false else
  b ← charset_isset cs (i + 1);
  if negb b then Ok false else charset_isset cs (i + 2).

(** The loop over the characters from [i] on; [fuel] bounds the characters left. *)
Fixpoint pprint_charset_loop (fuel : nat) (cs : HCharset) (i : Z) : outcome text :=
  if negb (i <? 256) then Ok [] else
  match fuel with
  | O => OutOfFuel
  | S fuel =>
      b ← charset_isset cs i;
      if negb b then pprint_charset_loop fuel cs (i + 1) else
      range ← starts_range cs i;
      if range : bool then
        j ← range_end 256 cs i;
        out ← pprint_charset_loop fuel cs (j - 1 + 1);
        Ok (pprint_charset_char i ++ [45] ++ pprint_charset_char (uint8 (j - 1)) ++ out)
      else
        out ← pprint_charset_loop fuel cs (i + 1);
        Ok (pprint_charset_char i ++ out)
  end.
Definition pprint_charset (cs : HCharset) : outcome text :=
  out ← pprint_charset_loop 256 cs 0; Ok ([91] ++ out ++ [93]).

(** [for(i=14; i>=0 && (n>0 || i==14); i--)]: [left] is [i + 1]. *)
Fixpoint name_loop (left : nat) (n : Z) (name : text) : text :=
  match left with
  | O => name
  | S i => if (0 <? n) || (i =? 14)%nat then name_loop i (n / 26) ((65 + n mod 26) :: name) else name
  end.

(** The number of [nt] in [g->nts]; what the table does not hold has the number 0. *)
Definition nt_number (g : HCFGrammar) (nt : nat) : Z :=
  match list_find (fun y => nt = y) (g_nts g) with Some (n, _) => Z.of_nat n | None => 0 end.
Definition nonterminal_name (g : HCFGrammar) (nt : nat) : text := name_loop 15 (nt_number g nt) [].

Definition indentation (n : Z) : text := replicate (Z.to_nat n) 32.

Section Print.
Context (h : list HCFChoice) (g : HCFGrammar).

Definition h_pprint_symbol (x : nat) : outcome text :=
  ch ← choice_at h x;
  match cf_type ch with
  | HCF_CHAR c => Ok ([34] ++ h_pprint_char c ++ [34])
  | HCF_END => Ok [36]
  | HCF_CHARSET cs => pprint_charset cs
  | _ => Ok (nonterminal_name g x)
  end.

(** Characters up to the first symbol that is none: what is printed, and the
    symbols left. *)
Fixpoint pprint_string_loop (x : list nat) : outcome (text * list nat) :=
  match x with
  | [] => Ok ([], [])
  | y :: rest =>
      ch ← choice_at h y;
      match cf_type ch with
      | HCF_CHAR c => '(out, rest) ← pprint_string_loop rest; Ok (h_pprint_char c ++ out, rest)
      | _ => Ok ([], x)
      end
  end.
Definition pprint_string (x : list nat) : outcome (text * list nat) :=
  '(out, rest) ← pprint_string_loop x; Ok ([34] ++ out ++ [34], rest).

(** The loop of [h_pprint_sequence]; [first] is [x == seq->items]. *)
Fixpoint pprint_sequence_loop (fuel : nat) (first : bool) (x : list nat) : outcome text :=
  match x with
  | [] => Ok []
  | y :: rest =>
      match fuel with
      | O => OutOfFuel
      | S fuel =>
          ch ← choice_at h y;
          '(out, rest) ← match cf_type ch with
                         | HCF_CHAR _ => pprint_string x
                         | _ => out ← h_pprint_symbol y; Ok (out, rest)
                         end;
          outs ← pprint_sequence_loop fuel false rest;
          Ok ((if first then [] else [32]) ++ out ++ outs)
      end
  end.
Definition h_pprint_sequence (items : list nat) : outcome text :=
  match items with
  | [] => Ok [34; 34]
  | _ => pprint_sequence_loop (length items) true items
  end.

Definition pprint_sequence (items : list nat) : outcome text :=
  out ← h_pprint_sequence items; Ok ([32] ++ out ++ [10]).

(** The productions after the first. *)
Fixpoint pprint_alternatives (column : Z) (seqs : list (list nat)) : outcome text :=
  match seqs with
  | [] => Ok []
  | seq :: seqs =>
      out ← pprint_sequence seq;
      outs ← pprint_alternatives column seqs;
      Ok (indentation column ++ lit "  |" ++ out ++ outs)
  end.

Definition pprint_ntrules (nt : nat) (indent len : Z) : outcome text :=
  let column := indent + len in
  let name := nonterminal_name g nt in
  let head := indentation indent ++ name
              ++ indentation (column - (Z.max 0 indent + Z.of_nat (length name))) ++ lit " ->" in
  ch ← choice_at h nt;
  match cf_type ch with
  | HCF_CHOICE [] => Ok head
  | HCF_CHOICE (seq :: seqs) =>
      out ← pprint_sequence seq;
      outs ← pprint_alternatives column seqs;
      Ok (head ++ out ++ outs)
  | _ => Fault AssertFail
  end.

(** [for(len=1, s=26; s < g->nts->used; len++, s*=26)] *)
Fixpoint name_width (fuel : nat) (used len s : Z) : outcome Z :=
  if negb (s <? used) then Ok len else
  match fuel with
  | O => OutOfFuel
  | S fuel => name_width fuel used (len + 1) (uint64 (s * 26))
  end.

Context `{IterationOrder}.

Fixpoint pprint_all (nts : list nat) (indent len : Z) : outcome text :=
  match nts with
  | [] => Ok []
  | a :: nts =>
      ch ← choice_at h a;
      _ ← assert_ok (match cf_type ch with HCF_CHOICE _ => true | _ => false end);
      out ← pprint_ntrules a indent len;
      outs ← pprint_all nts indent len;
      Ok (out ++ outs)
  end.

(** The size of a table of pointers is below 2^61, so that 14 rounds are enough. *)
Definition h_pprint_grammar (indent : Z) : outcome text :=
  if Z.of_nat (length (g_nts g)) <? 1 then Ok [] else
  len ← name_width 14 (Z.of_nat (length (g_nts g))) 1 26;
  pprint_all (iter_order (g_nts g)) indent len.

Fixpoint pprint_symbols (first : bool) (l : list nat) : outcome text :=
  match l with
  | [] => Ok []
  | a :: l =>
      out ← h_pprint_symbol a;
      outs ← pprint_symbols false l;
      Ok ((if first then [] else [44]) ++ out ++ outs)
  end.
Definition h_pprint_symbolset (set : list nat) (indent : Z) : outcome text :=
  out ← pprint_symbols true (iter_order set);
  Ok (indentation indent ++ [123] ++ out ++ lit "}" ++ [10]).
End Print.

(** * String maps *)

Definition BUFSIZE : Z := 512.

(** What [pprint_stringmap_elems] adds to the prefix for a character. *)
Definition prefix_char (c : Z) : text :=
  if c =? 36 then lit "\$"
  else if c =? 34 then lit "\" ++ [34]
  else if c =? 92 then lit "\\"
  else if c =? 8 then lit "\b"
  else if c =? 9 then lit "\t"
  else if c =? 10 then lit "\n"
  else if c =? 13 then lit "\r"
  else if isprint c then [c]
  else lit "\x" ++ fmt_BYTE c.

(** Writing to the buffer from [n] on; sprintf also writes the terminating zero. *)
Definition extend_prefix (prefix : text) (c : Z) : outcome text :=
  let prefix' := prefix ++ prefix_char c in
  if Z.of_nat (length prefix') <? BUFSIZE then Ok prefix' else Fault OutOfBounds.

Section StringMaps.
Context (sep : Z) (valprint : option (sm_value -> outcome text)) `{IterationOrder}.

Definition pprint_value (v : sm_value) : outcome text :=
  match valprint with
  | None => Ok []
  | Some valprint => out ← valprint v; Ok ([58] ++ out)
  end.

Definition pprint_epsilon (first : bool) (prefix : text) (v : option sm_value) : outcome (bool * text) :=
  match v with
  | None => Ok (first, [])
  | Some v =>
      out ← pprint_value v;
      Ok (false, (if first then [] else [sep]) ++ [34] ++ prefix ++ [34] ++ out)
  end.

Definition pprint_end (first : bool) (prefix : text) (v : option sm_value) : outcome (bool * text) :=
  match v with
  | None => Ok (first, [])
  | Some v =>
      out ← pprint_value v;
      let quotes := if (0 <? length prefix)%nat then [34; 34] else [] in
      Ok (false, (if first then [] else [44; 34]) ++ quotes ++ prefix ++ quotes ++ [36] ++ out)
  end.

(** [fuel] bounds the depth of the map. The flag says that nothing was printed. *)
Fixpoint pprint_stringmap_elems (fuel : nat) (first : bool) (prefix : text) (map : HStringMap)
    : outcome (bool * text) :=
  match fuel with
  | O => OutOfFuel
  | S fuel =>
      _ ← assert_ok (Z.of_nat (length prefix) <? BUFSIZE - 4);
      '(first, out1) ← pprint_epsilon first prefix (sm_epsilon_branch map);
      '(first, out2) ← pprint_end first prefix (sm_end_branch map);
      '(first, out3) ← for_each (fun '(key, ends) '(first, out) =>
          prefix' ← extend_prefix prefix (key_char key);
          '(first, out') ← pprint_stringmap_elems fuel first prefix' ends;
          Ok (first, out ++ out')) (iter_order (sm_char_branches map)) (first, []);
      Ok (first, out1 ++ out2 ++ out3)
  end.

Definition h_pprint_stringmap (fuel : nat) (map : HStringMap) : outcome text :=
  '(_, out) ← pprint_stringmap_elems fuel true [] map; Ok out.
End StringMaps.

Definition h_pprint_stringset `{IterationOrder} (fuel : nat) (set : HStringMap) (indent : Z) : outcome text :=
  out ← h_pprint_stringmap 44 None fuel set;
  Ok (indentation indent ++ [123] ++ out ++ lit "}" ++ [10]).

(** * Literals can be read back *)

Definition hex_value (c : Z) : Z := if c <? 58 then c - 48 else c - 55.

(** The escapes of [h_pprint_char]. *)
Definition escaped (e : Z) : option Z :=
  if e =? 98 then Some 8 else if e =? 116 then Some 9 else if e =? 110 then Some 10
  else if e =? 114 then Some 13 else if (e =? 34) || (e =? 92) then Some e else None.

(** One character of a literal, and what follows it. *)
Definition read_char (s : text) : option (Z * text) :=
  match s with
  | [] => None
  | c :: r =>
      if negb (c =? 92) then Some (c, r) else
      match r with
      | [] => None
      | e :: r =>
          if e =? 120 then
            match r with
            | a :: b :: r => Some (16 * hex_value a + hex_value b, r)
            | _ => None
            end
          else (., r) <$> escaped e
      end
  end.

(** The characters up to the closing quote. *)
Fixpoint read_literal (fuel : nat) (s : text) : option (list Z * text) :=
  match s with
  | [] => None
  | d :: r =>
      if d =? 34 then Some ([], r) else
      match fuel with
      | O => None
      | S fuel =>
          '(c, s) ← read_char s;
          '(cs, r) ← read_literal fuel s;
          Some (c :: cs, r)
      end
  end.

Lemma hex_value_upper d : 0 <= d < 16 -> hex_value (hex_upper d) = d.
Proof.
  intros Hd. unfold hex_value, hex_upper.
  destruct (Z.ltb_spec d 10); case_match eqn:E; rewrite ?Z.ltb_lt, ?Z.ltb_ge in E; lia.
Qed.

(** What is printed for a character starts the literal and does not end it. *)
Lemma read_char_printed c r :
  0 <= c < 256 ->
  read_char (h_pprint_char c ++ r) = Some (c, r) /\ exists d s, h_pprint_char c ++ r = d :: s /\ d <> 34.
Proof.
  intros Hc. unfold h_pprint_char.
  repeat (match goal with |- context [if c =? ?n then _ else _] =>
    destruct (Z.eqb_spec c n) as [->|?]; [split; [done|eexists _, _; split; [reflexivity|done]]|] end).
  destruct (isprint c) eqn:Ep.
  - simpl. rewrite (proj2 (Z.eqb_neq c 92)) by done. split; [done|]. by eexists _, _.
  - destruct (two_digits c Hc) as [H1 H2]. simpl.
    rewrite !hex_value_upper by done. split; [|by eexists _, _].
    rewrite <- (Z.div_mod c 16); done.
Qed.

(** What pprint_string prints between the quotes. *)
Fixpoint literal (cs : list Z) : text :=
  match cs with [] => [] | c :: cs => h_pprint_char c ++ literal cs end.

(** A string literal that h_pprint_sequence prints can be read back. *)
Lemma read_literal_printed cs r :
  Forall (fun c => 0 <= c < 256) cs -> read_literal (length cs) (literal cs ++ 34 :: r) = Some (cs, r).
Proof.
  induction 1 as [|c cs Hc _ IH]; [done|]. cbn [literal length]. rewrite <- app_assoc.
  destruct (read_char_printed c (literal cs ++ 34 :: r) Hc) as (E & d & s & Es & Hd).
  rewrite Es in E |- *. cbn [read_literal]. rewrite (proj2 (Z.eqb_neq d 34)), E by done. simpl. by rewrite IH.
Qed.

(** * Names of nonterminals *)

Definition letters_value (l : text) : Z := foldl (fun v c => v * 26 + (c - 65)) 0 l.

(** The letters are the digits of the number, without a zero in front. *)
Lemma name_loop_ok left : forall n name, (left <= 15)%nat -> 0 <= n < 26 ^ Z.of_nat left ->
  exists pre, name_loop left n name = pre ++ name /\ letters_value pre = n /\
    forall k : nat, n < 26 ^ Z.of_nat k -> (left = 15%nat -> (1 <= k)%nat) -> (length pre <= k)%nat.
Proof.
  induction left as [|i IH]; intros n name Hl Hn; cbn [name_loop].
  { exists []. simpl in *. split_and!; [done|unfold letters_value; simpl; lia|lia]. }
  destruct ((0 <? n) || (i =? 14)%nat) eqn:Eb.
  - rewrite Nat2Z.inj_succ, Z.pow_succ_r in Hn by lia.
    pose proof (Z.div_mod n 26). pose proof (Z.mod_pos_bound n 26).
    destruct (IH (n / 26) (65 + n mod 26 :: name)) as (pre & -> & Hv & Hk).
    { lia. }
    { split; [apply Z.div_pos; lia|apply Z.div_lt_upper_bound; lia]. }
    exists (pre ++ [65 + n mod 26]). split; [by rewrite <- app_assoc|]. split.
    { unfold letters_value in *. rewrite foldl_app, Hv. simpl. lia. }
    intros [|k] Hlt Hi.
    { simpl in Hlt. apply orb_true_iff in Eb as [?%Z.ltb_lt|?%Nat.eqb_eq]; lia. }
    rewrite length_app. simpl. apply (Nat.add_le_mono_r _ k 1) in Hk; [lia| |lia].
    rewrite Nat2Z.inj_succ, Z.pow_succ_r in Hlt by lia. apply Z.div_lt_upper_bound; lia.
  - apply orb_false_iff in Eb as [?%Z.ltb_ge ?%Nat.eqb_neq].
    exists []. split_and!; [done|unfold letters_value; simpl; lia|simpl; lia].
Qed.

(** The numbers of nonterminals stay below what a table of pointers can hold. *)
Definition MAX_NTS : Z := 2 ^ 59.

Lemma nt_number_ok g nt :
  nt ∈ g_nts g -> exists n, nt_number g nt = Z.of_nat n /\ g_nts g !! n = Some nt.
Proof.
  intros Hnt. unfold nt_number. destruct (list_find _ _) as [[n x]|] eqn:E.
  - apply list_find_Some in E as (E & <- & _). by exists n.
  - apply list_find_None in E. exfalso. apply list.Forall_forall with (x := nt) in E; done.
Qed.

Lemma nonterminal_name_inj g x y :
  Z.of_nat (length (g_nts g)) <= MAX_NTS -> x ∈ g_nts g -> y ∈ g_nts g ->
  nonterminal_name g x = nonterminal_name g y -> x = y.
Proof.
  intros Hm Hx Hy E. unfold nonterminal_name, MAX_NTS in *.
  destruct (nt_number_ok g x Hx) as (n & En & Hn), (nt_number_ok g y Hy) as (m & Em & Hmy).
  pose proof (lookup_lt_Some _ _ _ Hn). pose proof (lookup_lt_Some _ _ _ Hmy).
  assert (2 ^ 59 < 26 ^ Z.of_nat 15) by done.
  destruct (name_loop_ok 15 (nt_number g x) [] ltac:(lia) ltac:(lia)) as (p & Ep & Hp & _).
  destruct (name_loop_ok 15 (nt_number g y) [] ltac:(lia) ltac:(lia)) as (q & Eq & Hq & _).
  rewrite Ep, Eq, !app_nil_r in E. subst. assert (n = m) as -> by lia. congruence.
Qed.

(** The width is enough for every name. *)
Lemma name_width_ok fuel : forall used len s, 1 <= len -> s = 26 ^ len -> used <= MAX_NTS ->
  used <= 26 ^ (len + Z.of_nat fuel) ->
  exists width, name_width fuel used len s = Ok width /\ used <= 26 ^ width /\ 1 <= width.
Proof.
  unfold MAX_NTS. induction fuel as [|fuel IH]; intros used len s Hlen -> Hm Hu; cbn [name_width].
  - rewrite Z.add_0_r in Hu. rewrite (proj2 (Z.ltb_ge _ _)) by done. by exists len.
  - destruct (Z.ltb_spec (26 ^ len) used) as [Hlt|Hge]; [|by exists len].
    cbn [negb]. apply IH; [lia| |done|].
    + unfold wrapu. rewrite Z.mod_small by lia. rewrite Z.pow_add_r by lia. done.
    + etrans; [exact Hu|]. apply Z.pow_le_mono_r; lia.
Qed.

Lemma nonterminal_name_width g x width :
  Z.of_nat (length (g_nts g)) <= MAX_NTS -> x ∈ g_nts g ->
  Z.of_nat (length (g_nts g)) <= 26 ^ width -> 1 <= width ->
  Z.of_nat (length (nonterminal_name g x)) <= width.
Proof.
  intros Hm Hx Hw H1. unfold nonterminal_name, MAX_NTS in *.
  destruct (nt_number_ok g x Hx) as (n & En & Hn). pose proof (lookup_lt_Some _ _ _ Hn).
  assert (2 ^ 59 < 26 ^ Z.of_nat 15) by done.
  destruct (name_loop_ok 15 (nt_number g x) [] ltac:(lia) ltac:(lia)) as (p & -> & _ & Hp).
  rewrite app_nil_r. specialize (Hp (Z.to_nat width)). rewrite Z2Nat.id in Hp by lia. lia.
Qed.

(** * Charsets *)

(** A charset as it is printed: single characters and ranges. *)
Definition print_item (item : Z * Z) : text :=
  if item.1 =? item.2 then pprint_charset_char item.1
  else pprint_charset_char item.1 ++ [45] ++ pprint_charset_char item.2.
Definition in_items (c : Z) (items : list (Z * Z)) : Prop := exists item, item ∈ items /\ item.1 <= c <= item.2.

Section Charsets.
Context (cs : HCharset) (Hcs : charset_wf cs).

(** The end of the run of characters that [i] belongs to. *)
Lemma range_end_ok fuel : forall i, 0 <= i <= 256 -> 256 - i <= Z.of_nat fuel ->
  exists j, range_end fuel cs i = Ok j /\ i <= j <= 256 /\ (forall c, i <= c < j -> charset_mem cs c = true) /\
    (j < 256 -> charset_mem cs j = false).
Proof.
  induction fuel as [|fuel IH]; intros i Hi Hf; cbn [range_end].
  { rewrite (proj2 (Z.ltb_ge i 256)) by lia. exists i. split_and!; (done || lia || (intros; exfalso; lia)). }
  destruct (Z.ltb_spec i 256) as [Hlt|Hge]; [|exists i; split_and!; (done || lia || (intros; exfalso; lia))].
  cbn [negb]. rewrite charset_isset_mem by (done || lia). cbn [mbind outcome_bind].
  destruct (charset_mem cs i) eqn:Ei; cbn [negb].
  - destruct (IH (i + 1)) as (j & E & Hj & Hmem & Hend); [lia|lia|].
    exists j. split_and!; [done|lia|lia| |done].
    intros c Hc. destruct (decide (c = i)) as [->|]; [done|]. apply Hmem. lia.
  - exists i. split_and!; (done || lia || (intros; exfalso; lia)).
Qed.

Lemma starts_range_ok i : 0 <= i < 256 ->
  starts_range cs i = Ok ((i + 2 <? 256) && charset_mem cs (i + 1) && charset_mem cs (i + 2)).
Proof.
  intros Hi. unfold starts_range. destruct (Z.ltb_spec (i + 2) 256); [|done]. cbn [negb].
  rewrite (charset_isset_mem cs (i + 1)) by (done || lia). cbn [mbind outcome_bind].
  destruct (charset_mem cs (i + 1)); [|done]. cbn [negb]. by rewrite charset_isset_mem by (done || lia).
Qed.

Lemma in_items_cons c item items : in_items c (item :: items) <-> item.1 <= c <= item.2 \/ in_items c items.
Proof.
  unfold in_items. split.
  - intros (x & [->|Hx]%elem_of_cons & Hc); [by left|right; by exists x].
  - intros [Hc|(x & Hx & Hc)]; [exists item; by split; [left|]|exists x; by split; [right|]].
Qed.

Lemma pprint_charset_loop_ok fuel : forall i, 0 <= i <= 256 -> 256 - i <= Z.of_nat fuel ->
  exists items, pprint_charset_loop fuel cs i = Ok (mjoin (print_item <$> items)) /\
    forall c, in_items c items <-> i <= c < 256 /\ charset_mem cs c = true.
Proof.
  induction fuel as [|fuel IH]; intros i Hi Hf; cbn [pprint_charset_loop].
  { rewrite (proj2 (Z.ltb_ge i 256)) by lia. exists []. split; [done|]. intros c.
    split; [by intros (x & Hx%elem_of_nil & _)|lia]. }
  destruct (Z.ltb_spec i 256) as [Hlt|Hge]; cbn [negb].
  2: { exists []. split; [done|]. intros c. split; [by intros (x & Hx%elem_of_nil & _)|lia]. }
  rewrite charset_isset_mem by (done || lia). cbn [mbind outcome_bind].
  destruct (charset_mem cs i) eqn:Ei; cbn [negb].
  2: { destruct (IH (i + 1)) as (items & -> & Hit); [lia|lia|]. exists items. split; [done|].
       intros c. rewrite Hit. split; [intros [? ?]; split; [lia|done]|]. intros [Hc Hm].
       split; [|done]. destruct (decide (c = i)); [congruence|lia]. }
  rewrite starts_range_ok by lia. cbn [mbind outcome_bind].
  destruct (_ && _) eqn:Er.
  - apply andb_true_iff in Er as [[Hr%Z.ltb_lt E1]%andb_true_iff E2].
    destruct (range_end_ok 256 i) as (j & -> & Hj & Hmem & Hend); [lia|lia|]. cbn [mbind outcome_bind].
    assert (i + 2 < j) as Hj2.
    { destruct (decide (j = i)); [subst; rewrite Hend in Ei by lia; done|].
      destruct (decide (j = i + 1)); [subst; rewrite Hend in E1 by lia; done|].
      destruct (decide (j = i + 2)); [subst; rewrite Hend in E2 by lia; done|]. lia. }
    replace (j - 1 + 1) with j by lia. destruct (IH j) as (items & -> & Hit); [lia|lia|].
    exists ((i, j - 1) :: items). split.
    + cbn [mbind outcome_bind fmap list_fmap mjoin list_join]. unfold print_item at 2. cbn [fst snd].
      rewrite (proj2 (Z.eqb_neq i (j - 1))) by lia. unfold wrapu. rewrite Z.mod_small by lia.
      by rewrite <- !app_assoc.
    + intros c. rewrite in_items_cons, Hit. cbn [fst snd]. split.
      * intros [Hc|[Hc Hm]]; [split; [lia|apply Hmem; lia]|split; [lia|done]].
      * intros [Hc Hm]. destruct (decide (c < j)); [left; lia|right; split; [lia|done]].
  - destruct (IH (i + 1)) as (items & -> & Hit); [lia|lia|]. exists ((i, i) :: items). split.
    + cbn [mbind outcome_bind fmap list_fmap mjoin list_join]. unfold print_item at 2. cbn [fst snd].
      by rewrite Z.eqb_refl.
    + intros c. rewrite in_items_cons, Hit. cbn [fst snd]. split.
      * intros [Hc|[Hc Hm]]; [assert (c = i) as -> by lia; split; [lia|done]|split; [lia|done]].
      * intros [Hc Hm]. destruct (decide (c = i)); [left; lia|right; split; [lia|done]].
Qed.

(** The items that are printed are the charset. *)
Lemma pprint_charset_ok :
  exists items, pprint_charset cs = Ok ([91] ++ mjoin (print_item <$> items) ++ [93]) /\
    forall c, in_items c items <-> 0 <= c < 256 /\ charset_mem cs c = true.
Proof.
  unfold pprint_charset. destruct (pprint_charset_loop_ok 256 0) as (items & -> & Hit); [lia|lia|].
  by exists items.
Qed.
End Charsets.

(** ']' is printed as '-' is, so that the text does not determine the charset. *)
Lemma pprint_charset_ambiguous :
  exists cs1 cs2, charset_set new_charset 93 1 = Ok cs1 /\ charset_set new_charset 45 1 = Ok cs2 /\
    pprint_charset cs1 = pprint_charset cs2 /\ pprint_charset cs1 = Ok (lit "[\-]").
Proof.
  eexists _, _. split; [vm_compute; reflexivity|]. split; [vm_compute; reflexivity|].
  split; vm_compute; reflexivity.
Qed.

(** * Whole grammars *)

Section Grammars.
Context (h : list HCFChoice) (Hh : grammar_wf h) (g : HCFGrammar).

Lemma choice_at_ok x : (x < length h)%nat -> exists ch, choice_at h x = Ok ch /\ choice_wf h ch.
Proof.
  intros Hx. destruct (lookup_lt_is_Some_2 h x Hx) as [ch Ech]. exists ch.
  unfold choice_at. rewrite Ech. split; [done|]. by eapply grammar_wf_lookup.
Qed.

Lemma h_pprint_symbol_ok x : (x < length h)%nat -> exists out, h_pprint_symbol h g x = Ok out.
Proof.
  intros Hx. destruct (choice_at_ok x Hx) as (ch & E & Hch). unfold h_pprint_symbol. rewrite E.
  cbn [mbind outcome_bind]. unfold choice_wf in Hch. destruct (cf_type ch); try (by eexists); try done.
  destruct (pprint_charset_ok charset Hch) as (items & -> & _). by eexists.
Qed.

Lemma pprint_string_loop_ok items : Forall (fun x => x < length h)%nat items ->
  exists out rest, pprint_string_loop h items = Ok (out, rest) /\ Forall (fun x => x < length h)%nat rest /\
    (length rest <= length items)%nat /\
    match items with
    | y :: _ => (exists ch c, choice_at h y = Ok ch /\ cf_type ch = HCF_CHAR c) -> (length rest < length items)%nat
    | [] => True
    end.
Proof.
  induction 1 as [|x items Hx Hit IH]; cbn [pprint_string_loop]; [by exists [], []|].
  destruct (choice_at_ok x Hx) as (ch & E & Hch). rewrite E. cbn [mbind outcome_bind].
  destruct (cf_type ch) eqn:Et;
    try (eexists _, (x :: items); split_and!; [done|by constructor|done|
      intros (ch' & c & E' & Et'); congruence]).
  destruct IH as (out & rest & -> & Hr & Hl & _). eexists _, rest. split_and!; [done|done|simpl; lia|].
  intros _. simpl. lia.
Qed.

Lemma pprint_sequence_loop_ok fuel : forall first items, (length items <= fuel)%nat ->
  Forall (fun x => x < length h)%nat items -> exists out, pprint_sequence_loop h g fuel first items = Ok out.
Proof.
  induction fuel as [|fuel IH]; intros first [|x items] Hl Hit; cbn [pprint_sequence_loop]; try (by eexists);
    [simpl in Hl; lia|].
  pose proof Hit as [Hx Hit']%Forall_cons_1. destruct (choice_at_ok x Hx) as (ch & E & Hch). rewrite E.
  cbn [mbind outcome_bind].
  destruct (h_pprint_symbol_ok x Hx) as [o Eo].
  destruct (cf_type ch) eqn:Et;
    try (rewrite Eo; cbn [mbind outcome_bind]; destruct (IH false items) as [outs ->];
         [simpl in Hl; lia|done|by eexists]).
  destruct (pprint_string_loop_ok (x :: items) Hit) as (o' & rest & Es & Hr & _ & Hlt).
  unfold pprint_string. rewrite Es. cbn [mbind outcome_bind].
  destruct (IH false rest) as [outs ->]; [|done|by eexists].
  assert (length rest < length (x :: items))%nat by (apply Hlt; by exists ch, chr). simpl in *. lia.
Qed.

Lemma pprint_sequence_ok items : Forall (fun x => x < length h)%nat items ->
  exists out, pprint_sequence h g items = Ok out.
Proof.
  intros Hit. unfold pprint_sequence, h_pprint_sequence. destruct items as [|x items]; [by eexists|].
  destruct (pprint_sequence_loop_ok (length (x :: items)) true (x :: items)) as [out E]; [done..|].
  rewrite E. by eexists.
Qed.

Lemma pprint_alternatives_ok column seqs : Forall (Forall (fun x => x < length h)%nat) seqs ->
  exists out, pprint_alternatives h g column seqs = Ok out.
Proof.
  induction 1 as [|seq seqs Hs _ [outs IH]]; cbn [pprint_alternatives]; [by eexists|].
  destruct (pprint_sequence_ok seq Hs) as [out ->]. cbn [mbind outcome_bind]. rewrite IH. by eexists.
Qed.

(** The rules of a nonterminal: its name, and the arrow in the column after the
    width. *)
Lemma pprint_ntrules_ok nt indent width :
  is_choice h nt -> 0 <= indent -> Z.of_nat (length (nonterminal_name g nt)) <= width ->
  exists head out, pprint_ntrules h g nt indent width =
      Ok (indentation indent ++ nonterminal_name g nt ++ head ++ lit " ->" ++ out) /\
    Forall (fun c => c = 32) head /\
    Z.of_nat (length (indentation indent ++ nonterminal_name g nt ++ head)) = indent + width.
Proof.
  intros (ch & seqs & E & Et) Hi Hw. unfold pprint_ntrules, choice_at. rewrite E. cbn [deref mbind outcome_bind].
  pose proof (grammar_wf_lookup _ _ _ Hh E) as Hch. unfold choice_wf in Hch. rewrite Et in Hch |- *.
  set (pad := indentation (_ - _)). 
  assert (Forall (fun c => c = 32) pad) as Hpad by (by apply Forall_replicate).
  assert (Z.of_nat (length (indentation indent ++ nonterminal_name g nt ++ pad)) = indent + width) as Hlen.
  { unfold pad, indentation. rewrite !length_app, !length_replicate. lia. }
  destruct seqs as [|seq seqs].
  - exists pad, []. by rewrite app_nil_r.
  - apply Forall_cons_1 in Hch as [Hs Hss]. destruct (pprint_sequence_ok seq Hs) as [out ->].
    cbn [mbind outcome_bind]. destruct (pprint_alternatives_ok (indent + width) seqs Hss) as [outs ->].
    cbn [mbind outcome_bind]. exists pad, (out ++ outs). by rewrite <- !app_assoc.
Qed.
End Grammars.

(** The line of a nonterminal: its name padded to the width, an arrow, the
    productions. *)
Definition rule_of (g : HCFGrammar) (indent width : Z) (nt : nat) (rule : text) : Prop :=
  exists pad rest, rule = indentation indent ++ nonterminal_name g nt ++ pad ++ lit " ->" ++ rest /\
    Forall (fun c => c = 32) pad /\
    Z.of_nat (length (indentation indent ++ nonterminal_name g nt ++ pad)) = indent + width.

Lemma pprint_all_ok h g nts indent width :
  grammar_wf h -> 0 <= indent ->
  Forall (fun nt => is_choice h nt /\ Z.of_nat (length (nonterminal_name g nt)) <= width) nts ->
  exists rules, pprint_all h g nts indent width = Ok (mjoin rules) /\
    Forall2 (rule_of g indent width) nts rules.
Proof.
  intros Hh Hi. induction 1 as [|nt nts [Hnt Hw] _ (rules & E & Hr)]; cbn [pprint_all].
  { exists []. split; [done|constructor]. }
  destruct (pprint_ntrules_ok h Hh g nt indent width Hnt Hi Hw) as (pad & out & Eo & Hpad & Hlen).
  destruct Hnt as (ch & seqs & Ech & Et). unfold choice_at. rewrite Ech. cbn [deref mbind outcome_bind].
  rewrite Et. cbn [assert_ok mbind outcome_bind]. rewrite Eo, E. cbn [mbind outcome_bind].
  eexists (_ :: rules). split; [done|]. constructor; [by exists pad, out|done].
Qed.

Lemma iter_order_elem `{IterationOrder} {A} (l : list A) x : x ∈ iter_order l <-> x ∈ l.
Proof. by rewrite iter_order_perm. Qed.

Lemma max_nts_letters : MAX_NTS <= 26 ^ (1 + Z.of_nat 14).
Proof. by vm_compute. Qed.

Lemma h_cfgrammar_length `{IterationOrder} arena h s g h' :
  h_cfgrammar_ arena h s = Ok (g, h') -> (length h' <= S (length h))%nat.
Proof.
  unfold h_cfgrammar_. intros (nts & _ & E)%outcome_bind_ok.
  destruct (bool_decide _); apply outcome_bind_ok in E as (g' & _ & [= _ <-]); rewrite ?length_app; simpl; lia.
Qed.

(** C32: h_pprint_grammar prints every grammar that h_cfgrammar_ makes, without a
    fault: one rule for each nonterminal, in the order of the hash table, with the
    arrows in one column; the start symbol is called A and different nonterminals
    have different names. *)
Theorem h_pprint_grammar_spec `{IterationOrder} arena h s indent :
  grammar_wf h -> (s < length h)%nat -> Z.of_nat (length h) < MAX_NTS -> 0 <= indent ->
  exists g h' start width rules,
    h_cfgrammar_ arena h s = Ok (g, h') /\ g_start g = Some start /\
    h_pprint_grammar h' g indent = Ok (mjoin rules) /\
    Forall2 (rule_of g indent width) (iter_order (g_nts g)) rules /\
    nonterminal_name g start = lit "A" /\
    (forall x y, x ∈ g_nts g -> y ∈ g_nts g -> nonterminal_name g x = nonterminal_name g y -> x = y).
Proof.
  intros Hh Hs Hmax Hi. destruct (h_cfgrammar_ok arena h s Hh Hs) as (g & h' & start & G & E & Hg).
  pose proof (cg_wf _ _ _ _ _ _ _ Hg) as Hh'. pose proof (h_cfgrammar_length _ _ _ _ _ E) as Hlen.
  pose proof (cg_nts _ _ _ _ _ _ _ Hg) as Hnts. pose proof (cg_head _ _ _ _ _ _ _ Hg) as Hhead.
  assert (Z.of_nat (length (g_nts g)) <= MAX_NTS) as Hfew.
  { assert (length (g_nts g) <= length h')%nat; [|lia].
    apply nodup_bounded; [apply (cg_nodup _ _ _ _ _ _ _ Hg)|].
    intros x [(ch & seqs & Hx & _) _]%Hnts. by eapply lookup_lt_Some. }
  destruct (name_width_ok 14 (Z.of_nat (length (g_nts g))) 1 26 ltac:(lia) eq_refl Hfew
    (Z.le_trans _ _ _ Hfew max_nts_letters)) as (width & Ew & Hw & Hw1).
  destruct (pprint_all_ok h' g (iter_order (g_nts g)) indent width Hh' Hi) as (rules & Er & Hr).
  { apply list.Forall_forall. intros x Hx. rewrite iter_order_elem in Hx.
    split; [by apply Hnts|by apply nonterminal_name_width]. }
  exists g, h', start, width, rules. split_and!; [done| | |done| |].
  - by rewrite (cg_grammar _ _ _ _ _ _ _ Hg).
  - unfold h_pprint_grammar. rewrite (proj2 (Z.ltb_ge _ _)), Ew; [exact Er|].
    destruct (g_nts g); [discriminate Hhead|simpl; lia].
  - clear - Hhead. unfold nonterminal_name, nt_number. destruct (g_nts g) as [|nt nts]; [discriminate Hhead|].
    injection Hhead as ->. simpl. by rewrite decide_True.
  - intros x y Hx Hy. by apply nonterminal_name_inj.
Qed.

(** The grammar of balanced parentheses. *)
Lemma h_pprint_grammar_spec_witness :
  exists g h' start width rules,
    @h_cfgrammar_ reverse_order 0 parens 0 = Ok (g, h') /\ g_start g = Some start /\
    @h_pprint_grammar h' g reverse_order 4 = Ok (mjoin rules) /\
    Forall2 (rule_of g 4 width) (@iter_order reverse_order _ (g_nts g)) rules /\
    nonterminal_name g start = lit "A" /\
    (forall x y, x ∈ g_nts g -> y ∈ g_nts g -> nonterminal_name g x = nonterminal_name g y -> x = y).
Proof.
  apply (@h_pprint_grammar_spec reverse_order 0 parens 0 4); [apply parens_wf|simpl; lia|simpl; unfold MAX_NTS; lia|lia].
Defined.

(** * The buffer of the string maps *)

Lemma prefix_char_length c : (length (prefix_char c) <= 4)%nat.
Proof. unfold prefix_char. repeat case_match; simpl; lia. Qed.

Section StringMapsSafe.
Context (sep : Z) (valprint : option (sm_value -> outcome text)) `{IterationOrder}
  (Hval : forall f v, valprint = Some f -> exists out, f v = Ok out).

Lemma pprint_value_ok v : exists out, pprint_value valprint v = Ok out.
Proof.
  unfold pprint_value. destruct valprint as [f|]; [|by eexists].
  destruct (Hval f v eq_refl) as [out ->]. by eexists.
Qed.

Lemma pprint_epsilon_ok first prefix v : exists r, pprint_epsilon sep valprint first prefix v = Ok r.
Proof. destruct v as [v|]; simpl; [|by eexists]. destruct (pprint_value_ok v) as [out ->]. by eexists. Qed.

Lemma pprint_end_ok first prefix v : exists r, pprint_end valprint first prefix v = Ok r.
Proof. destruct v as [v|]; simpl; [|by eexists]. destruct (pprint_value_ok v) as [out ->]. by eexists. Qed.

(** The buffer of 512 bytes has room for four bytes for each level of the map. *)
Lemma pprint_stringmap_elems_ok k : forall map first prefix, sm_wf k map ->
  Z.of_nat (length prefix) + 4 * Z.of_nat k < BUFSIZE - 4 ->
  exists r, pprint_stringmap_elems sep valprint (S k) first prefix map = Ok r.
Proof.
  induction k as [k IH] using lt_wf_ind. intros map first prefix Hm Hl.
  destruct Hm as [k eps end_ chars a _ Hkeys Hsub].
  remember (S k) as fuel. destruct fuel as [|fuel]; [done|]. injection Heqfuel as ->.
  cbn [pprint_stringmap_elems sm_epsilon_branch sm_end_branch sm_char_branches].
  rewrite (proj2 (Z.ltb_lt _ _)) by lia. cbn [assert_ok mbind outcome_bind].
  destruct (pprint_epsilon_ok first prefix eps) as [[f1 out1] ->]. cbn [mbind outcome_bind].
  destruct (pprint_end_ok f1 prefix end_) as [[f2 out2] ->]. cbn [mbind outcome_bind].
  match goal with |- context [for_each ?f ?l ?s] =>
    assert (exists s', for_each f l s = Ok s') as [[f3 out3] ->]; [|by eexists];
    destruct (for_each_ind (fun _ _ => True) f l s) as (s' & Es & _); [done| |by exists s'] end.
  intros done_ [key ends] rest [f out] El _.
  assert ((key, ends) ∈ chars) as Hin by (rewrite <- iter_order_elem, El; set_solver).
  destruct (Hkeys _ Hin) as [Hk _]. unfold extend_prefix.
  pose proof (prefix_char_length (key_char key)).
  assert (Z.of_nat (length (prefix ++ prefix_char (key_char key))) + 4 * Z.of_nat (pred k) < BUFSIZE - 4) as Hl'.
  { rewrite length_app. lia. }
  rewrite (proj2 (Z.ltb_lt _ _)) by lia. cbn [mbind outcome_bind].
  destruct (IH (pred k) ltac:(lia) ends f (prefix ++ prefix_char (key_char key))) as [[f' out'] E];
    [exact (Hsub _ Hin)|exact Hl'|].
  replace (S (pred k)) with k in E by lia. rewrite E. cbn [mbind outcome_bind]. by eexists.
Qed.

(** Maps of strings of fewer than 127 symbols are printed, and nothing is written
    outside the buffer. *)
Lemma h_pprint_stringmap_ok k map : sm_wf k map -> (k < 127)%nat ->
  exists out, h_pprint_stringmap sep valprint (S k) map = Ok out.
Proof.
  intros Hm Hk. unfold h_pprint_stringmap.
  destruct (pprint_stringmap_elems_ok k map true [] Hm) as [[f out] ->]; [unfold BUFSIZE; simpl; lia|].
  by eexists.
Qed.
End StringMapsSafe.

(** The end of the input is printed with two pairs of quotes, and after another
    string with a comma and a fifth quote, whatever the separator. *)
Lemma stringset_end_quotes :
  @h_pprint_stringset insertion_order 2
    (mkStringMap (Some INSET) None [(char_key 97, mkStringMap None (Some INSET) [] 0)] 0) 0 =
  Ok ([123; 34; 34; 44; 34; 34; 34; 97; 34; 34; 36; 125; 10]).
Proof. vm_compute. reflexivity. Qed.
