(* ===== verification/FirstSets.v ===== *)
(** First, follow and predict sets (h_first, h_first_seq, h_follow, h_predict,
    stringset_extend of src/src/cfgrammar.c).

    The tables [first] and [follow] hold pointers to sets that a call further
    out may still be filling. Such a call changes its own set only, between the
    calls that it makes, so the table entry is kept up to date here and a set
    that is returned is the value it has at that moment; the callers copy it. *)

From S2P Require Import Prelude Charset Desugar Grammar StringMap CfGrammar.

(** [g->first] and [g->follow] *)
Abbreviation table := (list (gmap nat HStringMap)).
Definition table_get (t : table) (k x : nat) : option HStringMap := m ← t !! k; m !! x.
Definition table_put (k x : nat) (s : HStringMap) (t : table) : table := alter <[x := s]> k t.

Definition set_first (t : table) (g : HCFGrammar) : HCFGrammar :=
  set_tables t (g_follow g) (g_kmax g) g.
Definition set_follow (t : table) (g : HCFGrammar) : HCFGrammar :=
  set_tables (g_first g) t (g_kmax g) g.

(** The old tables, or the dummy table number 0, then new ones. *)
Definition ensure_k (g : HCFGrammar) (k : nat) : HCFGrammar :=
  if (k <=? g_kmax g)%nat then g else
  let old t := if (0 <? g_kmax g)%nat then t else [∅] in
  let new := replicate (k - g_kmax g) ∅ in
  set_tables (old (g_first g) ++ new) (old (g_follow g) ++ new) k g.

Definition StringSetFun := nat -> HCFGrammar -> outcome (HStringMap * HCFGrammar).

Section Sets.
Context `{IterationOrder} (h : list HCFChoice).

(** [k - 1] wraps at 0; [h_first] then allocates 0 bytes for its tables. The
    branch is put before it is filled, which nothing sees. *)
Fixpoint stringset_extend (k : nat) (f : StringSetFun) (ret as_ : HStringMap) (g : HCFGrammar)
    : outcome (HStringMap * HCFGrammar) :=
  '(ret, g) ← (match sm_epsilon_branch as_ with
               | Some _ => '(m, g) ← f k g; Ok (h_stringmap_update ret m, g)
               | None => Ok (ret, g)
               end);
  let ret := match sm_end_branch as_ with
             | Some _ => h_stringmap_put_end ret INSET
             | None => ret
             end in
  for_each (fun e '(ret, g) =>
    let c := key_char e.1 in
    match k with
    | O => Fault OutOfBounds
    | S k =>
        '(ret_, g) ← stringset_extend k f (h_stringmap_new (g_arena g)) e.2 g;
        Ok (h_stringmap_put_after ret c ret_, g)
    end) (iter_order (sm_char_branches as_)) (ret, g).

(** [h_first_seq] for the function [first] in place of [h_first]. *)
Fixpoint first_seq (first : nat -> nat -> HCFGrammar -> outcome (HStringMap * HCFGrammar))
    (s : list nat) (k : nat) (g : HCFGrammar) : outcome (HStringMap * HCFGrammar) :=
  match s with
  | [] => Ok (singleton_epsilon g, g)
  | x :: tail =>
      '(first_x, g) ← first k x g;
      if is_singleton_epsilon first_x then first_seq first tail k g
      else if negb (any_string_shorter k first_x) then Ok (first_x, g)
      else stringset_extend k (fun k g => first_seq first tail k g)
             (h_stringmap_new (g_arena g)) first_x g
  end.

(** The set in [g->first[k]] under construction. *)
Definition change_first (k x : nat) (f : HStringMap -> outcome HStringMap) (g : HCFGrammar)
    : outcome HCFGrammar :=
  ret ← deref NullDeref (table_get (g_first g) k x);
  ret ← f ret;
  Ok (set_first (table_put k x ret (g_first g)) g).

Definition first_charset (cs : HCharset) (ret : HStringMap) : outcome HStringMap :=
  for_each (fun c ret =>
    b ← charset_isset cs c;
    Ok (if b : bool then h_stringmap_put_char ret c INSET else ret)) all_chars ret.

(** [fuel] bounds the nesting of the calls that are not memoised. *)
Fixpoint first_rec (fuel k x : nat) (g : HCFGrammar) : outcome (HStringMap * HCFGrammar) :=
  if (k =? 0)%nat then Ok (singleton_epsilon g, g) else
  let g := ensure_k g k in
  match table_get (g_first g) k x with
  | Some ret => Ok (ret, g)
  | None =>
      match fuel with
      | O => OutOfFuel
      | S fuel =>
          let g := set_first (table_put k x (h_stringmap_new (g_arena g)) (g_first g)) g in
          ch ← choice_at h x;
          g ← (match cf_type ch with
               | HCF_END => change_first k x (fun ret => Ok (h_stringmap_put_end ret INSET)) g
               | HCF_CHAR chr =>
                   change_first k x (fun ret => Ok (h_stringmap_put_char ret chr INSET)) g
               | HCF_CHARSET cs => change_first k x (first_charset cs) g
               | HCF_CHOICE seq =>
                   for_each (fun items g =>
                     '(m, g) ← first_seq (first_rec fuel) items k g;
                     change_first k x (fun ret => Ok (h_stringmap_update ret m)) g) seq g
               | _ => Fault AssertFail
               end);
          ret ← deref NullDeref (table_get (g_first g) k x);
          Ok (ret, g)
      end
  end.

(** A symbol is entered once for each length. *)
Definition first_fuel (k : nat) : nat := k * length h.

Definition h_first (k x : nat) (g : HCFGrammar) : outcome (HStringMap * HCFGrammar) :=
  first_rec (first_fuel k) k x g.
Definition h_first_seq (s : list nat) : StringSetFun :=
  fun k g => first_seq (first_rec (first_fuel k)) s k g.

(** The set in [g->follow[k]] under construction. *)
Definition follow_set (k x : nat) (g : HCFGrammar) : outcome HStringMap :=
  deref NullDeref (table_get (g_follow g) k x).
Definition put_follow (k x : nat) (ret : HStringMap) (g : HCFGrammar) : HCFGrammar :=
  set_follow (table_put k x ret (g_follow g)) g.

(** The occurrences of [x] in a right-hand side of [a]. *)
Fixpoint follow_items (follow : nat -> nat -> HCFGrammar -> outcome (HStringMap * HCFGrammar))
    (k x a : nat) (s : list nat) (g : HCFGrammar) : outcome HCFGrammar :=
  match s with
  | [] => Ok g
  | y :: tail =>
      g ← (if (y =? x)%nat then
             '(first_tail, g) ← h_first_seq tail k g;
             ret ← follow_set k x g;
             '(ret, g) ← stringset_extend k (fun k g => follow k a g) ret first_tail g;
             Ok (put_follow k x ret g)
           else Ok g);
      follow_items follow k x a tail g
  end.

Fixpoint follow_rec (fuel k x : nat) (g : HCFGrammar) : outcome (HStringMap * HCFGrammar) :=
  if (k =? 0)%nat then Ok (singleton_epsilon g, g) else
  let g := ensure_k g k in
  match table_get (g_follow g) k x with
  | Some ret => Ok (ret, g)
  | None =>
      match fuel with
      | O => OutOfFuel
      | S fuel =>
          let ret := h_stringmap_new (g_arena g) in
          let ret := if decide (Some x = g_start g) then h_stringmap_put_end ret INSET else ret in
          let g := put_follow k x ret g in
          g ← for_each (fun a g =>
                ch ← choice_at h a;
                match cf_type ch with
                | HCF_CHOICE seq =>
                    for_each (fun items g => follow_items (follow_rec fuel) k x a items g) seq g
                | _ => Fault AssertFail
                end) (iter_order (g_nts g)) g;
          ret ← follow_set k x g;
          Ok (ret, g)
      end
  end.

Definition h_follow (k x : nat) (g : HCFGrammar) : outcome (HStringMap * HCFGrammar) :=
  follow_rec (first_fuel k) k x g.

Definition h_predict (k A : nat) (rhs : list nat) (g : HCFGrammar)
    : outcome (HStringMap * HCFGrammar) :=
  '(first_rhs, g) ← h_first_seq rhs k g;
  '(ret, g) ← stringset_extend k (fun k g => h_follow k A g) (h_stringmap_new (g_arena g))
                first_rhs g;
  Ok (remove_all_shorter k ret, g).

End Sets.
