(* ===== verification/FirstFacts.v ===== *)
(** The analysis of FirstSets against the languages of Grammar: every call ends
    and the sets hold only first, following and predicting strings. *)

From S2P Require Import Prelude Charset Desugar Grammar StringMap CfGrammar FirstSets.

(** * Sets of strings *)

Definition bytes_of (cs : list Z) : list symbol := Sym <$> cs.

Lemma length_bytes cs : length (bytes_of cs) = length cs.
Proof. apply length_fmap. Qed.

Lemma bytes_end cs b u v : bytes_of cs ++ b = u ++ Sym_end :: v -> exists u', b = u' ++ Sym_end :: v.
Proof.
  revert u. induction cs as [|c cs IH]; intros u Hu; [by exists u|].
  destruct u as [|x u]; [done|]. injection Hu as _ Hu. by apply (IH u).
Qed.

Lemma no_end_bytes cs u v : bytes_of cs <> u ++ Sym_end :: v.
Proof.
  intros H. rewrite <- (app_nil_r (bytes_of cs)) in H. apply bytes_end in H as [u' H].
  by destruct u'.
Qed.

Lemma cut_bytes_app k cs b :
  (length cs <= k)%nat -> cut (k - length cs) b -> cut k (bytes_of cs ++ b).
Proof.
  intros Hl [Hb He]. split; [rewrite length_app, length_bytes; lia|].
  intros u v Hu. apply bytes_end in Hu as [u' Hu]. by eapply He.
Qed.

Lemma full_bytes k cs : full k (bytes_of cs) <-> length cs = k.
Proof.
  unfold full. rewrite length_bytes. split; [|by left].
  intros [|[u Hu]]; [done|]. by apply no_end_bytes in Hu.
Qed.

Lemma full_bytes_app k cs b :
  (length cs <= k)%nat -> full (k - length cs) b -> full k (bytes_of cs ++ b).
Proof.
  intros Hl [Hb|[u ->]]; [left; rewrite length_app, length_bytes; lia|right].
  exists (bytes_of cs ++ u). by rewrite app_assoc.
Qed.

Lemma full_end k u : full k (u ++ [Sym_end]).
Proof. right. by exists u. Qed.

Lemma cut_length k w : cut k w -> (length w <= k)%nat.
Proof. by intros []. Qed.

Lemma cut_zero w : cut 0 w -> w = [].
Proof. intros [Hl _]. destruct w; [done|simpl in Hl; lia]. Qed.

Lemma cut_single k x : (0 < k)%nat -> cut k [x].
Proof.
  intros Hk. split; [simpl; lia|]. intros [|y u] v Hu; [by injection Hu|].
  by destruct u.
Qed.

Lemma first_k_nil h k : first_k h k [] [].
Proof.
  split; [split; [simpl; lia|by intros [|] ?]|]. exists []. split; [constructor|by right].
Qed.

Lemma first_k_zero h s : first_k h 0 s [].
Proof.
  split; [split; [simpl; lia|by intros [|] ?]|]. exists s. split; [constructor|by left; left].
Qed.

(** A string of the first part that is not full is one of its derivations. *)
Lemma first_k_app h k s t cs b :
  first_k h k s (bytes_of cs) -> first_k h (k - length cs) t b ->
  first_k h k (s ++ t) (bytes_of cs ++ b).
Proof.
  intros [Hc (r & Hr & Hf)] [Hcb (q & Hq & Hfb)].
  assert (length cs <= k)%nat as Hl by (rewrite <- length_bytes; by apply cut_length).
  split; [by apply cut_bytes_app|]. destruct (decide (length cs = k)) as [Hk|Hk].
  - rewrite Hk, Nat.sub_diag in Hcb. rewrite (cut_zero _ Hcb), app_nil_r.
    exists (r ++ t). split; [by apply leftmost_app|left; by apply full_bytes].
  - destruct Hf as [Hf%full_bytes| ->]; [done|]. exists q. split.
    + apply (leftmost_trans h (s ++ t) (bytes_of cs) t); [|done].
      exact (leftmost_app _ _ _ [] t Hr).
    + destruct Hfb as [Hfb|]; [left; by apply full_bytes_app|by right].
Qed.

Lemma first_k_full h k s t w : first_k h k s w -> full k w -> first_k h k (s ++ t) w.
Proof.
  intros [Hc (r & Hr & _)] Hf. split; [done|]. exists (r ++ t). split; [by apply leftmost_app|by left].
Qed.

Lemma first_k_choice h k x ch seqs items w :
  h !! x = Some ch -> cf_type ch = HCF_CHOICE seqs -> items ∈ seqs ->
  first_k h k items w -> first_k h k [x] w.
Proof.
  intros Hx Ht Hi [Hc (r & Hr & Hf)]. split; [done|]. exists r. split; [|done].
  eapply leftmost_choice; [done..|]. by rewrite app_nil_r.
Qed.

Lemma first_k_terminal h k x y : (0 < k)%nat -> terminal h x y -> first_k h k [x] [y].
Proof.
  intros Hk Hx. split; [by apply cut_single|]. exists []. split; [|by right].
  constructor; [done|constructor].
Qed.

Lemma after_k_app h k s t cs b :
  first_k h k s (bytes_of cs) -> after_k h (k - length cs) t b ->
  after_k h k (s ++ t) (bytes_of cs ++ b).
Proof.
  intros [Hc (r & Hr & Hf)] [Hcb Hb].
  assert (length cs <= k)%nat as Hl by (rewrite <- length_bytes; by apply cut_length).
  split; [by apply cut_bytes_app|]. destruct (decide (length cs = k)) as [Hk|Hk].
  - rewrite Hk, Nat.sub_diag in Hcb. rewrite (cut_zero _ Hcb), app_nil_r. left.
    split; [by apply full_bytes|]. exists (r ++ t). by apply leftmost_app.
  - destruct Hf as [Hf%full_bytes| ->]; [done|].
    assert (leftmost h (s ++ t) (bytes_of cs) t) as Hs by exact (leftmost_app _ _ _ [] t Hr).
    destruct Hb as [[Hfb [q Hq]]|(v & -> & Hv)]; [left|right].
    + split; [by apply full_bytes_app|]. exists q. by eapply leftmost_trans.
    + exists (bytes_of cs ++ v). split; [by rewrite app_assoc|by eapply leftmost_trans].
Qed.

Lemma after_k_end h k s t u :
  first_k h k s (u ++ [Sym_end]) -> after_k h k (s ++ t) (u ++ [Sym_end]).
Proof.
  intros [Hc (r & Hr & _)]. split; [done|]. left. split; [apply full_end|].
  exists (r ++ t). by apply leftmost_app.
Qed.

(** The strings that [stringset_extend] builds. *)
Definition extended (k : nat) (F : nat -> list symbol -> Prop) (as_ : HStringMap) (w : list symbol)
    : Prop :=
  (exists cs b, w = bytes_of cs ++ b /\ sm_in (bytes_of cs) as_ /\ F (k - length cs)%nat b) \/
  (exists cs, w = bytes_of cs ++ [Sym_end] /\ sm_in w as_).

Lemma sm_in_cons c w m n :
  0 <= c < 256 -> h_stringmap_get_char m c = Some n -> sm_in (Sym c :: w) m <-> sm_in w n.
Proof. intros Hc Hn. unfold sm_in. simpl. by rewrite decide_True, Hn. Qed.

Lemma extended_cons k F m n c w :
  0 <= c < 256 -> h_stringmap_get_char m c = Some n ->
  extended k F n w -> extended (S k) F m (Sym c :: w).
Proof.
  intros Hc Hn [(cs & b & -> & Hin & Hb)|(cs & -> & Hin)].
  - left. exists (c :: cs), b. split; [done|]. split; [|done]. by apply (sm_in_cons c _ m n).
  - right. exists (c :: cs). split; [done|]. by apply (sm_in_cons c _ m n).
Qed.

(** * The tables *)

Lemma table_get_put k x s t k' x' :
  (k < length t)%nat ->
  table_get (table_put k x s t) k' x' = if decide (k' = k /\ x' = x) then Some s else table_get t k' x'.
Proof.
  intros [m Hm]%lookup_lt_is_Some. unfold table_get, table_put.
  destruct (decide (k' = k)) as [->|Hk].
  - rewrite list_lookup_alter_eq, Hm. simpl. destruct (decide (x' = x)) as [->|Hx].
    + by rewrite lookup_insert_eq, decide_True.
    + rewrite lookup_insert_ne by done. by rewrite decide_False by (by intros []).
  - rewrite list_lookup_alter_ne by done. by rewrite decide_False by (by intros []).
Qed.

Definition tables_wf (g : HCFGrammar) : Prop :=
  let n := if (0 <? g_kmax g)%nat then S (g_kmax g) else 0%nat in
  length (g_first g) = n /\ length (g_follow g) = n.

(** [P k x] are the strings that the set of [x] for [k] may hold. *)
Definition sets_ok (h : list HCFChoice) (P : nat -> nat -> list symbol -> Prop) (t : table) : Prop :=
  forall k x m, table_get t k x = Some m -> sm_wf k m /\ forall w, sm_in w m -> P k x w.

Definition first_P (h : list HCFChoice) (k x : nat) : list symbol -> Prop := first_k h k [x].

Section Invariant.
Context (h : list HCFChoice) (start : nat).

Record analysis_ok (g : HCFGrammar) : Prop := {
  ao_tables : tables_wf g;
  ao_first : sets_ok h (first_P h) (g_first g);
  ao_follow : sets_ok h (follow_k h start) (g_follow g);
}.

(** The fixed part stays and the tables grow. *)
Record grows (g g' : HCFGrammar) : Prop := {
  gr_start : g_start g' = g_start g;
  gr_nts : g_nts g' = g_nts g;
  gr_geneps : g_geneps g' = g_geneps g;
  gr_arena : g_arena g' = g_arena g;
  gr_kmax : (g_kmax g <= g_kmax g')%nat;
  gr_first : forall k x, is_Some (table_get (g_first g) k x) -> is_Some (table_get (g_first g') k x);
  gr_follow : forall k x, is_Some (table_get (g_follow g) k x) -> is_Some (table_get (g_follow g') k x);
}.

#[global] Instance grows_preorder : PreOrder grows.
Proof.
  split; [by constructor|]. intros g1 g2 g3 [] []. constructor; eauto; [congruence..|lia].
Qed.

(** [m] returns a set of strings of [S] and keeps the invariant. *)
Definition computes (m : HCFGrammar -> outcome (HStringMap * HCFGrammar)) (k : nat)
    (S : list symbol -> Prop) (g : HCFGrammar) : Prop :=
  exists s g', m g = Ok (s, g') /\ analysis_ok g' /\ grows g g' /\ sm_wf k s /\
    forall w, sm_in w s -> S w.

Lemma table_get_ensure g k i x :
  tables_wf g ->
  table_get (g_first (ensure_k g k)) i x = table_get (g_first g) i x /\
  table_get (g_follow (ensure_k g k)) i x = table_get (g_follow g) i x.
Proof.
  unfold tables_wf, ensure_k. destruct (Nat.leb_spec k (g_kmax g)); [done|].
  destruct (Nat.ltb_spec 0 (g_kmax g)) as [Hk|Hk]; intros [H1 H2]; simpl.
  all: assert (forall (t t' : table) n, (forall y, table_get t' i y = table_get t i y) ->
    table_get (t' ++ replicate n ∅) i x = table_get t i x) as Hrep.
  1, 3: intros t t' n Ht; rewrite <- Ht; unfold table_get; rewrite lookup_app;
    destruct (t' !! i) as [m|] eqn:Hi; simpl; [done|];
    destruct (replicate n ∅ !! (i - length t')%nat) as [m|] eqn:Hm; simpl; [|done];
    apply lookup_replicate in Hm as [-> _]; apply lookup_empty.
  - by split; apply Hrep.
  - apply nil_length_inv in H1, H2. rewrite H1, H2.
    split; apply (Hrep [] [∅]); intros y; destruct i; try done; apply lookup_empty.
Qed.

Lemma ensure_k_ok g k :
  analysis_ok g ->
  analysis_ok (ensure_k g k) /\ grows g (ensure_k g k) /\ (k <= g_kmax (ensure_k g k))%nat.
Proof.
  intros [Ht H1 H2]. pose proof (fun i x => table_get_ensure g k i x Ht) as Hg.
  assert ((k <= g_kmax (ensure_k g k))%nat /\ (g_kmax g <= g_kmax (ensure_k g k))%nat) as [Hk Hk'].
  { unfold ensure_k. destruct (Nat.leb_spec k (g_kmax g)); simpl; lia. }
  split_and!; [|..|done].
  - split; [|intros i x m; rewrite (proj1 (Hg i x)); apply H1|
             intros i x m; rewrite (proj2 (Hg i x)); apply H2].
    revert Ht. unfold tables_wf, ensure_k. destruct (Nat.leb_spec k (g_kmax g)); [done|]. simpl.
    destruct (Nat.ltb_spec 0 k); [|lia].
    destruct (Nat.ltb_spec 0 (g_kmax g)); intros [Hl1 Hl2];
      rewrite !length_app, !length_replicate; simpl; lia.
  - split; [unfold ensure_k; by case_match..|done| |]; intros i x.
    + by rewrite (proj1 (Hg i x)).
    + by rewrite (proj2 (Hg i x)).
Qed.

Lemma put_first_ok g k x s :
  analysis_ok g -> (0 < k)%nat -> (k <= g_kmax g)%nat -> sm_wf k s ->
  (forall w, sm_in w s -> first_k h k [x] w) ->
  analysis_ok (set_first (table_put k x s (g_first g)) g) /\
  grows g (set_first (table_put k x s (g_first g)) g) /\
  table_get (table_put k x s (g_first g)) k x = Some s.
Proof.
  intros [[Hl1 Hl2] H1 H2] Hk Hmax Hs Hw.
  assert (k < length (g_first g))%nat as Hlt.
  { rewrite Hl1. destruct (Nat.ltb_spec 0 (g_kmax g)); lia. }
  pose proof (fun k' x' => table_get_put k x s (g_first g) k' x' Hlt) as Hg.
  split_and!; [split| |by rewrite Hg, decide_True].
  - split; simpl; [by unfold table_put; rewrite length_alter|done].
  - intros k' x' m. simpl. rewrite Hg. case_decide as Hd; [destruct Hd; subst|apply H1].
    intros [= <-]. by split.
  - done.
  - split; try done. intros k' x'. simpl. rewrite Hg. by case_decide.
Qed.

Lemma put_follow_ok g k x s :
  analysis_ok g -> (0 < k)%nat -> (k <= g_kmax g)%nat -> sm_wf k s ->
  (forall w, sm_in w s -> follow_k h start k x w) ->
  analysis_ok (put_follow k x s g) /\ grows g (put_follow k x s g) /\
  follow_set k x (put_follow k x s g) = Ok s.
Proof.
  intros [[Hl1 Hl2] H1 H2] Hk Hmax Hs Hw.
  assert (k < length (g_follow g))%nat as Hlt.
  { rewrite Hl2. destruct (Nat.ltb_spec 0 (g_kmax g)); lia. }
  pose proof (fun k' x' => table_get_put k x s (g_follow g) k' x' Hlt) as Hg.
  split_and!; [split| |unfold follow_set; simpl; by rewrite Hg, decide_True].
  - split; simpl; [done|by unfold table_put; rewrite length_alter].
  - done.
  - intros k' x' m. simpl. rewrite Hg. case_decide as Hd; [destruct Hd; subst|apply H2].
    intros [= <-]. by split.
  - split; try done. intros k' x'. simpl. rewrite Hg. by case_decide.
Qed.

(** ** Termination: what is not memoised yet *)

Definition pairs (K : nat) : list (nat * nat) := list_prod (seq 1 K) (seq 0 (length h)).
Definition todo (t : table) (K : nat) : nat :=
  length (filter (fun p => table_get t p.1 p.2 = None) (pairs K)).

Lemma filter_length_le {A} (P Q : A -> Prop) `{!forall x, Decision (P x), !forall x, Decision (Q x)} l :
  (forall x, Q x -> P x) -> (length (filter Q l) <= length (filter P l))%nat.
Proof.
  intros HQ. induction l as [|x l IH]; [done|]. rewrite !filter_cons.
  destruct (decide (Q x)), (decide (P x)); simpl; try lia. by destruct n; apply HQ.
Qed.

Lemma filter_length_lt {A} (P Q : A -> Prop) `{!forall x, Decision (P x), !forall x, Decision (Q x)} l y :
  (forall x, Q x -> P x) -> y ∈ l -> P y -> ~ Q y ->
  (length (filter Q l) < length (filter P l))%nat.
Proof.
  intros HQ Hy HP HnQ. induction Hy as [y l|y x l Hy IH]; rewrite !filter_cons.
  - rewrite decide_False, decide_True by done. simpl. pose proof (filter_length_le P Q l HQ). lia.
  - specialize (IH HP HnQ). destruct (decide (Q x)), (decide (P x)); simpl; try lia.
    by destruct n; apply HQ.
Qed.

Lemma elem_of_pairs K k x : (k, x) ∈ pairs K <-> (1 <= k <= K)%nat /\ (x < length h)%nat.
Proof.
  unfold pairs. rewrite list_elem_of_In, in_prod_iff, <- !list_elem_of_In, !elem_of_seq. lia.
Qed.

Lemma todo_le t t' K :
  (forall k x, is_Some (table_get t k x) -> is_Some (table_get t' k x)) ->
  (todo t' K <= todo t K)%nat.
Proof.
  intros Ht. apply filter_length_le. intros [k x]. simpl. rewrite !eq_None_not_Some. auto.
Qed.

Lemma todo_lt t t' K k x :
  (forall k x, is_Some (table_get t k x) -> is_Some (table_get t' k x)) ->
  (1 <= k <= K)%nat -> (x < length h)%nat -> table_get t k x = None -> is_Some (table_get t' k x) ->
  (todo t' K < todo t K)%nat.
Proof.
  intros Ht Hk Hx Hn Hs. apply (filter_length_lt _ _ _ (k, x)); [..|done|].
  - intros [k' x']. simpl. rewrite !eq_None_not_Some. auto.
  - by apply elem_of_pairs.
  - simpl. intros Hc. rewrite Hc in Hs. by destruct Hs.
Qed.

Lemma todo_fuel t K : (todo t K <= first_fuel h K)%nat.
Proof.
  unfold todo, first_fuel, pairs. etrans; [apply length_filter|].
  by rewrite length_prod, !length_seq.
Qed.

End Invariant.

(** * What the functions compute *)

Section Compute.
Context `{IterationOrder} (h : list HCFChoice) (start : nat).

Local Abbreviation computes := (computes h start).
Local Abbreviation analysis_ok := (analysis_ok h start).

Lemma computes_weaken m k (S S' : list symbol -> Prop) g :
  computes m k S g -> (forall w, S w -> S' w) -> computes m k S' g.
Proof. intros (s & g' & ? & ? & ? & ? & Hs) HS. exists s, g'. split_and!; auto. Qed.

Lemma computes_ret k (S : list symbol -> Prop) s g :
  analysis_ok g -> sm_wf k s -> (forall w, sm_in w s -> S w) -> computes (fun g => Ok (s, g)) k S g.
Proof. intros Hg Hs HS. exists s, g. by split_and!. Qed.

(** A call that was preceded by others. *)
Lemma computes_after m k S g g' :
  computes m k S g' -> grows g g' -> exists s g'', m g' = Ok (s, g'') /\ analysis_ok g'' /\
    grows g g'' /\ sm_wf k s /\ forall w, sm_in w s -> S w.
Proof. intros (s & g'' & ? & ? & ? & ? & ?) Hg. exists s, g''. split_and!; try done. by etrans. Qed.

Lemma not_in_new w a : ~ sm_in w (h_stringmap_new a).
Proof. intros Hw. unfold sm_in in Hw. rewrite lookup_new in Hw. by destruct Hw. Qed.

Lemma singleton_epsilon_ok k g :
  sm_wf k (singleton_epsilon g) /\ forall w, sm_in w (singleton_epsilon g) <-> w = [].
Proof.
  split; [apply set_epsilon_wf, new_map_wf|]. intros w. unfold sm_in, singleton_epsilon.
  unfold h_stringmap_put_epsilon. rewrite lookup_set_epsilon, lookup_new.
  case_decide; split; try done; by intros [].
Qed.

Lemma in_put_end w v m : sm_in w (h_stringmap_put_end m v) <-> w = [Sym_end] \/ sm_in w m.
Proof.
  unfold sm_in, h_stringmap_put_end. rewrite lookup_set_end. case_decide as Hw.
  - split; [by left|by exists v].
  - split; [by right|by intros [|]].
Qed.

(** The branches of a well-formed map. *)
Lemma branch_of k e m :
  sm_wf k m -> e ∈ sm_char_branches m ->
  exists k' c, k = S k' /\ 0 <= c < 256 /\ key_char e.1 = c /\ sm_wf k' e.2 /\
    h_stringmap_get_char m c = Some e.2.
Proof.
  intros Hm He. inversion Hm as [k0 eps end_ chars a Hnd Hk Hc]; subst. simpl in He.
  destruct (Hk e He) as (Hpos & c & Hb & Hkey). destruct k as [|k]; [lia|].
  exists k, c. rewrite Hkey, key_char_key by done. split_and!; try (done || lia); [by apply Hc|].
  unfold h_stringmap_get_char. simpl. apply branch_get_nodup; [done|].
  rewrite <- Hkey. by destruct e.
Qed.

Lemma in_put_after w c n m :
  0 <= c < 256 -> sm_in w (h_stringmap_put_after m c n) ->
  sm_in w m \/ exists w', w = Sym c :: w' /\ sm_in w' n.
Proof.
  intros Hc. unfold sm_in. rewrite lookup_put_after by done.
  destruct w as [|[d|] w]; [by left| |by left]. case_decide; [subst; eauto|by left].
Qed.

(** The strings of [as_] that [stringset_extend] starts with: none, the end. *)
Lemma extend_epsilon_ok k (f : StringSetFun) F ret as_ g :
  computes (f k) k (F k) g -> analysis_ok g -> sm_wf k ret ->
  computes (fun g => match sm_epsilon_branch as_ with
                     | Some _ => '(m, g) ← f k g; Ok (h_stringmap_update ret m, g)
                     | None => Ok (ret, g)
                     end) k (fun w => sm_in w ret \/ extended k F as_ w) g.
Proof.
  intros Hf Hg Hret. destruct (sm_epsilon_branch as_) as [v|] eqn:He.
  2: { apply computes_ret; auto. }
  destruct Hf as (m & g' & E & Hg' & Hgr & Hm & HFm). unfold FirstFacts.computes. rewrite E.
  do 2 eexists. split; [done|]. split_and!; [done..|by eauto with sm_wf|].
  intros w [Hw|Hw]%(in_update k); [|by left|done]. right. left. exists [], w.
  rewrite Nat.sub_0_r. split; [done|]. split; [by exists v|by apply HFm].
Qed.

Lemma extend_end_ok k F ret as_ w :
  sm_in w (match sm_end_branch as_ with
           | Some _ => h_stringmap_put_end ret INSET
           | None => ret
           end) -> sm_in w ret \/ extended k F as_ w.
Proof.
  destruct (sm_end_branch as_) as [v|] eqn:He; [|by left].
  intros [->|Hw]%in_put_end; [|by left]. right. right. exists []. split; [done|]. by exists v.
Qed.

Lemma stringset_extend_ok k f F ret as_ g :
  (forall k' g', (k' <= k)%nat -> analysis_ok g' -> grows g g' -> computes (f k') k' (F k') g') ->
  analysis_ok g -> sm_wf k ret -> sm_wf k as_ ->
  computes (stringset_extend k f ret as_) k (fun w => sm_in w ret \/ extended k F as_ w) g.
Proof.
  revert ret as_ g. induction k as [k IH] using lt_wf_ind. intros ret as_ g Hf Hg Hret Has.
  destruct (extend_epsilon_ok k f F ret as_ g) as (ret1 & g1 & E1 & Hg1 & Hgr1 & Hw1 & Hs1);
    [by apply Hf|done..|].
  set (ret2 := match sm_end_branch as_ with
               | Some _ => h_stringmap_put_end ret1 INSET
               | None => ret1
               end).
  assert (sm_wf k ret2) as Hw2 by (subst ret2; destruct (sm_end_branch as_); [by apply set_end_wf|done]).
  destruct (for_each_ind (fun _ '(ret', g') => analysis_ok g' /\ grows g g' /\ sm_wf k ret' /\
      forall w, sm_in w ret' -> sm_in w ret \/ extended k F as_ w)
    (fun e '(ret, g) => match k with
      | O => Fault OutOfBounds
      | S k => '(ret_, g) ← stringset_extend k f (h_stringmap_new (g_arena g)) e.2 g;
               Ok (h_stringmap_put_after ret (key_char e.1) ret_, g)
      end) (iter_order (sm_char_branches as_)) (ret2, g1))
    as ([ret' g'] & E' & Hg' & Hgr' & Hw' & Hs').
  - split_and!; [done..|]. intros w [Hw|Hw]%(extend_end_ok k F); auto.
  - intros done_ e rest [ret3 g3] El (Hg3 & Hgr3 & Hw3 & Hs3).
    assert (e ∈ sm_char_branches as_) as He.
    { rewrite <- (iter_order_perm _ (sm_char_branches as_)), El. apply elem_of_app. by right; left. }
    destruct (branch_of k e as_ Has He) as (k' & c & -> & Hc & -> & Hwe & Hge).
    destruct (IH k' (Nat.lt_succ_diag_r k') (h_stringmap_new (g_arena g3)) e.2 g3)
      as (s & g4 & -> & Hg4 & Hgr4 & Hw4 & Hs4); [|done|apply new_map_wf|done|].
    { intros k2 g2 Hk2 Hg2 Hgr2. apply Hf; [lia|done|by etrans]. }
    eexists. split; [done|]. split_and!; [done|by etrans|by apply set_branch_wf|].
    intros w [Hw|(w' & -> & Hw)]%in_put_after; [by apply Hs3| |done]. right.
    apply Hs4 in Hw as [Hw|Hw]; [by apply not_in_new in Hw|by eapply extended_cons].
  - exists ret', g'. destruct k; cbn [stringset_extend]; rewrite E1; cbn [mbind outcome_bind];
      by split_and!.
Qed.

(** What the first set of [x] may hold, for the calls after [g]. *)
Definition computes_first (first : nat -> nat -> HCFGrammar -> outcome (HStringMap * HCFGrammar))
    (k x : nat) (g : HCFGrammar) : Prop :=
  forall k' g', (k' <= k)%nat -> analysis_ok g' -> grows g g' ->
    computes (first k' x) k' (first_k h k' [x]) g'.

Lemma computes_first_after first k k' x g g' :
  computes_first first k x g -> (k' <= k)%nat -> grows g g' -> computes_first first k' x g'.
Proof. intros Hf Hk Hg k2 g2 Hk2 Hg2 Hgr. apply Hf; [lia|done|by etrans]. Qed.

(** A set without shorter strings holds full ones. *)
Lemma not_shorter_full k m w :
  sm_wf k m -> any_string_shorter k m = false -> sm_in w m -> cut k w -> full k w.
Proof.
  intros Hm Ha Hw [Hl He]. destruct (list_find (fun x => x = Sym_end) w) as [[i x]|] eqn:Hf.
  - apply list_find_Some in Hf as (Hi & -> & _). apply list_elem_of_split_length in Hi as (u & v & -> & _).
    specialize (He u v eq_refl). subst. apply full_end.
  - apply list_find_None in Hf. assert (exists cs, w = bytes_of cs) as [cs ->].
    { clear -Hf. induction Hf as [|[c|] w Hc _ [cs ->]]; [by exists []|by exists (c :: cs)|done]. }
    apply full_bytes. rewrite length_bytes in Hl. destruct (decide (length cs = k)); [done|].
    assert (any_string_shorter k m = true); [|congruence].
    apply (any_string_shorter_spec k k m Hm). exists cs. split; [lia|done].
Qed.

Lemma first_seq_ok first s k g :
  (forall x, x ∈ s -> computes_first first k x g) -> analysis_ok g ->
  computes (first_seq first s k) k (first_k h k s) g.
Proof.
  revert k g. induction s as [|x s IH]; intros k g Hf Hg; cbn [first_seq].
  { destruct (singleton_epsilon_ok k g) as [Hw Hs]. apply computes_ret; [done..|].
    intros w ->%Hs. apply first_k_nil. }
  destruct (Hf x ltac:(left) k g) as (m & g1 & E1 & Hg1 & Hgr1 & Hm & HFm); [done..|].
  assert (forall k' g', (k' <= k)%nat -> analysis_ok g' -> grows g1 g' ->
            computes (first_seq first s k') k' (first_k h k' s) g') as Htail.
  { intros k' g' Hk' Hg' Hgr. apply IH; [|done]. intros y Hy.
    apply (computes_first_after first k k' y g g'); [apply Hf; by right|done|by etrans]. }
  unfold FirstFacts.computes. rewrite E1. cbn [mbind outcome_bind].
  destruct (is_singleton_epsilon m) eqn:Hse; [|destruct (any_string_shorter k m) eqn:Ha]; simpl.
  - apply (computes_after _ _ _ g g1); [|done]. eapply computes_weaken; [by apply Htail|].
    intros w Hw. apply (first_k_app h k [x] s [] w); [|by rewrite Nat.sub_0_r].
    apply HFm. by apply (is_singleton_epsilon_spec k).
  - apply (computes_after _ _ _ g g1); [|done].
    eapply computes_weaken; [by apply (stringset_extend_ok k _ (fun k' => first_k h k' s));
      [|..|apply new_map_wf|]|].
    intros w [Hw|[(cs & b & -> & Hin & Hb)|(cs & -> & Hin)]]; [by apply not_in_new in Hw|..].
    + apply (first_k_app h k [x] s); auto.
    + apply (first_k_full h k [x] s); [by apply HFm|apply full_end].
  - exists m, g1. split_and!; [done..|]. intros w Hw. apply (first_k_full h k [x] s); [by apply HFm|].
    apply (not_shorter_full k m); [done..|]. by apply HFm.
Qed.

(** ** First sets *)

(** A sound first set of [x]. *)
Definition first_sound (k x : nat) (ret : HStringMap) : Prop :=
  sm_wf k ret /\ forall w, sm_in w ret -> first_k h k [x] w.

Lemma change_first_ok k x f g :
  analysis_ok g -> (0 < k)%nat -> (k <= g_kmax g)%nat -> is_Some (table_get (g_first g) k x) ->
  (forall ret, first_sound k x ret -> exists ret', f ret = Ok ret' /\ first_sound k x ret') ->
  exists g', change_first k x f g = Ok g' /\ analysis_ok g' /\ grows g g'.
Proof.
  intros Hg Hk Hmax [ret Hret] Hf. unfold change_first. rewrite Hret. cbn [deref mbind outcome_bind].
  destruct (Hf ret) as (ret' & -> & Hw & Hs); [exact (ao_first _ _ _ Hg _ _ _ Hret)|].
  destruct (put_first_ok h start g k x ret') as (Hg' & Hgr & _); [done..|]. eauto.
Qed.

Lemma put_char_sound k x c ret :
  (0 < k)%nat -> 0 <= c < 256 -> terminal h x (Sym c) -> first_sound k x ret ->
  first_sound k x (h_stringmap_put_char ret c INSET).
Proof.
  intros Hk Hc Hx [Hw Hs]. destruct k as [|k]; [lia|]. split; [by apply put_char_wf|].
  intros w [Hw'|(w' & -> & Hw')]%in_put_after; [by apply Hs| |done].
  assert (w' = []) as ->.
  { unfold sm_in, h_stringmap_put_epsilon in Hw'. rewrite lookup_set_epsilon, lookup_new in Hw'.
    case_decide; [done|by destruct Hw']. }
  by apply first_k_terminal.
Qed.

Lemma first_charset_sound k x ch cs ret :
  (0 < k)%nat -> charset_wf cs -> h !! x = Some ch -> cf_type ch = HCF_CHARSET cs ->
  first_sound k x ret -> exists ret', first_charset cs ret = Ok ret' /\ first_sound k x ret'.
Proof.
  intros Hk Hcs Hx Ht Hret. unfold first_charset.
  apply (for_each_ind (fun _ => first_sound k x)); [done|].
  intros done_ c rest ret1 El Hret1.
  assert (0 <= c < 256) as Hc.
  { apply (proj1 (list.Forall_forall _ _) all_chars_range). rewrite El. apply elem_of_app.
    by right; left. }
  rewrite charset_isset_mem by done. cbn [mbind outcome_bind]. eexists. split; [done|].
  destruct (charset_mem cs c) eqn:Hm; [|done]. apply put_char_sound; [done..| |done].
  apply (terminal_charset h x ch cs); [done..|]. by rewrite charset_isset_mem, Hm.
Qed.

(** A set that is being filled. *)
Definition filling (k x : nat) (g g' : HCFGrammar) : Prop :=
  analysis_ok g' /\ grows g g' /\ (k <= g_kmax g')%nat /\ is_Some (table_get (g_first g') k x).

Lemma change_filling k x f g g' :
  (0 < k)%nat -> filling k x g g' ->
  (forall ret, first_sound k x ret -> exists ret', f ret = Ok ret' /\ first_sound k x ret') ->
  exists g2, change_first k x f g' = Ok g2 /\ filling k x g g2 /\ grows g' g2.
Proof.
  intros Hk (Hg' & Hgr & Hmax & Hent) Hf.
  destruct (change_first_ok k x f g') as (g2 & E & Hg2 & Hgr2); [done..|].
  exists g2. split; [done|]. split; [|done]. split_and!; [done|by etrans| |by apply Hgr2].
  pose proof (gr_kmax _ _ Hgr2). lia.
Qed.

Lemma first_productions_ok first k x ch seqs g g1 :
  (0 < k)%nat -> h !! x = Some ch -> cf_type ch = HCF_CHOICE seqs -> filling k x g g1 ->
  (forall y, y ∈ concat seqs -> computes_first first k y g1) ->
  exists g2, for_each (fun items g =>
    '(m, g) ← first_seq first items k g;
    change_first k x (fun ret => Ok (h_stringmap_update ret m)) g) seqs g1 = Ok g2 /\
    filling k x g g2.
Proof.
  intros Hk Hx Ht Hg1 Hf.
  destruct (for_each_ind (fun _ g2 => filling k x g g2 /\ grows g1 g2) (fun items g =>
    '(m, g) ← first_seq first items k g;
    change_first k x (fun ret => Ok (h_stringmap_update ret m)) g) seqs g1)
    as (g2 & E & Hg2 & _); [done| |by exists g2].
  intros done_ items rest g2 El [Hg2 Hgr2].
  assert (items ∈ seqs) as Hi by (rewrite El; apply elem_of_app; by right; left).
  destruct (first_seq_ok first items k g2) as (m & g3 & -> & Hg3 & Hgr3 & Hm & Hs); [|apply Hg2|].
  { intros y Hy. apply (computes_first_after first k k y g1); [|done..]. apply Hf.
    apply list_elem_of_In, in_concat. exists items. by rewrite <- !list_elem_of_In. }
  cbn [mbind outcome_bind]. destruct Hg2 as (_ & Hgr & Hmax & Hent).
  assert (filling k x g g3) as Hfill.
  { split_and!; [done|by etrans| |by apply Hgr3]. pose proof (gr_kmax _ _ Hgr3). lia. }
  destruct (change_filling k x (fun ret => Ok (h_stringmap_update ret m)) g g3)
    as (g4 & E4 & Hg4 & Hgr4); [done..| |].
  { intros ret [Hw Hret]. eexists. split; [done|]. split; [by eauto with sm_wf|].
    intros w [Hw'|Hw']%(in_update k); [|by apply Hret|done].
    by eapply first_k_choice; [..|apply Hs]. }
  exists g4. split; [done|]. split; [done|]. by do 2 (etrans; [done|]).
Qed.

(** The entry of a set that is not memoised. *)
Lemma enter_first K k x g (g0 := ensure_k g k)
    (g1 := set_first (table_put k x (h_stringmap_new (g_arena g0)) (g_first g0)) g0) :
  analysis_ok g -> (0 < k <= K)%nat -> (x < length h)%nat -> table_get (g_first g0) k x = None ->
  filling k x g g1 /\ (todo h (g_first g1) K < todo h (g_first g) K)%nat.
Proof.
  intros Hg Hk Hx Hn. destruct (ensure_k_ok h start g k Hg) as (Hg0 & Hgr0 & Hmax).
  destruct (put_first_ok h start g0 k x (h_stringmap_new (g_arena g0))) as (Hg1 & Hgr1 & Hent);
    [done|lia|done|apply new_map_wf|by intros w Hw%not_in_new|].
  split; [split_and!; [done|by etrans|done|by exists (h_stringmap_new (g_arena g0))]|].
  apply Nat.lt_le_trans with (todo h (g_first g0) K); [|apply todo_le, Hgr0].
  apply (todo_lt h _ _ K k x); [apply Hgr1|lia|done..|by exists (h_stringmap_new (g_arena g0))].
Qed.

Lemma filling_result k x g g' :
  filling k x g g' ->
  exists s, table_get (g_first g') k x = Some s /\ computes (fun _ => Ok (s, g')) k (first_k h k [x]) g.
Proof.
  intros (Hg' & Hgr & _ & [s Hs]). exists s. split; [done|]. exists s, g'.
  destruct (ao_first _ _ _ Hg' _ _ _ Hs). by split_and!.
Qed.

Hypothesis Hh : grammar_wf h.

Lemma first_rec_ok K fuel k x g :
  (k <= K)%nat -> (x < length h)%nat -> analysis_ok g -> (todo h (g_first g) K <= fuel)%nat ->
  computes (first_rec h fuel k x) k (first_k h k [x]) g.
Proof.
  revert k x g. induction fuel as [|fuel IH]; intros k x g Hk Hx Hg Hf.
  all: unfold FirstFacts.computes; cbn [first_rec]; destruct (Nat.eqb_spec k 0) as [->|Hk0].
  1, 3: destruct (singleton_epsilon_ok 0 g) as [Hw Hs]; apply (computes_ret 0 _ _ g); [done..|];
    intros w ->%Hs; apply first_k_zero.
  all: destruct (ensure_k_ok h start g k Hg) as (Hg0 & Hgr0 & Hmax).
  all: destruct (table_get (g_first (ensure_k g k)) k x) as [ret|] eqn:Hret;
    [destruct (ao_first _ _ _ Hg0 _ _ _ Hret) as [Hw Hs]; by exists ret, (ensure_k g k)|].
  all: destruct (enter_first K k x g Hg) as [Hfill Hlt]; [lia|done..|].
  { exfalso. lia. }
  destruct (choice_at_lt h x Hx) as (ch & Hch & ->). cbn [mbind outcome_bind].
  set (g1 := set_first _ _) in *. pose proof (grammar_wf_lookup _ _ _ Hh Hch) as Hwf.
  assert (exists g2, (match cf_type ch with
      | HCF_END => change_first k x (fun ret => Ok (h_stringmap_put_end ret INSET)) g1
      | HCF_CHAR chr => change_first k x (fun ret => Ok (h_stringmap_put_char ret chr INSET)) g1
      | HCF_CHARSET cs => change_first k x (first_charset cs) g1
      | HCF_CHOICE seq =>
          for_each (fun items g =>
            '(m, g) ← first_seq (first_rec h fuel) items k g;
            change_first k x (fun ret => Ok (h_stringmap_update ret m)) g) seq g1
      | _ => Fault AssertFail
      end) = Ok g2 /\ filling k x g g2) as (g2 & -> & Hfill2).
  { unfold choice_wf in Hwf. destruct (cf_type ch) as [|seqs|cs|c| | |] eqn:Ht; try done.
    - destruct (change_filling k x (fun ret => Ok (h_stringmap_put_end ret INSET)) g g1)
        as (g2 & E & Hg2 & _); [lia|done| |by exists g2].
      intros ret [Hw Hs]. eexists. split; [done|]. split; [by apply set_end_wf|].
      intros w [->|Hw']%in_put_end; [|by apply Hs]. apply first_k_terminal; [lia|].
      by eapply terminal_end.
    - apply (first_productions_ok _ k x ch seqs); [lia|done..|].
      intros y Hy k' g' Hk' Hg' Hgr'. apply (IH k' y g'); [lia|by eapply wf_items|done|].
      pose proof (todo_le h _ _ K (gr_first _ _ Hgr')). lia.
    - destruct (change_filling k x (first_charset cs) g g1)
        as (g2 & E & Hg2 & _); [lia|done| |by exists g2].
      intros ret. apply (first_charset_sound k x ch); [lia|done..].
    - destruct (change_filling k x (fun ret => Ok (h_stringmap_put_char ret c INSET)) g g1)
        as (g2 & E & Hg2 & _); [lia|done| |by exists g2].
      intros ret Hret'. eexists. split; [done|]. apply put_char_sound; [lia|done| |done].
      by eapply terminal_char. }
  cbn [mbind outcome_bind]. destruct (filling_result k x g g2 Hfill2) as (s & -> & Hc). exact Hc.
Qed.

Lemma h_first_ok k x g :
  (x < length h)%nat -> analysis_ok g -> computes (h_first h k x) k (first_k h k [x]) g.
Proof. intros Hx Hg. apply (first_rec_ok k); [done..|]. apply todo_fuel. Qed.

Lemma h_first_seq_ok k s g :
  (forall x, x ∈ s -> (x < length h)%nat) -> analysis_ok g ->
  computes (h_first_seq h s k) k (first_k h k s) g.
Proof.
  intros Hs Hg. apply first_seq_ok; [|done]. intros x Hx k' g' Hk' Hg' Hgr.
  apply (first_rec_ok k); [done|by apply Hs|done|]. apply todo_fuel.
Qed.

(** ** Follow sets *)

(** A sound follow set of [x]. *)
Definition follow_sound (k x : nat) (ret : HStringMap) : Prop :=
  sm_wf k ret /\ forall w, sm_in w ret -> follow_k h start k x w.

Lemma follow_k_zero x b : context h start x b -> follow_k h start 0 x [].
Proof.
  intros Hb. exists b. split; [done|]. split; [split; [simpl; lia|by intros [|] ?]|].
  left. split; [by left|]. exists b. constructor.
Qed.

Lemma reachable_context a : reachable h start a -> exists b, context h start a b.
Proof.
  intros Hr. pattern a. revert a Hr. apply rtc_ind_r; [exists []; constructor|].
  intros y z _ (ch & seqs & items & Hy & Ht & Hi & Hz) [b Hb].
  apply list_elem_of_split in Hz as (l & r & ->). exists (r ++ b). by eapply context_item.
Qed.

(** The strings after an occurrence of [x] before [tail] in a production of [a]. *)
Lemma extended_follow k x a ch seqs l tail as_ w :
  h !! a = Some ch -> cf_type ch = HCF_CHOICE seqs -> (l ++ x :: tail) ∈ seqs ->
  reachable h start a -> (forall w, sm_in w as_ -> first_k h k tail w) ->
  extended k (fun k' => follow_k h start k' a) as_ w -> follow_k h start k x w.
Proof.
  intros Ha Ht Hi Hr Has [(cs & b & -> & Hin & (ctx & Hctx & Hb))|(cs & -> & Hin)].
  - exists (tail ++ ctx). split; [by eapply context_item|]. apply after_k_app; auto.
  - destruct (reachable_context a Hr) as [ctx Hctx]. exists (tail ++ ctx).
    split; [by eapply context_item|]. apply after_k_end; auto.
Qed.

Definition computes_follow (follow : nat -> nat -> HCFGrammar -> outcome (HStringMap * HCFGrammar))
    (k x : nat) (g : HCFGrammar) : Prop :=
  forall k' g', (k' <= k)%nat -> analysis_ok g' -> grows g g' ->
    computes (follow k' x) k' (follow_k h start k' x) g'.

(** A follow set that is being filled. *)
Definition filling_follow (k x : nat) (g g' : HCFGrammar) : Prop :=
  analysis_ok g' /\ grows g g' /\ (k <= g_kmax g')%nat /\ is_Some (table_get (g_follow g') k x).

Lemma filling_follow_grows k x g g1 g2 :
  filling_follow k x g g1 -> analysis_ok g2 -> grows g1 g2 -> filling_follow k x g g2.
Proof.
  intros (_ & Hgr & Hmax & Hent) Hg2 Hgr2. split_and!; [done|by etrans| |by apply Hgr2].
  pose proof (gr_kmax _ _ Hgr2). lia.
Qed.

Lemma computes_follow_after follow k x g g' :
  computes_follow follow k x g -> grows g g' -> computes_follow follow k x g'.
Proof. intros Hf Hg k2 g2 Hk2 Hg2 Hgr. apply Hf; [done..|by etrans]. Qed.

(** One occurrence of [x], before [tail] in a production of [a]. *)
Lemma follow_occurrence_ok follow k x a ch seqs l tail g g1 :
  (0 < k)%nat -> h !! a = Some ch -> cf_type ch = HCF_CHOICE seqs -> (l ++ x :: tail) ∈ seqs ->
  reachable h start a -> filling_follow k x g g1 -> computes_follow follow k a g1 ->
  exists g2, ('(first_tail, g) ← h_first_seq h tail k g1;
              ret ← follow_set k x g;
              '(ret, g) ← stringset_extend k (fun k g => follow k a g) ret first_tail g;
              Ok (put_follow k x ret g)) = Ok g2 /\ filling_follow k x g g2 /\ grows g1 g2.
Proof.
  intros Hk Ha Ht Hi Hr Hg1 Hf.
  assert (forall z, z ∈ tail -> (z < length h)%nat) as Htail.
  { intros z Hz. apply (wf_items h a ch seqs); [done..|]. apply list_elem_of_In, in_concat.
    exists (l ++ x :: tail). rewrite <- !list_elem_of_In. split; [done|].
    apply elem_of_app. by right; right. }
  destruct (h_first_seq_ok k tail g1 Htail) as (m & g2 & -> & Hg2 & Hgr2 & Hm & Hs); [apply Hg1|].
  cbn [mbind outcome_bind]. pose proof (filling_follow_grows _ _ _ _ _ Hg1 Hg2 Hgr2) as Hf2.
  destruct (proj2 (proj2 (proj2 Hf2))) as [ret Hret]. unfold follow_set. rewrite Hret.
  cbn [deref mbind outcome_bind]. destruct (ao_follow _ _ _ Hg2 _ _ _ Hret) as [Hwr Hsr].
  destruct (stringset_extend_ok k (fun k g => follow k a g)
    (fun k' => follow_k h start k' a) ret m g2) as (ret' & g3 & -> & Hg3 & Hgr3 & Hw3 & Hs3);
    [by apply (computes_follow_after follow k a g1)|done..|].
  cbn [mbind outcome_bind]. pose proof (filling_follow_grows _ _ _ _ _ Hf2 Hg3 Hgr3) as Hf3.
  destruct (put_follow_ok h start g3 k x ret') as (Hg4 & Hgr4 & _); [done|done|apply Hf3|done|..].
  { intros w [Hw|Hw]%Hs3; [by apply Hsr|]. by apply (extended_follow k x a ch seqs l tail m). }
  eexists. split; [done|]. split; [by eapply filling_follow_grows|]. by do 2 (etrans; [done|]).
Qed.

Lemma follow_items_ok follow k x a ch seqs l s g g1 :
  (0 < k)%nat -> h !! a = Some ch -> cf_type ch = HCF_CHOICE seqs -> (l ++ s) ∈ seqs ->
  reachable h start a -> filling_follow k x g g1 -> computes_follow follow k a g1 ->
  exists g2, follow_items h follow k x a s g1 = Ok g2 /\ filling_follow k x g g2 /\ grows g1 g2.
Proof.
  intros Hk Ha Ht Hi Hr. revert l g1 Hi. induction s as [|y tail IH]; intros l g1 Hi Hg1 Hf;
    cbn [follow_items]; [by exists g1|].
  assert (exists g2, (if (y =? x)%nat then
             '(first_tail, g) ← h_first_seq h tail k g1;
             ret ← follow_set k x g;
             '(ret, g) ← stringset_extend k (fun k g => follow k a g) ret first_tail g;
             Ok (put_follow k x ret g)
           else Ok g1) = Ok g2 /\ filling_follow k x g g2 /\ grows g1 g2) as (g2 & -> & Hg2 & Hgr2).
  { destruct (Nat.eqb_spec y x) as [->|]; [|by exists g1]. by eapply follow_occurrence_ok. }
  cbn [mbind outcome_bind]. destruct (IH (l ++ [y]) g2) as (g3 & E3 & Hg3 & Hgr3);
    [by rewrite <- app_assoc|done|by eapply computes_follow_after|].
  exists g3. split; [done|]. split; [done|by etrans].
Qed.

(** The entry of a set that is not memoised, the end of the input in it when
    [x] is the start symbol. *)
Lemma enter_follow K k x g (g0 := ensure_k g k)
    (ret := if decide (Some x = g_start g0)
            then h_stringmap_put_end (h_stringmap_new (g_arena g0)) INSET
            else h_stringmap_new (g_arena g0)) (g1 := put_follow k x ret g0) :
  analysis_ok g -> g_start g = Some start -> (0 < k <= K)%nat -> (x < length h)%nat ->
  table_get (g_follow g0) k x = None ->
  filling_follow k x g g1 /\ (todo h (g_follow g1) K < todo h (g_follow g) K)%nat.
Proof.
  intros Hg Hst Hk Hx Hn. destruct (ensure_k_ok h start g k Hg) as (Hg0 & Hgr0 & Hmax).
  destruct (put_follow_ok h start g0 k x ret) as (Hg1 & Hgr1 & Hent); [done|lia|done|..].
  { subst ret. case_decide; [apply set_end_wf|]; apply new_map_wf. }
  { subst ret. unfold g0. rewrite (gr_start _ _ Hgr0), Hst. intros w Hw.
    case_decide as Hd; [|by apply not_in_new in Hw]. injection Hd as ->.
    apply in_put_end in Hw as [->|Hw]; [|by apply not_in_new in Hw].
    exists []. split; [constructor|]. split; [by apply cut_single; lia|]. right. exists [].
    split; [done|constructor]. }
  unfold follow_set in Hent. fold g1 in Hent, Hg1, Hgr1.
  destruct (table_get (g_follow g1) k x) eqn:Hs; [|done].
  split; [split_and!; [done|by etrans|done|done]|].
  apply Nat.lt_le_trans with (todo h (g_follow g0) K); [|apply todo_le, Hgr0].
  apply (todo_lt h _ _ K k x); [apply Hgr1|lia|done..].
Qed.

(** The nonterminals are those of [start]. *)
Definition nts_of (g : HCFGrammar) : Prop :=
  g_start g = Some start /\ forall a, a ∈ g_nts g -> is_choice h a /\ reachable h start a.

Lemma nts_of_grows g g' : nts_of g -> grows g g' -> nts_of g'.
Proof.
  intros [Hs Hn] Hgr. unfold nts_of. by rewrite (gr_start _ _ Hgr), (gr_nts _ _ Hgr).
Qed.

(** The loop over the nonterminals. *)
Lemma follow_nonterminals_ok follow k x g g1 :
  (0 < k)%nat -> nts_of g1 -> filling_follow k x g g1 ->
  (forall a, is_choice h a -> reachable h start a -> computes_follow follow k a g1) ->
  exists g2, for_each (fun a g => ch ← choice_at h a;
       match cf_type ch with
       | HCF_CHOICE seq => for_each (fun items g => follow_items h follow k x a items g) seq g
       | _ => Fault AssertFail
       end) (iter_order (g_nts g1)) g1 = Ok g2 /\ filling_follow k x g g2.
Proof.
  intros Hk [_ Hn] Hfill Hf.
  destruct (for_each_ind (fun _ g2 => filling_follow k x g g2 /\ grows g1 g2)
    (fun a g => ch ← choice_at h a;
       match cf_type ch with
       | HCF_CHOICE seq => for_each (fun items g => follow_items h follow k x a items g) seq g
       | _ => Fault AssertFail
       end) (iter_order (g_nts g1)) g1) as (g2 & E & Hg2 & _); [done| |by exists g2].
  intros done_ a rest g2 El [Hg2 Hgr2].
  assert (a ∈ g_nts g1) as Ha.
  { rewrite <- (iter_order_perm _ (g_nts g1)), El. apply elem_of_app. by right; left. }
  destruct (Hn a Ha) as [Hca Hra]. pose proof Hca as (ch & seqs & Hch & Ht).
  unfold choice_at. rewrite Hch. cbn [deref mbind outcome_bind]. rewrite Ht.
  apply (for_each_ind (fun _ g2 => filling_follow k x g g2 /\ grows g1 g2)); [done|].
  intros done2 items rest2 g3 El2 [Hg3 Hgr3].
  destruct (follow_items_ok follow k x a ch seqs [] items g g3)
    as (g4 & E4 & Hg4 & Hgr4); [done..| |done|done| |].
  - rewrite El2. apply elem_of_app. by right; left.
  - apply (computes_follow_after follow k a g1); [by apply Hf|done].
  - exists g4. split; [done|]. split; [done|by etrans].
Qed.

Lemma follow_rec_ok K fuel k x g :
  (k <= K)%nat -> (x < length h)%nat -> (k = 0%nat -> reachable h start x) -> nts_of g ->
  analysis_ok g -> (todo h (g_follow g) K <= fuel)%nat ->
  computes (follow_rec h fuel k x) k (follow_k h start k x) g.
Proof.
  revert k x g. induction fuel as [|fuel IH]; intros k x g Hk Hx Hrx Hn Hg Hf.
  all: unfold FirstFacts.computes; cbn [follow_rec]; destruct (Nat.eqb_spec k 0) as [->|Hk0].
  1, 3: destruct (singleton_epsilon_ok 0 g) as [Hw Hs], (reachable_context x (Hrx eq_refl)) as [b Hb];
    apply (computes_ret 0 _ _ g); [done..|]; intros w ->%Hs; by eapply follow_k_zero.
  all: destruct (ensure_k_ok h start g k Hg) as (Hg0 & Hgr0 & Hmax).
  all: destruct (table_get (g_follow (ensure_k g k)) k x) as [ret|] eqn:Hret;
    [destruct (ao_follow _ _ _ Hg0 _ _ _ Hret) as [Hw Hs]; by exists ret, (ensure_k g k)|].
  all: destruct (enter_follow K k x g Hg) as [Hfill Hlt];
    [apply Hn|lia|done|done|].
  { exfalso. lia. }
  set (g1 := put_follow _ _ _ _) in *.
  assert (nts_of g1) as Hn1 by (eapply nts_of_grows; [exact Hn|apply Hfill]).
  destruct (follow_nonterminals_ok (follow_rec h fuel) k x g g1)
    as (g2 & -> & Hg2 & Hgr & _ & [s Hs]); [lia|done|done| |].
  - intros a Hca Hra k' g' Hk' Hg' Hgr'.
    apply IH; [lia|by apply is_choice_lt|done|by eapply nts_of_grows|done|].
    pose proof (todo_le h _ _ K (gr_follow _ _ Hgr')). lia.
  - cbn [mbind outcome_bind]. unfold follow_set. rewrite Hs.
    destruct (ao_follow _ _ _ Hg2 _ _ _ Hs) as [Hw Hss]. by exists s, g2.
Qed.

Lemma h_follow_ok k x g :
  (x < length h)%nat -> (k = 0%nat -> reachable h start x) -> nts_of g -> analysis_ok g ->
  computes (h_follow h k x) k (follow_k h start k x) g.
Proof. intros Hx Hr Hn Hg. apply (follow_rec_ok k); [done..|]. apply todo_fuel. Qed.

Lemma h_predict_ok k A ch seqs rhs g :
  h !! A = Some ch -> cf_type ch = HCF_CHOICE seqs -> rhs ∈ seqs -> reachable h start A ->
  nts_of g -> analysis_ok g ->
  computes (h_predict h k A rhs) k (predict_k h start k A rhs) g.
Proof.
  intros HA Ht Hrhs Hr Hn Hg. unfold FirstFacts.computes, h_predict.
  destruct (h_first_seq_ok k rhs g) as (m & g1 & -> & Hg1 & Hgr1 & Hm & Hs); [|done|].
  { intros x Hx. apply (wf_items h A ch seqs); [done..|]. apply list_elem_of_In, in_concat.
    exists rhs. by rewrite <- !list_elem_of_In. }
  cbn [mbind outcome_bind].
  destruct (stringset_extend_ok k (fun k g => h_follow h k A g) (fun k' => follow_k h start k' A)
    (h_stringmap_new (g_arena g1)) m g1) as (ret & g2 & -> & Hg2 & Hgr2 & Hret & Hs2);
    [|done|apply new_map_wf|done|].
  { intros k' g' _ Hg' Hgr'. apply h_follow_ok; [by eapply lookup_lt_Some|done| |done].
    apply (nts_of_grows g); [done|by etrans]. }
  cbn [mbind outcome_bind]. do 2 eexists. split; [done|].
  split_and!; [done|by etrans|by apply remove_all_shorter_wf|].
  intros w [Hw Hl]%remove_all_shorter_spec.
  apply Hs2 in Hw as [Hw|[(cs & b & -> & Hin & (ctx & Hctx & Hb))|(cs & -> & Hin)]];
    [by apply not_in_new in Hw|..].
  - assert (after_k h k (rhs ++ ctx) (bytes_of cs ++ b)) as Ha by (apply after_k_app; auto).
    exists ctx. split_and!; [done..|]. destruct Hl as [Hl|[u ->]]; [|apply full_end].
    left. pose proof (cut_length _ _ (proj1 Ha)). lia.
  - destruct (reachable_context A Hr) as [ctx Hctx]. exists ctx.
    split_and!; [done|by apply after_k_end, Hs|apply full_end].
Qed.

End Compute.

(** The tables of a new grammar are empty. *)
Lemma cfgrammar_of_analysis arena h s g h' start geneps :
  cfgrammar_of arena h s g h' start geneps -> nts_of h' start g /\ analysis_ok h' start g.
Proof.
  intros [Eg _ _ Hn _ _ _]. split; [split; [by rewrite Eg|by intros a ?%Hn]|].
  rewrite Eg. split; [done|..]; intros k x m; by destruct k.
Qed.

(** * Properties *)

(** C28: on every grammar that h_cfgrammar_ makes, and after any calls before, a
    call of h_predict ends without a fault and returns only strings of exactly
    [k] symbols (or fewer, with the end of the input) that can stand at the
    start of what the production derives in some context of the start symbol,
    whatever the order in which the hash tables are walked. *)
Theorem h_predict_sound `{IterationOrder} h start k A ch seqs rhs g :
  grammar_wf h -> nts_of h start g -> analysis_ok h start g -> h !! A = Some ch ->
  cf_type ch = HCF_CHOICE seqs -> rhs ∈ seqs -> reachable h start A ->
  exists set g', h_predict h k A rhs g = Ok (set, g') /\
    nts_of h start g' /\ analysis_ok h start g' /\
    forall w, sm_in w set -> predict_k h start k A rhs w.
Proof.
  intros Hh Hn Hg HA Ht Hrhs Hr.
  destruct (h_predict_ok h start Hh k A ch seqs rhs g) as (m & g' & E & Hg' & Hgr & _ & Hs);
    [done..|]. exists m, g'. split_and!; [done|by eapply nts_of_grows|done..].
Qed.

(** C16: h_first and h_follow end without a fault on every such grammar, within
    the number of symbols times [k] nested calls, and return only strings that
    the symbol can begin with and that can follow it. *)
Theorem h_first_follow_sound `{IterationOrder} h start k x g :
  grammar_wf h -> nts_of h start g -> analysis_ok h start g -> is_choice h x ->
  reachable h start x ->
  exists first g1 follow g2,
    h_first h k x g = Ok (first, g1) /\ h_follow h k x g1 = Ok (follow, g2) /\
    (forall w, sm_in w first -> first_k h k [x] w) /\
    (forall w, sm_in w follow -> follow_k h start k x w).
Proof.
  intros Hh Hn Hg Hx Hr.
  destruct (h_first_ok h start Hh k x g) as (m & g1 & E1 & Hg1 & Hgr1 & _ & Hs1);
    [by apply is_choice_lt|done|].
  destruct (h_follow_ok h start Hh k x g1) as (m2 & g2 & E2 & _ & _ & _ & Hs2);
    [by apply is_choice_lt|done|by eapply nts_of_grows|done|]. by exists m, g1, m2, g2.
Qed.

(** What h_cfgrammar_ makes of [parens]. *)
Definition parens_grammar : HCFGrammar := mkCFGrammar (Some 0%nat) [0%nat] (Some [0%nat]) [] [] 0 0.

Lemma parens_grammar_ok :
  @h_cfgrammar_ insertion_order 0 parens 0 = Ok (parens_grammar, parens) /\
  nts_of parens 0 parens_grammar /\ analysis_ok parens 0 parens_grammar.
Proof.
  destruct (@h_cfgrammar_ok insertion_order 0 parens 0 parens_wf ltac:(simpl; lia))
    as (g & h & start & G & E & Hg).
  assert (E' : @h_cfgrammar_ insertion_order 0 parens 0 = Ok (parens_grammar, parens)) by done.
  rewrite E in E'. injection E' as -> ->.
  destruct (cfgrammar_of_analysis _ _ _ _ _ _ _ Hg) as [Hn Ha].
  assert (start = 0%nat) as -> by (destruct Hn as [Hs _]; by injection Hs). done.
Qed.

Lemma h_predict_sound_witness :
  exists set g', @h_predict insertion_order parens 1 0 [1; 0; 2; 0]%nat parens_grammar = Ok (set, g') /\
    sm_in [Sym 40] set /\ forall w, sm_in w set -> predict_k parens 0 1 0 [1; 0; 2; 0]%nat w.
Proof.
  destruct parens_grammar_ok as (_ & Hn & Ha).
  destruct (@h_predict_sound insertion_order parens 0 1 0 _ [[1; 0; 2; 0]; []]%nat [1; 0; 2; 0]%nat
              parens_grammar parens_wf Hn Ha eq_refl eq_refl) as (set & g' & E & _ & _ & H);
    [by left|done|].
  exists set, g'. split_and!; [done| |done]. vm_compute in E. injection E as <- _. by eexists.
Defined.

Lemma h_first_follow_sound_witness :
  exists first g1 follow g2,
    @h_first insertion_order parens 1 0 parens_grammar = Ok (first, g1) /\
    @h_follow insertion_order parens 1 0 g1 = Ok (follow, g2) /\
    (forall w, sm_in w first -> first_k parens 1 [0%nat] w) /\
    (forall w, sm_in w follow -> follow_k parens 0 1 0 w).
Proof.
  destruct parens_grammar_ok as (_ & Hn & Ha).
  apply (@h_first_follow_sound insertion_order parens 0 1 0 parens_grammar parens_wf Hn Ha);
    [by do 2 eexists|done].
Defined.
