(* ===== verification/Consumed.v ===== *)
(** What has been read of an input, as symbols of a grammar: bytes, then the end
    of the input any number of times. Both table-driven back ends read so. *)

From S2P Require Import Prelude Stream ByteStream Grammar FirstFacts.

(** [w] is what a stream on [inp] has been read of: bytes, then the end of the
    input any number of times. *)
Definition consumed (inp : list Z) (left : list Z) (w : list symbol) : Prop :=
  exists bytes n, w = bytes_of bytes ++ replicate n Sym_end /\ inp = bytes ++ left /\
    ((0 < n)%nat -> left = []).

Lemma consumed_byte inp c left w :
  consumed inp (c :: left) w -> consumed inp left (w ++ [Sym c]).
Proof.
  intros (bytes & [|n] & -> & -> & Hn); [|by specialize (Hn ltac:(lia))].
  exists (bytes ++ [c]), 0%nat. simpl. rewrite !app_nil_r, <- app_assoc.
  unfold bytes_of. rewrite fmap_app. split_and!; [done..|lia].
Qed.

Lemma consumed_end inp w : consumed inp [] w -> consumed inp [] (w ++ [Sym_end]).
Proof.
  intros (bytes & n & -> & -> & _). exists bytes, (S n). split; [|done].
  rewrite <- app_assoc. f_equal. by rewrite <- replicate_cons_app.
Qed.

(** The number of bytes of a string. *)
Fixpoint bytes_in (w : list symbol) : nat :=
  match w with
  | [] => 0
  | Sym _ :: w => S (bytes_in w)
  | Sym_end :: w => bytes_in w
  end.

Lemma bytes_in_app u v : bytes_in (u ++ v) = (bytes_in u + bytes_in v)%nat.
Proof. induction u as [|[c|] u IH]; simpl; congruence. Qed.

Lemma consumed_bytes_in inp left w : consumed inp left w -> (bytes_in w <= length inp)%nat.
Proof.
  intros (bytes & n & -> & -> & _). rewrite bytes_in_app, length_app.
  assert (bytes_in (bytes_of bytes) = length bytes) as ->.
  { induction bytes as [|c bytes IH]; [done|]. simpl. by rewrite IH. }
  assert (bytes_in (replicate n Sym_end) = 0%nat) as -> by by induction n. lia.
Qed.

(** A stream on the whole input [inp] of which [w] was read. *)
Section Stream.
Context (inp : list Z).

Record stream_ok (c : HInputStream) (w : list symbol) : Prop := {
  so_aligned : byte_aligned c;
  so_last : is_last_chunk c = true;
  so_overrun : is_overrun c = true -> rest c = [];
  so_length : is_length c = Z.of_nat (length inp);
  so_consumed : consumed inp (rest c) w;
}.

Lemma stream_ok_next c w b l :
  stream_ok c w -> rest c = b :: l -> stream_ok (next_byte c) (w ++ [Sym b]).
Proof.
  intros [Ha Hl Ho Hlen Hcon] Hr. destruct (next_byte_aligned c b l Ha Hr) as [Ha' Hr'].
  split; [done|done| |done|]; rewrite Hr'.
  - rewrite next_byte_overrun. intros Hov. specialize (Ho Hov). congruence.
  - apply consumed_byte. by rewrite <- Hr.
Qed.

Lemma stream_ok_end c w : stream_ok c w -> rest c = [] -> stream_ok (set_overrun c true) (w ++ [Sym_end]).
Proof.
  intros [[] Hl Ho Hlen Hcon] Hr. split; [by split|done|done|done|].
  change (rest (set_overrun c true)) with (rest c). rewrite Hr. apply consumed_end. by rewrite <- Hr.
Qed.

End Stream.
