(* ===== verification/PegLang.v ===== *)
(** Packrat parses read strings of the language: what a parse by the packrat back
    end (its specification Peg) consumes is in the language of the combinators
    (DesugarLang), the one that the table-driven back ends recognise. The converse
    does not hold: choices are ordered and repetitions greedy. *)

From S2P Require Import Prelude Stream ByteStream BitWriter Charset CArray Token Parser Validity Combinators Packrat.
From S2P Require Import Peg PegFacts PackratCorrect Desugar Grammar DesugarWf DesugarLang FirstFacts Consumed.

(** The cursor is at a byte. *)
Definition on_byte (s : HInputStream) : Prop := stream_wf s /\ is_bit_offset s = 0 /\ is_margin s = 0.

Lemma on_byte_aligned s : on_byte s -> byte_aligned s.
Proof. intros (Hwf & Hb & Hm). by apply byte_aligned_wf. Qed.

Lemma on_byte_next s c l : on_byte s -> rest s = c :: l -> on_byte (next_byte s) /\ rest (next_byte s) = l.
Proof.
  intros Hs Hr. pose proof (on_byte_aligned s Hs) as Ha. destruct (next_byte_aligned s c l Ha Hr) as [_ Hr'].
  destruct Hs as (Hwf & Hb & Hm). split; [|done]. split; [|done]. apply next_byte_moved; try done.
  pose proof (rest_length s Ha) as Hl. rewrite Hr in Hl. simpl in Hl. unfold bits_left, bit_pos. lia.
Qed.

Lemma consumed_app l1 l2 l3 u v : consumed l1 l2 u -> consumed l2 l3 v -> consumed l1 l3 (u ++ v).
Proof.
  intros (b1 & n1 & -> & -> & H1) (b2 & n2 & -> & -> & H2). exists (b1 ++ b2), (n1 + n2)%nat.
  unfold bytes_of. rewrite fmap_app, replicate_add, <- !app_assoc. split_and!; [|done|].
  - destruct n1 as [|n1]; [done|]. specialize (H1 ltac:(lia)). by destruct b2.
  - destruct n2 as [|n2]; [|intros _; apply H2; lia]. rewrite Nat.add_0_r. intros Hn.
    specialize (H1 Hn). by destruct b2.
Qed.

Lemma consumed_nil l : consumed l l [].
Proof. exists [], 0%nat. split_and!; [done..|lia]. Qed.

Lemma consumed_bytes bytes l : consumed (bytes ++ l) l (Sym <$> bytes).
Proof. exists bytes, 0%nat. rewrite app_nil_r. split_and!; [done..|lia]. Qed.

(** From [s], [s'] has been reached by reading a string of [L]. *)
Definition read_as (L : language) (s s' : HInputStream) : Prop :=
  on_byte s' /\ is_overrun s' = false /\ exists w, L w /\ consumed (rest s) (rest s') w.

(** A success of [m] has read a string of [L], or has set [overrun]. *)
Definition reads (m : P pres) (L : language) : Prop :=
  forall s t s', on_byte s -> is_overrun s = false -> m s = Ok (Some t, s') ->
    is_overrun s' = true \/ read_as L s s'.
(** The parser functions fail at an overrun. *)
Definition reads_all (m : P pres) (L : language) : Prop :=
  forall s t s', on_byte s -> is_overrun s = false -> m s = Ok (Some t, s') -> read_as L s s'.

Lemma reads_all_reads m L : reads_all m L -> reads m L.
Proof. intros Hm s t s' Hs Ho H. right. by eapply Hm. Qed.

Lemma read_as_eq L M s s' : L ≡ₗ M -> read_as L s s' -> read_as M s s'.
Proof. intros HL (Hs & Ho & w & Hw & Hc). split_and!; [done..|]. exists w. split; [by apply HL|done]. Qed.

Lemma reads_eq m L M : reads m L -> L ≡ₗ M -> reads m M.
Proof. intros Hm HL s t s' Hs Ho H. destruct (Hm s t s' Hs Ho H) as [|Hr]; [by left|right]. by eapply read_as_eq. Qed.

Lemma read_as_trans L M s1 s2 s3 : read_as L s1 s2 -> read_as M s2 s3 -> read_as (l_cat L M) s1 s3.
Proof.
  intros (_ & _ & u & Hu & Hc) (Hs & Ho & v & Hv & Hc'). split_and!; [done..|]. exists (u ++ v). split.
  - by exists u, v.
  - by eapply consumed_app.
Qed.

Lemma read_as_refl s : on_byte s -> is_overrun s = false -> read_as l_empty s s.
Proof. intros Hs Ho. split_and!; [done..|]. exists []. split; [done|apply consumed_nil]. Qed.

(** * Leaves *)

Lemma read_byte_reads s v s' signed_p :
  on_byte s -> h_read_bits s 8 signed_p = Ok (v, s') ->
  (is_overrun s' = true /\ on_byte s') \/
  exists c l, rest s = c :: l /\ byte c /\ s' = next_byte s /\ v = if signed_p then wraps 8 c else c.
Proof.
  intros Hs H. pose proof (on_byte_aligned s Hs) as Ha. rewrite read_byte_any in H by done.
  destruct (rest s) as [|c l] eqn:Hr; injection H as <- <-; [left|right].
  - split; [done|]. destruct Hs as (Hwf & ? & ?). split; [by destruct Hwf|done].
  - exists c, l. split_and!; try done. pose proof (rest_bytes s Ha) as Hb. rewrite Hr in Hb. exact (Forall_inv Hb).
Qed.

Lemma byte_read_as (P : Z -> Prop) s c l :
  on_byte s -> is_overrun s = false -> rest s = c :: l -> P c -> read_as (l_char P) s (next_byte s).
Proof.
  intros Hs Ho Hr Hc. destruct (on_byte_next s c l Hs Hr) as [Hs' Hr']. split_and!; [done..|].
  exists [Sym c]. split; [by exists c|]. rewrite Hr, Hr'. exact (consumed_bytes [c] l).
Qed.

Lemma uint8_byte c : byte c -> uint8 c = c.
Proof. apply (wrapu_small 8). Qed.

Lemma peg_ch_reads c : reads (peg_ch c) (l_char (fun x => x = uint8 c)).
Proof.
  intros s t s' Hs Ho H. apply ST_bind_ok in H as (v & s1 & H1 & H).
  destruct (read_byte_reads s v s1 false Hs H1) as [[Hov _]|(b & l & Hr & Hb & -> & ->)];
    destruct (uint8 c =? uint8 _) eqn:E in H; try (intros; discriminate H); injection H as _ <-; [by left|right].
  apply Z.eqb_eq in E. rewrite (uint8_byte b Hb) in E. eapply byte_read_as; [done..|]. done.
Qed.

Lemma peg_charset_reads cs : reads (peg_charset cs) (l_char (fun x => any_byte x /\ charset_isset cs x = Ok true)).
Proof.
  intros s t s' Hs Ho H. apply ST_bind_ok in H as (v & s1 & H1 & H).
  apply ST_bind_ok in H as (b & s2 & [Hb ->]%lift_ok & H). destruct b; [|intros; discriminate H]. injection H as _ <-.
  destruct (read_byte_reads s v s1 false Hs H1) as [[Hov _]|(c & l & Hr & Hc & -> & ->)]; [by left|right].
  rewrite uint8_byte in Hb by done. by eapply byte_read_as.
Qed.

(** Whole bytes. *)
Lemma bytes_read_as s k :
  on_byte s -> is_overrun s = false -> Z.of_nat k <= Z.of_nat (length (rest s)) ->
  forall s', same_stream s s' -> on_byte s' -> is_overrun s' = false -> is_index s' = is_index s + Z.of_nat k ->
  read_as (l_cats (replicate k (l_char any_byte))) s s'.
Proof.
  intros Hs Ho Hk s' Hsame Hs' Ho' Hi. split_and!; [done..|]. exists (Sym <$> take k (rest s)). split.
  - assert (Forall byte (take k (rest s))) as Hb by (apply Forall_take, rest_bytes, on_byte_aligned, Hs).
    assert (length (take k (rest s)) = k) as Hl by (rewrite length_take; lia). revert Hb Hl. clear.
    generalize (take k (rest s)). intros l. revert k. induction l as [|c l IH]; intros k Hb <-; [done|].
    apply Forall_cons_1 in Hb as [Hc Hb]. exists [Sym c], (Sym <$> l). split_and!; [done|by exists c|by apply IH].
  - assert (rest s' = drop k (rest s)) as ->.
    { unfold rest. destruct Hsame as (-> & _ & -> & _). rewrite Hi, drop_drop. f_equal.
      destruct Hs as ([] & _). lia. }
    rewrite <- (take_drop k (rest s)) at 1. apply consumed_bytes.
Qed.

Lemma peg_bits_reads b :
  be_length b mod 8 = 0 ->
  reads (peg_bits b) (l_cats (replicate (Z.to_nat (be_length b / 8)) (l_char any_byte))).
Proof.
  intros Hb s t s' Hs Ho H. apply ST_bind_ok in H as (v & s1 & H1 & H). injection H as _ <-.
  pose proof Hs as (Hwf & Hoff & Hm). unfold p_read in H1.
  destruct (h_read_bits_cases _ _ _ _ _ Hwf H1) as [Hn [[_ Hov]|[Hle Hmv]]]; [by left|right].
  pose proof (Z_div_mod_eq_full (be_length b) 8) as Hdiv. set (k := be_length b / 8) in *.
  destruct Hmv as (Hsame & Hwf1 & Hleft & Hov1). pose proof Hsame as (_ & _ & Hlen & _).
  unfold bits_left, bit_pos in Hle, Hleft. pose proof (wf_bits _ Hwf1) as Hb1.
  pose proof (rest_length s (on_byte_aligned s Hs)) as Hrl.
  apply bytes_read_as; try done; [lia| |congruence|lia]. split; [done|lia].
Qed.

Lemma peg_token_loop_reads str len : forall i s s',
  on_byte s -> peg_token_loop str len i s = Ok (true, s') -> on_byte s' /\
  (is_overrun s = true -> is_overrun s' = true) /\
  (is_overrun s' = true \/ rest s = take len (drop i str) ++ rest s').
Proof.
  induction len as [|len IH]; intros i s s' Hs H; cbn [peg_token_loop] in H.
  { injection H as <-. split_and!; [done..|by right]. }
  apply ST_bind_ok in H as (v & s1 & H1 & H). apply ST_bind_ok in H as (x & s2 & [Hx%deref_ok ->]%lift_ok & H).
  destruct (x =? uint8 v) eqn:E; [|intros; discriminate H]. apply Z.eqb_eq in E.
  destruct (read_byte_reads s v s1 false Hs H1) as [[Hov Hs1]|(c & l & Hr & Hc & -> & ->)].
  - destruct (IH _ _ _ Hs1 H) as (? & Hov' & _). auto.
  - destruct (on_byte_next s c l Hs Hr) as [Hs1 Hr1]. destruct (IH _ _ _ Hs1 H) as (? & Hov' & Hrest).
    split_and!; [done|by intros; apply Hov'|]. destruct Hrest as [|Hrest]; [by left|right].
    rewrite uint8_byte in E by done. subst x. rewrite (drop_S _ _ _ Hx). simpl. rewrite <- Hrest, Hr1. done.
Qed.

Lemma peg_token_reads t : reads (peg_token t) (fun w => w = Sym <$> take (Z.to_nat (tk_len t)) (tk_str t)).
Proof.
  intros s r s' Hs Ho H. apply ST_bind_ok in H as (b & s1 & H1 & H). destruct b; [|intros; discriminate H].
  injection H as _ <-. destruct (peg_token_loop_reads _ _ _ _ _ Hs H1) as (Hs1 & _ & Hr).
  destruct (is_overrun s1) eqn:Eo; [by left|right]. destruct Hr as [|Hr]; [done|].
  split_and!; [done..|]. eexists. split; [done|]. rewrite Hr. apply consumed_bytes.
Qed.

Lemma peg_end_reads : reads peg_end (fun w => w = [Sym_end]).
Proof.
  intros s t s' Hs Ho H. apply ST_bind_ok in H as (s0 & s1 & H1 & H). injection H1 as <- <-.
  destruct (is_index s =? is_length s) eqn:E; [|intros; discriminate H]. injection H as _ <-. right.
  split_and!; [done..|]. exists [Sym_end]. split; [done|].
  assert (rest s = []) as Hr.
  { apply Z.eqb_eq in E. pose proof (rest_length s (on_byte_aligned s Hs)). apply length_zero_iff_nil. lia. }
  rewrite Hr. exact (consumed_end [] [] (consumed_nil [])).
Qed.

(** * Combinators *)

Lemma l_ors_elem Ls L w : L ∈ Ls -> L w -> l_ors Ls w.
Proof.
  intros Hin Hw. induction Ls as [|M Ls IH]; [by apply not_elem_of_nil in Hin|].
  apply elem_of_cons in Hin as [<-|Hin]; [by left|right; by apply IH].
Qed.

Section Combinators.
Context (rec : ptr -> P pres) (lf : nat) (continuation : nat -> option HParsedToken -> Z -> PM ptr).
Context (good : ptr -> Prop) (L : ptr -> language) (Hrec : forall p, good p -> reads_all (rec p) (L p)).

(** A success of a parser at the start of [m]. *)
Lemma rec_reads p s t s1 :
  good p -> on_byte s -> is_overrun s = false -> rec p s = Ok (Some t, s1) -> read_as (L p) s s1.
Proof. intros Hp Hs Ho H. by eapply Hrec. Qed.

Lemma peg_optional_reads p : good p -> reads (peg_optional rec p) (l_or (L p) l_empty).
Proof.
  intros Hp s t s' Hs Ho H. right. apply ST_bind_ok in H as (s0 & ? & H1 & H). injection H1 as <- <-.
  apply ST_bind_ok in H as (r & s1 & H1 & H). destruct r as [t1|].
  - injection H as <- <-. destruct (rec_reads p s t1 s1 Hp Hs Ho H1) as (? & ? & w & Hw & Hc).
    split_and!; [done..|]. exists w. split; [by left|done].
  - apply ST_bind_ok in H as ([] & s2 & H2 & H). injection H2 as <-. injection H as _ <-.
    destruct (read_as_refl s Hs Ho) as (? & ? & w & Hw & Hc). split_and!; [done..|]. exists w. split; [by right|done].
Qed.

Lemma peg_ignore_reads p : good p -> reads (peg_ignore rec p) (L p).
Proof.
  intros Hp s t s' Hs Ho H. right. apply ST_bind_ok in H as (r & s1 & H1 & H).
  destruct r as [t1|]; [|intros; discriminate H]. injection H as _ <-. by eapply rec_reads.
Qed.

Lemma space_char c : byte c -> isspace (wraps 8 c) = true -> c ∈ SPACE_CHRS.
Proof.
  intros Hc Hsp. unfold byte in Hc.
  assert (forallb (fun c => negb (isspace (wraps 8 c)) || bool_decide (c ∈ SPACE_CHRS)) (seqZ 0 256) = true) as Hall
    by (vm_compute; reflexivity).
  rewrite forallb_forall in Hall. specialize (Hall c). rewrite Hsp in Hall.
  apply (bool_decide_eq_true_1 (c ∈ SPACE_CHRS)), Hall, list_elem_of_In, elem_of_seqZ. lia.
Qed.

Lemma peg_spaces_reads fuel : forall s bak s',
  on_byte s -> is_overrun s = false -> peg_spaces fuel s = Ok (bak, s') ->
  read_as (l_star (l_char (fun x => x ∈ SPACE_CHRS))) s bak.
Proof.
  induction fuel as [|fuel IH]; intros s bak s' Hs Ho H; [intros; discriminate H|]. cbn [peg_spaces] in H.
  assert (read_as (l_star (l_char (fun x => x ∈ SPACE_CHRS))) s s) as Hstop.
  { split_and!; [done..|]. exists []. split; [constructor|apply consumed_nil]. }
  apply ST_bind_ok in H as (s0 & ? & H1 & H). injection H1 as <- <-.
  apply ST_bind_ok in H as (v & s1 & H1 & H). apply ST_bind_ok in H as (s0 & ? & H2 & H). injection H2 as <- <-.
  destruct (is_overrun s1) eqn:Ho1; [by injection H as <- _|].
  destruct (isspace (wraps 8 v)) eqn:Esp; [|by injection H as <- _].
  destruct (read_byte_reads s v s1 false Hs H1) as [[Hov _]|(c & l & Hr & Hc & -> & ->)]; [congruence|].
  destruct (on_byte_next s c l Hs Hr) as [Hs1 _].
  pose proof (byte_read_as (fun x => x ∈ SPACE_CHRS) s c l Hs Ho Hr (space_char c Hc Esp)) as Hfirst.
  destruct (read_as_trans _ _ _ _ _ Hfirst (IH _ _ _ Hs1 Ho1 H)) as (? & ? & w & (u & v & -> & Hu & Hv) & Hcon).
  split_and!; [done..|]. exists (u ++ v). split; [by constructor|done].
Qed.

Lemma peg_whitespace_reads p :
  good p -> reads (peg_whitespace rec lf p) (l_cat (l_star (l_char (fun x => x ∈ SPACE_CHRS))) (L p)).
Proof.
  intros Hp s t s' Hs Ho H. right. apply ST_bind_ok in H as (bak & s1 & H1 & H).
  apply ST_bind_ok in H as ([] & s2 & H2 & H). injection H2 as <-.
  pose proof (peg_spaces_reads _ _ _ _ Hs Ho H1) as Hr. pose proof Hr as (Hb & Hbo & _).
  eapply read_as_trans; [exact Hr|]. by eapply rec_reads.
Qed.

Lemma peg_seq_reads ps : Forall good ps -> forall s seq seq' s',
  on_byte s -> is_overrun s = false -> peg_seq rec ps seq s = Ok (Some seq', s') ->
  read_as (l_cats (L <$> ps)) s s'.
Proof.
  induction 1 as [|p ps Hp _ IH]; intros s seq seq' s' Hs Ho H; cbn [peg_seq] in H.
  { injection H as _ <-. by apply read_as_refl. }
  apply ST_bind_ok in H as (r & s1 & H1 & H). destruct r as [t1|]; [|intros; discriminate H].
  pose proof (rec_reads p s t1 s1 Hp Hs Ho H1) as Hr. pose proof Hr as (Hs1 & Ho1 & _).
  eapply read_as_trans; [exact Hr|]. destruct t1 as [t1|]; [|by eapply IH].
  apply ST_bind_ok in H as (seq1 & s2 & [_ ->]%lift_ok & H). by eapply IH.
Qed.

Lemma peg_sequence_reads sq : Forall good (sq_array sq) -> reads (peg_sequence rec sq) (l_cats (L <$> sq_array sq)).
Proof.
  intros Hps s t s' Hs Ho H. right. apply ST_bind_ok in H as (seq & s1 & H1 & H).
  destruct seq as [seq|]; [|intros; discriminate H]. injection H as _ <-. by eapply peg_seq_reads.
Qed.

Lemma read_as_ors ps p s s' : p ∈ ps -> read_as (L p) s s' -> read_as (l_ors (L <$> ps)) s s'.
Proof.
  intros Hp (? & ? & w & Hw & Hc). split_and!; [done..|]. exists w. split; [|done].
  apply (l_ors_elem _ (L p)); [apply list_elem_of_fmap; by exists p|done].
Qed.

Lemma peg_alts_reads ps : Forall good ps -> forall bak s t s',
  on_byte bak -> is_overrun bak = false -> peg_alts rec bak ps s = Ok (Some t, s') ->
  exists p, p ∈ ps /\ read_as (L p) bak s'.
Proof.
  induction 1 as [|p ps Hp _ IH]; intros bak s t s' Hs Ho H; cbn [peg_alts] in H; [intros; discriminate H|].
  apply ST_bind_ok in H as ([] & s1 & H1 & H). injection H1 as <-.
  apply ST_bind_ok in H as (r & s2 & H2 & H). destruct r as [t2|].
  - injection H as _ <-. exists p. split; [by left|by eapply rec_reads].
  - destruct (IH _ _ _ _ Hs Ho H) as (p' & Hp' & Hr). exists p'. split; [by right|done].
Qed.

Lemma peg_choice_reads sq : Forall good (sq_array sq) -> reads (peg_choice rec sq) (l_ors (L <$> sq_array sq)).
Proof.
  intros Hps s t s' Hs Ho H. right. apply ST_bind_ok in H as (bak & ? & H1 & H). injection H1 as <- <-.
  destruct (sq_array sq) as [|p ps]; [intros; discriminate H|]. apply Forall_cons_1 in Hps as [Hp Hps].
  apply ST_bind_ok in H as (r & s1 & H1 & H). destruct r as [t1|].
  - injection H as _ <-. eapply (read_as_ors (p :: ps) p); [by left|by eapply rec_reads].
  - destruct (peg_alts_reads ps Hps _ _ _ _ Hs Ho H) as (p' & Hp' & Hr).
    eapply (read_as_ors (p :: ps) p'); [by right|done].
Qed.

Lemma peg_pick_reads ps : Forall good ps -> forall s i which res t s',
  on_byte s -> is_overrun s = false -> peg_pick rec ps i which res s = Ok (Some t, s') ->
  read_as (l_cats (L <$> ps)) s s'.
Proof.
  induction 1 as [|p ps Hp _ IH]; intros s i which res t s' Hs Ho H; cbn [peg_pick] in H.
  { injection H as _ <-. by apply read_as_refl. }
  apply ST_bind_ok in H as (r & s1 & H1 & H). destruct r as [t1|]; [|intros; discriminate H].
  pose proof (rec_reads p s t1 s1 Hp Hs Ho H1) as Hr. pose proof Hr as (Hs1 & Ho1 & _).
  eapply read_as_trans; [exact Hr|]. by eapply IH.
Qed.

Lemma peg_action_reads a : good (pa_p a) -> reads (peg_action rec a) (L (pa_p a)).
Proof.
  intros Hp s t s' Hs Ho H. right. unfold peg_action in H.
  destruct (pa_p a) as [p|] eqn:Ep; [|intros; discriminate H]. destruct (pa_action a) as [f|]; [|intros; discriminate H].
  apply ST_bind_ok in H as (r & s1 & H1 & H). destruct r as [t1|]; [|intros; discriminate H].
  apply ST_bind_ok in H as (tok & s2 & [_ ->]%lift_ok & H). injection H as _ <-. by eapply rec_reads.
Qed.

Lemma peg_attr_bool_reads a : good (ab_p a) -> reads (peg_attr_bool rec a) (L (ab_p a)).
Proof.
  intros Hp s t s' Hs Ho H. right. apply ST_bind_ok in H as (r & s1 & H1 & H).
  destruct r as [[t1|]|]; [|intros; discriminate H..].
  apply ST_bind_ok in H as (b & s2 & [_ ->]%lift_ok & H). destruct b; [|intros; discriminate H].
  injection H as _ <-. by eapply rec_reads.
Qed.

(** ** Repetitions *)

Lemma l_star_snoc M u v : l_star M u -> M v -> l_star M (u ++ v).
Proof.
  intros Hu Hv. induction Hu as [|u1 u2 H1 _ IH].
  - rewrite <- (app_nil_r ([] ++ v)). apply (l_star_cons M v []); [done|constructor].
  - rewrite <- app_assoc. by constructor.
Qed.

(** What has been read after [count] rounds. *)
Definition rounds (r : HRepeat) (count : Z) : language :=
  if count =? 0 then l_empty else l_cat (L (rp_p r)) (l_star (more_language L r)).

Lemma rounds_first r w : L (rp_p r) w -> rounds r 1 w.
Proof. intros Hw. exists w, []. rewrite app_nil_r. split_and!; [done..|constructor]. Qed.

Lemma rounds_next r count u v : 0 < count -> rounds r count u -> more_language L r v -> rounds r (count + 1) (u ++ v).
Proof.
  intros Hc. unfold rounds. rewrite (proj2 (Z.eqb_neq count 0)), (proj2 (Z.eqb_neq (count + 1) 0)) by lia.
  intros (u1 & u2 & -> & H1 & H2) Hv. exists u1, (u2 ++ v). rewrite app_assoc. split_and!; [done..|by apply l_star_snoc].
Qed.

(** One round: the separator after the first one, and the element. *)
Lemma round_reads r count s0 s s1 s2 sep_ok t :
  Forall good (children (many_vt r)) -> 0 <= count -> on_byte s0 -> is_overrun s0 = false ->
  read_as (rounds r count) s0 s ->
  (if (0 <? count) && bool_decide (rp_sep r <> None)
   then sep ← rec (rp_sep r); mret (bool_decide (sep <> None)) else mret true) s = Ok (sep_ok, s1) ->
  negb sep_ok = false -> rec (rp_p r) s1 = Ok (Some t, s2) -> read_as (rounds r (count + 1)) s0 s2.
Proof.
  intros [Hp Hsep]%Forall_cons_1 Hcount Hs0 Ho0 Hr Hsp Hok Hel. pose proof Hr as (Hs & Ho & u & Hu & Hc).
  destruct (Z.ltb_spec 0 count) as [Hpos|Hz].
  - assert (read_as (more_language L r) s s2) as (Hs2 & Ho2 & v & Hv & Hc').
    { unfold more_language. destruct (rp_sep r) as [a|].
      - rewrite bool_decide_true in Hsp by done. cbn [andb] in Hsp.
        apply ST_bind_ok in Hsp as (sp & s3 & H3 & E). injection E as <- <-.
        destruct sp as [t1|]; [|done].
        pose proof (rec_reads _ s t1 s3 (Forall_inv Hsep) Hs Ho H3) as Hr3. pose proof Hr3 as (? & ? & _).
        eapply read_as_trans; [exact Hr3|by eapply rec_reads].
      - rewrite bool_decide_false in Hsp by (intros H; by apply H). injection Hsp as _ <-. by eapply rec_reads. }
    split_and!; [done..|]. exists (u ++ v). split; [by apply rounds_next|by eapply consumed_app].
  - assert (count = 0) as -> by lia. injection Hsp as _ <-. unfold rounds in Hu. simpl in Hu. unfold l_empty in Hu. subst u.
    destruct (rec_reads _ s t s2 Hp Hs Ho Hel) as (? & ? & v & Hv & Hc'). split_and!; [done..|].
    exists v. split; [by apply rounds_first|]. by apply (consumed_app _ _ _ [] v Hc).
Qed.

Lemma peg_many_loop_reads r fuel : Forall good (children (many_vt r)) -> rp_min_p r = true ->
  forall s0 s seq count bak seq' count' bak' err s',
  0 <= count -> on_byte s0 -> is_overrun s0 = false -> read_as (rounds r count) s0 s ->
  peg_many_loop rec fuel r seq count bak s = Ok (seq', count', bak', err, s') ->
  err = true /\ 0 <= count' /\ read_as (rounds r count') s0 bak'.
Proof.
  intros Hg Hmin. induction fuel as [|fuel IH]; intros s0 s seq count bak seq' count' bak' err s' Hcount Hs0 Ho0 Hr H;
    cbn [peg_many_loop] in H; rewrite Hmin in H; [intros; discriminate H|]. cbn [orb] in H.
  apply ST_bind_ok in H as (s1 & ? & H1 & H). injection H1 as <- <-.
  apply ST_bind_ok in H as (sep_ok & s2 & H2 & H). destruct (negb sep_ok) eqn:Hok.
  { injection H as <- <- <- <- <-. by split_and!. }
  apply ST_bind_ok in H as (elem & s3 & H3 & H). destruct elem as [t|].
  - pose proof (round_reads r count s0 s s2 s3 sep_ok t Hg Hcount Hs0 Ho0 Hr H2 Hok H3) as Hr3.
    apply ST_bind_ok in H as (seq1 & s4 & H4 & H).
    assert (s4 = s3) as ->.
    { destruct t as [t|]; [by apply lift_ok in H4 as [_ ->]|by injection H4]. }
    eapply (IH s0 s3); [|done|done|exact Hr3|exact H]. lia.
  - injection H as <- <- <- <- <-. by split_and!.
Qed.

Lemma peg_many_reads r :
  Forall good (children (many_vt r)) -> rp_min_p r = true -> 0 <= rp_count r <= 1 ->
  reads (peg_many rec lf r) (many_language L r).
Proof.
  intros Hg Hmin Hrc s t s' Hs Ho H. right. apply ST_bind_ok in H as (s0 & ? & H1 & H). injection H1 as <- <-.
  apply ST_bind_ok in H as ([[[seq count] bak] err] & s1 & H1 & H).
  destruct (peg_many_loop_reads r lf Hg Hmin s s _ 0 s _ _ _ _ _ ltac:(lia) Hs Ho (read_as_refl s Hs Ho) H1)
    as (-> & Hc & Hb & Hbo & w & Hw & Hcon).
  destruct (Z.leb_spec (rp_count r) count) as [Hle|Hlt].
  - apply ST_bind_ok in H as ([] & s2 & H2 & H). injection H2 as <-. injection H as _ <-.
    split_and!; [done..|]. exists w. split; [|done]. unfold many_language. unfold rounds in Hw.
    destruct (Z.eqb_spec (rp_count r) 0); destruct (Z.eqb_spec count 0); [by right|by left|lia|done].
  - apply ST_bind_ok in H as ([] & s2 & H2 & H). intros; discriminate H.
Qed.

End Combinators.

(** * Parsers *)

Section Parsers.
Context (continuation : nat -> option HParsedToken -> Z -> PM ptr) (lf : nat) (store : list HParser).

(** An unsigned or signed byte in a range of bytes. *)
Lemma in_range_byte r signed_p c :
  0 <= rg_lower r <= rg_upper r -> rg_upper r < 256 -> byte c ->
  in_range r (Some (new_tok (if signed_p : bool then TT_SINT (if signed_p then wraps 8 c else c)
                             else TT_UINT (uint64 (if signed_p then wraps 8 c else c))))) = true ->
  rg_lower r <= c <= rg_upper r.
Proof.
  intros Hlo Hup Hc H. unfold byte in Hc.
  assert (forall y, 0 <= y < 256 -> uint64 y = y) as Hu.
  { intros y Hy. apply wrapu_small. change (2 ^ 64) with 18446744073709551616. lia. }
  destruct signed_p; unfold in_range in H; simpl in H; apply andb_true_iff in H as [H1 H2];
    apply Z.leb_le in H1, H2; [|rewrite !Hu in * by lia; lia].
  assert (c < 128 \/ wraps 8 c < 0) as [Hlt|]; [|rewrite wraps_small in * by (change (8 - 1) with 7; lia); lia|lia].
  destruct (Z.ltb_spec c 128); [by left|right]. rewrite <- sign_byte by done.
  assert (forallb (fun c => (c <? 128) || (sint64 (Z.lxor (sint64 c) 128 - 128) <? 0)) (seqZ 0 256) = true) as Hall
    by (vm_compute; reflexivity).
  rewrite forallb_forall in Hall. specialize (Hall c). rewrite (proj2 (Z.ltb_ge c 128)) in Hall by done.
  apply Z.ltb_lt, Hall, list_elem_of_In, elem_of_seqZ. lia.
Qed.

Lemma peg_int_range_reads n r :
  supported store (int_range_vt r) -> sub store n (rg_p r) -> forall fuel,
  reads (peg_int_range (peg continuation lf store fuel) r) (l_char (fun x => rg_lower r <= x <= rg_upper r)).
Proof.
  intros (Hlo & Hup & a & q & b & Ea & Hq & Eb & Hb) (a' & Ea' & _ & Hda) fuel s t s' Hs Ho H.
  rewrite Ea in Ea'. injection Ea' as <-. destruct (desugarable_inv store a q Hda Hq) as [Hsup _].
  rewrite Eb in Hsup. cbn [supported] in Hsup. assert (be_length b = 8) as Hlen.
  { pose proof (Z_div_mod_eq_full (be_length b) 8). lia. }
  unfold peg_int_range in H. rewrite Ea in H. apply ST_bind_ok in H as (r1 & s1 & H1 & H).
  destruct r1 as [t1|]; [|intros; discriminate H]. destruct (in_range r t1) eqn:Hin; [|intros; discriminate H].
  injection H as _ <-. destruct fuel as [|fuel]; [intros; discriminate H1|]. cbn [peg] in H1.
  apply ST_bind_ok in H1 as (q' & ? & [Hq' ->]%lift_ok & H1).
  apply outcome_bind_ok in Hq' as (a' & [= <-]%deref_ok & Hq'%deref_ok). rewrite Hq in Hq'. injection Hq' as <-.
  rewrite Eb in H1. cbn [peg_step] in H1. apply ST_bind_ok in H1 as (r2 & s2 & H2 & H1).
  apply ST_bind_ok in H1 as (s3 & ? & H3 & H1). injection H3 as <- <-.
  destruct (is_overrun s2) eqn:Ho2; [intros; discriminate H1|]. injection H1 as -> <-.
  apply ST_bind_ok in H2 as (v & s4 & H4 & H2). injection H2 as <- <-. unfold p_read in H4. rewrite Hlen in H4.
  destruct (read_byte_reads s v s4 _ Hs H4) as [[Hov _]|(c & l & Hr & Hc & -> & ->)]; [congruence|right].
  eapply byte_read_as; [done..|]. by eapply in_range_byte.
Qed.

Lemma peg_step_reads a q fuel :
  desugarable store a -> store !! a = Some q ->
  (forall p, sub store a p -> reads_all (peg continuation lf store fuel p) (parser_language store (S a) p)) ->
  reads (peg_step (peg continuation lf store fuel) lf continuation store (p_env q))
    (env_language (parser_language store (S a)) (p_env q)).
Proof.
  intros Hda Hq Hrec. destruct (desugarable_inv store a q Hda Hq) as [Hs Hc].
  set (L := parser_language store (S a)) in *. destruct (p_env q)
    eqn:Eq; try done; cbn [peg_step env_language children] in *.
  - by apply peg_bits_reads.
  - apply peg_ch_reads.
  - apply peg_charset_reads.
  - apply peg_token_reads.
  - apply peg_end_reads.
  - intros s t s' Hs' Ho H. injection H as _ <-. right. by apply read_as_refl.
  - apply (peg_optional_reads _ (sub store a) L Hrec). exact (Forall_inv Hc).
  - apply (peg_ignore_reads _ (sub store a) L Hrec). exact (Forall_inv Hc).
  - apply (peg_whitespace_reads _ lf (sub store a) L Hrec). exact (Forall_inv Hc).
  - by apply (peg_sequence_reads _ (sub store a) L Hrec).
  - by apply (peg_choice_reads _ (sub store a) L Hrec).
  - destruct Hs. by apply (peg_many_reads _ lf (sub store a) L Hrec).
  - eapply peg_int_range_reads; [done|exact (Forall_inv Hc)].
  - intros s0 t s' Hs' Ho H. right. by eapply (peg_pick_reads _ (sub store a) L Hrec).
  - apply (peg_action_reads _ (sub store a) L Hrec). exact (Forall_inv Hc).
  - apply (peg_attr_bool_reads _ (sub store a) L Hrec). exact (Forall_inv Hc).
Qed.

Lemma peg_reads fuel : forall a,
  desugarable store a -> reads_all (peg continuation lf store fuel (Some a)) (parser_language store (S a) (Some a)).
Proof.
  induction fuel as [|fuel IH]; intros a Hda s t s' Hs Ho H; [intros; discriminate H|]. cbn [peg] in H.
  apply ST_bind_ok in H as (q & ? & [Hq ->]%lift_ok & H).
  apply outcome_bind_ok in Hq as (a' & [= <-]%deref_ok & Hq%deref_ok).
  apply ST_bind_ok in H as (r & s1 & H1 & H). apply ST_bind_ok in H as (s2 & ? & H2 & H). injection H2 as <- <-.
  destruct (is_overrun s1) eqn:Ho1; [intros; discriminate H|]. injection H as -> <-.
  destruct (peg_step_reads a q fuel Hda Hq) with (s := s) (t := t) (s' := s1) as [Hov|Hr]; try done.
  - intros p (b & -> & Hb & Hdb) s2 t2 s3 Hs2 Ho2 H. eapply read_as_eq; [|by eapply IH].
    apply parser_language_fuel; [lia..|done].
  - congruence.
  - eapply read_as_eq; [|exact Hr]. symmetry. by apply parser_language_eq; [lia|..].
Qed.

End Parsers.

(** * Properties *)

Lemma packrat_reads continuation lf store n m a s r s' :
  pure_continuation continuation -> memo_safe store -> (n <= m)%nat -> desugarable store a ->
  on_byte s -> is_overrun s = false -> peg continuation lf store n (Some a) s = Ok (r, s') ->
  exists res st, h_packrat_parse continuation lf m store (Some a) s = Ok (res, st) /\
    ast <$> res = r /\ ps_stream st = s' /\
    (res <> None -> on_byte s' /\ is_overrun s' = false /\
       exists w, parser_language store (S a) (Some a) w /\ consumed (rest s) (rest s') w).
Proof.
  intros Hcont Hsafe Hm Hda Hs Ho Hpeg.
  edestruct (do_parse_sim continuation lf store Hcont Hsafe n m (Some a) Hm (initial_state store s))
    as (b & st & E & Hst & Hi & He & Hr); [apply initial_inv|done|exact Hpeg|].
  unfold h_packrat_parse. rewrite E. cbn [mbind outcome_bind].
  destruct b as [x|], r as [t|]; try done.
  - destruct Hr as (br & Hx & Ht). unfold result_at. simpl. rewrite Hx.
    eexists _, _. split; [done|]. simpl. rewrite Ht. split_and!; [done..|]. intros _.
    by eapply peg_reads.
  - eexists _, _. by split_and!.
Qed.

(** C4: Packrat parses read strings of the language. For a parser that desugars,
    at a byte of the input and with callbacks that memoisation is safe for:
    where the specification gives a result, h_packrat_parse gives the same; a
    success leaves the stream at a byte, before any overrun, and what it has
    consumed (with an end of the input for h_end_p) is a string of the language
    of the combinators, the one that the grammar of h_desugar derives. *)
Theorem h_packrat_parse_language continuation lf store n m a s r s' :
  pure_continuation continuation -> memo_safe store -> (n <= m)%nat -> desugarable store a ->
  on_byte s -> is_overrun s = false -> peg continuation lf store n (Some a) s = Ok (r, s') ->
  exists res st, h_packrat_parse continuation lf m store (Some a) s = Ok (res, st) /\
    ast <$> res = r /\ ps_stream st = s' /\
    (res <> None -> on_byte s' /\ is_overrun s' = false /\
       exists w, parser_language store (S a) (Some a) w /\ consumed (rest s) (rest s') w).
Proof. apply packrat_reads. Qed.

(** * Witnesses *)

Lemma number_list_safe : memo_safe number_list_store.
Proof.
  let st := eval vm_compute in number_list_store in change (memo_safe st). by repeat constructor.
Qed.

Lemma on_byte_buffer bytes :
  Forall byte bytes -> Z.of_nat (length bytes) < 2 ^ 27 -> on_byte (buffer_stream bytes).
Proof. intros Hb Hl. split; [|done]. split; simpl; try done; lia. Qed.

Lemma h_packrat_parse_language_witness :
  exists res st w,
    h_packrat_parse no_bind 9 30 number_list_store (Some 7%nat) (buffer_stream [32; 49; 44; 32; 50; 50]) = Ok (Some res, st) /\
    parser_language number_list_store 8 (Some 7%nat) w /\
    consumed [32; 49; 44; 32; 50; 50] (rest (ps_stream st)) w /\ bit_pos (ps_stream st) = 48.
Proof.
  assert (exists t s', peg no_bind 9 number_list_store 30 (Some 7%nat) (buffer_stream [32; 49; 44; 32; 50; 50]) =
    Ok (Some t, s') /\ bit_pos s' = 48) as (t & s' & Ep & Hp).
  { do 2 eexists. split; vm_compute; reflexivity. }
  destruct (h_packrat_parse_language no_bind 9 number_list_store 30 30 7 (buffer_stream [32; 49; 44; 32; 50; 50]) (Some t) s')
    as (res & st & E & Ha & Hs & Hl).
  - exact no_bind_pure.
  - exact number_list_safe.
  - lia.
  - exact number_list_desugarable.
  - apply on_byte_buffer; [repeat (constructor; [unfold byte; lia|]); constructor|simpl; lia].
  - reflexivity.
  - exact Ep.
  - destruct res as [res|]; [|intros; discriminate Ha].
    destruct Hl as (_ & _ & w & Hw & Hc); [intros H; discriminate H|]. exists res, st, w.
    rewrite Hs. split; [exact E|]. split; [exact Hw|]. split; [exact Hc|exact Hp].
Defined.
