(* ===== verification/PegTotal.v ===== *)
(** Packrat parses answer: a parse by the packrat back end ends with a result or a
    failure, for graphs without cycles in which no round of a repetition can go
    by without reading a byte (h_many of the empty string never returns,
    PackratDefects). The specification Peg is total on these graphs, and the
    memoising parser does what it says. *)

From S2P Require Import Prelude Stream ByteStream BitWriter Charset CArray Token Parser Validity Combinators Packrat.
From S2P Require Import Peg PegFacts PackratCorrect Desugar Grammar DesugarWf DesugarLang FirstFacts Consumed PegLang.

(** * Strings without bytes *)

(** A string of [L] can be without bytes. *)
Definition byteless (L : language) : Prop := exists w, L w /\ bytes_in w = 0%nat.

Lemma byteless_eq L M : L ≡ₗ M -> byteless L -> byteless M.
Proof. intros HL (w & Hw & Hb). exists w. split; [by apply HL|done]. Qed.

Lemma byteless_cat L M : byteless (l_cat L M) -> byteless L /\ byteless M.
Proof.
  intros (w & (u & v & -> & Hu & Hv) & Hb). rewrite bytes_in_app in Hb. split; [exists u|exists v]; split; (done || lia).
Qed.

Lemma byteless_cats Ls : byteless (l_cats Ls) -> Forall byteless Ls.
Proof. induction Ls as [|L Ls IH]; intros H; [done|]. apply byteless_cat in H as [H1 H2]. constructor; auto. Qed.

Lemma byteless_ors Ls : byteless (l_ors Ls) -> Exists byteless Ls.
Proof.
  induction Ls as [|L Ls IH]; [by intros (w & [] & _)|]. intros (w & [Hw|Hw] & Hb); [left; by exists w|].
  right. apply IH. by exists w.
Qed.

Lemma byteless_char P : ~ byteless (l_char P).
Proof. by intros (w & (x & -> & _) & Hb). Qed.

(** Does a parser read strings without bytes? Those of its children are [idle]. *)
Section Idle.
Context (idle : ptr -> bool).

(** A round of a repetition after the first one. *)
Definition more_idle (r : HRepeat) : bool :=
  idle (rp_p r) && match rp_sep r with None => true | Some _ => idle (rp_sep r) end.

Definition env_idle (e : parser_env) : bool :=
  match e with
  | bits_vt b => be_length b <? 8
  | token_vt t => (tk_len t <=? 0) || match tk_str t with [] => true | _ => false end
  | end_vt | epsilon_vt | optional_vt _ => true
  | ignore_vt p | whitespace_vt p => idle p
  | sequence_vt s => forallb idle (sq_array s)
  | choice_vt s => existsb idle (sq_array s)
  | many_vt r => (rp_count r =? 0) || idle (rp_p r)
  | ignoreseq_vt q => forallb idle (is_parsers q)
  | action_vt a => idle (pa_p a)
  | attr_bool_vt a => idle (ab_p a)
  | _ => false
  end.

Context (L : ptr -> language).

Lemma more_idle_ok r :
  Forall (fun p => byteless (L p) -> idle p = true) (children (many_vt r)) ->
  byteless (more_language L r) -> more_idle r = true.
Proof.
  intros [Hp Hs]%Forall_cons_1 Hb. unfold more_idle, more_language in *. destruct (rp_sep r).
  - apply byteless_cat in Hb as [Hb1 Hb2]. rewrite (Hp Hb2). by apply (Forall_inv Hs).
  - by rewrite (Hp Hb).
Qed.

Lemma forallb_idle ps :
  Forall (fun p => byteless (L p) -> idle p = true) ps -> byteless (l_cats (L <$> ps)) -> forallb idle ps = true.
Proof.
  intros Hps Hb%byteless_cats. apply forallb_forall. intros p Hp%list_elem_of_In.
  apply (proj1 (list.Forall_forall _ _) Hps p Hp). by apply (proj1 (list.Forall_forall _ _) Hb (L p)), list_elem_of_fmap_2.
Qed.

Lemma env_idle_ok e :
  Forall (fun p => byteless (L p) -> idle p = true) (children e) -> byteless (env_language L e) -> env_idle e = true.
Proof.
  intros Hc Hb. destruct e; cbn [children env_language env_idle] in *; try done;
    try (by destruct Hb as (w & [] & _)); try (by destruct (byteless_char _ Hb)); try (by apply (Forall_inv Hc)); try (by apply forallb_idle).
  - apply Z.ltb_lt. destruct (Z.to_nat (be_length env / 8)) as [|k] eqn:E.
    + pose proof (Z_div_mod_eq_full (be_length env) 8). pose proof (Z.mod_pos_bound (be_length env) 8). lia.
    + simpl in Hb. apply byteless_cat in Hb as [Hb _]. by apply byteless_char in Hb.
  - destruct Hb as (w & -> & Hb). destruct (Z.leb_spec (tk_len t) 0); [done|]. simpl.
    destruct (tk_str t); [done|]. destruct (Z.to_nat (tk_len t)) eqn:E; [lia|]. done.
  - apply byteless_cat in Hb as [_ Hb]. by apply (Forall_inv Hc).
  - apply byteless_ors, list.Exists_exists in Hb as (M & (p & -> & Hp)%list_elem_of_fmap & Hb).
    apply existsb_exists. exists p. split; [by apply list_elem_of_In|]. by apply (proj1 (list.Forall_forall _ _) Hc p Hp).
  - unfold many_language in Hb. destruct (rp_count r =? 0); [done|].
    apply byteless_cat in Hb as [Hb _]. by apply (Forall_inv Hc).
Qed.
End Idle.

(** The parser at [p] of a store in which parsers point at earlier ones. *)
Fixpoint idle (st : list HParser) (n : nat) (p : ptr) : bool :=
  match n, p with
  | S n, Some a => match st !! a with Some q => env_idle (idle st n) (p_env q) | None => false end
  | _, _ => false
  end.

Lemma idle_ok st n a :
  desugarable st a -> (a < n)%nat -> byteless (parser_language st n (Some a)) -> idle st n (Some a) = true.
Proof.
  revert a. induction n as [|n IH]; intros a Hd Ha Hb; [lia|]. cbn [idle parser_language] in *.
  destruct (st !! a) as [q|] eqn:Hq; [|by destruct Hb as (w & [] & _)].
  eapply env_idle_ok; [|exact Hb]. destruct (desugarable_inv st a q Hd Hq) as [_ Hc].
  eapply list.Forall_impl; [exact Hc|]. intros p (b & -> & Hlt & Hdb) Hp. apply IH; [done|lia|done].
Qed.

(** No round of a repetition, after the first one, goes by without a byte. *)
Definition no_idle_loops (st : list HParser) : bool :=
  forallb (fun q => match p_env q with
                    | many_vt r => negb (more_idle (idle st (length st)) r)
                    | _ => true
                    end) st.

Lemma no_idle_loops_ok st a q r :
  no_idle_loops st = true -> desugarable st a -> st !! a = Some q -> p_env q = many_vt r ->
  ~ byteless (more_language (parser_language st (S a)) r).
Proof.
  intros Hn Hd Hq Er Hb. unfold no_idle_loops in Hn. rewrite forallb_forall in Hn.
  specialize (Hn q (proj1 (list_elem_of_In _ _) (list_elem_of_lookup_2 _ _ _ Hq))). simpl in Hn. rewrite Er in Hn.
  apply negb_true_iff in Hn. erewrite more_idle_ok in Hn; [done| |exact Hb].
  destruct (desugarable_inv st a q Hd Hq) as [_ Hc]. rewrite Er in Hc. pose proof (lookup_lt_Some _ _ _ Hq).
  eapply list.Forall_impl; [exact Hc|]. intros p (b & -> & Hlt & Hdb) Hp. apply idle_ok; [done|lia|].
  eapply byteless_eq; [|exact Hp]. apply parser_language_fuel; [lia..|done].
Qed.

(** * Answers *)

Lemma consumed_length l l' w : consumed l l' w -> (length l' + bytes_in w = length l)%nat.
Proof.
  intros (bytes & n & -> & -> & _). rewrite bytes_in_app, length_app.
  assert (bytes_in (bytes_of bytes) = length bytes) as -> by (induction bytes as [|c bytes IH]; simpl; congruence).
  assert (bytes_in (replicate n Sym_end) = 0%nat) as -> by by induction n. lia.
Qed.

(** At a byte, before any overrun, with at most [k] bytes left. *)
Record ready_at (k : nat) (s : HInputStream) : Prop := {
  ra_byte : on_byte s;
  ra_overrun : is_overrun s = false;
  ra_left : (length (rest s) <= k)%nat;
}.
Definition replies {A} (m : P A) (k : nat) : Prop := forall s, ready_at k s -> exists r s', m s = Ok (r, s').

Lemma read_as_ready L k s s' : ready_at k s -> read_as L s s' -> ready_at k s'.
Proof.
  intros [_ _ Hl] (Hs & Ho & w & _ & Hc). split; [done..|]. apply consumed_length in Hc. lia.
Qed.

Lemma read_bits_ok s n signed_p :
  stream_wf s -> 1 <= n <= 63 -> exists v s', h_read_bits s n signed_p = Ok (v, s').
Proof. intros Hs Hn. destruct (read_bits_safe s n signed_p) as (v & s' & E & _); [done|lia|by left; lia|by eexists _, _]. Qed.

Lemma p_read_byte s signed_p : on_byte s -> exists v s', h_read_bits s 8 signed_p = Ok (v, s') /\ on_byte s'.
Proof.
  intros Hs. rewrite read_byte_any by by apply on_byte_aligned. destruct (rest s) as [|c l] eqn:Hr.
  - eexists _, _. split; [done|]. destruct Hs as (Hwf & ? & ?). split; [by destruct Hwf|done].
  - eexists _, _. split; [done|]. by eapply on_byte_next.
Qed.

Lemma peg_ch_replies k c : replies (peg_ch c) k.
Proof.
  intros s [Hs _ _]. destruct (p_read_byte s false Hs) as (v & s' & E & _).
  unfold peg_ch, p_read, mbind, ST_bind. rewrite E. destruct (_ =? _); by eexists _, _.
Qed.

Lemma peg_charset_replies k cs : charset_wf cs -> replies (peg_charset cs) k.
Proof.
  intros Hcs s [Hs _ _]. destruct (p_read_byte s false Hs) as (v & s' & E & _).
  unfold peg_charset, p_read, mbind, ST_bind. rewrite E, charset_isset_mem; [|done|].
  - unfold lift. destruct (charset_mem _ _); by eexists _, _.
  - pose proof (wrapu_range 8 v). lia.
Qed.

Lemma peg_bits_replies k b : 1 <= be_length b <= 63 -> replies (peg_bits b) k.
Proof.
  intros Hb s [(Hwf & _) _ _]. destruct (read_bits_ok s (be_length b) (be_signedp b) Hwf Hb) as (v & s' & E).
  unfold peg_bits, p_read, mbind, ST_bind. rewrite E. by eexists _, _.
Qed.

Lemma peg_token_loop_ok str len i s :
  on_byte s -> (i + len <= length str)%nat -> exists b s', peg_token_loop str len i s = Ok (b, s').
Proof.
  revert i s. induction len as [|len IH]; intros i s Hs Hi; cbn [peg_token_loop]; [by eexists _, _|].
  destruct (p_read_byte s false Hs) as (v & s' & E & Hs').
  destruct (lookup_lt_is_Some_2 str i) as [x Hx]; [lia|].
  unfold p_read, mbind, ST_bind. rewrite E, Hx. cbn [deref lift].
  destruct (x =? uint8 v); [apply IH; [done|lia]|by eexists _, _].
Qed.

Lemma peg_token_replies k t : tk_len t <= Z.of_nat (length (tk_str t)) -> replies (peg_token t) k.
Proof.
  intros Ht s [Hs _ _]. destruct (peg_token_loop_ok (tk_str t) (Z.to_nat (tk_len t)) 0 s Hs) as (b & s' & E); [lia|].
  unfold peg_token, mbind, ST_bind. rewrite E. destruct b; by eexists _, _.
Qed.

Lemma peg_end_replies k : replies peg_end k.
Proof. intros s _. unfold peg_end, mbind, ST_bind, get. destruct (_ =? _); by eexists _, _. Qed.

(** ** Combinators *)

Section Combinators.
Context (rec : ptr -> P pres) (lf k : nat) (good : ptr -> Prop) (L : ptr -> language).
Context (Hrec : forall p, good p -> reads_all (rec p) (L p)) (Hans : forall p, good p -> replies (rec p) k).
Context (Hlf : (k + 2 <= lf)%nat).

(** The answer of a child, and where the stream is after a success. *)
Lemma rec_answer p s :
  good p -> ready_at k s ->
  exists r s', rec p s = Ok (r, s') /\ (r <> None -> ready_at k s' /\ read_as (L p) s s').
Proof.
  intros Hp Hs. destruct (Hans p Hp s Hs) as (r & s' & E). exists r, s'. split; [done|]. intros Hr.
  destruct r as [t|]; [|done]. assert (read_as (L p) s s') as Hra by (eapply Hrec; [done|apply Hs|apply Hs|done]).
  split; [by eapply read_as_ready|done].
Qed.

Ltac step := unfold mbind, ST_bind, get, p_put, modify, mret, ST_ret, p_tok, p_fail.

Lemma peg_optional_replies p : good p -> replies (peg_optional rec p) k.
Proof.
  intros Hp s Hs. destruct (rec_answer p s Hp Hs) as (r & s' & E & _). unfold peg_optional. step. rewrite E.
  destruct r; by eexists _, _.
Qed.

Lemma peg_ignore_replies p : good p -> replies (peg_ignore rec p) k.
Proof.
  intros Hp s Hs. destruct (rec_answer p s Hp Hs) as (r & s' & E & _). unfold peg_ignore. step. rewrite E.
  destruct r; by eexists _, _.
Qed.

Lemma peg_spaces_answer fuel s :
  ready_at k s -> (length (rest s) < fuel)%nat -> exists bak s', peg_spaces fuel s = Ok (bak, s').
Proof.
  revert s. induction fuel as [|fuel IH]; intros s Hs Hf; [lia|]. destruct Hs as [Hs Ho Hl].
  cbn [peg_spaces]. unfold p_read. step. rewrite read_byte_any by by apply on_byte_aligned.
  destruct (rest s) as [|c l] eqn:Hr; [simpl; by eexists _, _|].
  destruct (on_byte_next s c l Hs Hr) as [Hs' Hr']. rewrite next_byte_overrun, Ho.
  destruct (isspace _); [|by eexists _, _]. apply IH; [|rewrite Hr'; simpl in Hf; lia].
  split; [done|by rewrite next_byte_overrun|rewrite Hr'; simpl in Hl; lia].
Qed.

Lemma peg_whitespace_replies p : good p -> replies (peg_whitespace rec lf p) k.
Proof.
  intros Hp s Hs. destruct (peg_spaces_answer lf s Hs) as (bak & s' & E); [destruct Hs; lia|].
  assert (ready_at k bak) as Hb by (eapply read_as_ready; [exact Hs|eapply peg_spaces_reads; [apply Hs..|exact E]]).
  destruct (rec_answer p bak Hp Hb) as (r & s2 & E2 & _).
  unfold peg_whitespace. step. rewrite E, E2. by eexists _, _.
Qed.

Lemma peg_seq_answer ps : Forall good ps -> forall s seq,
  ready_at k s -> carray_wf seq -> exists r s', peg_seq rec ps seq s = Ok (r, s').
Proof.
  induction 1 as [|p ps Hp _ IH]; intros s seq Hs Hseq; cbn [peg_seq]; [by eexists _, _|].
  destruct (rec_answer p s Hp Hs) as (r & s' & E & Hr). step. rewrite E.
  destruct r as [[t|]|]; [| |by eexists _, _]; destruct Hr as [Hs' _]; [done| |done|by apply IH].
  destruct (h_carray_append_ok seq (Some t) Hseq) as (seq' & -> & Hseq' & _). by apply IH.
Qed.

Lemma peg_sequence_replies sq : Forall good (sq_array sq) -> replies (peg_sequence rec sq) k.
Proof.
  intros Hps s Hs. unfold peg_sequence. step.
  destruct (peg_seq_answer _ Hps s (h_carray_new_sized (if (0 <? length (sq_array sq))%nat then length (sq_array sq) else 4%nat))
    Hs (carray_new_sized_wf _)) as (r & s' & ->). destruct r; by eexists _, _.
Qed.

Lemma peg_alts_answer ps bak s : Forall good ps -> ready_at k bak -> exists r s', peg_alts rec bak ps s = Ok (r, s').
Proof.
  intros Hps Hb. revert s. induction Hps as [|p ps Hp _ IH]; intros s; cbn [peg_alts]; [by eexists _, _|].
  destruct (rec_answer p bak Hp Hb) as (r & s' & E & _). step. rewrite E. destruct r; [by eexists _, _|apply IH].
Qed.

Lemma peg_choice_replies sq : Forall good (sq_array sq) -> replies (peg_choice rec sq) k.
Proof.
  intros Hps s Hs. unfold peg_choice. step. destruct (sq_array sq) as [|p ps]; [by eexists _, _|].
  apply Forall_cons_1 in Hps as [Hp Hps]. destruct (rec_answer p s Hp Hs) as (r & s' & E & _). rewrite E.
  destruct r; [by eexists _, _|by apply peg_alts_answer].
Qed.

Lemma peg_pick_replies ps : Forall good ps -> forall i which res, replies (peg_pick rec ps i which res) k.
Proof.
  induction 1 as [|p ps Hp _ IH]; intros i which res s Hs; cbn [peg_pick]; [by eexists _, _|].
  destruct (rec_answer p s Hp Hs) as (r & s' & E & Hr). step. rewrite E. destruct r as [t|]; [|by eexists _, _].
  apply IH. by apply Hr.
Qed.

Lemma peg_int_range_replies r : good (rg_p r) -> replies (peg_int_range rec r) k.
Proof.
  intros Hp s Hs. destruct (rec_answer _ s Hp Hs) as (t & s' & E & _). unfold peg_int_range. step. rewrite E.
  destruct t; [|by eexists _, _]. destruct (in_range _ _); by eexists _, _.
Qed.

(** ** Repetitions *)

(** A round: the separator after the first one, and the element. *)
Definition round_start (r : HRepeat) (count : Z) : P bool :=
  if (0 <? count) && bool_decide (rp_sep r <> None)
  then sep ← rec (rp_sep r); mret (bool_decide (sep <> None)) else mret true.

Lemma round_start_answer r count s :
  Forall good (children (many_vt r)) -> 0 <= count -> ready_at k s ->
  exists ok s', round_start r count s = Ok (ok, s') /\ (ok = true -> ready_at k s' /\
    (0 < count -> forall s2, ready_at k s2 -> read_as (L (rp_p r)) s' s2 -> read_as (more_language L r) s s2)).
Proof.
  intros [Hp Hsep]%Forall_cons_1 Hc Hs. unfold round_start, more_language. destruct (rp_sep r) as [a|].
  - destruct (Z.ltb_spec 0 count) as [Hpos|Hz].
    + rewrite bool_decide_true by done. destruct (rec_answer (Some a) s (Forall_inv Hsep) Hs) as (t & s' & E & Ht).
      exists (bool_decide (t <> None)), s'. cbn [andb]. step. rewrite E. split; [done|]. intros Hok%bool_decide_eq_true_1.
      destruct (Ht Hok) as [Hs' Hr]. split; [done|]. intros _ s2 _ H2. by eapply read_as_trans.
    + exists true, s. split; [done|]. intros _. split; [done|lia].
  - exists true, s. rewrite bool_decide_false, andb_false_r by (intros H; by apply H). split; [done|].
    intros _. by split.
Qed.

Lemma peg_many_loop_answer r fuel :
  Forall good (children (many_vt r)) -> rp_min_p r = true -> ~ byteless (more_language L r) ->
  forall s seq count bak, ready_at k s -> carray_wf seq -> 0 <= count ->
    (length (rest s) + (if (count =? 0)%Z then 2 else 1) <= fuel)%nat ->
  exists x s', peg_many_loop rec fuel r seq count bak s = Ok (x, s').
Proof.
  intros Hg Hmin Hb. induction fuel as [|fuel IH]; intros s seq count bak Hs Hseq Hc Hf.
  { destruct (count =? 0); lia. }
  cbn [peg_many_loop]. rewrite Hmin. cbn [orb].
  destruct (round_start_answer r count s Hg Hc Hs) as (ok & s1 & E1 & H1). unfold round_start in E1.
  unfold mbind at 1, ST_bind at 1, get. unfold mbind at 1, ST_bind at 1. rewrite E1.
  destruct ok; [|by eexists _, _]. destruct (H1 eq_refl) as [Hs1 Hmore]. cbn [negb].
  destruct (rec_answer _ s1 (Forall_inv Hg) Hs1) as (t & s2 & E2 & H2). unfold mbind at 1, ST_bind at 1. rewrite E2.
  destruct t as [t|]; [|by eexists _, _]. destruct (H2 ltac:(done)) as [Hs2 Hr2].
  assert ((length (rest s2) + 1 <= fuel)%nat) as Hf2.
  { destruct (Z.eqb_spec count 0) as [->|Hne].
    - destruct (proj1 (H1 eq_refl)) as [_ _ _]. destruct Hr2 as (_ & _ & w & _ & Hcon).
      apply consumed_length in Hcon. injection E1 as <-. lia.
    - destruct (Hmore ltac:(lia) s2 Hs2 Hr2) as (_ & _ & w & Hw & Hcon). apply consumed_length in Hcon.
      destruct (bytes_in w) eqn:Ew; [destruct Hb; by exists w|lia]. }
  assert (exists seq', (match t with None => mret seq | tok => lift (h_carray_append seq tok) end : P _) s2 = Ok (seq', s2) /\
    carray_wf seq') as (seq' & E3 & Hseq').
  { destruct t as [t|]; [|by exists seq]. destruct (h_carray_append_ok seq (Some t) Hseq) as (seq' & E & Hwf & _).
    exists seq'. unfold lift. by rewrite E. }
  unfold mbind at 1, ST_bind at 1. rewrite E3. apply IH; [done..|lia|]. rewrite (proj2 (Z.eqb_neq _ _)) by lia. lia.
Qed.

Lemma peg_many_replies r :
  Forall good (children (many_vt r)) -> rp_min_p r = true -> ~ byteless (more_language L r) ->
  replies (peg_many rec lf r) k.
Proof.
  intros Hg Hmin Hb s Hs. unfold peg_many.
  destruct (peg_many_loop_answer r lf Hg Hmin Hb s (h_carray_new_sized (if 0 <? rp_count r then Z.to_nat (rp_count r) else 4%nat))
    0 s Hs (carray_new_sized_wf _)) as ([[[seq count] bak] err] & s' & E); [lia|destruct Hs; simpl; lia|].
  step. rewrite E. destruct err; [destruct (rp_count r <=? count)|destruct (count <? rp_count r)]; by eexists _, _.
Qed.
End Combinators.

(** * Parsers *)

Section Parsers.
Context (continuation : nat -> option HParsedToken -> Z -> PM ptr) (lf : nat) (store : list HParser).
Local Abbreviation peg := (peg continuation lf store).

(** Parsers for which nothing goes wrong: numbers of bits that can be read at the
    end of the input, the string of a token as long as it says, and callbacks that
    return on the tokens they can get. *)
Definition steady (e : parser_env) : Prop :=
  match e with
  | bits_vt b => 1 <= be_length b <= 63
  | charset_vt cs => charset_wf cs
  | token_vt t => tk_len t <= Z.of_nat (length (tk_str t))
  | action_vt a => forall f n s t s', pa_action a = Some f -> peg n (pa_p a) s = Ok (Some t, s') ->
      exists tok, f (mkResult t 0) (pa_user_data a) = Ok tok
  | attr_bool_vt a => forall n s t s', peg n (ab_p a) s = Ok (Some (Some t), s') ->
      exists b, ab_pred a (mkResult (Some t) 0) (ab_user_data a) = Ok b
  | _ => True
  end.

Context (Hsteady : Forall (fun q => steady (p_env q)) store) (Hloops : no_idle_loops store = true).

Lemma peg_step_replies k fuel a q :
  (k + 2 <= lf)%nat -> desugarable store a -> store !! a = Some q ->
  (forall p, sub store a p -> replies (peg fuel p) k) ->
  replies (peg_step (peg fuel) lf continuation store (p_env q)) k.
Proof.
  intros Hlf Hd Hq Hans. destruct (desugarable_inv store a q Hd Hq) as [Hs Hc].
  pose proof (proj1 (Forall_lookup _ _) Hsteady _ _ Hq) as Hst. simpl in Hst.
  set (L := parser_language store (S a)).
  assert (forall p, sub store a p -> reads_all (peg fuel p) (L p)) as Hrec.
  { intros p (b & -> & Hb & Hdb) s t s' Hs1 Ho H. eapply read_as_eq; [|by eapply peg_reads].
    apply parser_language_fuel; [lia..|done]. }
  destruct (p_env q) eqn:Eq; try done; cbn [peg_step children supported steady] in *;
    try (apply Forall_inv in Hc as Hp).
  all: try first
    [ by apply peg_bits_replies | apply peg_ch_replies | by apply peg_charset_replies | by apply peg_token_replies
    | apply peg_end_replies | by intros s _; eexists _, _ ].
  - by apply (peg_optional_replies _ k (sub store a) L Hrec Hans).
  - by apply (peg_ignore_replies _ k (sub store a) L Hrec Hans).
  - by apply (peg_whitespace_replies _ lf k (sub store a) L Hrec Hans Hlf).
  - by apply (peg_sequence_replies _ k (sub store a) L Hrec Hans).
  - by apply (peg_choice_replies _ k (sub store a) L Hrec Hans).
  - destruct Hs. apply (peg_many_replies _ lf k (sub store a) L Hrec Hans Hlf); [done..|].
    by apply (no_idle_loops_ok store a q).
  - by apply (peg_int_range_replies _ k (sub store a) L Hrec Hans).
  - by apply (peg_pick_replies _ k (sub store a) L Hrec Hans).
  - intros s Hs1. destruct (Hans _ Hp s Hs1) as (t & s' & E). unfold peg_action.
    destruct (pa_p a0) as [p|] eqn:Ep; [|by eexists _, _]. destruct (pa_action a0) as [f|] eqn:Ef; [|by eexists _, _].
    unfold mbind, ST_bind. rewrite E. destruct t as [t|]; [|by eexists _, _].
    destruct (Hst f fuel s t s' eq_refl E) as [tok ->]. by eexists _, _.
  - intros s Hs1. destruct (Hans _ Hp s Hs1) as (t & s' & E). unfold peg_attr_bool, mbind, ST_bind. rewrite E.
    destruct t as [[t|]|]; [|by eexists _, _..]. destruct (Hst fuel s t s' E) as [b ->]. destruct b; by eexists _, _.
Qed.

Lemma peg_replies k fuel a :
  (k + 2 <= lf)%nat -> desugarable store a -> (a < fuel)%nat -> replies (peg fuel (Some a)) k.
Proof.
  intros Hlf. revert a. induction fuel as [|fuel IH]; intros a Hd Ha s Hs; [lia|]. cbn [Peg.peg].
  destruct (desugarable_lookup store a Hd) as [q Hq].
  assert (parser_at store (Some a) = Ok q) as -> by (unfold parser_at; simpl; by rewrite Hq).
  destruct (peg_step_replies k fuel a q Hlf Hd Hq) with (s := s) as (r & s' & E); [|done|].
  - intros p (b & -> & Hb & Hdb). apply IH; [done|lia].
  - unfold mbind, ST_bind, get, lift. rewrite E. destruct (is_overrun s'); by eexists _, _.
Qed.
End Parsers.

(** * Main theorem *)

(** C5: Every parse answers. For a graph of parsers that desugars, in which no
    round of a repetition can go by without reading a byte, whose parts are steady
    and whose callbacks are safe to memoise, h_packrat_parse on a stream at a byte
    returns, whatever the input, a result or a failure: with calls nested deeper
    than the graph and as many rounds as there are bytes left and two, it needs no
    more of either, and no fault is possible; a result is as long as a string of
    the language of the combinators. *)
Theorem h_packrat_parse_answers continuation lf store m a s :
  pure_continuation continuation -> memo_safe store -> desugarable store a -> (a < m)%nat ->
  Forall (fun q => steady continuation lf store (p_env q)) store -> no_idle_loops store = true ->
  on_byte s -> is_overrun s = false -> (length (rest s) + 2 <= lf)%nat ->
  exists res st, h_packrat_parse continuation lf m store (Some a) s = Ok (res, st) /\
    (res <> None -> exists w, parser_language store (S a) (Some a) w /\ consumed (rest s) (rest (ps_stream st)) w).
Proof.
  intros Hcont Hsafe Hd Hm Hst Hloops Hs Ho Hlf.
  destruct (peg_replies continuation lf store Hst Hloops (length (rest s)) m a Hlf Hd Hm s) as (r & s' & E); [by split|].
  destruct (packrat_reads continuation lf store m m a s r s' Hcont Hsafe (Nat.le_refl m) Hd Hs Ho E)
    as (res & st & Ep & _ & <- & Hr).
  exists res, st. split; [done|]. intros Hres. by apply Hr.
Qed.

(** * Witness *)

Lemma number_list_steady lf : Forall (fun q => steady no_bind lf number_list_store (p_env q)) number_list_store.
Proof.
  assert (forall st, Forall (fun q => match p_env q with charset_vt cs => charset_wf cs | ch_vt _ | end_vt | many_vt _
    | whitespace_vt _ | sequence_vt _ | unimplemented_vt => True | _ => False end) st ->
    Forall (fun q => steady no_bind lf number_list_store (p_env q)) st) as Himp.
  { intros st Hst. eapply list.Forall_impl; [exact Hst|]. intros q. cbv beta. by destruct (p_env q). }
  apply Himp. let st := eval vm_compute in number_list_store in
    match goal with |- Forall ?P _ => change (Forall P st) end.
  repeat (constructor; [try done|]); try constructor; repeat constructor; lia.
Qed.

(** A list that breaks off, with the end of the input at a separator. *)
Lemma h_packrat_parse_answers_witness :
  no_idle_loops number_list_store = true /\
  exists res st, h_packrat_parse no_bind 8 9 number_list_store (Some 7%nat) (buffer_stream [32; 49; 44; 32; 44]) = Ok (res, st) /\
    (res <> None -> exists w, parser_language number_list_store 8 (Some 7%nat) w /\
       consumed [32; 49; 44; 32; 44] (rest (ps_stream st)) w).
Proof.
  split; [vm_compute; reflexivity|].
  apply (h_packrat_parse_answers no_bind 8 number_list_store 9 7 (buffer_stream [32; 49; 44; 32; 44])).
  - exact no_bind_pure.
  - exact number_list_safe.
  - exact number_list_desugarable.
  - lia.
  - apply number_list_steady.
  - vm_compute. reflexivity.
  - apply on_byte_buffer; [repeat (constructor; [unfold byte; lia|]); constructor|simpl; lia].
  - reflexivity.
  - vm_compute. lia.
Defined.
