(* ===== verification/RegexStack.v ===== *)
(** What pieces of compiled code do to the stack of h_svm_run: effects, the Hoare
    rules for them, and the parsers whose code leaves the tokens where the stack
    actions of src/src/parsers/*.c expect them (src/src/backends/regex.c). *)

From S2P Require Import Prelude Stream Charset CArray Token Parser SArray Regex.

Section Replay.
Context (store : list HParser) (input : list Z).
Local Abbreviation len := (Z.of_nat (length input)).

(** * Stack operations *)

Definition mark (off : Z) : HParsedToken := mkTok TT_MARK off 0 0.

(** SVM_CAPTURE at the byte [off]. *)
Definition capture (off : Z) (s : stack) : outcome (bool * stack) :=
  '(t, s) ← top s;
  _ ← assert_ok (is_mark t);
  _ ← assert_ok (tok_bit_offset t =? 0);
  Ok (true, Some (set_tok_data t
    (TT_BYTES (take (Z.to_nat (off - tok_index t)) (drop (Z.to_nat (tok_index t)) input)))) :: s).

(** The operations of a trace but SVM_ACCEPT, one at a time. *)
Definition svm_step (F : HRVMProg) (nd : trace_node) (s : stack) : outcome (bool * stack) :=
  match tr_opcode nd with
  | SVM_PUSH => Ok (true, Some (mark (tr_input_pos nd)) :: s)
  | SVM_NOP => Ok (true, s)
  | SVM_ACTION =>
      '(f, env) ← deref OutOfBounds (pr_actions F !! Z.to_nat (tr_arg nd));
      run_action store f env s
  | SVM_CAPTURE => capture (tr_input_pos nd) s
  | SVM_ACCEPT => Fault AssertFail
  end.
Fixpoint play (F : HRVMProg) (t : HRVMTrace) (s : stack) : outcome (bool * stack) :=
  match t with
  | [] => Ok (true, s)
  | nd :: t => '(ok, s) ← svm_step F nd s; if (ok : bool) then play F t s else Ok (false, s)
  end.

Lemma play_app F u v s :
  play F (u ++ v) s = ('(ok, s) ← play F u s; if (ok : bool) then play F v s else Ok (false, s)).
Proof.
  revert s. induction u as [|nd u IH]; intros s; cbn [app play]; [done|].
  destruct (svm_step F nd s) as [[[] s']| |]; simpl; [apply IH|done..].
Qed.

(** A replay is made of its steps. *)
Lemma run_trace_play F u t s :
  Forall (fun nd => tr_opcode nd <> SVM_ACCEPT) u ->
  run_trace store F input (u ++ t) s =
    ('(ok, s) ← play F u s; if (ok : bool) then run_trace store F input t s else Ok None).
Proof.
  intros Hu. revert s. induction Hu as [|nd u Hnd _ IH]; intros s; cbn [app play run_trace]; [done|].
  unfold svm_step, capture, mark. destruct (tr_opcode nd) eqn:Eo; simpl; try done; try apply IH.
  - destruct (pr_actions F !! _) as [[f env]|]; simpl; [|done].
    destruct (run_action store f env s) as [[[] s']| |]; simpl; [apply IH|done..].
  - destruct (top s) as [[t' s']| |]; simpl; [|done..]. destruct (is_mark t'); simpl; [|done].
    destruct (tok_bit_offset t' =? 0); simpl; [apply IH|done].
Qed.

(** ** The array of the stack

    Regex leaves the capacity of the stack out; with it, a replay does the same as
    long as there is memory, and never writes outside the array. *)

Section Capacity.
Context (realloc_ok : Z -> bool) (F : HRVMProg).

(** The answer and the capacity afterwards. *)
Definition svm_stack_ensure_cap (stack_count addl stack_capacity : Z) : bool * Z :=
  if stack_capacity <=? stack_count + addl then (realloc_ok (stack_capacity * 2), stack_capacity * 2)
  else (true, stack_capacity).

Fixpoint run_trace_cap (trace : HRVMTrace) (s : stack) (cap : Z) : outcome (option HParseResult) :=
  match trace with
  | [] => Ok None
  | cur :: trace =>
      let count := Z.of_nat (length s) in
      match tr_opcode cur with
      | SVM_PUSH =>
          let '(ok, cap) := svm_stack_ensure_cap count 1 cap in
          if negb ok then Ok None else
          if count <? cap then run_trace_cap trace (Some (mark (tr_input_pos cur)) :: s) cap else Fault OutOfBounds
      | SVM_ACCEPT =>
          _ ← assert_ok (length s <=? 1)%nat;
          Ok (Some (mkResult (default None (head s)) (tr_input_pos cur * 8)))
      | _ => '(ok, s) ← svm_step F cur s; if (ok : bool) then run_trace_cap trace s cap else Ok None
      end
  end.

Lemma top_length s t s' : top s = Ok (t, s') -> length s = S (length s').
Proof. destruct s as [|[t0|] s]; [done| |done]. by intros [= <- <-]. Qed.

Ltac bind_top H :=
  let t := fresh "t" in let s := fresh "s" in let E := fresh "E" in
  apply outcome_bind_ok in H as ([t s] & E & H); apply top_length in E; cbv beta iota in H.

Lemma take_result_length s x s' :
  take_result s = Ok (x, s') -> (length s' + (match x with Some _ => 2 | None => 1 end) = length s)%nat.
Proof.
  unfold take_result. intros (u & _ & H)%outcome_bind_ok. bind_top H.
  destruct (is_mark t); [injection H as <- <-; lia|]. apply outcome_bind_ok in H as (u' & _ & H). bind_top H.
  apply outcome_bind_ok in H as (u'' & _ & [= <- <-]). lia.
Qed.
Lemma drop_to_mark_length s s' : drop_to_mark s = Ok s' -> (length s' < length s)%nat.
Proof.
  revert s'. induction s as [|[t|] s IH]; intros s'; simpl; [done| |done].
  destruct (is_mark t); [intros [= <-]; lia|]. intros H%IH. lia.
Qed.
Lemma clear_to_mark_length s b s' : svm_action_clear_to_mark s = Ok (b, s') -> (length s' <= length s)%nat.
Proof.
  revert s'. induction s as [|[t|] s IH]; intros s'; simpl; [intros [= _ <-]; done| |done].
  destruct (is_mark t); [intros [= _ <-]; lia|]. intros H%IH. lia.
Qed.
Lemma ignoreseq_items_length n which save s save' s' :
  ignoreseq_items n which save s = Ok (save', s') -> (length s' + n <= length s)%nat.
Proof.
  revert save s. induction n as [|n IH]; intros save s; cbn [ignoreseq_items]; [intros [= _ <-]; lia|].
  intros H. ok_inv. apply IH in H. apply drop_to_mark_length in H1. lia.
Qed.

(** No action lengthens the stack. *)
Lemma bits_length e s b s' : svm_action_bits e s = Ok (b, s') -> (length s' <= length s)%nat.
Proof. unfold svm_action_bits. intros H. bind_top H. ok_inv. injection H as <- <-. simpl. lia. Qed.
Lemma ch_length s b s' : svm_action_ch s = Ok (b, s') -> (length s' <= length s)%nat.
Proof. unfold svm_action_ch. intros H. bind_top H. ok_inv. injection H as <- <-. simpl. lia. Qed.
Lemma optional_length s b s' : svm_action_optional s = Ok (b, s') -> (length s' <= length s)%nat.
Proof.
  unfold svm_action_optional. intros H. bind_top H. destruct (is_mark t); [injection H as <- <-; simpl; lia|].
  bind_top H. ok_inv. injection H as <- <-. simpl. lia.
Qed.
Lemma action_length a s b s' : svm_action_action a s = Ok (b, s') -> (length s' <= length s)%nat.
Proof.
  unfold svm_action_action. intros ([x s1] & Hx%take_result_length & H)%outcome_bind_ok. ok_inv.
  repeat case_match; injection H as <- <-; simpl; lia.
Qed.
Lemma attr_bool_length a s b s' : svm_action_attr_bool a s = Ok (b, s') -> (length s' <= length s)%nat.
Proof.
  unfold svm_action_attr_bool. intros ([x s1] & Hx%take_result_length & H)%outcome_bind_ok. ok_inv.
  injection H as <- <-. destruct x; simpl; lia.
Qed.
Lemma make_sequence_length s b s' : svm_action_make_sequence s = Ok (b, s') -> (length s' <= length s)%nat.
Proof.
  unfold svm_action_make_sequence. intros H. apply outcome_bind_ok in H as (n & _ & H).
  apply outcome_bind_ok in H as (? & _ & H). bind_top H. apply outcome_bind_ok in H as (? & _ & [= <- <-]).
  rewrite length_drop in E. simpl. lia.
Qed.
Lemma ignoreseq_length q s b s' : svm_action_ignoreseq q s = Ok (b, s') -> (length s' <= length s)%nat.
Proof.
  unfold svm_action_ignoreseq. intros H. apply outcome_bind_ok in H as (? & Hl & H).
  apply outcome_bind_ok in H as ([save s1] & Hs%ignoreseq_items_length & [= <- <-]). ok_inv. simpl. lia.
Qed.

Lemma run_action_length f env s b s' : run_action store f env s = Ok (b, s') -> (length s' <= length s)%nat.
Proof.
  unfold run_action. intros H. destruct f; repeat case_match; try done;
    first [by eapply bits_length|by eapply ch_length|by eapply optional_length|by eapply action_length
      |by eapply attr_bool_length|by eapply make_sequence_length|by eapply ignoreseq_length|by eapply clear_to_mark_length
      |idtac].
  - unfold svm_action_pop in H. ok_inv. injection H as <- <-. destruct s; simpl; lia.
  - unfold svm_action_validate_int_range in H. bind_top H. injection H as <- <-. lia.
Qed.

Lemma svm_step_length nd s b s' :
  tr_opcode nd <> SVM_PUSH -> svm_step F nd s = Ok (b, s') -> (length s' <= length s)%nat.
Proof.
  intros Hp H. unfold svm_step in H. destruct (tr_opcode nd); try done.
  - injection H as _ <-. lia.
  - apply outcome_bind_ok in H as ([f env] & _ & H). by eapply run_action_length.
  - unfold capture in H. bind_top H. ok_inv. injection H as _ <-. simpl. lia.
Qed.

Lemma run_trace_step nd t s :
  tr_opcode nd <> SVM_ACCEPT ->
  run_trace store F input (nd :: t) s =
    ('(ok, s) ← svm_step F nd s; if (ok : bool) then run_trace store F input t s else Ok None).
Proof.
  intros Hnd. change (nd :: t) with ([nd] ++ t). rewrite run_trace_play by (by constructor). cbn [play].
  by destruct (svm_step F nd s) as [[[] s']| |].
Qed.

(** With room for one more, the replay with the array is the one without, or
    there is no memory and it returns NULL. *)
Lemma run_trace_cap_ok trace s cap :
  Z.of_nat (length s) < cap ->
  run_trace_cap trace s cap = run_trace store F input trace s \/
  run_trace_cap trace s cap = Ok None /\ exists n, realloc_ok n = false.
Proof.
  revert s cap. induction trace as [|nd trace IH]; intros s cap Hc; [by left|].
  destruct (tr_opcode nd) eqn:Eo; [..|left; cbn [run_trace_cap run_trace]; by rewrite Eo];
    rewrite (run_trace_step nd trace s) by (by rewrite Eo); cbn [run_trace_cap]; rewrite Eo.
  { unfold svm_step. rewrite Eo. cbn [mbind outcome_bind]. unfold svm_stack_ensure_cap.
    destruct (Z.leb_spec cap (Z.of_nat (length s) + 1)) as [Hle|Hgt].
    - destruct (realloc_ok (cap * 2)) eqn:Er; cbn [negb]; [|right; split; [done|by eexists]].
      rewrite (proj2 (Z.ltb_lt _ _)) by lia. apply IH. simpl. lia.
    - cbn [negb]. rewrite (proj2 (Z.ltb_lt _ _)) by lia. apply IH. simpl. lia. }
  all: destruct (svm_step F nd s) as [[[] s']|f|] eqn:Es; cbn [mbind outcome_bind]; try by left.
  all: apply IH; apply svm_step_length in Es; [lia|by rewrite Eo].
Qed.
End Capacity.

(** * Effects

    Of code between the bytes [x] and [y], on a stack: the stacks that there can
    be afterwards, with [None] for a fault. A replay can also stop before. *)
Definition effect : Type := Z -> stack -> Z -> option stack -> Prop.

Definition runs_to (o : outcome (bool * stack)) (E : option stack -> Prop) : Prop :=
  match o with
  | Ok (true, s) => E (Some s)
  | Ok (false, _) => True
  | _ => E None
  end.
Definition has_effect (F : HRVMProg) (u : HRVMTrace) (x y : Z) (E : effect) : Prop :=
  forall s, runs_to (play F u s) (E x s y).

Definition e_nil : effect := fun x s y r => y = x /\ r = Some s.
Definition e_none : effect := fun _ _ _ _ => False.
(** A byte is read. *)
Definition e_read : effect := fun x s y r => y = x + 1 /\ r = Some s.
(** A stack operation. *)
Definition e_do (g : Z -> stack -> outcome (bool * stack)) : effect := fun x s y r =>
  y = x /\
  match g x s with
  | Ok (true, s') => r = Some s'
  | Ok (false, _) => False
  | _ => r = None
  end.
Definition e_cat (E1 E2 : effect) : effect := fun x s z r =>
  exists y, x <= y <= z /\
    ((E1 x s y None /\ r = None) \/ exists s', E1 x s y (Some s') /\ E2 y s' z r).
Definition e_or (E1 E2 : effect) : effect := fun x s y r => E1 x s y r \/ E2 x s y r.
Inductive e_star (E : effect) : effect :=
| es_nil x s : e_star E x s x (Some s)
| es_fault x s y z : x <= y <= z -> E x s y None -> e_star E x s z None
| es_cons x s y s' z r : x <= y <= z -> E x s y (Some s') -> e_star E y s' z r -> e_star E x s z r.
Fixpoint e_cats (Es : list effect) : effect :=
  match Es with [] => e_nil | E :: Es => e_cat E (e_cats Es) end.
Fixpoint e_ors (Es : list effect) : effect :=
  match Es with [] => e_none | E :: Es => e_or E (e_ors Es) end.

Definition e_push : effect := e_do (fun x s => Ok (true, Some (mark x) :: s)).
Definition e_capture : effect := e_do capture.
Definition e_act (f : HSVMActionFunc) (env : env_ptr) : effect := e_do (fun _ => run_action store f env).

Lemma runs_to_mono o (E E' : option stack -> Prop) : (forall r, E r -> E' r) -> runs_to o E -> runs_to o E'.
Proof. intros HE. destruct o as [[[] s]| |]; simpl; auto. Qed.

Lemma has_effect_mono F u x y (E E' : effect) :
  (forall x s y r, E x s y r -> E' x s y r) -> has_effect F u x y E -> has_effect F u x y E'.
Proof. intros HE H s. eapply runs_to_mono; [|apply H]. intros r. apply HE. Qed.

Lemma has_effect_do F nd x g :
  (forall s, svm_step F nd s = g x s) -> has_effect F [nd] x x (e_do g).
Proof.
  intros Hg s. cbn [play]. rewrite Hg. unfold e_do. destruct (g x s) as [[[] s']| |] eqn:E; simpl; by rewrite ?E.
Qed.

Lemma has_effect_cat F u v x y z E1 E2 :
  x <= y <= z -> has_effect F u x y E1 -> has_effect F v y z E2 -> has_effect F (u ++ v) x z (e_cat E1 E2).
Proof.
  intros Hy H1 H2 s. rewrite play_app. specialize (H1 s). destruct (play F u s) as [[[] s']| |]; simpl in *.
  - eapply runs_to_mono; [|apply H2]. intros r Hr. exists y. split; [done|]. right. by exists s'.
  - done.
  - exists y. split; [done|]. by left.
  - exists y. split; [done|]. by left.
Qed.

Lemma has_effect_star_cons F u v x y z E :
  x <= y <= z -> has_effect F u x y E -> has_effect F v y z (e_star E) -> has_effect F (u ++ v) x z (e_star E).
Proof.
  intros Hy H1 H2. eapply has_effect_mono; [|by eapply (has_effect_cat _ _ _ _ y)].
  intros ? ? ? ? (m & Hm & [[HE ->]|(s' & HE & Hs)]); [by eapply es_fault|by eapply es_cons].
Qed.

Lemma e_cat_mono (E1 E2 E1' E2' : effect) :
  (forall x s y r, E1 x s y r -> E1' x s y r) -> (forall x s y r, E2 x s y r -> E2' x s y r) ->
  forall x s y r, e_cat E1 E2 x s y r -> e_cat E1' E2' x s y r.
Proof.
  intros H1 H2 x s z r (y & Hy & [[HE ->]|(s' & HE1 & HE2)]); exists y; (split; [done|]); [left; eauto|].
  right. exists s'. eauto.
Qed.
Lemma e_cat_assoc E1 E2 E3 x s y r : e_cat E1 (e_cat E2 E3) x s y r -> e_cat (e_cat E1 E2) E3 x s y r.
Proof.
  intros (m & Hm & [[HE ->]|(s1 & HE1 & n & Hn & [[HE2 ->]|(s2 & HE2 & HE3)])]).
  - exists m. split; [done|]. left. split; [|done]. exists m. split; [lia|]. by left.
  - exists n. split; [lia|]. left. split; [|done]. exists m. split; [lia|]. right. by exists s1.
  - exists n. split; [lia|]. right. exists s2. split; [|done]. exists m. split; [lia|]. right. by exists s1.
Qed.
Lemma e_star_mono (E E' : effect) :
  (forall x s y r, E x s y r -> E' x s y r) -> forall x s y r, e_star E x s y r -> e_star E' x s y r.
Proof.
  intros H x s y r HE. induction HE; [constructor|eapply es_fault; eauto|eapply es_cons; eauto].
Qed.

(** * Hoare rules for effects, inside the input *)

Definition assertion : Type := Z -> stack -> Prop.
Definition hoare (A : assertion) (E : effect) (B : assertion) : Prop :=
  forall x s y r, 0 <= x -> x <= y -> y <= len -> E x s y r -> A x s -> exists s', r = Some s' /\ B y s'.

Lemma hoare_conseq (A A' B B' : assertion) E :
  hoare A E B -> (forall x s, A' x s -> A x s) -> (forall x s, B x s -> B' x s) -> hoare A' E B'.
Proof.
  intros H HA HB x s y r Hx Hxy Hy HE Hs. destruct (H x s y r Hx Hxy Hy HE (HA _ _ Hs)) as (s' & -> & Hs').
  exists s'. split; [done|by apply HB].
Qed.

Lemma hoare_pre (A A' B : assertion) E : hoare A E B -> (forall x s, A' x s -> A x s) -> hoare A' E B.
Proof. intros H HA. by eapply hoare_conseq. Qed.
Lemma hoare_post (A B B' : assertion) E : hoare A E B -> (forall x s, B x s -> B' x s) -> hoare A E B'.
Proof. intros H HB. by eapply hoare_conseq. Qed.

(** A state can be named. *)
Lemma hoare_each (A B : assertion) E :
  (forall x s, A x s -> hoare (fun x' s' => x' = x /\ s' = s) E B) -> hoare A E B.
Proof. intros H x s y r Hx Hxy Hy HE Hs. by eapply (H x s Hs). Qed.

Lemma hoare_nil A : hoare A e_nil A.
Proof. intros x s y r _ _ _ [-> ->] Hs. by exists s. Qed.
Lemma hoare_none A B : hoare A e_none B.
Proof. by intros x s y r _ _ _ []. Qed.
Lemma hoare_read (A B : assertion) : (forall x s, A x s -> B (x + 1) s) -> hoare A e_read B.
Proof. intros H x s y r _ _ _ [-> ->] Hs. exists s. split; [done|by apply H]. Qed.

Lemma hoare_do (A B : assertion) g :
  (forall x s, 0 <= x <= len -> A x s ->
     match g x s with Ok (true, s') => B x s' | Ok (false, _) => True | _ => False end) ->
  hoare A (e_do g) B.
Proof.
  intros H x s y r Hx _ Hy [-> Hg] Hs. specialize (H x s (conj Hx Hy) Hs).
  destruct (g x s) as [[[] s']| |]; [|done..]. by exists s'.
Qed.

Lemma hoare_cat A M B E1 E2 : hoare A E1 M -> hoare M E2 B -> hoare A (e_cat E1 E2) B.
Proof.
  intros H1 H2 x s z r Hx Hxz Hz (y & Hy & [[HE _]|(s' & HE1 & HE2)]) Hs.
  - by destruct (H1 x s y None Hx ltac:(lia) ltac:(lia) HE Hs) as (? & [=] & _).
  - destruct (H1 x s y _ Hx ltac:(lia) ltac:(lia) HE1 Hs) as (? & [= <-] & Hs').
    by apply (H2 y s' z r ltac:(lia) ltac:(lia) Hz HE2).
Qed.

Lemma hoare_or A B E1 E2 : hoare A E1 B -> hoare A E2 B -> hoare A (e_or E1 E2) B.
Proof. intros H1 H2 x s y r Hx Hxy Hy [H|H] Hs; [by eapply H1|by eapply H2]. Qed.

Lemma hoare_star A E : hoare A E A -> hoare A (e_star E) A.
Proof.
  intros H x s y r Hx Hxy Hy HE. induction HE as [x s|x s y z Hyz HE|x s y s' z r Hyz HE Hst IH]; intros Hs.
  - by exists s.
  - by destruct (H x s y None Hx ltac:(lia) ltac:(lia) HE Hs) as (? & [=] & _).
  - destruct (H x s y _ Hx ltac:(lia) ltac:(lia) HE Hs) as (? & [= <-] & Hs'). apply IH; [lia..|done].
Qed.

Lemma hoare_cats A Es : Forall (fun E => hoare A E A) Es -> hoare A (e_cats Es) A.
Proof. induction 1; [apply hoare_nil|by eapply hoare_cat]. Qed.
Lemma hoare_ors A B Es : Forall (fun E => hoare A E B) Es -> hoare A (e_ors Es) B.
Proof. induction 1; [apply hoare_none|by apply hoare_or]. Qed.

Lemma hoare_reads n (A : assertion) :
  hoare A (e_cats (replicate n e_read)) (fun y s => A (y - Z.of_nat n) s).
Proof.
  revert A. induction n as [|n IH]; intros A; cbn [replicate e_cats].
  { eapply hoare_post; [apply hoare_nil|]. intros x s H. by rewrite Z.sub_0_r. }
  eapply hoare_cat; [apply (hoare_read _ (fun y s => A (y - 1) s)); intros x s H; by rewrite Z.add_simpl_r|].
  eapply hoare_post; [apply (IH (fun y s => A (y - 1) s))|]. intros x s H.
  by replace (x - Z.of_nat (S n)) with (x - Z.of_nat n - 1) by lia.
Qed.

(** ** What code adds to the stack *)

Definition adds_to (E : effect) (P : stack -> Prop) : Prop :=
  forall s0, hoare (fun _ s => s = s0) E (fun _ s => exists new, s = new ++ s0 /\ P new).

(** A token that is not a mark. *)
Definition item (t : option HParsedToken) : Prop := exists t', t = Some t' /\ is_mark t' = false.
(** One token; or none, unless there must be [one]. *)
Definition token_left (one : bool) (new : stack) : Prop :=
  match new with [] => one = false | [t] => item t | _ => False end.
Definition clean (E : effect) (one : bool) : Prop := adds_to E (token_left one).

Lemma token_left_items one new : token_left one new -> Forall item new.
Proof. destruct new as [|t [|]]; simpl; [done|by repeat constructor|done]. Qed.
Lemma token_left_weaken one new : token_left one new -> token_left false new.
Proof. by destruct new as [|t []]. Qed.

Lemma adds_weaken E (P Q : stack -> Prop) : (forall new, P new -> Q new) -> adds_to E P -> adds_to E Q.
Proof. intros HPQ H s0. eapply hoare_post; [apply H|]. intros _ s (new & -> & Hn). exists new. by eauto. Qed.
Lemma clean_items E one : clean E one -> adds_to E (Forall item).
Proof. apply adds_weaken, token_left_items. Qed.
Lemma clean_weaken E one : clean E one -> clean E false.
Proof. apply adds_weaken, token_left_weaken. Qed.

Lemma adds_nil (P : stack -> Prop) : P [] -> adds_to e_nil P.
Proof. intros HP s0. eapply hoare_post; [apply hoare_nil|]. intros _ s ->. by exists []. Qed.
Lemma adds_none P : adds_to e_none P.
Proof. intros s0. apply hoare_none. Qed.
Lemma adds_or E1 E2 P : adds_to E1 P -> adds_to E2 P -> adds_to (e_or E1 E2) P.
Proof. intros H1 H2 s0. by apply hoare_or. Qed.
Lemma adds_ors Es P : Forall (fun E => adds_to E P) Es -> adds_to (e_ors Es) P.
Proof. intros HE s0. apply hoare_ors. eapply list.Forall_impl; [exact HE|]. intros E H. apply H. Qed.

Lemma adds_cat E1 E2 (P Q T : stack -> Prop) :
  adds_to E1 P -> adds_to E2 Q -> (forall n1 n2, P n1 -> Q n2 -> T (n2 ++ n1)) -> adds_to (e_cat E1 E2) T.
Proof.
  intros H1 H2 HT s0. eapply hoare_cat; [apply H1|]. apply hoare_each. intros x s (n1 & -> & Hn1).
  eapply hoare_conseq; [apply (H2 (n1 ++ s0))|by intros ? ? []|].
  intros _ s (n2 & -> & Hn2). exists (n2 ++ n1). split; [by rewrite app_assoc|by apply HT].
Qed.

Lemma adds_star E : adds_to E (Forall item) -> adds_to (e_star E) (Forall item).
Proof.
  intros H s0. set (A := fun (_ : Z) s => exists new, s = new ++ s0 /\ Forall item new).
  apply (hoare_pre A); [|intros ? s ->; by exists []]. apply hoare_star, hoare_each.
  intros x s (n1 & -> & Hn1). eapply hoare_conseq; [apply (H (n1 ++ s0))|by intros ? ? []|].
  intros ? s (n2 & -> & Hn2). exists (n2 ++ n1). split; [by rewrite app_assoc|by apply Forall_app].
Qed.

Lemma items_cat E1 E2 :
  adds_to E1 (Forall item) -> adds_to E2 (Forall item) -> adds_to (e_cat E1 E2) (Forall item).
Proof. intros H1 H2. eapply adds_cat; [exact H1|exact H2|]. intros n1 n2 Hn1 Hn2. by apply Forall_app. Qed.
Lemma items_cats Es : Forall (fun E => adds_to E (Forall item)) Es -> adds_to (e_cats Es) (Forall item).
Proof. induction 1; [by apply adds_nil|by apply items_cat]. Qed.

Lemma hoare_push (A : assertion) :
  hoare A e_push (fun x s => exists s0, s = Some (mark x) :: s0 /\ 0 <= x /\ A x s0).
Proof. apply hoare_do. intros x s [Hx _] Hs. by exists s. Qed.

(** A mark, what [E] adds, and an action on both. *)
Lemma adds_wrapped E (P Q : stack -> Prop) g :
  adds_to E P ->
  (forall x off new s0, P new ->
     match g x (new ++ Some (mark off) :: s0) with
     | Ok (true, s') => exists new', s' = new' ++ s0 /\ Q new'
     | Ok (false, _) => True
     | _ => False
     end) ->
  adds_to (e_cat e_push (e_cat E (e_do g))) Q.
Proof.
  intros HE Hg s0. eapply hoare_cat; [apply hoare_push|]. apply hoare_each.
  intros x s (s1 & -> & _ & ->). eapply hoare_cat.
  - eapply hoare_pre; [apply (HE (Some (mark x) :: s0))|]. by intros ? ? [].
  - apply hoare_do. intros y s _ (new & -> & Hn). by apply Hg.
Qed.

(** A mark, bytes, and an action on the bytes. *)
Lemma adds_bytes n g (Q : stack -> Prop) :
  (forall bs s0 t, length bs = n -> tok_data t = TT_BYTES bs ->
     exists new, g (Some t :: s0) = Ok (true, new ++ s0) /\ Q new) ->
  adds_to (e_cat e_push (e_cat (e_cats (replicate n e_read)) (e_cat e_capture (e_do (fun _ => g))))) Q.
Proof.
  intros Hg s0. eapply hoare_cat; [apply hoare_push|]. eapply hoare_cat; [apply hoare_reads|].
  eapply hoare_cat; [apply hoare_do with (B := fun _ s => exists bs t,
    s = Some t :: s0 /\ length bs = n /\ tok_data t = TT_BYTES bs)|].
  - intros y s Hy (s1 & -> & Hx & ->). cbn [capture top mbind outcome_bind mark is_mark tok_data assert_ok
      tok_bit_offset Z.eqb tok_index set_tok_data].
    do 2 eexists. split; [reflexivity|]. split; [|reflexivity]. rewrite length_take, length_drop. lia.
  - apply hoare_do. intros y s _ (bs & t & -> & Hl & Ht). by destruct (Hg bs s0 t Hl Ht) as (new & -> & Hn); exists new.
Qed.

(** The marks and items of the parsers before an ignoreseq; the last one comes first. *)
Fixpoint frames (ones : list bool) (new : stack) : Prop :=
  match ones with
  | [] => new = []
  | one :: ones => exists blk off below, new = blk ++ Some (mark off) :: below /\ token_left one blk /\ frames ones below
  end.

Lemma hoare_frames Es ones acc s0 :
  Forall2 clean Es ones ->
  hoare (fun _ s => exists new, s = new ++ s0 /\ frames acc new) (e_cats (e_cat e_push <$> Es))
    (fun _ s => exists new, s = new ++ s0 /\ frames (rev ones ++ acc) new).
Proof.
  intros H. revert acc. induction H as [|E one Es ones HE _ IH]; intros acc; cbn [fmap list_fmap e_cats rev].
  { apply hoare_nil. }
  rewrite <- app_assoc. eapply hoare_cat; [|apply IH]. eapply hoare_cat; [apply hoare_push|]. apply hoare_each.
  intros x s (s1 & -> & _ & (new & -> & Hn)). eapply hoare_conseq; [apply (HE (Some (mark x) :: new ++ s0))|by intros ? ? []|].
  intros _ s (blk & -> & Hb). exists (blk ++ Some (mark x) :: new). split; [by rewrite <- app_assoc|].
  by exists blk, x, new.
Qed.

(** ** The actions *)

Lemma item_mark off : is_mark (mark off) = true.
Proof. done. Qed.

Lemma count_to_mark_items new off s :
  Forall item new -> h_svm_count_to_mark (new ++ Some (mark off) :: s) = Ok (length new).
Proof.
  induction 1 as [|t new (t' & -> & Ht) _ IH]; simpl; [done|]. by rewrite Ht, IH.
Qed.
Lemma clear_to_mark_items new off s :
  Forall item new -> svm_action_clear_to_mark (new ++ Some (mark off) :: s) = Ok (true, s).
Proof. induction 1 as [|t new (t' & -> & Ht) _ IH]; simpl; [done|]. by rewrite Ht. Qed.
Lemma drop_to_mark_items new off s :
  Forall item new -> drop_to_mark (new ++ Some (mark off) :: s) = Ok s.
Proof. induction 1 as [|t new (t' & -> & Ht) _ IH]; simpl; [done|]. by rewrite Ht. Qed.

Lemma make_sequence_items new off s :
  Forall item new -> exists t, svm_action_make_sequence (new ++ Some (mark off) :: s) = Ok (true, Some t :: s) /\
    is_mark t = false.
Proof.
  intros Hn. unfold svm_action_make_sequence. rewrite count_to_mark_items by done. cbn [mbind outcome_bind].
  rewrite length_app. cbn [length]. rewrite (proj2 (Nat.ltb_lt _ _)) by lia. cbn [assert_ok mbind outcome_bind].
  rewrite drop_app_length. cbn [top mbind outcome_bind assert_ok mark is_mark tok_data]. by eexists.
Qed.

Lemma optional_item one new off s :
  token_left one new -> exists t, svm_action_optional (new ++ Some (mark off) :: s) = Ok (true, Some t :: s) /\
    is_mark t = false.
Proof.
  destruct new as [|t [|]]; simpl; [by eexists| |done]. intros (t' & -> & Ht). unfold svm_action_optional.
  cbn [top mbind outcome_bind]. rewrite Ht. simpl. by eexists.
Qed.

Lemma take_result_left one new off s :
  token_left one new -> exists x, take_result (new ++ Some (mark off) :: s) = Ok (x, s) /\ new = match x with Some t => [Some t] | None => [] end /\
    (forall t, x = Some t -> is_mark t = false).
Proof.
  assert (forall n, (1 <=? Z.of_nat (S n)) = true) as Hle by (intros n; apply Z.leb_le; lia).
  intros Hl. unfold take_result. destruct new as [|t [|]]; cbn [app length] in *; [..|done].
  - rewrite Hle. by exists None.
  - destruct Hl as (t' & -> & Ht). rewrite Hle. cbn [assert_ok top mbind outcome_bind length]. rewrite Ht, Hle.
    exists (Some t'). split_and!; [done..|]. by intros ? [= <-].
Qed.

(** The picked item, when it always leaves a token. *)
Lemma ignoreseq_items_frames which ones new save s :
  frames ones new ->
  exists save', ignoreseq_items (length ones) which save (new ++ s) = Ok (save', s) /\
    (item save -> item save') /\
    (forall i, which = Z.of_nat i -> (i < length ones)%nat -> ones !! (length ones - S i)%nat = Some true -> item save').
Proof.
  revert new save. induction ones as [|one ones IH]; intros new save; cbn [frames length ignoreseq_items].
  { intros ->. exists save. split; [done|]. split; [done|lia]. }
  intros (blk & off & below & -> & Hb & Hf).
  set (save1 := if Z.of_nat (length ones) =? which then match blk with [t] => t | _ => save end else save).
  assert ((if Z.of_nat (length ones) =? which
    then '(t, _) ← top ((blk ++ Some (mark off) :: below) ++ s); Ok (if is_mark t then save else Some t)
    else Ok save) = Ok save1) as ->.
  { unfold save1. destruct (_ =? _); [|done]. destruct blk as [|t [|]]; simpl in *; [done| |done].
    destruct Hb as (t' & -> & Ht). simpl. by rewrite Ht. }
  cbn [mbind outcome_bind]. rewrite <- app_assoc. cbn [app].
  rewrite drop_to_mark_items by (by eapply token_left_items). cbn [mbind outcome_bind].
  destruct (IH below save1 Hf) as (save' & -> & Hk & Hp). exists save'. split; [done|].
  assert (item save -> item save1) as Hs.
  { unfold save1. intros H. destruct (_ =? _); [|done]. by destruct blk as [|t [|]]. }
  split; [by intros H%Hs%Hk|]. intros i Hi Hlt Hone. destruct (decide (i = length ones)) as [->|Hne].
  - apply Hk. unfold save1. rewrite Hi, Z.eqb_refl. rewrite Nat.sub_diag in Hone. injection Hone as ->.
    by destruct blk as [|t [|]].
  - apply (Hp i); [done|lia|]. replace (S (length ones) - S i)%nat with (S (length ones - S i)) in Hone by lia. done.
Qed.

(** * The effects of parsers *)

Section Parsers.
Context (Ef : ptr -> effect).   (** of the code of the parsers pointed at *)

(** A separator between marks; nothing when NULL. *)
Definition sep_effect (sep : ptr) : effect :=
  match sep with
  | None => e_nil
  | Some _ => e_cat e_push (e_cat (Ef sep) (e_act h_svm_action_clear_to_mark E_null))
  end.
Definition loop_effect (r : HRepeat) : effect :=
  e_cat (Ef (rp_p r)) (e_star (e_cat (sep_effect (rp_sep r)) (Ef (rp_p r)))).
Definition bytes_effect (n : nat) (f : HSVMActionFunc) (env : env_ptr) : effect :=
  e_cat e_push (e_cat (e_cats (replicate n e_read)) (e_cat e_capture (e_act f env))).
Definition wrapped (E : effect) (f : HSVMActionFunc) (env : env_ptr) : effect :=
  e_cat e_push (e_cat E (e_act f env)).

(** The compile_to_rvm functions, as effects of the code that they make. *)
Definition env_effect (e : parser_env) (self : nat) : effect :=
  match e with
  | bits_vt b => bytes_effect (Z.to_nat (be_length b / 8)) h_svm_action_bits (E_env self)
  | ch_vt c => bytes_effect 1 h_svm_action_ch (E_chr c)
  | charset_vt _ => bytes_effect 1 h_svm_action_charset_ch (E_env self)
  | token_vt t =>
      e_cat e_push (e_cat (e_cats (replicate (length (take (Z.to_nat (tk_len t)) (tk_str t))) e_read)) e_capture)
  | end_vt | epsilon_vt => e_nil
  | nothing_vt => e_none
  | optional_vt p => wrapped (e_or (Ef p) e_nil) h_svm_action_optional E_null
  | ignore_vt p => e_cat (Ef p) (e_act h_svm_action_pop E_null)
  | whitespace_vt p => e_cat (e_star e_read) (Ef p)
  | sequence_vt s => wrapped (e_cats (Ef <$> sq_array s)) h_svm_action_make_sequence E_null
  | choice_vt s => e_ors (Ef <$> sq_array s)
  | many_vt r =>
      wrapped (if rp_count r =? 0 then e_or (loop_effect r) e_nil else loop_effect r) h_svm_action_make_sequence E_null
  | ignoreseq_vt q =>
      e_cat (e_cats (e_cat e_push <$> (Ef <$> is_parsers q))) (e_act h_svm_action_ignoreseq (E_env self))
  | action_vt a => wrapped (Ef (pa_p a)) h_svm_action_action (E_env self)
  | attr_bool_vt a => wrapped (Ef (ab_p a)) h_svm_action_attr_bool (E_env self)
  | _ => fun _ _ _ _ => True
  end.

(** ** What is left on the stack *)

(** [lv p one]: the code of [p] leaves at most one token, and always one when
    [one]. The conditions: integers of 1 to 8 bytes; ignore and the pick of an
    ignoreseq have a child that always leaves one; the functions of the user
    return, and no marks. *)
Definition env_leaves (lv : ptr -> bool -> Prop) (e : parser_env) (one : bool) : Prop :=
  match e with
  | bits_vt b => 8 <= be_length b <= 64
  | ch_vt _ | charset_vt _ | token_vt _ | nothing_vt => True
  | end_vt | epsilon_vt => one = false
  | optional_vt p => lv p false
  | ignore_vt p => lv p true /\ one = false
  | whitespace_vt p => lv p one
  | sequence_vt s => Forall (fun p => lv p false) (sq_array s)
  | choice_vt s => Forall (fun p => lv p one) (sq_array s)
  | many_vt r => lv (rp_p r) false /\ (rp_sep r <> None -> lv (rp_sep r) false)
  | ignoreseq_vt q =>
      exists i, is_which q = Z.of_nat i /\ (i < length (is_parsers q))%nat /\
        forall j p, is_parsers q !! j = Some p -> lv p (bool_decide (j = i))
  | action_vt a =>
      lv (pa_p a) false /\ exists f, pa_action a = Some f /\ forall r u, exists tok, f r u = Ok tok /\
        match tok with Some t => is_mark t = false | None => one = false end
  | attr_bool_vt a => lv (ab_p a) one /\ forall r u, exists b, ab_pred a r u = Ok b
  | _ => False
  end.

Context (lv : ptr -> bool -> Prop) (Hlv : forall p one, lv p one -> clean (Ef p) one).

Lemma lv_items p one : lv p one -> adds_to (Ef p) (Forall item).
Proof. intros H. by eapply clean_items, Hlv. Qed.

Lemma clean_token one E : adds_to E (fun new => exists t, new = [Some t] /\ is_mark t = false) -> clean E one.
Proof. apply adds_weaken. intros new (t & -> & Ht). by exists t. Qed.

(** A mark and items to one token. *)
Lemma wrapped_sequence E one :
  adds_to E (Forall item) -> clean (wrapped E h_svm_action_make_sequence E_null) one.
Proof.
  intros HE. apply clean_token. eapply adds_wrapped; [exact HE|]. intros x off new s0 Hn.
  destruct (make_sequence_items new off s0 Hn) as (t & Et & Ht). cbn [run_action]. rewrite Et.
  exists [Some t]. split; [done|]. by exists t.
Qed.

Lemma sep_items sep : (sep <> None -> lv sep false) -> adds_to (sep_effect sep) (Forall item).
Proof.
  intros Hs. destruct sep as [a|]; cbn [sep_effect]; [|by apply adds_nil].
  eapply adds_wrapped; [by eapply lv_items, Hs|]. intros x off new s0 Hn. cbn [run_action].
  rewrite clear_to_mark_items by done. by exists [].
Qed.

Lemma loop_items r :
  lv (rp_p r) false -> (rp_sep r <> None -> lv (rp_sep r) false) -> adds_to (loop_effect r) (Forall item).
Proof.
  intros Hp Hs. apply items_cat; [by eapply lv_items|]. apply adds_star, items_cat; [by apply sep_items|by eapply lv_items].
Qed.

Lemma bits_clean b self q one :
  store !! self = Some q -> p_env q = bits_vt b -> 8 <= be_length b <= 64 ->
  clean (bytes_effect (Z.to_nat (be_length b / 8)) h_svm_action_bits (E_env self)) one.
Proof.
  intros Hq He Hb. apply clean_token, adds_bytes. intros bs s0 t Hl Ht.
  assert (1 <= be_length b / 8 <= 8) by (split; [apply Z.div_le_lower_bound|apply Z.div_le_upper_bound]; lia).
  cbn [run_action]. rewrite Hq. cbn [fmap option_fmap option_map]. rewrite He. unfold svm_action_bits, top_bytes.
  cbn [top mbind outcome_bind]. rewrite Ht. cbn [mbind outcome_bind]. rewrite shl_ok_true by lia. cbn [mbind outcome_bind].
  eexists [Some _]. split; [reflexivity|]. eexists. split; [reflexivity|]. by destruct (be_signedp b).
Qed.

Lemma ch_clean f env one :
  f = h_svm_action_ch \/ f = h_svm_action_charset_ch -> clean (bytes_effect 1 f env) one.
Proof.
  intros Hf. apply clean_token, (adds_bytes 1). intros bs s0 t _ Ht.
  assert (run_action store f env (Some t :: s0) = svm_action_ch (Some t :: s0)) as -> by (by destruct Hf as [->| ->]).
  unfold svm_action_ch, top_bytes. cbn [top mbind outcome_bind]. rewrite Ht. cbn [mbind outcome_bind].
  eexists [Some _]. split; [reflexivity|]. by eexists.
Qed.

Lemma token_clean n one : clean (e_cat e_push (e_cat (e_cats (replicate n e_read)) e_capture)) one.
Proof.
  apply clean_token. intros s0. eapply hoare_cat; [apply hoare_push|]. eapply hoare_cat; [apply hoare_reads|].
  apply hoare_do. intros y s Hy (s1 & -> & Hx & ->).
  cbn [capture top mbind outcome_bind mark is_mark tok_data assert_ok tok_bit_offset Z.eqb tok_index set_tok_data].
  eexists [Some _]. split; [reflexivity|]. by eexists.
Qed.

Lemma optional_clean p one : lv p false -> clean (wrapped (e_or (Ef p) e_nil) h_svm_action_optional E_null) one.
Proof.
  intros Hp. apply clean_token. eapply adds_wrapped.
  - apply adds_or; [by apply Hlv|]. by apply adds_nil.
  - intros x off new s0 Hn. destruct (optional_item _ new off s0 Hn) as (t & Et & Ht). cbn [run_action]. rewrite Et.
    exists [Some t]. split; [done|]. by exists t.
Qed.

Lemma ignore_clean p : lv p true -> clean (e_cat (Ef p) (e_act h_svm_action_pop E_null)) false.
Proof.
  intros Hp s0. eapply hoare_cat; [by apply Hlv|]. apply hoare_do. intros x s _ (new & -> & Hn).
  destruct new as [|t [|]]; [done| |done]. cbn [run_action]. unfold svm_action_pop. cbn [app length].
  rewrite (proj2 (Z.ltb_lt _ _)) by lia. by exists [].
Qed.

Lemma spaces_clean p one : lv p one -> clean (e_cat (e_star e_read) (Ef p)) one.
Proof.
  intros Hp s0. eapply hoare_cat; [|by apply Hlv]. apply hoare_star, hoare_read. done.
Qed.

Lemma ignoreseq_clean q self q' one :
  store !! self = Some q' -> p_env q' = ignoreseq_vt q -> env_leaves lv (ignoreseq_vt q) one ->
  clean (env_effect (ignoreseq_vt q) self) one.
Proof.
  intros Hq He (i & Hi & Hlt & Hps). cbn [env_effect]. apply clean_token. intros s0.
  set (ones := imap (fun j _ => bool_decide (j = i)) (is_parsers q)).
  assert (length ones = length (is_parsers q)) as Hl by apply length_imap.
  assert (Forall2 clean (Ef <$> is_parsers q) ones) as Hones.
  { apply Forall2_fmap_l, Forall2_same_length_lookup_2; [done|]. intros j p o Hp Ho. apply Hlv.
    unfold ones in Ho. rewrite list_lookup_imap, Hp in Ho. injection Ho as <-. by apply Hps. }
  eapply hoare_cat.
  - eapply hoare_pre; [by apply (hoare_frames _ ones [])|]. intros ? s ->. by exists [].
  - apply hoare_do. intros x s _ (new & -> & Hf). rewrite app_nil_r in Hf. cbn [run_action]. rewrite Hq.
    cbn [fmap option_fmap option_map]. rewrite He. unfold svm_action_ignoreseq. rewrite (proj2 (Z.leb_le _ _)) by lia.
    cbn [assert_ok mbind outcome_bind].
    destruct (ignoreseq_items_frames (is_which q) (rev ones) new None s0 Hf) as (save & E & _ & Hs).
    rewrite length_rev, Hl in E, Hs. rewrite E. cbn [mbind outcome_bind].
    destruct (Hs i Hi Hlt) as (t & -> & Ht).
    { rewrite rev_alt. fold (reverse ones). rewrite reverse_lookup by lia. rewrite Hl. replace (length (is_parsers q) - S (length (is_parsers q) - S i))%nat with i by lia.
      unfold ones. rewrite list_lookup_imap. destruct (lookup_lt_is_Some_2 (is_parsers q) i Hlt) as [p ->]. simpl.
      by rewrite bool_decide_true. }
    exists [Some t]. split; [done|]. by exists t.
Qed.

Lemma action_clean a self q one :
  store !! self = Some q -> p_env q = action_vt a -> env_leaves lv (action_vt a) one ->
  clean (wrapped (Ef (pa_p a)) h_svm_action_action (E_env self)) one.
Proof.
  intros Hq He (Hp & f & Hf & Hr). eapply adds_wrapped; [by apply Hlv|]. intros x off new s0 Hn.
  destruct (take_result_left _ _ off s0 Hn) as (y & Ey & _). cbn [run_action]. rewrite Hq. cbn [fmap option_fmap option_map].
  rewrite He. unfold svm_action_action. rewrite Ey, Hf. cbn [mbind outcome_bind deref].
  destruct (Hr (mkResult y 0) (pa_user_data a)) as (tok & -> & Ht). cbn [mbind outcome_bind].
  destruct tok as [t|]; [exists [Some t]|exists []]; (split; [done|]); [by exists t|done].
Qed.

Lemma attr_bool_clean a self q one :
  store !! self = Some q -> p_env q = attr_bool_vt a -> env_leaves lv (attr_bool_vt a) one ->
  clean (wrapped (Ef (ab_p a)) h_svm_action_attr_bool (E_env self)) one.
Proof.
  intros Hq He (Hp & Hr). eapply adds_wrapped; [by apply Hlv|]. intros x off new s0 Hn.
  destruct (take_result_left _ _ off s0 Hn) as (y & Ey & Hy & _). cbn [run_action]. rewrite Hq. cbn [fmap option_fmap option_map].
  rewrite He. unfold svm_action_attr_bool. rewrite Ey. cbn [mbind outcome_bind].
  destruct (Hr (mkResult y 0) (ab_user_data a)) as ([] & ->); cbn [mbind outcome_bind]; [|done].
  exists new. split; [|done]. by destruct y; subst new.
Qed.

Lemma env_effect_clean e self q one :
  store !! self = Some q -> p_env q = e -> env_leaves lv e one -> clean (env_effect e self) one.
Proof.
  intros Hq He Hl. destruct e; cbn [env_effect] in *; try done.
  - by eapply bits_clean.
  - apply ch_clean. by left.
  - apply ch_clean. by right.
  - apply token_clean.
  - by apply adds_nil.
  - by apply adds_nil.
  - apply adds_none.
  - by apply optional_clean.
  - destruct Hl as [Hp ->]. by apply ignore_clean.
  - by apply spaces_clean.
  - apply wrapped_sequence, items_cats, Forall_fmap. eapply list.Forall_impl; [exact Hl|]. intros p. apply lv_items.
  - apply adds_ors, Forall_fmap. eapply list.Forall_impl; [exact Hl|]. intros p. apply Hlv.
  - destruct Hl as [Hp Hs]. apply wrapped_sequence. destruct (rp_count r =? 0); [|by apply loop_items].
    apply adds_or; [by apply loop_items|by apply adds_nil].
  - by eapply ignoreseq_clean.
  - by eapply action_clean.
  - by eapply attr_bool_clean.
Qed.
End Parsers.

(** The parser at [a] of a store leaves one token, or at most one. *)
Fixpoint leaves (n : nat) (p : ptr) (one : bool) : Prop :=
  match n, p with
  | S n, Some a => match store !! a with Some q => env_leaves (leaves n) (p_env q) one | None => False end
  | _, _ => False
  end.

(** Anything, but for a parser that [leaves]: the tokens that it leaves. *)
Definition parser_effect (p : ptr) : effect := fun x s y r =>
  forall n one, leaves n p one -> 0 <= x -> x <= y -> y <= len ->
    exists new, r = Some (new ++ s) /\ token_left one new.

Lemma leaves_clean n p one : leaves n p one -> clean (parser_effect p) one.
Proof.
  intros Hl s0 x s y r Hx Hxy Hy HE ->. destruct (HE n one Hl Hx Hxy Hy) as (new & -> & Hn).
  eexists. split; [done|]. by exists new.
Qed.

Lemma env_effect_parser a q x s y r :
  store !! a = Some q -> env_effect parser_effect (p_env q) a x s y r -> parser_effect (Some a) x s y r.
Proof.
  intros Hq HE [|n] one Hl Hx Hxy Hy; [done|]. cbn [leaves] in Hl. rewrite Hq in Hl.
  destruct (env_effect_clean parser_effect (leaves n) (leaves_clean n) _ a q one Hq eq_refl Hl s x s y r Hx Hxy Hy HE eq_refl)
    as (? & -> & new & -> & Hn). by exists new.
Qed.
End Replay.
