(* ===== verification/RegexSeg.v ===== *)
(** Stretches of code of the byte machine (src/src/backends/regex.c): a stretch is
    described by the pairs of offsets between which a run of the non-deterministic
    machine can go through it, from its first instruction to the one after its
    last; and by the language that it reads. *)

From S2P Require Import Prelude Stream Charset CArray Token Parser Validity SArray Regex RegexVM.
From S2P Require Import Desugar Grammar DesugarWf DesugarLang FirstFacts Consumed RegexStack.

(** * Runs *)

Section Runs.
Context (F : HRVMProg) (input : list Z).

(** The byte that a MATCH looks at. *)
Definition cur (off : Z) : Z :=
  if off =? Z.of_nat (length input) then 0 else default 0 (input !! Z.to_nat off).

(** A run: how much it has read, and its trace. *)
Definition state : Type := Z * HRVMTrace.
Definition record (o : HSVMOp) (a : Z) (st : state) : state := (st.1, mkTrace o a st.1 :: st.2).

(** One instruction of the non-deterministic machine: state and address. *)
Inductive nstep : state * Z -> state * Z -> Prop :=
| n_match st ip a : insn_at F ip RVM_MATCH a -> Z.land a 255 <= cur st.1 <= Z.land (Z.shiftr a 8) 255 ->
    nstep (st, ip) (st, ip + 1)
| n_goto st ip a : insn_at F ip RVM_GOTO a -> nstep (st, ip) (st, a)
| n_fork st ip a : insn_at F ip RVM_FORK a -> nstep (st, ip) (st, a)
| n_next st ip a : insn_at F ip RVM_FORK a -> nstep (st, ip) (st, ip + 1)
| n_push st ip a : insn_at F ip RVM_PUSH a -> nstep (st, ip) (record SVM_PUSH 0 st, ip + 1)
| n_action st ip a : insn_at F ip RVM_ACTION a -> nstep (st, ip) (record SVM_ACTION a st, ip + 1)
| n_capture st ip a : insn_at F ip RVM_CAPTURE a -> nstep (st, ip) (record SVM_CAPTURE 0 st, ip + 1)
| n_eof st ip a : insn_at F ip RVM_EOF a -> st.1 = Z.of_nat (length input) -> nstep (st, ip) (st, ip + 1)
| n_step st ip a : insn_at F ip RVM_STEP a -> nstep (st, ip) ((st.1 + 1, st.2), ip + 1).

Definition start : state := (0, [mkTrace SVM_NOP 0 0]).

Lemma path_runs off ip t : path F input off ip t -> rtc nstep (start, 0) ((off, t), ip).
Proof.
  induction 1 as [|off ip t a _ IH|off ip t a _ IH|off ip t a _ IH|off ip t a _ IH|off ip t a _ IH|off ip t a _ IH
    |off ip t a _ IH|off ip t a _ IH|off ip t a _ IH]; [apply rtc_refl|(eapply rtc_r; [exact IH|])..].
  - by eapply (n_match (off, t)).
  - by eapply n_goto.
  - by eapply n_fork.
  - by eapply n_next.
  - by eapply (n_push (off, t)).
  - by eapply (n_action (off, t)).
  - by eapply (n_capture (off, t)).
  - by eapply (n_eof (off, t)).
  - by eapply (n_step (off, t)).
Qed.

Lemma runs_path st ip : rtc nstep (start, 0) (st, ip) -> path F input st.1 ip st.2.
Proof.
  intros H. change (path F input (st, ip).1.1 (st, ip).2 (st, ip).1.2). revert H. generalize (st, ip).
  apply (rtc_ind_r (fun x => path F input x.1.1 x.2 x.1.2)); [constructor|].
  intros y z _ Hs Ht. destruct Hs; cbn [fst snd record] in *;
    [by eapply path_match|by eapply path_goto|by eapply path_fork|by eapply path_next|by eapply path_push
    |by eapply path_action|by eapply path_capture|by eapply path_eof|by eapply path_step].
Qed.

(** [seg lo hi R]: from [lo], runs inside [lo, hi) leave at [hi] only, between
    states that [R] relates, and [R] relates no others; none of them accepts. The
    first half is an invariant: which states each address can have when [lo] has
    those of [Q]. *)
Definition states : Type := state -> Prop.
Record seg (lo hi : Z) (R : state -> state -> Prop) : Prop := {
  seg_le : lo <= hi;
  seg_sound : forall Q : states, exists A : Z -> states,
    (forall off, Q off -> A lo off) /\
    (forall ip off ip' off', lo <= ip < hi -> A ip off -> nstep (off, ip) (off', ip') ->
       lo <= ip' <= hi /\ A ip' off') /\
    (forall off, A hi off -> exists off0, Q off0 /\ R off0 off);
  seg_complete : forall off off', R off off' -> rtc nstep (off, lo) (off', hi);
  seg_accept : forall ip a, lo <= ip < hi -> ~ insn_at F ip RVM_ACCEPT a;
}.

Definition r_comp (R S : state -> state -> Prop) (x z : state) : Prop := exists y, R x y /\ S y z.
Definition r_or (R S : state -> state -> Prop) (x y : state) : Prop := R x y \/ S x y.

Lemma seg_eq lo hi (R S : state -> state -> Prop) : (forall x y, R x y <-> S x y) -> seg lo hi R -> seg lo hi S.
Proof.
  intros HRS [Hle Hs Hc Ha]. split; [done| |intros x y H%HRS; by apply Hc|done].
  intros Q. destruct (Hs Q) as (A & H1 & H2 & H3). exists A. split_and!; [done..|].
  intros off (off0 & HQ & H%HRS)%H3. by exists off0.
Qed.

Lemma seg_nil lo : seg lo lo (fun x y => x = y).
Proof.
  split; [lia| |by intros x y ->|lia]. intros Q. exists (fun _ => Q). split_and!; [done|intros; lia|].
  intros off HQ. by exists off.
Qed.

(** The instruction at an address is unique. *)
Lemma insn_at_eq ip o a o' a' : insn_at F ip o a -> insn_at F ip o' a' -> o = o' /\ a = a'.
Proof. intros [_ H] [_ H']. rewrite H in H'. by injection H' as -> ->. Qed.

Ltac at_insn :=
  match goal with
  | H1 : insn_at F ?ip ?o ?a, H2 : insn_at F ?ip ?o' ?a' |- _ =>
      let Eo := fresh in let Ea := fresh in
      destruct (insn_at_eq _ _ _ _ _ H1 H2) as [Eo Ea]; try discriminate Eo;
      match type of Ea with ?x = ?y => first [is_var y; subst y|is_var x; subst x|idtac] end
  end.

(** A single instruction that goes to the next one. *)
Lemma seg_one i o a (R : state -> state -> Prop) :
  insn_at F i o a -> o <> RVM_ACCEPT ->
  (forall off off' ip', nstep (off, i) (off', ip') <-> ip' = i + 1 /\ R off off') -> seg i (i + 1) R.
Proof.
  intros Hi Ho Hst. split; [lia| | |].
  - intros Q. exists (fun ip off => if ip =? i then Q off else exists off0, Q off0 /\ R off0 off).
    rewrite Z.eqb_refl. rewrite (proj2 (Z.eqb_neq (i + 1) i)) by lia. split_and!; [done| |done].
    intros ip off ip' off' Hip HA Hn. assert (ip = i) as -> by lia. rewrite Z.eqb_refl in HA.
    apply Hst in Hn as [-> HR]. split; [lia|]. rewrite (proj2 (Z.eqb_neq (i + 1) i)) by lia. by exists off.
  - intros off off' HR. apply rtc_once. by apply Hst.
  - intros ip a' Hip Ha. assert (ip = i) as -> by lia. by destruct (insn_at_eq _ _ _ _ _ Hi Ha).
Qed.

Ltac one_insn Hi :=
  eapply seg_one; [exact Hi|done|]; intros ? ? ?; split;
    [let H := fresh in intros H; inversion H; subst; at_insn; done
    |intros H; destruct_and?; simplify_eq; by econstructor].

(** No instruction of a stretch made of stretches and jumps accepts. *)
Ltac no_accept :=
  let ip := fresh "ip" in let Ha := fresh in
  intros ip ? ? Ha;
  repeat match goal with
  | Hi : insn_at F ?i ?o _ |- _ =>
      lazymatch o with RVM_ACCEPT => fail | _ => idtac end;
      destruct (decide (ip = i)) as [->|?]; [by destruct (insn_at_eq _ _ _ _ _ Hi Ha)|clear Hi]
  | Hs : seg ?lo ?hi _ |- _ =>
      destruct (decide (lo <= ip < hi)); [by destruct (seg_accept _ _ _ Hs ip _ ltac:(eassumption) Ha)|clear Hs]
  end; lia.

Lemma seg_push i a : insn_at F i RVM_PUSH a -> seg i (i + 1) (fun x y => y = record SVM_PUSH 0 x).
Proof. intros Hi. one_insn Hi. Qed.
Lemma seg_action i a : insn_at F i RVM_ACTION a -> seg i (i + 1) (fun x y => y = record SVM_ACTION a x).
Proof. intros Hi. one_insn Hi. Qed.
Lemma seg_capture i a : insn_at F i RVM_CAPTURE a -> seg i (i + 1) (fun x y => y = record SVM_CAPTURE 0 x).
Proof. intros Hi. one_insn Hi. Qed.
Lemma seg_step i a : insn_at F i RVM_STEP a -> seg i (i + 1) (fun x y => y = (x.1 + 1, x.2)).
Proof. intros Hi. one_insn Hi. Qed.
Lemma seg_match i a :
  insn_at F i RVM_MATCH a ->
  seg i (i + 1) (fun x y => y = x /\ Z.land a 255 <= cur x.1 <= Z.land (Z.shiftr a 8) 255).
Proof. intros Hi. one_insn Hi. Qed.
Lemma seg_eof i a : insn_at F i RVM_EOF a -> seg i (i + 1) (fun x y => y = x /\ x.1 = Z.of_nat (length input)).
Proof. intros Hi. one_insn Hi. Qed.

(** ** Sequences *)

Lemma seg_seq lo mid hi R S : seg lo mid R -> seg mid hi S -> seg lo hi (r_comp R S).
Proof.
  intros HR HS. pose proof (seg_le _ _ _ HR) as Hle1. pose proof (seg_le _ _ _ HS) as Hle2. split; [lia| | |no_accept].
  - intros Q. destruct (seg_sound _ _ _ HR Q) as (A & A1 & A2 & A3).
    destruct (seg_sound _ _ _ HS (A mid)) as (B & B1 & B2 & B3).
    exists (fun ip off => if ip <? mid then A ip off else B ip off). split_and!.
    + intros off HQ. destruct (Z.ltb_spec lo mid); [by apply A1|]. assert (lo = mid) as <- by lia. by apply B1, A1.
    + intros ip off ip' off' Hip HA Hn. destruct (Z.ltb_spec ip mid).
      * destruct (A2 ip off ip' off' ltac:(lia) HA Hn) as [Hip' HA']. split; [lia|].
        destruct (Z.ltb_spec ip' mid); [done|]. assert (ip' = mid) as -> by lia. by apply B1.
      * destruct (B2 ip off ip' off' ltac:(lia) HA Hn) as [Hip' HB']. split; [lia|].
        destruct (Z.ltb_spec ip' mid); [lia|done].
    + intros off H. destruct (Z.ltb_spec hi mid); [lia|]. destruct (B3 _ H) as (y & Hy & HSy).
      destruct (A3 _ Hy) as (x & Hx & HRx). exists x. split; [done|]. by exists y.
  - intros x z (y & Hxy & Hyz). etrans; [by apply (seg_complete _ _ _ HR)|by apply (seg_complete _ _ _ HS)].
Qed.

(** ** Alternatives: [fork n; R; goto e; n: S; e:] and [fork e; R; e:] *)

Lemma seg_choice i g e R S :
  insn_at F i RVM_FORK (g + 1) -> seg (i + 1) g R -> insn_at F g RVM_GOTO e -> seg (g + 1) e S ->
  seg i e (r_or R S).
Proof.
  intros Hi HR Hg HS. pose proof (seg_le _ _ _ HR) as Hle1. pose proof (seg_le _ _ _ HS) as Hle2. split; [lia| | |no_accept].
  - intros Q. destruct (seg_sound _ _ _ HR Q) as (A & A1 & A2 & A3).
    destruct (seg_sound _ _ _ HS Q) as (B & B1 & B2 & B3).
    exists (fun ip off => if ip =? e then A g off \/ B e off else if ip =? i then Q off else
      if ip <=? g then A ip off else B ip off). split_and!.
    + intros off HQ. rewrite (proj2 (Z.eqb_neq i e)), Z.eqb_refl by lia. done.
    + intros ip off ip' off' Hip HA Hn. rewrite (proj2 (Z.eqb_neq ip e)) in HA by lia.
      destruct (Z.eqb_spec ip i) as [->|Hne].
      { inversion Hn; subst; at_insn; (split; [lia|]).
        - destruct (Z.eqb_spec (g + 1) e) as [<-|]; [right; by apply B1|].
          rewrite (proj2 (Z.eqb_neq (g + 1) i)), (proj2 (Z.leb_gt (g + 1) g)) by lia. by apply B1.
        - rewrite (proj2 (Z.eqb_neq (i + 1) e)), (proj2 (Z.eqb_neq (i + 1) i)), (proj2 (Z.leb_le (i + 1) g)) by lia.
          by apply A1. }
      destruct (Z.leb_spec ip g) as [Hle|Hgt].
      * destruct (decide (ip = g)) as [->|Hng].
        { inversion Hn; subst; at_insn. split; [lia|]. rewrite Z.eqb_refl. by left. }
        destruct (A2 ip off ip' off' ltac:(lia) HA Hn) as [Hip' HA']. split; [lia|].
        rewrite (proj2 (Z.eqb_neq ip' e)), (proj2 (Z.eqb_neq ip' i)), (proj2 (Z.leb_le ip' g)) by lia. done.
      * destruct (B2 ip off ip' off' ltac:(lia) HA Hn) as [Hip' HB']. split; [lia|].
        destruct (Z.eqb_spec ip' e) as [->|]; [by right|].
        rewrite (proj2 (Z.eqb_neq ip' i)), (proj2 (Z.leb_gt ip' g)) by lia. done.
    + intros off H. rewrite Z.eqb_refl in H. destruct H as [H|H].
      * destruct (A3 _ H) as (off0 & HQ0 & HR0). exists off0. split; [done|by left].
      * destruct (B3 _ H) as (off0 & HQ0 & HS0). exists off0. split; [done|by right].
  - intros x y [H|H].
    + eapply rtc_l; [by eapply n_next|]. eapply rtc_r; [by apply (seg_complete _ _ _ HR)|]. by eapply n_goto.
    + eapply rtc_l; [by eapply n_fork|]. by apply (seg_complete _ _ _ HS).
Qed.

Lemma seg_opt i e R :
  insn_at F i RVM_FORK e -> seg (i + 1) e R -> seg i e (r_or R (fun x y => x = y)).
Proof.
  intros Hi HR. pose proof (seg_le _ _ _ HR) as Hle. split; [lia| | |no_accept].
  - intros Q. destruct (seg_sound _ _ _ HR Q) as (A & A1 & A2 & A3).
    exists (fun ip off => if ip =? e then Q off \/ A e off else if ip =? i then Q off else A ip off). split_and!.
    + intros off HQ. rewrite (proj2 (Z.eqb_neq i e)), Z.eqb_refl by lia. done.
    + intros ip off ip' off' Hip HA Hn. rewrite (proj2 (Z.eqb_neq ip e)) in HA by lia.
      destruct (Z.eqb_spec ip i) as [->|Hne].
      * inversion Hn; subst; at_insn; (split; [lia|]); [rewrite Z.eqb_refl; by left|].
        destruct (Z.eqb_spec (i + 1) e) as [<-|]; [right; by apply A1|].
        rewrite (proj2 (Z.eqb_neq (i + 1) i)) by lia. by apply A1.
      * destruct (A2 ip off ip' off' ltac:(lia) HA Hn) as [Hip' HA']. split; [lia|].
        destruct (Z.eqb_spec ip' e) as [->|]; [by right|]. by rewrite (proj2 (Z.eqb_neq ip' i)) by lia.
    + intros off H. rewrite Z.eqb_refl in H. destruct H as [H|H].
      * exists off. split; [done|by right].
      * destruct (A3 _ H) as (off0 & HQ0 & HR0). exists off0. split; [done|by left].
  - intros x y [H| ->].
    + eapply rtc_l; [by eapply n_next|]. by apply (seg_complete _ _ _ HR).
    + apply rtc_once. by eapply n_fork.
Qed.

(** ** Loops *)

(** [goto mid; nxt: S; mid: P; fork nxt]: P, then S and P any number of times. *)
Lemma seg_loop g mid f S P :
  insn_at F g RVM_GOTO mid -> seg (g + 1) mid S -> seg mid f P -> insn_at F f RVM_FORK (g + 1) ->
  seg g (f + 1) (r_comp P (rtc (r_comp S P))).
Proof.
  intros Hg HS HP Hf. pose proof (seg_le _ _ _ HS) as Hle1. pose proof (seg_le _ _ _ HP) as Hle2. split; [lia| | |no_accept].
  - intros Q. set (E := fun y => exists x, Q x /\ r_comp P (rtc (r_comp S P)) x y).
    set (D := fun y => Q y \/ exists z, E z /\ S z y).
    destruct (seg_sound _ _ _ HS E) as (A & A1 & A2 & A3). destruct (seg_sound _ _ _ HP D) as (B & B1 & B2 & B3).
    assert (forall y, A mid y -> B mid y) as HAB.
    { intros y (z & Hz & HSz)%A3. apply B1. right. by exists z. }
    assert (forall y, B f y -> E y) as HBE.
    { intros y (x & [Hx|(z & (x0 & Hx0 & (y0 & HP0 & Hs)) & HSz)] & HPx)%B3.
      - exists x. split; [done|]. exists y. by split.
      - exists x0. split; [done|]. exists y0. split; [done|]. eapply rtc_r; [exact Hs|]. by exists x. }
    exists (fun ip off => if ip =? f + 1 then E off else if ip =? g then Q off else
      if ip <? mid then A ip off else B ip off). split_and!.
    + intros off HQ. rewrite (proj2 (Z.eqb_neq g (f + 1))), Z.eqb_refl by lia. done.
    + intros ip off ip' off' Hip HA Hn. rewrite (proj2 (Z.eqb_neq ip (f + 1))) in HA by lia.
      destruct (Z.eqb_spec ip g) as [->|Hne].
      { inversion Hn; subst; at_insn. split; [lia|].
        rewrite (proj2 (Z.eqb_neq mid (f + 1))), (proj2 (Z.eqb_neq mid g)), Z.ltb_irrefl by lia. apply B1. by left. }
      destruct (Z.ltb_spec ip mid) as [Hlt|Hge].
      * destruct (A2 ip off ip' off' ltac:(lia) HA Hn) as [Hip' HA']. split; [lia|].
        rewrite (proj2 (Z.eqb_neq ip' (f + 1))), (proj2 (Z.eqb_neq ip' g)) by lia.
        destruct (Z.ltb_spec ip' mid); [done|]. assert (ip' = mid) as -> by lia. by apply HAB.
      * destruct (decide (ip = f)) as [->|Hnf].
        { apply HBE in HA. inversion Hn; subst; at_insn; (split; [lia|]); [|by rewrite Z.eqb_refl].
          rewrite (proj2 (Z.eqb_neq (g + 1) (f + 1))), (proj2 (Z.eqb_neq (g + 1) g)) by lia.
          destruct (Z.ltb_spec (g + 1) mid); [by apply A1|]. assert (mid = g + 1) as -> by lia. by apply HAB, A1. }
        destruct (B2 ip off ip' off' ltac:(lia) HA Hn) as [Hip' HB']. split; [lia|].
        rewrite (proj2 (Z.eqb_neq ip' (f + 1))), (proj2 (Z.eqb_neq ip' g)), (proj2 (Z.ltb_ge ip' mid)) by lia. done.
    + intros off H. by rewrite Z.eqb_refl in H.
  - intros x z (y & Hxy & Hyz). eapply rtc_l; [by eapply n_goto|].
    etrans; [by apply (seg_complete _ _ _ HP)|]. clear Hxy. induction Hyz as [y|y y' z (v & HSv & HPv) _ IH].
    + apply rtc_once. by eapply n_next.
    + eapply rtc_l; [by eapply n_fork|]. etrans; [by apply (seg_complete _ _ _ HS)|].
      etrans; [by apply (seg_complete _ _ _ HP)|done].
Qed.

(** [start: fork n1; R; goto start; n1: fork n2; S; goto start; n2:] *)
Lemma seg_spaces start g1 g2 R S :
  insn_at F start RVM_FORK (g1 + 1) -> seg (start + 1) g1 R -> insn_at F g1 RVM_GOTO start ->
  insn_at F (g1 + 1) RVM_FORK (g2 + 1) -> seg (g1 + 1 + 1) g2 S -> insn_at F g2 RVM_GOTO start ->
  seg start (g2 + 1) (rtc (r_or R S)).
Proof.
  intros Hs HR Hg1 Hn1 HS Hg2. pose proof (seg_le _ _ _ HR) as Hle1. pose proof (seg_le _ _ _ HS) as Hle2.
  split; [lia| | |no_accept].
  - intros Q. set (T := fun y => exists x, Q x /\ rtc (r_or R S) x y).
    destruct (seg_sound _ _ _ HR T) as (A & A1 & A2 & A3). destruct (seg_sound _ _ _ HS T) as (B & B1 & B2 & B3).
    assert (forall y, A g1 y -> T y) as HA1.
    { intros y (z & (x & Hx & Hz) & HRz)%A3. exists x. split; [done|]. eapply rtc_r; [done|by left]. }
    assert (forall y, B g2 y -> T y) as HB1.
    { intros y (z & (x & Hx & Hz) & HSz)%B3. exists x. split; [done|]. eapply rtc_r; [done|by right]. }
    set (head := fun ip => (ip =? start) || (ip =? g1 + 1) || (ip =? g2 + 1)).
    assert (forall ip, ip = start \/ ip = g1 + 1 \/ ip = g2 + 1 -> head ip = true) as Hhead.
    { intros ip Hip. unfold head. destruct (Z.eqb_spec ip start), (Z.eqb_spec ip (g1 + 1)), (Z.eqb_spec ip (g2 + 1)); (done || lia). }
    assert (forall ip, ip <> start -> ip <> g1 + 1 -> ip <> g2 + 1 -> head ip = false) as Hbody.
    { intros ip H1 H2 H3. unfold head.
      destruct (Z.eqb_spec ip start), (Z.eqb_spec ip (g1 + 1)), (Z.eqb_spec ip (g2 + 1)); (done || lia). }
    exists (fun ip off => if head ip then T off else if ip <=? g1 then A ip off else B ip off). split_and!.
    + intros off HQ. rewrite Hhead by lia. by exists off.
    + intros ip off ip' off' Hip HA Hn.
      destruct (decide (ip = start)) as [->|Hne1].
      { rewrite Hhead in HA by lia. inversion Hn; subst; at_insn; (split; [lia|]); [by rewrite Hhead by lia|].
        rewrite Hbody, (proj2 (Z.leb_le (start + 1) g1)) by lia. by apply A1. }
      destruct (decide (ip = g1 + 1)) as [->|Hne2].
      { rewrite Hhead in HA by lia. inversion Hn; subst; at_insn; (split; [lia|]); [by rewrite Hhead by lia|].
        rewrite Hbody, (proj2 (Z.leb_gt (g1 + 1 + 1) g1)) by lia. by apply B1. }
      rewrite Hbody in HA by lia. destruct (Z.leb_spec ip g1) as [Hle|Hgt].
      * destruct (decide (ip = g1)) as [->|Hng].
        { inversion Hn; subst; at_insn. split; [lia|]. rewrite Hhead by lia. by apply HA1. }
        destruct (A2 ip off ip' off' ltac:(lia) HA Hn) as [Hip' HA']. split; [lia|].
        rewrite Hbody, (proj2 (Z.leb_le ip' g1)) by lia. done.
      * destruct (decide (ip = g2)) as [->|Hng].
        { inversion Hn; subst; at_insn. split; [lia|]. rewrite Hhead by lia. by apply HB1. }
        destruct (B2 ip off ip' off' ltac:(lia) HA Hn) as [Hip' HB']. split; [lia|].
        rewrite Hbody, (proj2 (Z.leb_gt ip' g1)) by lia. done.
    + intros off H. by rewrite Hhead in H by lia.
  - intros x z H. induction H as [x|x y z [H|H] _ IH].
    + eapply rtc_l; [by eapply n_fork|]. apply rtc_once. by eapply n_fork.
    + eapply rtc_l; [by eapply n_next|]. etrans; [by apply (seg_complete _ _ _ HR)|].
      eapply rtc_l; [by eapply n_goto|done].
    + eapply rtc_l; [by eapply n_fork|]. eapply rtc_l; [by eapply n_next|].
      etrans; [by apply (seg_complete _ _ _ HS)|]. eapply rtc_l; [by eapply n_goto|done].
Qed.

(** What a program that is one stretch accepts. *)
Lemma seg_accepts hi R b off t :
  seg 0 hi R -> insn_at F hi RVM_ACCEPT b ->
  accepts F input (mkTrace SVM_ACCEPT 0 off :: t) <-> R start (off, t) /\ off <= Z.of_nat (length input).
Proof.
  intros [Hle Hs Hc Hna] Hacc. split.
  - intros (off0 & ip & a & t' & Hp & Hi & Hoff & E). injection E as <- <-. split; [|done].
    destruct (Hs (fun o => o = start)) as (A & A1 & A2 & A3).
    assert (forall z, rtc nstep (start, 0) z -> 0 <= z.2 <= hi /\ A z.2 z.1) as Hin.
    { apply rtc_ind_r; [split; [simpl; lia|by apply A1]|].
      intros [o i] [o' i'] _ Hn [Hi1 HA]. cbn [fst snd] in *. apply (A2 i o); [|done..].
      destruct (decide (i = hi)) as [->|]; [|lia]. inversion Hn; subst; at_insn. }
    destruct (Hin _ (path_runs _ _ _ Hp)) as [Hip HA]. cbn [fst snd] in *.
    destruct (decide (ip = hi)) as [->|]; [|by destruct (Hna ip a); [lia|]].
    apply A3 in HA as (x & -> & HR). done.
  - intros [HR Hoff]. apply Hc, runs_path in HR. by exists off, hi, b, t.
Qed.

End Runs.

(** * What code reads and what it does to the stack *)

Record denot := mkD { dl : language; de : effect }.
Record d_le (D D' : denot) : Prop := {
  dle_language : dl D ≡ₗ dl D';
  dle_effect : forall x s y r, de D x s y r -> de D' x s y r;
}.
Infix "⊑ᵈ" := d_le (at level 70).
#[export] Instance d_le_preorder : PreOrder d_le.
Proof.
  split; [by intros D; split|]. intros D D' D'' [HL HE] [HL' HE']. split; [by etrans|]. intros x s y r H. by apply HE', HE.
Qed.

Definition d_empty : denot := mkD l_empty e_nil.
Definition d_none : denot := mkD l_none e_none.
Definition d_char (P : Z -> Prop) : denot := mkD (l_char P) e_read.
Definition d_end : denot := mkD (fun w => w = [Sym_end]) e_nil.
Definition d_do (E : effect) : denot := mkD l_empty E.
Definition d_cat (D D' : denot) : denot := mkD (l_cat (dl D) (dl D')) (e_cat (de D) (de D')).
Definition d_or (D D' : denot) : denot := mkD (l_or (dl D) (dl D')) (e_or (de D) (de D')).
Definition d_star (D : denot) : denot := mkD (l_star (dl D)) (e_star (de D)).
Fixpoint d_cats (Ds : list denot) : denot :=
  match Ds with [] => d_empty | D :: Ds => d_cat D (d_cats Ds) end.
Fixpoint d_ors (Ds : list denot) : denot :=
  match Ds with [] => d_none | D :: Ds => d_or D (d_ors Ds) end.

Lemma d_cat_le D1 D2 D1' D2' : D1 ⊑ᵈ D1' -> D2 ⊑ᵈ D2' -> d_cat D1 D2 ⊑ᵈ d_cat D1' D2'.
Proof. intros [HL1 HE1] [HL2 HE2]. split; [by apply l_cat_proper|by apply e_cat_mono]. Qed.
Lemma d_cat_assoc D1 D2 D3 : d_cat D1 (d_cat D2 D3) ⊑ᵈ d_cat (d_cat D1 D2) D3.
Proof. split; [symmetry; apply l_cat_assoc|]. intros x s y r. apply e_cat_assoc. Qed.
Lemma d_or_le D1 D2 D1' D2' : D1 ⊑ᵈ D1' -> D2 ⊑ᵈ D2' -> d_or D1 D2 ⊑ᵈ d_or D1' D2'.
Proof. intros [HL1 HE1] [HL2 HE2]. split; [by apply l_or_proper|]. intros x s y r [H|H]; [left|right]; eauto. Qed.
Lemma d_star_le D D' : D ⊑ᵈ D' -> d_star D ⊑ᵈ d_star D'.
Proof. intros [HL HE]. split; [by apply l_star_proper|by apply e_star_mono]. Qed.

Lemma dl_cats Ds : dl (d_cats Ds) = l_cats (dl <$> Ds).
Proof. induction Ds as [|D Ds IH]; [done|]. cbn. by rewrite IH. Qed.
Lemma de_cats Ds : de (d_cats Ds) = e_cats (de <$> Ds).
Proof. induction Ds as [|D Ds IH]; [done|]. cbn. by rewrite IH. Qed.
Lemma dl_ors Ds : dl (d_ors Ds) = l_ors (dl <$> Ds).
Proof. induction Ds as [|D Ds IH]; [done|]. cbn. by rewrite IH. Qed.
Lemma de_ors Ds : de (d_ors Ds) = e_ors (de <$> Ds).
Proof. induction Ds as [|D Ds IH]; [done|]. cbn. by rewrite IH. Qed.

(** * Languages of stretches *)

Section Languages.
Context (input : list Z).
Local Abbreviation len := (Z.of_nat (length input)).

(** The string [w] is between the offsets [x] and [y]; the end of the input can
    be read any number of times. *)
Fixpoint eats (w : list symbol) (x y : Z) : Prop :=
  match w with
  | [] => x = y
  | Sym c :: w => x < len /\ input !! Z.to_nat x = Some c /\ eats w (x + 1) y
  | Sym_end :: w => x = len /\ eats w x y
  end.

Lemma eats_app u v x z : eats (u ++ v) x z <-> exists y, eats u x y /\ eats v y z.
Proof.
  revert x. induction u as [|[c|] u IH]; intros x; cbn [app eats].
  - split; [by exists x|]. by intros (y & -> & H).
  - rewrite IH. split; [intros (H1 & H2 & y & H3 & H4)|intros (y & (H1 & H2 & H3) & H4)].
    + by exists y.
    + split; [done|]. split; [done|]. by exists y.
  - rewrite IH. split; [intros (H1 & y & H2 & H3)|intros (y & (H1 & H2) & H3)].
    + by exists y.
    + split; [done|]. by exists y.
Qed.

Lemma eats_le w x y : eats w x y -> x <= y.
Proof.
  revert x. induction w as [|[c|] w IH]; intros x; cbn [eats]; [lia| |].
  - intros (_ & _ & H%IH). lia.
  - intros (_ & H%IH). lia.
Qed.

(** From byte [x] to byte [y], strings of [L]. *)
Definition spans (L : language) (x y : Z) : Prop := exists w, L w /\ eats w x y.

Lemma spans_eq L M x y : L ≡ₗ M -> spans L x y -> spans M x y.
Proof. intros HL (w & Hw & He). exists w. split; [by apply HL|done]. Qed.

Lemma spans_cat L M x z : spans (l_cat L M) x z <-> exists y, spans L x y /\ spans M y z.
Proof.
  split.
  - intros (w & (u & v & -> & Hu & Hv) & (y & Eu & Ev)%eats_app). exists y. split; [by exists u|by exists v].
  - intros (y & (u & Hu & Eu) & (v & Hv & Ev)). exists (u ++ v). split; [by exists u, v|]. apply eats_app. by exists y.
Qed.

Lemma spans_le L x y : spans L x y -> x <= y.
Proof. intros (w & _ & He). by eapply eats_le. Qed.

(** The runs that [R] relates read strings of the language, all of them, and their
    traces have the effect, when the indices of actions fit in 16 bits. *)
Section Describes.
Context (store : list HParser) (F : HRVMProg).

Record traced (x y : state) (E : effect) : Prop := {
  tr_le : x.1 <= y.1;
  tr_trace : exists u, y.2 = u ++ x.2 /\
    (pr_action_count F <= 65536 -> has_effect store input F (rev u) x.1 y.1 E);
}.
Record describes (R : state -> state -> Prop) (D : denot) : Prop := {
  ds_trace : forall x y, R x y -> traced x y (de D);
  ds_sound : forall x y, R x y -> 0 <= x.1 -> y.1 <= len -> spans (dl D) x.1 y.1;
  ds_complete : forall x y, 0 <= x.1 -> y <= len -> spans (dl D) x.1 y -> exists t, R x (y, t);
}.

Lemma describes_le R D D' : D ⊑ᵈ D' -> describes R D -> describes R D'.
Proof.
  intros [HL HE] [Ht Hs Hc]. split.
  - intros x y [Hle (u & Hu & Hp)]%Ht. split; [done|]. exists u. split; [done|]. intros Hsm. eapply has_effect_mono; eauto.
  - intros x y HR Hx Hy. eapply spans_eq; [exact HL|by apply Hs].
  - intros x y Hx Hy Hsp. apply Hc; [done..|]. eapply spans_eq; [symmetry; exact HL|done].
Qed.

Lemma traced_stay x : traced x x e_nil.
Proof. split; [done|]. exists []. split; [done|]. intros _ s. by split. Qed.

Lemma describes_nil : describes eq d_empty.
Proof.
  split.
  - intros x _ <-. apply traced_stay.
  - intros x _ <- _ _. by exists [].
  - intros [x t] y _ _ (w & -> & He). exists t. by rewrite <- He.
Qed.

Lemma describes_none (R : state -> state -> Prop) : (forall x y, ~ R x y) -> describes R d_none.
Proof. intros HR. split; [by intros x y ?%HR|by intros x y ?%HR|by intros x y _ _ (w & [] & _)]. Qed.

(** An operation on the stack. *)
Lemma describes_record o a g :
  (pr_action_count F <= 65536 -> forall x s, svm_step store input F (mkTrace o a x) s = g x s) ->
  describes (fun x y => y = record o a x) (d_do (e_do g)).
Proof.
  intros Hg. split.
  - intros x _ ->. split; [done|]. exists [mkTrace o a x.1]. split; [done|]. intros Hsm.
    apply has_effect_do. by apply Hg.
  - intros x _ -> _ _. by exists [].
  - intros [x t] y _ _ (w & -> & He). eexists. unfold record. cbn [eats fst] in *. by rewrite <- He.
Qed.

Lemma describes_comp R S D D' : describes R D -> describes S D' -> describes (r_comp R S) (d_cat D D').
Proof.
  intros [Rt Rs Rc] [St Ss Sc]. split.
  - intros x z (y & [Hxy (u & Hu & Pu)]%Rt & [Hyz (v & Hv & Pv)]%St). split; [lia|]. exists (v ++ u).
    split; [by rewrite Hv, Hu, app_assoc|]. intros Hsm. rewrite rev_app_distr. apply (has_effect_cat _ _ _ _ _ _ y.1); auto.
  - intros x z (y & Hxy & Hyz) Hx Hz. pose proof (tr_le _ _ _ (Rt _ _ Hxy)). pose proof (tr_le _ _ _ (St _ _ Hyz)).
    apply spans_cat. exists y.1. split; [by apply Rs; [|lia..]|by apply Ss; [|lia..]].
  - intros x z Hx Hz (y & Hy & Hyz)%spans_cat. pose proof (spans_le _ _ _ Hy). pose proof (spans_le _ _ _ Hyz).
    destruct (Rc x y) as [t Ht]; [lia..|done|]. destruct (Sc (y, t) z) as [t' Ht']; [simpl; lia|done..|].
    exists t', (y, t). by split.
Qed.

Lemma describes_or R S D D' : describes R D -> describes S D' -> describes (r_or R S) (d_or D D').
Proof.
  intros [Rt Rs Rc] [St Ss Sc]. split.
  - intros x y [[Hxy (u & Hu & Pu)]%Rt|[Hxy (u & Hu & Pu)]%St]; (split; [done|]; exists u; split; [done|]; intros Hsm;
      eapply has_effect_mono; [|by auto]); [by left|by right].
  - intros x y [H|H] Hx Hy; [destruct (Rs _ _ H Hx Hy) as (w & Hw & He)|destruct (Ss _ _ H Hx Hy) as (w & Hw & He)];
      exists w; (split; [|done]); [by left|by right].
  - intros x y Hx Hy (w & [Hw|Hw] & He).
    + destruct (Rc x y) as [t Ht]; [done..|by exists w|]. exists t. by left.
    + destruct (Sc x y) as [t Ht]; [done..|by exists w|]. exists t. by right.
Qed.

Lemma describes_star R D : describes R D -> describes (rtc R) (d_star D).
Proof.
  intros [Rt Rs Rc]. assert (forall x y, rtc R x y -> traced x y (e_star (de D))) as Ht.
  { induction 1 as [x|x y z [Hxy (u & Hu & Pu)]%Rt _ [Hyz (v & Hv & Pv)]].
    - split; [done|]. exists []. split; [done|]. intros _ s. apply es_nil.
    - split; [lia|]. exists (v ++ u). split; [by rewrite Hv, Hu, app_assoc|]. intros Hsm. rewrite rev_app_distr.
      apply (has_effect_star_cons _ _ _ _ _ _ y.1); auto. }
  split; [exact Ht|..].
  - intros x z H. induction H as [x|x y z H1 H2 IH]; intros Hx Hz; [by exists []; split; [constructor|]|].
    pose proof (tr_le _ _ _ (Rt _ _ H1)). pose proof (tr_le _ _ _ (Ht _ _ H2)).
    destruct (Rs _ _ H1) as (u & Hu & Eu); [lia..|]. destruct IH as (v & Hv & Ev); [lia..|]. exists (u ++ v).
    split; [by constructor|]. apply eats_app. by exists y.1.
  - intros x z Hx Hz (w & Hw & He). revert x Hx He. induction Hw as [|u v Hu Hv IH]; intros [x t] Hx He.
    + cbn [eats fst] in He. exists t. by rewrite <- He.
    + apply eats_app in He as (y & Eu & Ev). pose proof (eats_le _ _ _ Eu). pose proof (eats_le _ _ _ Ev). cbn [fst] in *.
      destruct (Rc (x, t) y) as [t1 H1]; [done|lia|by exists u|].
      destruct (IH (y, t1)) as [t2 H2]; [simpl; lia|done|]. exists t2. by eapply rtc_l.
Qed.

(** A byte between bounds that satisfies [P]. *)
Lemma describes_char (Q P : Z -> Prop) :
  (forall x c, input !! Z.to_nat x = Some c -> 0 <= x < len -> Q (cur input x) <-> P c) ->
  describes (fun x y => Q (cur input x.1) /\ y = (x.1 + 1, x.2)) (d_char P).
Proof.
  intros HQ. split.
  - intros x y [_ ->]. split; [simpl; lia|]. exists []. split; [done|]. intros _ s. by split.
  - intros x y [H ->] Hx Hy. cbn [fst] in *. destruct (lookup_lt_is_Some_2 input (Z.to_nat x.1)) as [c Hc]; [lia|].
    exists [Sym c]. split; [exists c; split; [done|]; apply (HQ x.1); [done|lia|done]|]. cbn [eats]. split; [lia|done].
  - intros x y Hx Hy (w & (c & -> & Hc) & He). cbn [eats] in He. destruct He as (Hlt & Hin & <-).
    eexists. split; [|done]. apply (HQ x.1 c); [done|lia|done].
Qed.

Lemma cur_lookup x c : input !! Z.to_nat x = Some c -> 0 <= x < len -> cur input x = c.
Proof. intros Hc Hx. unfold cur. rewrite (proj2 (Z.eqb_neq _ _)), Hc by lia. done. Qed.

Lemma describes_end : describes (fun x y => y = x /\ x.1 = len) d_end.
Proof.
  split.
  - intros x _ [-> _]. apply traced_stay.
  - intros x _ [-> H] _ _. by exists [Sym_end].
  - intros [x t] y _ _ (w & -> & He). cbn [eats fst] in He. destruct He as [-> <-]. by exists t.
Qed.
End Describes.

(** What is between the start and [off] has been consumed. *)
Lemma consumed_sym l l' c w : consumed l l' (Sym c :: w) <-> exists l1, l = c :: l1 /\ consumed l1 l' w.
Proof.
  split.
  - intros ([|b bytes] & n & E & -> & Hn); [by destruct n|]. injection E as -> ->.
    exists (bytes ++ l'). split; [done|]. by exists bytes, n.
  - intros (l1 & -> & bytes & n & -> & -> & Hn). by exists (c :: bytes), n.
Qed.

Lemma consumed_stop l l' w : consumed l l' (Sym_end :: w) <-> l = [] /\ consumed [] l' w.
Proof.
  split.
  - intros ([|b bytes] & [|n] & E & -> & Hn); try done. injection E as ->. specialize (Hn ltac:(lia)) as ->.
    split; [done|]. by exists [], n.
  - intros (-> & bytes & n & -> & E & Hn). symmetry in E. apply app_eq_nil in E as [-> ->]. by exists [], (S n).
Qed.

Lemma consumed_empty l l' : consumed l l' [] <-> l = l'.
Proof.
  split; [|intros ->; by exists [], 0%nat; split_and!; [..|lia]]. intros (bytes & n & E & -> & _).
  symmetry in E. apply app_eq_nil in E as [E _]. by destruct bytes.
Qed.

Lemma eats_drop w x off :
  0 <= x -> off <= len ->
  eats w x off <-> consumed (drop (Z.to_nat x) input) (drop (Z.to_nat off) input) w /\ x <= off.
Proof.
  intros Hx Hoff. revert x Hx. induction w as [|[c|] w IH]; intros x Hx; cbn [eats].
  - rewrite consumed_empty. split; [intros ->; split; [done|lia]|]. intros [E Hle].
    apply (f_equal length) in E. rewrite !length_drop in E. lia.
  - rewrite consumed_sym, IH by lia. replace (Z.to_nat (x + 1)) with (S (Z.to_nat x)) by lia. split.
    + intros (Hlt & Hc & Hcon & Hle). split; [|lia]. eexists. split; [by apply drop_S|done].
    + intros ((l1 & E & Hcon) & Hle).
      assert (input !! Z.to_nat x = Some c) as Hc by (rewrite <- (Nat.add_0_r (Z.to_nat x)), <- lookup_drop, E; done).
      pose proof (lookup_lt_Some _ _ _ Hc). rewrite (drop_S _ _ _ Hc) in E. injection E as <-.
      split; [lia|]. split; [done|]. split; [done|].
      apply consumed_bytes_in in Hcon as Hb. rewrite length_drop in Hb.
      destruct Hcon as (bytes & n & _ & El & _). apply (f_equal length) in El.
      rewrite length_app, !length_drop in El. lia.
  - rewrite consumed_stop, IH by lia. split.
    + intros (-> & Hcon & Hle). rewrite drop_ge in * by lia. split; [done|lia].
    + intros ((E & Hcon) & Hle). apply (f_equal length) in E as El. rewrite length_drop in El. simpl in El.
      rewrite E. split; [lia|done].
Qed.

Lemma eats_consumed w off :
  0 <= off <= len -> eats w 0 off <-> consumed input (drop (Z.to_nat off) input) w.
Proof.
  intros Hoff. rewrite eats_drop by lia. change (drop (Z.to_nat 0) input) with input.
  split; [by intros []|]. intros Hc. split; [done|lia].
Qed.
End Languages.
