(* ===== verification/RegexLang.v ===== *)
(** What compiled programs read and do: the paths of a program that h_regex_compile
    makes of a parser read exactly the strings of the language of the parser's
    combinators (DesugarLang), with traces of the effect of its code on the stack
    (RegexStack), and what h_rvm_run__m accepts is among them. The byte machine
    finds some of the paths only (RegexDefects). *)

From S2P Require Import Prelude Stream Charset CArray Token Parser Validity SArray Regex RegexVM RegexCompile.
From S2P Require Import Desugar Grammar DesugarWf DesugarLang FirstFacts Consumed RegexStack RegexSeg.

Section Compile.
Context (input : list Z) (Hbytes : Forall (fun c => 0 <= c < 256) input).
Context (realloc_ok : Z -> bool) (store : list HParser).
Local Abbreviation describes := (describes input store).

(** The finished program has the instructions of [p] from [lo] to [hi], and its
    actions. *)
Definition same (F p : HRVMProg) (lo hi : Z) : Prop :=
  (forall i, lo <= i < hi -> pr_insns F !! Z.to_nat i = pr_insns p !! Z.to_nat i) /\
  pr_actions p `prefix_of` pr_actions F.

(** The stretch is code for [D]. *)
Definition codes (F : HRVMProg) (lo hi : Z) (D : denot) : Prop :=
  exists R, describes F R D /\ seg F input lo hi R.

(** To [p], code of the property [X] is added, when the addresses fit in 16 bits
    at the end; code for [D]. *)
Record adds (p p' : HRVMProg) (X : HRVMProg -> Z -> Z -> Prop) : Prop := {
  ad_keeps : same p' p 0 (pr_length p);
  ad_codes : forall F, same F p' (pr_length p) (pr_length p') -> X F (pr_length p) (pr_length p');
}.
Record grown (p p' : HRVMProg) (X : HRVMProg -> Z -> Z -> Prop) : Prop := {
  gr_le : pr_length p <= pr_length p';
  gr_adds : pr_length p' < 65536 -> adds p p' X;
}.
Definition emitted (p p' : HRVMProg) (D : denot) : Prop := grown p p' (fun F lo hi => codes F lo hi D).

Definition makes {A} (m : R A) (Q : A -> Prop) (D : denot) : Prop :=
  forall p a p', m p = Ok (a, p') -> Q a /\ emitted p p' D.

(** ** Stretches *)

Lemma codes_le F lo hi D D' : D ⊑ᵈ D' -> codes F lo hi D -> codes F lo hi D'.
Proof. intros HD (R & HR & Hs). exists R. split; [by eapply describes_le|done]. Qed.

Lemma codes_seq F lo mid hi D D' : codes F lo mid D -> codes F mid hi D' -> codes F lo hi (d_cat D D').
Proof.
  intros (R & HR & HsR) (S & HS & HsS). exists (r_comp R S).
  split; [by apply describes_comp|by eapply seg_seq].
Qed.

Lemma same_sub F p lo hi lo' hi' : same F p lo hi -> lo <= lo' -> hi' <= hi -> same F p lo' hi'.
Proof. intros [H Ha] Hlo Hhi. split; [|done]. intros i Hi. apply H. lia. Qed.

Lemma same_refl p lo hi : same p p lo hi.
Proof. done. Qed.
Lemma same_trans F p q lo hi : same F p lo hi -> same p q lo hi -> same F q lo hi.
Proof. intros [H1 A1] [H2 A2]. split; [|by etrans]. intros i Hi. by rewrite H1, H2. Qed.

Lemma same_insn F p lo hi i o a : same F p lo hi -> lo <= i < hi -> insn_at p i o a -> insn_at F i o a.
Proof. intros [H _] Hi [Hi0 E]. split; [done|]. by rewrite H. Qed.

(** What changes no instruction. *)
Lemma emitted_empty p p' :
  pr_insns p' = pr_insns p -> pr_actions p `prefix_of` pr_actions p' -> emitted p p' d_empty.
Proof.
  intros E Ha. assert (pr_length p' = pr_length p) as El by (unfold pr_length; by rewrite E).
  split; [lia|]. intros _. split; [split; [intros i _; by rewrite E|done]|]. intros F _. rewrite El. exists eq.
  split; [apply describes_nil|apply seg_nil].
Qed.
Lemma emitted_refl p : emitted p p d_empty.
Proof. by apply emitted_empty. Qed.

Lemma emitted_trans p1 p2 p3 D D' : emitted p1 p2 D -> emitted p2 p3 D' -> emitted p1 p3 (d_cat D D').
Proof.
  intros [Hl12 C12] [Hl23 C23]. pose proof (pr_length_nonneg p1). split; [lia|]. intros Hs.
  destruct (C12 ltac:(lia)) as [H12 F12]. destruct (C23 Hs) as [H23 F23].
  split; [eapply same_trans; [|exact H12]; eapply same_sub; [exact H23|lia..]|].
  intros F HF. eapply codes_seq.
  - apply F12. eapply same_trans; [eapply same_sub; [exact HF|lia..]|]. eapply same_sub; [exact H23|lia..].
  - apply F23. eapply same_sub; [exact HF|lia|lia].
Qed.

(** Code before what has been added. *)
Lemma grown_then p1 p2 p3 X Y Z :
  grown p1 p2 X -> grown p2 p3 Y ->
  (forall F, X F (pr_length p1) (pr_length p2) -> Y F (pr_length p2) (pr_length p3) -> Z F (pr_length p1) (pr_length p3)) ->
  grown p1 p3 Z.
Proof.
  intros [Hl12 C12] [Hl23 C23] HZ. pose proof (pr_length_nonneg p1). split; [lia|]. intros Hs.
  destruct (C12 ltac:(lia)) as [H12 F12]. destruct (C23 Hs) as [H23 F23].
  split; [eapply same_trans; [|exact H12]; eapply same_sub; [exact H23|lia..]|].
  intros F HF. apply HZ.
  - apply F12. eapply same_trans; [eapply same_sub; [exact HF|lia..]|]. eapply same_sub; [exact H23|lia..].
  - apply F23. eapply same_sub; [exact HF|lia|lia].
Qed.

Lemma emitted_le p p' D D' : D ⊑ᵈ D' -> emitted p p' D -> emitted p p' D'.
Proof.
  intros HD [Hp Ha]. split; [done|]. intros Hs. destruct (Ha Hs) as [Hpre Hc]. split; [done|].
  intros F HF. eapply codes_le; [exact HD|by apply Hc].
Qed.

Lemma makes_le {A} (m : R A) Q D D' : D ⊑ᵈ D' -> makes m Q D -> makes m Q D'.
Proof. intros HD Hm p a p' [Ha He]%Hm. split; [done|by eapply emitted_le]. Qed.

Lemma makes_ret {A} (a : A) (Q : A -> Prop) : Q a -> makes (mret a) Q d_empty.
Proof. intros Ha p b p' [= <- <-]. split; [done|apply emitted_refl]. Qed.

Lemma makes_bind {A B} (m : R A) (k : A -> R B) Q Q' D D' :
  makes m Q D -> (forall a, Q a -> makes (k a) Q' D') -> makes (m ≫= k) Q' (d_cat D D').
Proof.
  intros Hm Hk p b p' (a & p1 & [Ha H1]%Hm & H2)%ST_bind_ok. apply (Hk a Ha) in H2 as [Hb H2].
  split; [done|by eapply emitted_trans].
Qed.
Lemma makes_then {A B} (m : R A) (k : R B) Q D D' :
  makes m (fun _ => True) D -> makes k Q D' -> makes (_ ← m; k) Q (d_cat D D').
Proof. intros Hm Hk. eapply makes_bind; [exact Hm|]. by intros ? _. Qed.

(** The answer afterwards. *)
Lemma makes_answer {A B} (m : R A) (b : B) Q D :
  makes m Q D -> makes (_ ← m; mret b) (eq b) D.
Proof. intros Hm p c p' (a & p1 & [_ He]%Hm & [= <- <-])%ST_bind_ok. by split. Qed.

(** ** Instructions *)

(** [p'] is [p] with one more instruction. *)
Record inserted (p p' : HRVMProg) (o : HRVMOp) (a : Z) : Prop := {
  ins_length : pr_length p' = pr_length p + 1;
  ins_keeps : same p' p 0 (pr_length p);
  ins_insn : insn_at p' (pr_length p) o a;
}.

Lemma inserted_at F p p' o a lo hi :
  inserted p p' o a -> same F p' lo hi -> lo <= pr_length p < hi -> insn_at F (pr_length p) o a.
Proof. intros H HF Hhi. eapply same_insn; [exact HF|done|apply H]. Qed.

Lemma insert_insns o a p ip p' :
  h_rvm_insert_insn realloc_ok o a p = Ok (ip, p') ->
  ip = uint16 (pr_length p) /\ inserted p p' o (uint16 a).
Proof.
  unfold h_rvm_insert_insn. intros H. ok_inv.
  destruct (_ <? _); [injection H as <- <-|discriminate H]. split; [done|]. split.
  - unfold pr_length. cbn [pr_insns]. rewrite length_app. simpl. lia.
  - split; [|done]. intros i Hi. cbn [pr_insns]. apply lookup_app_l. unfold pr_length in Hi. lia.
  - split; [apply pr_length_nonneg|]. unfold pr_length. cbn [pr_insns]. rewrite Nat2Z.id.
    by apply list_lookup_middle.
Qed.

Lemma insert_insns_ o a p u p' :
  insert_ realloc_ok o a p = Ok (u, p') -> inserted p p' o (uint16 a).
Proof. unfold insert_. intros (ip & q & H%insert_insns & [= _ <-])%ST_bind_ok. apply H. Qed.

Lemma inserted_grown p p' o a (X : HRVMProg -> Z -> Z -> Prop) :
  inserted p p' o a ->
  (forall F, pr_length p' < 65536 -> pr_actions p' `prefix_of` pr_actions F -> insn_at F (pr_length p) o a ->
    X F (pr_length p) (pr_length p + 1)) ->
  grown p p' X.
Proof.
  intros [Hl Hk Hi] HX. split; [lia|]. intros Hs. split; [done|]. intros F HF. rewrite Hl. apply HX; [done|apply HF|].
  eapply same_insn; [exact HF|lia|done].
Qed.

(** One instruction with the relation [R]. *)
Lemma makes_insert_ o a (R : state -> state -> Prop) D :
  (forall F i, insn_at F i o (uint16 a) -> seg F input i (i + 1) R) -> (forall F, describes F R D) ->
  makes (insert_ realloc_ok o a) (fun _ => True) D.
Proof.
  intros Hseg HR p u p' Hi%insert_insns_. split; [done|]. eapply inserted_grown; [exact Hi|].
  intros F _ _ Hin. exists R. split; [apply HR|by apply Hseg].
Qed.

Abbreviation d_push := (d_do e_push).
Abbreviation d_capture := (d_do (e_capture input)).
Definition d_act (f : HSVMActionFunc) (env : env_ptr) : denot := d_do (e_act store f env).

Lemma makes_push : makes (insert_ realloc_ok RVM_PUSH 0) (fun _ => True) d_push.
Proof. eapply makes_insert_; [intros F i; apply seg_push|]. intros F. by apply describes_record. Qed.
Lemma makes_capture : makes (insert_ realloc_ok RVM_CAPTURE 0) (fun _ => True) d_capture.
Proof. eapply makes_insert_; [intros F i; apply seg_capture|]. intros F. by apply describes_record. Qed.

(** The action at the index [a], when there are not too many. *)
Definition act_at (F : HRVMProg) (a : Z) (f : HSVMActionFunc) (env : env_ptr) : Prop :=
  pr_action_count F <= 65536 -> pr_actions F !! Z.to_nat (uint16 a) = Some (f, env).

Lemma create_action_ok f env p a p' :
  h_rvm_create_action realloc_ok f env p = Ok (a, p') ->
  pr_length p' = pr_length p /\ emitted p p' d_empty /\
  forall F, pr_actions p' `prefix_of` pr_actions F -> act_at F a f env.
Proof.
  intros H. assert (pr_insns p' = pr_insns p /\ pr_actions p `prefix_of` pr_actions p' /\
    exists i, pr_actions p' !! i = Some (f, env) /\ a = uint16 (Z.of_nat i)) as (E & Hpre & i & Hi & ->).
  { unfold h_rvm_create_action in H. destruct (list_find _ _) as [[i x]|] eqn:Ef.
    - injection H as <- <-. apply list_find_Some in Ef as (Hi & Ex & _). split; [done|]. split; [done|].
      exists i. split; [by rewrite Hi, Ex|done].
    - ok_inv. destruct (_ <? _); [injection H as <- <-|discriminate H]. split; [done|].
      split; [by apply prefix_app_r|]. exists (length (pr_actions p)). split; [|done]. by apply list_lookup_middle. }
  split; [unfold pr_length; by rewrite E|]. split; [by apply emitted_empty|]. intros F HF Hsm.
  assert (pr_actions F !! i = Some (f, env)) as HFi by (by eapply prefix_lookup_Some).
  pose proof (lookup_lt_Some _ _ _ HFi). unfold pr_action_count in Hsm.
  rewrite !uint16_small by (rewrite ?uint16_small; lia). by rewrite Nat2Z.id.
Qed.

Lemma emitted_act p p' a f env :
  inserted p p' RVM_ACTION (uint16 a) ->
  (forall F, pr_length p < 65536 -> pr_actions p `prefix_of` pr_actions F -> act_at F a f env) ->
  emitted p p' (d_act f env).
Proof.
  intros Hi Ha. eapply inserted_grown; [exact Hi|]. intros F Hs HF Hin. pose proof (ins_length _ _ _ _ Hi) as Hl. eexists. split; [|by eapply seg_action].
  apply describes_record. intros Hsm x s. unfold svm_step. cbn [tr_opcode tr_arg]. rewrite Ha; [done|lia| |done].
  destruct Hi as [_ [_ Hk] _]. by etrans.
Qed.

Lemma makes_action f env : makes (insert_action realloc_ok f env) (fun _ => True) (d_act f env).
Proof.
  intros p u p' (a & q & (Hl & Hq & Ha)%create_action_ok & Hi%insert_insns_)%ST_bind_ok. split; [done|].
  eapply grown_then; [exact Hq|eapply emitted_act; [exact Hi|by intros F _; apply Ha]|]. intros F _. by rewrite Hl.
Qed.

(** ** Bytes *)

(** A MATCH of the bytes from [lo] to [hi]. *)
Lemma match_bounds lo hi :
  0 <= lo < 256 -> 0 <= hi < 256 ->
  let a := uint16 (Z.lor lo (Z.shiftl hi 8)) in Z.land a 255 = lo /\ Z.land (Z.shiftr a 8) 255 = hi.
Proof.
  intros Hlo Hhi. cbv zeta. assert (Z.lor lo (Z.shiftl hi 8) = lo + hi * 256) as ->.
  { rewrite Z.lor_comm, (lor_shiftl_add hi lo 8) by lia. lia. }
  rewrite uint16_small by lia. change 255 with (2 ^ 8 - 1). rewrite !land_ones_mod, Z.shiftr_div_pow2 by lia.
  change (2 ^ 8) with 256. split; [rewrite Z.mod_add by lia; apply Z.mod_small; lia|].
  rewrite Z.div_add, Z.div_small, Z.add_0_l by lia. apply Z.mod_small. lia.
Qed.

(** The bytes that a MATCH lets through. *)
Definition matched (a c : Z) : Prop := Z.land a 255 <= c <= Z.land (Z.shiftr a 8) 255.

Lemma matched_range lo hi c :
  0 <= lo < 256 -> 0 <= hi < 256 -> matched (uint16 (Z.lor lo (Z.shiftl hi 8))) c <-> lo <= c <= hi.
Proof. intros Hlo Hhi. unfold matched. by destruct (match_bounds lo hi Hlo Hhi) as [-> ->]. Qed.

Lemma makes_assoc {A B C} (m : R A) (k : A -> R B) (h : B -> R C) Q D :
  makes ((m ≫= k) ≫= h) Q D -> makes (m ≫= fun a => k a ≫= h) Q D.
Proof.
  intros Hm p c p' H. apply (Hm p). unfold mbind, ST_bind in *. by destruct (m p) as [[a p1]| |].
Qed.

Lemma inserted_at_lo p p' o a :
  inserted p p' o a -> grown p p' (fun F lo hi => hi = lo + 1 /\ insn_at F lo o a).
Proof. intros H. by eapply inserted_grown. Qed.

(** MATCH and STEP read a byte. *)
Lemma makes_byte a P :
  (forall c, 0 <= c < 256 -> matched (uint16 a) c <-> P c) ->
  makes (_ ← insert_ realloc_ok RVM_MATCH a; insert_ realloc_ok RVM_STEP 0) (fun _ => True) (d_char P).
Proof.
  intros HP p b p' ([] & p1 & H1%insert_insns_ & H2%insert_insns_)%ST_bind_ok. split; [done|].
  eapply grown_then; [by apply inserted_at_lo|by apply inserted_at_lo|]. intros F [-> HM] [-> HS].
  exists (fun x y => matched (uint16 a) (cur input x.1) /\ y = (x.1 + 1, x.2)). split.
  - apply describes_char. intros x c Hc Hx. rewrite (cur_lookup input x c Hc Hx). apply HP.
    exact (proj1 (Forall_lookup _ _) Hbytes _ _ Hc).
  - eapply (seg_eq F input); [|eapply (seg_seq F input); [by apply seg_match|by eapply seg_step]].
    intros x y. split; [intros (z & [-> Hm] & ->); by split|]. intros [Hm ->]. by exists x.
Qed.

Lemma makes_byte_then {A} a P (k : R A) Q D :
  (forall c, 0 <= c < 256 -> matched (uint16 a) c <-> P c) -> makes k Q D ->
  makes (_ ← insert_ realloc_ok RVM_MATCH a; _ ← insert_ realloc_ok RVM_STEP 0; k) Q (d_cat (d_char P) D).
Proof.
  intros HP Hk. apply (makes_assoc _ (fun _ => insert_ realloc_ok RVM_STEP 0) (fun _ => k)).
  apply makes_then; [by apply makes_byte|done].
Qed.

(** The end of a function: an action and the answer. *)
Lemma makes_finish f env : makes (_ ← insert_action realloc_ok f env; mret true) (eq true) (d_act f env).
Proof. eapply makes_answer, makes_action. Qed.

(** ** The primitive parsers *)

Ltac lang_units := cbn [dl d_cat d_do d_act d_empty]; rewrite ?l_cat_empty_l, ?l_cat_empty_r.

(** A mark, code, and an action; a mark, bytes, a capture, and an action. *)
Lemma wrapped_le D f env :
  d_cat d_push (d_cat D (d_act f env)) ⊑ᵈ mkD (dl D) (wrapped store (de D) f env).
Proof. split; [by lang_units|done]. Qed.
Lemma captured_le D f env :
  d_cat d_push (d_cat D (d_cat d_capture (d_act f env)))
    ⊑ᵈ mkD (dl D) (e_cat e_push (e_cat (de D) (e_cat (e_capture input) (e_act store f env)))).
Proof. split; [by lang_units|done]. Qed.

Lemma makes_repeat k m D : makes m (fun _ => True) D -> makes (repeat_m k m) (fun _ => True) (d_cats (replicate k D)).
Proof. intros Hm. induction k as [|k IH]; simpl; [by apply makes_ret|]. by apply makes_then. Qed.

Lemma bits_makes e self :
  makes (bits_ctrvm realloc_ok e self) (eq true)
    (mkD (l_cats (replicate (Z.to_nat (be_length e / 8)) (l_char any_byte)))
       (bytes_effect store input (Z.to_nat (be_length e / 8)) h_svm_action_bits (E_env self))).
Proof.
  eapply makes_le; [|apply makes_then; [apply makes_push|apply makes_then;
    [apply makes_repeat, (makes_byte _ any_byte)|apply makes_then; [apply makes_capture|apply makes_finish]]]].
  - etrans; [apply captured_le|]. rewrite dl_cats, de_cats, !fmap_replicate. done.
  - intros c Hc. rewrite uint16_small by lia. unfold matched, any_byte.
    change (Z.land 65280 255) with 0. change (Z.land (Z.shiftr 65280 8) 255) with 255. lia.
Qed.

(** A single byte. *)
Lemma read_one x s y r : e_read x s y r -> e_cats (replicate 1 e_read) x s y r.
Proof. intros [-> ->]. exists (x + 1). split; [lia|]. right. by exists s. Qed.

Lemma byte_le P f env :
  d_cat d_push (d_cat (d_char P) (d_cat d_capture (d_act f env))) ⊑ᵈ mkD (l_char P) (bytes_effect store input 1 f env).
Proof.
  etrans; [apply captured_le|]. split; [done|]. intros x s y r. apply e_cat_mono; [done|].
  clear. intros x s y r. apply e_cat_mono; [|done]. apply read_one.
Qed.

Lemma ch_makes c :
  makes (ch_ctrvm realloc_ok c) (eq true)
    (mkD (l_char (fun x => x = uint8 c)) (bytes_effect store input 1 h_svm_action_ch (E_chr c))).
Proof.
  eapply makes_le; [apply byte_le|]. apply makes_then; [apply makes_push|]. apply makes_byte_then.
  - intros x Hx. pose proof (wrapu_range 8 c). rewrite matched_range by lia. lia.
  - apply makes_then; [apply makes_capture|apply makes_finish].
Qed.

Definition token_denot (str : list Z) : denot := d_cats ((fun c => d_char (fun x => x = c)) <$> str).

Lemma token_insns_makes str :
  Forall (fun c => 0 <= c < 256) str -> makes (token_insns realloc_ok str) (fun _ => True) (token_denot str).
Proof.
  induction 1 as [|c str Hc _ IH]; cbn [token_insns]; [by apply makes_ret|].
  apply (makes_byte_then _ (fun x => x = c)); [|exact IH]. intros x Hx. rewrite matched_range by lia. lia.
Qed.

Lemma token_denot_le str :
  token_denot str ⊑ᵈ mkD (fun w => w = Sym <$> str) (e_cats (replicate (length str) e_read)).
Proof.
  assert (de (token_denot str) = e_cats (replicate (length str) e_read)) as E.
  { induction str as [|c str IH]; [done|]. cbn [token_denot fmap list_fmap d_cats d_cat de length replicate e_cats] in *.
    by f_equal. }
  split; [clear E|intros x s y r; by rewrite E].
  induction str as [|c str IH]; [done|]. cbn [dl token_denot d_cats d_cat fmap list_fmap] in *.
  etrans; [apply l_cat_proper; [done|exact IH]|]. intros w.
  split; [intros (u & v & -> & (x & -> & ->) & ->); done|]. intros ->.
  exists [Sym c], (Sym <$> str). split_and!; [done|by exists c|done].
Qed.

Lemma token_makes t :
  Forall (fun c => 0 <= c < 256) (tk_str t) ->
  let str := take (Z.to_nat (tk_len t)) (tk_str t) in
  makes (token_ctrvm realloc_ok t) (eq true)
    (mkD (fun w => w = Sym <$> str) (e_cat e_push (e_cat (e_cats (replicate (length str) e_read)) (e_capture input)))).
Proof.
  intros Ht str. eapply makes_le; [|apply makes_then; [apply makes_push|apply makes_then;
    [by apply token_insns_makes, Forall_take|eapply makes_answer, makes_capture]]].
  etrans; [apply d_cat_le; [done|apply d_cat_le; [apply token_denot_le|done]]|]. split; [by lang_units|done].
Qed.

Lemma end_makes : makes (end_ctrvm realloc_ok) (eq true) d_end.
Proof. eapply makes_answer, makes_insert_; [intros F i; apply seg_eof|]. intros F. apply describes_end. Qed.

Lemma nothing_makes : makes (nothing_ctrvm realloc_ok) (eq true) d_none.
Proof.
  intros p b p' (? & q & H1%insert_insns_ & (? & q' & H2%insert_insns_ & [= <- <-])%ST_bind_ok)%ST_bind_ok.
  split; [done|]. eapply grown_then; [by apply inserted_at_lo|by apply inserted_at_lo|]. intros F [-> HM1] [-> HM2].
  eexists. split; [|eapply (seg_seq F input); [by apply seg_match|by apply seg_match]].
  apply describes_none. intros off off' (z & [-> Hc] & [_ Hc']).
  change (Z.land (uint16 0) 255) with 0 in Hc. change (Z.land (Z.shiftr (uint16 0) 8) 255) with 0 in Hc.
  change (Z.land (uint16 65535) 255) with 255 in Hc'. lia.
Qed.

(** ** Jumps *)

Lemma patch_insns ip v p u p' :
  h_rvm_patch_arg ip v p = Ok (u, p') -> 0 <= ip ->
  pr_length p' = pr_length p /\
  (forall lo hi, 0 <= lo -> hi <= ip \/ ip < lo -> same p' p lo hi) /\
  (forall o a, insn_at p ip o a -> insn_at p' ip o v).
Proof.
  unfold h_rvm_patch_arg. intros H Hip. ok_inv. injection H as _ <-. split_and!.
  - unfold pr_length. cbn [pr_insns]. by rewrite length_alter.
  - intros lo hi Hlo Hip'. split; [|done]. intros i Hi. cbn [pr_insns]. apply list_lookup_alter_ne. lia.
  - intros o a [_ Ha]. split; [done|]. cbn [pr_insns]. by rewrite list_lookup_alter_eq, Ha.
Qed.

(** An instruction, code of [X], and a patch of the instruction. *)
Record patched (p q' : HRVMProg) (o : HRVMOp) (v : Z) (X : HRVMProg -> Z -> Z -> Prop) : Prop := {
  pt_keeps : same q' p 0 (pr_length p);
  pt_insn : forall F hi, same F q' (pr_length p) hi -> pr_length p < hi -> insn_at F (pr_length p) o v;
  pt_code : forall F, same F q' (pr_length p + 1) (pr_length q') -> X F (pr_length p + 1) (pr_length q');
}.

Lemma patched_ok p p1 q q' o a v u X :
  inserted p p1 o a -> grown p1 q X -> h_rvm_patch_arg (uint16 (pr_length p)) v q = Ok (u, q') ->
  pr_length q' = pr_length q /\ pr_length p < pr_length q /\ (pr_length q < 65536 -> patched p q' o v X).
Proof.
  intros [Hl Hk Hi] [Hle Ha] H. pose proof (pr_length_nonneg p). pose proof (uint16_le (pr_length p)).
  destruct (patch_insns _ _ _ _ _ H) as (Hl' & Hs & Hat); [lia|]. split; [done|]. split; [lia|]. intros Hsm.
  destruct (Ha Hsm) as [Hk' Hc]. rewrite uint16_small in Hs, Hat by lia. rewrite Hl in *. split.
  - eapply same_trans; [apply Hs; lia|]. eapply same_trans; [|exact Hk]. eapply same_sub; [exact Hk'|lia..].
  - intros F hi HF Hhi. eapply same_insn; [exact HF|lia|]. eapply Hat. eapply same_insn; [exact Hk'|lia|done].
  - rewrite Hl'. intros F HF. apply Hc. eapply same_trans; [exact HF|]. apply Hs; lia.
Qed.

(** [fork end; L; end:] *)
Lemma emitted_opt p p1 q q' a u D :
  inserted p p1 RVM_FORK a -> emitted p1 q D ->
  h_rvm_patch_arg (uint16 (pr_length p)) (uint16 (pr_length q)) q = Ok (u, q') ->
  emitted p q' (d_or D d_empty).
Proof.
  intros Hi Hg H. destruct (patched_ok _ _ _ _ _ _ _ _ _ Hi Hg H) as (Hl & Hlt & Hp). split; [lia|].
  intros Hs. destruct Hp as [Hk Hf Hc]; [lia|]. split; [done|]. intros F HF. rewrite Hl in *.
  pose proof (pr_length_nonneg q). destruct (Hc F) as (R & HR & Hseg); [eapply same_sub; [exact HF|lia..]|].
  specialize (Hf F _ HF Hlt). rewrite uint16_small in Hf by lia.
  exists (r_or R eq). split; [by apply describes_or, describes_nil|].
  eapply seg_opt; [exact Hf|done].
Qed.

(** [goto mid; nxt: S; mid: P; fork nxt] *)
Lemma emitted_loop p p1 q q' r r' a u S P :
  inserted p p1 RVM_GOTO a -> emitted p1 q S ->
  h_rvm_patch_arg (uint16 (pr_length p)) (uint16 (pr_length q)) q = Ok (u, q') ->
  emitted q' r P -> inserted r r' RVM_FORK (uint16 (uint16 (pr_length p1))) ->
  emitted p r' (d_cat P (d_star (d_cat S P))).
Proof.
  intros Hi HgS H [Hle HgP] [Hl' Hk' Hi']. destruct (patched_ok _ _ _ _ _ _ _ _ _ Hi HgS H) as (Hl & Hlt & Hp).
  pose proof (ins_length _ _ _ _ Hi) as Hl1. pose proof (pr_length_nonneg p). split; [lia|]. intros Hs.
  destruct Hp as [Hk Hg HcS]; [lia|]. destruct HgP as [Hkr HcP]; [lia|]. split.
  - eapply same_trans; [eapply same_sub; [exact Hk'|lia..]|].
    eapply same_trans; [eapply same_sub; [exact Hkr|lia..]|done].
  - intros F HF. rewrite !(uint16_small (pr_length p1)) in Hi' by lia. rewrite Hl1 in *.
    assert (same F r (pr_length p) (pr_length r)) as HFr.
    { eapply same_trans; [eapply same_sub; [exact HF|lia..]|]. eapply same_sub; [exact Hk'|lia..]. }
    assert (same F q' (pr_length p) (pr_length q')) as HFq.
    { eapply same_trans; [eapply same_sub; [exact HFr|lia..]|]. eapply same_sub; [exact Hkr|lia..]. }
    destruct (HcS F) as (RS & HRS & HsS); [eapply same_sub; [exact HFq|lia..]|].
    destruct (HcP F) as (RP & HRP & HsP); [eapply same_sub; [exact HFr|lia..]|].
    specialize (Hg F _ HFq ltac:(lia)). rewrite uint16_small in Hg by lia. rewrite <- Hl, Hl' in *.
    exists (r_comp RP (rtc (r_comp RS RP))).
    split; [by apply describes_comp, describes_star, describes_comp|].
    eapply seg_loop; [exact Hg|done|done|]. eapply same_insn; [exact HF|lia|done].
Qed.

(** [fork next; X; goto x; next:] The final goto may be patched later on. *)
Record block (p q' : HRVMProg) (x : Z) (X : HRVMProg -> Z -> Z -> Prop) (g : Z) : Prop := {
  bl_length : pr_length q' = g + 1;
  bl_keeps : same q' p 0 (pr_length p);
  bl_goto : insn_at q' g RVM_GOTO x;
  bl_fork : forall F, same F q' (pr_length p) g -> insn_at F (pr_length p) RVM_FORK (g + 1);
  bl_code : forall F, same F q' (pr_length p) g -> X F (pr_length p + 1) g;
}.

Lemma block_ok p p1 q q1 q' a x u X :
  inserted p p1 RVM_FORK a -> grown p1 q X -> inserted q q1 RVM_GOTO x ->
  h_rvm_patch_arg (uint16 (pr_length p)) (uint16 (pr_length q1)) q1 = Ok (u, q') ->
  pr_length p < pr_length q /\ pr_length q' = pr_length q + 1 /\
  (pr_length q' < 65536 -> block p q' x X (pr_length q)).
Proof.
  intros Hi [Hle Ha] [Hlg Hkg Hg] H. pose proof (ins_length _ _ _ _ Hi) as Hl1. pose proof (pr_length_nonneg p).
  assert (grown p1 q1 (fun F lo hi => X F lo (pr_length q) /\ insn_at F (pr_length q) RVM_GOTO x)) as Hgr.
  { split; [lia|]. intros Hs. destruct (Ha ltac:(lia)) as [Hk Hc]. split.
    - eapply same_trans; [eapply same_sub; [exact Hkg|lia..]|done].
    - intros F HF. split; [apply Hc; eapply same_trans; [eapply same_sub; [exact HF|lia..]|eapply same_sub; [exact Hkg|lia..]]|].
      eapply same_insn; [exact HF|lia|done]. }
  destruct (patched_ok _ _ _ _ _ _ _ _ _ Hi Hgr H) as (Hl & Hlt & Hp). split; [lia|]. split; [lia|]. intros Hs.
  destruct Hp as [Hk Hf Hc]; [lia|]. destruct (Hc q' (same_refl _ _ _)) as [_ Hgoto]. split; [lia|done|done|..].
  - intros F HF. rewrite <- Hlg, <- (uint16_small (pr_length q1)) by lia. eapply Hf; [exact HF|lia].
  - intros F HF. (* the patch did not touch X *)
    destruct (Ha ltac:(lia)) as [Hk1 Hc1]. rewrite <- Hl1. apply Hc1.
    destruct (patch_insns _ _ _ _ _ H) as (_ & Hsame & _); [apply uint16_le; lia|]. rewrite uint16_small in Hsame by lia.
    eapply same_trans; [eapply same_sub; [exact HF|lia..]|]. eapply same_trans; [apply Hsame; lia|].
    eapply same_sub; [exact Hkg|lia..].
Qed.

(** ** Alternatives

    [gs] are the gotos that are patched at the end: once they lead to [e], code
    of [Y] up to there makes the whole code of [Z]. *)
Definition agrees (F p : HRVMProg) (lo hi : Z) (gs : list Z) : Prop :=
  (forall i, lo <= i < hi -> i ∉ gs -> pr_insns F !! Z.to_nat i = pr_insns p !! Z.to_nat i) /\
  pr_actions p `prefix_of` pr_actions F.
Definition all_goto (F : HRVMProg) (e : Z) (gs : list Z) : Prop := forall g, g ∈ gs -> insn_at F g RVM_GOTO e.

Record pending (p p' : HRVMProg) (gs : list Z) (Y Z : HRVMProg -> Z -> Z -> Prop) : Prop := {
  pe_keeps : same p' p 0 (pr_length p);
  pe_gotos : forall g, g ∈ gs -> pr_length p <= g < pr_length p' /\ exists x, insn_at p' g RVM_GOTO x;
  pe_code : forall F e, agrees F p' (pr_length p) (pr_length p') gs -> all_goto F e gs ->
    Y F (pr_length p') e -> Z F (pr_length p) e;
}.
Record alts (p p' : HRVMProg) (gs : list Z) (Y Z : HRVMProg -> Z -> Z -> Prop) : Prop := {
  al_le : pr_length p <= pr_length p';
  al_pending : pr_length p' < 65536 -> pending p p' gs Y Z;
}.

Lemma alts_nil p Y : alts p p [] Y Y.
Proof. split; [done|]. intros _. split; [apply same_refl|by intros g ?%elem_of_nil|done]. Qed.

Lemma alts_weaken p p' gs Y Z1 Z2 :
  alts p p' gs Y Z1 -> (forall F lo hi, Z1 F lo hi -> Z2 F lo hi) -> alts p p' gs Y Z2.
Proof.
  intros [Hle Hp] HZ. split; [done|]. intros Hs. destruct (Hp Hs) as [Hk Hg Hc]. split; [done..|].
  intros F e HF Hgo HY. by apply HZ, Hc.
Qed.

Lemma alts_cons p q p' x X g gs Y Z1 Z2 :
  pr_length p < g -> pr_length q = g + 1 -> (pr_length q < 65536 -> block p q x X g) -> alts q p' gs Y Z1 ->
  (forall F e, insn_at F (pr_length p) RVM_FORK (g + 1) -> X F (pr_length p + 1) g -> insn_at F g RVM_GOTO e ->
     Z1 F (g + 1) e -> Z2 F (pr_length p) e) ->
  alts p p' (uint16 g :: gs) Y Z2.
Proof.
  intros Hlt Hlq Hb [Hle Hp] HZ. pose proof (pr_length_nonneg p). split; [lia|]. intros Hs.
  destruct (Hb ltac:(lia)) as [_ Hk Hgt Hf Hc]. destruct (Hp Hs) as [Hk' Hg' Hc']. rewrite uint16_small by lia. split.
  - eapply same_trans; [eapply same_sub; [exact Hk'|lia..]|done].
  - intros y [->|[Hy Hx]%Hg']%elem_of_cons; [|split; [lia|done]]. split; [lia|]. exists x.
    eapply same_insn; [exact Hk'|lia|done].
  - intros F e HF Hgo HY.
    assert (same F q (pr_length p) g) as HFq.
    { eapply same_trans; [|eapply same_sub; [exact Hk'|lia..]]. split; [|apply HF]. intros i Hi. apply HF; [lia|].
      rewrite elem_of_cons. intros [->|[Hy _]%Hg']; lia. }
    apply HZ; [by apply Hf|by apply Hc|apply Hgo; by left|]. rewrite <- Hlq. apply Hc'; [..|done].
    + split; [|apply HF]. intros i Hi Hn. apply HF; [lia|]. rewrite elem_of_cons. intros [->|?]; [lia|done].
    + intros y Hy. apply Hgo. by right.
Qed.

(** The gotos are patched to lead past a last instruction. *)
Lemma alts_close p p' p1 p2 gs Y (Z : HRVMProg -> Z -> Z -> Prop) o a :
  alts p p' gs Y Z -> inserted p' p1 o a ->
  (forall F, insn_at F (pr_length p') o a -> Y F (pr_length p') (pr_length p1)) ->
  (pr_length p1 < 65536 -> agrees p2 p1 0 (pr_length p1) gs /\
     ((forall g, g ∈ gs -> exists x, insn_at p1 g RVM_GOTO x) -> all_goto p2 (pr_length p1) gs)) ->
  pr_length p1 < 65536 ->
  same p2 p 0 (pr_length p) /\
  forall F, same F p2 (pr_length p) (pr_length p1) -> Z F (pr_length p) (pr_length p1).
Proof.
  intros [Hle Hp] [Hl Hk Hi] HY H2 Hs. destruct (Hp ltac:(lia)) as [Hk' Hg Hc]. destruct (H2 Hs) as [Ha Hgo].
  pose proof (pr_length_nonneg p). assert (all_goto p2 (pr_length p1) gs) as Hgo2.
  { apply Hgo. intros g [Hg1 [x Hx]]%Hg. exists x. eapply same_insn; [exact Hk|lia|done]. }
  assert (forall i, i ∈ gs -> pr_length p <= i < pr_length p') as Hin by (intros i Hi'; by apply Hg). split.
  - split; [|etrans; [apply Hk'|etrans; [apply Hk|apply Ha]]].
    intros i Hii. assert (i ∉ gs) by (intros Hi'%Hin; lia). rewrite (proj1 Ha), (proj1 Hk), (proj1 Hk') by (lia || done). done.
  - intros F HF. apply Hc.
    + split; [|etrans; [apply Hk|etrans; [apply Ha|apply HF]]].
      intros i Hii Hn. rewrite (proj1 HF), (proj1 Ha), (proj1 Hk) by (lia || done). done.
    + intros g Hgg. eapply same_insn; [exact HF|specialize (Hin g Hgg); lia|by apply Hgo2].
    + apply HY. eapply same_insn; [exact HF|lia|]. destruct Hi as [Hi0 Hi]. split; [done|].
      assert (pr_length p' ∉ gs) by (intros Hi'%Hin; lia). by rewrite (proj1 Ha) by (lia || done).
Qed.

Lemma patch_all_insns gs e p u p' :
  patch_all gs e p = Ok (u, p') -> Forall (fun g => 0 <= g) gs ->
  pr_length p' = pr_length p /\ agrees p' p 0 (pr_length p) gs /\
  ((forall g, g ∈ gs -> exists x, insn_at p g RVM_GOTO x) -> all_goto p' e gs).
Proof.
  revert p. induction gs as [|g gs IH]; intros p H Hg.
  { injection H as _ <-. split; [done|]. split; [done|by intros _ g ?%elem_of_nil]. }
  apply ST_bind_ok in H as (? & q & H1 & H2). apply Forall_cons_1 in Hg as [Hg0 Hg].
  destruct (patch_insns _ _ _ _ _ H1 Hg0) as (Hl & Hs & Hat). destruct (IH _ H2 Hg) as (Hl' & Ha & Hgo).
  split; [lia|]. assert (forall i, 0 <= i -> i <> g -> pr_insns q !! Z.to_nat i = pr_insns p !! Z.to_nat i) as Hne.
  { intros i Hi Hig. apply (proj1 (Hs i (i + 1) ltac:(lia) ltac:(lia))). lia. }
  split.
  - split; [|etrans; [apply (Hs 0 0); lia|apply Ha]].
    intros i Hi [Hig Hin]%not_elem_of_cons. rewrite (proj1 Ha) by (rewrite ?Hl; done). apply Hne; [lia|done].
  - intros Hx. assert (insn_at q g RVM_GOTO e) as Hq by (destruct (Hx g) as [a Hga]; [by left|by eapply Hat]).
    assert (all_goto p' e gs) as Hall.
    { apply Hgo. intros y Hy. destruct (decide (y = g)) as [->|Hyg]; [by exists e|].
      destruct (Hx y) as [a [Hy0 Hya]]; [by right|]. exists a. split; [done|]. by rewrite Hne. }
    intros y [->|Hy]%elem_of_cons; [|by apply Hall]. destruct (decide (g ∈ gs)); [by apply Hall|].
    destruct Hq as [_ Hq]. split; [done|]. rewrite (proj1 Ha); [done| |done]. split; [done|].
    apply lookup_lt_Some in Hq. unfold pr_length in *. lia.
Qed.

(** No byte is 255 or more and 0 or less. *)
Lemma seg_never F i : insn_at F i RVM_MATCH (uint16 255) -> seg F input i (i + 1) (fun _ _ => False).
Proof.
  intros Hi. eapply seg_eq; [|by apply seg_match]. intros x y. cbv beta. change (Z.land (uint16 255) 255) with 255.
  change (Z.land (Z.shiftr (uint16 255) 8) 255) with 0. split; [lia|done].
Qed.

(** ** Character sets *)

(** The alternatives look at a byte. *)
Definition looks (P : Z -> Prop) (F : HRVMProg) (lo hi : Z) : Prop :=
  seg F input lo hi (fun x y => y = x /\ P (cur input x.1)).
(** The gotos of the code are those that are to be patched. *)
Definition gotos_of (p p' : HRVMProg) (gs : list Z) : Prop :=
  forall j x, pr_length p <= j < pr_length p' -> insn_at p' j RVM_GOTO x -> j ∈ gs.

(** The bytes from position [i] on, with the open range. *)
Definition cs_from (cs : HCharset) (collecting : option Z) (i v : Z) : Prop :=
  (exists r, collecting = Some r /\ r <= v < i) \/ (i <= v < 256 /\ charset_isset cs v = Ok true).

Lemma cs_from_set cs collecting i v :
  (forall r, collecting = Some r -> r < i) -> i < 256 -> charset_isset cs i = Ok true ->
  cs_from cs (match collecting with None => Some i | c => c end) (i + 1) v <-> cs_from cs collecting i v.
Proof.
  intros Hcol Hi Hset. unfold cs_from. split.
  - intros [(r & E & Hr)|[Hv Hs]]; [|right; split; [lia|done]]. destruct collecting as [c|]; injection E as <-.
    + destruct (decide (v = i)) as [->|]; [right; split; [lia|done]|left; exists c; split; [done|lia]].
    + assert (v = i) as -> by lia. right. split; [lia|done].
  - intros [(r & -> & Hr)|[Hv Hs]]; [left; exists r; split; [done|lia]|].
    destruct (decide (v = i)) as [Ev|]; [|right; split; [lia|done]]. left.
    destruct collecting as [c|]; eexists; (split; [done|]); [specialize (Hcol c eq_refl)|]; lia.
Qed.

(** [i] is not in the set, or behind it. *)
Lemma cs_from_unset cs i v :
  ~ (i < 256 /\ charset_isset cs i = Ok true) -> cs_from cs None (i + 1) v <-> cs_from cs None i v.
Proof.
  intros Hn. unfold cs_from. split; (intros [(? & [=] & _)|[Hv Hs]]; right; split; [|done]); [lia|].
  destruct (decide (v = i)) as [->|]; [|lia]. destruct Hn. split; [lia|done].
Qed.

Lemma cs_from_close cs r i v :
  ~ (i < 256 /\ charset_isset cs i = Ok true) ->
  r <= v <= i - 1 \/ cs_from cs None (i + 1) v <-> cs_from cs (Some r) i v.
Proof.
  intros Hn. rewrite cs_from_unset by done. unfold cs_from. split.
  - intros [Hv|[(? & [=] & _)|Hv]]; [left; exists r; split; [done|lia]|by right].
  - intros [(? & [= <-] & Hv)|Hv]; [left; lia|]. right. by right.
Qed.

(** One range: a fork, a look, and a goto. *)
Lemma cs_block lo hi (k : R unit) p u p' :
  0 <= lo < 256 -> 0 <= hi < 256 ->
  (insn ← h_rvm_insert_insn realloc_ok RVM_FORK 0;
   _ ← insert_ realloc_ok RVM_MATCH (Z.lor lo (Z.shiftl hi 8));
   _ ← insert_ realloc_ok RVM_GOTO 0;
   ip ← h_rvm_get_ip;
   _ ← h_rvm_patch_arg insn ip; k) p = Ok (u, p') ->
  exists q, pr_length q = pr_length p + 3 /\ k q = Ok (u, p') /\
    (pr_length q < 65536 -> block p q 0 (looks (fun v => lo <= v <= hi)) (pr_length p + 2) /\
       gotos_of p q [pr_length p + 2]).
Proof.
  intros Hlo Hhi H.
  apply ST_bind_ok in H as (insn & p1 & [-> H1]%insert_insns & H).
  apply ST_bind_ok in H as (? & p2 & H2%insert_insns_ & H). apply ST_bind_ok in H as (? & p3 & H3%insert_insns_ & H).
  apply ST_bind_ok in H as (ip & q3 & [= <- <-] & H). apply ST_bind_ok in H as (? & p4 & H4 & H).
  assert (grown p1 p2 (looks (fun v => lo <= v <= hi))) as Hg.
  { eapply inserted_grown; [exact H2|]. intros F _ _ Hi. eapply seg_eq; [|by apply seg_match].
    intros st st'. cbv beta. change (st' = st /\ matched (uint16 (Z.lor lo (Z.shiftl hi 8))) (cur input st.1) <->
      st' = st /\ lo <= cur input st.1 <= hi). by rewrite matched_range. }
  destruct (block_ok _ _ _ _ _ _ _ _ _ H1 Hg H3 H4) as (_ & Hl & Hb).
  pose proof (ins_length _ _ _ _ H1) as Hl1. pose proof (ins_length _ _ _ _ H2) as Hl2.
  exists p4. split; [lia|]. split; [done|]. intros Hs. replace (pr_length p + 2) with (pr_length p2) by lia.
  specialize (Hb Hs). split; [exact Hb|]. intros j c Hj Hx. apply list_elem_of_singleton.
  destruct (decide (j = pr_length p2)) as [|Hne]; [done|]. exfalso. pose proof (pr_length_nonneg p).
  destruct Hb as [_ _ _ Hf _]. specialize (Hf p4 (same_refl _ _ _)).
  destruct (decide (j = pr_length p)) as [->|Hnp]; [by destruct (insn_at_eq _ _ _ _ _ _ Hf Hx)|].
  destruct (patch_insns _ _ _ _ _ H4) as (_ & Hsame & _); [apply uint16_le; lia|].
  pose proof (ins_length _ _ _ _ H3) as Hl3. rewrite uint16_small in Hsame by lia.
  assert (insn_at p4 j RVM_MATCH (uint16 (Z.lor lo (Z.shiftl hi 8)))) as Hm.
  { replace j with (pr_length p1) by lia. eapply same_insn; [apply (Hsame (pr_length p + 1) (pr_length p3)); lia|lia|].
    eapply same_insn; [apply H3|lia|apply H2]. }
  by destruct (insn_at_eq _ _ _ _ _ _ Hm Hx).
Qed.

(** The position [i] is in the set. *)
Definition at_set (cs : HCharset) (i : nat) : Prop := Z.of_nat i < 256 /\ charset_isset cs (Z.of_nat i) = Ok true.

Lemma cs_test cs i p b q :
  ((if Z.of_nat i <? 256 then lift (charset_isset cs (Z.of_nat i)) else mret false) : R bool) p = Ok (b, q) ->
  q = p /\ (b = true <-> at_set cs i).
Proof.
  unfold at_set. destruct (Z.ltb_spec (Z.of_nat i) 256) as [Hlt|Hge]; intros H.
  - apply lift_ok in H as [H ->]. split; [done|]. rewrite H. split; [intros ->; done|by intros [_ [= ->]]].
  - injection H as <- <-. split; [done|]. split; [done|lia].
Qed.

Lemma looks_weaken P Q F lo hi : (forall v, P v <-> Q v) -> looks P F lo hi -> looks Q F lo hi.
Proof. intros HPQ. apply seg_eq. intros off off'. by rewrite HPQ. Qed.

(** A range and what comes after it. *)
Lemma cs_cons p q p' P Q T gs u :
  pr_length q = pr_length p + 3 ->
  (pr_length q < 65536 -> block p q 0 (looks P) (pr_length p + 2) /\ gotos_of p q [pr_length p + 2]) ->
  alts q p' gs u (looks Q) -> (pr_length p' < 65536 -> gotos_of q p' gs) -> (forall v, P v \/ Q v <-> T v) ->
  alts p p' (uint16 (pr_length p + 2) :: gs) u (looks T) /\
  (pr_length p' < 65536 -> gotos_of p p' (uint16 (pr_length p + 2) :: gs)).
Proof.
  intros Hl Hb Ha Hg HT. split.
  - eapply (alts_cons p q); [lia|lia|intros Hs; exact (proj1 (Hb Hs))|exact Ha|].
    intros F e Hf HX Hgo HZ. eapply seg_eq; [|by eapply seg_choice].
    intros off off'. unfold r_or. rewrite <- HT. tauto.
  - intros Hs j a Hj [Hj0 Ha']. pose proof (al_le _ _ _ _ _ Ha). pose proof (pr_length_nonneg p).
    rewrite uint16_small by lia. destruct (decide (pr_length q <= j)) as [|Hlt].
    { right. apply (Hg Hs j a); [lia|done]. }
    destruct (Hb ltac:(lia)) as [_ Hgq]. destruct (al_pending _ _ _ _ _ Ha Hs) as [Hk _ _].
    assert (j ∈ [pr_length p + 2]) as ->%list_elem_of_singleton; [|by left]. apply (Hgq j a); [lia|].
    split; [done|]. by rewrite <- (proj1 Hk) by lia.
Qed.

Lemma cs_ranges_alts cs n i collecting p u p' :
  (forall r, collecting = Some r -> 0 <= r < Z.of_nat i /\ (i <= 256)%nat) -> (i + n = 257)%nat ->
  cs_ranges realloc_ok cs (Z.of_nat <$> seq i n) collecting p = Ok (u, p') ->
  exists gs, Forall (fun g => 0 <= g) gs /\
    alts p p' gs (looks (fun _ => False)) (looks (cs_from cs collecting (Z.of_nat i))) /\
    (pr_length p' < 65536 -> gotos_of p p' gs).
Proof.
  revert i collecting p. induction n as [|n IH]; intros i collecting p Hcol Hn H.
  { injection H as _ <-. exists []. split; [done|]. split; [|intros _ j a Hj; lia].
    eapply alts_weaken; [apply alts_nil|]. intros F lo hi. apply looks_weaken. intros v. split; [done|].
    intros [(r & E & _)|[Hr _]]; [destruct (Hcol r E); lia|lia]. }
  cbn [seq fmap list_fmap cs_ranges] in H. apply ST_bind_ok in H as (b & q & [-> Hb]%cs_test & H).
  specialize (IH (S i)). rewrite Nat2Z.inj_succ in IH. fold (Z.of_nat <$> seq (S i) n) in H. destruct b.
  - destruct (proj1 Hb eq_refl) as [Hi Hset]. apply IH in H as (gs & Hgs & Ha & Hg); [| |lia].
    2: { intros r E. destruct collecting as [c|]; injection E as <-; [destruct (Hcol c eq_refl)|]; lia. }
    exists gs. split; [done|]. split; [|done]. eapply alts_weaken; [exact Ha|]. intros F lo hi.
    apply looks_weaken. intros v. apply cs_from_set; [|done..]. intros r E. destruct (Hcol r E); lia.
  - assert (~ at_set cs i) as Hn' by (intros Hc%Hb; done). destruct collecting as [r|].
    + destruct (Hcol r eq_refl) as [Hr Hi].
      apply (cs_block r (Z.of_nat i - 1)) in H as (q & Hl & H & Hq); [|lia..].
      apply IH in H as (gs & Hgs & Ha & Hg); [|done|lia]. exists (uint16 (pr_length p + 2) :: gs). split.
      { constructor; [pose proof (pr_length_nonneg p); apply uint16_le; lia|done]. }
      eapply cs_cons; [done..|]. intros v. by apply cs_from_close.
    + apply IH in H as (gs & Hgs & Ha & Hg); [|done|lia]. exists gs. split; [done|]. split; [|done].
      eapply alts_weaken; [exact Ha|]. intros F lo hi. apply looks_weaken. intros v. by apply cs_from_unset.
Qed.

Lemma patch_gotos_insns k i jump p u p' :
  patch_gotos k i jump p = Ok (u, p') -> 0 <= i ->
  pr_length p' = pr_length p /\ pr_actions p `prefix_of` pr_actions p' /\
  (forall j o a, 0 <= j -> insn_at p j o a -> o <> RVM_GOTO \/ j < i \/ jump <= j -> insn_at p' j o a) /\
  (forall j a, i <= j < jump -> j < i + Z.of_nat k -> insn_at p j RVM_GOTO a -> insn_at p' j RVM_GOTO jump).
Proof.
  revert i p. induction k as [|k IH]; intros i p H Hi; cbn [patch_gotos] in H.
  { injection H as _ <-. split_and!; [done..|lia]. }
  destruct (Z.ltb_spec i jump) as [Hlt|Hge]; [|injection H as _ <-; split_and!; [done..|lia]].
  apply ST_bind_ok in H as (p0 & ? & [= <- <-] & H).
  apply ST_bind_ok in H as ([o a] & ? & [Hins%deref_ok ->]%lift_ok & H). cbn [op] in H.
  apply ST_bind_ok in H as (? & q & H1 & H2). destruct (IH _ _ H2 ltac:(lia)) as (Hl & Hpre & Hk & Hg).
  assert (insn_at p i o a) as Hat by done.
  assert (pr_length q = pr_length p /\ pr_actions p `prefix_of` pr_actions q /\
    (forall j o a, 0 <= j -> insn_at p j o a -> o <> RVM_GOTO \/ j <> i -> insn_at q j o a) /\
    (o = RVM_GOTO -> insn_at q i o jump)) as (Hlq & Hpq & Hkq & Hgq).
  { case_bool_decide as Ho.
    - destruct (patch_insns _ _ _ _ _ H1 Hi) as (Hlq & Hs & Hp). split; [done|].
      split; [apply (Hs 0 0); lia|]. split; [|intros _; by eapply Hp].
      intros j o' a' Hj Hja Hor. destruct (decide (j = i)) as [->|Hne].
      + destruct (insn_at_eq _ _ _ _ _ _ Hja Hat) as [-> _]. by destruct Hor.
      + destruct Hja as [_ Hja]. split; [done|]. by rewrite (proj1 (Hs j (j + 1) ltac:(lia) ltac:(lia))) by lia.
    - injection H1 as _ <-. by split_and!. }
  split; [lia|]. split; [by etrans|]. split.
  - intros j o' a' Hj Hja Hor. apply Hk; [done| |destruct Hor as [|[|]]; [by left|right; left; lia|right; by right]].
    apply Hkq; [done..|]. destruct Hor as [|[|]]; [by left|right; lia|right; lia].
  - intros j a' Hj Hjk Hja. destruct (decide (j = i)) as [->|Hne].
    + destruct (insn_at_eq _ _ _ _ _ _ Hja Hat) as [Eo _]. rewrite <- Eo in Hgq.
      apply Hk; [done|by apply Hgq|]. right. left. lia.
    + eapply Hg; [lia|lia|]. apply Hkq; [lia|exact Hja|by right].
Qed.

(** What the patches of a character set leave and change. *)
Lemma patch_gotos_close p q q1 q2 q3 gs Y Z a u :
  alts p q gs Y Z -> (pr_length q < 65536 -> gotos_of p q gs) ->
  inserted q q1 RVM_MATCH a -> inserted q1 q2 RVM_STEP 0 ->
  patch_gotos (Z.to_nat (uint16 (pr_length q1) - uint16 (pr_length p))) (uint16 (pr_length p))
    (uint16 (pr_length q1)) q2 = Ok (u, q3) ->
  pr_length q3 = pr_length q1 + 1 /\
  (pr_length q3 < 65536 -> agrees q3 q1 0 (pr_length q1) gs /\ insn_at q3 (pr_length q1) RVM_STEP 0 /\
     ((forall g, g ∈ gs -> exists x, insn_at q1 g RVM_GOTO x) -> all_goto q3 (pr_length q1) gs)).
Proof.
  intros [Hle Hp] Hgo H1 H2 H. pose proof (ins_length _ _ _ _ H1) as Hl1. pose proof (ins_length _ _ _ _ H2) as Hl2.
  pose proof (pr_length_nonneg p).
  destruct (patch_gotos_insns _ _ _ _ _ _ H) as (Hl & Hpre & Hk & Hg); [apply uint16_le; lia|]. split; [lia|]. intros Hs.
  rewrite !(uint16_small (pr_length q1)), !(uint16_small (pr_length p)) in Hk, Hg by lia.
  assert (forall j o b, 0 <= j < pr_length q1 -> insn_at q1 j o b -> insn_at q2 j o b) as H12.
  { intros j o b Hj. apply same_insn with 0 (pr_length q1); [apply H2|done]. }
  split; [|split; [apply Hk; [lia|apply H2|by left]|]].
  - split; [|etrans; [apply H2|done]].
    intros j Hj Hn. destruct (lookup_lt_is_Some_2 (pr_insns q1) (Z.to_nat j)) as [[o b] E]; [unfold pr_length in Hj; lia|].
    assert (insn_at q1 j o b) as Hat by (split; [lia|done]). rewrite E.
    apply (Hk j o b); [lia|by apply H12|]. destruct (decide (o = RVM_GOTO)) as [->|]; [|by left].
    right. left. destruct (decide (j < pr_length p)) as [|Hge]; [done|]. destruct Hn.
    assert (j <> pr_length q) as Hne.
    { intros ->. by destruct (insn_at_eq _ _ _ _ _ _ Hat (ins_insn _ _ _ _ H1)). }
    apply (Hgo ltac:(lia) j b); [lia|]. destruct Hat as [Hj0 Hat]. split; [done|].
    rewrite <- (proj1 (ins_keeps _ _ _ _ H1)); [done|lia].
  - intros Hx g Hgg. destruct (Hx g Hgg) as [x Hgx]. destruct (Hp ltac:(lia)) as [_ Hr _].
    destruct (Hr g Hgg) as [Hrange _]. apply (Hg g x); [lia|lia|]. apply H12; [lia|done].
Qed.

(** The ranges and the byte. *)
Lemma cs_code cs p q q1 q2 q3 gs u :
  alts p q gs (looks (fun _ => False)) (looks (cs_from cs None 0)) -> (pr_length q < 65536 -> gotos_of p q gs) ->
  inserted q q1 RVM_MATCH (uint16 255) -> inserted q1 q2 RVM_STEP 0 ->
  patch_gotos (Z.to_nat (uint16 (pr_length q1) - uint16 (pr_length p))) (uint16 (pr_length p))
    (uint16 (pr_length q1)) q2 = Ok (u, q3) ->
  emitted p q3 (d_char (fun x => any_byte x /\ charset_isset cs x = Ok true)).
Proof.
  intros Ha Hgo H2 H3 H4. destruct (patch_gotos_close _ _ _ _ _ _ _ _ _ _ Ha Hgo H2 H3 H4) as (Hl & Hcl).
  pose proof (al_le _ _ _ _ _ Ha) as Hle. pose proof (ins_length _ _ _ _ H2) as Hl1. split; [lia|]. intros Hs.
  destruct (Hcl Hs) as (Hag & Hst & Hgt).
  edestruct alts_close as [Hk Hc]; [exact Ha|exact H2| |intros _; split; [exact Hag|exact Hgt]|lia|split; [exact Hk|]].
  { intros F Hi. rewrite Hl1. eapply seg_eq; [|by apply seg_never]. intros off off'. split; [done|by intros [_ []]]. }
  intros F HF. rewrite Hl in *. pose proof (pr_length_nonneg p).
  exists (fun x y => cs_from cs None 0 (cur input x.1) /\ y = (x.1 + 1, x.2)). split.
  - apply describes_char. intros off c Hcc Hoff. rewrite (cur_lookup input off c Hcc Hoff).
    pose proof (proj1 (Forall_lookup _ _) Hbytes _ _ Hcc) as Hbyte. simpl in Hbyte. unfold cs_from, any_byte.
    split; [intros [(? & [=] & _)|[Hr Hset]]; by split|]. intros [Hr Hset]. right. by split.
  - eapply (seg_eq F input); [|eapply (seg_seq F input _ (pr_length q1))].
    2: { apply Hc. eapply same_sub; [exact HF|lia..]. }
    2: { apply (seg_step F input _ 0). eapply same_insn; [exact HF|lia|done]. }
    intros x y. split; [intros (z & [-> Hm] & ->); by split|]. intros [Hm ->]. by exists x.
Qed.

Lemma charset_makes cs self :
  makes (cs_ctrvm realloc_ok cs self) (eq true)
    (mkD (l_char (fun x => any_byte x /\ charset_isset cs x = Ok true))
       (bytes_effect store input 1 h_svm_action_charset_ch (E_env self))).
Proof.
  eapply makes_le; [apply byte_le|]. apply makes_then; [apply makes_push|].
  intros p b p' H. apply ST_bind_ok in H as (start & ? & [= <- <-] & H).
  apply ST_bind_ok in H as (? & q & H1 & H). apply cs_ranges_alts in H1 as (gs & Hgs & Ha & Hgo); [|done|done].
  apply ST_bind_ok in H as (? & q1 & H2%insert_insns_ & H).
  apply ST_bind_ok in H as (jump & q2 & [-> H3]%insert_insns & H).
  apply ST_bind_ok in H as (? & q3 & H4 & H).
  assert (makes (_ ← insert_ realloc_ok RVM_CAPTURE 0;
    _ ← insert_action realloc_ok h_svm_action_charset_ch (E_env self); mret true) (eq true)
    (d_cat d_capture (d_act h_svm_action_charset_ch (E_env self)))) as Hend
    by (apply makes_then; [apply makes_capture|apply makes_finish]).
  apply Hend in H as [Hb Hend']. split; [done|]. eapply emitted_trans; [|exact Hend']. by eapply cs_code.
Qed.

(** * The combinators *)

Section Combinators.
Context (compile : ptr -> R bool) (Dg : ptr -> denot).
Definition good (p : ptr) : Prop := makes (compile p) (eq true) (Dg p).
Local Abbreviation Lg := (fun p => dl (Dg p)).
Local Abbreviation Eg := (fun p => de (Dg p)).

Lemma opt_makes p :
  good p ->
  makes (opt_ctrvm realloc_ok compile p) (eq true)
    (mkD (l_or (Lg p) l_empty) (wrapped store (e_or (Eg p) e_nil) h_svm_action_optional E_null)).
Proof.
  intros Hp. eapply makes_le; [apply (wrapped_le (d_or (Dg p) d_empty))|]. apply makes_then; [apply makes_push|].
  intros g b g' H. apply ST_bind_ok in H as (ip & g1 & [-> Hi]%insert_insns & H).
  apply ST_bind_ok in H as (ok & g2 & [<- Hg]%Hp & H). cbn [negb] in H.
  apply ST_bind_ok in H as (v & g3 & [= <- <-] & H). apply ST_bind_ok in H as (? & g4 & H4 & H).
  apply makes_finish in H as [<- Hf]. split; [done|]. eapply emitted_trans; [|exact Hf]. by eapply emitted_opt.
Qed.

Lemma ignore_makes p :
  good p ->
  makes (ignore_ctrvm realloc_ok compile p) (eq true) (mkD (Lg p) (e_cat (Eg p) (e_act store h_svm_action_pop E_null))).
Proof.
  intros Hp. eapply makes_le; [|eapply makes_bind; [exact Hp|intros ? _; apply makes_finish]].
  split; [by lang_units|done].
Qed.

Lemma sequence_like (m : R bool) (k : R bool) D D' : makes m (eq true) D -> makes k (eq true) D' ->
  makes (ok ← m; if negb ok then mret false else k) (eq true) (d_cat D D').
Proof. intros Hm Hk. eapply makes_bind; [exact Hm|]. by intros ? <-. Qed.

(** PUSH, code, and an action. *)
Lemma wrapped_makes (m : R bool) D f env :
  makes m (eq true) D ->
  makes (_ ← insert_ realloc_ok RVM_PUSH 0; ok ← m; if negb ok then mret false else
         _ ← insert_action realloc_ok f env; mret true) (eq true) (mkD (dl D) (wrapped store (de D) f env)).
Proof.
  intros Hm. eapply makes_le; [apply wrapped_le|]. apply makes_then; [apply makes_push|].
  apply sequence_like; [done|apply makes_finish].
Qed.

Lemma compile_all_makes ps : Forall good ps -> makes (compile_all compile ps) (eq true) (d_cats (Dg <$> ps)).
Proof.
  induction 1 as [|p ps Hp _ IH]; cbn [compile_all fmap list_fmap d_cats]; [by apply makes_ret|].
  eapply makes_bind; [exact Hp|]. by intros ? <-.
Qed.

Lemma sequence_makes s :
  Forall good (sq_array s) ->
  makes (sequence_ctrvm realloc_ok compile s) (eq true)
    (mkD (l_cats (Lg <$> sq_array s)) (wrapped store (e_cats (Eg <$> sq_array s)) h_svm_action_make_sequence E_null)).
Proof.
  intros Hs. eapply makes_le; [|by eapply wrapped_makes, compile_all_makes].
  by rewrite dl_cats, de_cats, <- !list_fmap_compose.
Qed.

Lemma is_items_makes ps :
  Forall good ps -> makes (is_items realloc_ok compile ps) (eq true) (d_cats ((fun p => d_cat d_push (Dg p)) <$> ps)).
Proof.
  induction 1 as [|p ps Hp _ IH]; cbn [is_items fmap list_fmap d_cats]; [by apply makes_ret|].
  eapply makes_le; [apply d_cat_assoc|]. apply makes_then; [apply makes_push|].
  eapply makes_bind; [exact Hp|]. by intros ? <-.
Qed.

Lemma is_makes q self :
  Forall good (is_parsers q) ->
  makes (is_ctrvm realloc_ok compile q self) (eq true)
    (mkD (l_cats (Lg <$> is_parsers q))
       (e_cat (e_cats (e_cat e_push <$> (Eg <$> is_parsers q))) (e_act store h_svm_action_ignoreseq (E_env self)))).
Proof.
  intros Hq. eapply makes_le; [|apply sequence_like; [by apply is_items_makes|apply makes_finish]]. split.
  - lang_units. rewrite dl_cats, <- list_fmap_compose. apply l_cats_proper. apply Forall2_fmap, Forall_Forall2_diag.
    apply list.Forall_true. intros p. cbn. by rewrite l_cat_empty_l.
  - intros x s y r. cbn [de d_cat d_act d_do]. by rewrite de_cats, <- !list_fmap_compose.
Qed.

(** ** Repetitions *)

Definition sep_denot (sep : ptr) : denot :=
  match sep with None => d_empty | Some _ => d_cat d_push (d_cat (Dg sep) (d_act h_svm_action_clear_to_mark E_null)) end.

Lemma compile_sep_emitted ctm sep p b p' :
  (forall s, sep = Some s -> good sep) ->
  (forall F, pr_actions p `prefix_of` pr_actions F -> act_at F ctm h_svm_action_clear_to_mark E_null) ->
  compile_sep realloc_ok compile ctm sep p = Ok (b, p') -> true = b /\ emitted p p' (sep_denot sep).
Proof.
  intros Hs Ha H. destruct sep as [s|]; cbn [compile_sep sep_denot] in *; [|injection H as <- <-; split; [done|apply emitted_refl]].
  apply ST_bind_ok in H as (? & p1 & [_ H1]%makes_push & H).
  apply ST_bind_ok in H as (? & p2 & [<- H2]%(Hs s eq_refl) & H). cbn [negb] in H.
  apply ST_bind_ok in H as (? & p3 & H3%insert_insns_ & [= <- <-]). split; [done|].
  eapply emitted_trans; [exact H1|]. eapply emitted_trans; [exact H2|]. eapply emitted_act; [exact H3|].
  intros F Hsm HF. apply Ha. pose proof (gr_le _ _ _ H2). etrans; [|exact HF].
  etrans; [apply (ad_keeps _ _ _ (gr_adds _ _ _ H1 ltac:(lia)))|apply (ad_keeps _ _ _ (gr_adds _ _ _ H2 Hsm))].
Qed.

Definition loop_denot (r : HRepeat) : denot :=
  d_cat (Dg (rp_p r)) (d_star (d_cat (sep_denot (rp_sep r)) (Dg (rp_p r)))).

Lemma many_loop ctm r (k : R bool) p b p' :
  good (rp_p r) -> (forall s, rp_sep r = Some s -> good (rp_sep r)) ->
  (forall F, pr_actions p `prefix_of` pr_actions F -> act_at F ctm h_svm_action_clear_to_mark E_null) ->
  (goto_mid ← h_rvm_insert_insn realloc_ok RVM_GOTO 65535;
   nxt ← h_rvm_get_ip;
   ok ← compile_sep realloc_ok compile ctm (rp_sep r);
   if negb ok then mret false else
   ip ← h_rvm_get_ip;
   _ ← h_rvm_patch_arg goto_mid ip;
   ok ← compile (rp_p r);
   if negb ok then mret false else
   _ ← insert_ realloc_ok RVM_FORK nxt; k) p = Ok (b, p') ->
  exists q, emitted p q (loop_denot r) /\ k q = Ok (b, p').
Proof.
  intros Hp Hs Ha H.
  apply ST_bind_ok in H as (gt & p1 & [-> H1]%insert_insns & H).
  apply ST_bind_ok in H as (nxt & q1 & [= <- <-] & H).
  apply ST_bind_ok in H as (ok & p2 & [<- H2]%compile_sep_emitted & H); [|done|].
  2: { intros F HF. apply Ha. etrans; [apply H1|done]. }
  cbn [negb] in H. apply ST_bind_ok in H as (ip & q2 & [= <- <-] & H).
  apply ST_bind_ok in H as (? & p3 & H3 & H).
  apply ST_bind_ok in H as (ok & p4 & [<- H4]%Hp & H). cbn [negb] in H.
  apply ST_bind_ok in H as (? & p5 & H5%insert_insns_ & H).
  exists p5. split; [|done]. by eapply emitted_loop.
Qed.

Lemma sep_denot_le r :
  d_cat (sep_denot (rp_sep r)) (Dg (rp_p r)) ⊑ᵈ
    mkD (more_language Lg r) (e_cat (sep_effect store Eg (rp_sep r)) (Eg (rp_p r))).
Proof.
  unfold sep_denot, more_language, sep_effect. destruct (rp_sep r); (split; [by lang_units|done]).
Qed.
Lemma loop_denot_le r :
  loop_denot r ⊑ᵈ mkD (l_cat (Lg (rp_p r)) (l_star (more_language Lg r))) (loop_effect store Eg r).
Proof.
  unfold loop_denot. etrans; [apply d_cat_le; [done|apply d_star_le, sep_denot_le]|]. by split.
Qed.

(** The part between the PUSH and the action of many. *)
Definition many_denot (r : HRepeat) : denot :=
  if rp_count r =? 0 then d_or (loop_denot r) d_empty else loop_denot r.
Lemma many_denot_le r :
  many_denot r ⊑ᵈ mkD (many_language Lg r)
    (if rp_count r =? 0 then e_or (loop_effect store Eg r) e_nil else loop_effect store Eg r).
Proof.
  unfold many_denot, many_language. destruct (rp_count r =? 0); [|apply loop_denot_le].
  etrans; [apply d_or_le; [apply loop_denot_le|done]|by split].
Qed.

Lemma many_makes r :
  good (rp_p r) -> (forall s, rp_sep r = Some s -> good (rp_sep r)) -> rp_min_p r = true ->
  makes (many_ctrvm realloc_ok compile r) (eq true)
    (mkD (many_language Lg r) (wrapped store (if rp_count r =? 0 then e_or (loop_effect store Eg r) e_nil
       else loop_effect store Eg r) h_svm_action_make_sequence E_null)).
Proof.
  intros Hp Hs Hm. unfold many_ctrvm. rewrite Hm. eapply makes_le.
  { etrans; [apply (wrapped_le (many_denot r))|]. destruct (many_denot_le r) as [HL HE]. split; [exact HL|].
    apply e_cat_mono; [done|]. by apply e_cat_mono. }
  intros p b p' H. apply ST_bind_ok in H as (ctm & p0 & (Hl & H0 & Ha)%create_action_ok & H).
  apply ST_bind_ok in H as (? & p1 & H1%insert_insns_ & H). apply ST_bind_ok in H as (? & q & [_ ->]%lift_ok & H).
  assert (true = b /\ emitted p0 p' (d_cat d_push (d_cat (many_denot r) (d_act h_svm_action_make_sequence E_null))))
    as [Hb He].
  2: { split; [done|]. eapply grown_then; [exact H0|exact He|]. intros F _. by rewrite Hl. }
  assert (emitted p0 p1 d_push) as Hpush.
  { eapply inserted_grown; [exact H1|]. intros F _ _ Hi. eexists. split; [|by eapply seg_push]. by apply describes_record. }
  assert (forall q, pr_actions p1 `prefix_of` pr_actions q ->
    forall F, pr_actions q `prefix_of` pr_actions F -> act_at F ctm h_svm_action_clear_to_mark E_null) as Ha'.
  { intros q Hq F HF. apply Ha. etrans; [apply H1|]. by etrans. }
  unfold many_denot. destruct (rp_count r =? 0) eqn:E; rewrite ?E in H.
  - apply ST_bind_ok in H as (ef & p2 & [-> H2]%insert_insns & H).
    apply many_loop in H as (q & Hq & H); [|done..|apply Ha', H2].
    apply ST_bind_ok in H as (ip & p3 & [= <- <-] & H). apply ST_bind_ok in H as (? & p4 & H4 & H).
    apply makes_finish in H as [<- Hf]. split; [done|].
    eapply emitted_trans; [exact Hpush|]. eapply emitted_trans; [|exact Hf]. by eapply emitted_opt.
  - apply ST_bind_ok in H as (ef & p2 & [= <- <-] & H).
    apply many_loop in H as (q & Hq & H); [|done..|by apply Ha'].
    apply ST_bind_ok in H as (ip & p3 & [= <- <-] & H). apply ST_bind_ok in H as (? & p4 & [= <- <-] & H).
    apply makes_finish in H as [<- Hf]. split; [done|].
    eapply emitted_trans; [exact Hpush|]. by eapply emitted_trans.
Qed.
(** ** Spaces *)

(** One range of spaces: a fork, a byte, and back to the start. *)
Lemma ws_block r start P (k : R unit) p b p' :
  (forall c, 0 <= c < 256 -> matched (uint16 r) c <-> P c) ->
  (next ← h_rvm_insert_insn realloc_ok RVM_FORK 0;
   _ ← insert_ realloc_ok RVM_MATCH r;
   _ ← insert_ realloc_ok RVM_STEP 0;
   _ ← insert_ realloc_ok RVM_GOTO start;
   ip ← h_rvm_get_ip;
   _ ← h_rvm_patch_arg next ip; k) p = Ok (b, p') ->
  exists q g, pr_length p < g /\ pr_length q = g + 1 /\ k q = Ok (b, p') /\
    (pr_length q < 65536 -> block p q (uint16 start) (fun F lo hi => codes F lo hi (d_char P)) g).
Proof.
  intros HP H.
  apply ST_bind_ok in H as (nxt & p1 & [-> H1]%insert_insns & H).
  apply ST_bind_ok in H as (u2 & p2 & H2 & H). apply ST_bind_ok in H as (u3 & p3 & H3 & H).
  assert ((_ ← insert_ realloc_ok RVM_MATCH r; insert_ realloc_ok RVM_STEP 0) p1 = Ok (u3, p3)) as H23.
  { unfold mbind, ST_bind. by rewrite H2. }
  apply (makes_byte r P HP) in H23 as [_ Hg].
  apply ST_bind_ok in H as (? & p4 & H4%insert_insns_ & H).
  apply ST_bind_ok in H as (ip & q4 & [= <- <-] & H). apply ST_bind_ok in H as (? & p5 & H5 & H).
  destruct (block_ok _ _ _ _ _ _ _ _ _ H1 Hg H4 H5) as (Hlt & Hl & Hb). by exists p5, (pr_length p3).
Qed.

Lemma spaces_language :
  l_or (l_char (fun x => 9 <= x <= 13)) (l_char (fun x => x = 32)) ≡ₗ l_char (fun x => x ∈ SPACE_CHRS).
Proof.
  intros w. unfold l_or, l_char, SPACE_CHRS. setoid_rewrite elem_of_cons. repeat setoid_rewrite elem_of_cons.
  split.
  - intros [(x & -> & Hx)|(x & -> & Hx)]; exists x; (split; [done|]); rewrite ?elem_of_nil; lia.
  - intros (x & -> & Hx). rewrite elem_of_nil in Hx.
    destruct (decide (x = 32)); [right|left]; exists x; (split; [done|]); lia.
Qed.

Lemma spaces_le :
  d_or (d_char (fun x => 9 <= x <= 13)) (d_char (fun x => x = 32)) ⊑ᵈ d_char (fun x => x ∈ SPACE_CHRS).
Proof. split; [apply spaces_language|]. by intros x s y r [H|H]. Qed.

Lemma ws_ranges_makes p u p' :
  ws_ranges realloc_ok [3337; 8224] (uint16 (pr_length p)) p = Ok (u, p') ->
  emitted p p' (d_star (d_char (fun x => x ∈ SPACE_CHRS))).
Proof.
  intros H. cbn [ws_ranges] in H.
  apply (ws_block _ _ (fun x => 9 <= x <= 13)) in H as (q & g & Hlt & Hl & H & Hb).
  2: { intros c Hc. rewrite (matched_range 9 13 c) by lia. done. }
  apply (ws_block _ _ (fun x => x = 32)) in H as (q' & g' & Hlt' & Hl' & [= _ <-] & Hb').
  2: { intros c Hc. rewrite (matched_range 32 32 c) by lia. lia. }
  pose proof (pr_length_nonneg p). split; [lia|]. intros Hs.
  destruct (Hb ltac:(lia)) as [_ Hk Hgt Hf Hc], (Hb' Hs) as [_ Hk' Hgt' Hf' Hc'].
  rewrite !uint16_small in Hgt, Hgt' by (rewrite ?uint16_small; lia). split.
  - eapply same_trans; [eapply same_sub; [exact Hk'|lia..]|done].
  - intros F HF. rewrite Hl' in *.
    assert (same F q (pr_length p) (pr_length q)) as HFq.
    { eapply same_trans; [eapply same_sub; [exact HF|lia..]|eapply same_sub; [exact Hk'|lia..]]. }
    destruct (Hc F) as (R & HR & HsR); [eapply same_sub; [exact HFq|lia..]|].
    destruct (Hc' F) as (S & HS & HsS); [eapply same_sub; [exact HF|lia..]|]. rewrite Hl in *.
    exists (rtc (r_or R S)). split.
    { apply describes_star. eapply describes_le; [apply spaces_le|by apply describes_or]. }
    apply (seg_spaces F input _ g g'); [| |eapply same_insn; [exact HFq|lia|done]| | |eapply same_insn; [exact HF|lia|done]]; [|done| |done].
    + apply Hf. eapply same_sub; [exact HFq|lia..].
    + apply Hf'. eapply same_sub; [exact HF|lia..].
Qed.

Lemma ws_makes p :
  good p -> makes (ws_ctrvm realloc_ok compile p) (eq true) (d_cat (d_star (d_char (fun x => x ∈ SPACE_CHRS))) (Dg p)).
Proof.
  intros Hp g b g' H. apply ST_bind_ok in H as (start & g1 & [= <- <-] & H).
  apply ST_bind_ok in H as (? & g2 & H2%ws_ranges_makes & H). apply Hp in H as [Hb H]. split; [done|].
  by eapply emitted_trans.
Qed.

(** ** Choices *)

Lemma choice_alts_makes ps p r p' :
  Forall good ps -> choice_alts realloc_ok compile ps p = Ok (r, p') ->
  exists gs, r = Some gs /\ Forall (fun g => 0 <= g) gs /\
    alts p p' gs (fun F lo hi => codes F lo hi d_none) (fun F lo hi => codes F lo hi (d_ors (Dg <$> ps))).
Proof.
  intros Hps. revert p r. induction Hps as [|q ps Hq _ IH]; intros p r H; cbn [choice_alts] in H.
  { injection H as <- <-. exists []. split; [done|]. split; [done|apply alts_nil]. }
  apply ST_bind_ok in H as (insn & p1 & [-> H1]%insert_insns & H).
  apply ST_bind_ok in H as (ok & p2 & [<- H2]%Hq & H). cbn [negb] in H.
  apply ST_bind_ok in H as (g & p3 & [-> H3]%insert_insns & H).
  apply ST_bind_ok in H as (ip & p4 & [= <- <-] & H). apply ST_bind_ok in H as (? & p5 & H5 & H).
  apply ST_bind_ok in H as (r' & p6 & H6 & [= <- <-]). destruct (IH _ _ H6) as (gs & -> & Hgs & Ha).
  destruct (block_ok _ _ _ _ _ _ _ _ _ H1 H2 H3 H5) as (Hlt & Hl & Hb).
  exists (uint16 (pr_length p2) :: gs). split; [done|]. split.
  { constructor; [apply uint16_le, pr_length_nonneg|done]. }
  eapply alts_cons; [done|done|exact Hb|exact Ha|].
  intros F e Hf (R & HR & HsR) Hgo (S & HS & HsS). exists (r_or R S).
  split; [by apply describes_or|]. by eapply seg_choice.
Qed.

Lemma choice_makes s :
  Forall good (sq_array s) -> makes (choice_ctrvm realloc_ok compile s) (eq true) (d_ors (Dg <$> sq_array s)).
Proof.
  intros Hs p b p' H. apply ST_bind_ok in H as (r & q & H1 & H).
  apply (choice_alts_makes _ _ _ _ Hs) in H1 as (gs & -> & Hgs & Ha).
  apply ST_bind_ok in H as (? & q1 & H2%insert_insns_ & H).
  apply ST_bind_ok in H as (? & ? & [= <- <-] & H). apply ST_bind_ok in H as (? & q2 & H3 & [= <- <-]).
  destruct (patch_all_insns _ _ _ _ _ H3 Hgs) as (Hl & Hag & Hgo). split; [done|].
  pose proof (al_le _ _ _ _ _ Ha). pose proof (ins_length _ _ _ _ H2) as Hl1. pose proof (pr_length_nonneg q).
  split; [lia|]. rewrite Hl. intros Hsm. rewrite uint16_small in Hgo by lia.
  edestruct alts_close as [Hk Hc]; [exact Ha|exact H2| |intros _; split; [exact Hag|exact Hgo]|done|split; [exact Hk|]].
  - intros F Hi. exists (fun _ _ => False). split; [by apply describes_none; intros ? ? []|]. rewrite Hl1. by apply seg_never.
  - by rewrite Hl.
Qed.

(** ** Every parser *)

(** What the code of a parser reads and does to the stack. *)
Definition env_denot (e : parser_env) (self : nat) : denot :=
  mkD (env_language Lg e) (env_effect store input Eg e self).

Lemma vt_makes e self :
  supported store e -> rvm_ok_env e -> env_ok e -> Forall good (children e) ->
  makes (vt_compile_to_rvm realloc_ok compile e self) (eq true) (env_denot e self).
Proof.
  intros Hs Hr He Hc. destruct e; cbn [supported rvm_ok_env env_ok children vt_compile_to_rvm] in *;
    try done; try apply Forall_inv in Hc as Hp.
  all: try first
    [ apply bits_makes | apply ch_makes | apply charset_makes | by apply token_makes | apply end_makes
    | by apply makes_ret | apply nothing_makes | by apply opt_makes | by apply ignore_makes | by apply ws_makes
    | by apply sequence_makes | by apply is_makes | by apply wrapped_makes ].
  - eapply makes_le; [|by apply choice_makes]. unfold env_denot. cbn [env_language env_effect].
    split; [by rewrite dl_ors, <- list_fmap_compose|]. intros x' st y r. by rewrite de_ors, <- list_fmap_compose.
  - apply many_makes; [done| |by apply Hs]. intros s Es. apply Forall_cons_1 in Hc as [_ Hc].
    rewrite Es in *. by apply Forall_inv in Hc.
Qed.

End Combinators.

(** A graph of parsers as the constructors make them, without int_range. *)
Definition compilable : Prop := Forall (fun q => rvm_ok_env (p_env q) /\ env_ok (p_env q)) store.

Definition parser_denot (N : nat) (p : ptr) : denot :=
  mkD (parser_language store N p) (parser_effect store input p).

Lemma h_compile_regex_makes N fuel a :
  compilable -> desugarable store a -> (a < N)%nat ->
  makes (h_compile_regex realloc_ok store fuel (Some a)) (eq true) (parser_denot N (Some a)).
Proof.
  intros Hst. revert a. induction fuel as [|fuel IH]; intros a Ha HN; [done|].
  destruct (desugarable_lookup store a Ha) as [q Hq]. destruct (desugarable_inv store a q Ha Hq) as [Hs Hc].
  destruct (proj1 (Forall_lookup _ _) Hst _ _ Hq) as [Hr He].
  apply (makes_le _ _ (env_denot (parser_denot N) (p_env q) a)).
  { split; [symmetry; by eapply parser_language_eq|]. intros x s y r. by apply env_effect_parser. }
  intros p b p' H. cbn [h_compile_regex] in H.
  apply ST_bind_ok in H as (q' & ? & [Hq'%deref_ok ->]%lift_ok & H). simpl in Hq'.
  assert (q' = q) as -> by congruence.
  apply ST_bind_ok in H as (a' & ? & [[= <-] ->]%lift_ok & H). revert H.
  apply vt_makes; [done..|]. eapply list.Forall_impl; [exact Hc|]. intros c (d & -> & Hd & Hdd).
  apply IH; [done|lia].
Qed.
End Compile.


(** ** Programs *)

Section Programs.
Context (realloc_ok : Z -> bool) (store : list HParser) (a fuel : nat).
Context (Hst : compilable store) (Ha : desugarable store a).
Local Abbreviation L := (parser_language store (S a) (Some a)).

Lemma h_regex_compile_ok prog :
  h_regex_compile realloc_ok store fuel (Some a) = Ok (0, Some prog) ->
  exists st p, isValidRegular fuel (Some a) store = Ok (true, st) /\
    h_compile_regex realloc_ok store fuel (Some a) empty_prog = Ok (true, p) /\
    exists u, insert_ realloc_ok RVM_ACCEPT 0 p = Ok (u, prog).
Proof.
  unfold h_regex_compile. intros H. apply outcome_bind_ok in H as ([v st] & Hv & H). destruct v; [|done].
  cbn [negb] in H. destruct (h_compile_regex _ _ _ _ _) as [[[] p]|[]|] eqn:E; try discriminate H.
  apply outcome_bind_ok in H as ([u prog'] & Hi & [= <-]). exists st, p. split_and!; [done|done|]. by exists u.
Qed.

Context (prog : HRVMProg) (Hok : h_regex_compile realloc_ok store fuel (Some a) = Ok (0, Some prog)).
Context (Hsize : pr_length prog <= 65536).

(** The program is one stretch and RVM_ACCEPT. *)
Lemma program_stretch input :
  Forall (fun c => 0 <= c < 256) input ->
  exists D, describes input store prog D (parser_denot input store (S a) (Some a)) /\
    forall off t, accepts prog input (mkTrace SVM_ACCEPT 0 off :: t) <->
      D start (off, t) /\ off <= Z.of_nat (length input).
Proof.
  intros Hb. destruct (h_regex_compile_ok prog Hok) as (st & p & _ & Hp & u & [Hl Hk Hi]%insert_insns_).
  apply (h_compile_regex_makes input Hb realloc_ok store (S a)) in Hp as [_ [Hle Hc]]; [|done|done|lia].
  destruct (Hc ltac:(lia)) as [_ Hcode]. destruct (Hcode prog) as (D & HD & Hseg); [exact Hk|].
  exists D. split; [done|]. intros off t. by eapply (seg_accepts _ _ _ _ _ off t Hseg).
Qed.

Lemma program_accepts input off :
  Forall (fun c => 0 <= c < 256) input -> 0 <= off <= Z.of_nat (length input) ->
  (exists t, accepts prog input (mkTrace SVM_ACCEPT 0 off :: t)) <->
  (exists w, L w /\ consumed input (drop (Z.to_nat off) input) w).
Proof.
  intros Hb Hoff. destruct (program_stretch input Hb) as (D & HD & Hacc).
  assert (spans input L 0 off <-> exists w, L w /\ consumed input (drop (Z.to_nat off) input) w) as <-.
  { unfold spans. by setoid_rewrite (eats_consumed input _ off Hoff). }
  setoid_rewrite Hacc. split.
  - intros (t & HR & _). by apply (ds_sound _ _ _ _ _ HD start (off, t)); [|simpl; lia..].
  - intros Hs. destruct (ds_complete _ _ _ _ _ HD start off) as [t Ht]; [simpl; lia..|done|]. exists t. split; [done|lia].
Qed.

Lemma program_safe : store_wf store -> (a < length store)%nat -> (a < fuel)%nat -> prog_safe prog.
Proof.
  intros Hwf Hlen Hf. destruct (h_regex_compile_ok prog Hok) as (st & p & Hv & Hp & u & Hi).
  destruct (isValidRegular_answers store a fuel Hwf Hlen Hf) as [b Hb]. rewrite Hb in Hv. injection Hv as -> _.
  assert (Forall (fun q => rvm_ok_env (p_env q)) store) as Hst' by (eapply list.Forall_impl; [exact Hst|by intros q []]).
  pose proof (h_compile_regex_emits realloc_ok store a fuel Hwf Hst' Hlen Hf Hb _ _ empty_prog_wf) as Hc.
  unfold wp in Hc. rewrite Hp in Hc. destruct Hc as (_ & Hw & _).
  assert (wp realloc_ok (insert_ realloc_ok RVM_ACCEPT 0) (fun _ p' => pr_length p' <= 65536 -> prog_safe p') p) as Hs.
  { apply wp_bind. eapply wp_insert_gen; [exact Hw|by left|]. intros p' Hg Hl Hw' Hin.
    exact (prog_wf_safe _ _ Hw Hin Hg Hl). }
  unfold wp in Hs. rewrite Hi in Hs. by apply Hs.
Qed.
End Programs.

(** ** The stack machine *)

(** Paths do not accept before their end. *)
Lemma path_no_accept prog input off ip t :
  path prog input off ip t -> Forall (fun nd => tr_opcode nd <> SVM_ACCEPT) t.
Proof. induction 1; [by constructor|done..| | | |done|done]; by constructor. Qed.

(** A result is as long as what the accepting node has read. *)
Lemma run_trace_accept store prog input t off s res :
  Forall (fun nd => tr_opcode nd <> SVM_ACCEPT) t ->
  run_trace store prog input (t ++ [mkTrace SVM_ACCEPT 0 off]) s = Ok (Some res) -> bit_length res = off * 8.
Proof.
  intros Ht. revert s. induction Ht as [|nd t Hnd _ IH]; intros s H; cbn [app run_trace tr_opcode tr_input_pos] in H.
  { ok_inv. injection H as <-. done. }
  destruct (tr_opcode nd); try done; try (by eapply IH).
  - apply outcome_bind_ok in H as ([f env] & _ & H). apply outcome_bind_ok in H as ([ok s'] & _ & H).
    destruct ok; [by eapply IH|done].
  - apply outcome_bind_ok in H as ([tk s'] & _ & H). ok_inv. by eapply IH.
Qed.

(** * Main theorems *)

(** C6: Compilation preserves languages. For a graph of parsers as the
    constructors make them, without indirect parsers and int_range, when
    h_regex_compile answers with a program whose addresses fit in 16 bits: on
    every input, the program has an accepting path that has read the input up to
    [off] if and only if what is before [off] (with an end of the input for h_end_p)
    is a string of the language of the combinators; every jump that was patched
    for a choice, an option, a repetition or a set of characters leads where the
    combinator means it to. *)
Theorem h_regex_compile_language realloc_ok store a fuel prog input off :
  compilable store -> desugarable store a ->
  h_regex_compile realloc_ok store fuel (Some a) = Ok (0, Some prog) -> pr_length prog <= 65536 ->
  Forall (fun c => 0 <= c < 256) input -> 0 <= off <= Z.of_nat (length input) ->
  (exists t, accepts prog input (mkTrace SVM_ACCEPT 0 off :: t)) <->
  (exists w, parser_language store (S a) (Some a) w /\ consumed input (drop (Z.to_nat off) input) w).
Proof. intros Hst Ha Hok Hsize Hb Hoff. by eapply program_accepts. Qed.

(** C7: Regular parses read strings of the language: whatever the byte machine and
    the stack machine return together on a compiled program, on any memory, the
    result is as long as an initial part of the input that is a string of the
    language of the combinators (the converse fails: the byte machine drops
    threads, RegexDefects). *)
Theorem h_rvm_run_language realloc_ok store a fuel prog input memory1 memory2 res :
  store_wf store -> compilable store -> desugarable store a -> (a < length store)%nat -> (a < fuel)%nat ->
  h_regex_compile realloc_ok store fuel (Some a) = Ok (0, Some prog) -> pr_length prog <= 65536 ->
  Forall (fun c => 0 <= c < 256) input ->
  length memory1 = length (pr_insns prog) -> length memory2 = length (pr_insns prog) ->
  Forall (fun nd => 0 <= sn_index nd) memory1 -> Forall (fun nd => 0 <= sn_index nd) memory2 ->
  h_rvm_run__m store prog input memory1 memory2 = Ok (Some res) ->
  exists off w, bit_length res = off * 8 /\ 0 <= off <= Z.of_nat (length input) /\
    parser_language store (S a) (Some a) w /\ consumed input (drop (Z.to_nat off) input) w.
Proof.
  intros Hwf Hst Ha Hlen Hf Hok Hsize Hb Hl1 Hl2 Hm1 Hm2 H.
  pose proof (program_safe _ _ _ _ Hst _ Hok Hsize Hwf Hlen Hf) as Hsafe.
  apply outcome_bind_ok in H as ([t|] & Ht & H); [|done].
  apply (rvm_trace_accepts _ _ _ _ _ Hsafe Hl1 Hl2 Hm1 Hm2) in Ht.
  pose proof Ht as (off & ip & b & t' & Hp & _ & Hoff & ->).
  assert (0 <= off) as Hoff0 by (by eapply path_off).
  unfold invert_trace in H. cbn [rev] in H. apply run_trace_accept in H.
  2: { apply Forall_rev. by eapply path_no_accept. }
  destruct (proj1 (program_accepts _ _ _ _ Hst Ha _ Hok Hsize input off Hb (conj Hoff0 Hoff))) as (w & Hw & Hc).
  { by exists t'. }
  by exists off, w.
Qed.

(** * Witnesses *)

(** The list of numbers of DesugarLang is regular. *)
Definition number_list_prog : HRVMProg :=
  match h_regex_compile (fun _ => true) number_list_store 9 (Some 7%nat) with
  | Ok (_, Some p) => p
  | _ => empty_prog
  end.
Definition number_list_memory : list (HSArrayNode HRVMTrace) :=
  replicate (length (pr_insns number_list_prog)) (mkSNode 0 0 []).

Lemma number_list_compilable : compilable number_list_store.
Proof.
  let st := eval vm_compute in number_list_store in change (compilable st).
  repeat (constructor; [split; [try done|try done]|]); try constructor; repeat constructor; lia.
Qed.

Lemma number_list_wf : store_wf number_list_store.
Proof. let st := eval vm_compute in number_list_store in change (store_wf st). check_store_wf. Qed.

Lemma number_list_compiles :
  h_regex_compile (fun _ => true) number_list_store 9 (Some 7%nat) = Ok (0, Some number_list_prog) /\
  pr_length number_list_prog <= 65536.
Proof. split; [vm_compute; reflexivity|vm_compute; discriminate]. Qed.

(** "12, 3" *)
Lemma h_regex_compile_language_witness :
  (exists t, accepts number_list_prog [49; 50; 44; 32; 51] (mkTrace SVM_ACCEPT 0 5 :: t)) <->
  (exists w, parser_language number_list_store 8 (Some 7%nat) w /\ consumed [49; 50; 44; 32; 51] [] w).
Proof.
  destruct number_list_compiles as [Hok Hsize].
  apply (h_regex_compile_language (fun _ => true) number_list_store 7 9 number_list_prog [49; 50; 44; 32; 51] 5).
  - exact number_list_compilable.
  - exact number_list_desugarable.
  - exact Hok.
  - exact Hsize.
  - repeat constructor; lia.
  - simpl. lia.
Defined.

Lemma h_rvm_run_language_witness :
  exists res, h_rvm_run__m number_list_store number_list_prog [49; 50; 44; 32; 51] number_list_memory number_list_memory
      = Ok (Some res) /\ bit_length res = 40 /\
    exists off w, bit_length res = off * 8 /\ 0 <= off <= 5 /\
      parser_language number_list_store 8 (Some 7%nat) w /\
      consumed [49; 50; 44; 32; 51] (drop (Z.to_nat off) [49; 50; 44; 32; 51]) w.
Proof.
  destruct number_list_compiles as [Hok Hsize].
  eexists. apply and_keep; [vm_compute; reflexivity|]. intros Hrun. split; [reflexivity|].
  apply (h_rvm_run_language (fun _ => true) number_list_store 7 9 number_list_prog [49; 50; 44; 32; 51]
    number_list_memory number_list_memory).
  - exact number_list_wf.
  - exact number_list_compilable.
  - exact number_list_desugarable.
  - vm_compute. lia.
  - lia.
  - exact Hok.
  - exact Hsize.
  - repeat constructor; lia.
  - vm_compute. reflexivity.
  - vm_compute. reflexivity.
  - apply list.Forall_replicate. simpl. lia.
  - apply list.Forall_replicate. simpl. lia.
  - exact Hrun.
Defined.
