(* ===== verification/RegexSafe.v ===== *)
(** The regular back end does not fault: on a compiled parser whose code leaves its
    tokens where the stack actions expect them (RegexStack), h_rvm_run__m answers,
    on every input, and its result is that of a string of the language. *)

From S2P Require Import Prelude Stream Charset CArray Token Parser Validity SArray Regex RegexVM RegexCompile.
From S2P Require Import Desugar Grammar DesugarWf DesugarLang FirstFacts Consumed RegexStack RegexSeg RegexLang.

(** * There are at most as many actions as instructions *)

Section Counts.
Context (realloc_ok : Z -> bool).

(** No more actions than instructions are added. *)
Definition thrifty {A} (m : R A) : Prop :=
  forall p a p', m p = Ok (a, p') -> pr_action_count p' + pr_length p <= pr_action_count p + pr_length p'.

Lemma thrifty_ret {A} (a : A) : thrifty (mret a).
Proof. by intros p b p' [= _ <-]. Qed.
Lemma thrifty_bind {A B} (m : R A) (k : A -> R B) :
  thrifty m -> (forall a, thrifty (k a)) -> thrifty (m ≫= k).
Proof. intros Hm Hk p b p' (a & q & H1%Hm & H2%Hk)%ST_bind_ok. lia. Qed.
Lemma thrifty_if {A} (b : bool) (m k : R A) : thrifty m -> thrifty k -> thrifty (if b then m else k).
Proof. by destruct b. Qed.
Lemma thrifty_lift {A} (o : outcome A) : thrifty (lift o).
Proof. by intros p a p' [_ ->]%lift_ok. Qed.
Lemma thrifty_get_ip : thrifty h_rvm_get_ip.
Proof. by intros p a p' [= _ <-]. Qed.
Lemma thrifty_get : thrifty (get : R HRVMProg).
Proof. by intros p a p' [= _ <-]. Qed.
Lemma thrifty_throw {A} f : thrifty (throw f : R A).
Proof. by intros p a p'. Qed.

Lemma insert_counts o a p ip p' :
  h_rvm_insert_insn realloc_ok o a p = Ok (ip, p') ->
  pr_length p' = pr_length p + 1 /\ pr_action_count p' = pr_action_count p.
Proof.
  unfold h_rvm_insert_insn. intros H. ok_inv. destruct (_ <? _); [injection H as <- <-|discriminate H].
  unfold pr_length, pr_action_count. cbn [pr_insns pr_actions]. rewrite length_app. simpl. lia.
Qed.
Lemma thrifty_insert_insn o a : thrifty (h_rvm_insert_insn realloc_ok o a).
Proof. intros p ip p' [Hl Ha]%insert_counts. lia. Qed.
Lemma thrifty_insert o a : thrifty (insert_ realloc_ok o a).
Proof. apply thrifty_bind; [apply thrifty_insert_insn|]. intros. apply thrifty_ret. Qed.

Lemma create_action_counts f env p a p' :
  h_rvm_create_action realloc_ok f env p = Ok (a, p') ->
  pr_length p' = pr_length p /\ pr_action_count p' <= pr_action_count p + 1.
Proof.
  unfold h_rvm_create_action. intros H. destruct (list_find _ _) as [[i x]|]; [injection H as _ <-; lia|].
  ok_inv. destruct (_ <? _); [injection H as _ <-|discriminate H].
  unfold pr_length, pr_action_count. cbn [pr_insns pr_actions]. rewrite length_app. simpl. lia.
Qed.

(** An action and an instruction. *)
Lemma thrifty_create f env {A} o x (k : Z -> R A) :
  (forall a, thrifty (k a)) ->
  thrifty (a ← h_rvm_create_action realloc_ok f env; _ ← insert_ realloc_ok o (x a); k a).
Proof.
  intros Hk p b p' (a & q & [Hl Ha]%create_action_counts & (u & q' & H & Hk'%Hk)%ST_bind_ok)%ST_bind_ok.
  apply ST_bind_ok in H as (ip & q'' & [Hl' Ha']%insert_counts & [= _ <-]). lia.
Qed.
Lemma thrifty_action f env : thrifty (insert_action realloc_ok f env).
Proof.
  intros p b p' (a & q & [Hl Ha]%create_action_counts & H)%ST_bind_ok.
  apply ST_bind_ok in H as (ip & q'' & [Hl' Ha']%insert_counts & [= _ <-]). lia.
Qed.

Lemma thrifty_patch ip v : thrifty (h_rvm_patch_arg ip v).
Proof.
  unfold h_rvm_patch_arg. intros p u p' H. ok_inv. injection H as _ <-.
  unfold pr_length, pr_action_count. cbn [pr_insns pr_actions]. rewrite length_alter. lia.
Qed.
End Counts.

Create HintDb thrift.
#[local] Hint Resolve thrifty_ret thrifty_lift thrifty_get_ip thrifty_get thrifty_throw thrifty_insert_insn
  thrifty_insert thrifty_action thrifty_patch : thrift.

Ltac thrift := repeat first
  [ solve [eauto with thrift] | apply thrifty_if | apply thrifty_create; intros ?
  | apply thrifty_bind; [|intros ?] ].

Section Counts_compile.
Context (realloc_ok : Z -> bool) (compile : ptr -> R bool) (Hcompile : forall p, thrifty (compile p)).

Lemma thrifty_repeat n m : thrifty m -> thrifty (repeat_m n m).
Proof. intros Hm. induction n; simpl; thrift. Qed.
Lemma thrifty_token str : thrifty (token_insns realloc_ok str).
Proof. induction str; simpl; thrift. Qed.
Lemma thrifty_cs_ranges cs positions collecting : thrifty (cs_ranges realloc_ok cs positions collecting).
Proof. revert collecting. induction positions; intros [?|]; simpl; thrift. Qed.
Lemma thrifty_patch_gotos n i jump : thrifty (patch_gotos n i jump).
Proof. revert i. induction n; intros i; simpl; thrift. Qed.
Lemma thrifty_ws_ranges ranges start : thrifty (ws_ranges realloc_ok ranges start).
Proof. induction ranges; simpl; thrift. Qed.
Lemma thrifty_compile_all ps : thrifty (compile_all compile ps).
Proof. induction ps; simpl; thrift. Qed.
Lemma thrifty_choice_alts ps : thrifty (choice_alts realloc_ok compile ps).
Proof. induction ps; simpl; thrift. Qed.
Lemma thrifty_patch_all gs jump : thrifty (patch_all gs jump).
Proof. induction gs; simpl; thrift. Qed.
Lemma thrifty_sep ctm sep : thrifty (compile_sep realloc_ok compile ctm sep).
Proof. destruct sep; simpl; thrift. Qed.
Lemma thrifty_many_n n first ctm r : thrifty (many_n realloc_ok compile n first ctm r).
Proof. revert first. induction n; intros first; simpl; [thrift|]. destruct first; thrift; apply thrifty_sep. Qed.
Lemma thrifty_items ps : thrifty (is_items realloc_ok compile ps).
Proof. induction ps; simpl; thrift. Qed.
#[local] Hint Resolve thrifty_repeat thrifty_token thrifty_cs_ranges thrifty_patch_gotos thrifty_ws_ranges
  thrifty_compile_all thrifty_choice_alts thrifty_patch_all thrifty_sep thrifty_many_n thrifty_items : thrift.

Lemma thrifty_many r : thrifty (many_ctrvm realloc_ok compile r).
Proof.
  intros p b p' H. unfold many_ctrvm in H. destruct (rp_min_p r);
    (eapply thrifty_create in H; [exact H|]; intros ctm; thrift).
Qed.

Lemma thrifty_vt e self : thrifty (vt_compile_to_rvm realloc_ok compile e self).
Proof.
  destruct e; cbn [vt_compile_to_rvm]; try apply thrifty_many;
    unfold bits_ctrvm, ch_ctrvm, cs_ctrvm, token_ctrvm, end_ctrvm, epsilon_ctrvm, nothing_ctrvm, opt_ctrvm, ignore_ctrvm,
      ws_ctrvm, sequence_ctrvm, choice_ctrvm, ir_ctrvm, is_ctrvm, action_ctrvm, ab_ctrvm, callback_ctrvm, h_not_regular; thrift.
  - apply thrifty_repeat. thrift.
  - case_match; thrift.
Qed.
End Counts_compile.

Lemma h_compile_regex_thrifty realloc_ok store fuel p : thrifty (h_compile_regex realloc_ok store fuel p).
Proof.
  revert p. induction fuel as [|fuel IH]; intros p; cbn [h_compile_regex]; [by intros ? ? ?|].
  thrift. by apply thrifty_vt.
Qed.

Lemma h_regex_compile_actions realloc_ok store a fuel prog :
  h_regex_compile realloc_ok store fuel (Some a) = Ok (0, Some prog) -> pr_action_count prog <= pr_length prog.
Proof.
  intros (st & p & _ & Hp & u & Hi)%h_regex_compile_ok.
  apply h_compile_regex_thrifty in Hp. apply thrifty_insert in Hi. unfold pr_length, pr_action_count in *. simpl in *. lia.
Qed.

(** * Replays of accepting paths *)

Section Replay.
Context (store : list HParser) (prog : HRVMProg) (input : list Z) (a n : nat) (one : bool).
Context (D : state -> state -> Prop).
Context (HD : describes input store prog D (parser_denot input store (S a) (Some a))).
Context (Hleaves : leaves store n (Some a) one) (Hcount : pr_action_count prog <= 65536).

(** The token of a result. *)
Definition ast_ok (res : HParseResult) : Prop :=
  match ast res with Some t => is_mark t = false | None => one = false end.

Lemma replay_ok off t :
  D start (off, t) -> 0 <= off <= Z.of_nat (length input) ->
  Forall (fun nd => tr_opcode nd <> SVM_ACCEPT) t ->
  exists r, run_trace store prog input (rev t ++ [mkTrace SVM_ACCEPT 0 off]) [] = Ok r /\
    forall res, r = Some res -> bit_length res = off * 8 /\ ast_ok res.
Proof.
  intros HR Hoff Ht. destruct (ds_trace _ _ _ _ _ HD _ _ HR) as [_ (u & Eu & Hu)].
  specialize (Hu Hcount). cbn [fst snd start] in *. subst t. rewrite rev_app_distr. cbn [rev app].
  rewrite app_comm_cons, run_trace_play.
  2: { constructor; [done|]. apply Forall_rev. by apply Forall_app in Ht as [Hu' _]. }
  cbn [play svm_step tr_opcode mbind outcome_bind]. specialize (Hu []).
  destruct (play store input prog (rev u) []) as [[[] s]|f|]; cbn [runs_to mbind outcome_bind] in *.
  - destruct (Hu n one Hleaves) as (new & [= ->] & Hn); [lia..|]. rewrite app_nil_r.
    cbn [run_trace tr_opcode tr_input_pos]. destruct new as [|v [|]]; [..|done].
    + eexists. split; [reflexivity|]. by intros res [= <-].
    + destruct Hn as (v' & -> & Hv). eexists. split; [reflexivity|]. by intros res [= <-].
  - exists None. by split.
  - destruct (Hu n one Hleaves) as (new & [=] & _); lia.
  - destruct (Hu n one Hleaves) as (new & [=] & _); lia.
Qed.
End Replay.

(** C8: Regular parses do not fault. For a graph of parsers as the constructors make
    them, without indirect parsers and int_range, whose functions of the user
    return, whose integers are of 1 to 8 bytes and where ignore and ignoreseq
    ignore and pick children that leave a token (without these conditions there
    are faults, RegexDefects): when h_regex_compile answers with a program whose
    addresses fit in 16 bits, h_rvm_run__m ends on every input and every memory,
    without reading outside the program, the queue or the stack,
    following a NULL token or failing an assertion; a result is as long as an
    initial part of the input that is a string of the language, and its token is
    not a mark, and not NULL where the parser always leaves one. *)
Theorem h_rvm_run_safe realloc_ok store a fuel n one prog input memory1 memory2 :
  store_wf store -> compilable store -> desugarable store a -> (a < length store)%nat -> (a < fuel)%nat ->
  leaves store n (Some a) one ->
  h_regex_compile realloc_ok store fuel (Some a) = Ok (0, Some prog) ->
  pr_length prog <= 65536 ->
  Forall (fun c => 0 <= c < 256) input ->
  length memory1 = length (pr_insns prog) -> length memory2 = length (pr_insns prog) ->
  Forall (fun nd => 0 <= sn_index nd) memory1 -> Forall (fun nd => 0 <= sn_index nd) memory2 ->
  exists r, h_rvm_run__m store prog input memory1 memory2 = Ok r /\
    forall res, r = Some res ->
      ast_ok one res /\
      exists off w, bit_length res = off * 8 /\ 0 <= off <= Z.of_nat (length input) /\
        parser_language store (S a) (Some a) w /\ consumed input (drop (Z.to_nat off) input) w.
Proof.
  intros Hwf Hst Ha Hlen Hf Hlv Hok Hsize Hb Hl1 Hl2 Hm1 Hm2.
  pose proof (h_regex_compile_actions _ _ _ _ _ Hok) as Hcount.
  pose proof (program_safe _ _ _ _ Hst _ Hok Hsize Hwf Hlen Hf) as Hsafe.
  destruct (rvm_trace_ok _ input _ _ Hsafe Hl1 Hl2 Hm1 Hm2) as (r & Er & Hr).
  unfold h_rvm_run__m. rewrite Er. cbn [mbind outcome_bind]. destruct r as [t|]; [|by exists None].
  specialize (Hr t eq_refl). pose proof Hr as (off & ip & b & t' & Hp & _ & Hoff & ->).
  assert (0 <= off) as Hoff0 by (by eapply path_off).
  destruct (program_stretch _ _ _ _ Hst Ha _ Hok Hsize input Hb) as (D & HD & Hacc).
  destruct (replay_ok _ _ _ _ _ _ _ HD Hlv ltac:(lia) off t') as (o & Eo & Ho).
  - by apply Hacc.
  - done.
  - by eapply path_no_accept.
  - unfold invert_trace. cbn [rev]. exists o. split; [exact Eo|]. intros res ->.
    destruct (Ho res eq_refl) as [Hbits Hast]. split; [exact Hast|].
    destruct (proj1 (program_accepts _ _ _ _ Hst Ha _ Hok Hsize input off Hb (conj Hoff0 Hoff))) as (w & Hw & Hc).
    { by exists t'. }
    by exists off, w.
Qed.

(** * Witness *)

(** The list of numbers, on "1,2,". *)
Lemma number_list_leaves : leaves number_list_store 9 (Some 7%nat) true.
Proof.
  let st := eval vm_compute in number_list_store in change (leaves st 9 (Some 7%nat) true).
  cbn. repeat first [done|constructor|split|intros H; by destruct H|intros _].
Qed.

Lemma h_rvm_run_safe_witness :
  leaves number_list_store 9 (Some 7%nat) true /\
  exists r, h_rvm_run__m number_list_store number_list_prog [49; 44; 50; 44] number_list_memory number_list_memory = Ok r /\
    forall res, r = Some res ->
      ast_ok true res /\
      exists off w, bit_length res = off * 8 /\ 0 <= off <= 4 /\
        parser_language number_list_store 8 (Some 7%nat) w /\
        consumed [49; 44; 50; 44] (drop (Z.to_nat off) [49; 44; 50; 44]) w.
Proof.
  destruct number_list_compiles as [Hok Hsize]. split; [exact number_list_leaves|].
  apply (h_rvm_run_safe (fun _ => true) number_list_store 7 9 9 true number_list_prog [49; 44; 50; 44]
    number_list_memory number_list_memory).
  - exact number_list_wf.
  - exact number_list_compilable.
  - exact number_list_desugarable.
  - vm_compute. lia.
  - lia.
  - exact number_list_leaves.
  - exact Hok.
  - exact Hsize.
  - repeat constructor; lia.
  - vm_compute. reflexivity.
  - vm_compute. reflexivity.
  - apply list.Forall_replicate. simpl. lia.
  - apply list.Forall_replicate. simpl. lia.
Defined.
