(* ===== verification/ParseTokens.v ===== *)
(** The tokens of a parse: what the drivers of LLk and LRDriver can hand to the
    reshape functions, predicates and actions of a symbol (src/src/backends/llk.c
    and lr.c), and a check of a grammar under which no reshape function meets a
    token that it does not expect. *)

From S2P Require Import Prelude Stream Charset CArray Token Desugar Grammar DesugarFacts Consumed.

(** * Reshape, validation and action *)

Section Process.
(** The value of a [user_data] that was never written. *)
Context (uninit : Z).

Definition data_of (ch : HCFChoice) : Z := default uninit (cf_user_data ch).

(** The reshaped token has the place of the one it is made of. *)
Definition reshaped (ch : HCFChoice) (t : option HParsedToken) : outcome (option HParsedToken) :=
  match cf_reshape ch with
  | Some r =>
      v ← reshape_action r (mkResult t 0) (data_of ch);
      match v with
      | Some v => t ← deref NullDeref t; Ok (Some (mkTok (tok_data v) (tok_index t) (tok_bit_length v) (tok_bit_offset t)))
      | None => Ok None
      end
  | None => Ok t
  end.

Definition validated (ch : HCFChoice) (v : option HParsedToken) : outcome bool :=
  match cf_pred ch with Some pred => pred (mkResult v 0) (data_of ch) | None => Ok true end.

Definition acted (ch : HCFChoice) (v : option HParsedToken) : outcome (option HParsedToken) :=
  match cf_action ch with Some action => action (mkResult v 0) (data_of ch) | None => Ok v end.

(** The result of a symbol, [None] when the validation refuses it. *)
Definition process (ch : HCFChoice) (t : option HParsedToken) : outcome (option (option HParsedToken)) :=
  v ← reshaped ch t;
  valid ← validated ch v;
  if valid : bool then v ← acted ch v; Ok (Some v) else Ok None.

End Process.

(** * The tokens of derivations *)

Section Tokens.
Context (h : list HCFChoice) (uninit : Z).
(** The LR drivers shift characters and the end of the input as they are and
    reduce a charset from a character; the LL(k) driver processes all of them. *)
Context (lr : bool).

Definition shifted (ch : HCFChoice) : bool :=
  lr && match cf_type ch with HCF_CHAR _ | HCF_END => true | _ => false end.

Definition char_token (c : Z) (t : option HParsedToken) : Prop :=
  exists i o, t = Some (mkTok (TT_UINT c) i 0 o).
Definition sequence_token (vs : list (option HParsedToken)) (t : option HParsedToken) : Prop :=
  exists s i o, t = Some (mkTok (TT_SEQUENCE s) i 0 o) /\ carray_wf s /\ ca_contents s = vs.

(** [raw x t w]: [t] is the token of [x] on the string [w] before it is
    processed; [made x v w]: [v] is the result. *)
Inductive raw : nat -> option HParsedToken -> list symbol -> Prop :=
| raw_end x ch : h !! x = Some ch -> cf_type ch = HCF_END -> raw x None [Sym_end]
| raw_char x ch c t :
    h !! x = Some ch -> cf_type ch = HCF_CHAR c -> char_token c t -> raw x t [Sym c]
| raw_charset x ch cs c v t :
    h !! x = Some ch -> cf_type ch = HCF_CHARSET cs -> 0 <= c < 256 -> charset_isset cs c = Ok true ->
    char_token c v -> (if lr then sequence_token [v] t else t = v) -> raw x t [Sym c]
| raw_choice x ch seqs items vs t w :
    h !! x = Some ch -> cf_type ch = HCF_CHOICE seqs -> items ∈ seqs -> made_seq items vs w ->
    sequence_token vs t -> raw x t w
with made : nat -> option HParsedToken -> list symbol -> Prop :=
| made_shifted x ch t w : h !! x = Some ch -> shifted ch = true -> raw x t w -> made x t w
| made_processed x ch t v w :
    h !! x = Some ch -> shifted ch = false -> raw x t w -> process uninit ch t = Ok (Some v) -> made x v w
with made_seq : list nat -> list (option HParsedToken) -> list symbol -> Prop :=
| made_nil : made_seq [] [] []
| made_cons x items v vs w1 w2 :
    made x v w1 -> made_seq items vs w2 -> made_seq (x :: items) (v :: vs) (w1 ++ w2).

(** The callbacks of a symbol among those of [scope] stopped the program, on the
    token of the symbol for the last bytes that were read of the input. *)
Definition callback_fault (scope : nat -> Prop) (inp : list Z) (f : fault) : Prop :=
  exists x ch t w u left_, scope x /\ h !! x = Some ch /\ shifted ch = false /\ raw x t u /\
    consumed inp left_ (w ++ u) /\ process uninit ch t = Fault f.

(** The same, where the reshape function has returned: the predicate or the
    action of the user stopped the program. *)
Definition user_fault (scope : nat -> Prop) (inp : list Z) (f : fault) : Prop :=
  exists x ch t v w u left_, scope x /\ h !! x = Some ch /\ shifted ch = false /\ raw x t u /\
    consumed inp left_ (w ++ u) /\ reshaped uninit ch t = Ok v /\
    (validated uninit ch v = Fault f \/ (validated uninit ch v = Ok true /\ acted uninit ch v = Fault f)).

Lemma made_seq_snoc items vs w x v u :
  made_seq items vs w -> made x v u -> made_seq (items ++ [x]) (vs ++ [v]) (w ++ u).
Proof.
  intros Hs Hv. induction Hs as [|y items v' vs w1 w2 H1 _ IH]; simpl.
  - rewrite <- (app_nil_r u). by repeat constructor.
  - rewrite <- app_assoc. by constructor.
Qed.

Scheme raw_mut := Minimality for raw Sort Prop
  with made_mut := Minimality for made Sort Prop
  with made_seq_mut := Minimality for made_seq Sort Prop.

(** The strings are those of the grammar. *)
Lemma made_derives x v w : made x v w -> derives h x w.
Proof.
  apply (made_mut (fun x _ w => derives h x w) (fun x _ w => derives h x w) (fun l _ w => derives_seq h l w));
    intros; try done.
  - by eapply derives_end.
  - by eapply derives_char.
  - by eapply derives_charset.
  - by eapply derives_choice.
  - constructor.
  - by constructor.
Qed.

Lemma made_seq_length items vs w : made_seq items vs w -> length vs = length items.
Proof. induction 1; simpl; congruence. Qed.

(** * Reshape functions that fit *)

Definition without_callbacks (ch : HCFChoice) : bool :=
  bool_decide (cf_pred ch = None) && bool_decide (cf_action ch = None).
Definition without_reshape (ch : HCFChoice) : bool := bool_decide (cf_reshape ch = None).

(** The result of [x] is the token of a byte. *)
Definition plain_byte (x : nat) : bool :=
  match h !! x with
  | Some ch =>
      match cf_type ch with
      | HCF_CHAR _ => lr || without_reshape ch && without_callbacks ch
      | HCF_CHARSET _ =>
          without_callbacks ch &&
          if lr then bool_decide (cf_reshape ch = Some R_act_first) else without_reshape ch
      | _ => false
      end
  | None => false
  end.

(** A sequence of a repetition: empty, or two or three symbols with the rest of
    the repetition last. *)
Definition repeats (rest_ok : nat -> bool) (items : list nat) : bool :=
  match items with
  | [] => true
  | [_; y] | [_; _; y] => rest_ok y
  | _ => false
  end.

(** [x] is the rest of a repetition: its tokens reach [reshape_many] unchanged. *)
Definition repetition_rest (x : nat) : bool :=
  match h !! x with
  | Some ch =>
      without_reshape ch && without_callbacks ch &&
      match cf_type ch with HCF_CHOICE seqs => forallb (repeats (Nat.eqb x)) seqs | _ => false end
  | None => false
  end.

(** The reshape function of [ch] expects the tokens that [ch] has. *)
Definition reshape_fits (ch : HCFChoice) : bool :=
  match cf_reshape ch, cf_type ch with
  | None, _ | Some R_act_ignore, _ => true
  | Some R_act_first, HCF_CHARSET _ => lr
  | Some R_act_first, HCF_CHOICE seqs | Some R_act_last, HCF_CHOICE seqs =>
      forallb (fun items => (1 <=? length items)%nat) seqs
  | Some R_act_second, HCF_CHOICE seqs => forallb (fun items => (2 <=? length items)%nat) seqs
  | Some R_bits, HCF_CHOICE seqs =>
      forallb (forallb plain_byte) seqs &&
      (bool_decide (cf_user_data ch = Some 0) || forallb (fun items => (1 <=? length items)%nat) seqs)
  | Some R_token, HCF_CHOICE seqs => forallb (forallb plain_byte) seqs
  | Some R_optional, HCF_CHOICE _ | Some R_sequence, HCF_CHOICE _ => true
  | Some R_many, HCF_CHOICE seqs => forallb (repeats repetition_rest) seqs
  | _, HCF_CHAR _ | _, HCF_END => lr
  | _, _ => false
  end.

Definition reshapes_fit (scope : nat -> Prop) : Prop :=
  forall x ch, scope x -> h !! x = Some ch -> reshape_fits ch = true.

Lemma reshapes_fit_check scope : forallb reshape_fits h = true -> reshapes_fit scope.
Proof.
  intros Hc x ch _ Hx. rewrite forallb_forall in Hc. apply Hc, list_elem_of_In. by eapply list_elem_of_lookup_2.
Qed.

Lemma reshapes_fit_below (scope : nat -> Prop) n :
  (forall x, scope x -> (x < n)%nat) -> forallb reshape_fits (take n h) = true -> reshapes_fit scope.
Proof.
  intros Hlt Hc x ch Hx Hch. rewrite forallb_forall in Hc. apply Hc, list_elem_of_In.
  apply (list_elem_of_lookup_2 _ x). rewrite lookup_take_lt; [done|auto].
Qed.

(** ** Elements of sequences *)

Lemma nonempty_elem vs t n v :
  sequence_token vs t -> vs !! n = Some v ->
  (seq ← assert_nonempty_seq (mkResult t 0); carray_elem seq n) = Ok v.
Proof.
  intros (s & i & o & -> & Hw & Hc) Hv. pose proof (contents_length s Hw) as Hl. rewrite Hc in Hl.
  apply lookup_lt_Some in Hv as Hn. unfold assert_nonempty_seq. cbn [ast assert_seq tok_data mbind outcome_bind].
  rewrite (proj2 (Z.ltb_lt _ _)) by lia. cbn [assert_ok mbind outcome_bind].
  apply carray_elem_contents. by rewrite Hc.
Qed.

(** ** Tokens of bytes *)

Lemma plain_byte_made x v w : plain_byte x = true -> made x v w -> exists c, char_token c v.
Proof.
  unfold plain_byte. intros Hp Hm. destruct Hm as [x ch t w Hx Hs Hr|x ch t v w Hx Hs Hr Hv];
    rewrite Hx in Hp; unfold shifted in Hs;
    (destruct Hr as [? ch' ? Et|? ch' c t ? Et Hc|? ch' cs c v' t ? Et _ _ Hc Ht|? ch' seqs items vs t w ? Et];
      simplify_eq; rewrite Et in Hp, Hs; try done).
  - by exists c.
  - by rewrite andb_false_r in Hs.
  - rewrite andb_true_r in Hs. subst lr. simpl in Hp. apply andb_true_iff in Hp as [Hp1 Hp2].
    apply bool_decide_eq_true in Hp1. apply andb_true_iff in Hp2 as [Hp2%bool_decide_eq_true Hp3%bool_decide_eq_true].
    unfold process, reshaped, validated, acted in Hv. rewrite Hp1, Hp2, Hp3 in Hv. simpl in Hv.
    injection Hv as <-. by exists c.
  - apply andb_true_iff in Hp as [Hp Hp3]. apply andb_true_iff in Hp as [Hp1%bool_decide_eq_true Hp2%bool_decide_eq_true].
    unfold process, validated, acted in Hv. rewrite Hp1, Hp2 in Hv. unfold reshaped in Hv. destruct lr.
    + apply bool_decide_eq_true in Hp3. rewrite Hp3 in Hv. cbn [reshape_action] in Hv. unfold h_act_first in Hv.
      rewrite (nonempty_elem _ _ 0 v' Ht eq_refl) in Hv. destruct Hc as (i & o & ->).
      destruct Ht as (s & i' & o' & -> & _). simpl in Hv. injection Hv as <-. exists c. by do 2 eexists.
    + apply bool_decide_eq_true in Hp3. rewrite Hp3 in Hv. simpl in Hv. injection Hv as <-. subst t. by exists c.
Qed.
Lemma plain_bytes_made items vs w :
  forallb plain_byte items = true -> made_seq items vs w -> exists bytes, Forall2 byte_token bytes vs.
Proof.
  intros Hp Hm. revert Hp. induction Hm as [|x items v vs w1 w2 Hv _ IH]; intros Hp; [by exists []|].
  apply andb_true_iff in Hp as [Hx Hp]. destruct (IH Hp) as [bytes Hb].
  destruct (plain_byte_made x v w1 Hx Hv) as (c & i & o & ->). exists (c :: bytes). constructor; [|done].
  by exists i, 0, o.
Qed.

(** ** Tokens of repetitions *)

Definition repetition_token (v : option HParsedToken) : Prop := exists items t, v = Some t /\ mar items t.

Lemma repeats_token rest_ok items vs t :
  repeats rest_ok items = true -> Forall2 (fun x v => rest_ok x = true -> repetition_token v) items vs ->
  sequence_token vs t -> repetition_token t.
Proof.
  intros Hr Hvs (s & i & o & -> & Hs & Hc). destruct items as [|x [|y [|z [|? ?]]]]; try done.
  - apply Forall2_nil_inv_l in Hvs as ->. exists [], (mkTok (TT_SEQUENCE s) i 0 o). split; [done|].
    constructor. by rewrite <- contents_length, Hc.
  - repeat (apply Forall2_cons_inv_l in Hvs as (? & ? & ? & Hvs & ->)). apply Forall2_nil_inv_l in Hvs as ->.
    match goal with H : rest_ok y = true -> _ |- _ => destruct (H Hr) as (l & t & -> & Ht) end.
    do 2 eexists. split; [done|]. eapply (mar_cons []); [done|simpl; lia|exact Hc|done].
  - repeat (apply Forall2_cons_inv_l in Hvs as (? & ? & ? & Hvs & ->)). apply Forall2_nil_inv_l in Hvs as ->.
    match goal with H : rest_ok z = true -> _ |- _ => destruct (H Hr) as (l & t & -> & Ht) end.
    do 2 eexists. split; [done|]. eapply (mar_cons [_]); [done|simpl; lia|exact Hc|done].
Qed.

Lemma repetition_rest_choice x ch :
  repetition_rest x = true -> h !! x = Some ch ->
  cf_reshape ch = None /\ cf_pred ch = None /\ cf_action ch = None /\
  exists seqs, cf_type ch = HCF_CHOICE seqs /\ forallb (repeats (Nat.eqb x)) seqs = true.
Proof.
  unfold repetition_rest. intros Hr Hx. rewrite Hx in Hr. apply andb_true_iff in Hr as [Hr Ht].
  apply andb_true_iff in Hr as [H1%bool_decide_eq_true Hr].
  apply andb_true_iff in Hr as [H2%bool_decide_eq_true H3%bool_decide_eq_true].
  split_and!; try done. destruct (cf_type ch); try done. by eexists.
Qed.

Lemma repetition_rest_made x v w : made x v w -> repetition_rest x = true -> repetition_token v.
Proof.
  apply (made_mut (fun x t _ => repetition_rest x = true -> repetition_token t)
    (fun x v _ => repetition_rest x = true -> repetition_token v)
    (fun items vs _ => Forall2 (fun x v => repetition_rest x = true -> repetition_token v) items vs)); clear.
  - intros x ch Hx Ht Hr. destruct (repetition_rest_choice x ch Hr Hx) as (_ & _ & _ & seqs & Ht' & _). congruence.
  - intros x ch c t Hx Ht _ Hr. destruct (repetition_rest_choice x ch Hr Hx) as (_ & _ & _ & seqs & Ht' & _). congruence.
  - intros x ch cs c v t Hx Ht _ _ _ _ Hr.
    destruct (repetition_rest_choice x ch Hr Hx) as (_ & _ & _ & seqs & Ht' & _). congruence.
  - intros x ch seqs items vs t w Hx Ht Hi _ IH Hs Hr.
    destruct (repetition_rest_choice x ch Hr Hx) as (_ & _ & _ & seqs' & Ht' & Hrs). rewrite Ht in Ht'. injection Ht' as <-.
    rewrite forallb_forall in Hrs. specialize (Hrs items (proj1 (list_elem_of_In _ _) Hi)).
    eapply repeats_token; [exact Hrs| |done]. eapply Forall2_impl; [|exact IH].
    intros y v Hy ->%Nat.eqb_eq. by apply Hy.
  - done.
  - intros x ch t v w Hx _ _ IH Hv Hr. destruct (repetition_rest_choice x ch Hr Hx) as (H1 & H2 & H3 & _).
    unfold process, reshaped, validated, acted in Hv. rewrite H1, H2, H3 in Hv. simpl in Hv. injection Hv as <-.
    by apply IH.
  - constructor.
  - intros. by constructor.
Qed.

(** ** No reshape function meets a token that it does not expect *)

Lemma reshape_token_loop_ok bytes vs : Forall2 byte_token bytes vs -> exists arr, reshape_token_loop vs = Ok arr.
Proof.
  induction 1 as [|c v bytes vs (i & l & o & ->) _ [arr IH]]; [by eexists|]. simpl. rewrite IH. by eexists.
Qed.

Lemma reshape_bits_loop_total bytes vs :
  Forall2 byte_token bytes vs -> forall ret, exists v, reshape_bits_loop vs ret = Ok v.
Proof.
  induction 1 as [|c v bytes vs (i & l & o & ->) _ IH]; intros ret; [by eexists|]. simpl. apply IH.
Qed.

Lemma reshape_sequence_loop_ok els seq : carray_wf seq -> exists seq', reshape_sequence_loop els seq = Ok seq'.
Proof.
  revert seq. induction els as [|[t|] els IH]; intros seq Hs; [by eexists| |by apply IH].
  cbn [reshape_sequence_loop]. destruct (h_carray_append_ok seq (Some t) Hs) as (seq' & -> & Hs' & _). by apply IH.
Qed.

(** The reshape functions on sequences, by what they expect of the elements. *)
Definition expects (r : reshape_fn) (data : Z) (vs : list (option HParsedToken)) : Prop :=
  match r with
  | R_act_first | R_act_last => (1 <= length vs)%nat
  | R_act_second => (2 <= length vs)%nat
  | R_bits => (exists bytes, Forall2 byte_token bytes vs) /\ (data = 0 \/ (1 <= length vs)%nat)
  | R_token => exists bytes, Forall2 byte_token bytes vs
  | R_many => forall t, sequence_token vs t -> repetition_token t
  | _ => True
  end.

Lemma sequence_elem (s : HCountedArray HParsedToken) vs i :
  carray_wf s -> ca_contents s = vs -> (i < length vs)%nat -> exists v, vs !! i = Some v /\ carray_elem s i = Ok v.
Proof.
  intros Hs Hc Hi. apply lookup_lt_is_Some in Hi as [v Hv]. exists v. split; [done|].
  apply carray_elem_contents. by rewrite Hc.
Qed.

Lemma reshape_action_ok r data vs t :
  expects r data vs -> sequence_token vs t -> exists v, reshape_action r (mkResult t 0) data = Ok v.
Proof.
  intros He Hs. pose proof Hs as (s & i & o & Et & Hw & Hc). pose proof (contents_length s Hw) as Hl. rewrite Hc in Hl.
  assert (forall n, (n < length vs)%nat ->
    exists v, (seq ← assert_nonempty_seq (mkResult t 0); carray_elem seq n) = Ok v) as Hel.
  { intros n [v Hv]%lookup_lt_is_Some. exists v. by apply (nonempty_elem vs). }
  destruct r; cbn [reshape_action expects] in He |- *.
  - by apply Hel.
  - by apply Hel.
  - destruct (Hel (length vs - 1)%nat) as [v Hv]; [lia|]. exists v. rewrite <- Hv. subst t.
    unfold h_act_last, assert_nonempty_seq. cbn [ast assert_seq tok_data mbind outcome_bind].
    destruct (assert_ok _) as [[]| |]; [|done..]. cbn [mbind outcome_bind]. by rewrite Hl.
  - by eexists.
  - destruct He as [[bytes Hb] Hd]. subst t. unfold reshape_bits. cbn [ast assert_seq tok_data mbind outcome_bind].
    fold (ca_contents s). rewrite Hc.
    assert (exists start, (if negb (data =? 0) then
      t ← carray_elem s 0; v ← assert_uint t; Ok (if negb (Z.land v 128 =? 0) then uint64 (-1) else 0)
      else Ok 0) = Ok start) as [start ->].
    { destruct (Z.eqb_spec data 0); [by eexists|]. cbn [negb]. destruct Hd as [|Hd]; [done|].
      destruct (sequence_elem s vs 0 Hw Hc Hd) as (v & Hv & ->).
      destruct (Forall2_lookup_r _ _ _ _ _ Hb Hv) as (c & _ & i' & l' & o' & ->). by eexists. }
    cbn [mbind outcome_bind]. destruct (reshape_bits_loop_total _ _ Hb start) as [v ->]. by eexists.
  - destruct He as [bytes Hb]. subst t. unfold reshape_token. cbn [ast assert_seq tok_data mbind outcome_bind].
    fold (ca_contents s). rewrite Hc. destruct (reshape_token_loop_ok _ _ Hb) as [arr ->]. by eexists.
  - subst t. unfold reshape_optional. cbn [ast assert_seq tok_data mbind outcome_bind].
    destruct (Nat.ltb_spec 0 (ca_used s)); cbn [mbind outcome_bind]; [|by eexists].
    destruct (sequence_elem s vs 0 Hw Hc) as (v & _ & ->); [lia|]. destruct v; by eexists.
  - subst t. unfold reshape_sequence. cbn [ast assert_seq tok_data mbind outcome_bind].
    destruct (reshape_sequence_loop_ok (take (ca_used s) (ca_elements s)) h_carray_new) as [seq ->];
      [apply carray_new_sized_wf|by eexists].
  - destruct (He t Hs) as (items & t' & -> & Hm). destruct (reshape_many_ok items t' 0 data Hm) as (seq & -> & _).
    by eexists.
Qed.

(** The sequences of a choice that fits give its reshape function what it expects. *)
Lemma fits_expects ch r seqs items vs w :
  reshape_fits ch = true -> cf_reshape ch = Some r -> cf_type ch = HCF_CHOICE seqs -> items ∈ seqs ->
  made_seq items vs w -> expects r (data_of uninit ch) vs.
Proof.
  unfold reshape_fits. intros Hf Hr Ht Hi Hm. rewrite Hr, Ht in Hf. pose proof (made_seq_length _ _ _ Hm) as Hl.
  assert (forall P : list nat -> bool, forallb P seqs = true -> P items = true) as Hall.
  { intros P HP. rewrite forallb_forall in HP. by apply HP, list_elem_of_In. }
  assert (forall P : nat -> bool, forallb (forallb P) seqs = true -> forallb P items = true) as Hall2 by auto.
  destruct r; cbn [expects]; try done.
  - apply Hall, Nat.leb_le in Hf. lia.
  - apply Hall, Nat.leb_le in Hf. lia.
  - apply Hall, Nat.leb_le in Hf. lia.
  - apply andb_true_iff in Hf as [Hf Hd]. split; [by eapply plain_bytes_made; [apply Hall2|]|].
    apply orb_true_iff in Hd as [Hd%bool_decide_eq_true|Hd]; [left; unfold data_of; by rewrite Hd|right].
    apply Hall, Nat.leb_le in Hd. lia.
  - by eapply plain_bytes_made; [apply Hall2|].
  - intros t Hs. apply Hall in Hf. eapply repeats_token; [exact Hf| |done]. clear -Hm.
    induction Hm; constructor; [|done]. intros Hy. by eapply repetition_rest_made.
Qed.

Lemma fits_reshaped x ch t w :
  h !! x = Some ch -> shifted ch = false -> raw x t w -> reshape_fits ch = true ->
  exists v, reshaped uninit ch t = Ok v.
Proof.
  intros Hx Hs Hr Hf. unfold reshaped. destruct (cf_reshape ch) as [r|] eqn:Er; [|by eexists].
  destruct (decide (r = R_act_ignore)) as [->|Hri]; [by eexists|].
  assert (forall vs, expects r (data_of uninit ch) vs -> sequence_token vs t -> exists v,
    (v ← reshape_action r (mkResult t 0) (data_of uninit ch);
     match v with
     | Some v => t ← deref NullDeref t;
         Ok (Some (mkTok (tok_data v) (tok_index t) (tok_bit_length v) (tok_bit_offset t)))
     | None => Ok None
     end) = Ok v) as Hok.
  { intros vs He Ht. destruct (reshape_action_ok r _ vs t He Ht) as [v ->].
    destruct Ht as (s & i & o & -> & _). destruct v; by eexists. }
  destruct Hr as [x' ch' Hx' Et|x' ch' c t Hx' Et _|x' ch' cs c v t Hx' Et _ _ _ Ht|x' ch' seqs items vs t w Hx' Et Hi Hm Ht];
    simplify_eq; unfold shifted in Hs; rewrite Et in Hs.
  1, 2: rewrite andb_true_r in Hs; unfold reshape_fits in Hf; rewrite Er, Et, Hs in Hf; by destruct r.
  - apply (Hok [v]); unfold reshape_fits in Hf; rewrite Er, Et in Hf; destruct r; try done.
    + simpl. lia.
    + by rewrite Hf in Ht.
  - apply (Hok vs); [by eapply fits_expects|done].
Qed.

(** When the reshape functions fit, only a predicate or an action of the user
    stops the program. *)
Lemma fits_user_fault scope inp f :
  reshapes_fit scope -> callback_fault scope inp f -> user_fault scope inp f.
Proof.
  intros Hfit (x & ch & t & w & u & left_ & Hsc & Hx & Hs & Hr & Hc & Hf).
  destruct (fits_reshaped x ch t u Hx Hs Hr (Hfit x ch Hsc Hx)) as [v Hv].
  exists x, ch, t, v, w, u, left_. split_and!; try done. unfold process in Hf. rewrite Hv in Hf.
  cbn [mbind outcome_bind] in Hf. destruct (validated uninit ch v) as [[]| |]; simplify_eq/=; [right|by left].
  split; [done|]. by destruct (acted uninit ch v); simplify_eq/=.
Qed.

(** No fault is left when the predicates and actions return. *)
Definition callbacks_return (ch : HCFChoice) : Prop :=
  (forall a, cf_action ch = Some a -> forall r u, exists v, a r u = Ok v) /\
  (forall f, cf_pred ch = Some f -> forall r u, exists v, f r u = Ok v).

Lemma user_fault_returns scope inp f : Forall callbacks_return h -> ~ user_fault scope inp f.
Proof.
  intros Hr (x & ch & t & v & w & u & left_ & _ & Hx & _ & _ & _ & _ & Hf).
  destruct (proj1 (Forall_lookup _ _) Hr _ _ Hx) as [Ha Hp]. unfold validated, acted in Hf. destruct Hf as [Hf|[_ Hf]].
  - destruct (cf_pred ch) as [q|]; [|done]. destruct (Hp q eq_refl (mkResult v 0) (data_of uninit ch)); congruence.
  - destruct (cf_action ch) as [a|]; [|done]. destruct (Ha a eq_refl (mkResult v 0) (data_of uninit ch)); congruence.
Qed.

End Tokens.
