(* ===== verification/LLkTable.v ===== *)
(** The LL(k) parse table (first part of src/src/backends/llk.c): a row for each
    nonterminal, which maps strings of lookahead to productions. The
    table lives longer than the grammar, whose arena h_cfgrammar_free deletes. *)

From S2P Require Import Prelude Charset Token Parser Desugar Grammar StringMap CfGrammar.
From S2P Require Import FirstSets.

(** The production with right-hand side number [i] of the nonterminal [A] is
    the value [V_production A i]; [CONFLICT] marks strings that several
    productions predict. *)
Record HLLkTable := mkLLkTable {
  tb_kmax : nat;
  tb_rows : gmap nat HStringMap;
  tb_start : option nat;
  tb_arena : nat;
  tb_freed : list nat;   (** the arenas that were deleted while the table lives *)
}.

Definition DEFAULT_KMAX : nat := 1.

Definition h_llktable_new (arena : nat) : HLLkTable := mkLLkTable 0 ∅ None arena [].

(** The members of a workset are values: productions, or [CONFLICT] which
    [fill_table_row] takes not to be there. *)
Definition workset_put (v : sm_value) (l : list sm_value) : list sm_value :=
  if decide (v ∈ l) then l else l ++ [v].

(** The workset and the new value of [dst]. *)
Definition combine_entries (workset : list sm_value) (dst src : sm_value)
    : list sm_value * sm_value :=
  if decide (dst = CONFLICT) then (workset_put src workset, dst)
  else if decide (dst <> src) then (workset_put src (workset_put dst workset), CONFLICT)
  else (workset, dst).

Definition merge_entry (workset : list sm_value) (dst src : option sm_value)
    : list sm_value * option sm_value :=
  match src with
  | Some s =>
      match dst with
      | Some d => let '(workset, d) := combine_entries workset d s in (workset, Some d)
      | None => (workset, src)
      end
  | None => (workset, dst)
  end.

(** [dst->epsilon_branch && dst->epsilon_branch != CONFLICT] where [src] has none. *)
Definition unambiguous (dst src : option sm_value) : bool :=
  match src, dst with
  | None, Some d => negb (bool_decide (d = CONFLICT))
  | _, _ => false
  end.

Fixpoint stringmap_merge (workset : list sm_value) (dst src : HStringMap) {struct src}
    : list sm_value * HStringMap :=
  let 'mkStringMap eps end_ chars _ := src in
  if unambiguous (sm_epsilon_branch dst) eps then (workset, dst) else
  let '(workset, e) := merge_entry workset (sm_epsilon_branch dst) eps in
  let dst := set_epsilon e dst in
  let '(workset, d) := merge_entry workset (sm_end_branch dst) end_ in
  let dst := set_end d dst in
  (fix merge (workset : list sm_value) (dst : HStringMap) (l : list (Z * HStringMap)) {struct l} :=
     match l with
     | [] => (workset, dst)
     | (c, src_) :: l =>
         match branch_get c (sm_char_branches dst) with
         | Some dst_ =>
             let '(workset, dst_) := stringmap_merge workset dst_ src_ in
             merge workset (set_branch c dst_ dst) l
         | None =>
             let src_ := if (sm_arena src_ =? sm_arena dst)%nat then src_
                         else h_stringmap_copy (sm_arena dst) src_ in
             merge workset (set_branch c src_ dst) l
         end
     end) workset dst chars.

Section Table.
Context `{IterationOrder} (h : list HCFChoice).

(** The key of an entry as a sequence: the right-hand side of a member of the workset. *)
Definition production_rhs (seq : list (list nat)) (v : sm_value) : outcome (list nat) :=
  match v with
  | V_production _ i => deref NullDeref (seq !! i)
  | _ => Fault AssertFail
  end.

(** One member [v] of the workset in round [k]: its predict set, with [v] as the
    values, is merged into the row. *)
Definition fill_step (k A : nat) (seq : list (list nat)) (v : sm_value)
    (st : list sm_value * HStringMap * HCFGrammar)
    : outcome (list sm_value * HStringMap * HCFGrammar) :=
  let '(nextset, row, g) := st in
  rhs ← production_rhs seq v;
  '(pred, g) ← h_predict h k A rhs g;
  let '(nextset, row) :=
    stringmap_merge nextset row (h_stringmap_replace pred None (Some v)) in
  Ok (nextset, row, g).

(** The rounds [k..kmax]; [rounds] counts them. The result is 0 or -1. *)
Fixpoint fill_rounds (rounds k : nat) (A : nat) (seq : list (list nat)) (workset : list sm_value)
    (row : HStringMap) (g : HCFGrammar) : outcome (Z * HStringMap * HCFGrammar) :=
  match rounds with
  | O => Ok (-1, row, g)
  | S rounds =>
      '(nextset, row, g) ← for_each (fill_step k A seq) (iter_order workset) ([], row, g);
      if bool_decide (nextset = []) then Ok (0, row, g)
      else fill_rounds rounds (S k) A seq nextset (h_stringmap_replace row (Some CONFLICT) None) g
  end.

(** The productions of [A], each put into the first workset. *)
Definition productions (A n : nat) : list sm_value := V_production A <$> seq 0 n.

Definition fill_table_row (kmax : nat) (row : HStringMap) (A : nat) (g : HCFGrammar)
    : outcome (Z * HStringMap * HCFGrammar) :=
  ch ← choice_at h A;
  match cf_type ch with
  | HCF_CHOICE seq => fill_rounds kmax 1 A seq (productions A (length seq)) row g
  | _ => Fault AssertFail
  end.

(** The loop over the nonterminals stops at the first row with conflicts. *)
Fixpoint fill_rows (kmax : nat) (nts : list nat) (table : HLLkTable) (g : HCFGrammar)
    : outcome (Z * HLLkTable * HCFGrammar) :=
  match nts with
  | [] => Ok (0, table, g)
  | a :: nts =>
      let row := h_stringmap_new (tb_arena table) in
      '(r, row, g) ← fill_table_row kmax row a g;
      let table := mkLLkTable (tb_kmax table) (<[a := row]> (tb_rows table)) (tb_start table)
                     (tb_arena table) (tb_freed table) in
      if r <? 0 then Ok (-1, table, g) else fill_rows kmax nts table g
  end.

Definition fill_table (kmax : nat) (g : HCFGrammar) (table : HLLkTable)
    : outcome (Z * HLLkTable * HCFGrammar) :=
  let table := mkLLkTable kmax (tb_rows table) (g_start g) (tb_arena table) (tb_freed table) in
  fill_rows kmax (iter_order (g_nts g)) table g.

End Table.

(** The arena of the grammar is deleted. Nodes of it that the table holds
    (h_stringmap_copy leaves some behind) are memory that was freed. *)
Definition h_cfgrammar_free (g : HCFGrammar) (table : HLLkTable) : HLLkTable :=
  mkLLkTable (tb_kmax table) (tb_rows table) (tb_start table) (tb_arena table) (g_arena g :: tb_freed table).

(** [params] is NULL or the number [kmax]; the result is the code and the table
    put into [backend_data]. The choices of the grammar live on with it. *)
Definition h_llk_compile `{IterationOrder} (fuel : nat) (params : option nat) (p : ptr)
    (st : list HParser) (h : list HCFChoice)
    : outcome (Z * option HLLkTable * list HParser * list HCFChoice) :=
  let kmax := default DEFAULT_KMAX params in
  _ ← assert_ok (0 <? kmax)%nat;
  '(grammar, st, h) ← h_cfgrammar fuel 0 p st h;
  match grammar with
  | None => Ok (-1, None, st, h)
  | Some g =>
      '(r, table, _) ← fill_table h kmax g (h_llktable_new 1);
      if r <? 0 then Ok (-1, None, st, h) else Ok (0, Some (h_cfgrammar_free g table), st, h)
  end.
