(* ===== verification/LLkTableFacts.v ===== *)
(** The table of LLkTable: merging rows, and what a table without conflicts
    holds, and the arenas that own the nodes of its rows. *)

From S2P Require Import Prelude Charset Token Parser Desugar Grammar StringMap CfGrammar.
From S2P Require Import FirstSets FirstFacts LLkTable.

(** * Merging *)

Definition subset (l l' : list sm_value) : Prop := forall v, v ∈ l -> v ∈ l'.

#[global] Instance subset_preorder : PreOrder subset.
Proof. split; [by intros l v|intros l1 l2 l3 H1 H2 v Hv; auto]. Qed.

Lemma elem_of_workset_put v u l : u ∈ workset_put v l <-> u = v \/ u ∈ l.
Proof.
  unfold workset_put. case_decide as Hv.
  - split; [by right|by intros [->|]].
  - rewrite elem_of_app, list_elem_of_singleton. tauto.
Qed.

(** The entry [d'] for a string that had [d] on the left and [s] on the right,
    when the workset has become [ws]. *)
Record entry_kept (ws : list sm_value) (d s d' : option sm_value) : Prop := {
  ek_value : forall v, d' = Some v -> d = Some v \/ s = Some v \/ (v = CONFLICT /\ ws <> []);
  ek_dst : forall v, d = Some v -> d' = Some v \/ (d' = Some CONFLICT /\ v ∈ ws);
}.
Definition entry_added (ws : list sm_value) (s d' : option sm_value) : Prop :=
  forall v, s = Some v -> d' = Some v \/ (d' = Some CONFLICT /\ v ∈ ws).

(** What a merge may put into the workset. *)
Definition from_values (d s : option sm_value) (v : sm_value) : Prop :=
  v <> CONFLICT /\ (d = Some v \/ s = Some v).

Lemma entry_kept_mono ws ws' d s d' : subset ws ws' -> entry_kept ws d s d' -> entry_kept ws' d s d'.
Proof.
  intros Hw [H1 H2]. split.
  - intros v Hv. destruct (H1 v Hv) as [|[|[? Hne]]]; [auto..|]. right. right. split; [done|].
    destruct ws as [|x ws]; [done|]. intros ->. specialize (Hw x ltac:(left)).
    by apply not_elem_of_nil in Hw.
  - intros v Hv. destruct (H2 v Hv) as [|[]]; auto.
Qed.

Lemma entry_added_mono ws ws' s d' : subset ws ws' -> entry_added ws s d' -> entry_added ws' s d'.
Proof. intros Hw H v Hv. destruct (H v Hv) as [|[]]; auto. Qed.

Lemma merge_entry_spec ws d s ws' d' :
  merge_entry ws d s = (ws', d') -> s <> Some CONFLICT ->
  subset ws ws' /\ entry_kept ws' d s d' /\ entry_added ws' s d' /\
  forall v, v ∈ ws' -> v ∈ ws \/ from_values d s v.
Proof.
  unfold merge_entry, combine_entries, entry_added, from_values. intros E Hs.
  destruct s as [s|]; [|injection E as <- <-; split_and!; [done|split; auto|done|auto]].
  destruct d as [d|]; [|injection E as <- <-; split_and!; [done|split; auto; done|auto|auto]].
  destruct (decide (d = CONFLICT)) as [->|Hd]; [|destruct (decide (d <> s)) as [Hds|Hds]];
    injection E as <- <-.
  - split_and!; [intros v Hv; apply elem_of_workset_put; by right|split| |].
    + intros v [= <-]. by left.
    + intros v [= <-]. by left.
    + intros v [= <-]. right. split; [done|]. apply elem_of_workset_put. by left.
    + intros v [->|]%elem_of_workset_put; [right|by left]. split; [congruence|by right].
  - split_and!; [intros v Hv; apply elem_of_workset_put; right; apply elem_of_workset_put; by right
      |split| |].
    + intros v [= <-]. right. right. split; [done|]. intros Hn.
      assert (s ∈ workset_put s (workset_put d ws)) as Hin by (apply elem_of_workset_put; by left).
      rewrite Hn in Hin. by apply not_elem_of_nil in Hin.
    + intros v [= <-]. right. split; [done|]. apply elem_of_workset_put. right.
      apply elem_of_workset_put. by left.
    + intros v [= <-]. right. split; [done|]. apply elem_of_workset_put. by left.
    + intros v [->|[->|]%elem_of_workset_put]%elem_of_workset_put; [right..|by left].
      * split; [congruence|by right].
      * split; [done|by left].
  - destruct (decide (d = s)) as [->|]; [|done]. split_and!; [done|split; auto|auto|auto].
Qed.

(** The loop over the branches of the right map. *)
Fixpoint merge_rows (workset : list sm_value) (dst : HStringMap) (l : list (Z * HStringMap))
    : list sm_value * HStringMap :=
  match l with
  | [] => (workset, dst)
  | (c, src_) :: l =>
      match branch_get c (sm_char_branches dst) with
      | Some dst_ =>
          let '(workset, dst_) := stringmap_merge workset dst_ src_ in
          merge_rows workset (set_branch c dst_ dst) l
      | None =>
          let src_ := if (sm_arena src_ =? sm_arena dst)%nat then src_
                      else h_stringmap_copy (sm_arena dst) src_ in
          merge_rows workset (set_branch c src_ dst) l
      end
  end.

Lemma merge_unfold ws dst eps end_ chars a :
  stringmap_merge ws dst (mkStringMap eps end_ chars a) =
  if unambiguous (sm_epsilon_branch dst) eps then (ws, dst) else
  let '(ws, e) := merge_entry ws (sm_epsilon_branch dst) eps in
  let dst := set_epsilon e dst in
  let '(ws, d) := merge_entry ws (sm_end_branch dst) end_ in
  merge_rows ws (set_end d dst) chars.
Proof. done. Qed.

(** A string of [dst] that decides already before [w] ends. *)
Definition decided (dst : HStringMap) (w : list symbol) : Prop :=
  exists p q u, w = p ++ q /\ q <> [] /\ sm_lookup p dst = Some u /\ u <> CONFLICT.

(** What merging [src] into [dst] does. *)
Record merged (k : nat) (ws : list sm_value) (dst src : HStringMap) (ws' : list sm_value)
    (dst' : HStringMap) : Prop := {
  me_wf : sm_wf k dst -> sm_wf k dst';
  me_subset : subset ws ws';
  me_kept : forall w, entry_kept ws' (sm_lookup w dst) (sm_lookup w src) (sm_lookup w dst');
  me_added : forall w, ~ decided dst w -> entry_added ws' (sm_lookup w src) (sm_lookup w dst');
  me_workset : forall v, v ∈ ws' ->
    v ∈ ws \/ exists w, from_values (sm_lookup w dst) (sm_lookup w src) v;
}.

Definition no_conflict (m : HStringMap) : Prop := forall w, sm_lookup w m <> Some CONFLICT.

Lemma lookup_copy k a m w : sm_wf k m -> sm_lookup w (h_stringmap_copy a m) = sm_lookup w m.
Proof.
  intros Hm. unfold h_stringmap_copy. rewrite (lookup_update k) by done.
  rewrite lookup_new. by destruct (sm_lookup w m).
Qed.

Lemma copy_wf k a m : sm_wf k m -> sm_wf k (h_stringmap_copy a m).
Proof. intros Hm. apply h_stringmap_update_wf; [apply new_map_wf|done]. Qed.

(** The map put for a branch that is not there. *)
Lemma fresh_branch k a m (m' := if (sm_arena m =? a)%nat then m else h_stringmap_copy a m) :
  sm_wf k m -> sm_wf k m' /\ forall w, sm_lookup w m' = sm_lookup w m.
Proof.
  intros Hm. subst m'. case_match; [done|]. split; [by apply copy_wf|].
  intros w. by apply (lookup_copy k).
Qed.

(** What the loop makes of the branch for the key [c]: [s] is the one on the
    right, [d] the one on the left, [d'] the result. *)
Definition branch_merged (k : nat) (ws' : list sm_value) (s d d' : option HStringMap) : Prop :=
  match s, d with
  | None, _ => d' = d
  | Some s, None => exists m, d' = Some m /\ forall w, sm_lookup w m = sm_lookup w s
  | Some s, Some d => exists ws1 ws2 m, d' = Some m /\ merged k ws1 d s ws2 m /\ subset ws2 ws'
  end.

Record rows_merged (k : nat) (ws : list sm_value) (dst : HStringMap) (l : list (Z * HStringMap))
    (ws' : list sm_value) (dst' : HStringMap) : Prop := {
  rm_subset : subset ws ws';
  rm_epsilon : sm_epsilon_branch dst' = sm_epsilon_branch dst;
  rm_end : sm_end_branch dst' = sm_end_branch dst;
  rm_branch : forall c, branch_merged k ws' (branch_get c l)
    (branch_get c (sm_char_branches dst)) (branch_get c (sm_char_branches dst'));
  rm_workset : forall v, v ∈ ws' -> v ∈ ws \/ exists c s d w, branch_get c l = Some s /\
    branch_get c (sm_char_branches dst) = Some d /\ from_values (sm_lookup w d) (sm_lookup w s) v;
}.

(** One branch is put, then the others. *)
Lemma rows_merged_step k ws ws1 c s m l dst ws' dst' :
  c ∉ l.*1 -> subset ws ws1 ->
  branch_merged k ws1 (Some s) (branch_get c (sm_char_branches dst)) (Some m) ->
  (forall v, v ∈ ws1 -> v ∈ ws \/ exists d w, branch_get c (sm_char_branches dst) = Some d /\
     from_values (sm_lookup w d) (sm_lookup w s) v) ->
  rows_merged k ws1 (set_branch c m dst) l ws' dst' ->
  rows_merged k ws dst ((c, s) :: l) ws' dst'.
Proof.
  intros Hc Hws Hb Hv [Hsub He Hd Hbr Hw].
  assert (forall c', branch_get c' (sm_char_branches (set_branch c m dst)) =
    if c =? c' then Some m else branch_get c' (sm_char_branches dst)) as Hget.
  { intros c'. simpl. apply branch_get_put. }
  split; [by etrans|done|done|..].
  - intros c'. specialize (Hbr c'). rewrite Hget in Hbr. cbn [branch_get].
    destruct (Z.eqb_spec c c') as [Heq|Hne]; [subst c'|done].
    rewrite branch_get_none in Hbr by done. simpl in Hbr. rewrite Hbr.
    unfold branch_merged in *. destruct (branch_get c (sm_char_branches dst)); [|done].
    destruct Hb as (w1 & w2 & m' & E & Hm & Hw2). exists w1, w2, m'.
    split; [done|]. split; [done|by etrans].
  - intros v Hin. destruct (Hw v Hin) as [Hin1|(c' & s' & d & w & Hl & Hdst & Hf)].
    + destruct (Hv v Hin1) as [|(d & w & Hdst & Hf)]; [by left|right].
      exists c, s, d, w. cbn [branch_get]. by rewrite Z.eqb_refl.
    + right. rewrite Hget in Hdst. destruct (Z.eqb_spec c c') as [Heq|Hne].
      { subst c'. by rewrite branch_get_none in Hl. }
      exists c', s', d, w. cbn [branch_get]. by destruct (Z.eqb_spec c c').
Qed.

Lemma merge_rows_spec k l ws dst ws' dst' :
  NoDup l.*1 -> (forall e, e ∈ l -> sm_wf k e.2) ->
  (forall e, e ∈ l -> forall ws1 d1 ws2 d2,
     stringmap_merge ws1 d1 e.2 = (ws2, d2) -> merged k ws1 d1 e.2 ws2 d2) ->
  merge_rows ws dst l = (ws', dst') -> rows_merged k ws dst l ws' dst'.
Proof.
  revert ws dst. induction l as [|[c s] l IH]; intros ws dst Hnd Hwf Hm E.
  { injection E as <- <-. split; auto; done. }
  rewrite fmap_cons in Hnd. apply list.NoDup_cons in Hnd as [Hc Hnd]. cbn [merge_rows] in E.
  assert (forall ws1 dst1, merge_rows ws1 dst1 l = (ws', dst') -> rows_merged k ws1 dst1 l ws' dst')
    as Hrest.
  { intros ws1 dst1. apply IH; [done|intros e He; apply Hwf; by right|].
    intros e He. apply Hm. by right. }
  destruct (branch_get c (sm_char_branches dst)) as [d|] eqn:Hd.
  - destruct (stringmap_merge ws d s) as [ws1 d1] eqn:E1.
    pose proof (Hm (c, s) ltac:(left) _ _ _ _ E1) as H1. cbn [snd] in H1.
    apply (rows_merged_step k ws ws1 c s d1); [done|apply H1| | |by apply Hrest].
    + rewrite Hd. by exists ws, ws1, d1.
    + intros v Hv. destruct (me_workset _ _ _ _ _ _ H1 v Hv) as [|[w Hw]]; [by left|].
      right. by exists d, w.
  - destruct (fresh_branch k (sm_arena dst) s) as [_ Hl]; [by apply (Hwf (c, s)); left|].
    eapply (rows_merged_step k ws ws c s); [done|done| |by left|by apply Hrest].
    rewrite Hd. eexists. split; [done|]. exact Hl.
Qed.

Lemma merge_rows_wf k l ws dst ws' dst' :
  (forall e, e ∈ l -> (0 < k)%nat /\ exists c, 0 <= c < 256 /\ e.1 = char_key c) ->
  (forall e, e ∈ l -> sm_wf (pred k) e.2) ->
  (forall e, e ∈ l -> forall ws1 d1 ws2 d2,
     stringmap_merge ws1 d1 e.2 = (ws2, d2) -> merged (pred k) ws1 d1 e.2 ws2 d2) ->
  merge_rows ws dst l = (ws', dst') -> sm_wf k dst -> sm_wf k dst'.
Proof.
  revert ws dst. induction l as [|[c s] l IH]; intros ws dst Hk Hwf Hm E Hdst.
  { by injection E as <- <-. }
  destruct (Hk (c, s)) as (Hpos & b & Hb & Hkey); [by left|]. simpl in Hkey. subst c.
  destruct k as [|k]; [lia|]. cbn [merge_rows] in E. cbn [Nat.pred] in *.
  assert (forall ws1 m, sm_wf k m ->
    merge_rows ws1 (set_branch (char_key b) m dst) l = (ws', dst') -> sm_wf (S k) dst') as Hrest.
  { intros ws1 m Hm1 E1. eapply IH; [..|exact E1|by apply set_branch_wf];
      intros e He; [apply Hk|apply Hwf|apply Hm]; by right. }
  destruct (branch_get _ (sm_char_branches dst)) as [d|] eqn:Hd.
  - destruct (stringmap_merge ws d s) as [ws1 d1] eqn:E1. eapply Hrest; [|exact E].
    apply (Hm (char_key b, s) ltac:(left) _ _ _ _ E1). exact (sm_wf_branch _ _ _ _ Hdst Hd).
  - eapply Hrest; [|exact E]. apply fresh_branch. apply (Hwf (char_key b, s)). by left.
Qed.

(** A string that starts with a byte is that of a branch. *)
Lemma lookup_byte c w m :
  0 <= c < 256 ->
  sm_lookup (Sym c :: w) m =
  match branch_get (char_key c) (sm_char_branches m) with
  | Some n => sm_lookup w n
  | None => None
  end.
Proof. intros Hc. simpl. by rewrite decide_True. Qed.

Lemma lookup_no_byte c w m : ~ 0 <= c < 256 -> sm_lookup (Sym c :: w) m = None.
Proof. intros Hc. simpl. by rewrite decide_False. Qed.

Lemma entry_kept_refl ws d : entry_kept ws d None d.
Proof. split; auto. Qed.

Lemma entry_none ws d : entry_kept ws d None d /\ entry_added ws None d.
Proof. split; [apply entry_kept_refl|done]. Qed.

(** The entries of the strings behind a branch. *)
Lemma branch_merged_entry k ws' c w src dst dst' :
  0 <= c < 256 ->
  branch_merged k ws' (branch_get (char_key c) (sm_char_branches src))
    (branch_get (char_key c) (sm_char_branches dst))
    (branch_get (char_key c) (sm_char_branches dst')) ->
  let d := sm_lookup (Sym c :: w) dst in
  let s := sm_lookup (Sym c :: w) src in
  let d' := sm_lookup (Sym c :: w) dst' in
  entry_kept ws' d s d' /\ (~ decided dst (Sym c :: w) -> entry_added ws' s d').
Proof.
  intros Hc Hb. cbn zeta. rewrite !lookup_byte by done. unfold branch_merged in Hb.
  destruct (branch_get _ (sm_char_branches src)) as [s|].
  2: { rewrite Hb. destruct (entry_none ws' (match branch_get (char_key c) (sm_char_branches dst) with
         | Some n => sm_lookup w n | None => None end)). auto. }
  destruct (branch_get _ (sm_char_branches dst)) as [d|] eqn:Hd.
  - destruct Hb as (ws1 & ws2 & m & -> & Hm & Hsub). split.
    + eapply entry_kept_mono; [done|]. apply Hm.
    + intros Hnd. eapply entry_added_mono; [done|]. apply (me_added _ _ _ _ _ _ Hm).
      intros (p & q & u & -> & Hq & Hl & Hu). apply Hnd. exists (Sym c :: p), q, u.
      split_and!; [done..| |done]. by rewrite lookup_byte, Hd.
  - destruct Hb as (m & -> & Hm). rewrite Hm. split; [split; auto; done|]. intros _ v Hv. by left.
Qed.

Lemma no_conflict_branch c m n :
  no_conflict m -> 0 <= c < 256 -> branch_get (char_key c) (sm_char_branches m) = Some n ->
  no_conflict n.
Proof. intros Hm Hc Hn w Hw. apply (Hm (Sym c :: w)). by rewrite lookup_byte, Hn. Qed.

Lemma unambiguous_spec d s :
  unambiguous d s = true <-> s = None /\ exists u, d = Some u /\ u <> CONFLICT.
Proof.
  unfold unambiguous. destruct s as [s|]; [split; [done|by intros []]|].
  destruct d as [d|]; [|split; [done|by intros (_ & u & ? & _)]].
  rewrite negb_true_iff, bool_decide_eq_false. split; [eauto|]. intros (_ & u & [= <-] & Hu). done.
Qed.

Lemma stringmap_merge_spec k src ws dst ws' dst' :
  sm_wf k src -> no_conflict src -> stringmap_merge ws dst src = (ws', dst') ->
  merged k ws dst src ws' dst'.
Proof.
  intros Hs. revert ws dst ws' dst'. induction Hs as [k eps end_ chars a Hnd Hk Hwf IH].
  intros ws dst ws' dst' Hnc E. rewrite merge_unfold in E.
  destruct (unambiguous _ eps) eqn:Hun.
  { injection E as <- <-. apply unambiguous_spec in Hun as (-> & u & Hu & Huc).
    split; [done|done| | |by left].
    - intros w. split; auto.
    - intros w Hd v Hv. destruct w as [|x w]; [done|]. destruct Hd. exists [], (x :: w), u. done. }
  destruct (merge_entry ws _ eps) as [ws1 e] eqn:E1.
  cbn zeta in E.
  destruct (merge_entry ws1 (sm_end_branch (set_epsilon e dst)) end_) as [ws2 d] eqn:E2.
  apply merge_entry_spec in E1 as (Hsub1 & Hk1 & Ha1 & Hw1); [|by intros ->; apply (Hnc [])].
  apply merge_entry_spec in E2 as (Hsub2 & Hk2 & Ha2 & Hw2);
    [|by intros ->; apply (Hnc [Sym_end])].
  assert (forall x, x ∈ chars -> forall ws1 d1 ws2 d2, stringmap_merge ws1 d1 x.2 = (ws2, d2) ->
            merged (pred k) ws1 d1 x.2 ws2 d2) as Hm.
  { intros x Hx. intros ws3 d3 ws4 d4. apply IH; [done|].
    destruct (Hk x Hx) as (_ & c & Hc & Hkey).
    apply (no_conflict_branch c (mkStringMap eps end_ chars a)); [done..|]. simpl.
    apply branch_get_nodup; [done|]. rewrite <- Hkey. by destruct x. }
  pose proof (merge_rows_spec (pred k) chars ws2 _ ws' dst' Hnd Hwf Hm E)
    as [Hsub He Hd Hbr Hws]. cbn [sm_epsilon_branch sm_end_branch sm_char_branches set_end set_epsilon]
    in He, Hd, Hbr, Hws, Hk2, Hw2.
  split.
  - intros Hdst. eapply merge_rows_wf; [exact Hk|exact Hwf|exact Hm|exact E|].
    by apply set_end_wf, set_epsilon_wf.
  - by do 2 (etrans; [done|]).
  - intros [|[c|] w].
    + cbn [sm_lookup]. rewrite He. by do 2 (eapply entry_kept_mono; [done|]).
    + destruct (decide (0 <= c < 256)) as [Hc|Hc].
      * by apply (branch_merged_entry (pred k) ws' c w (mkStringMap eps end_ chars a)).
      * rewrite !lookup_no_byte by done. by apply entry_kept_refl.
    + destruct w; [cbn [sm_lookup]; rewrite Hd; by eapply entry_kept_mono|].
      apply entry_kept_refl.
  - intros [|[c|] w] Hdec.
    + cbn [sm_lookup]. rewrite He. by do 2 (eapply entry_added_mono; [done|]).
    + destruct (decide (0 <= c < 256)) as [Hc|Hc].
      * by apply (branch_merged_entry (pred k) ws' c w (mkStringMap eps end_ chars a) dst).
      * rewrite (lookup_no_byte c w (mkStringMap _ _ _ _)) by done. done.
    + destruct w; [cbn [sm_lookup]; rewrite Hd; by eapply entry_added_mono|done].
  - intros v Hv. apply Hws in Hv as [Hv|(c & s & d' & w & Hgs & Hgd & Hf)].
    + apply Hw2 in Hv as [Hv|Hv]; [apply Hw1 in Hv as [|Hv]; [by left|]|].
      * right. by exists [].
      * right. by exists [Sym_end].
    + right. destruct (Hk (c, s)) as (_ & b & Hb & Hkey); [by apply branch_get_elem|].
      simpl in Hkey. subst c. exists (Sym b :: w). rewrite !lookup_byte by done. simpl.
      by rewrite Hgs, Hgd.
Qed.

Lemma sm_wf_le k k' m : sm_wf k m -> (k <= k')%nat -> sm_wf k' m.
Proof.
  intros Hm. revert k'. induction Hm as [k eps end_ chars a Hnd Hk _ IH]; intros k' Hle.
  constructor; [done|..].
  - intros e He. destruct (Hk e He) as [? Hc]. split; [lia|done].
  - intros e He. apply IH; [done|]. lia.
Qed.

(** * Rows *)

Section Rows.
Context `{IterationOrder} (h : list HCFChoice) (start kmax : nat) (Hh : grammar_wf h).

(** The string [w] predicts the production [v] of [A]. *)
Definition predicts (A : nat) (w : list symbol) (v : sm_value) : Prop :=
  exists ch seqs i rhs k, h !! A = Some ch /\ cf_type ch = HCF_CHOICE seqs /\
    v = V_production A i /\ seqs !! i = Some rhs /\ (1 <= k <= kmax)%nat /\
    predict_k h start k A rhs w.

(** A row without conflicts. *)
Definition row_sound (A : nat) (row : HStringMap) : Prop :=
  sm_wf kmax row /\ forall w v, sm_lookup w row = Some v -> predicts A w v.

(** A row while it is filled. *)
Definition row_ok (A : nat) (row : HStringMap) : Prop :=
  sm_wf kmax row /\ forall w v, sm_lookup w row = Some v -> v = CONFLICT \/ predicts A w v.

Definition grammar_ok (g : HCFGrammar) : Prop := nts_of h start g /\ analysis_ok h start g.

Variables (A : nat) (ch : HCFChoice) (seqs : list (list nat)).
Hypothesis HA : h !! A = Some ch.
Hypothesis Ht : cf_type ch = HCF_CHOICE seqs.
Hypothesis Hr : reachable h start A.

Definition workset_ok (ws : list sm_value) : Prop :=
  forall v, v ∈ ws -> exists i rhs, v = V_production A i /\ seqs !! i = Some rhs.

Lemma predicts_production w v :
  predicts A w v -> exists i rhs, v = V_production A i /\ seqs !! i = Some rhs.
Proof.
  intros (ch' & seqs' & i & rhs & k & Hch & Ht' & -> & Hi & _). exists i, rhs.
  split; [done|]. assert (seqs' = seqs) as -> by congruence. done.
Qed.

(** The invariant of a round. *)
Definition round_ok (st : list sm_value * HStringMap * HCFGrammar) : Prop :=
  let '(nextset, row, g) := st in
  row_ok A row /\ workset_ok nextset /\ (no_conflict row \/ nextset <> []) /\ grammar_ok g.

Lemma merge_round nextset row g k i rhs pred g' ws' row' :
  round_ok (nextset, row, g) -> (1 <= k <= kmax)%nat -> seqs !! i = Some rhs -> grammar_ok g' ->
  sm_wf k pred -> (forall w, sm_in w pred -> predict_k h start k A rhs w) ->
  stringmap_merge nextset row (h_stringmap_replace pred None (Some (V_production A i))) = (ws', row') ->
  round_ok (ws', row', g').
Proof.
  intros ([Hw Hv] & Hws & Hc & _) Hk Hi Hg' Hp Hs E.
  set (v := V_production A i) in *.
  assert (forall w u, sm_lookup w (h_stringmap_replace pred None (Some v)) = Some u ->
            u = v /\ predicts A w u) as Hsrc.
  { intros w u Hu. rewrite lookup_replace in Hu. unfold replace_value in Hu.
    destruct (sm_lookup w pred) eqn:Hl; [|done]. injection Hu as <-. split; [done|].
    exists ch, seqs, i, rhs, k. split_and!; try done; try lia. apply Hs. by eexists. }
  apply (stringmap_merge_spec kmax) in E.
  2: { apply (sm_wf_le k); [by apply h_stringmap_replace_wf|lia]. }
  2: { by intros w [? _]%Hsrc. }
  destruct E as [Hwf Hsub Hkept _ Hwork]. split_and!.
  - split; [by apply Hwf|]. intros w u Hu.
    destruct (ek_value _ _ _ _ (Hkept w) u Hu) as [Hd|[Hd|[-> _]]]; [by apply Hv| |by left].
    right. by apply Hsrc in Hd as [_ ?].
  - intros u [Hu|(w & Hne & [Hd|Hd])]%Hwork; [by apply Hws|..].
    + destruct (Hv w u Hd) as [|Hp']; [done|]. by eapply predicts_production.
    + destruct (Hsrc w u Hd) as [-> _]. by exists i, rhs.
  - destruct Hc as [Hc|Hne].
    + destruct (decide (ws' = [])) as [->|]; [left|by right]. intros w Hcw.
      destruct (ek_value _ _ _ _ (Hkept w) _ Hcw) as [Hd|[Hd|[_ ?]]];
        [by apply (Hc w)|by apply Hsrc in Hd as [? _]|done].
    + right. destruct nextset as [|x nextset]; [done|]. intros ->.
      specialize (Hsub x ltac:(left)). by apply not_elem_of_nil in Hsub.
  - done.
Qed.

Lemma fill_rounds_ok rounds k ws row g :
  (1 <= k)%nat -> (k + rounds = S kmax)%nat -> row_ok A row -> no_conflict row -> workset_ok ws ->
  grammar_ok g ->
  exists r row' g', fill_rounds h rounds k A seqs ws row g = Ok (r, row', g') /\
    grammar_ok g' /\ ((r = 0 /\ row_sound A row') \/ r = -1).
Proof.
  revert k ws row g. induction rounds as [|rounds IH]; intros k ws row g Hk Hkr Hrow Hnc Hws Hg.
  { exists (-1), row, g. split_and!; [done..|by right]. }
  cbn [fill_rounds].
  destruct (for_each_ind (fun _ => round_ok) (fill_step h k A seqs) (iter_order ws) ([], row, g))
    as ([[ws' row'] g'] & -> & Hrow' & Hws' & Hc & Hg').
  - split_and!; [done|by intros v Hv; apply not_elem_of_nil in Hv|by left|done].
  - intros done_ v rest [[ws1 row1] g1] El Hround.
    destruct (Hws v) as (i & rhs & -> & Hi).
    { rewrite <- (iter_order_perm _ ws), El. apply elem_of_app. by right; left. }
    unfold fill_step, production_rhs. rewrite Hi. cbn [deref mbind outcome_bind].
    pose proof Hround as (_ & _ & _ & Hn1 & Ha1).
    destruct (h_predict_ok h start Hh k A ch seqs rhs g1)
      as (pred & g2 & -> & Hg2 & Hgr2 & Hp & Hs); [done..| |done|done|done|].
    { by eapply list_elem_of_lookup_2. }
    cbn [mbind outcome_bind]. destruct (stringmap_merge _ _ _) as [ws2 row2] eqn:Em.
    eexists. split; [done|]. eapply (merge_round ws1 row1 g1 k i rhs pred); [done|lia|done| |done..].
    split; [by eapply nts_of_grows|done].
  - cbn [mbind outcome_bind]. case_bool_decide as Hn.
    + exists 0, row', g'. split_and!; [done|done|]. left. split; [done|].
      split; [apply Hrow'|]. intros w v Hv. destruct Hrow' as [_ Hrow'].
      destruct (Hrow' w v Hv) as [->|]; [|done]. destruct Hc as [Hc|]; [|done].
      by apply Hc in Hv.
    + assert (forall w v, sm_lookup w (h_stringmap_replace row' (Some CONFLICT) None) = Some v ->
                v <> CONFLICT /\ sm_lookup w row' = Some v) as Hrep.
      { intros w v. rewrite lookup_replace. unfold replace_value. case_decide as Hd; [done|].
        intros Hv. split; [congruence|done]. }
      apply IH; [lia|lia| |intros w Hw; by apply Hrep in Hw as [? _]|done|done].
      split; [apply h_stringmap_replace_wf, Hrow'|]. intros w v [_ Hv]%Hrep. by apply Hrow'.
Qed.

Lemma productions_ok : workset_ok (productions A (length seqs)).
Proof.
  intros v Hv. apply list_elem_of_fmap in Hv as (i & -> & Hi). apply elem_of_seq in Hi.
  destruct (lookup_lt_is_Some_2 seqs i) as [rhs Hrhs]; [lia|]. eauto.
Qed.

End Rows.

Lemma fill_table_row_ok `{IterationOrder} h start kmax A arena g :
  grammar_wf h -> is_choice h A -> reachable h start A -> grammar_ok h start g ->
  exists r row g', fill_table_row h kmax (h_stringmap_new arena) A g = Ok (r, row, g') /\
    grammar_ok h start g' /\ ((r = 0 /\ row_sound h start kmax A row) \/ r = -1).
Proof.
  intros Hh (ch & seqs & HA & Ht) Hr Hg. unfold fill_table_row, choice_at. rewrite HA.
  cbn [deref mbind outcome_bind]. rewrite Ht.
  apply (fill_rounds_ok h start kmax Hh A ch seqs); [done..|lia|lia| | |by apply productions_ok|done].
  - split; [apply new_map_wf|]. intros w v. by rewrite lookup_new.
  - intros w. by rewrite lookup_new.
Qed.

(** A table with a row for each nonterminal of [nts]. *)
Definition table_sound (h : list HCFChoice) (start kmax : nat) (nts : list nat) (t : HLLkTable)
    : Prop :=
  forall a, a ∈ nts -> exists row, tb_rows t !! a = Some row /\ row_sound h start kmax a row.

Lemma fill_rows_ok `{IterationOrder} h start kmax todo nts t g :
  grammar_wf h -> (forall a, a ∈ todo -> is_choice h a /\ reachable h start a) ->
  grammar_ok h start g -> table_sound h start kmax nts t ->
  exists r t' g', fill_rows h kmax todo t g = Ok (r, t', g') /\ grammar_ok h start g' /\
    tb_start t' = tb_start t /\ tb_kmax t' = tb_kmax t /\
    ((r = 0 /\ table_sound h start kmax (nts ++ todo) t') \/ r = -1).
Proof.
  intros Hh. revert nts t g. induction todo as [|a todo IH]; intros nts t g Htodo Hg Ht;
    cbn [fill_rows].
  { exists 0, t, g. rewrite app_nil_r. split_and!; [done..|by left]. }
  destruct (Htodo a) as [Hca Hra]; [by left|].
  destruct (fill_table_row_ok h start kmax a (tb_arena t) g) as (r & row & g1 & -> & Hg1 & Hrow);
    [done..|]. cbn [mbind outcome_bind].
  destruct Hrow as [[-> Hrow]| ->]; cbn [Z.ltb Z.compare];
    [|do 3 eexists; split; [done|]; split_and!; [done..|by right]].
  set (t1 := mkLLkTable _ _ _ _ _).
  destruct (IH (nts ++ [a]) t1 g1) as (r' & t' & g' & -> & Hg' & Hst & Hk & Hres); [|done| |].
  { intros b Hb. apply Htodo. by right. }
  - intros b Hb. subst t1. cbn [tb_rows]. destruct (decide (b = a)) as [->|Hba].
    + exists row. by rewrite lookup_insert_eq.
    + rewrite lookup_insert_ne by done. apply Ht.
      by apply elem_of_app in Hb as [|Hb%list_elem_of_singleton].
  - exists r', t', g'. rewrite <- app_assoc in Hres. by split_and!.
Qed.

Lemma fill_table_ok `{IterationOrder} h start kmax arena g :
  grammar_wf h -> nts_of h start g -> analysis_ok h start g ->
  exists r t g', fill_table h kmax g (h_llktable_new arena) = Ok (r, t, g') /\
    tb_start t = Some start /\ tb_kmax t = kmax /\
    ((r = 0 /\ forall a, a ∈ g_nts g -> exists row, tb_rows t !! a = Some row /\
        row_sound h start kmax a row) \/ r = -1).
Proof.
  intros Hh Hn Ha. unfold fill_table.
  destruct (fill_rows_ok h start kmax (iter_order (g_nts g)) []
    (mkLLkTable kmax (tb_rows (h_llktable_new arena)) (g_start g) (tb_arena (h_llktable_new arena)) (tb_freed (h_llktable_new arena))) g)
    as (r & t & g' & -> & Hg' & Hst & Hk & Hres); [done| |by split|..].
  - intros a. rewrite (iter_order_perm _ (g_nts g)). apply Hn.
  - intros a Hna. by apply not_elem_of_nil in Hna.
  - exists r, t, g'. split_and!; [done|by rewrite Hst; apply Hn|done|].
    destruct Hres as [[-> Hres]|]; [left|by right]. split; [done|]. intros a Hin.
    destruct (Hres a) as (row & Hrow & Hs); [by rewrite (iter_order_perm _ (g_nts g))|]. by exists row.
Qed.

(** * Arenas *)

(** The nodes of a row at a depth of at most one are in its arena: a branch is
    there already or h_stringmap_copy makes its top node there. *)
Definition owned (a : nat) (m : HStringMap) : Prop :=
  sm_arena m = a /\ Forall (fun e => sm_arena e.2 = a) (sm_char_branches m).

Lemma branch_put_Forall {A} (P : Z * A -> Prop) key m l :
  P (key, m) -> Forall P l -> Forall P (branch_put key m l).
Proof.
  intros Hm. induction 1 as [|[k n] l Hn Hl IH]; [by constructor|]. simpl.
  destruct (Z.eqb_spec k key); by constructor.
Qed.

Lemma merge_rows_arena l : forall ws dst,
  Forall (fun e => forall ws m, sm_arena (stringmap_merge ws m e.2).2 = sm_arena m) l ->
  (owned (sm_arena dst) dst -> owned (sm_arena dst) (merge_rows ws dst l).2) /\
  sm_arena (merge_rows ws dst l).2 = sm_arena dst.
Proof.
  induction l as [|[c src] l IH]; intros ws dst Hl; [done|]. cbn [merge_rows].
  apply Forall_cons_1 in Hl as [Hc Hl]. simpl in Hc.
  destruct (branch_get c (sm_char_branches dst)) as [d|] eqn:Hd.
  - specialize (Hc ws d). destruct (stringmap_merge ws d src) as [ws' d']. simpl in Hc.
    destruct (IH ws' (set_branch c d' dst) Hl) as [Ho Ha]. split; [|exact Ha]. intros [_ Hb]. apply Ho.
    split; [done|]. cbn [set_branch sm_char_branches sm_arena]. apply branch_put_Forall; [|done]. simpl. rewrite Hc.
    apply branch_get_elem in Hd. exact (proj1 (list.Forall_forall _ _) Hb _ Hd).
  - set (s := if (sm_arena src =? sm_arena dst)%nat then src else h_stringmap_copy (sm_arena dst) src).
    destruct (IH ws (set_branch c s dst) Hl) as [Ho Ha]. split; [|exact Ha]. intros [_ Hb]. apply Ho.
    split; [done|]. cbn [set_branch sm_char_branches sm_arena]. apply branch_put_Forall; [|done]. simpl.
    subst s. destruct (Nat.eqb_spec (sm_arena src) (sm_arena dst)); [done|]. exact (update_arena (h_stringmap_new (sm_arena dst)) src).
Qed.

Lemma merge_arena src : forall ws dst, sm_arena (stringmap_merge ws dst src).2 = sm_arena dst.
Proof.
  induction src as [eps end_ chars a IH] using string_map_ind. intros ws dst. rewrite merge_unfold.
  destruct (unambiguous _ _); [done|]. destruct (merge_entry ws _ _) as [ws1 e]. cbn zeta. destruct (merge_entry ws1 _ _) as [ws2 d].
  by rewrite (proj2 (merge_rows_arena chars _ _ IH)).
Qed.

Lemma merge_owned a src ws dst : owned a dst -> owned a (stringmap_merge ws dst src).2.
Proof.
  intros Ho. destruct src as [eps end_ chars b]. rewrite merge_unfold.
  destruct (unambiguous _ _); [done|]. destruct (merge_entry ws _ _) as [ws1 e]. cbn zeta. destruct (merge_entry ws1 _ _) as [ws2 d].
  assert (Forall (fun e => forall ws m, sm_arena (stringmap_merge ws m e.2).2 = sm_arena m) chars) as Hall.
  { apply list.Forall_forall. intros x _. apply merge_arena. }
  pose proof (merge_rows_arena chars ws2 (set_end d (set_epsilon e dst)) Hall) as [Hm _].
  destruct Ho as [<- Hb]. by apply Hm.
Qed.

Lemma replace_owned a m old new : owned a m -> owned a (h_stringmap_replace m old new).
Proof.
  destruct m as [eps end_ chars b]. intros [Ha Hb]. split; [done|]. cbn [h_stringmap_replace sm_char_branches] in *.
  induction chars as [|[k n] chars IH]; [done|]. apply Forall_cons_1 in Hb as [Hn Hb]. constructor; [|by apply IH].
  by destruct n.
Qed.

Lemma fill_rounds_owned `{IterationOrder} h a rounds : forall k A seq ws row g r row' g',
  owned a row -> fill_rounds h rounds k A seq ws row g = Ok (r, row', g') -> owned a row'.
Proof.
  induction rounds as [|rounds IH]; intros k A seq ws row g r row' g' Ho E; [by injection E as _ <- _|].
  cbn [fill_rounds] in E. apply outcome_bind_ok in E as ([[ws1 row1] g1] & E1 & E).
  assert (owned a row1) as Ho1.
  { revert E1. generalize (iter_order ws). intros l. generalize (@nil sm_value) at 1. revert row Ho g.
    induction l as [|v l IHl]; intros row Ho g ws0 E1; [by injection E1 as _ <- _|]. cbn [for_each] in E1.
    apply outcome_bind_ok in E1 as ([[ws2 row2] g2] & E2 & E1). eapply IHl; [|exact E1]. unfold fill_step in E2.
    apply outcome_bind_ok in E2 as (rhs & _ & E2). apply outcome_bind_ok in E2 as ([pred g3] & _ & E2).
    destruct (stringmap_merge _ _ _) as [ws3 row3] eqn:Em. injection E2 as <- <- <-.
    change row3 with (ws3, row3).2. rewrite <- Em. by apply merge_owned. }
  case_bool_decide; [by injection E as _ <- _|]. eapply IH; [|exact E]. by apply replace_owned.
Qed.

(** The rows that fill_table makes. *)
Lemma fill_rows_owned `{IterationOrder} h kmax nts : forall t g r t' g',
  (forall x row, tb_rows t !! x = Some row -> owned (tb_arena t) row) ->
  fill_rows h kmax nts t g = Ok (r, t', g') ->
  tb_arena t' = tb_arena t /\ tb_freed t' = tb_freed t /\
  forall x row, tb_rows t' !! x = Some row -> owned (tb_arena t) row.
Proof.
  induction nts as [|a nts IH]; intros t g r t' g' Hrows E; [by injection E as _ <- _|]. cbn [fill_rows] in E.
  apply outcome_bind_ok in E as ([[r1 row] g1] & E1 & E). set (t1 := mkLLkTable _ _ _ _ _) in E.
  assert (owned (tb_arena t) row) as Ho.
  { unfold fill_table_row in E1. apply outcome_bind_ok in E1 as (ch & _ & E1).
    destruct (cf_type ch); try done. eapply fill_rounds_owned; [|exact E1]. by split. }
  assert (forall x row, tb_rows t1 !! x = Some row -> owned (tb_arena t) row) as Hrows1.
  { intros x row'. subst t1. cbn [tb_rows]. rewrite lookup_insert_Some. intros [[_ <-]|[_ Hx]]; [done|eauto]. }
  destruct (r1 <? 0); [by injection E as _ <- _|]. by apply (IH t1) in E.
Qed.

Lemma fill_table_owned `{IterationOrder} h kmax g arena r t g' x row :
  fill_table h kmax g (h_llktable_new arena) = Ok (r, t, g') -> tb_rows t !! x = Some row ->
  tb_arena t = arena /\ tb_freed t = [] /\ owned arena row.
Proof.
  unfold fill_table. intros (Ha & Hf & Hr)%fill_rows_owned Hx; [by split_and!; eauto|]. by intros y row' Hy.
Qed.

(** No row of the table holds memory that was freed. *)
Definition rows_alive (t : HLLkTable) : bool :=
  bool_decide (map_Forall (fun _ row => sm_alive (tb_freed t) row = true) (tb_rows t)).

Lemma rows_alive_row t x row : rows_alive t = true -> tb_rows t !! x = Some row -> sm_alive (tb_freed t) row = true.
Proof. intros H%bool_decide_eq_true Hx. by apply (H x). Qed.

(** With one symbol of lookahead the rows have no node deeper than one. *)
Lemma owned_alive a row freed : sm_wf 1 row -> owned a row -> a ∉ freed -> sm_alive freed row = true.
Proof.
  intros Hw [Ha Hb] Hn. inversion Hw as [k eps end_ chars b _ _ Hbr]; subst. rewrite sm_alive_unfold.
  simpl in Hn, Hb. unfold node_alive. cbn [sm_arena]. rewrite bool_decide_false by done. simpl.
  apply forallb_forall. intros e He%list_elem_of_In. specialize (Hbr e He).
  assert (sm_arena e.2 = b) as Ea by by eapply (proj1 (list.Forall_forall _ _) Hb).
  inversion Hbr as [k eps' end' chars' b' _ Hno _ Ek Em]. rewrite <- Em in *. simpl in Ea. subst b'.
  rewrite sm_alive_unfold. unfold node_alive. cbn [sm_arena]. rewrite bool_decide_false by done. simpl.
  destruct chars' as [|e' chars']; [done|]. destruct (Hno e') as [? _]; [by left|lia].
Qed.

(** * Properties *)

(** C14: fill_table ends without a fault on every grammar that h_cfgrammar_
    makes and returns 0 or -1; if 0, the table has a row for each nonterminal,
    free of conflicts, in which every string of lookahead maps to a production
    of that nonterminal, and only to one that the string predicts, at some
    length up to kmax. *)
Theorem fill_table_sound `{IterationOrder} h start kmax arena g :
  grammar_wf h -> nts_of h start g -> analysis_ok h start g ->
  exists r t g', fill_table h kmax g (h_llktable_new arena) = Ok (r, t, g') /\
    tb_start t = Some start /\ tb_kmax t = kmax /\
    ((r = 0 /\ forall a, a ∈ g_nts g -> exists row, tb_rows t !! a = Some row /\
        forall w v, sm_lookup w row = Some v -> predicts h start kmax a w v) \/ r = -1).
Proof.
  intros Hh Hn Ha. destruct (fill_table_ok h start kmax arena g Hh Hn Ha) as (r & t & g' & E & Hs & Hk & Hr).
  exists r, t, g'. split_and!; [done..|]. destruct Hr as [[-> Hr]|]; [left|by right]. split; [done|].
  intros a Hin. destruct (Hr a Hin) as (row & Hrow & _ & Hp). by exists row.
Qed.

(** Merging a predict set into a row loses nothing: a string of either side
    keeps its value or becomes a conflict whose productions are in the workset,
    except a string of the right side that a shorter string of the left side
    already decides; no other value appears, and the workset gains only values
    of the two sides. *)
Theorem stringmap_merge_correct k src ws dst ws' dst' :
  sm_wf k src -> no_conflict src -> stringmap_merge ws dst src = (ws', dst') ->
  (forall v, v ∈ ws -> v ∈ ws') /\
  (forall w v, sm_lookup w dst' = Some v ->
     sm_lookup w dst = Some v \/ sm_lookup w src = Some v \/ (v = CONFLICT /\ ws' <> [])) /\
  (forall w v, sm_lookup w dst = Some v ->
     sm_lookup w dst' = Some v \/ (sm_lookup w dst' = Some CONFLICT /\ v ∈ ws')) /\
  (forall w v, ~ decided dst w -> sm_lookup w src = Some v ->
     sm_lookup w dst' = Some v \/ (sm_lookup w dst' = Some CONFLICT /\ v ∈ ws')) /\
  (forall v, v ∈ ws' -> v ∈ ws \/
     v <> CONFLICT /\ exists w, sm_lookup w dst = Some v \/ sm_lookup w src = Some v).
Proof.
  intros Hs Hn E. destruct (stringmap_merge_spec k src ws dst ws' dst' Hs Hn E) as [_ Hsub Hk Ha Hw].
  split_and!; [done|intros w; apply Hk|intros w; apply Hk|intros w v Hd; by apply Ha|].
  intros v [|(w & Hc & Hv)]%Hw; [by left|right]. eauto.
Qed.

Lemma fill_table_sound_witness :
  exists t g' row, @fill_table insertion_order parens 1 parens_grammar (h_llktable_new 1) = Ok (0, t, g') /\
    tb_rows t !! 0%nat = Some row /\ sm_lookup [Sym 40] row = Some (V_production 0 0) /\
    predicts parens 0 1 0 [Sym 40] (V_production 0 0).
Proof.
  destruct parens_grammar_ok as (_ & Hn & Ha).
  destruct (@fill_table_sound insertion_order parens 0 1 1 parens_grammar parens_wf Hn Ha)
    as (r & t & g' & E & _ & _ & Hr).
  destruct (Hr : _ \/ _) as [[-> Hrows]|Er]; [|by vm_compute in E; injection E as <-].
  destruct (Hrows 0%nat) as (row & Hrow & Hp); [by left|].
  assert (Hl : sm_lookup [Sym 40] row = Some (V_production 0 0)).
  { vm_compute in E. injection E as <- _. vm_compute in Hrow. by injection Hrow as <-. }
  exists t, g', row. split_and!; [done..|by apply Hp].
Defined.

Lemma stringmap_merge_correct_witness :
  let m v := h_stringmap_put_char (h_stringmap_new 0) 97 v in
  (stringmap_merge [] (m (V_production 0 0)) (m (V_production 0 1))).1 =
    [V_production 0 0; V_production 0 1] /\
  V_production 0 0 ∈ (stringmap_merge [] (m (V_production 0 0)) (m (V_production 0 1))).1.
Proof.
  intros m. split; [done|].
  assert (sm_wf 1 (m (V_production 0 1))) as Hw by (apply put_char_wf; [done|apply new_map_wf]).
  assert (no_conflict (m (V_production 0 1))) as Hc.
  { intros w. unfold m. rewrite lookup_put_char by lia. destruct w as [|[c|] w]; [done| |].
    - case_decide; [by case_decide|by rewrite lookup_new].
    - by rewrite lookup_new. }
  destruct (stringmap_merge_correct 1 _ [] (m (V_production 0 0)) _ _ Hw Hc eq_refl)
    as (_ & _ & Hk & _).
  destruct (Hk [Sym 97] (V_production 0 0)) as [Hl|[_ Hl]]; [done|by vm_compute in Hl|done].
Defined.
