(* ===== verification/LLk.v ===== *)
(** The LL(k) driver (second part of src/src/backends/llk.c): parsing with the
    table of LLkTable, in one piece or chunk by chunk.

    [win.input] always points at [buf]: the buffer is the [is_input] of the
    window. The results live in an arena that is deleted when the parse fails. *)

From S2P Require Import Prelude Stream ByteStream Charset CArray Token Parser Desugar.
From S2P Require Import Grammar StringMap CfGrammar FirstSets LLkTable.

(** What the stack holds: symbols, the frame delimiter, saved sequences. *)
Inductive stack_entry :=
| SE_symbol (x : nat)
| SE_mark
| SE_seq (seq : HCountedArray HParsedToken).

Record HLLkState := mkLLkState {
  ll_stack : list stack_entry;
  ll_seq : option (HCountedArray HParsedToken);
  ll_win : HInputStream;
}.

(** The local variables of [llk_parse_chunk_]; [in_win] tells whether [stream]
    is the window or the chunk. *)
Record llk_run := mkRun {
  lr_stack : list stack_entry;
  lr_seq : HCountedArray HParsedToken;
  lr_win : HInputStream;
  lr_chunk : HInputStream;
  lr_in_win : bool;
}.

Inductive llk_exit := LX_done | LX_no_parse | LX_need_input.

Definition run_stream (st : llk_run) : HInputStream :=
  if lr_in_win st then lr_win st else lr_chunk st.
Definition set_run_stream (s : HInputStream) (st : llk_run) : llk_run :=
  if lr_in_win st then mkRun (lr_stack st) (lr_seq st) s (lr_chunk st) true
  else mkRun (lr_stack st) (lr_seq st) (lr_win st) s false.
Definition set_stack (l : list stack_entry) (st : llk_run) : llk_run :=
  mkRun l (lr_seq st) (lr_win st) (lr_chunk st) (lr_in_win st).
Definition set_seq (seq : HCountedArray HParsedToken) (st : llk_run) : llk_run :=
  mkRun (lr_stack st) seq (lr_win st) (lr_chunk st) (lr_in_win st).
Definition set_win (w : HInputStream) (st : llk_run) : llk_run :=
  mkRun (lr_stack st) (lr_seq st) w (lr_chunk st) (lr_in_win st).

(** A stream with other contents, index, length and position. *)
Definition set_buffer (buf : list Z) (pos index length : Z) (s : HInputStream) : HInputStream :=
  mkStream buf pos index length (is_bit_offset s) (is_margin s) (is_endianness s) (is_overrun s)
    (is_last_chunk s).

(** [memcpy(buf + off, src, n)] for the [n] first elements of [src]. *)
Definition mem_copy (buf : list Z) (off n : Z) (src : list Z) : outcome (list Z) :=
  let bytes := take (Z.to_nat n) src in
  if (0 <=? off) && (off + n <=? Z.of_nat (length buf)) && (n <=? Z.of_nat (length src))
  then Ok (take (Z.to_nat off) buf ++ bytes ++ drop (Z.to_nat off + length bytes) buf)
  else Fault OutOfBounds.

Section Driver.
Context (h : list HCFChoice) (table : HLLkTable).
(** The value of a [user_data] that was never written. *)
Context (uninit : Z).

Definition kmax : Z := Z.of_nat (tb_kmax table).

Definition llk_parse_start_ : outcome HLLkState :=
  start ← deref NullDeref (tb_start table);
  Ok (mkLLkState [SE_symbol start] (Some h_carray_new)
        (mkStream (replicate (2 * tb_kmax table) 0) 0 0 0 0 0 0 false false)).

Definition append_win (win stream : HInputStream) : outcome HInputStream :=
  _ ← assert_ok (is_bit_offset stream =? 0);
  _ ← assert_ok (is_length win =? kmax);
  _ ← assert_ok (is_index win <? kmax);
  let n := is_length stream - is_index stream in
  let n := if kmax <? n then kmax else n in
  buf ← mem_copy (is_input win) kmax n (drop (Z.to_nat (is_index stream)) (is_input stream));
  Ok (set_buffer buf (is_pos win) (is_index win) (is_length win + n) win).

(** The position that the two branches give the window is overwritten. *)
Definition save_win (win stream : HInputStream) : outcome HInputStream :=
  _ ← assert_ok (is_bit_offset stream =? 0);
  let len := is_length stream - is_index stream in
  _ ← assert_ok (len <? kmax);
  if len =? 0 then Ok win else
  '(buf, len) ← (if 0 <? is_length win then
                   _ ← assert_ok (is_length win =? kmax + len);
                   _ ← assert_ok (is_index win <=? kmax);
                   let len := is_length win - is_index win in
                   _ ← assert_ok (len <=? kmax);
                   buf ← mem_copy (is_input win) (kmax - len) len
                           (drop (Z.to_nat (is_index win)) (is_input win));
                   Ok (buf, len)
                 else
                   buf ← mem_copy (is_input win) (kmax - len) len
                           (drop (Z.to_nat (is_index stream)) (is_input stream));
                   Ok (buf, len));
  Ok (set_buffer buf (is_pos stream) (kmax - len) kmax stream).

Definition h_llk_lookup (x : nat) (stream : HInputStream) : outcome lookahead :=
  row ← deref AssertFail (tb_rows table !! x);
  _ ← assert_ok (bool_decide (sm_epsilon_branch row = None));
  h_stringmap_get_lookahead (tb_freed table) row stream.

(** [x->user_data] *)
Definition user_data (x : HCFChoice) : Z := default uninit (cf_user_data x).

(** Reshape, validation and action of [x] on [tok]; [None] if the validation
    fails. *)
Definition llk_process (x : HCFChoice) (tok : option HParsedToken)
    : outcome (option (option HParsedToken)) :=
  tok ← (match cf_reshape x with
         | Some r =>
             t ← reshape_action r (mkResult tok 0) (user_data x);
             match t with
             | Some t =>
                 tok ← deref NullDeref tok;
                 Ok (Some (mkTok (tok_data t) (tok_index tok) (tok_bit_length t) (tok_bit_offset tok)))
             | None => Ok None
             end
         | None => Ok tok
         end);
  valid ← (match cf_pred x with
           | Some pred => pred (mkResult tok 0) (user_data x)
           | None => Ok true
           end);
  if valid : bool then
    tok ← (match cf_action x with
           | Some action => action (mkResult tok 0) (user_data x)
           | None => Ok tok
           end);
    Ok (Some tok)
  else Ok None.

(** Append the result of [x] to the sequence, or fail. *)
Definition llk_result (x : HCFChoice) (tok : option HParsedToken) (st : llk_run)
    : outcome (llk_run + llk_run * llk_exit) :=
  r ← llk_process x tok;
  match r with
  | Some tok => seq ← h_carray_append (lr_seq st) tok; Ok (inl (set_seq seq st))
  | None => Ok (inr (st, LX_no_parse))
  end.

(** [need_input]: no parse at the end of the input, otherwise [x] is put back. *)
Definition need_input (x : nat) (st : llk_run) : llk_run * llk_exit :=
  if is_last_chunk (run_stream st) then (st, LX_no_parse)
  else (set_stack (SE_symbol x :: lr_stack st) st, LX_need_input).

(** The right-hand side of a table entry. *)
Definition entry_items (v : sm_value) : outcome (list nat) :=
  match v with
  | V_production nt i =>
      ch ← choice_at h nt;
      match cf_type ch with
      | HCF_CHOICE seq => deref NullDeref (seq !! i)
      | _ => Fault NullDeref
      end
  | _ => Fault NullDeref
  end.

(** [x] is a nonterminal; the stack is without it. [CONFLICT] is the same
    pointer as [NEED_INPUT]. *)
Definition llk_expand (x : nat) (st : llk_run) : outcome (llk_run + llk_run * llk_exit) :=
  p ← h_llk_lookup x (run_stream st);
  match p with
  | LA_none => Ok (inr (st, LX_no_parse))
  | NEED_INPUT | LA_value CONFLICT =>
      win ← save_win (lr_win st) (lr_chunk st); Ok (inr (need_input x (set_win win st)))
  | LA_value v =>
      items ← entry_items v;
      _ ← assert_ok (negb (bool_decide (head items = Some x)));
      Ok (inl (mkRun ((SE_symbol <$> items) ++ [SE_mark; SE_symbol x; SE_seq (lr_seq st)] ++ lr_stack st)
                 h_carray_new (lr_win st) (lr_chunk st) (lr_in_win st)))
  end.

(** The window is left when its old bytes are consumed. *)
Definition leave_win (st : llk_run) : llk_run :=
  if (0 <? is_length (lr_win st)) && (kmax <=? is_index (lr_win st)) then
    mkRun (lr_stack st) (lr_seq st)
      (set_buffer (is_input (lr_win st)) (is_pos (lr_win st)) (is_index (lr_win st)) 0 (lr_win st))
      (lr_chunk st) false
  else st.

(** [x] is a terminal or a charset. *)
Definition llk_terminal (x : nat) (ch : HCFChoice) (st : llk_run)
    : outcome (llk_run + llk_run * llk_exit) :=
  let stream := run_stream st in
  let tok v := mkTok (TT_UINT v) (is_pos stream + is_index stream) 0 (is_bit_offset stream) in
  '(c, stream) ← h_read_bits stream 8 false;
  let input := uint8 c in
  let st := leave_win (set_run_stream stream st) in
  let stream := run_stream st in
  match cf_type ch with
  | HCF_END =>
      if negb (is_overrun stream) then Ok (inr (st, LX_no_parse))
      else if negb (is_last_chunk stream) then Ok (inr (need_input x st))
      else llk_result ch None st
  | HCF_CHAR chr =>
      if is_overrun stream then Ok (inr (need_input x st))
      else if negb (input =? chr) then Ok (inr (st, LX_no_parse))
      else llk_result ch (Some (tok chr)) st
  | HCF_CHARSET cs =>
      if is_overrun stream then Ok (inr (need_input x st))
      else
        b ← charset_isset cs input;
        if negb b then Ok (inr (st, LX_no_parse)) else llk_result ch (Some (tok input)) st
  | _ => Fault AssertFail
  end.

(** The end of a frame: its sequence becomes the result of the nonterminal. A
    pop of something of another kind than the code expects is [OutOfBounds]. *)
Definition llk_reduce (st : llk_run) : outcome (llk_run + llk_run * llk_exit) :=
  match lr_stack st with
  | SE_symbol x :: SE_seq seq :: stack =>
      ch ← choice_at h x;
      llk_result ch (Some (new_tok (TT_SEQUENCE (lr_seq st)))) (set_seq seq (set_stack stack st))
  | _ => Fault OutOfBounds
  end.

(** One round of the main loop. *)
Definition llk_step (st : llk_run) : outcome (llk_run + llk_run * llk_exit) :=
  match lr_stack st with
  | [] => Ok (inr (st, LX_done))
  | SE_mark :: stack => llk_reduce (set_stack stack st)
  | SE_symbol x :: stack =>
      ch ← choice_at h x;
      match cf_type ch with
      | HCF_CHOICE _ => llk_expand x (set_stack stack st)
      | _ => llk_terminal x ch (set_stack stack st)
      end
  | SE_seq _ :: _ => Fault OutOfBounds
  end.

Fixpoint llk_loop (fuel : nat) (st : llk_run) : outcome (llk_run * llk_exit) :=
  match fuel with
  | O => OutOfFuel
  | S fuel =>
      r ← llk_step st;
      match r with
      | inl st => llk_loop fuel st
      | inr r => Ok r
      end
  end.

(** The new state, with the sequence that is returned, and the chunk. *)
Definition llk_parse_chunk_ (fuel : nat) (s : HLLkState) (chunk : HInputStream)
    : outcome (HLLkState * HInputStream) :=
  _ ← assert_ok (is_index chunk =? 0);
  _ ← assert_ok (is_bit_offset chunk =? 0);
  match ll_seq s with
  | None => Ok (s, chunk)
  | Some seq =>
      '(win, in_win) ← (if 0 <? is_length (ll_win s)
                        then win ← append_win (ll_win s) chunk; Ok (win, true)
                        else Ok (ll_win s, false));
      '(st, exit) ← llk_loop fuel (mkRun (ll_stack s) seq win chunk in_win);
      match exit with
      | LX_done =>
          _ ← assert_ok (ca_used (lr_seq st) =? 1)%nat;
          Ok (mkLLkState (lr_stack st) (Some (lr_seq st)) (lr_win st), lr_chunk st)
      | LX_need_input => Ok (mkLLkState (lr_stack st) (Some (lr_seq st)) (lr_win st), lr_chunk st)
      | LX_no_parse => Ok (mkLLkState (lr_stack st) None (lr_win st), lr_chunk st)
      end
  end.

Definition llk_parse_finish_ (s : HLLkState) : outcome (option HParseResult) :=
  match ll_seq s with
  | Some seq =>
      _ ← assert_ok (ca_used seq =? 1)%nat;
      t ← carray_elem seq 0;
      Ok (Some (mkResult t 0))
  | None => Ok None
  end.

Definition h_llk_parse (fuel : nat) (stream : HInputStream)
    : outcome (option HParseResult * HInputStream) :=
  s ← llk_parse_start_;
  _ ← assert_ok (is_last_chunk stream);
  '(s, stream) ← llk_parse_chunk_ fuel s stream;
  res ← llk_parse_finish_ s;
  Ok (match res with
      | Some r => Some (mkResult (ast r) (is_index stream * 8 + is_bit_offset stream))
      | None => None
      end, stream).

Definition h_llk_parse_start : outcome HLLkState := llk_parse_start_.

(** True when the parse is over. *)
Definition h_llk_parse_chunk (fuel : nat) (s : HLLkState) (input : HInputStream)
    : outcome (bool * HLLkState * HInputStream) :=
  '(s, input) ← llk_parse_chunk_ fuel s input;
  Ok (bool_decide (ll_seq s = None) || bool_decide (ll_stack s = []), s, input).

Definition h_llk_parse_finish (s : HLLkState) : outcome (option HParseResult) := llk_parse_finish_ s.

End Driver.
