(* ===== verification/LLkFacts.v ===== *)
(** The driver of LLk on a table without conflicts: it accepts only what the
    grammar derives, with the token that the callbacks make along the derivation,
    stops otherwise only in a callback on the token of its symbol, and ends on
    every input when the grammar is not left-recursive. The table must not hold
    freed memory, which is proved for one symbol of lookahead. *)

From S2P Require Import Prelude Stream ByteStream Charset CArray Token Parser Desugar.
From S2P Require Import Grammar StringMap CfGrammar FirstSets FirstFacts LLkTable.
From S2P Require Import LLkTableFacts LLk Consumed ParseTokens.

(** * Left recursion *)

(** [x] derives a string without bytes. *)
Definition derives_no_byte (h : list HCFChoice) (x : nat) : Prop :=
  exists n, derives h x (replicate n Sym_end).

(** [y] can be met in [x] before any byte is read. *)
Definition left_of (h : list HCFChoice) (y x : nat) : Prop :=
  exists ch seqs l r, h !! x = Some ch /\ cf_type ch = HCF_CHOICE seqs /\ (l ++ y :: r) ∈ seqs /\
    Forall (derives_no_byte h) l.

Definition no_left_recursion (h : list HCFChoice) (start : nat) : Prop :=
  forall x, reachable h start x -> Acc (left_of h) x.

(** ** A check for left recursion

    [nb] marks the choices that may derive a string without bytes, [rank] goes
    down from a choice to those it starts with. *)

Definition silent_check (nb : nat -> bool) (x : nat) (ch : HCFChoice) : bool :=
  match cf_type ch with
  | HCF_END => nb x
  | HCF_CHOICE seqs => nb x || negb (existsb (forallb nb) seqs)
  | _ => true
  end.

Fixpoint lefts (nb : nat -> bool) (items : list nat) : list nat :=
  match items with [] => [] | y :: items => y :: if nb y then lefts nb items else [] end.

Definition rank_check (nb : nat -> bool) (rank : nat -> nat) (x : nat) (ch : HCFChoice) : bool :=
  match cf_type ch with
  | HCF_CHOICE seqs => forallb (forallb (fun y => (rank y <? rank x)%nat)) (lefts nb <$> seqs)
  | _ => true
  end.

Definition left_check (nb : nat -> bool) (rank : nat -> nat) (h : list HCFChoice) : bool :=
  forallb (fun '(x, ch) => silent_check nb x ch && rank_check nb rank x ch) (imap pair h).

Lemma left_check_at nb rank h x ch :
  left_check nb rank h = true -> h !! x = Some ch -> silent_check nb x ch = true /\ rank_check nb rank x ch = true.
Proof.
  intros H Hx. unfold left_check in H. rewrite forallb_forall in H.
  assert ((x, ch) ∈ imap pair h) as Hin by (apply elem_of_lookup_imap; by exists x, ch).
  apply list_elem_of_In, H, andb_true_iff in Hin. done.
Qed.

Lemma silent_derives nb rank h x w :
  left_check nb rank h = true -> derives h x w -> Forall (fun s => s = Sym_end) w -> nb x = true.
Proof.
  intros Hc Hd. apply (derives_mut h (fun x w => Forall (fun s => s = Sym_end) w -> nb x = true)
    (fun l w => Forall (fun s => s = Sym_end) w -> forallb nb l = true)); [..|done].
  - intros y ch c _ _ Hw. by apply Forall_inv in Hw.
  - intros y ch cs c _ _ _ _ Hw. by apply Forall_inv in Hw.
  - intros y ch Hy Et _. destruct (left_check_at _ _ _ _ _ Hc Hy) as [Hs _]. unfold silent_check in Hs. by rewrite Et in Hs.
  - intros y ch seqs items v Hy Et Hi _ IH Hv. destruct (left_check_at _ _ _ _ _ Hc Hy) as [Hs _].
    unfold silent_check in Hs. rewrite Et in Hs. apply orb_true_iff in Hs as [|Hs]; [done|].
    apply negb_true_iff in Hs. assert (existsb (forallb nb) seqs = true) as Hex; [|congruence].
    apply existsb_exists. exists items. split; [by apply list_elem_of_In|by apply IH].
  - done.
  - intros y items w1 w2 _ IH1 _ IH2 [H1 H2]%Forall_app. simpl. by rewrite IH1, IH2.
Qed.

Lemma lefts_prefix nb l y r : forallb nb l = true -> y ∈ lefts nb (l ++ y :: r).
Proof.
  induction l as [|x l IH]; simpl; [by left|]. intros [Hx Hl]%andb_true_iff. rewrite Hx. right. by apply IH.
Qed.

Lemma left_check_ok nb rank h : left_check nb rank h = true -> forall start, no_left_recursion h start.
Proof.
  intros Hc start x _. remember (rank x) as n eqn:En. revert x En.
  induction n as [n IH] using lt_wf_ind. intros x ->. constructor.
  intros y (ch & seqs & l & r & Hx & Et & Hin & Hl). apply (IH (rank y)); [|done].
  destruct (left_check_at _ _ _ _ _ Hc Hx) as [_ Hr]. unfold rank_check in Hr. rewrite Et in Hr.
  rewrite forallb_forall in Hr. specialize (Hr (lefts nb (l ++ y :: r))).
  assert (lefts nb (l ++ y :: r) ∈ lefts nb <$> seqs) as Hseq by (apply list_elem_of_fmap; by eexists).
  specialize (Hr (proj1 (list_elem_of_In _ _) Hseq)). rewrite forallb_forall in Hr.
  apply Nat.ltb_lt, Hr. apply list_elem_of_In, lefts_prefix. apply forallb_forall.
  intros z [n Hz]%list_elem_of_In%(proj1 (list.Forall_forall _ _) Hl). eapply silent_derives; [done..|].
  by apply Forall_replicate.
Qed.

(** The marks by iteration, the ranks by the longest descent. *)
Definition silent_pass (h : list HCFChoice) (nb : list bool) : list bool :=
  (fun ch => match cf_type ch with
             | HCF_END => true
             | HCF_CHOICE seqs => existsb (forallb (fun y => default false (nb !! y))) seqs
             | _ => false
             end) <$> h.
Definition silent_marks (h : list HCFChoice) : list bool :=
  Nat.iter (length h) (silent_pass h) (replicate (length h) false).
Definition rank_pass (h : list HCFChoice) (nb : list bool) (rank : list nat) : list nat :=
  (fun ch => match cf_type ch with
             | HCF_CHOICE seqs =>
                 S (max_list (concat (fmap (fun y => default 0%nat (rank !! y)) <$>
                      (lefts (fun y => default false (nb !! y)) <$> seqs))))
             | _ => 0%nat
             end) <$> h.
Definition rank_list (h : list HCFChoice) : list nat :=
  Nat.iter (length h) (rank_pass h (silent_marks h)) (replicate (length h) 0%nat).

Definition no_left_recursion_b (h : list HCFChoice) : bool :=
  let nb := silent_marks h in let rank := rank_list h in
  left_check (fun y => default false (nb !! y)) (fun y => default 0%nat (rank !! y)) h.

Lemma no_left_recursion_b_ok h start : no_left_recursion_b h = true -> no_left_recursion h start.
Proof. intros H. by eapply left_check_ok. Qed.

Lemma acc_irrefl {A} (R : A -> A -> Prop) x : Acc R x -> ~ R x x.
Proof. induction 1 as [x _ IH]. intros Hx. exact (IH x Hx Hx). Qed.

Lemma no_byte_seq h l :
  Forall (derives_no_byte h) l -> exists n, derives_seq h l (replicate n Sym_end).
Proof.
  induction 1 as [|x l [n Hx] _ [m IH]]; [exists 0%nat; constructor|].
  exists (n + m)%nat. rewrite replicate_add. by constructor.
Qed.

Lemma no_byte_choice h x ch seqs items :
  h !! x = Some ch -> cf_type ch = HCF_CHOICE seqs -> items ∈ seqs ->
  Forall (derives_no_byte h) items -> derives_no_byte h x.
Proof. intros Hx Ht Hi [n Hn]%no_byte_seq. exists n. by eapply derives_choice. Qed.

(** * What was read *)

Lemma leftmost_step_terminal h s w x r y :
  leftmost h s w (x :: r) -> terminal h x y -> leftmost h s (w ++ [y]) r.
Proof. intros Hw Hx. eapply leftmost_trans; [done|]. constructor; [done|constructor]. Qed.

Lemma leftmost_step_choice h s w x r ch seqs items :
  leftmost h s w (x :: r) -> h !! x = Some ch -> cf_type ch = HCF_CHOICE seqs -> items ∈ seqs ->
  leftmost h s w (items ++ r).
Proof.
  intros Hw Hx Ht Hi. rewrite <- (app_nil_r w). eapply leftmost_trans; [done|].
  eapply leftmost_choice; [done..|constructor].
Qed.

(** * The state *)

Section Driver.
Context (h : list HCFChoice) (table : HLLkTable) (uninit : Z) (start : nat) (inp : list Z).

Hypothesis Hh : grammar_wf h.
Hypothesis Hrows : forall a, is_choice h a -> reachable h start a ->
  exists row, tb_rows table !! a = Some row /\ sm_alive (tb_freed table) row = true /\
    forall w v, sm_lookup w row = Some v -> predicts h start (tb_kmax table) a w v.

Hypothesis Hstart : is_choice h start.

(** The stack, the tokens of the sequence in use, what was read [w] and the symbols
    that are still to be derived. The items of an open frame that are done have
    the tokens of the sequence; the sequence that the frame has saved is that of
    the frame below, which is about to get the result of [x]. *)
Inductive framed : list stack_entry -> list (option HParsedToken) -> list symbol -> list nat -> Prop :=
| framed_start : framed [SE_symbol start] [] [] [start]
| framed_done v w : made h uninit false start v w -> framed [] [v] w []
| framed_open x ch seqs done_ todo vs u seq st w p :
    h !! x = Some ch -> cf_type ch = HCF_CHOICE seqs -> done_ ++ todo ∈ seqs -> carray_wf seq ->
    reachable h start x -> made_seq h uninit false done_ vs u -> framed (SE_symbol x :: st) (ca_contents seq) w (x :: p) ->
    framed ((SE_symbol <$> todo) ++ SE_mark :: SE_symbol x :: SE_seq seq :: st) vs (w ++ u) (todo ++ p).

Record run_ok (st : llk_run) (w : list symbol) (p : list nat) : Prop := {
  ro_win : lr_in_win st = false;
  ro_no_win : is_length (lr_win st) = 0;
  ro_seq : carray_wf (lr_seq st);
  ro_stack : framed (lr_stack st) (ca_contents (lr_seq st)) w p;
  ro_leftmost : leftmost h [start] w p;
  ro_stream : stream_ok inp (lr_chunk st) w;
}.

(** A callback of a symbol that the parse reached stopped the program. *)
Definition stopped : fault -> Prop := callback_fault h uninit false (reachable h start) inp.

Hypothesis Hcallbacks : forall x ch tok, h !! x = Some ch -> llk_process uninit ch tok <> OutOfFuel.

(** The results of the main loop. *)
Definition exit_ok (st : llk_run) (e : llk_exit) : Prop :=
  match e with
  | LX_done => lr_stack st = [] /\ exists w, run_ok st w []
  | LX_no_parse => True
  | LX_need_input => False
  end.

Definition outcome_ok (o : outcome (llk_run * llk_exit)) : Prop :=
  match o with
  | Ok (st, e) => exit_ok st e
  | Fault f => stopped f
  | OutOfFuel => False
  end.

Definition good (st : llk_run) : Prop := exists fuel, outcome_ok (llk_loop h table uninit fuel st).

(** A round leads to a good state or to an exit. *)
Definition step_good (o : outcome (llk_run + llk_run * llk_exit)) : Prop :=
  match o with
  | Ok (inl st) => good st
  | Ok (inr (st, e)) => exit_ok st e
  | Fault f => stopped f
  | OutOfFuel => False
  end.

Lemma good_step st : step_good (llk_step h table uninit st) -> good st.
Proof.
  unfold good, step_good. intros Hs. destruct (llk_step h table uninit st) as [[st'|[st' e]]|f|] eqn:E.
  - destruct Hs as [fuel Hf]. exists (S fuel). cbn [llk_loop]. by rewrite E.
  - exists 1%nat. cbn [llk_loop]. by rewrite E.
  - exists 1%nat. cbn [llk_loop]. by rewrite E.
  - done.
Qed.

(** The result of the symbol on top is appended, or the parse ends. *)
Lemma framed_pop x stk vs w p v u :
  framed (SE_symbol x :: stk) vs w (x :: p) -> made h uninit false x v u -> framed stk (vs ++ [v]) (w ++ u) p.
Proof.
  inversion 1 as [Hs|?|x0 ch seqs done_ todo vs0 u0 seq st w0 p0 Hx Ht Hi Hs Hr Hd Hf]; subst; intros Hv.
  - by apply framed_done.
  - destruct todo as [|y todo]; [done|]. simplify_eq/=. rewrite <- app_assoc.
    apply (framed_open _ ch seqs (done_ ++ [x])); try done; [by rewrite <- app_assoc|].
    by apply made_seq_snoc.
Qed.

Lemma framed_symbol x stk vs w p :
  framed (SE_symbol x :: stk) vs w p -> exists p', p = x :: p' /\ (x < length h)%nat /\ reachable h start x.
Proof.
  inversion 1 as [Hs|?|x0 ch seqs done_ todo vs0 u0 seq st w0 p0 Hx Ht Hi Hs Hr Hd Hf]; subst.
  - exists []. split; [done|]. split; [by apply is_choice_lt|apply rtc_refl].
  - destruct todo as [|y todo]; [done|]. simplify_eq/=. exists (todo ++ p0). split; [done|].
    assert (occurs h x0 x) as Ho.
    { exists ch, seqs, (done_ ++ x :: todo). split_and!; [done..|]. apply elem_of_app. right. by left. }
    split; [|by eapply rtc_r]. apply occurs_concat in Ho as (ch2 & seqs2 & ? & ? & ?). by eapply wf_items.
Qed.

(** The processing of [tok], the token of [x] on [u], which was just read. *)
Lemma llk_result_good x ch tok st w u left_ :
  h !! x = Some ch -> reachable h start x -> raw h uninit false x tok u -> consumed inp left_ (w ++ u) ->
  carray_wf (lr_seq st) ->
  (forall v seq, made h uninit false x v u -> carray_wf seq -> ca_contents seq = ca_contents (lr_seq st) ++ [v] ->
     good (set_seq seq st)) ->
  step_good (llk_result uninit ch tok st).
Proof.
  intros Hx Hr Ht Hc Hw Hg. unfold llk_result.
  destruct (llk_process uninit ch tok) as [[v|]|f|] eqn:E; cbn [mbind outcome_bind].
  - destruct (h_carray_append_ok (lr_seq st) v Hw) as (seq & -> & Hs & Hcs & _). simpl.
    apply (Hg v); [|done..]. by eapply made_processed.
  - done.
  - by exists x, ch, tok, w, u, left_.
  - by eapply Hcallbacks.
Qed.

Lemma row_epsilon a row :
  is_choice h a ->
  (forall w v, sm_lookup w row = Some v -> predicts h start (tb_kmax table) a w v) ->
  sm_epsilon_branch row = None.
Proof.
  intros Ha Hrow. destruct (sm_epsilon_branch row) as [v|] eqn:He; [|done]. exfalso.
  destruct (Hrow [] v He) as (ch & seqs & i & rhs & k & _ & _ & _ & _ & Hk & (b & _ & _ & Hf)).
  destruct Hf as [Hf|[u Hu]]; [simpl in Hf; lia|by destruct u].
Qed.

(** Looking a nonterminal up gives one of its productions or no parse. *)
Lemma h_llk_lookup_ok a c w :
  is_choice h a -> reachable h start a -> stream_ok inp c w ->
  h_llk_lookup table a c = Ok LA_none \/
  exists i ch seqs items, h_llk_lookup table a c = Ok (LA_value (V_production a i)) /\
    h !! a = Some ch /\ cf_type ch = HCF_CHOICE seqs /\ seqs !! i = Some items.
Proof.
  intros Ha Hr Hc. destruct (Hrows a Ha Hr) as (row & Hrow & Hal & Hp). unfold h_llk_lookup.
  rewrite Hrow. cbn [deref mbind outcome_bind].
  rewrite bool_decide_true by (by eapply row_epsilon). cbn [assert_ok mbind outcome_bind].
  unfold h_stringmap_get_lookahead.
  rewrite get_lookahead_loop_ok; [|done|apply Hc|apply Hc|done].
  pose proof (predict_bytes_spec (rest c) row (is_last_chunk c) (rest_bytes _ (so_aligned _ _ _ Hc)))
    as Hl.
  destruct (predict_bytes _ _ _) as [|v|]; [by left| |].
  - right. destruct Hl as (u & [Hu _] & _).
    destruct (Hp u v Hu) as (ch & seqs & i & rhs & k & Hch & Ht & -> & Hi & _).
    by exists i, ch, seqs, rhs.
  - destruct Hl as (_ & Hl & _). by rewrite (so_last _ _ _ Hc) in Hl.
Qed.

(** The bytes that are left. *)
Definition bytes_left (st : llk_run) : nat := length (rest (lr_chunk st)).

(** ** A symbol is popped and its result appended *)

(** The goals of a popped terminal: what was read, and the bytes left. *)
Lemma terminal_popped st w x p stk c y tok ch :
  run_ok st w (x :: p) -> lr_stack st = SE_symbol x :: stk -> h !! x = Some ch ->
  terminal h x y -> raw h uninit false x tok [y] -> stream_ok inp c (w ++ [y]) ->
  (forall st' w', run_ok st' w' p -> lr_stack st' = stk -> lr_chunk st' = c -> good st') ->
  step_good (llk_result uninit ch tok (mkRun stk (lr_seq st) (lr_win st) c false)).
Proof.
  intros Hst Hstk Hx Ht Htok Hc Hk. pose proof (ro_stack _ _ _ Hst) as Hss. rewrite Hstk in Hss.
  apply (llk_result_good x ch tok _ w [y] (rest c)); try done; [|apply Hc|apply Hst|].
  { by destruct (framed_symbol _ _ _ _ _ Hss) as (_ & _ & _ & Hr). }
  intros v seq Hv Hs Hcs. eapply (Hk _ (w ++ [y])); [|done..]. split; try done; [apply Hst| |].
  - cbn [lr_stack lr_seq set_seq]. rewrite Hcs. by apply (framed_pop x).
  - eapply leftmost_step_terminal; [apply Hst|done].
Qed.

Lemma leave_win_ok st : is_length (lr_win st) = 0 -> leave_win table st = st.
Proof. intros Hw. unfold leave_win. by rewrite Hw. Qed.

(** Reading a terminal from the last chunk. *)
Lemma llk_terminal_eq x ch stk seq win c w :
  is_length win = 0 -> stream_ok inp c w -> is_terminal_type (cf_type ch) = true ->
  llk_terminal table uninit x ch (mkRun stk seq win c false) =
  let tok v := mkTok (TT_UINT v) (is_pos c + is_index c) 0 (is_bit_offset c) in
  match rest c with
  | [] =>
      let st := mkRun stk seq win (set_overrun c true) false in
      match cf_type ch with
      | HCF_END => llk_result uninit ch None st
      | _ => Ok (inr (st, LX_no_parse))
      end
  | b :: _ =>
      let st := mkRun stk seq win (next_byte c) false in
      match cf_type ch with
      | HCF_CHAR chr =>
          if negb (b =? chr) then Ok (inr (st, LX_no_parse)) else llk_result uninit ch (Some (tok chr)) st
      | HCF_CHARSET cs =>
          m ← charset_isset cs b;
          if negb m then Ok (inr (st, LX_no_parse)) else llk_result uninit ch (Some (tok b)) st
      | _ => Ok (inr (st, LX_no_parse))
      end
  end.
Proof.
  intros Hw Hc Ht. unfold llk_terminal. cbn [run_stream lr_in_win lr_chunk].
  rewrite read_byte by apply Hc. pose proof (rest_bytes _ (so_aligned _ _ _ Hc)) as Hb.
  destruct (rest c) as [|b l] eqn:Hr; cbn [mbind outcome_bind].
  - unfold set_run_stream. cbn [lr_in_win lr_stack lr_seq lr_win].
    rewrite leave_win_ok by done. unfold need_input.
    cbn [run_stream lr_in_win lr_chunk is_overrun set_overrun is_last_chunk].
    rewrite (so_last _ _ _ Hc). by destruct (cf_type ch).
  - apply Forall_cons_1 in Hb as [Hb _]. unfold byte in Hb.
    unfold set_run_stream. cbn [lr_in_win lr_stack lr_seq lr_win].
    rewrite leave_win_ok by done. unfold need_input.
    cbn [run_stream lr_in_win lr_chunk]. rewrite next_byte_overrun.
    assert (is_overrun c = false) as ->.
    { destruct (is_overrun c) eqn:Ho; [|done]. by rewrite (so_overrun _ _ _ Hc Ho) in Hr. }
    rewrite wrapu_small by lia. by destruct (cf_type ch).
Qed.

Lemma terminal_good st w x p stk ch :
  run_ok st w (x :: p) -> lr_stack st = SE_symbol x :: stk -> h !! x = Some ch ->
  is_terminal_type (cf_type ch) = true ->
  (forall st' w', run_ok st' w' p -> lr_stack st' = stk ->
     (bytes_left st' < bytes_left st)%nat \/ (bytes_left st' = bytes_left st /\ derives_no_byte h x) ->
     good st') ->
  step_good (llk_step h table uninit st).
Proof.
  intros Hst Hstk Hx Hterm Hk. pose proof (ro_stream _ _ _ Hst) as Hc.
  pose proof (ro_no_win _ _ _ Hst) as Hw.
  assert (forall c y tok, terminal h x y -> raw h uninit false x tok [y] -> stream_ok inp c (w ++ [y]) ->
    (length (rest c) < bytes_left st)%nat \/
    (length (rest c) = bytes_left st /\ derives_no_byte h x) ->
    step_good (llk_result uninit ch tok (mkRun stk (lr_seq st) (lr_win st) c false))) as Hpop.
  { intros c y tok Hy Htok Hc' Hl. apply (terminal_popped st w x p stk c y); try done.
    intros st' w' Hst' Hs' Hch. apply (Hk st' w'); [done..|]. unfold bytes_left at 1 3.
    by rewrite Hch. }
  unfold llk_step. rewrite Hstk. unfold choice_at. rewrite Hx. cbn [deref mbind outcome_bind].
  replace (set_stack stk st) with (mkRun stk (lr_seq st) (lr_win st) (lr_chunk st) false)
    by (unfold set_stack; by rewrite (ro_win _ _ _ Hst)).
  pose proof (llk_terminal_eq x ch stk (lr_seq st) (lr_win st) (lr_chunk st) w Hw Hc Hterm) as E.
  unfold bytes_left in Hpop. destruct (rest (lr_chunk st)) as [|b l] eqn:Hr.
  - destruct (cf_type ch) eqn:Ht; try done; rewrite E; try done.
    apply (Hpop _ Sym_end); [by eapply terminal_end|by eapply raw_end|by apply stream_ok_end|right].
    change (rest (set_overrun _ _)) with (rest (lr_chunk st)). rewrite Hr. split; [done|].
    exists 1%nat. by eapply derives_end.
  - pose proof (stream_ok_next _ _ _ _ _ Hc Hr) as Hn.
    destruct (next_byte_aligned _ _ _ (so_aligned _ _ _ Hc) Hr) as [_ Hl].
    assert (0 <= b < 256) as Hb.
    { pose proof (rest_bytes _ (so_aligned _ _ _ Hc)) as Hb. rewrite Hr in Hb.
      by apply Forall_cons_1 in Hb as [Hb _]. }
    pose proof (grammar_wf_lookup _ _ _ Hh Hx) as Hwf. unfold choice_wf in Hwf.
    destruct (cf_type ch) as [| |cs|chr| | |] eqn:Ht; try done; rewrite E; try done.
    + rewrite charset_isset_mem by done. cbn [mbind outcome_bind].
      destruct (charset_mem cs b) eqn:Hm; [|done]. cbn [negb].
      assert (charset_isset cs b = Ok true) as Hset by by rewrite charset_isset_mem, Hm.
      apply (Hpop _ (Sym b)); [| |done|left; rewrite Hl; simpl; lia].
      * by eapply terminal_charset.
      * eapply raw_charset; [done..| |done]. by do 2 eexists.
    + destruct (Z.eqb_spec b chr) as [->|]; [|done]. cbn [negb].
      apply (Hpop _ (Sym chr)); [by eapply terminal_char| |done|left; rewrite Hl; simpl; lia].
      eapply raw_char; [done..|]. by do 2 eexists.
Qed.

(** ** The end of a frame *)

Lemma reduce_good st w p x seq stk :
  run_ok st w p -> lr_stack st = SE_mark :: SE_symbol x :: SE_seq seq :: stk ->
  (forall st', run_ok st' w p -> lr_stack st' = stk -> lr_chunk st' = lr_chunk st -> good st') ->
  step_good (llk_step h table uninit st).
Proof.
  intros Hst Hstk Hk. unfold llk_step. rewrite Hstk. unfold llk_reduce. cbn [lr_stack set_stack].
  pose proof (ro_stack _ _ _ Hst) as Hss. rewrite Hstk in Hss.
  inversion Hss as [Hs|?|x0 ch seqs done_ todo vs u seq0 st0 w0 p0 Hx Ht Hi Hs Hr Hd Hf E]; subst.
  destruct todo as [|y todo]; [|done]. injection E as -> -> ->. simpl in *. rewrite app_nil_r in Hi.
  unfold choice_at. rewrite Hx. cbn [deref mbind outcome_bind].
  apply (llk_result_good x ch _ _ w0 u (rest (lr_chunk st))); try done; [|apply Hst|].
  { eapply raw_choice; [done..|]. do 3 eexists. split; [done|]. split; [apply Hst|done]. }
  intros v seq' Hv Hs' Hcs. apply Hk; [|done..]. destruct Hst. split; try done.
  cbn [lr_stack lr_seq set_seq set_stack] in *. rewrite Hcs. by apply (framed_pop x).
Qed.

(** ** Nonterminals *)

Lemma expand_good st w x p stk :
  run_ok st w (x :: p) -> lr_stack st = SE_symbol x :: stk -> is_choice h x -> reachable h start x ->
  ~ left_of h x x ->
  (forall st' ch seqs items, run_ok st' w (items ++ p) -> h !! x = Some ch ->
     cf_type ch = HCF_CHOICE seqs -> items ∈ seqs ->
     lr_stack st' = (SE_symbol <$> items) ++ SE_mark :: SE_symbol x :: SE_seq (lr_seq st) :: stk ->
     lr_chunk st' = lr_chunk st -> good st') ->
  step_good (llk_step h table uninit st).
Proof.
  intros Hst Hstk Hx Hr Hirr Hk. unfold llk_step. rewrite Hstk.
  pose proof Hx as (ch & seqs & Hch & Ht). unfold choice_at. rewrite Hch.
  cbn [deref mbind outcome_bind]. rewrite Ht. unfold llk_expand, run_stream.
  cbn [lr_in_win lr_chunk set_stack]. rewrite (ro_win _ _ _ Hst).
  destruct (h_llk_lookup_ok x (lr_chunk st) w Hx Hr (ro_stream _ _ _ Hst))
    as [->|(i & ch' & seqs' & items & -> & Hch' & Ht' & Hi)]; [done|].
  assert (ch' = ch) as -> by congruence. assert (seqs' = seqs) as -> by congruence.
  cbn [mbind outcome_bind entry_items]. unfold choice_at. rewrite Hch.
  cbn [deref mbind outcome_bind]. rewrite Ht, Hi. cbn [deref mbind outcome_bind].
  assert (items ∈ seqs) as Hin by by eapply list_elem_of_lookup_2.
  rewrite bool_decide_false.
  2: { intros Hhd. destruct items as [|y items]; [done|]. injection Hhd as ->. apply Hirr.
       exists ch, seqs, [], items. by split_and!. }
  cbn [negb assert_ok mbind outcome_bind].
  apply (Hk _ ch seqs items); [|done..]. destruct Hst as [Hw Hnw Hs Hss Hl Hc].
  split; try done; [apply carray_new_sized_wf| |by eapply leftmost_step_choice].
  rewrite Hstk in Hss. rewrite <- (app_nil_r w). change (ca_contents _) with (@nil (option HParsedToken)).
  by apply (framed_open _ ch seqs []); [..|constructor|].
Qed.

(** A symbol is parsed, without a byte read, or some bytes are read. *)
Lemma symbol_good N x :
  Acc (left_of h) x ->
  (forall st w p, run_ok st w p -> (bytes_left st < N)%nat -> good st) ->
  forall st w p stk, run_ok st w (x :: p) -> lr_stack st = SE_symbol x :: stk ->
    (x < length h)%nat -> reachable h start x -> bytes_left st = N ->
    (forall st' w', run_ok st' w' p -> lr_stack st' = stk -> bytes_left st' = N ->
       derives_no_byte h x -> good st') ->
    good st.
Proof.
  intros Hacc HN. induction Hacc as [x Hacc IH]. intros st w p stk Hst Hstk Hlt Hr Hb Hk.
  apply good_step. destruct (choice_at_lt h x Hlt) as (ch & Hch & _).
  destruct (wf_choice_cases h x ch Hh Hch) as [(seqs & Ht & Hx)|[Ht Hx]].
  2: { apply (terminal_good st w x p stk ch); [done..|]. intros st' w' Hst' Hs' [Hl|[He Hd]].
       - by eapply HN; [|rewrite <- Hb].
       - apply (Hk st' w'); [done..|congruence|done]. }
  apply (expand_good st w x p stk); [done..| |].
  { by apply acc_irrefl, Acc_intro. }
  intros st1 ch1 seqs1 items Hst1 Hch1 Ht1 Hi Hs1 Hc1.
  assert (bytes_left st1 = N) as Hb1 by (unfold bytes_left; by rewrite Hc1).
  assert (forall r l st2 w2, items = l ++ r -> Forall (derives_no_byte h) l ->
    run_ok st2 w2 (r ++ p) -> bytes_left st2 = N ->
    lr_stack st2 = (SE_symbol <$> r) ++ SE_mark :: SE_symbol x :: SE_seq (lr_seq st) :: stk ->
    good st2) as Hitems; [|by eapply (Hitems items [])].
  clear st1 Hst1 Hs1 Hc1 Hb1. induction r as [|y r IHr]; intros l st2 w2 El Hl Hst2 Hb2 Hs2.
  - apply good_step. apply (reduce_good st2 w2 p x (lr_seq st) stk); [done..|].
    intros st3 Hst3 Hs3 Hc3. apply (Hk st3 w2); [done..|unfold bytes_left; by rewrite Hc3|].
    rewrite app_nil_r in El. subst l. eapply no_byte_choice; done.
  - assert (left_of h y x) as Hyx by (rewrite El in Hi; by exists ch1, seqs1, l, r).
    assert (occurs h x y) as Ho.
    { exists ch1, seqs1, items. split_and!; [done..|]. rewrite El. apply elem_of_app. by right; left. }
    apply (IH y Hyx st2 w2 (r ++ p) ((SE_symbol <$> r) ++ SE_mark :: SE_symbol x :: SE_seq (lr_seq st) :: stk)); [done..| | |done|].
    + apply occurs_concat in Ho as (ch2 & seqs2 & ? & ? & ?). by eapply wf_items.
    + by eapply rtc_r.
    + intros st3 w3 Hst3 Hs3 Hb3 Hy. apply (IHr (l ++ [y]) st3 w3); [by rewrite <- app_assoc|..];
        [|done..]. apply Forall_app. split; [done|]. by constructor.
Qed.

Hypothesis Hnlr : no_left_recursion h start.

Lemma run_good st w p : run_ok st w p -> good st.
Proof.
  remember (bytes_left st) as N eqn:HN. revert st w p HN.
  induction N as [N IHN] using lt_wf_ind. intros st w p HN.
  remember (length (lr_stack st)) as d eqn:Hd. revert st w p HN Hd.
  induction d as [d IHd] using lt_wf_ind. intros st w p HN Hd Hst.
  pose proof (ro_stack _ _ _ Hst) as Hss. destruct (lr_stack st) as [|[x| |seq] stk] eqn:Hstk.
  - apply good_step. unfold llk_step. rewrite Hstk. split; [done|]. exists w.
    assert (p = []) as ->; [|done]. inversion Hss as [|?|? ? ? ? todo]; subst; [done|]. by destruct todo.
  - destruct (framed_symbol _ _ _ _ _ Hss) as (p' & -> & Hlt & Hr).
    apply (symbol_good N x (Hnlr x Hr)) with (w := w) (p := p') (stk := stk) (st := st); try done.
    + intros st' w' q Hst' Hl. by eapply (IHN (bytes_left st')).
    + intros st' w' Hst' Hs' Hb' _. eapply (IHd (length stk)); [simpl in Hd; lia|done|by rewrite Hs'|done].
  - assert (exists x seq stk', stk = SE_symbol x :: SE_seq seq :: stk') as (x & seq & stk' & ->).
    { inversion Hss as [|?|x ch seqs done_ todo vs u seq stk' w' p' ? ? ? ? ? ? ? E]; subst.
      destruct todo; [|done]. injection E as <-. by do 3 eexists. }
    apply good_step. eapply reduce_good; [done..|]. intros st' Hst' Hs' Hc'.
    eapply (IHd (length (lr_stack st'))); [|unfold bytes_left; by rewrite Hc'|done|done]. rewrite Hs'. simpl in Hd. lia.
  - exfalso. inversion Hss as [|?|? ? ? ? todo ? ? ? ? ? ? ? ? ? ? ? ? ? E]; subst. by destruct todo.
Qed.

(** ** The whole parse *)

Hypothesis Htable : tb_start table = Some start.

(** What h_llk_parse returns for the input [inp]. *)
Definition parse_ok (o : outcome (option HParseResult * HInputStream)) : Prop :=
  match o with
  | Ok (Some r, s) =>
      exists w, made h uninit false start (ast r) w /\ consumed inp (rest s) w /\
        bit_length r = 8 * (Z.of_nat (length inp) - Z.of_nat (length (rest s)))
  | Ok (None, _) => True
  | Fault f => stopped f
  | OutOfFuel => False
  end.

Lemma llk_loop_more fuel more st :
  (fuel <= more)%nat -> llk_loop h table uninit fuel st <> OutOfFuel ->
  llk_loop h table uninit more st = llk_loop h table uninit fuel st.
Proof.
  revert more st. induction fuel as [|fuel IH]; intros more st Hle; [done|].
  destruct more as [|more]; [lia|]. simpl. destruct (llk_step h table uninit st) as [[st'|r]|f|]; try done.
  apply IH. lia.
Qed.

Lemma h_llk_parse_ok stream :
  stream_wf stream -> is_index stream = 0 -> is_bit_offset stream = 0 -> is_margin stream = 0 ->
  is_overrun stream = false -> is_last_chunk stream = true -> is_input stream = inp ->
  exists fuel, forall more, (fuel <= more)%nat -> parse_ok (h_llk_parse h table uninit more stream).
Proof.
  intros Hwf Hi Hb Hm Ho Hl Hin. pose proof (byte_aligned_wf _ Hwf Hb Hm) as Ha.
  assert (rest stream = inp) as Hrest.
  { unfold rest. rewrite Hi, (wf_length _ Hwf), Nat2Z.id, firstn_all. done. }
  set (win := mkStream (replicate (2 * tb_kmax table) 0) 0 0 0 0 0 0 false false).
  assert (run_ok (mkRun [SE_symbol start] h_carray_new win stream false) [] [start]) as Hst.
  { split; try done; [apply carray_new_sized_wf|constructor|constructor|].
    cbn [lr_chunk]. split; try done.
    - rewrite Ho. done.
    - rewrite (wf_length _ Hwf). by rewrite Hin.
    - rewrite Hrest. exists [], 0%nat. split_and!; [done|done|lia]. }
  destruct (run_good _ _ _ Hst) as [fuel Hf]. exists fuel. intros more Hle.
  unfold h_llk_parse, llk_parse_start_, llk_parse_chunk_. rewrite Htable.
  cbn [deref mbind outcome_bind]. rewrite Hl, Hi, Hb. cbn [assert_ok mbind outcome_bind Z.eqb].
  cbn [ll_seq ll_win is_length]. cbn [Z.ltb Z.compare]. cbn [mbind outcome_bind ll_stack].
  fold win. rewrite (llk_loop_more fuel more) by (try done; by intros E; rewrite E in Hf).
  destruct (llk_loop _ _ _ _ _) as [[st e]|f|]; cbn [mbind outcome_bind]; [|done|done].
  destruct e; simpl in Hf; [|done|done]. destruct Hf as (Hs & w & Hrun).
  pose proof (ro_stack _ _ _ Hrun) as Hss. rewrite Hs in Hss.
  assert (exists v, ca_contents (lr_seq st) = [v] /\ made h uninit false start v w) as (v & Hv & Hmade).
  { inversion Hss as [|v ? Hmade|? ? ? ? todo]; subst; [by exists v|]. by destruct todo. }
  assert (ca_used (lr_seq st) = 1%nat) as Hu by (rewrite <- contents_length, Hv by apply Hrun; done).
  rewrite Hu. cbn [Nat.eqb assert_ok mbind outcome_bind]. unfold llk_parse_finish_. cbn [ll_seq].
  rewrite Hu. cbn [Nat.eqb assert_ok mbind outcome_bind].
  rewrite (carray_elem_contents (lr_seq st) 0 v) by by rewrite Hv. cbn [mbind outcome_bind]. exists w.
  pose proof (ro_stream _ _ _ Hrun) as [Hca _ _ Hlen Hcon]. split_and!; [done..|].
  cbn [bit_length]. rewrite (ba_offset _ Hca). pose proof (rest_length _ Hca). lia.
Qed.

End Driver.

Lemma h_llk_parse_more h t uninit fuel more stream :
  (fuel <= more)%nat -> h_llk_parse h t uninit fuel stream <> OutOfFuel ->
  h_llk_parse h t uninit more stream = h_llk_parse h t uninit fuel stream.
Proof.
  intros Hle. unfold h_llk_parse, llk_parse_chunk_.
  destruct (llk_parse_start_ t) as [s|f|]; try done. simpl.
  destruct (assert_ok (is_last_chunk stream)) as [[]|f|]; try done. simpl.
  destruct (assert_ok (is_index stream =? 0)) as [[]|f|]; try done. simpl.
  destruct (assert_ok (is_bit_offset stream =? 0)) as [[]|f|]; try done. simpl.
  destruct (ll_seq s) as [seq|]; [|done].
  destruct (if 0 <? is_length (ll_win s) then _ else _) as [[win b]|f|]; try done. simpl.
  intros Hno. rewrite (llk_loop_more _ _ _ fuel more); [done|done|].
  intros E. rewrite E in Hno. done.
Qed.

(** What a parse of the whole input does: with some fuel and more it ends. A
    result is the token of a string of [L]. A fault comes from a callback, on a
    token of a symbol for the last bytes read, and not from a reshape function
    when those fit the grammar. *)
Definition llk_answers (L : list symbol -> Prop) (h : list HCFChoice) (t : HLLkTable) (uninit : Z)
    (start : nat) (stream : HInputStream) : Prop :=
  exists fuel, forall more, (fuel <= more)%nat ->
    match h_llk_parse h t uninit more stream with
    | Ok (Some res, stream') =>
        exists w, L w /\ made h uninit false start (ast res) w /\ consumed (is_input stream) (rest stream') w /\
          bit_length res = 8 * (is_length stream - Z.of_nat (length (rest stream')))
    | Ok (None, _) => True
    | Fault f =>
        callback_fault h uninit false (reachable h start) (is_input stream) f /\
        (reshapes_fit h false (reachable h start) -> user_fault h uninit false (reachable h start) (is_input stream) f)
    | OutOfFuel => False
    end.

(** The streams at the start of an input that is all there. *)
Definition at_start (stream : HInputStream) : Prop :=
  stream_wf stream /\ is_index stream = 0 /\ is_bit_offset stream = 0 /\
  is_margin stream = 0 /\ is_overrun stream = false /\ is_last_chunk stream = true.

(** The rows of the table that is left when the grammar is freed. *)
Lemma fill_table_alive `{IterationOrder} h start kmax g r t g' a row :
  g_arena g = 0%nat -> fill_table h kmax g (h_llktable_new 1) = Ok (r, t, g') ->
  tb_rows t !! a = Some row -> row_sound h start kmax a row -> kmax = 1%nat \/ rows_alive (h_cfgrammar_free g t) = true ->
  sm_alive (tb_freed (h_cfgrammar_free g t)) row = true.
Proof.
  intros Ha E Hrow [Hw _] [->|Hal].
  - destruct (fill_table_owned _ _ _ _ _ _ _ _ _ E Hrow) as (_ & Hf & Ho). apply (owned_alive 1); [done..|].
    cbn [tb_freed h_cfgrammar_free]. rewrite Ha, Hf. by intros ?%list_elem_of_singleton.
  - by apply (rows_alive_row (h_cfgrammar_free g t) a).
Qed.

Lemma llk_table_ok `{IterationOrder} h0 s kmax uninit :
  grammar_wf h0 -> (s < length h0)%nat ->
  exists g h start r t g',
    h_cfgrammar_ 0 h0 s = Ok (g, h) /\ g_start g = Some start /\
    fill_table h kmax g (h_llktable_new 1) = Ok (r, t, g') /\ tb_start t = Some start /\
    (r = 0 \/ r = -1) /\ grammar_wf h /\
    (r = 0 -> kmax = 1%nat \/ rows_alive (h_cfgrammar_free g t) = true -> no_left_recursion h start ->
     (forall x ch tok, h !! x = Some ch -> llk_process uninit ch tok <> OutOfFuel) ->
     forall stream, at_start stream -> llk_answers (derives h0 s) h (h_cfgrammar_free g t) uninit start stream).
Proof.
  intros Hh0 Hs. destruct (h_cfgrammar_ok 0 h0 s Hh0 Hs) as (g & h & start & G & E & Hg).
  pose proof Hg as [Eg Hhead _ Hnts _ Hlang Hh].
  destruct (cfgrammar_of_analysis _ _ _ _ _ _ _ Hg) as [Hn Ha].
  destruct (fill_table_ok h start kmax 1 g Hh Hn Ha) as (r & t & g' & Et & Hst & Hk & Hrows).
  exists g, h, start, r, t, g'. split_and!; [done|apply Hn|done|done|by destruct Hrows as [[]|]; auto|done|].
  intros -> Hal Hnlr Hcb stream (Hwf & Hi & Hb & Hm & Ho & Hl). destruct Hrows as [[_ Hrows]|]; [|done].
  destruct (h_llk_parse_ok h (h_cfgrammar_free g t) uninit start (is_input stream)) with (stream := stream)
    as [fuel Hf]; try done.
  - intros a Hca Hra. destruct (Hrows a) as (row & Hrow & Hsound); [apply Hnts; by split|].
    exists row. cbn [tb_rows tb_kmax h_cfgrammar_free]. rewrite Hk. split_and!; [done| |apply Hsound].
    eapply fill_table_alive; [|done..]. by rewrite Eg.
  - apply Hnts. destruct (g_nts g); [done|]. simplify_eq/=. by left.
  - exists fuel. intros more Hle. specialize (Hf more Hle). unfold parse_ok in Hf.
    destruct (h_llk_parse _ _ _ _ _) as [[[res|] st]|f|]; [|done| |done].
    + destruct Hf as (w & Hmade & Hc & Hlen). exists w. split_and!; [by eapply Hlang, made_derives|done..|].
      by rewrite (wf_length _ Hwf).
    + split; [done|]. intros Hfit. by apply fits_user_fault.
Qed.

(** * Properties *)

(** C9: the LL(k) back end, from the desugared grammar to the parse: the grammar
    and its table are made without a fault; if the table has no conflict and
    the grammar is not left-recursive, h_llk_parse with what is left of the table
    when the grammar is freed ends on every input, in every order of the hash
    tables, within a fuel that more fuel does not change, where the lookahead is
    one symbol or the rows hold no memory of the grammar (an executable check; see
    llk_lookahead_freed). A result means that the start symbol derives the bytes
    up to the reported length (followed by the end of the input where the grammar
    asks for it), and its token is the one that the callbacks make along a
    derivation. A fault means that a callback of a symbol, on the token of that
    symbol for the last bytes read, stopped the program, and not its reshape
    function when those fit the sequences of the grammar (an executable check). *)
Theorem h_llk_correct `{IterationOrder} h0 s kmax uninit :
  grammar_wf h0 -> (s < length h0)%nat ->
  exists g h start r t g',
    h_cfgrammar_ 0 h0 s = Ok (g, h) /\ g_start g = Some start /\
    fill_table h kmax g (h_llktable_new 1) = Ok (r, t, g') /\
    (r = 0 -> kmax = 1%nat \/ rows_alive (h_cfgrammar_free g t) = true -> no_left_recursion h start ->
     (forall x ch tok, h !! x = Some ch -> llk_process uninit ch tok <> OutOfFuel) ->
     forall stream, stream_wf stream -> is_index stream = 0 -> is_bit_offset stream = 0 ->
       is_margin stream = 0 -> is_overrun stream = false -> is_last_chunk stream = true ->
     exists fuel, forall more, (fuel <= more)%nat ->
       match h_llk_parse h (h_cfgrammar_free g t) uninit more stream with
       | Ok (Some res, stream') =>
           exists w, derives h0 s w /\ made h uninit false start (ast res) w /\
             consumed (is_input stream) (rest stream') w /\
             bit_length res = 8 * (is_length stream - Z.of_nat (length (rest stream')))
       | Ok (None, _) => True
       | Fault f =>
           callback_fault h uninit false (reachable h start) (is_input stream) f /\
           (reshapes_fit h false (reachable h start) ->
            user_fault h uninit false (reachable h start) (is_input stream) f)
       | OutOfFuel => False
       end).
Proof.
  intros Hh0 Hs. destruct (llk_table_ok h0 s kmax uninit Hh0 Hs) as (g & h & start & r & t & g' & E & Eg & Et & _ & _ & _ & Hp).
  exists g, h, start, r, t, g'. split_and!; [done..|]. intros Hr Hal Hnlr Hcb stream Hwf Hi Hb Hm Ho Hl.
  exact (Hp Hr Hal Hnlr Hcb stream (conj Hwf (conj Hi (conj Hb (conj Hm (conj Ho Hl)))))).
Qed.

Lemma parens_no_left_recursion : no_left_recursion parens 0.
Proof. apply no_left_recursion_b_ok. vm_compute. reflexivity. Qed.

Definition parens_input : HInputStream := mkStream [40; 41] 0 0 2 0 0 0 false true.

Lemma h_llk_correct_witness :
  exists t g' res stream' w,
    @fill_table insertion_order parens 1 parens_grammar (h_llktable_new 1) = Ok (0, t, g') /\
    h_llk_parse parens (h_cfgrammar_free parens_grammar t) 0 20 parens_input = Ok (Some res, stream') /\
    derives parens 0 w /\ consumed [40; 41] (rest stream') w /\
    bit_length res = 8 * (2 - Z.of_nat (length (rest stream'))).
Proof.
  destruct (@h_llk_correct insertion_order parens 0 1 0 parens_wf ltac:(simpl; lia))
    as (g & h & start & r & t & g' & E & Es & Et & Hp).
  rewrite (proj1 parens_grammar_ok) in E. injection E as <- <-. injection Es as <-.
  assert (r = 0) as -> by (vm_compute in Et; by injection Et as <-).
  destruct (Hp eq_refl (or_introl eq_refl) parens_no_left_recursion) with (stream := parens_input) as [fuel Hf]; try done.
  { intros x ch tok Hx. destruct x as [|[|[|x]]]; by simplify_eq/=. }
  { split; simpl; try lia; by repeat constructor. }
  assert (exists res stream', h_llk_parse parens (h_cfgrammar_free parens_grammar t) 0 20 parens_input = Ok (Some res, stream'))
    as (res & stream' & Ep).
  { vm_compute in Et. injection Et as <- _. do 2 eexists. vm_compute. reflexivity. }
  specialize (Hf (fuel + 20)%nat ltac:(lia)).
  rewrite (h_llk_parse_more _ _ _ 20) in Hf by (try lia; by rewrite Ep). rewrite Ep in Hf.
  destruct Hf as (w & Hd & _ & Hc & Hlen). by exists t, g', res, stream', w.
Defined.
