(* ===== verification/LLkDefects.v ===== *)
(** Grammars on which the analysis and the LL(k) back end do not do what their
    comments say. Each is a small grammar, evaluated. *)

From S2P Require Import Prelude Stream ByteStream Charset CArray Token Parser Desugar.
From S2P Require Import Grammar StringMap CfGrammar FirstSets FirstFacts LLkTable.
From S2P Require Import LLkTableFacts LLk LLkFacts.

Definition nonterminal (seqs : list (list nat)) : HCFChoice :=
  mkChoice (HCF_CHOICE seqs) None None None None.
Definition char_symbol (c : Z) : HCFChoice := mkChoice (HCF_CHAR c) None None None None.

(** The table that fill_table makes for the start symbol 0, when the grammar is freed. *)
Definition table_of `{IterationOrder} (h : list HCFChoice) (k : nat) : outcome (Z * HLLkTable) :=
  '(g, h) ← h_cfgrammar_ 0 h 0; '(r, t, _) ← fill_table h k g (h_llktable_new 1);
  Ok (r, h_cfgrammar_free g t).

Ltac derive :=
  repeat match goal with
  | |- derives_seq _ [] _ => constructor
  | |- derives_seq _ [_] ?w => rewrite <- (app_nil_r w); constructor
  | |- derives _ _ [Sym _] => eapply derives_char; [reflexivity|reflexivity]
  end.

Lemma derives_production h x seqs i items w :
  h !! x = Some (nonterminal seqs) -> seqs !! i = Some items -> derives_seq h items w -> derives h x w.
Proof. intros Hx Hi Hw. eapply derives_choice; [done|done|by eapply list_elem_of_lookup_2|done]. Qed.

(** * Sets that are memoised while they are incomplete *)

(** A -> B x | 'a'; B -> A y | "" *)
Definition mutual : list HCFChoice :=
  [nonterminal [[1; 2]; [3]]%nat; nonterminal [[0; 4]; []]%nat; char_symbol 120; char_symbol 97;
   char_symbol 121].

(** A -> B C; B -> "" | 'a'; C -> 'a' 'b' *)
Definition overlapping : list HCFChoice :=
  [nonterminal [[1; 2]]%nat; nonterminal [[]; [3]]%nat; nonterminal [[3; 4]]%nat; char_symbol 97;
   char_symbol 98].

(** S -> A 'c'; A -> 'x' B | ""; B -> 'y' A | "" *)
Definition follow_cycle : list HCFChoice :=
  [nonterminal [[1; 3]]%nat; nonterminal [[4; 2]; []]%nat; nonterminal [[5; 1]; []]%nat;
   char_symbol 99; char_symbol 120; char_symbol 121].

Program Definition rotating_order : IterationOrder :=
  {| iter_order := fun A l => match l with [] => [] | x :: l => l ++ [x] end |}.
Next Obligation. intros A [|x l]; [done|]. by rewrite Permutation_app_comm. Qed.

(** h_first memoises the sets of the symbols that it meets while a set further
    out is incomplete: after first_1(A) the table holds {""} for B, although B
    derives "ay". *)
Theorem h_first_memo_incomplete :
  exists g set g', @h_cfgrammar_ insertion_order 0 mutual 0 = Ok (g, mutual) /\
    ('(_, g) ← @h_first insertion_order mutual 1 0 g; @h_first insertion_order mutual 1 1 g)
      = Ok (set, g') /\
    ~ sm_in [Sym 97] set /\ derives mutual 1 [Sym 97; Sym 121].
Proof.
  do 3 eexists. split; [reflexivity|]. split; [vm_compute; reflexivity|]. split.
  - intros [v Hv]. vm_compute in Hv. done.
  - eapply (derives_production _ _ _ 0); [done..|].
    apply (derives_cons _ _ _ [Sym 97] [Sym 121]); [|derive].
    eapply (derives_production _ _ _ 1); [done..|derive].
Qed.

(** stringset_extend replaces the branch of a character: first_2 of A is
    {"aa"}, although A derives "ab" through the empty B. *)
Theorem stringset_extend_overwrites :
  exists g set g', @h_cfgrammar_ insertion_order 0 overlapping 0 = Ok (g, overlapping) /\
    @h_first insertion_order overlapping 2 0 g = Ok (set, g') /\
    ~ sm_in [Sym 97; Sym 98] set /\ derives overlapping 0 [Sym 97; Sym 98].
Proof.
  do 3 eexists. split; [reflexivity|]. split; [vm_compute; reflexivity|]. split.
  - intros [v Hv]. vm_compute in Hv. done.
  - eapply (derives_production _ _ _ 0); [done..|].
    apply (derives_cons _ _ _ [] [Sym 97; Sym 98]).
    + eapply (derives_production _ _ _ 0); [done..|constructor].
    + derive. eapply (derives_production _ _ _ 0); [done..|].
      apply (derives_cons _ _ _ [Sym 97] [Sym 98]); derive.
Qed.

Definition xc_input : HInputStream := mkStream [120; 99] 0 0 2 0 0 0 false true.

(** C37: the LL(1) table depends on the order in which the hash table of the
    nonterminals is walked: in one order the back end accepts "xc", which the
    grammar derives, in another it compiles the same grammar and rejects it. *)
Theorem llk_table_order_dependent :
  (exists t res stream, @table_of insertion_order follow_cycle 1 = Ok (0, t) /\
     h_llk_parse follow_cycle t 0 20 xc_input = Ok (Some res, stream)) /\
  (exists t stream, @table_of rotating_order follow_cycle 1 = Ok (0, t) /\
     h_llk_parse follow_cycle t 0 20 xc_input = Ok (None, stream)) /\
  derives follow_cycle 0 [Sym 120; Sym 99].
Proof.
  split_and!.
  - do 3 eexists. split; [vm_compute; reflexivity|]. vm_compute. reflexivity.
  - do 2 eexists. split; [vm_compute; reflexivity|]. vm_compute. reflexivity.
  - eapply (derives_production _ _ _ 0); [done..|].
    apply (derives_cons _ _ _ [Sym 120] [Sym 99]); [|derive].
    eapply (derives_production _ _ _ 0); [done..|].
    apply (derives_cons _ _ _ [Sym 120] []); derive.
    eapply (derives_production _ _ _ 1); [done..|constructor].
Qed.

(** * Memory that is freed with the grammar *)

(** S -> 'p' A 'c' 'd' | 'q' B 'w' 'z'; A -> 'x' B | ""; B -> 'y' A | 'w' 'v' | "" *)
Definition two_ahead : list HCFChoice :=
  [nonterminal [[3; 1; 4; 5]; [6; 2; 7; 8]]%nat; nonterminal [[9; 2]; []]%nat;
   nonterminal [[10; 1]; [7; 11]; []]%nat; char_symbol 112; char_symbol 99; char_symbol 100; char_symbol 113;
   char_symbol 119; char_symbol 122; char_symbol 120; char_symbol 121; char_symbol 118].

Definition pxcd_input : HInputStream := mkStream [112; 120; 99; 100] 0 0 4 0 0 0 false true.

(** With two symbols of lookahead a table without conflicts can hold nodes of the
    arena of the grammar, which h_llk_compile frees: h_stringmap_copy makes its
    inner nodes in the arena of the map that it copies. In one order of the
    nonterminals h_llk_parse reads such a node on "pxcd", which the grammar
    derives; in another the table is whole and "pxcd" is accepted. *)
Theorem llk_lookahead_freed :
  (exists t, @table_of rotating_order two_ahead 2 = Ok (0, t) /\ rows_alive t = false /\
     forall fuel, (10 <= fuel)%nat -> h_llk_parse two_ahead t 0 fuel pxcd_input = Fault UseAfterFree) /\
  (exists t res stream, @table_of insertion_order two_ahead 2 = Ok (0, t) /\ rows_alive t = true /\
     h_llk_parse two_ahead t 0 20 pxcd_input = Ok (Some res, stream)) /\
  derives two_ahead 0 [Sym 112; Sym 120; Sym 99; Sym 100] /\ no_left_recursion two_ahead 0.
Proof.
  split_and!.
  - eexists. split; [vm_compute; reflexivity|]. split; [vm_compute; reflexivity|].
    intros fuel Hf. rewrite (h_llk_parse_more _ _ _ 10); [vm_compute; reflexivity|done|vm_compute; discriminate].
  - do 3 eexists. split; [vm_compute; reflexivity|]. split; [vm_compute; reflexivity|]. vm_compute. reflexivity.
  - eapply (derives_production _ _ _ 0); [done..|].
    apply (derives_cons _ _ _ [Sym 112] [Sym 120; Sym 99; Sym 100]); [derive|].
    apply (derives_cons _ _ _ [Sym 120] [Sym 99; Sym 100]).
    + eapply (derives_production _ _ _ 0); [done..|].
      apply (derives_cons _ _ _ [Sym 120] []); derive.
      eapply (derives_production _ _ _ 2); [done..|constructor].
    + apply (derives_cons _ _ _ [Sym 99] [Sym 100]); derive.
  - apply no_left_recursion_b_ok. vm_compute. reflexivity.
Qed.
