(* ===== verification/Driver.v ===== *)
(** The driver (src/src/hammer.c): h_parse, and the resumable parse of
    h_parse_start, h_parse_chunk and h_parse_finish, over the functions of a back
    end (HParserBackendVTable of src/src/internal.h).

    [Incremental] is the contract of the table as its comments state it: the
    driver is proved against it, and the back ends that parse chunk by chunk
    prove it (LLkChunks, LRChunks). *)

From S2P Require Import Prelude Stream Token.

(** The functions of a back end for one compiled parser; [S] is the type of its
    [backend_state], [fuel] bounds its loops, and a NULL function is [None]. *)
Class HParserBackendVTable (S : Type) := {
  vt_parse : nat -> HInputStream -> outcome (option HParseResult);
  vt_parse_start : option (outcome S);
  vt_parse_chunk : option (nat -> S -> HInputStream -> outcome (bool * S * HInputStream));
  vt_parse_finish : option (S -> outcome (option HParseResult));
}.

Definition DEFAULT_ENDIANNESS : Z := Z.lor BIT_BIG_ENDIAN BYTE_BIG_ENDIAN.

(** An [HInputStream] at the start of its buffer; [margin] is 0, as all fields
    that an initialiser leaves out. *)
Definition input_stream (pos endianness : Z) (input : list Z) (last_chunk : bool) : HInputStream :=
  mkStream input pos 0 (Z.of_nat (length input)) 0 0 endianness false last_chunk.

Record HSuspendedParser (S : Type) := mkSuspended {
  sp_backend_state : S;
  sp_done : bool;
  sp_pos : Z;
  sp_bit_offset : Z;
  sp_endianness : Z;
}.
Arguments mkSuspended {S}.
Arguments sp_backend_state {S}.
Arguments sp_done {S}.
Arguments sp_pos {S}.
Arguments sp_bit_offset {S}.
Arguments sp_endianness {S}.

(** [if(r) r->bit_length = ...] *)
Definition set_bit_length (n : Z) (r : option HParseResult) : option HParseResult :=
  match r with Some r => Some (mkResult (ast r) n) | None => None end.

Section Driver.
Context {S : Type} `{HParserBackendVTable S}.

Definition h_parse (fuel : nat) (input : list Z) : outcome (option HParseResult) :=
  vt_parse fuel (input_stream 0 DEFAULT_ENDIANNESS input true).

Definition h_parse_start : outcome (option (HSuspendedParser S)) :=
  match vt_parse_start with
  | None => Ok None
  | Some start => s ← start; Ok (Some (mkSuspended s false 0 0 DEFAULT_ENDIANNESS))
  end.

(** The call of [parse_chunk] that both functions below make. *)
Definition run_chunk (fuel : nat) (s : HSuspendedParser S) (input : list Z) (last_chunk : bool)
    : outcome (bool * S * HInputStream) :=
  parse_chunk ← deref AssertFail vt_parse_chunk;
  parse_chunk fuel (sp_backend_state s) (input_stream (sp_pos s) (sp_endianness s) input last_chunk).

Definition h_parse_chunk (fuel : nat) (s : HSuspendedParser S) (input : list Z)
    : outcome (bool * HSuspendedParser S) :=
  _ ← assert_ok (bool_decide (is_Some vt_parse_chunk));
  if sp_done s then Ok (true, s) else
  '(done, state, stream) ← run_chunk fuel s input false;
  Ok (done, mkSuspended state done (uint64 (sp_pos s + is_index stream)) (is_bit_offset stream)
              (is_endianness stream)).

(** The empty last chunk changes neither [pos] nor [bit_offset]. *)
Definition h_parse_finish (fuel : nat) (s : HSuspendedParser S) : outcome (option HParseResult) :=
  _ ← assert_ok (bool_decide (is_Some vt_parse_chunk));
  parse_finish ← deref AssertFail vt_parse_finish;
  state ← (if sp_done s then Ok (sp_backend_state s) else
             '(done, state, _) ← run_chunk fuel s [] true;
             _ ← assert_ok done; Ok state);
  r ← parse_finish state;
  Ok (set_bit_length (sp_pos s * 8 + sp_bit_offset s) r).

(** A whole parse in chunks: start, each chunk, finish. *)
Fixpoint parse_chunks (fuel : nat) (s : HSuspendedParser S) (chunks : list (list Z))
    : outcome (HSuspendedParser S) :=
  match chunks with
  | [] => Ok s
  | c :: chunks => '(_, s) ← h_parse_chunk fuel s c; parse_chunks fuel s chunks
  end.
Definition parse_in_chunks (fuel : nat) (chunks : list (list Z)) : outcome (option HParseResult) :=
  s ← h_parse_start;
  s ← deref AssertFail s;
  s ← parse_chunks fuel s chunks;
  h_parse_finish fuel s.
End Driver.

(** * The contract of the chunk functions *)

(** Bytes after [pos] that the reader can count (h_read_bits has an [int]). *)
Definition input_ok (pos : Z) (input : list Z) : Prop :=
  Forall byte input /\ 0 <= pos /\ pos + Z.of_nat (length input) < 2 ^ 27.

Lemma input_ok_app pos a b :
  input_ok pos (a ++ b) -> input_ok pos a /\ input_ok (pos + Z.of_nat (length a)) b.
Proof.
  intros ([Ha Hb]%Forall_app & Hp & Hl). rewrite length_app in Hl.
  split; (split; [done|lia]).
Qed.

(** What a state makes of the rest of the input in one piece, and what is left to
    do when a chunk function says that the parse is over. *)
Definition conclude {S} (finish : S -> outcome (option HParseResult)) (pos : Z) (state : S)
    (stream : HInputStream) : outcome (option HParseResult) :=
  r ← finish state;
  Ok (set_bit_length ((pos + is_index stream) * 8 + is_bit_offset stream) r).
Definition finished {S} (chunk : nat -> S -> HInputStream -> outcome (bool * S * HInputStream))
    (finish : S -> outcome (option HParseResult)) (fuel : nat) (state : S) (pos : Z)
    (input : list Z) : outcome (option HParseResult) :=
  '(done, state, stream) ← chunk fuel state (input_stream pos DEFAULT_ENDIANNESS input true);
  _ ← assert_ok done;
  conclude finish pos state stream.

(** "parse_chunk MUST consume all input, integrating it into backend_state", or
    report that it is done: with the rest of the input in one piece it would
    have come to the same result. *)
Class Incremental (S : Type) `{HParserBackendVTable S} := {
  inc_start : S;
  inc_chunk : nat -> S -> HInputStream -> outcome (bool * S * HInputStream);
  inc_finish : S -> outcome (option HParseResult);
  inc_functions : vt_parse_start = Some (Ok inc_start) /\ vt_parse_chunk = Some inc_chunk /\
    vt_parse_finish = Some inc_finish;
  (** the states between two chunks *)
  inc_between : S -> Prop;
  inc_start_between : inc_between inc_start;
  inc_parse fuel input : input_ok 0 input ->
    vt_parse fuel (input_stream 0 DEFAULT_ENDIANNESS input true) =
    finished inc_chunk inc_finish fuel inc_start 0 input;
  inc_split fuel s pos a b : inc_between s -> input_ok pos (a ++ b) ->
    finished inc_chunk inc_finish fuel s pos (a ++ b) <> OutOfFuel ->
    match inc_chunk fuel s (input_stream pos DEFAULT_ENDIANNESS a false) with
    | Ok (done, s', stream) =>
        is_endianness stream = DEFAULT_ENDIANNESS /\ 0 <= is_index stream <= Z.of_nat (length a) /\
        if (done : bool) then
          finished inc_chunk inc_finish fuel s pos (a ++ b) = conclude inc_finish pos s' stream
        else
          is_index stream = Z.of_nat (length a) /\ is_bit_offset stream = 0 /\ inc_between s' /\
          finished inc_chunk inc_finish fuel s pos (a ++ b) =
          finished inc_chunk inc_finish fuel s' (pos + Z.of_nat (length a)) b
    | Fault f => finished inc_chunk inc_finish fuel s pos (a ++ b) = Fault f
    | OutOfFuel => False
    end;
  inc_empty fuel s pos done s' stream : inc_between s -> 0 <= pos < 2 ^ 27 ->
    inc_chunk fuel s (input_stream pos DEFAULT_ENDIANNESS [] true) = Ok (done, s', stream) ->
    is_index stream = 0 /\ is_bit_offset stream = 0;
}.

Section Contract.
Context {S : Type} `{Incremental S}.

(** A suspended parser stands for the rest of the parse: [r] is its result on
    the input that is left. *)
Definition stands_for (fuel : nat) (s : HSuspendedParser S) (input : list Z)
    (r : outcome (option HParseResult)) : Prop :=
  if sp_done s then
    (x ← inc_finish (sp_backend_state s);
     Ok (set_bit_length (sp_pos s * 8 + sp_bit_offset s) x)) = r
  else
    inc_between (sp_backend_state s) /\ sp_endianness s = DEFAULT_ENDIANNESS /\
    sp_bit_offset s = 0 /\ input_ok (sp_pos s) input /\
    finished inc_chunk inc_finish fuel (sp_backend_state s) (sp_pos s) input = r.

Lemma stands_for_chunk fuel s a b r :
  stands_for fuel s (a ++ b) r -> r <> OutOfFuel ->
  match h_parse_chunk fuel s a with
  | Ok (done, s') => done = sp_done s' /\ stands_for fuel s' b r
  | Fault f => r = Fault f
  | OutOfFuel => False
  end.
Proof.
  destruct inc_functions as (_ & Hc & _). unfold stands_for, h_parse_chunk, run_chunk. rewrite Hc.
  rewrite bool_decide_true by by eexists. cbn [assert_ok mbind outcome_bind deref].
  destruct (sp_done s) eqn:Hd; [by rewrite Hd|]. intros (Hb & He & Ho & Hi & Hr) Hf.
  rewrite He. rewrite <- Hr in Hf. pose proof (inc_split fuel _ _ a b Hb Hi Hf) as Hs.
  destruct (inc_chunk _ _ _) as [[[d s'] stream]|f|]; cbn [mbind outcome_bind]; [|congruence|done].
  destruct Hs as (He' & Hix & Hs). cbn [sp_done sp_backend_state sp_pos sp_bit_offset sp_endianness].
  split; [done|]. destruct (input_ok_app _ _ _ Hi) as [(_ & Hp & Hl) Hib].
  assert (uint64 (sp_pos s + is_index stream) = sp_pos s + is_index stream) as -> by
    (apply wrapu_small; lia).
  destruct d; [by rewrite <- Hr, Hs|]. destruct Hs as (-> & Hbo & Hb' & Hs).
  split_and!; [done..|congruence].
Qed.

Lemma stands_for_chunks fuel s chunks r :
  stands_for fuel s (concat chunks) r -> r <> OutOfFuel ->
  match parse_chunks fuel s chunks with
  | Ok s' => stands_for fuel s' [] r
  | Fault f => r = Fault f
  | OutOfFuel => False
  end.
Proof.
  revert s. induction chunks as [|c chunks IH]; intros s Hs Hf; [done|]. simpl in *.
  pose proof (stands_for_chunk _ _ _ _ _ Hs Hf) as Hc.
  destruct (h_parse_chunk _ _ _) as [[d s']|f|]; cbn [mbind outcome_bind]; [|done|done].
  apply IH; [apply Hc|done].
Qed.

Lemma stands_for_finish fuel s r :
  stands_for fuel s [] r -> h_parse_finish fuel s = r.
Proof.
  destruct inc_functions as (_ & Hc & Hfin). unfold stands_for, h_parse_finish, run_chunk.
  rewrite Hc, Hfin. rewrite bool_decide_true by by eexists. cbn [assert_ok mbind outcome_bind deref].
  destruct (sp_done s) eqn:Hd; [done|]. intros (Hb & He & Ho & Hi & <-). rewrite He, Ho.
  unfold finished. destruct (inc_chunk _ _ _) as [[[d s'] stream]|f|] eqn:E; cbn [mbind outcome_bind];
    [|done|done].
  assert (0 <= sp_pos s < 2 ^ 27) as Hp by (destruct Hi as (_ & ? & ?); simpl length in *; lia).
  destruct (inc_empty _ _ _ _ _ _ Hb Hp E) as [Hix Hbo]. unfold conclude. rewrite Hix, Hbo.
  destruct d; cbn [assert_ok mbind outcome_bind]; [|done]. by rewrite !Z.add_0_r.
Qed.

(** C12: chunking is transparent: for every back end that keeps the contract of
    the chunk functions, feeding the input to h_parse_chunk in any pieces,
    empty ones included, and calling h_parse_finish gives exactly what h_parse
    gives on the whole input: the same tree, length, rejection or fault. *)
Theorem h_parse_chunks_correct fuel chunks :
  input_ok 0 (concat chunks) -> h_parse fuel (concat chunks) <> OutOfFuel ->
  parse_in_chunks fuel chunks = h_parse fuel (concat chunks).
Proof.
  intros Hi. unfold h_parse. rewrite inc_parse by done. intros Hf.
  unfold parse_in_chunks, h_parse_start. destruct inc_functions as (-> & _).
  cbn [mbind outcome_bind deref].
  set (s0 := mkSuspended _ _ _ _ _).
  assert (stands_for fuel s0 (concat chunks) (finished inc_chunk inc_finish fuel inc_start 0 (concat chunks)))
    as Hs.
  { unfold stands_for. simpl. split; [apply inc_start_between|done]. }
  pose proof (stands_for_chunks _ _ _ _ Hs Hf) as Hc.
  destruct (parse_chunks _ _ _) as [s|f|]; cbn [mbind outcome_bind]; [|done|done].
  by apply stands_for_finish.
Qed.
End Contract.
