(* ===== verification/Chunks.v ===== *)
(** Streams of chunks: a stream over a part of the input against a stream over
    the whole of it, as the back ends that parse chunk by chunk read them. *)

From S2P Require Import Prelude Stream ByteStream Driver.

(** What a chunk keeps while it is read: position, length, byte order. *)
Definition same_chunk (s s' : HInputStream) : Prop :=
  is_pos s' = is_pos s /\ is_length s' = is_length s /\ is_endianness s' = is_endianness s /\
  is_last_chunk s' = is_last_chunk s.

(** [w] goes on with [b] where [s] ends; if [s] is the last chunk, [b] is
    empty. *)
Record ahead (b : list Z) (w s : HInputStream) : Prop := {
  ah_whole : byte_aligned w;
  ah_part : byte_aligned s;
  ah_pos : is_pos w + is_index w = is_pos s + is_index s;
  ah_rest : rest w = rest s ++ b;
  ah_last : is_last_chunk w = true;
  ah_more : is_last_chunk s = true -> b = [];
  ah_overrun : is_overrun w = is_overrun s;
  ah_end : is_overrun s = true -> rest s = [] /\ is_last_chunk s = true;
}.

#[export] Instance same_chunk_preorder : PreOrder same_chunk.
Proof.
  split; [by intros s; split_and!|]. intros s1 s2 s3 (?&?&?&?) (?&?&?&?). split_and!; by etrans.
Qed.

Lemma ahead_next b w s c l :
  ahead b w s -> rest s = c :: l -> ahead b (next_byte w) (next_byte s).
Proof.
  intros [Hw Hs Hp Hr Hl Hm Ho He] E. destruct (next_byte_aligned s c l Hs E) as [Hs' El].
  assert (rest w = c :: (l ++ b)) as Ew by by rewrite Hr, E.
  destruct (next_byte_aligned w _ _ Hw Ew) as [Hw' Elw].
  split; try done; [simpl; lia|by rewrite Elw, El|]. intros Hov. destruct (He Hov). congruence.
Qed.

Lemma ahead_overrun b w s :
  ahead b w s -> rest s = [] -> is_last_chunk s = true ->
  rest w = [] /\ ahead b (set_overrun w true) (set_overrun s true).
Proof.
  intros [Hw Hs Hp Hr Hl Hm Ho He] E Hlast.
  assert (forall x, byte_aligned x -> byte_aligned (set_overrun x true)) as Hov by by intros x [].
  split; [by rewrite Hr, E, (Hm Hlast)|]. split; try done; by apply Hov.
Qed.

Lemma input_stream_aligned pos e input last :
  input_ok pos input -> byte_aligned (input_stream pos e input last) /\
  rest (input_stream pos e input last) = input.
Proof.
  intros (Hb & Hp & Hl). split; [split; simpl; (done || lia)|].
  unfold rest. simpl. by rewrite Nat2Z.id, firstn_all.
Qed.

Lemma ahead_input pos a b :
  input_ok pos (a ++ b) ->
  ahead b (input_stream pos DEFAULT_ENDIANNESS (a ++ b) true) (input_stream pos DEFAULT_ENDIANNESS a false).
Proof.
  intros Hi. pose proof (input_ok_app _ _ _ Hi) as [Ha _].
  destruct (input_stream_aligned pos DEFAULT_ENDIANNESS _ true Hi) as [H1 R1].
  destruct (input_stream_aligned pos DEFAULT_ENDIANNESS _ false Ha) as [H2 R2].
  split; try done. by rewrite R1, R2.
Qed.

Lemma ahead_last_input pos b :
  input_ok pos b ->
  ahead [] (input_stream pos DEFAULT_ENDIANNESS b true) (input_stream pos DEFAULT_ENDIANNESS b true).
Proof.
  intros Hi. destruct (input_stream_aligned pos DEFAULT_ENDIANNESS _ true Hi) as [H1 R1].
  split; try done. by rewrite app_nil_r.
Qed.

(** The next chunk takes over when one is used up. *)
Lemma ahead_next_input b w s pos a :
  ahead b w s -> rest s = [] -> is_last_chunk s = false ->
  same_chunk (input_stream pos DEFAULT_ENDIANNESS a false) s ->
  input_ok (pos + Z.of_nat (length a)) b ->
  is_index s = Z.of_nat (length a) /\
  ahead [] w (input_stream (pos + Z.of_nat (length a)) DEFAULT_ENDIANNESS b true).
Proof.
  intros [Hbw Hbs Hpos Hrest Hlw Hm Ho He] Hr Hl (Hp & Hlen & _ & _) Hi.
  pose proof (rest_length _ Hbs) as Hrl. rewrite Hr in Hrl. simpl in *.
  assert (is_index s = Z.of_nat (length a)) as Hidx by lia.
  destruct (input_stream_aligned _ DEFAULT_ENDIANNESS _ true Hi) as [H2 R2].
  split; [done|]. split; try done; simpl; [lia|by rewrite R2, app_nil_r, Hrest, Hr|].
  rewrite Ho. destruct (is_overrun s); [|done]. destruct (He eq_refl). congruence.
Qed.
