(* ===== verification/LLkChunks.v ===== *)
(** The LL(k) back end as a back end of the driver, and the contract of the
    chunk functions for tables with one byte of lookahead: such a table is never
    consulted on more than the next byte, so the window stays unused. (With more
    lookahead the contract fails: LLkDefects.) *)

From S2P Require Import Prelude Stream ByteStream Charset CArray Token Parser Desugar.
From S2P Require Import Grammar StringMap CfGrammar FirstSets FirstFacts LLkTable LLkTableFacts LLk.
From S2P Require Import LLkFacts LLkDefects Driver Chunks.

#[export] Instance llk_backend (h : list HCFChoice) (table : HLLkTable) (uninit : Z)
    : HParserBackendVTable HLLkState := {
  vt_parse fuel stream := '(res, _) ← h_llk_parse h table uninit fuel stream; Ok res;
  vt_parse_start := Some (h_llk_parse_start table);
  vt_parse_chunk := Some (h_llk_parse_chunk h table uninit);
  vt_parse_finish := Some h_llk_parse_finish;
}.

(** * Tables with one byte of lookahead *)

Definition decides (v : option sm_value) : bool :=
  match v with Some v => negb (bool_decide (v = CONFLICT)) | None => false end.
Definition row_one_byte (row : HStringMap) : bool :=
  bool_decide (sm_epsilon_branch row = None) &&
  negb (bool_decide (sm_end_branch row = Some CONFLICT)) &&
  forallb (fun e => decides (sm_epsilon_branch e.2)) (sm_char_branches row).

Record one_byte (table : HLLkTable) : Prop := {
  ob_kmax : tb_kmax table = 1%nat;
  ob_rows : forall x row, tb_rows table !! x = Some row -> row_one_byte row = true;
  ob_alive : forall x row, tb_rows table !! x = Some row -> sm_alive (tb_freed table) row = true;
}.

(** The row of [x] on the next byte or the end of the input. *)
Definition row_entry (row : HStringMap) (left_ : list Z) (last : bool) : lookahead :=
  match left_ with
  | [] => if last then la_of (sm_end_branch row) else NEED_INPUT
  | c :: _ =>
      match h_stringmap_get_char row c with Some m => la_of (sm_epsilon_branch m) | None => LA_none end
  end.

Lemma lookup_one_byte table x s :
  one_byte table -> byte_aligned s -> (is_overrun s = true -> rest s = []) ->
  h_llk_lookup table x s =
  match tb_rows table !! x with
  | Some row => Ok (row_entry row (rest s) (is_last_chunk s))
  | None => Fault AssertFail
  end.
Proof.
  intros [_ Ho Hal] Hs Hov. unfold h_llk_lookup. destruct (tb_rows table !! x) as [row|] eqn:Hrow; [|done].
  apply Hal in Hrow as Hr. apply Ho in Hrow. unfold row_one_byte in Hrow. cbn [deref mbind outcome_bind].
  destruct (bool_decide (sm_epsilon_branch row = None)) eqn:He; [|done]. apply bool_decide_eq_true in He.
  cbn [andb assert_ok mbind outcome_bind] in *. unfold h_stringmap_get_lookahead.
  rewrite get_lookahead_loop_ok by done. destruct (rest s) as [|c l]; simpl; rewrite He; [done|].
  destruct (h_stringmap_get_char row c) as [m|] eqn:Hm; [|done].
  apply branch_get_elem in Hm as Hk. apply andb_prop in Hrow as [_ Hrow].
  eapply forallb_forall in Hrow; [|by apply list_elem_of_In in Hk]. simpl in Hrow.
  destruct l; simpl; by destruct (sm_epsilon_branch m).
Qed.

Lemma row_entry_no_conflict table x row l last :
  one_byte table -> tb_rows table !! x = Some row -> row_entry row l last <> LA_value CONFLICT.
Proof.
  intros [_ Ho] Hrow. apply Ho in Hrow. unfold row_one_byte in Hrow.
  apply andb_prop in Hrow as [[_ He]%andb_prop Hc]. unfold row_entry. destruct l as [|c l].
  - destruct last; [|done]. intros E. destruct (sm_end_branch row); [|done]. by injection E as ->.
  - destruct (h_stringmap_get_char row c) as [m|] eqn:Hm; [|done].
    apply branch_get_elem in Hm as Hk. eapply forallb_forall in Hc; [|by apply list_elem_of_In in Hk].
    simpl in Hc. intros E. destruct (sm_epsilon_branch m); [|done]. by injection E as ->.
Qed.

(** * Two runs at the same place *)

(** The same state but for the streams; the window is not in use. *)
Record ahead_run (b : list Z) (w s : llk_run) : Prop := {
  ar_stack : lr_stack w = lr_stack s;
  ar_seq : lr_seq w = lr_seq s;
  ar_win : lr_win w = lr_win s;
  ar_unused : is_length (lr_win s) = 0;
  ar_in_win : lr_in_win w = false /\ lr_in_win s = false;
  ar_stream : ahead b (lr_chunk w) (lr_chunk s);
}.

(** The state when the chunk [s] is used up with [stack] and [seq] left. *)
Definition waits (s s' : llk_run) : Prop :=
  is_last_chunk (lr_chunk s) = false /\ rest (lr_chunk s) = [] /\ lr_stack s' = lr_stack s /\ lr_stack s' <> [] /\
  lr_seq s' = lr_seq s /\ lr_win s' = lr_win s /\ same_chunk (lr_chunk s) (lr_chunk s') /\
  is_index (lr_chunk s') = is_index (lr_chunk s) /\ is_bit_offset (lr_chunk s') = 0.

(** A round on [w] does what the round on [s] does, unless that waits. *)
Definition alike (b : list Z) (s : llk_run) (ow os : outcome (llk_run + llk_run * llk_exit)) : Prop :=
  match os with
  | Ok (inl s') => same_chunk (lr_chunk s) (lr_chunk s') /\
      exists w', ow = Ok (inl w') /\ ahead_run b w' s'
  | Ok (inr (s', LX_need_input)) => waits s s'
  | Ok (inr (s', e)) => same_chunk (lr_chunk s) (lr_chunk s') /\
      exists w', ow = Ok (inr (w', e)) /\ ahead_run b w' s'
  | Fault f => ow = Fault f
  | OutOfFuel => ow = OutOfFuel
  end.

Section Rounds.
Context (h : list HCFChoice) (table : HLLkTable) (uninit : Z).
Hypothesis Hone : one_byte table.

Lemma ahead_set_stack b w s stk : ahead_run b w s -> ahead_run b (set_stack stk w) (set_stack stk s).
Proof. by intros []. Qed.
Lemma ahead_set_seq b w s seq : ahead_run b w s -> ahead_run b (set_seq seq w) (set_seq seq s).
Proof. by intros []. Qed.

Lemma result_alike b x tok w s s0 :
  ahead_run b w s -> same_chunk (lr_chunk s0) (lr_chunk s) ->
  alike b s0 (llk_result uninit x tok w) (llk_result uninit x tok s).
Proof.
  intros Hr Hs. unfold llk_result. rewrite (ar_seq _ _ _ Hr).
  destruct (llk_process uninit x tok) as [[r|]|f|]; cbn [mbind outcome_bind alike]; try done.
  - destruct (h_carray_append _ _) as [seq|f|]; cbn [mbind outcome_bind alike]; try done.
    split; [done|]. eexists. split; [done|]. by apply ahead_set_seq.
  - split; [done|]. by eexists.
Qed.

Lemma reduce_alike b w s s0 :
  ahead_run b w s -> same_chunk (lr_chunk s0) (lr_chunk s) ->
  alike b s0 (llk_reduce h uninit w) (llk_reduce h uninit s).
Proof.
  intros Hr Hs. unfold llk_reduce. rewrite (ar_stack _ _ _ Hr), (ar_seq _ _ _ Hr).
  destruct (lr_stack s) as [|[x| |] [|[| |seq] stk]]; try done.
  destruct (choice_at h x) as [ch|f|]; cbn [mbind outcome_bind alike]; try done.
  apply result_alike; [|done]. by apply ahead_set_seq, ahead_set_stack.
Qed.

(** Nothing to save when the chunk is used up. *)
Lemma save_win_unused s win :
  byte_aligned s -> rest s = [] -> save_win table win s = Ok win.
Proof.
  intros Hs Hr. pose proof (rest_length _ Hs) as Hl. rewrite Hr in Hl. simpl in Hl.
  unfold save_win, kmax. rewrite (ba_offset _ Hs), (ob_kmax _ Hone), <- Hl. done.
Qed.

Lemma expand_alike b x stk w s :
  ahead_run b w s -> lr_stack s = SE_symbol x :: stk ->
  alike b s (llk_expand h table x (set_stack stk w)) (llk_expand h table x (set_stack stk s)).
Proof.
  intros Hr Hstk. pose proof Hr as [Es Eq Ew Hu [Iw Is] Ha]. pose proof Ha as [Hbw Hbs Hp Hrest Hlw Hm Ho He].
  unfold llk_expand, run_stream. cbn [set_stack lr_in_win lr_chunk lr_win lr_seq lr_stack].
  rewrite Iw, Is, Ew. rewrite !lookup_one_byte by first [done|by intros E; apply He|intros E; rewrite Ho in E;
    destruct (He E) as [E1 E2]; by rewrite Hrest, E1, (Hm E2)].
  destruct (tb_rows table !! x) as [row|] eqn:Hrow; [|done]. cbn [mbind outcome_bind].
  destruct (decide (rest (lr_chunk s) = [] /\ is_last_chunk (lr_chunk s) = false)) as [[E1 E2]|Hn].
  { rewrite E1, E2. cbn [row_entry]. rewrite (save_win_unused (lr_chunk s)) by done. cbn [mbind outcome_bind].
    unfold need_input, run_stream, set_win. cbn [lr_in_win lr_chunk set_stack]. rewrite Is, E2.
    split_and!; try done; apply Hbs. }
  assert (row_entry row (rest (lr_chunk w)) (is_last_chunk (lr_chunk w)) =
          row_entry row (rest (lr_chunk s)) (is_last_chunk (lr_chunk s))) as ->.
  { rewrite Hrest, Hlw. destruct (rest (lr_chunk s)) as [|c l]; [|done].
    destruct (is_last_chunk (lr_chunk s)); [by rewrite Hm|]. by destruct Hn. }
  pose proof (row_entry_no_conflict table x row (rest (lr_chunk s)) (is_last_chunk (lr_chunk s)) Hone Hrow)
    as Hnc.
  destruct (row_entry _ _ _) as [|v|] eqn:Ev.
  - split; [done|]. eexists. split; [done|]. by apply ahead_set_stack.
  - assert (v <> CONFLICT) as Hv by congruence.
    destruct v; try done; destruct (entry_items _ _) as [items|f|]; try done; cbn [mbind outcome_bind].
    all: destruct (assert_ok _) as [[]|f|]; cbn [mbind outcome_bind alike]; try done.
    all: split; [done|]; eexists; split; [done|]; by split; simpl; rewrite ?Eq, ?Es, ?Hstk.
  - exfalso. unfold row_entry in Ev. destruct (rest (lr_chunk s)) as [|c l].
    + destruct (is_last_chunk (lr_chunk s)); [by destruct (sm_end_branch row)|by destruct Hn].
    + destruct (h_stringmap_get_char row c) as [m|]; [|done]. by destruct (sm_epsilon_branch m).
Qed.

(** The window is not in use, so no round leaves it. *)
Lemma leave_win_unused s : is_length (lr_win s) = 0 -> leave_win table s = s.
Proof. intros Hu. unfold leave_win. by rewrite Hu. Qed.

Lemma ahead_chunk b w s w' s' :
  ahead_run b w s -> ahead b w' s' -> ahead_run b (set_run_stream w' w) (set_run_stream s' s).
Proof.
  intros [Es Eq Ew Hu [Iw Is] Ha] Ha'. unfold set_run_stream. rewrite Iw, Is. by split.
Qed.

(** The part of [llk_terminal] after the input token is consumed. *)
Definition match_terminal (x : nat) (ch : HCFChoice) (tok : Z -> HParsedToken) (input : Z)
    (st : llk_run) : outcome (llk_run + llk_run * llk_exit) :=
  let stream := run_stream st in
  match cf_type ch with
  | HCF_END =>
      if negb (is_overrun stream) then Ok (inr (st, LX_no_parse))
      else if negb (is_last_chunk stream) then Ok (inr (need_input x st))
      else llk_result uninit ch None st
  | HCF_CHAR chr =>
      if is_overrun stream then Ok (inr (need_input x st))
      else if negb (input =? chr) then Ok (inr (st, LX_no_parse))
      else llk_result uninit ch (Some (tok chr)) st
  | HCF_CHARSET cs =>
      if is_overrun stream then Ok (inr (need_input x st))
      else
        b ← charset_isset cs input;
        if negb b then Ok (inr (st, LX_no_parse)) else llk_result uninit ch (Some (tok input)) st
  | _ => Fault AssertFail
  end.

Lemma llk_terminal_match x ch st :
  is_length (lr_win st) = 0 -> lr_in_win st = false -> byte_aligned (lr_chunk st) ->
  llk_terminal table uninit x ch st =
  let stream := lr_chunk st in
  let tok v := mkTok (TT_UINT v) (is_pos stream + is_index stream) 0 0 in
  match rest stream with
  | [] => match_terminal x ch tok 0 (set_run_stream (set_overrun stream true) st)
  | c :: _ => match_terminal x ch tok (uint8 c) (set_run_stream (next_byte stream) st)
  end.
Proof.
  intros Hw Hi Hs. assert (run_stream st = lr_chunk st) as Hrun by (unfold run_stream; by rewrite Hi).
  unfold llk_terminal. rewrite Hrun, read_byte, (ba_offset _ Hs) by done.
  unfold set_run_stream. rewrite Hi.
  destruct (rest (lr_chunk st)); cbn [mbind outcome_bind]; by rewrite leave_win_unused.
Qed.

Lemma match_alike b x ch tok c w s s0 :
  ahead_run b w s -> same_chunk (lr_chunk s0) (lr_chunk s) ->
  (is_overrun (lr_chunk s) = true -> is_last_chunk (lr_chunk s) = true) ->
  alike b s0 (match_terminal x ch tok c w) (match_terminal x ch tok c s).
Proof.
  intros Hr Hs Hlast. pose proof Hr as [Es Eq Ew Hu [Iw Is] Ha].
  assert (forall st, lr_in_win st = false -> run_stream st = lr_chunk st) as Hrun
    by (intros st Hst; unfold run_stream; by rewrite Hst).
  unfold match_terminal, need_input. rewrite !Hrun by done. rewrite (ah_overrun _ _ _ Ha), (ah_last _ _ _ Ha).
  destruct (cf_type ch); try done; destruct (is_overrun (lr_chunk s)) eqn:Hov; cbn [negb];
    rewrite ?Hlast by done; cbn [negb]; try by apply result_alike.
  all: try by (split; [done|]; by eexists).
  - destruct (charset_isset _ _) as [[]|f|]; cbn [mbind outcome_bind alike]; try done.
    + by apply result_alike.
    + split; [done|]. by eexists.
  - destruct (c =? _); cbn [negb alike]; [by apply result_alike|split; [done|]; by eexists].
Qed.

(** At the end of a chunk that is not the last a terminal waits, whatever it is. *)
Lemma match_waits b x ch stk tok w s :
  ahead_run b w s -> lr_stack s = SE_symbol x :: stk -> rest (lr_chunk s) = [] ->
  is_last_chunk (lr_chunk s) = false ->
  let s' := set_run_stream (set_overrun (lr_chunk s) true) (set_stack stk s) in
  match match_terminal x ch tok 0 s' with
  | Ok (inr (s', LX_need_input)) => waits s s'
  | Fault f => is_terminal_type (cf_type ch) = false /\ f = AssertFail
  | _ => False
  end.
Proof.
  intros Hr Hstk Hrest Hlast s'. pose proof Hr as [Es Eq Ew Hu [Iw Is] Ha].
  assert (run_stream s' = set_overrun (lr_chunk s) true) as Hrun.
  { unfold s', run_stream, set_run_stream. simpl. by rewrite Is. }
  assert (waits s (set_stack (SE_symbol x :: lr_stack s') s')) as Hw.
  { unfold s', set_run_stream. simpl. rewrite Is. split_and!; try done. apply Ha. }
  unfold match_terminal, need_input. rewrite Hrun. simpl. rewrite Hlast. simpl.
  by destruct (cf_type ch).
Qed.

Lemma terminal_alike b x ch stk w s :
  ahead_run b w s -> lr_stack s = SE_symbol x :: stk ->
  alike b s (llk_terminal table uninit x ch (set_stack stk w))
    (llk_terminal table uninit x ch (set_stack stk s)).
Proof.
  intros Hr Hstk. pose proof Hr as [Es Eq Ew Hu [Iw Is] Ha]. pose proof Ha as [Hbw Hbs Hp Hrest Hlw Hm Ho He].
  pose proof (ahead_set_stack _ _ _ stk Hr) as Hr'.
  rewrite !llk_terminal_match by (simpl; rewrite ?Ew; done). cbn [lr_chunk set_stack]. cbv zeta.
  rewrite Hp. set (tok := fun v => _). destruct (rest (lr_chunk s)) as [|c l] eqn:Erest.
  - destruct (is_last_chunk (lr_chunk s)) eqn:Elast.
    + destruct (ahead_overrun _ _ _ Ha Erest Elast) as [-> Ha'].
      pose proof (ahead_chunk _ _ _ _ _ Hr' Ha') as Hr2.
      apply match_alike; [done|..]; unfold set_run_stream; simpl; by rewrite Is.
    + pose proof (match_waits b x ch stk tok w s Hr Hstk Erest Elast) as Hw. simpl in Hw.
      destruct (match_terminal _ _ _ _ (set_run_stream _ (set_stack stk s))) as [[|[s' []]]|f|]; try done.
      destruct Hw as [Ht ->]. cbn [alike]. unfold match_terminal.
      destruct (rest (lr_chunk w)); by destruct (cf_type ch).
  - rewrite Hrest. cbn [app]. pose proof (ahead_next _ _ _ _ _ Ha Erest) as Ha'.
    pose proof (ahead_chunk _ _ _ _ _ Hr' Ha') as Hr2.
    apply match_alike; [done|..]; unfold set_run_stream; simpl; rewrite Is; [done|].
    simpl. intros Hov. by apply He.
Qed.

Lemma step_alike b w s :
  ahead_run b w s -> alike b s (llk_step h table uninit w) (llk_step h table uninit s).
Proof.
  intros Hr. unfold llk_step. rewrite (ar_stack _ _ _ Hr). destruct (lr_stack s) as [|[x| |seq] stk] eqn:Hstk.
  - split; [done|]. by eexists.
  - destruct (choice_at h x) as [ch|f|]; cbn [mbind outcome_bind alike]; try done.
    destruct (cf_type ch); by (apply expand_alike || apply terminal_alike).
  - apply reduce_alike; [by apply ahead_set_stack|done].
  - done.
Qed.

(** * The loop *)

(** The run [w] of the whole input against the run [s] of a chunk; [other fuel]
    is the run that takes over when [s] waits. *)
Lemma loop_alike fuel b w s :
  ahead_run b w s ->
  match llk_loop h table uninit fuel s with
  | Ok (s', LX_need_input) => exists s0 w0 rounds, waits s0 s' /\ ahead_run b w0 s0 /\
      same_chunk (lr_chunk s) (lr_chunk s0) /\ (rounds < fuel)%nat /\
      llk_loop h table uninit fuel w = llk_loop h table uninit (fuel - rounds) w0
  | Ok (s', e) => same_chunk (lr_chunk s) (lr_chunk s') /\
      exists w', llk_loop h table uninit fuel w = Ok (w', e) /\ ahead_run b w' s'
  | Fault f => llk_loop h table uninit fuel w = Fault f
  | OutOfFuel => llk_loop h table uninit fuel w = OutOfFuel
  end.
Proof.
  revert w s. induction fuel as [|fuel IH]; intros w s Hr; [done|]. cbn [llk_loop].
  pose proof (step_alike b w s Hr) as Ha.
  destruct (llk_step h table uninit s) as [[s1|[s1 e]]|f|]; cbn [mbind outcome_bind alike] in *.
  - destruct Ha as (Hs & w1 & -> & Hr1). cbn [mbind outcome_bind]. specialize (IH _ _ Hr1).
    destruct (llk_loop h table uninit fuel s1) as [[s' e]|f|]; try done.
    destruct e; [destruct IH; split; [by etrans|done]..|].
    destruct IH as (s0 & w0 & rounds & ? & ? & ? & ? & ->). exists s0, w0, (S rounds).
    split_and!; try done; [by etrans|lia].
  - destruct e; [destruct Ha as (? & w' & -> & ?); by eauto..|].
    exists s, w, 0%nat. split_and!; try done. lia.
  - by rewrite Ha.
  - by rewrite Ha.
Qed.

Lemma loop_done fuel s s' : llk_loop h table uninit fuel s = Ok (s', LX_done) -> lr_stack s' = [].
Proof.
  revert s. induction fuel as [|fuel IH]; intros s; [done|]. cbn [llk_loop].
  assert (forall x tok st s1, llk_result uninit x tok st <> Ok (inr (s1, LX_done))) as Hres.
  { intros x tok st s1. unfold llk_result. destruct (llk_process uninit x tok) as [[r|]|f|]; try done.
    simpl. by destruct (h_carray_append _ _). }
  destruct (llk_step h table uninit s) as [[s1|[s1 e]]|f|] eqn:E; cbn [mbind outcome_bind]; try done.
  { by apply IH. }
  intros [= -> ->]. revert E. unfold llk_step.
  destruct (lr_stack s) as [|[x| |seq] stk] eqn:Hstk; [by intros [= <-]|..|done].
  - destruct (choice_at h x) as [ch|f|]; try done. cbn [mbind outcome_bind].
    assert (llk_expand h table x (set_stack stk s) <> Ok (inr (s', LX_done))) as Hexp.
    { unfold llk_expand. destruct (h_llk_lookup _ _ _) as [la|f|]; try done. cbn [mbind outcome_bind].
      assert (forall st, need_input x st <> (s', LX_done)) as Hneed
        by (intros st; unfold need_input; by case_match).
      destruct la as [|[| |nt i|i]|]; try done.
      all: try (destruct (save_win _ _ _) as [win|f|]; try done; simpl; intros [= E]; by apply Hneed in E).
      by destruct (entry_items _ _) as [items|f|]; simpl; try destruct (assert_ok _). }
    assert (llk_terminal table uninit x ch (set_stack stk s) <> Ok (inr (s', LX_done))) as Hterm.
    { unfold llk_terminal, need_input. destruct (h_read_bits _ _ _) as [[c st]|f|]; try done; simpl.
      repeat (case_match; simpl; try done); try apply Hres.
      destruct (charset_isset _ _) as [[]|f|]; try done. apply Hres. }
    by destruct (cf_type ch).
  - unfold llk_reduce. simpl. destruct stk as [|[y| |] [|[| |seq] stk]]; try done.
    destruct (choice_at h y) as [ch|f|]; try done. cbn [mbind outcome_bind]. intros E. by apply Hres in E.
Qed.

(** * The contract *)

Definition start_run (s : HLLkState) (seq : HCountedArray HParsedToken) (stream : HInputStream)
    : llk_run := mkRun (ll_stack s) seq (ll_win s) stream false.

(** What the loop's end means on the last chunk. *)
Definition loop_result (pos : Z) (r : outcome (llk_run * llk_exit)) : outcome (option HParseResult) :=
  '(st, e) ← r;
  match e with
  | LX_done =>
      _ ← assert_ok (ca_used (lr_seq st) =? 1)%nat;
      t ← carray_elem (lr_seq st) 0;
      Ok (Some (mkResult t ((pos + is_index (lr_chunk st)) * 8 + is_bit_offset (lr_chunk st))))
  | LX_no_parse => Ok None
  | LX_need_input => Fault AssertFail
  end.

Lemma ahead_start pos a b win stk seq :
  input_ok pos (a ++ b) -> is_length win = 0 ->
  ahead_run b (mkRun stk seq win (input_stream pos DEFAULT_ENDIANNESS (a ++ b) true) false)
    (mkRun stk seq win (input_stream pos DEFAULT_ENDIANNESS a false) false).
Proof. intros Hi Hw. split; try done. by apply ahead_input. Qed.

Lemma ahead_last pos b win stk seq :
  input_ok pos b -> is_length win = 0 ->
  let s := mkRun stk seq win (input_stream pos DEFAULT_ENDIANNESS b true) false in ahead_run [] s s.
Proof. intros Hi Hw s. split; try done. by apply ahead_last_input. Qed.

(** The run that takes over when a chunk is used up. *)
Lemma ahead_next_chunk b w s s' pos a :
  ahead_run b w s -> waits s s' -> same_chunk (input_stream pos DEFAULT_ENDIANNESS a false) (lr_chunk s) ->
  input_ok (pos + Z.of_nat (length a)) b ->
  is_index (lr_chunk s') = Z.of_nat (length a) /\
  ahead_run [] w (mkRun (lr_stack s') (lr_seq s') (lr_win s')
                    (input_stream (pos + Z.of_nat (length a)) DEFAULT_ENDIANNESS b true) false).
Proof.
  intros [Es Eq Ew Hu [Iw Is] Ha] (Hl & Hr & Hstk & _ & Hseq & Hwin & _ & Hix & _) Hc Hi.
  destruct (ahead_next_input _ _ _ _ _ Ha Hr Hl Hc Hi) as [Hidx Ha'].
  split; [congruence|]. split; simpl; (done || congruence).
Qed.

Lemma finished_loop fuel s seq pos input :
  is_length (ll_win s) = 0 -> ll_seq s = Some seq -> input_ok pos input ->
  finished (h_llk_parse_chunk h table uninit) h_llk_parse_finish fuel s pos input =
  loop_result pos (llk_loop h table uninit fuel
                     (start_run s seq (input_stream pos DEFAULT_ENDIANNESS input true))).
Proof.
  intros Hw Hs Hi. unfold finished, h_llk_parse_chunk, llk_parse_chunk_, conclude. rewrite Hs, Hw.
  cbn [is_index is_bit_offset input_stream assert_ok mbind outcome_bind Z.eqb Z.ltb Z.compare].
  fold (start_run s seq (input_stream pos DEFAULT_ENDIANNESS input true)).
  destruct (llk_loop _ _ _ _ _) as [[st e]|f|] eqn:E; cbn [mbind outcome_bind loop_result]; [|done..].
  destruct e.
  - destruct (assert_ok (ca_used (lr_seq st) =? 1)%nat) as [[]|f|] eqn:Ea; cbn [mbind outcome_bind]; [|done..].
    apply loop_done in E. cbn [ll_stack ll_seq]. rewrite E, (bool_decide_true ([] = [])) by done.
    rewrite orb_true_r. unfold h_llk_parse_finish, llk_parse_finish_. simpl. rewrite Ea. simpl.
    by destruct (carray_elem _ _).
  - done.
  - exfalso. pose proof (loop_alike fuel [] _ _ (ahead_last pos input _ (ll_stack s) seq Hi Hw)) as Ha.
    unfold start_run in E. rewrite E in Ha. destruct Ha as (s0 & _ & _ & (Hl & _) & _ & (_ & _ & _ & Hl') & _).
    simpl in Hl'. congruence.
Qed.

(** The whole run keeps its position; it does not wait. *)
Lemma last_run fuel stk seq win pos input st e :
  input_ok pos input -> is_length win = 0 ->
  llk_loop h table uninit fuel (mkRun stk seq win (input_stream pos DEFAULT_ENDIANNESS input true) false)
    = Ok (st, e) ->
  is_pos (lr_chunk st) = pos /\ e <> LX_need_input.
Proof.
  intros Hi Hw E. pose proof (loop_alike fuel [] _ _ (ahead_last pos input _ stk seq Hi Hw)) as Ha.
  rewrite E in Ha. destruct e; [by destruct Ha as ((Hp & _) & _)..|].
  destruct Ha as (s0 & _ & _ & (Hl & _) & _ & (_ & _ & _ & Hl') & _). simpl in Hl'. congruence.
Qed.

(** Runs at the same place come to the same result. *)
Lemma loop_result_alike pos pos' b w s fuel :
  ahead_run b w s -> is_pos (lr_chunk s) = pos' ->
  (forall st e, llk_loop h table uninit fuel w = Ok (st, e) -> is_pos (lr_chunk st) = pos) ->
  match llk_loop h table uninit fuel s with
  | Ok (_, LX_need_input) => True
  | r => loop_result pos (llk_loop h table uninit fuel w) = loop_result pos' r
  end.
Proof.
  intros Hr Hp' Hw. pose proof (loop_alike fuel b w s Hr) as Ha.
  destruct (llk_loop h table uninit fuel s) as [[s' e]|f|]; [|by rewrite Ha..].
  destruct e; [..|done]; destruct Ha as [(Hps & _) (w' & E & [_ Eq _ _ _ Ha])]; rewrite E; [|done].
  apply Hw in E. cbn [loop_result mbind outcome_bind]. rewrite Eq.
  replace (pos' + is_index (lr_chunk s')) with (pos + is_index (lr_chunk w')) by
    (pose proof (ah_pos _ _ _ Ha); lia).
  by rewrite (ba_offset _ (ah_whole _ _ _ Ha)), (ba_offset _ (ah_part _ _ _ Ha)).
Qed.

(** Between two chunks the parse goes on and nothing is saved. *)
Definition between_chunks (s : HLLkState) : Prop :=
  is_length (ll_win s) = 0 /\ is_Some (ll_seq s).

Lemma chunk_loop fuel s seq pos input last :
  is_length (ll_win s) = 0 -> ll_seq s = Some seq ->
  h_llk_parse_chunk h table uninit fuel s (input_stream pos DEFAULT_ENDIANNESS input last) =
  ('(st, e) ← llk_loop h table uninit fuel
                (start_run s seq (input_stream pos DEFAULT_ENDIANNESS input last));
   _ ← (match e with LX_done => assert_ok (ca_used (lr_seq st) =? 1)%nat | _ => Ok tt end);
   let seq := match e with LX_no_parse => None | _ => Some (lr_seq st) end in
   Ok (bool_decide (seq = None) || bool_decide (lr_stack st = []),
       mkLLkState (lr_stack st) seq (lr_win st), lr_chunk st)).
Proof.
  intros Hw Hs. unfold h_llk_parse_chunk, llk_parse_chunk_. rewrite Hs, Hw.
  cbn [is_index is_bit_offset input_stream assert_ok mbind outcome_bind Z.eqb Z.ltb Z.compare].
  fold (start_run s seq (input_stream pos DEFAULT_ENDIANNESS input last)).
  destruct (llk_loop _ _ _ _ _) as [[st e]|f|]; cbn [mbind outcome_bind]; [|done..].
  destruct e; cbn [mbind outcome_bind]; [|done..].
  by destruct (assert_ok (ca_used (lr_seq st) =? 1)%nat) as [[]|f|].
Qed.

Lemma chunk_split fuel s pos a b :
  between_chunks s -> input_ok pos (a ++ b) ->
  let chunk := h_llk_parse_chunk h table uninit in
  let whole := finished chunk h_llk_parse_finish fuel s pos (a ++ b) in
  whole <> OutOfFuel ->
  match chunk fuel s (input_stream pos DEFAULT_ENDIANNESS a false) with
  | Ok (done, s', stream) =>
      is_endianness stream = DEFAULT_ENDIANNESS /\ 0 <= is_index stream <= Z.of_nat (length a) /\
      if (done : bool) then whole = conclude h_llk_parse_finish pos s' stream
      else
        is_index stream = Z.of_nat (length a) /\ is_bit_offset stream = 0 /\ between_chunks s' /\
        whole = finished chunk h_llk_parse_finish fuel s' (pos + Z.of_nat (length a)) b
  | Fault f => whole = Fault f
  | OutOfFuel => False
  end.
Proof.
  intros [Hw [seq Hs]] Hi chunk whole. unfold whole, chunk. clear whole chunk.
  rewrite (finished_loop _ _ seq) by done. rewrite (chunk_loop _ _ seq) by done.
  destruct (input_ok_app _ _ _ Hi) as [Hia Hib].
  pose proof (ahead_start pos a b _ (ll_stack s) seq Hi Hw) as Hr. unfold start_run.
  pose proof (fun st e => last_run fuel (ll_stack s) seq (ll_win s) pos (a ++ b) st e Hi Hw) as Hlast.
  set (w := mkRun _ _ _ (input_stream _ _ (a ++ b) _) _) in *.
  set (p := mkRun _ _ _ (input_stream _ _ a _) _) in *. intros Hfuel.
  pose proof (loop_alike fuel b w p Hr) as Ha.
  pose proof (loop_result_alike pos pos b w p fuel Hr eq_refl (fun st e E => proj1 (Hlast st e E)))
    as Hres.
  destruct (llk_loop h table uninit fuel p) as [[s' e]|f|] eqn:E; cbn [mbind outcome_bind];
    [|by rewrite Ha|by rewrite Ha in Hfuel].
  assert (e <> LX_need_input -> is_endianness (lr_chunk s') = DEFAULT_ENDIANNESS /\
            0 <= is_index (lr_chunk s') <= Z.of_nat (length a)) as Hframe.
  { intros He. destruct e; [..|done]; destruct Ha as [(_ & Hl & Hen & _) (w' & _ & [_ _ _ _ _ [_ [] _ _ _ _ _]])];
      simpl in Hl; split; (done || congruence). }
  destruct e.
  - cbn [loop_result mbind outcome_bind] in Hres. apply loop_done in E.
    destruct (assert_ok (ca_used (lr_seq s') =? 1)%nat) as [[]|f|] eqn:Eu; cbn [mbind outcome_bind] in *;
      [|done..]. split_and!; try by apply Hframe. rewrite E, orb_true_r, Hres.
    unfold conclude, h_llk_parse_finish, llk_parse_finish_. simpl. rewrite Eu. simpl.
    by destruct (carray_elem _ _).
  - cbn [loop_result mbind outcome_bind] in *. split_and!; try by apply Hframe. done.
  - destruct Ha as (s0 & w0 & rounds & Hwt & Hr0 & Hsame & Hlt & Ew).
    destruct (ahead_next_chunk _ _ _ _ pos a Hr0 Hwt Hsame Hib) as [Hidx Hr2].
    destruct Hwt as (_ & _ & Hstk & Hne & _ & Hwin & (_ & _ & Hen & _) & _ & Hbo).
    cbn [mbind outcome_bind]. rewrite (bool_decide_false (lr_stack s' = [])) by done.
    destruct Hsame as (_ & _ & Hen' & _). split; [by rewrite Hen, Hen'|]. split; [lia|].
    rewrite bool_decide_false by done. cbn [orb]. assert (is_length (lr_win s') = 0) as Hwin'
      by (rewrite Hwin; apply Hr0). split; [done|]. split; [done|]. split; [split; [done|by eexists]|].
    rewrite (finished_loop _ _ (lr_seq s')) by done.
    unfold start_run. cbn [ll_stack ll_win]. rewrite Ew in Hlast, Hfuel |- *.
    set (d := mkRun (lr_stack s') _ _ _ _) in *.
    pose proof (loop_result_alike pos (pos + Z.of_nat (length a)) [] w0 d (fuel - rounds) Hr2 eq_refl
                  (fun st e E => proj1 (Hlast st e E))) as Heq.
    destruct (llk_loop h table uninit (fuel - rounds) d) as [[st e]|f|] eqn:Ed.
    + rewrite (llk_loop_more _ _ _ (fuel - rounds) fuel), Ed by (lia || by rewrite Ed).
      destruct e; [done..|]. apply last_run in Ed as [_ Hne']; done.
    + by rewrite (llk_loop_more _ _ _ (fuel - rounds) fuel), Ed by (lia || by rewrite Ed).
    + by rewrite Heq in Hfuel.
Qed.

Lemma empty_chunk fuel s pos done s' stream :
  between_chunks s -> 0 <= pos < 2 ^ 27 ->
  h_llk_parse_chunk h table uninit fuel s (input_stream pos DEFAULT_ENDIANNESS [] true)
    = Ok (done, s', stream) ->
  is_index stream = 0 /\ is_bit_offset stream = 0.
Proof.
  intros [Hw [seq Hs]] Hpos. assert (input_ok pos []) as Hi by (split; [done|simpl; lia]).
  rewrite (chunk_loop _ _ seq) by done.
  pose proof (loop_alike fuel [] _ _ (ahead_last pos [] _ (ll_stack s) seq Hi Hw)) as Ha.
  fold (start_run s seq (input_stream pos DEFAULT_ENDIANNESS [] true)) in Ha.
  destruct (llk_loop _ _ _ _ _) as [[st e]|f|]; cbn [mbind outcome_bind]; [|done..].
  destruct e.
  1,2: destruct Ha as [(_ & Hl & _) (w' & _ & [_ _ _ _ _ [_ [Hb _ Hix _ _ _] _ _ _ _ _]])].
  1: destruct (assert_ok _) as [[]|f|]; cbn [mbind outcome_bind]; [|done..].
  1,2: intros [= _ _ <-]; simpl in Hl; split; [lia|done].
  destruct Ha as (s0 & _ & _ & (Hl & _) & _ & (_ & _ & _ & Hl') & _). simpl in Hl'. congruence.
Qed.
End Rounds.

(** The LL(k) back end with one byte of lookahead keeps the contract. *)
#[export] Instance llk_incremental h table uninit start
    (Hone : one_byte table) (Hstart : tb_start table = Some start) :
  Incremental HLLkState (H := llk_backend h table uninit).
Proof.
  refine {|
    inc_start := mkLLkState [SE_symbol start] (Some h_carray_new)
                   (mkStream (replicate (2 * tb_kmax table) 0) 0 0 0 0 0 0 false false);
    inc_chunk := h_llk_parse_chunk h table uninit;
    inc_finish := h_llk_parse_finish;
    inc_between := between_chunks;
  |}.
  - split_and!; [|done..]. simpl. unfold h_llk_parse_start, llk_parse_start_. by rewrite Hstart.
  - split; [done|by eexists].
  - intros fuel input Hi. simpl.
    set (s := mkLLkState _ _ _).
    rewrite (finished_loop h table uninit Hone fuel s h_carray_new) by done.
    unfold h_llk_parse, llk_parse_start_. rewrite Hstart. cbn [deref mbind outcome_bind]. fold s.
    unfold llk_parse_chunk_, start_run. subst s.
    cbn [is_index is_bit_offset is_last_chunk input_stream assert_ok mbind outcome_bind Z.eqb Z.ltb
         Z.compare ll_seq ll_win ll_stack is_length].
    fold (input_stream 0 DEFAULT_ENDIANNESS input true).
    destruct (llk_loop _ _ _ _ _) as [[st e]|f|] eqn:E; cbn [mbind outcome_bind loop_result]; [|done..].
    destruct e; [|done|by apply (last_run h table uninit Hone) in E as [_ []]].
    destruct (assert_ok (ca_used (lr_seq st) =? 1)%nat) as [[]|f|] eqn:Ea; cbn [mbind outcome_bind]; [|done..].
    unfold llk_parse_finish_. cbn [ll_seq]. rewrite Ea. cbn [mbind outcome_bind].
    by destruct (carray_elem _ _).
  - intros fuel s pos a b Hs Hi Hf. exact (chunk_split h table uninit Hone fuel s pos a b Hs Hi Hf).
  - intros fuel s pos done s' stream. exact (empty_chunk h table uninit Hone fuel s pos done s' stream).
Defined.

(** * Examples *)

Lemma one_byte_rows table :
  tb_kmax table = 1%nat -> rows_alive table = true ->
  Forall (fun e => row_one_byte e.2 = true) (map_to_list (tb_rows table)) -> one_byte table.
Proof.
  intros Hk Hal Hr. split; [done| |intros x row; by apply rows_alive_row]. intros x row Hx%elem_of_map_to_list.
  exact (proj1 (list.Forall_forall _ _) Hr _ Hx).
Qed.

Definition parens_table : HLLkTable :=
  match @fill_table insertion_order parens 1 parens_grammar (h_llktable_new 1) with
  | Ok (_, t, _) => h_cfgrammar_free parens_grammar t
  | _ => h_llktable_new 1
  end.

Lemma parens_one_byte : one_byte parens_table.
Proof. apply one_byte_rows; [done|vm_compute; reflexivity|]. vm_compute. by repeat constructor. Qed.

(** "(()())" in four pieces, the second one empty. *)
Definition parens_chunks : list (list Z) := [[40; 40]; []; [41; 40; 41]; [41]].

Lemma parens_whole :
  exists res, @h_parse _ (llk_backend parens parens_table 0) 50 (concat parens_chunks) = Ok (Some res) /\
    bit_length res = 48.
Proof. eexists. split; [vm_compute; reflexivity|reflexivity]. Qed.

Lemma h_parse_chunks_correct_witness :
  let vt := llk_backend parens parens_table 0 in
  @parse_in_chunks _ vt 50 parens_chunks = @h_parse _ vt 50 (concat parens_chunks) /\
  exists res, @h_parse _ vt 50 (concat parens_chunks) = Ok (Some res) /\ bit_length res = 48.
Proof.
  split; [|exact parens_whole].
  apply (@h_parse_chunks_correct _ _ (llk_incremental parens parens_table 0 0 parens_one_byte eq_refl)).
  - split; [|simpl; lia]. repeat constructor; lia.
  - destruct parens_whole as (res & -> & _). done.
Defined.

(** S -> 'a' | 'a' 'b', which needs two bytes of lookahead. *)
Definition two_bytes : list HCFChoice :=
  [mkChoice (HCF_CHOICE [[1]; [1; 2]]%nat) None None None None;
   mkChoice (HCF_CHAR 97) None None None None; mkChoice (HCF_CHAR 98) None None None None].

(** The contract of the chunk functions fails with two bytes of lookahead:
    h_parse accepts "a" and the LL(2) table has no conflict, but after the chunk
    "a" h_parse_finish stops at its assertion, because the saved window hides the
    last chunk. *)
Theorem llk_finish_assertion :
  exists t, table_of (H := insertion_order) two_bytes 2 = Ok (0, t) /\
    let vt := llk_backend two_bytes t 0 in
    (exists res, @h_parse _ vt 20 [97] = Ok (Some res) /\ bit_length res = 8) /\
    @parse_in_chunks _ vt 20 [[97]] = Fault AssertFail.
Proof.
  eexists. split; [vm_compute; reflexivity|]. split; [|vm_compute; reflexivity].
  eexists. split; [vm_compute; reflexivity|reflexivity].
Qed.
