(* ===== verification/LR.v ===== *)
(** The data of the LR back ends (src/src/backends/lr.h, first half of
    src/src/backends/lr.c): symbols and items compared by value, item sets as
    the hash tables that they are, actions and tables.

    Symbols are pointers to choices of the heap [h]; [addr] gives their
    addresses, which decide the order of the hash tables. Actions live in the
    arena of their table, [lt_actions]. A row number is [None] for HLR_SUCCESS,
    the largest [size_t]. *)

From S2P Require Import Prelude Charset Token Parser HashTable Desugar Grammar StringMap CfGrammar.

(** * Symbols and items *)

Record HLRItem := mkItem {
  it_lhs : nat;
  it_rhs : list nat;
  it_len : nat;
  it_mark : nat;
}.

Section Compare.
Context (addr : nat -> Z) (h : list HCFChoice).

Definition h_eq_symbol (p q : nat) : outcome bool :=
  if (p =? q)%nat then Ok true else
  x ← choice_at h p;
  y ← choice_at h q;
  Ok (match cf_type x, cf_type y with
      | HCF_END, HCF_END => true
      | HCF_CHAR c, HCF_CHAR d => c =? d
      | _, _ => false
      end).

(** A symbol of a grammar is a choice of the heap. *)
Definition h_hash_symbol (p : nat) : Z :=
  match cf_type <$> h !! p with
  | Some HCF_END => 0
  | Some (HCF_CHAR c) => c * 33
  | _ => h_hash_ptr (addr p)
  end.

(** The loop of [eq_lr_item] over the right-hand sides. *)
Fixpoint eq_symbols (l1 l2 : list nat) : outcome bool :=
  match l1, l2 with
  | [], _ => Ok true
  | x :: l1, y :: l2 =>
      b ← h_eq_symbol x y;
      if (b : bool) then eq_symbols l1 l2 else Ok false
  | _ :: _, [] => Fault OutOfBounds
  end.

Definition eq_lr_item (a b : HLRItem) : outcome bool :=
  same ← h_eq_symbol (it_lhs a) (it_lhs b);
  if negb same then Ok false else
  if negb (it_mark a =? it_mark b)%nat then Ok false else
  if negb (it_len a =? it_len b)%nat then Ok false else
  eq_symbols (it_rhs a) (it_rhs b).

Definition hash_lr_item (x : HLRItem) : Z :=
  uint32 (h_hash_symbol (it_lhs x)
          + foldr (fun p hash => h_hash_symbol p + hash) 0 (it_rhs x) + Z.of_nat (it_mark x)).

(** A comparison as a hash table calls it, with a key that may be NULL. *)
Definition eq_nonnull {K} (eq : K -> K -> outcome bool) (p : K) (q : option K) : outcome bool :=
  q ← deref NullDeref q; eq p q.

(** * Item sets, the states of the automaton *)

Definition HLRState : Type := HHashTable HLRItem unit.

(** [H_FOREACH_KEY] and [H_FOREACH]: the entries in the order of the buckets. *)
Definition table_entries {K V} (ht : HHashTable K V) : list (K * option V) :=
  live (mjoin (ht_contents ht)).
Definition table_keys {K V} (ht : HHashTable K V) : list K := (table_entries ht).*1.

Definition h_lrstate_new : HLRState := h_hashtable_new.
Definition put_item (s : HLRState) (it : HLRItem) : outcome HLRState :=
  h_hashtable_put hash_lr_item (eq_nonnull eq_lr_item) s it None.
Definition item_present (s : HLRState) (it : HLRItem) : outcome bool :=
  h_hashtable_present hash_lr_item (eq_nonnull eq_lr_item) s it.

Definition h_eq_lr_itemset (p q : HLRState) : outcome bool :=
  h_hashset_equal (eq_nonnull eq_lr_item) p q.
Definition h_hash_lr_itemset (p : HLRState) : Z :=
  foldl (fun hash it => uint32 (hash + hash_lr_item it)) 0 (table_keys p).

(** * Transitions *)

Record HLRTransition := mkTransition {
  tn_from : nat;
  tn_symbol : nat;
  tn_to : nat;
}.

Definition h_eq_transition (a b : HLRTransition) : outcome bool :=
  if (tn_from a =? tn_from b)%nat && (tn_to a =? tn_to b)%nat
  then h_eq_symbol (tn_symbol a) (tn_symbol b) else Ok false.
Definition h_hash_transition (t : HLRTransition) : Z :=
  uint32 (h_hash_symbol (tn_symbol t) + Z.of_nat (tn_from t) + Z.of_nat (tn_to t)).

End Compare.

(** The automaton. An element of [states] that was not written is [None]. *)
Record HLRDFA := mkDFA {
  df_nstates : nat;
  df_states : list (option HLRState);
  df_transitions : list HLRTransition;
}.

(** [assert(mark <= len)] *)
Definition h_lritem_new (lhs : nat) (rhs : list nat) (mark : nat) : outcome HLRItem :=
  _ ← assert_ok (mark <=? length rhs)%nat;
  Ok (mkItem lhs rhs (length rhs) mark).

(** * Actions *)

(** HLR_SUCCESS, [(size_t)~0], is [None]. *)
Definition HLR_SUCCESS : option nat := None.

(** HLR_REDUCE keeps the right-hand side for the assertions and printers of a
    debug build; HLR_CONFLICT points at other actions. *)
Inductive HLRAction :=
| HLR_SHIFT (nextstate : option nat)
| HLR_REDUCE (lhs length : nat) (rhs : list nat)
| HLR_CONFLICT (branches : list nat).

Record HLRTable := mkLRTable {
  lt_nrows : nat;
  lt_ntmap : list (HHashTable nat nat);
  lt_tmap : list HStringMap;
  lt_forall : list (option nat);
  lt_start : option nat;
  lt_inadeq : list nat;
  lt_actions : list HLRAction;
}.

(** A string map needs an arena; tables have their own. *)
Definition h_lrtable_new (arena nrows : nat) : HLRTable :=
  mkLRTable nrows (replicate nrows h_hashtable_new) (replicate nrows (h_stringmap_new arena))
    (replicate nrows None) None [] [].

Definition set_ntmap (l : list (HHashTable nat nat)) (t : HLRTable) : HLRTable :=
  mkLRTable (lt_nrows t) l (lt_tmap t) (lt_forall t) (lt_start t) (lt_inadeq t) (lt_actions t).
Definition set_tmap (l : list HStringMap) (t : HLRTable) : HLRTable :=
  mkLRTable (lt_nrows t) (lt_ntmap t) l (lt_forall t) (lt_start t) (lt_inadeq t) (lt_actions t).
Definition set_forall (l : list (option nat)) (t : HLRTable) : HLRTable :=
  mkLRTable (lt_nrows t) (lt_ntmap t) (lt_tmap t) l (lt_start t) (lt_inadeq t) (lt_actions t).
Definition set_lr_start (s : option nat) (t : HLRTable) : HLRTable :=
  mkLRTable (lt_nrows t) (lt_ntmap t) (lt_tmap t) (lt_forall t) s (lt_inadeq t) (lt_actions t).
Definition set_inadeq (l : list nat) (t : HLRTable) : HLRTable :=
  mkLRTable (lt_nrows t) (lt_ntmap t) (lt_tmap t) (lt_forall t) (lt_start t) l (lt_actions t).
Definition set_actions (l : list HLRAction) (t : HLRTable) : HLRTable :=
  mkLRTable (lt_nrows t) (lt_ntmap t) (lt_tmap t) (lt_forall t) (lt_start t) (lt_inadeq t) l.

(** [h_arena_malloc(arena, sizeof(HLRAction))] with its contents. *)
Definition new_action (a : HLRAction) (l : list HLRAction) : nat * list HLRAction :=
  (length l, l ++ [a]).
Definition h_shift_action (nextstate : option nat) (l : list HLRAction) : nat * list HLRAction :=
  new_action (HLR_SHIFT nextstate) l.
Definition h_reduce_action (item : HLRItem) (l : list HLRAction) : nat * list HLRAction :=
  new_action (HLR_REDUCE (it_lhs item) (it_len item) (it_rhs item)) l.

(** Branches are pushed at the front of their list. *)
Definition h_lr_conflict (action new : nat) (l : list HLRAction) : outcome (nat * list HLRAction) :=
  a ← deref NullDeref (l !! action);
  match a with
  | HLR_CONFLICT branches =>
      if decide (new ∈ branches) then Ok (action, l)
      else Ok (action, <[action := HLR_CONFLICT (new :: branches)]> l)
  | _ => Ok (new_action (HLR_CONFLICT [new; action]) l)
  end.

Definition h_lrtable_row_empty (table : HLRTable) (i : nat) : outcome bool :=
  nts ← deref OutOfBounds (lt_ntmap table !! i);
  ts ← deref OutOfBounds (lt_tmap table !! i);
  Ok (h_hashtable_empty nts && h_stringmap_empty ts).
