(* ===== verification/HashKeys.v ===== *)
(** Hash tables whose keys are compared by an arbitrary function, as the tables
    of the LR back ends are: where the entries of a table come from, without
    any assumption on the comparison or the hash. *)

From S2P Require Import Prelude HashTable LR.

Section Keys.
Context {K V : Type} (hashFunc : K -> Z) (equalFunc : K -> option K -> outcome bool).
Implicit Types (t : HHashTable K V) (b : list (HHashTableEntry K V)).

Lemma elem_table_entries t e :
  e ∈ table_entries t <-> exists b, b ∈ ht_contents t /\ e ∈ live b.
Proof.
  unfold table_entries. generalize (ht_contents t) as bs. induction bs as [|b bs IH]; simpl.
  - split; [by intros ?%not_elem_of_nil|by intros (? & ?%not_elem_of_nil & _)].
  - rewrite live_app, elem_of_app, IH. split.
    + intros [He|(b' & Hb & He)]; [exists b|exists b']; (split; [|done]); [by left|by right].
    + intros (b' & [->|Hb]%elem_of_cons & He); [by left|right; by exists b'].
Qed.

Lemma entry_matches_equal k hv (e : HHashTableEntry K V) :
  entry_matches equalFunc k hv e = Ok true -> equalFunc k (he_key e) = Ok true.
Proof. unfold entry_matches. by destruct (he_hashval e =? hv). Qed.

(** ** What is found *)

Lemma bucket_get_entry k hv b v :
  bucket_get equalFunc k hv b = Ok (Some v) ->
  exists k', (k', Some v) ∈ live b /\ equalFunc k (Some k') = Ok true.
Proof.
  induction b as [|e b IH]; [done|]. cbn [bucket_get live].
  destruct (he_key e) as [k'|] eqn:Hk; [|done]. intros H. ok_inv.
  destruct (entry_matches equalFunc k hv e) as [[]| |] eqn:Em; simplify_eq/=.
  - exists k'. split; [rewrite H; by left|]. rewrite <- Hk. by eapply entry_matches_equal.
  - destruct (IH H) as (k2 & Hk2 & He). exists k2. split; [by right|done].
Qed.

Lemma get_entry t k v :
  h_hashtable_get hashFunc equalFunc t k = Ok (Some v) ->
  exists k', (k', Some v) ∈ table_entries t /\ equalFunc k (Some k') = Ok true.
Proof.
  unfold h_hashtable_get. intros H. ok_inv. apply bucket_get_entry in H as (k' & Hk & He).
  exists k'. split; [|done]. apply elem_table_entries. eexists. split; [|done].
  by eapply list_elem_of_lookup_2.
Qed.

(** ** What is put *)

Lemma bucket_put_from k hv v b b' added e :
  bucket_put equalFunc k (mkEntry (Some k) v hv) b = Ok (b', added) -> e ∈ live b' ->
  e = (k, v) \/ e ∈ live b.
Proof.
  revert b' added. induction b as [|e0 b IH]; intros b' added H He; cbn [bucket_put] in H.
  - simplify_eq/=. left. by apply list_elem_of_singleton in He.
  - destruct (entry_matches _ _ _ _) as [[]| |]; simpl in H; try done.
    + simplify_eq/=. apply elem_of_cons in He as [->|He]; [by left|right].
      destruct (he_key e0); [by right|done].
    + ok_inv. case_match. simplify_eq/=. destruct (he_key e0).
      * apply elem_of_cons in He as [->|He]; [right; by left|].
        edestruct IH as [|]; [done|done|by left|right; by right].
      * by eapply IH.
Qed.

(** The bucket that a key is put in, before and after. *)
Lemma put_raw_inv t k v hv t' :
  h_hashtable_put_raw equalFunc t k v hv = Ok t' ->
  exists i b b' added, ht_contents t !! i = Some b /\
    ht_contents t' = <[i := b']> (ht_contents t) /\ ht_capacity t' = ht_capacity t /\
    ht_used t' = (if (added : bool) then ht_used t + 1 else ht_used t) /\
    (bucket_put equalFunc k (mkEntry (Some k) v hv) b = Ok (b', added) \/
     b' = mkEntry (Some k) v hv :: tail b /\ live b = live (tail b) /\ added = true).
Proof.
  unfold h_hashtable_put_raw. intros H. ok_inv. case_match. simplify_eq/=.
  eexists _, _, _, _. split_and!; [done..|]. destruct (he_key x0) eqn:Hk; [by left|right].
  simplify_eq/=. split_and!; [done| |done]. destruct x; simplify_eq/=. by rewrite Hk.
Qed.

Lemma put_raw_from t k v hv t' e :
  h_hashtable_put_raw equalFunc t k v hv = Ok t' -> e ∈ table_entries t' ->
  e = (k, v) \/ e ∈ table_entries t.
Proof.
  intros (i & b & b' & added & Hi & Hc & _ & _ & Hb)%put_raw_inv He.
  apply elem_table_entries in He as (b2 & Hb2 & He). rewrite Hc in Hb2.
  apply list_elem_of_lookup in Hb2 as [j Hj].
  rewrite (elem_table_entries t). apply list_lookup_insert_Some in Hj as [(<- & <- & _)|[_ Hj]].
  - destruct Hb as [Hb|(-> & Hl & _)].
    + edestruct bucket_put_from as [|]; [done|done|by left|right]. exists b.
      split; [by eapply list_elem_of_lookup_2|done].
    + cbn [live he_key] in He. apply elem_of_cons in He as [->|He]; [by left|right]. exists b.
      split; [by eapply list_elem_of_lookup_2|by rewrite Hl].
  - right. exists b2. split; [by eapply list_elem_of_lookup_2|done].
Qed.

Lemma put_entries_from es t t' e :
  put_entries equalFunc t es = Ok t' -> e ∈ table_entries t' ->
  e ∈ live es \/ e ∈ table_entries t.
Proof.
  revert t. induction es as [|x es IH]; intros t H He; simpl in *; [simplify_eq/=; by right|].
  destruct (he_key x); [|by eapply IH]. ok_inv.
  edestruct IH as [|]; [done|done|left; by right|].
  edestruct put_raw_from as [->|]; [done|done|left; by left|by right].
Qed.

Lemma empty_entries n c u : table_entries (mkTable (replicate n [empty_entry]) c u : HHashTable K V) = [].
Proof. unfold table_entries. simpl. by induction n. Qed.

Lemma put_from t k v t' e :
  h_hashtable_put hashFunc equalFunc t k v = Ok t' -> e ∈ table_entries t' ->
  e = (k, v) \/ e ∈ table_entries t.
Proof.
  unfold h_hashtable_put, h_hashtable_ensure_capacity. intros H He. ok_inv.
  edestruct put_raw_from as [|He']; [done|done|by left|right]. case_match; simplify_eq/=; [done|].
  edestruct put_entries_from as [|Hn]; [done|done|done|].
  rewrite empty_entries in Hn. by apply not_elem_of_nil in Hn.
Qed.

(** ** Shape *)

Definition shaped t : Prop :=
  (exists j, 6 <= j /\ ht_capacity t = 2 ^ j) /\ length (ht_contents t) = Z.to_nat (ht_capacity t).

Lemma put_raw_shaped t k v hv t' :
  h_hashtable_put_raw equalFunc t k v hv = Ok t' -> shaped t -> shaped t'.
Proof.
  intros (i & b & b' & added & Hi & Hc & Hcap & _ & _)%put_raw_inv [Hj Hl].
  split; [by rewrite Hcap|]. by rewrite Hc, Hcap, length_insert.
Qed.

Lemma put_entries_shaped es t t' :
  put_entries equalFunc t es = Ok t' -> shaped t -> shaped t'.
Proof.
  revert t. induction es as [|x es IH]; intros t H Ht; simpl in *; [by simplify_eq/=|].
  destruct (he_key x); [|by eapply IH]. ok_inv. eapply IH; [done|]. by eapply put_raw_shaped.
Qed.

Lemma grow_capacity_power fuel n c c' :
  grow_capacity fuel n c = Ok c' -> (exists j, 6 <= j /\ c = 2 ^ j) -> exists j, 6 <= j /\ c' = 2 ^ j.
Proof.
  revert c. induction fuel as [|fuel IH]; intros c H (j & Hj & ->); simpl in H;
    destruct (2 ^ j * 10 <? n * 13); simplify_eq; eauto.
  apply (IH _ H). exists (j + 1). rewrite Z.pow_add_r by lia. lia.
Qed.

Lemma put_shaped t k v t' :
  h_hashtable_put hashFunc equalFunc t k v = Ok t' -> shaped t -> shaped t'.
Proof.
  unfold h_hashtable_put, h_hashtable_ensure_capacity. intros H Ht. ok_inv.
  eapply put_raw_shaped; [done|]. case_match; simplify_eq/=; [done|].
  eapply put_entries_shaped; [done|]. split; simpl; [by eapply grow_capacity_power; [|apply Ht]|].
  by rewrite length_replicate.
Qed.

(** A lookup returns if every comparison does. *)
Lemma get_total t k :
  shaped t -> 0 <= hashFunc k ->
  (forall k' v, (k', v) ∈ table_entries t -> exists r, equalFunc k (Some k') = Ok r) ->
  exists r, h_hashtable_get hashFunc equalFunc t k = Ok r.
Proof.
  intros [Hj Hl] Hh Heq. unfold h_hashtable_get.
  destruct (lookup_lt_is_Some_2 (ht_contents t) (bucket_index (ht_capacity t) (hashFunc k))) as [b Hb].
  { rewrite Hl. by apply bucket_index_lt. }
  rewrite Hb. cbn [deref mbind outcome_bind].
  assert (forall k' v, (k', v) ∈ live b -> exists r, equalFunc k (Some k') = Ok r) as He.
  { intros k' v Hk'. apply (Heq k' v), elem_table_entries. exists b.
    split; [by eapply list_elem_of_lookup_2|done]. }
  clear Hb. induction b as [|e b IH]; cbn [bucket_get]; [by eexists|].
  cbn [live] in He. destruct (he_key e) as [k'|] eqn:Hk; [|auto].
  destruct (He k' (he_value e)) as [r Hr]; [by left|].
  unfold entry_matches. rewrite Hk, Hr.
  assert (exists r, bucket_get equalFunc k (hashFunc k) b = Ok r) as [r' Hr'].
  { apply IH. intros k2 v2 H2. apply (He k2 v2). by right. }
  rewrite Hr'. destruct (_ =? _), r; simpl; eauto.
Qed.

(** ** The count *)

Context (Hnull : forall k, equalFunc k None <> Ok true).

Definition counted t : Prop := ht_used t = Z.of_nat (length (table_entries t)).

Lemma bucket_put_length k hv v b b' added :
  bucket_put equalFunc k (mkEntry (Some k) v hv) b = Ok (b', added) ->
  length (live b') = ((if (added : bool) then 1 else 0) + length (live b))%nat.
Proof.
  revert b' added. induction b as [|e0 b IH]; intros b' added H; cbn [bucket_put] in H.
  - by simplify_eq/=.
  - destruct (entry_matches _ _ _ _) as [[]| |] eqn:Em; simpl in H; try done.
    + simplify_eq/=. apply entry_matches_equal in Em.
      destruct (he_key e0); [done|]. by apply Hnull in Em.
    + ok_inv. case_match. simplify_eq/=. destruct (he_key e0); simpl; erewrite IH by done; lia.
Qed.

Lemma entries_insert (bs : list (list (HHashTableEntry K V))) i b b' :
  bs !! i = Some b ->
  (length (live (mjoin (<[i := b']> bs))) + length (live b) =
   length (live (mjoin bs)) + length (live b') /\ length (live b) <= length (live (mjoin bs)))%nat.
Proof.
  revert i. induction bs as [|b0 bs IH]; intros [|i] Hi; simplify_eq/=; rewrite !live_app, !length_app.
  - lia.
  - specialize (IH _ Hi). lia.
Qed.

Lemma put_raw_counted t k v hv t' :
  h_hashtable_put_raw equalFunc t k v hv = Ok t' -> counted t ->
  counted t' /\ (0 < length (table_entries t'))%nat.
Proof.
  intros (i & b & b' & added & Hi & Hc & _ & Hu & Hb)%put_raw_inv Ht. unfold counted in *.
  rewrite Hu. unfold table_entries in *. rewrite Hc.
  pose proof (entries_insert _ _ _ b' Hi) as He.
  assert (length (live b') = ((if (added : bool) then 1 else 0) + length (live b))%nat) as Hl.
  { destruct Hb as [Hb|(-> & Hl & ->)]; [by eapply bucket_put_length|]. simpl. by rewrite Hl. }
  assert (0 < length (live b'))%nat.
  { destruct Hb as [Hb|(-> & _)]; [|simpl; lia]. clear -Hb Hnull. revert b' added Hb.
    induction b as [|e0 b IH]; intros b' added H; cbn [bucket_put] in H; [simplify_eq/=; lia|].
    destruct (entry_matches _ _ _ _) as [[]| |]; simpl in H; try done; [simplify_eq/=; lia|].
    ok_inv. case_match. simplify_eq/=. destruct (he_key e0); simpl; [lia|by eapply IH]. }
  destruct added; lia.
Qed.

Lemma put_entries_counted es t t' :
  put_entries equalFunc t es = Ok t' -> counted t -> counted t'.
Proof.
  revert t. induction es as [|x es IH]; intros t H Ht; simpl in *; [by simplify_eq/=|].
  destruct (he_key x); [|by eapply IH]. ok_inv. eapply IH; [done|]. by eapply put_raw_counted.
Qed.

Lemma put_counted t k v t' :
  h_hashtable_put hashFunc equalFunc t k v = Ok t' -> counted t -> 
  counted t' /\ h_hashtable_empty t' = false.
Proof.
  unfold h_hashtable_put, h_hashtable_ensure_capacity. intros H Ht. ok_inv.
  edestruct put_raw_counted as [Hc Hn]; [done| |split; [done|]].
  - case_match; simplify_eq/=; [done|]. eapply put_entries_counted; [done|].
    unfold counted. by rewrite empty_entries.
  - unfold h_hashtable_empty. unfold counted in Hc. apply Z.eqb_neq. lia.
Qed.

End Keys.

Lemma new_entries {K V} : table_entries (h_hashtable_new : HHashTable K V) = [].
Proof. apply (empty_entries 64). Qed.

Lemma new_shaped {K V} : shaped (h_hashtable_new : HHashTable K V).
Proof. split; [by exists 6|done]. Qed.

Lemma eq_nonnull_null {K} (eq : K -> K -> outcome bool) k : eq_nonnull eq k None <> Ok true.
Proof. done. Qed.
