(* ===== verification/LRDriver.v ===== *)
(** The LR driver (src/src/backends/lr.c from h_lrengine_new_ to
    h_lr_parse_finish): one engine with its stack of states and values.

    The stack is the linked list of the code: a saved state and the value above
    it for each symbol. Engines of one parse share the arena of the results. *)

From S2P Require Import Prelude Stream Charset CArray Token Parser HashTable Desugar Grammar StringMap.
From S2P Require Import CfGrammar LR Driver.

(** An element of the stack. *)
Inductive lr_elem :=
| LE_state (s : option nat)
| LE_value (v : option HParsedToken).

(** The engine without its table and without the engines merged into it. *)
Record HLREngine := mkEngine {
  en_state : option nat;
  en_stack : list lr_elem;
  en_input : HInputStream;
}.

(** What [h_lrengine_action] returns: NULL, an action, or NEED_INPUT. *)
Inductive lr_lookup := LL_none | LL_action (a : HLRAction) | LL_need_input.

Section Driver.
Context (addr : nat -> Z) (h : list HCFChoice) (table : HLRTable).
(** The value of a [user_data] that was never written. *)
Context (uninit : Z).

Definition h_lrengine_new (stream : HInputStream) : HLREngine := mkEngine (Some 0%nat) [] stream.

Definition action_at (a : nat) : outcome HLRAction := deref NullDeref (lt_actions table !! a).

(** [assert(state < table->nrows)]; the end state is the largest [size_t]. *)
Definition row_of (state : option nat) : outcome nat :=
  s ← deref AssertFail state;
  _ ← assert_ok (s <? lt_nrows table)%nat;
  Ok s.

Definition terminal_lookup (engine : HLREngine) (stream : HInputStream) : outcome lr_lookup :=
  state ← row_of (en_state engine);
  forall_ ← deref OutOfBounds (lt_forall table !! state);
  match forall_ with
  | Some a =>
      empty ← h_lrtable_row_empty table state;
      _ ← assert_ok empty;
      act ← action_at a; Ok (LL_action act)
  | None =>
      m ← deref OutOfBounds (lt_tmap table !! state);
      la ← h_stringmap_get_lookahead [] m stream;
      match la with
      | LA_none => Ok LL_none
      | LA_value (V_action a) => act ← action_at a; Ok (LL_action act)
      | LA_value _ => Fault NullDeref
      | NEED_INPUT => Ok LL_need_input
      end
  end.

Definition nonterminal_lookup (engine : HLREngine) (symbol : nat) : outcome (option HLRAction) :=
  state ← row_of (en_state engine);
  forall_ ← deref OutOfBounds (lt_forall table !! state);
  _ ← assert_ok (bool_decide (forall_ = None));
  nts ← deref OutOfBounds (lt_ntmap table !! state);
  a ← h_hashtable_get (h_hash_symbol addr h) (eq_nonnull (h_eq_symbol h)) nts symbol;
  match a with
  | Some a => act ← action_at a; Ok (Some act)
  | None => Ok None
  end.

Definition h_lrengine_action (engine : HLREngine) : outcome lr_lookup :=
  terminal_lookup engine (en_input engine).

(** The token is NULL at the end of the input. *)
Definition consume_input (engine : HLREngine) : outcome (option HParsedToken * HLREngine) :=
  '(c, input) ← h_read_bits (en_input engine) 8 false;
  let engine := mkEngine (en_state engine) (en_stack engine) input in
  Ok (if is_overrun input then None
      else Some (mkTok (TT_UINT (uint8 c)) (is_pos input + is_index input - 1) 0 (is_bit_offset input)),
      engine).

(** [h_slist_drop] of a value and of a state: NULL, which is state 0, from the
    empty stack; an element of the other kind is [OutOfBounds]. *)
Definition drop_value (stack : list lr_elem) : outcome (option HParsedToken * list lr_elem) :=
  match stack with
  | [] => Ok (None, [])
  | LE_value v :: stack => Ok (v, stack)
  | LE_state _ :: _ => Fault OutOfBounds
  end.
Definition drop_state (stack : list lr_elem) : outcome (option nat * list lr_elem) :=
  match stack with
  | [] => Ok (Some 0%nat, [])
  | LE_state s :: stack => Ok (s, stack)
  | LE_value _ :: _ => Fault OutOfBounds
  end.

(** The loop that pulls [len] values off the stack: the state it rewinds to, the
    values, the left-most first, and the rest of the stack. *)
Fixpoint pull_values (len : nat) (state : option nat) (values : list (option HParsedToken))
    (stack : list lr_elem) : outcome (option nat * list (option HParsedToken) * list lr_elem) :=
  match len with
  | O => Ok (state, values, stack)
  | S len =>
      '(v, stack) ← drop_value stack;
      '(state, stack) ← drop_state stack;
      pull_values len state (v :: values) stack
  end.

(** The value of a reduction: the sequence of the values, at the place of the
    left-most one, or of the input if that is NULL. *)
Definition reduction_value (engine : HLREngine) (values : list (option HParsedToken)) : HParsedToken :=
  let new := h_carray_new_sized (length values) in
  let seq := mkCArray (ca_capacity new) (length values)
               (values ++ drop (length values) (ca_elements new)) in
  match head values with
  | Some (Some v) => mkTok (TT_SEQUENCE seq) (tok_index v) 0 (tok_bit_offset v)
  | _ => mkTok (TT_SEQUENCE seq) (is_pos (en_input engine) + is_index (en_input engine)) 0
           (is_bit_offset (en_input engine))
  end.

(** Reshape, validation and action of [symbol] on [value]; [None] if the
    validation fails. *)
Definition lr_process (symbol : HCFChoice) (value : HParsedToken)
    : outcome (option (option HParsedToken)) :=
  let user_data := default uninit (cf_user_data symbol) in
  value ← (match cf_reshape symbol with
           | Some r =>
               v ← reshape_action r (mkResult (Some value) 0) user_data;
               Ok (match v with
                   | Some v => Some (mkTok (tok_data v) (tok_index value) (tok_bit_length v)
                                       (tok_bit_offset value))
                   | None => None
                   end)
           | None => Ok (Some value)
           end);
  valid ← (match cf_pred symbol with
           | Some pred => pred (mkResult value 0) user_data
           | None => Ok true
           end);
  if valid : bool then
    value ← (match cf_action symbol with
             | Some action => action (mkResult value 0) user_data
             | None => Ok value
             end);
    Ok (Some value)
  else Ok None.

(** [h_slist_push] of the state and the value, and the new state. *)
Definition push_symbol (value : option HParsedToken) (nextstate : option nat) (engine : HLREngine)
    : HLREngine :=
  mkEngine nextstate (LE_value value :: LE_state (en_state engine) :: en_stack engine)
    (en_input engine).

(** The reduction by a production of [lhs] with [len] symbols. *)
Definition lr_reduce (engine : HLREngine) (lhs len : nat) : outcome (HLREngine * bool) :=
  '(state, values, stack) ← pull_values len (en_state engine) [] (en_stack engine);
  let engine := mkEngine state stack (en_input engine) in
  symbol ← choice_at h lhs;
  r ← lr_process symbol (reduction_value engine values);
  match r with
  | None => Ok (engine, false)
  | Some value =>
      shift ← nonterminal_lookup engine lhs;
      match shift with
      | None => Ok (engine, false)
      | Some (HLR_SHIFT nextstate) =>
          let engine := push_symbol value nextstate engine in
          match nextstate with
          | None => _ ← assert_ok (bool_decide (Some lhs = lt_start table)); Ok (engine, false)
          | Some _ => Ok (engine, true)
          end
      | Some _ => Fault AssertFail
      end
  end.

(** The flag is false when the engine is finished. *)
Definition h_lrengine_step (engine : HLREngine) (action : option HLRAction)
    : outcome (HLREngine * bool) :=
  match action with
  | None => Ok (engine, false)
  | Some (HLR_REDUCE lhs len _) => lr_reduce engine lhs len
  | Some (HLR_SHIFT nextstate) =>
      '(value, engine) ← consume_input engine;
      Ok (push_symbol value nextstate engine, true)
  | Some (HLR_CONFLICT _) => Fault AssertFail
  end.

Definition h_lrengine_result (engine : HLREngine) : outcome (option HParseResult) :=
  match en_state engine with
  | Some _ => Ok None
  | None =>
      top ← deref AssertFail (head (en_stack engine));
      match top with
      | LE_value tok =>
          Ok (Some (mkResult tok ((is_pos (en_input engine) + is_index (en_input engine)) * 8)))
      | LE_state _ => Fault OutOfBounds
      end
  end.

(** NEED_INPUT is a pointer that [h_lrengine_step] reads: h_lr_parse has the
    whole input. *)
Definition lookup_action (l : lr_lookup) : outcome (option HLRAction) :=
  match l with
  | LL_none => Ok None
  | LL_action a => Ok (Some a)
  | LL_need_input => Fault NullDeref
  end.

(** One round with the action looked up. *)
Definition lr_round (engine : HLREngine) (l : lr_lookup) : outcome (HLREngine * bool) :=
  action ← lookup_action l; h_lrengine_step engine action.

Fixpoint lr_loop (fuel : nat) (engine : HLREngine) : outcome HLREngine :=
  match fuel with
  | O => OutOfFuel
  | S fuel =>
      l ← h_lrengine_action engine;
      '(engine, run) ← lr_round engine l;
      if run : bool then lr_loop fuel engine else Ok engine
  end.

Definition h_lr_parse (fuel : nat) (stream : HInputStream) : outcome (option HParseResult) :=
  engine ← lr_loop fuel (h_lrengine_new stream);
  h_lrengine_result engine.

(** The input of the engine is not written before the first chunk. *)
Definition h_lr_parse_start : outcome HLREngine :=
  Ok (h_lrengine_new (input_stream 0 0 [] false)).

(** The new engine, and whether it still runs. *)
Fixpoint lr_chunk_loop (fuel : nat) (engine : HLREngine) : outcome (HLREngine * bool) :=
  match fuel with
  | O => OutOfFuel
  | S fuel =>
      l ← h_lrengine_action engine;
      match l with
      | LL_need_input =>
          _ ← assert_ok (is_length (en_input engine) - is_index (en_input engine) =? 0);
          Ok (engine, true)
      | _ =>
          '(engine, run) ← lr_round engine l;
          if is_overrun (en_input engine) && negb (is_last_chunk (en_input engine))
          then Ok (engine, run)
          else if run : bool then lr_chunk_loop fuel engine else Ok (engine, false)
      end
  end.

Definition h_lr_parse_chunk (fuel : nat) (engine : HLREngine) (stream : HInputStream)
    : outcome (bool * HLREngine * HInputStream) :=
  '(engine, run) ← lr_chunk_loop fuel (mkEngine (en_state engine) (en_stack engine) stream);
  Ok (negb run, engine, en_input engine).

Definition h_lr_parse_finish (engine : HLREngine) : outcome (option HParseResult) :=
  h_lrengine_result engine.

End Driver.

#[export] Instance lr_backend (addr : nat -> Z) (h : list HCFChoice) (table : HLRTable) (uninit : Z)
    : HParserBackendVTable HLREngine := {
  vt_parse := h_lr_parse addr h table uninit;
  vt_parse_start := Some h_lr_parse_start;
  vt_parse_chunk := Some (h_lr_parse_chunk addr h table uninit);
  vt_parse_finish := Some h_lr_parse_finish;
}.
