(* ===== verification/LRChunks.v ===== *)
(** The contract of the chunk functions for the LR driver: with the tables that
    the code generates, one byte of lookahead, a parse fed in chunks goes the
    same way as the parse of the whole input. *)

From S2P Require Import Prelude Stream ByteStream Charset CArray Token Parser HashTable Desugar.
From S2P Require Import Grammar StringMap CfGrammar LR LRDriver Driver Chunks.

(** * Tables with one byte of lookahead *)

Definition map_one_byte (m : HStringMap) : bool :=
  bool_decide (sm_epsilon_branch m = None) &&
  forallb (fun e => bool_decide (is_Some (sm_epsilon_branch e.2))) (sm_char_branches m).

(** The shortcut for a whole row never shifts. *)
Definition shifts_not (a : option HLRAction) : bool :=
  match a with Some (HLR_SHIFT _) => false | _ => true end.

Record lr_one_byte (table : HLRTable) : Prop := {
  lob_tmap : forall i m, lt_tmap table !! i = Some m -> map_one_byte m = true;
  lob_forall : forall i a, lt_forall table !! i = Some (Some a) ->
    shifts_not (lt_actions table !! a) = true;
}.

(** The entry of a row without lookahead beyond the next byte. *)
Definition map_entry (m : HStringMap) (left_ : list Z) (last : bool) : lookahead :=
  match left_ with
  | [] => if last then la_of (sm_end_branch m) else NEED_INPUT
  | c :: _ =>
      match h_stringmap_get_char m c with Some m => la_of (sm_epsilon_branch m) | None => LA_none end
  end.

Lemma map_lookup_one_byte m s :
  map_one_byte m = true -> byte_aligned s -> (is_overrun s = true -> rest s = []) ->
  h_stringmap_get_lookahead [] m s = Ok (map_entry m (rest s) (is_last_chunk s)).
Proof.
  intros Hm Hs Hov. unfold map_one_byte in Hm. apply andb_prop in Hm as [He%bool_decide_eq_true Hc].
  unfold h_stringmap_get_lookahead. rewrite get_lookahead_loop_ok by (done || apply sm_alive_nil). f_equal.
  destruct (rest s) as [|c l]; simpl; rewrite He; [done|].
  destruct (h_stringmap_get_char m c) as [n|] eqn:Hn; [|done].
  apply branch_get_elem in Hn as Hn. eapply forallb_forall in Hc; [|by apply list_elem_of_In in Hn].
  apply bool_decide_eq_true in Hc as [v Hv]. simpl in Hv. rewrite Hv.
  destruct l; simpl; by rewrite Hv.
Qed.

(** * Two engines at the same place *)

Record ahead_engine (b : list Z) (w s : HLREngine) : Prop := {
  ae_state : en_state w = en_state s;
  ae_stack : en_stack w = en_stack s;
  ae_input : ahead b (en_input w) (en_input s);
}.

Section Rounds.
Context (addr : nat -> Z) (h : list HCFChoice) (table : HLRTable) (uninit : Z).
Hypothesis Hone : lr_one_byte table.

(** The chunk of [s] is used up: the engine asks for input. *)
Definition used_up (s : HLREngine) : Prop :=
  rest (en_input s) = [] /\ is_last_chunk (en_input s) = false.

(** An action that can follow on the input of [s]. *)
Definition may_follow (s : HLREngine) (l : lr_lookup) : Prop :=
  l <> LL_need_input /\
  forall next, l = LL_action (HLR_SHIFT next) -> rest (en_input s) <> [] \/ is_last_chunk (en_input s) = true.

Lemma lookup_alike b w s :
  ahead_engine b w s ->
  match h_lrengine_action table s with
  | Ok LL_need_input => used_up s
  | Ok l => may_follow s l /\ h_lrengine_action table w = Ok l
  | Fault f => h_lrengine_action table w = Fault f
  | OutOfFuel => h_lrengine_action table w = OutOfFuel
  end.
Proof.
  intros [Es _ [Hbw Hbs Hp Hr Hlw Hm Ho He]]. unfold h_lrengine_action, terminal_lookup. rewrite Es.
  destruct (row_of table (en_state s)) as [i|f|]; [|done..]. cbn [mbind outcome_bind].
  destruct (lt_forall table !! i) as [[a|]|] eqn:Hf; [| |done]; cbn [deref mbind outcome_bind].
  - destruct (h_lrtable_row_empty table i) as [e|f|]; [|done..]. cbn [mbind outcome_bind].
    destruct (assert_ok e) as [[]|f|]; [|done..]. cbn [mbind outcome_bind]. unfold action_at.
    pose proof (lob_forall _ Hone _ _ Hf) as Hsh.
    destruct (lt_actions table !! a) as [act|]; [|done]. simpl. split; [|done].
    split; [done|]. intros next [= ->]. done.
  - destruct (lt_tmap table !! i) as [m|] eqn:Ht; [|done]. cbn [deref mbind outcome_bind].
    pose proof (lob_tmap _ Hone _ _ Ht) as Hm1.
    rewrite !map_lookup_one_byte by first [done|by intros E; apply He|intros E; rewrite Ho in E;
      destruct (He E) as [E1 E2]; by rewrite Hr, E1, (Hm E2)]. cbn [mbind outcome_bind].
    destruct (decide (rest (en_input s) = [] /\ is_last_chunk (en_input s) = false)) as [[E1 E2]|Hn].
    { by rewrite E1, E2. }
    assert (map_entry m (rest (en_input w)) (is_last_chunk (en_input w)) =
            map_entry m (rest (en_input s)) (is_last_chunk (en_input s))) as ->.
    { rewrite Hr, Hlw. destruct (rest (en_input s)) as [|c l]; [|done].
      destruct (is_last_chunk (en_input s)); [by rewrite Hm|]. by destruct Hn. }
    assert (rest (en_input s) <> [] \/ is_last_chunk (en_input s) = true) as Hin.
    { destruct (rest (en_input s)) eqn:Er; [right|by left].
      destruct (is_last_chunk (en_input s)); [done|]. by destruct Hn. }
    destruct (map_entry _ _ _) as [|[| |nt j|a]|] eqn:E; try done.
    + unfold action_at. destruct (lt_actions table !! a); [|done]. simpl. split; [by split|done].
    + exfalso. unfold map_entry in E. destruct (rest (en_input s)) as [|c l].
      * destruct (is_last_chunk (en_input s)); [by destruct (sm_end_branch m)|by destruct Hn].
      * destruct (h_stringmap_get_char m c) as [n|]; [|done]. by destruct (sm_epsilon_branch n).
Qed.

(** A step keeps the chunk, and does the same on both. *)
Definition step_alike_at (b : list Z) (s : HLREngine) (ow os : outcome (HLREngine * bool)) : Prop :=
  match os with
  | Ok (s', run) => same_chunk (en_input s) (en_input s') /\
      exists w', ow = Ok (w', run) /\ ahead_engine b w' s'
  | Fault f => ow = Fault f
  | OutOfFuel => ow = OutOfFuel
  end.

Lemma ahead_state b w s state stk :
  ahead_engine b w s ->
  ahead_engine b (mkEngine state stk (en_input w)) (mkEngine state stk (en_input s)).
Proof. by intros [_ _ Ha]. Qed.

Lemma lookup_state_alike b w s lhs :
  ahead_engine b w s -> nonterminal_lookup addr h table w lhs = nonterminal_lookup addr h table s lhs.
Proof. intros [Es _ _]. unfold nonterminal_lookup. by rewrite Es. Qed.

Lemma value_alike b w s values :
  ahead_engine b w s -> reduction_value w values = reduction_value s values.
Proof.
  intros [_ _ Ha]. unfold reduction_value.
  by rewrite (ah_pos _ _ _ Ha), (ba_offset _ (ah_whole _ _ _ Ha)), (ba_offset _ (ah_part _ _ _ Ha)).
Qed.

Lemma lr_reduce_alike b w s lhs len :
  ahead_engine b w s ->
  step_alike_at b s (lr_reduce addr h table uninit w lhs len) (lr_reduce addr h table uninit s lhs len).
Proof.
  intros Ha. unfold lr_reduce. rewrite (ae_state _ _ _ Ha), (ae_stack _ _ _ Ha).
  destruct (pull_values _ _ _ _) as [[[state values] stk]|f|]; [|done..]. cbn [mbind outcome_bind].
  pose proof (ahead_state b w s state stk Ha) as Ha'.
  rewrite (value_alike _ _ _ values Ha'), (lookup_state_alike _ _ _ lhs Ha').
  destruct (choice_at h lhs) as [sym|f|]; [|done..]. cbn [mbind outcome_bind].
  destruct (lr_process uninit sym _) as [[value|]|f|]; [|by split; [done|eexists; split]|done..].
  cbn [mbind outcome_bind].
  destruct (nonterminal_lookup _ _ _ _ _) as [[[next|a c r|br]|]|f|]; cbn [mbind outcome_bind]; try done.
  - destruct next as [n|].
    + split; [done|]. eexists. split; [done|]. by apply ahead_state.
    + destruct (assert_ok _) as [[]|f|]; cbn [mbind outcome_bind]; try done.
      split; [done|]. eexists. split; [done|]. by apply ahead_state.
  - by split; [done|eexists; split].
Qed.

Lemma shift_alike b w s next :
  ahead_engine b w s -> rest (en_input s) <> [] \/ is_last_chunk (en_input s) = true ->
  step_alike_at b s (h_lrengine_step addr h table uninit w (Some (HLR_SHIFT next)))
    (h_lrengine_step addr h table uninit s (Some (HLR_SHIFT next))).
Proof.
  intros [Es Ek Ha] Hin. pose proof Ha as [Hbw Hbs Hp Hr Hlw Hm Ho He].
  unfold h_lrengine_step, consume_input, push_symbol. rewrite !read_byte by done. rewrite Es, Ek, Hr.
  destruct (rest (en_input s)) as [|c l] eqn:Erest.
  - destruct Hin as [|Hlast]; [done|]. destruct (ahead_overrun _ _ _ Ha Erest Hlast) as [Ew Ha'].
    specialize (Hm Hlast). subst b. simpl. split; [done|]. eexists. split; [done|]. by split.
  - pose proof (ahead_next _ _ _ _ _ Ha Erest) as Ha'. simpl.
    assert (is_overrun (en_input s) = false) as Hov.
    { destruct (is_overrun (en_input s)); [|done]. by destruct (He eq_refl). }
    rewrite Ho, Hov, (ba_offset _ Hbw), (ba_offset _ Hbs).
    replace (is_pos (en_input w) + (is_index (en_input w) + 1)) with
      (is_pos (en_input s) + (is_index (en_input s) + 1)) by lia.
    split; [done|]. eexists. split; [done|]. by split.
Qed.

Lemma lr_step_alike b w s l :
  ahead_engine b w s -> may_follow s l ->
  step_alike_at b s
    (lr_round addr h table uninit w l) (lr_round addr h table uninit s l).
Proof.
  intros Ha [Hne Hsh]. destruct l as [|[next|lhs len rhs|br]|]; try done.
  - split; [done|]. by eexists.
  - by apply shift_alike, (Hsh next).
  - by apply lr_reduce_alike.
Qed.

(** * The loop *)

(** The chunk of [s] is used up and [w] goes on from [w0]. *)
Lemma chunk_loop_alike fuel b w s :
  ahead_engine b w s ->
  match lr_chunk_loop addr h table uninit fuel s with
  | Ok (s', true) => used_up s' /\ same_chunk (en_input s) (en_input s') /\
      exists w0 rounds, ahead_engine b w0 s' /\ (rounds < fuel)%nat /\
        lr_chunk_loop addr h table uninit fuel w = lr_chunk_loop addr h table uninit (fuel - rounds) w0
  | Ok (s', false) => same_chunk (en_input s) (en_input s') /\
      exists w', lr_chunk_loop addr h table uninit fuel w = Ok (w', false) /\ ahead_engine b w' s'
  | Fault f => lr_chunk_loop addr h table uninit fuel w = Fault f
  | OutOfFuel => lr_chunk_loop addr h table uninit fuel w = OutOfFuel
  end.
Proof.
  revert w s. induction fuel as [|fuel IH]; intros w s Ha; [done|]. cbn [lr_chunk_loop].
  pose proof (lookup_alike b w s Ha) as Hl.
  destruct (h_lrengine_action table s) as [l|f|]; [|by rewrite Hl..]. cbn [mbind outcome_bind].
  assert (l = LL_need_input \/ l <> LL_need_input) as [->|Hne] by (destruct l; auto).
  - pose proof Hl as [Hr Hlast]. pose proof (rest_length _ (ah_part _ _ _ (ae_input _ _ _ Ha))) as Hlen.
    rewrite Hr in Hlen. simpl in Hlen. rewrite <- Hlen. cbn [Z.eqb assert_ok mbind outcome_bind].
    split; [done|]. split; [done|]. exists w, 0%nat. split; [done|]. split; [lia|]. by rewrite Nat.sub_0_r.
  - assert (may_follow s l /\ h_lrengine_action table w = Ok l) as [Hf ->] by by destruct l.
    cbn [mbind outcome_bind]. pose proof (lr_step_alike b w s l Ha Hf) as Hs.
    assert (forall (A B : outcome (HLREngine * bool)), match l with LL_need_input => A | _ => B end = B)
      as Hcode by (intros; by destruct l).
    rewrite !Hcode. clear Hcode.
    destruct (lr_round addr h table uninit s l) as [[s1 run]|f|];
      [|by rewrite Hs..]. destruct Hs as (Hsame & w1 & -> & Ha1). cbn [mbind outcome_bind].
    assert (forall e, ahead b (en_input w1) (en_input s1) -> e = w1 \/ e = s1 ->
      is_overrun (en_input e) && negb (is_last_chunk (en_input e)) = false) as Hgo.
    { intros e [_ _ _ _ Hlw _ Ho He] [->|Ee]; [by rewrite Hlw, andb_false_r|subst e].
      destruct (is_overrun (en_input s1)); [|done]. by destruct (He eq_refl) as [_ ->]. }
    rewrite !Hgo by (auto; apply Ha1). destruct run.
    + specialize (IH _ _ Ha1). destruct (lr_chunk_loop addr h table uninit fuel s1) as [[s' []]|f|]; try done.
      * destruct IH as (? & ? & w0 & rounds & ? & ? & ->). split; [done|]. split; [by etrans|].
        exists w0, (S rounds). split; [done|]. split; [lia|done].
      * destruct IH as (? & ?). split; [by etrans|done].
    + split; [done|]. by exists w1.
Qed.

Lemma chunk_loop_more fuel more e :
  (fuel <= more)%nat -> lr_chunk_loop addr h table uninit fuel e <> OutOfFuel ->
  lr_chunk_loop addr h table uninit more e = lr_chunk_loop addr h table uninit fuel e.
Proof.
  revert more e. induction fuel as [|fuel IH]; intros more e Hle; [done|].
  destruct more as [|more]; [lia|]. cbn [lr_chunk_loop].
  destruct (h_lrengine_action table e) as [l|f|]; [|done..]. cbn [mbind outcome_bind].
  destruct l; [..|done].
  all: destruct (lr_round addr h table uninit e _) as [[e' run]|f|]; [|done..].
  all: cbn [mbind outcome_bind]; destruct (_ && _); [done|]; destruct run; [|done].
  all: apply IH; lia.
Qed.

(** * The contract *)

Definition engine_at (s : HLREngine) (stream : HInputStream) : HLREngine :=
  mkEngine (en_state s) (en_stack s) stream.

(** What the end of the loop means on the last chunk. *)
Definition chunk_result (pos : Z) (r : outcome (HLREngine * bool)) : outcome (option HParseResult) :=
  '(e, run) ← r;
  if run : bool then Fault AssertFail else conclude h_lr_parse_finish pos e (en_input e).

Lemma last_chunk_ends fuel e pos input e' run :
  input_ok pos input ->
  lr_chunk_loop addr h table uninit fuel (engine_at e (input_stream pos DEFAULT_ENDIANNESS input true))
    = Ok (e', run) ->
  run = false /\ is_pos (en_input e') = pos /\ byte_aligned (en_input e') /\
  is_length (en_input e') = Z.of_nat (length input).
Proof.
  intros Hi E.
  assert (ahead_engine [] (engine_at e (input_stream pos DEFAULT_ENDIANNESS input true))
            (engine_at e (input_stream pos DEFAULT_ENDIANNESS input true))) as Ha
    by (split; [done..|by apply ahead_last_input]).
  pose proof (chunk_loop_alike fuel [] _ _ Ha) as H. rewrite E in H. destruct run.
  - destruct H as ((_ & Hl) & (_ & _ & _ & Hl') & _). simpl in Hl'. congruence.
  - destruct H as ((Hp & Hlen & _ & _) & w' & _ & [_ _ [_ Hb _ _ _ _ _ _]]). done.
Qed.

Lemma finished_chunk_loop fuel e pos input :
  input_ok pos input ->
  finished (h_lr_parse_chunk addr h table uninit) h_lr_parse_finish fuel e pos input =
  chunk_result pos (lr_chunk_loop addr h table uninit fuel
                      (engine_at e (input_stream pos DEFAULT_ENDIANNESS input true))).
Proof.
  intros Hi. unfold finished, h_lr_parse_chunk. fold (engine_at e (input_stream pos DEFAULT_ENDIANNESS input true)).
  destruct (lr_chunk_loop _ _ _ _ _ _) as [[e' run]|f|]; [|done..]. by destruct run.
Qed.

(** Engines at the same place come to the same result. *)
Lemma chunk_result_alike pos pos' b w s :
  ahead_engine b w s -> is_pos (en_input w) = pos -> is_pos (en_input s) = pos' ->
  chunk_result pos (Ok (w, false)) = chunk_result pos' (Ok (s, false)).
Proof.
  intros [Es Ek Ha] Hw Hs. unfold chunk_result, conclude, h_lr_parse_finish, h_lrengine_result. simpl.
  rewrite Es, Ek. pose proof (ah_pos _ _ _ Ha) as Hp. rewrite Hp.
  replace (pos + is_index (en_input w)) with (pos' + is_index (en_input s)) by lia.
  by rewrite (ba_offset _ (ah_whole _ _ _ Ha)), (ba_offset _ (ah_part _ _ _ Ha)).
Qed.

Lemma lr_chunk_split fuel s pos a b :
  input_ok pos (a ++ b) ->
  let chunk := h_lr_parse_chunk addr h table uninit in
  let whole := finished chunk h_lr_parse_finish fuel s pos (a ++ b) in
  whole <> OutOfFuel ->
  match chunk fuel s (input_stream pos DEFAULT_ENDIANNESS a false) with
  | Ok (done, s', stream) =>
      is_endianness stream = DEFAULT_ENDIANNESS /\ 0 <= is_index stream <= Z.of_nat (length a) /\
      if (done : bool) then whole = conclude h_lr_parse_finish pos s' stream
      else
        is_index stream = Z.of_nat (length a) /\ is_bit_offset stream = 0 /\ True /\
        whole = finished chunk h_lr_parse_finish fuel s' (pos + Z.of_nat (length a)) b
  | Fault f => whole = Fault f
  | OutOfFuel => False
  end.
Proof.
  intros Hi chunk whole. unfold whole, chunk. clear whole chunk.
  rewrite finished_chunk_loop by done. unfold h_lr_parse_chunk.
  fold (engine_at s (input_stream pos DEFAULT_ENDIANNESS a false)).
  destruct (input_ok_app _ _ _ Hi) as [Hia Hib].
  pose proof (fun e' run => last_chunk_ends fuel s pos (a ++ b) e' run Hi) as Hlast.
  set (w := engine_at s (input_stream _ _ (a ++ b) _)) in *.
  set (p := engine_at s (input_stream _ _ a _)).
  assert (ahead_engine b w p) as Ha by (split; [done..|by apply ahead_input]).
  intros Hfuel. pose proof (chunk_loop_alike fuel b w p Ha) as Hr.
  destruct (lr_chunk_loop addr h table uninit fuel p) as [[s' run]|f|]; cbn [mbind outcome_bind];
    [|by rewrite Hr|by rewrite Hr in Hfuel].
  destruct run; cbn [negb].
  - destruct Hr as ((Hrest & Hl) & Hsame & w0 & rounds & Ha0 & Hlt & Ew).
    destruct (ahead_next_input _ _ _ pos a (ae_input _ _ _ Ha0) Hrest Hl Hsame Hib) as [Hidx Ha2].
    split; [by destruct Hsame as (_ & _ & -> & _)|]. split; [lia|]. split; [done|].
    split; [apply (ah_part _ _ _ (ae_input _ _ _ Ha0))|]. split; [done|].
    rewrite finished_chunk_loop by done. rewrite Ew in Hfuel, Hlast |- *.
    set (d := engine_at s' _).
    assert (ahead_engine [] w0 d) as Had by (split; [apply Ha0..|done]).
    pose proof (chunk_loop_alike (fuel - rounds) [] w0 d Had) as Hd.
    destruct (lr_chunk_loop addr h table uninit (fuel - rounds) d) as [[d' run]|f|] eqn:Ed.
    + rewrite (chunk_loop_more (fuel - rounds) fuel), Ed by (lia || by rewrite Ed).
      destruct (last_chunk_ends _ _ _ _ _ _ Hib Ed) as (-> & Hpd & _).
      destruct Hd as (_ & w' & Ew' & Ha'). rewrite Ew'. apply (chunk_result_alike _ _ [] _ _ Ha'); [|done].
      by apply (Hlast w' false).
    + by rewrite (chunk_loop_more (fuel - rounds) fuel), Ed, Hd by (lia || by rewrite Ed).
    + by rewrite Hd in Hfuel.
  - destruct Hr as (Hsame & w' & Ew & Ha'). pose proof Hsame as (Hps & Hlen & Hen & _).
    pose proof (ah_part _ _ _ (ae_input _ _ _ Ha')) as Hb. simpl in Hlen.
    split; [done|]. split; [rewrite <- Hlen; apply Hb|]. rewrite Ew.
    rewrite (chunk_result_alike pos pos b w' s' Ha'); [done| |done]. by apply (Hlast w' false).
Qed.

Lemma lr_empty_chunk fuel s pos done s' stream :
  0 <= pos < 2 ^ 27 ->
  h_lr_parse_chunk addr h table uninit fuel s (input_stream pos DEFAULT_ENDIANNESS [] true)
    = Ok (done, s', stream) ->
  is_index stream = 0 /\ is_bit_offset stream = 0.
Proof.
  intros Hpos. assert (input_ok pos []) as Hi by (split; [done|simpl; lia]).
  unfold h_lr_parse_chunk. fold (engine_at s (input_stream pos DEFAULT_ENDIANNESS [] true)).
  destruct (lr_chunk_loop _ _ _ _ _ _) as [[e run]|f|] eqn:E; cbn [mbind outcome_bind]; [|done..].
  destruct (last_chunk_ends _ _ _ _ _ _ Hi E) as (_ & _ & [Hb _ Hix _ _ _] & Hlen).
  intros [= _ _ <-]. simpl in Hlen. split; [lia|done].
Qed.

Lemma lr_parse_finished fuel input :
  input_ok 0 input ->
  h_lr_parse addr h table uninit fuel (input_stream 0 DEFAULT_ENDIANNESS input true) =
  finished (h_lr_parse_chunk addr h table uninit) h_lr_parse_finish fuel
    (h_lrengine_new (input_stream 0 0 [] false)) 0 input.
Proof.
  intros Hi. rewrite finished_chunk_loop by done. unfold h_lr_parse.
  set (e := engine_at _ _). change (h_lrengine_new (input_stream 0 DEFAULT_ENDIANNESS input true)) with e.
  assert (ahead_engine [] e e) as Ha by (split; [done..|by apply ahead_last_input]).
  assert (forall n e, is_last_chunk (en_input e) = true -> ahead_engine [] e e ->
    lr_chunk_loop addr h table uninit n e = (e ← lr_loop addr h table uninit n e; Ok (e, false)))
    as Heq.
  { intros n. induction n as [|n IH]; intros e0 Hl0 Ha0; [done|]. cbn [lr_chunk_loop lr_loop].
    pose proof (lookup_alike [] e0 e0 Ha0) as Hlk.
    destruct (h_lrengine_action table e0) as [l|f|]; [|done..]. cbn [mbind outcome_bind].
    assert (may_follow e0 l) as Hf.
    { destruct l; try apply Hlk. destruct Hlk as [_ Hlk]. congruence. }
    pose proof (lr_step_alike [] e0 e0 l Ha0 Hf) as Hs.
    assert (forall (A B : outcome (HLREngine * bool)), match l with LL_need_input => A | _ => B end = B)
      as -> by (intros; destruct l; try done; by destruct Hf).
    destruct (lr_round addr h table uninit e0 l) as [[e1 run]|f|]; [|done..]. cbn [mbind outcome_bind].
    destruct Hs as (Hsame & w1 & [= <-] & Ha1). destruct Hsame as (_ & _ & _ & Hl1).
    rewrite Hl1, Hl0, andb_false_r. destruct run; [|done]. apply IH; [congruence|done]. }
  rewrite Heq by done. pose proof (last_chunk_ends fuel (h_lrengine_new (input_stream 0 0 [] false)) 0 input) as Hend.
  fold e in Hend. rewrite Heq in Hend by done.
  destruct (lr_loop addr h table uninit fuel e) as [e'|f|]; [|done..]. cbn [mbind outcome_bind] in *.
  destruct (Hend e' false Hi eq_refl) as (_ & Hp & [Hb _ _ _ _ _] & _).
  unfold chunk_result, conclude, h_lr_parse_finish, h_lrengine_result. simpl. rewrite Hp, Hb.
  destruct (en_state e'); [done|]. destruct (head (en_stack e')) as [[s|v]|]; try done. simpl.
  by rewrite Z.add_0_r.
Qed.
End Rounds.

(** The LR driver keeps the contract with such tables. *)
#[export] Instance lr_incremental addr h table uninit (Hone : lr_one_byte table) :
  Incremental HLREngine (H := lr_backend addr h table uninit).
Proof.
  refine {|
    inc_start := h_lrengine_new (input_stream 0 0 [] false);
    inc_chunk := h_lr_parse_chunk addr h table uninit;
    inc_finish := h_lr_parse_finish;
    inc_between := fun _ => True;
  |}.
  - done.
  - done.
  - intros fuel input. apply (lr_parse_finished addr h table uninit Hone).
  - intros fuel s pos a b _. exact (lr_chunk_split addr h table uninit Hone fuel s pos a b).
  - intros fuel s pos done s' stream _. exact (lr_empty_chunk addr h table uninit Hone fuel s pos done s' stream).
Defined.
