(* ===== verification/LRSound.v ===== *)
(** What an LR table promises (an automaton of items, [lr_automaton], and a table
    that follows it, [lr_table_ok]), and the driver of LRDriver on such a table:
    it accepts only what the start symbol derives, with the token that the callbacks
    make along the derivation, and stops otherwise only in the callback of a symbol
    that it reduces. *)

From S2P Require Import Prelude Stream ByteStream Charset CArray Token Parser HashTable Desugar.
From S2P Require Import Grammar FirstFacts Consumed ParseTokens StringMap CfGrammar LR HashKeys LRDriver.

(** * Symbols as the tables compare them *)

Definition sym_eq (h : list HCFChoice) (x y : nat) : Prop :=
  x = y \/ exists cx cy, h !! x = Some cx /\ h !! y = Some cy /\ cf_type cx = cf_type cy /\
    match cf_type cx with HCF_END | HCF_CHAR _ => True | _ => False end.

Lemma sym_eq_refl h x : sym_eq h x x.
Proof. by left. Qed.

Lemma sym_eq_sym h x y : sym_eq h x y -> sym_eq h y x.
Proof.
  intros [->|(cx & cy & Hx & Hy & Ht & Hc)]; [by left|right].
  exists cy, cx. split_and!; [done..|by rewrite Ht in Hc].
Qed.

Lemma sym_eq_trans h x y z : sym_eq h x y -> sym_eq h y z -> sym_eq h x z.
Proof.
  intros [->|(cx & cy & Hx & Hy & Ht & Hc)] [->|(cy' & cz & Hy' & Hz & Ht' & Hc')];
    [by left|right; by eauto 10..|].
  right. exists cx, cz. simplify_eq. split_and!; [done..|congruence|done].
Qed.

#[export] Instance sym_eq_equiv h : Equivalence (sym_eq h).
Proof. split; [exact (sym_eq_refl h)|exact (sym_eq_sym h)|exact (sym_eq_trans h)]. Qed.

Lemma h_eq_symbol_true h x y : h_eq_symbol h x y = Ok true -> sym_eq h x y.
Proof.
  unfold h_eq_symbol. destruct (Nat.eqb_spec x y) as [->|]; [by left|]. intros H. ok_inv.
  apply deref_ok in H0, H1. right. exists x0, x1.
  destruct (cf_type x0), (cf_type x1); simplify_eq; try done.
  apply Z.eqb_eq in H as ->. done.
Qed.

(** [built x w n]: a parser that shifts terminals and reduces productions makes
    [x] of [w] in [n] rounds. A charset is reduced from a character. *)
Inductive built (h : list HCFChoice) : nat -> list symbol -> nat -> Prop :=
| built_char x ch c : h !! x = Some ch -> cf_type ch = HCF_CHAR c -> built h x [Sym c] 1
| built_end x ch : h !! x = Some ch -> cf_type ch = HCF_END -> built h x [Sym_end] 1
| built_charset x ch cs c :
    h !! x = Some ch -> cf_type ch = HCF_CHARSET cs -> 0 <= c < 256 ->
    charset_isset cs c = Ok true -> built h x [Sym c] 2
| built_choice x ch seqs items w n :
    h !! x = Some ch -> cf_type ch = HCF_CHOICE seqs -> items ∈ seqs ->
    built_seq h items w n -> built h x w (S n)
with built_seq (h : list HCFChoice) : list nat -> list symbol -> nat -> Prop :=
| built_nil : built_seq h [] [] 0
| built_cons x items w1 w2 n1 n2 :
    built h x w1 n1 -> built_seq h items w2 n2 -> built_seq h (x :: items) (w1 ++ w2) (n1 + n2).

Scheme built_mut := Minimality for built Sort Prop
  with built_seq_mut := Minimality for built_seq Sort Prop.

Lemma built_derives h x w n : built h x w n -> derives h x w.
Proof.
  apply (built_mut h (fun x w _ => derives h x w) (fun l w _ => derives_seq h l w)); intros.
  - by eapply derives_char.
  - by eapply derives_end.
  - by eapply derives_charset.
  - by eapply derives_choice.
  - constructor.
  - by constructor.
Qed.

Lemma built_inv h x w n ch :
  built h x w n -> h !! x = Some ch ->
  match cf_type ch with
  | HCF_CHAR c => w = [Sym c] /\ n = 1%nat
  | HCF_END => w = [Sym_end] /\ n = 1%nat
  | HCF_CHARSET cs => exists c, w = [Sym c] /\ 0 <= c < 256 /\ charset_isset cs c = Ok true /\ n = 2%nat
  | HCF_CHOICE seqs => exists items m, items ∈ seqs /\ built_seq h items w m /\ n = S m
  | _ => False
  end.
Proof. intros Hd Hc. destruct Hd; simplify_eq; rewrite ?H0; eauto 10. Qed.

Lemma built_seq_inv h x items w n :
  built_seq h (x :: items) w n ->
  exists w1 w2 n1 n2, w = w1 ++ w2 /\ n = (n1 + n2)%nat /\ built h x w1 n1 /\ built_seq h items w2 n2.
Proof. inversion 1; eauto 10. Qed.

Lemma built_nil_inv h w n : built_seq h [] w n -> w = [] /\ n = 0%nat.
Proof. by inversion 1. Qed.

Lemma built_seq_zero h l w : built_seq h l w 0 -> w = [].
Proof.
  intros Hs. remember 0%nat as n eqn:En. destruct Hs as [|x items w1 w2 n1 n2 H1 _]; [done|].
  destruct H1; lia.
Qed.

Lemma built_sym_eq h x y w n : sym_eq h x y -> built h x w n -> built h y w n.
Proof.
  intros [->|(cx & cy & Hx & Hy & Ht & Hc)] Hd; [done|].
  pose proof (built_inv _ _ _ _ _ Hd Hx) as Hw. rewrite Ht in Hw, Hc.
  destruct (cf_type cy) eqn:Hty; try done; destruct Hw as [-> ->]; by econstructor.
Qed.

Lemma built_seq_eq h l1 l2 w n :
  Forall2 (sym_eq h) l1 l2 -> built_seq h l1 w n -> built_seq h l2 w n.
Proof.
  intros Hl. revert w n. induction Hl as [|x y l1 l2 Hxy _ IH]; intros w n Hw; [done|].
  apply built_seq_inv in Hw as (w1 & w2 & n1 & n2 & -> & -> & H1 & H2).
  constructor; [by eapply built_sym_eq|auto].
Qed.

Lemma built_seq_snoc h l x w u n m :
  built_seq h l w n -> built h x u m -> built_seq h (l ++ [x]) (w ++ u) (n + m).
Proof.
  intros Hw Hx. induction Hw as [|c items w1 w2 n1 n2 H1 _ IH].
  - pose proof (built_cons h x [] u [] m 0 Hx (built_nil h)) as H.
    by rewrite app_nil_r, Nat.add_0_r in H.
  - simpl. rewrite <- app_assoc, <- Nat.add_assoc. by constructor.
Qed.

(** * Productions *)

(** A production of a choice, or the character of a charset. *)
Definition production (h : list HCFChoice) (A : nat) (rhs : list nat) : Prop :=
  exists ch, h !! A = Some ch /\
    ((exists seqs, cf_type ch = HCF_CHOICE seqs /\ rhs ∈ seqs) \/
     (exists cs r cr c, cf_type ch = HCF_CHARSET cs /\ rhs = [r] /\ h !! r = Some cr /\
        cf_type cr = HCF_CHAR c /\ 0 <= c < 256 /\ charset_isset cs c = Ok true)).

Lemma production_built h A rhs w n : production h A rhs -> built_seq h rhs w n -> built h A w (S n).
Proof.
  intros (ch & HA & [(seqs & Ht & Hr)|(cs & r & cr & c & Ht & -> & Hr & Hc & Hb & Hi)]) Hw.
  - by eapply built_choice.
  - apply built_seq_inv in Hw as (w1 & w2 & n1 & n2 & -> & -> & H1 & [-> ->]%built_nil_inv).
    pose proof (built_inv _ _ _ _ _ H1 Hr) as Hw. rewrite Hc in Hw. destruct Hw as [-> ->].
    by eapply built_charset.
Qed.

(** A left-hand side is compared by its address. *)
Lemma production_sym_eq h A rhs B : production h A rhs -> sym_eq h A B -> A = B.
Proof.
  intros (ch & HA & Hp) [->|(cx & cy & Hx & Hy & Ht & Hc)]; [done|]. simplify_eq.
  by destruct Hp as [(seqs & Hs & _)|(cs & r & cr & c & Hs & _)]; rewrite Hs in Hc.
Qed.

(** * Tokens *)

Section Tokens.
Context (h : list HCFChoice) (uninit : Z).

Lemma lr_process_eq ch t : lr_process uninit ch t = process uninit ch (Some t).
Proof.
  unfold lr_process, process, reshaped, validated, acted, data_of. destruct (cf_reshape ch); [|done].
  by destruct (reshape_action _ _ _) as [[]| |].
Qed.

(** What the engine shifts. *)
Lemma made_terminal x ch v w :
  h !! x = Some ch -> shifted true ch = true -> made h uninit true x v w ->
  match cf_type ch with HCF_CHAR c => char_token c v /\ w = [Sym c] | _ => v = None /\ w = [Sym_end] end.
Proof.
  intros Hx Hs Hm. destruct Hm as [x ch' t w Hx' _ Hr|x ch' t v w Hx' Hs' _ _]; simplify_eq; [|congruence].
  unfold shifted in Hs. destruct Hr; simplify_eq;
    match goal with H : cf_type _ = _ |- _ => rewrite H in *; try done end.
Qed.

Lemma made_sym_eq x y v w : sym_eq h x y -> made h uninit true x v w -> made h uninit true y v w.
Proof.
  intros [->|(cx & cy & Hx & Hy & Ht & Hc)] Hm; [done|].
  assert (shifted true cx = true) as Hs by (unfold shifted; by destruct (cf_type cx)).
  assert (shifted true cy = true) as Hs' by (unfold shifted in *; by rewrite <- Ht).
  pose proof (made_terminal _ _ _ _ Hx Hs Hm) as Hv. rewrite Ht in Hv, Hc.
  eapply made_shifted; [done..|]. destruct (cf_type cy) eqn:Hty; try done; destruct Hv as [Hv ->].
  - subst v. by eapply raw_end.
  - by eapply raw_char.
Qed.

Lemma made_seq_eq l1 l2 vs w :
  Forall2 (sym_eq h) l1 l2 -> made_seq h uninit true l1 vs w -> made_seq h uninit true l2 vs w.
Proof.
  intros Hl Hm. revert l2 Hl. induction Hm as [|x items v vs w1 w2 Hv _ IH]; intros l2 Hl.
  - apply Forall2_nil_inv_l in Hl as ->. constructor.
  - apply Forall2_cons_inv_l in Hl as (y & l & Hxy & Hl & ->). constructor; [by eapply made_sym_eq|auto].
Qed.

(** The token of a reduction, before it is processed. *)
Lemma production_raw A rhs vs t w :
  production h A rhs -> made_seq h uninit true rhs vs w -> sequence_token vs t -> raw h uninit true A t w.
Proof.
  intros (ch & HA & [(seqs & Ht & Hr)|(cs & r & cr & c & Ht & -> & Hr & Hc & Hb & Hi)]) Hm Hs.
  - by eapply raw_choice.
  - inversion Hm as [|? ? v ? w1 ? Hv Hnil]; subst. inversion Hnil; subst. rewrite app_nil_r.
    assert (shifted true cr = true) as Hsh by (unfold shifted; by rewrite Hc).
    pose proof (made_terminal _ _ _ _ Hr Hsh Hv) as Hw. rewrite Hc in Hw. destruct Hw as [Hw ->].
    by eapply raw_charset.
Qed.

Lemma reduction_value_sequence e values : sequence_token values (Some (reduction_value e values)).
Proof.
  assert (forall seq, seq = mkCArray (ca_capacity (@h_carray_new_sized HParsedToken (length values))) (length values)
      (values ++ drop (length values) (ca_elements (h_carray_new_sized (length values)))) ->
    carray_wf seq /\ ca_contents seq = values) as Hseq.
  { intros seq ->. pose proof (@carray_new_sized_wf HParsedToken (length values)) as [Hl Hc _].
    assert (length values <= ca_capacity (@h_carray_new_sized HParsedToken (length values)))%nat as Hle.
    { unfold h_carray_new_sized. destruct (Nat.eqb_spec (length values) 0); simpl; lia. }
    split; [|unfold ca_contents; simpl; by rewrite take_app_length].
    split; cbn [ca_elements ca_capacity ca_used]; [rewrite length_app, length_drop, Hl; lia|done|done]. }
  unfold reduction_value. destruct (head values) as [[v|]|]; do 3 eexists; (split; [reflexivity|by apply Hseq]).
Qed.

End Tokens.

(** * Automata *)

(** [edge s X t]: from state [s] with the symbol [X] to [t]; the end state is
    [None]. [items s] are the items of state [s]. *)
Record lr_automaton (h : list HCFChoice) (start : nat) (edge : nat -> nat -> option nat -> Prop)
    (items : nat -> HLRItem -> Prop) : Prop := {
  la_zero : forall it, items 0%nat it -> it_mark it = 0%nat;
  la_item : forall s it, items s it -> it_len it = length (it_rhs it) /\
    (it_mark it <= it_len it)%nat /\ production h (it_lhs it) (it_rhs it);
  la_step : forall s X t it m, edge s X (Some t) -> items t it -> it_mark it = S m ->
    exists it0 Y, items s it0 /\ it_mark it0 = m /\ it_lhs it0 = it_lhs it /\
      Forall2 (sym_eq h) (it_rhs it0) (it_rhs it) /\ it_rhs it !! m = Some Y /\ sym_eq h Y X;
  la_leave : forall s it, items s it -> it_mark it = 0%nat -> exists X t, edge s X t;
  la_end : forall s X, edge s X None -> s = 0%nat /\ X = start;
  la_target : forall s X t, edge s X (Some t) -> t <> 0%nat;
  la_symbol : forall s X t, edge s X t -> (X < length h)%nat;
}.

(** What the table says of a state and a terminal. *)
Definition action_ok (h : list HCFChoice) (edge : nat -> nat -> option nat -> Prop)
    (items : nat -> HLRItem -> Prop) (s : nat) (y : symbol) (a : option HLRAction) : Prop :=
  match a with
  | Some (HLR_SHIFT (Some t)) => exists X, built h X [y] 1 /\ edge s X (Some t)
  | Some (HLR_REDUCE lhs len rhs) => items s (mkItem lhs rhs len len)
  | _ => False
  end.

Record lr_table_ok (h : list HCFChoice) (start : nat) (edge : nat -> nat -> option nat -> Prop)
    (items : nat -> HLRItem -> Prop) (table : HLRTable) : Prop := {
  tk_nrows : (0 < lt_nrows table)%nat;
  tk_ntmap : length (lt_ntmap table) = lt_nrows table;
  tk_tmap : length (lt_tmap table) = lt_nrows table;
  tk_forall : length (lt_forall table) = lt_nrows table;
  tk_start : lt_start table = Some start;
  tk_edge : forall s X t, edge s X (Some t) -> (t < lt_nrows table)%nat;
  tk_terminal : forall s m w v, lt_tmap table !! s = Some m -> sm_lookup w m = Some v ->
    exists y a, w = [y] /\ v = V_action a /\ action_ok h edge items s y (lt_actions table !! a);
  tk_row : forall s a, lt_forall table !! s = Some (Some a) ->
    (exists lhs len rhs, lt_actions table !! a = Some (HLR_REDUCE lhs len rhs) /\
       items s (mkItem lhs rhs len len)) /\
    h_lrtable_row_empty table s = Ok true /\ forall X t, ~ edge s X t;
  tk_nonterminal : forall s nts, lt_ntmap table !! s = Some nts -> shaped nts /\
    forall k v, (k, v) ∈ table_entries nts ->
    exists a t, v = Some a /\ lt_actions table !! a = Some (HLR_SHIFT t) /\ edge s k t;
}.

Section Driver.
Context (addr : nat -> Z) (h : list HCFChoice) (start : nat).
Context (edge : nat -> nat -> option nat -> Prop) (items : nat -> HLRItem -> Prop).
Hypothesis Hauto : lr_automaton h start edge items.
Context (uninit : Z).

(** ** The path of a stack *)

(** The stack is a path of the automaton from state 0, its symbols were built
    from [w] in [n] rounds, and its values are their tokens. *)
Inductive lr_path : option nat -> list lr_elem -> list symbol -> nat -> Prop :=
| lp_nil : lr_path (Some 0%nat) [] [] 0
| lp_push s X t v stack w u n m :
    lr_path (Some s) stack w n -> edge s X t -> built h X u m -> made h uninit true X v u ->
    lr_path t (LE_value v :: LE_state (Some s) :: stack) (w ++ u) (n + m).

(** The items of the top state can be followed down the stack. *)
Lemma pull_values_ok m : forall s stack w n it values,
  lr_path (Some s) stack w n -> items s it -> it_mark it = m ->
  exists s' vs stack' w1 w2 n1 n2 it0,
    pull_values m (Some s) values stack = Ok (Some s', vs ++ values, stack') /\
    w = w1 ++ w2 /\ n = (n1 + n2)%nat /\ lr_path (Some s') stack' w1 n1 /\
    built_seq h (take m (it_rhs it)) w2 n2 /\ made_seq h uninit true (take m (it_rhs it)) vs w2 /\
    items s' it0 /\ it_mark it0 = 0%nat.
Proof.
  induction m as [|m IH]; intros s stack w n it values Hp Hit Hm.
  - exists s, [], stack, w, [], n, 0%nat, it. rewrite app_nil_r, Nat.add_0_r.
    split_and!; try done; constructor.
  - inversion Hp as [|s0 X t v stack0 w0 u n0 k Hp0 He Hu Hv]; subst.
    { rewrite (la_zero _ _ _ _ Hauto _ Hit) in Hm. done. }
    destruct (la_step _ _ _ _ Hauto _ _ _ _ _ He Hit Hm) as (it0 & Y & Hit0 & Hm0 & _ & Hr & HY & HXY).
    destruct (IH _ _ _ _ _ (v :: values) Hp0 Hit0 Hm0)
      as (s' & vs & stack' & w1 & w2 & n1 & n2 & it1 & E & -> & -> & Hp1 & Hd & Hvs & Hit1 & Hm1).
    exists s', (vs ++ [v]), stack', w1, (w2 ++ u), n1, (n2 + k)%nat, it1. simpl.
    rewrite <- app_assoc. split_and!; try done.
    + by rewrite app_assoc.
    + by rewrite Nat.add_assoc.
    + rewrite (take_S_r _ _ _ HY). apply built_seq_snoc.
      * eapply built_seq_eq; [|done]. by apply Forall2_take.
      * eapply built_sym_eq; [|done]. by apply sym_eq_sym.
    + rewrite (take_S_r _ _ _ HY). apply made_seq_snoc.
      * eapply made_seq_eq; [|done]. by apply Forall2_take.
      * eapply made_sym_eq; [|done]. by apply sym_eq_sym.
Qed.

Lemma path_zero stack w n : lr_path (Some 0%nat) stack w n -> stack = [] /\ w = [] /\ n = 0%nat.
Proof.
  inversion 1 as [|s X t v stack0 w0 u n0 m Hp He Hu Hv]; subst; [done|].
  by apply (la_target _ _ _ _ Hauto) in He.
Qed.

(** ** One round *)

Context (table : HLRTable) (inp : list Z).
Hypothesis Htable : lr_table_ok h start edge items table.
Hypothesis Hcallbacks : forall x ch tok, h !! x = Some ch -> lr_process uninit ch tok <> OutOfFuel.

(** The symbols that the automaton reduces. *)
Definition is_reduced (x : nat) : Prop := exists s rhs len, items s (mkItem x rhs len len).

(** A callback of a symbol that is reduced stopped the program. *)
Definition stopped : fault -> Prop := callback_fault h uninit true is_reduced inp.

(** The engine before a round: [w] was read in [n] rounds. *)
Record engine_ok (e : HLREngine) (w : list symbol) (n : nat) : Prop := {
  eo_path : lr_path (en_state e) (en_stack e) w n;
  eo_stream : stream_ok inp (en_input e) w;
  eo_pos : is_pos (en_input e) = 0;
}.

Lemma path_row s stack w n : lr_path (Some s) stack w n -> (s < lt_nrows table)%nat.
Proof.
  inversion 1; subst; [by apply (tk_nrows _ _ _ _ _ Htable)|by eapply (tk_edge _ _ _ _ _ Htable)].
Qed.

Lemma row_of_ok s stack w n : lr_path (Some s) stack w n -> row_of table (Some s) = Ok s.
Proof. intros Hp%path_row. unfold row_of. simpl. by rewrite (proj2 (Nat.ltb_lt _ _) Hp). Qed.

(** What the table says of the next byte or the end of the input. *)
Definition next_symbol (e : HLREngine) : symbol :=
  match rest (en_input e) with [] => Sym_end | b :: _ => Sym b end.

Lemma lr_action_ok e w n s :
  engine_ok e w n -> en_state e = Some s ->
  h_lrengine_action table e = Ok LL_none \/
  exists act, h_lrengine_action table e = Ok (LL_action act) /\
    action_ok h edge items s (next_symbol e) (Some act).
Proof.
  intros [Hp Hs _] Es. rewrite Es in Hp. pose proof (path_row _ _ _ _ Hp) as Hlt.
  unfold h_lrengine_action, terminal_lookup. rewrite Es, (row_of_ok _ _ _ _ Hp).
  cbn [mbind outcome_bind].
  destruct (lookup_lt_is_Some_2 (lt_forall table) s) as [fa Hf];
    [by rewrite (tk_forall _ _ _ _ _ Htable)|].
  rewrite Hf. cbn [deref mbind outcome_bind]. destruct fa as [a|].
  - destruct (tk_row _ _ _ _ _ Htable _ _ Hf) as ((lhs & len & rhs & Ha & Hi) & He & _).
    right. rewrite He. unfold action_at. rewrite Ha. simpl. eexists. split; [done|]. exact Hi.
  - destruct (lookup_lt_is_Some_2 (lt_tmap table) s) as [m Hm];
      [by rewrite (tk_tmap _ _ _ _ _ Htable)|].
    rewrite Hm. cbn [deref mbind outcome_bind].
    destruct (get_lookahead_spec [] m (en_input e)) as (r & -> & Hr); [apply sm_alive_nil|apply Hs..|].
    cbn [mbind outcome_bind]. destruct r as [|v|]; [by left| |].
    + right. destruct Hr as (u & [Hu Hin] & _).
      destruct (tk_terminal _ _ _ _ _ Htable _ _ _ _ Hm Hu) as (y & a & -> & -> & Ha).
      assert (y = next_symbol e) as ->.
      { unfold next_symbol. destruct Hin as [[[|k] Hk]|[_ Hk]]; destruct (rest (en_input e)) as [|c l];
          simplify_eq/=; done. }
      unfold action_at. destruct (lt_actions table !! a) as [act|]; [|done]. by exists act.
    + destruct Hr as (_ & Hl & _). by rewrite (so_last _ _ _ Hs) in Hl.
Qed.

(** The goto of a left-hand side. *)
Lemma nonterminal_lookup_ok e s stack w n it :
  en_state e = Some s -> lr_path (Some s) stack w n -> items s it -> it_mark it = 0%nat ->
  forall A rhs, production h A rhs ->
  nonterminal_lookup addr h table e A = Ok None \/
  exists t, nonterminal_lookup addr h table e A = Ok (Some (HLR_SHIFT t)) /\ edge s A t.
Proof.
  intros Es Hp Hit Hm A rhs HA. pose proof (path_row _ _ _ _ Hp) as Hlt.
  unfold nonterminal_lookup. rewrite Es, (row_of_ok _ _ _ _ Hp). cbn [mbind outcome_bind].
  destruct (lookup_lt_is_Some_2 (lt_forall table) s) as [fa Hf];
    [by rewrite (tk_forall _ _ _ _ _ Htable)|].
  rewrite Hf. cbn [deref mbind outcome_bind].
  destruct (la_leave _ _ _ _ Hauto _ _ Hit Hm) as (X & t & He).
  assert (fa = None) as ->.
  { destruct fa as [a|]; [|done]. destruct (tk_row _ _ _ _ _ Htable _ _ Hf) as (_ & _ & Hno).
    by destruct (Hno X t). }
  rewrite bool_decide_true by done. cbn [assert_ok mbind outcome_bind].
  destruct (lookup_lt_is_Some_2 (lt_ntmap table) s) as [nts Hn];
    [by rewrite (tk_ntmap _ _ _ _ _ Htable)|].
  rewrite Hn. cbn [deref mbind outcome_bind].
  destruct (tk_nonterminal _ _ _ _ _ Htable _ _ Hn) as [Hs Hk].
  destruct HA as (ch & HAl & HA).
  destruct (get_total (h_hash_symbol addr h) (eq_nonnull (h_eq_symbol h)) nts A) as [r Hr]; [done|..].
  - unfold h_hash_symbol. rewrite HAl. simpl. unfold h_hash_ptr.
    destruct HA as [(? & -> & _)|(? & ? & ? & ? & -> & _)]; apply wrapu_range; lia.
  - intros k v Hkv. destruct (Hk _ _ Hkv) as (_ & t' & _ & _ & Hekt).
    apply (la_symbol _ _ _ _ Hauto) in Hekt. destruct (choice_at_lt _ _ Hekt) as (ck & _ & Ek).
    unfold eq_nonnull, h_eq_symbol. simpl. destruct (A =? k)%nat; [by eexists|].
    rewrite Ek. unfold choice_at. rewrite HAl. by eexists.
  - rewrite Hr. cbn [mbind outcome_bind]. destruct r as [a|]; [right|by left].
    apply get_entry in Hr as (k & Hka & Ek). destruct (Hk _ _ Hka) as (a' & t' & [= <-] & Ha & He').
    unfold action_at. rewrite Ha. exists t'. split; [done|].
    unfold eq_nonnull in Ek. simpl in Ek. apply h_eq_symbol_true in Ek.
    apply (production_sym_eq _ _ rhs) in Ek as ->; [done|]. by exists ch.
Qed.

(** The outcome of round number [n]. *)
Definition round_ok (n : nat) (o : outcome (HLREngine * bool)) : Prop :=
  match o with
  | Ok (e, true) => exists w, engine_ok e w n /\ exists s, en_state e = Some s
  | Ok (e, false) => en_state e = None ->
      exists w v stack, made h uninit true start v w /\ stream_ok inp (en_input e) w /\ is_pos (en_input e) = 0 /\
        en_stack e = LE_value v :: stack
  | Fault f => stopped f
  | OutOfFuel => False
  end.

Lemma lr_reduce_ok e w n s lhs len rhs :
  engine_ok e w n -> en_state e = Some s -> items s (mkItem lhs rhs len len) ->
  round_ok (S n) (lr_reduce addr h table uninit e lhs len).
Proof.
  intros [Hp Hs Hpos] Es Hit. rewrite Es in Hp.
  destruct (la_item _ _ _ _ Hauto _ _ Hit) as (Hlen & _ & HA). simpl in Hlen, HA.
  destruct (pull_values_ok len s (en_stack e) w _ _ [] Hp Hit eq_refl)
    as (s' & values & stack & w1 & w2 & n1 & n2 & it0 & Ep & -> & -> & Hp1 & Hd & Hv & Hit0 & Hm0).
  cbn [it_rhs] in Hd, Hv. rewrite Hlen, take_ge in Hd, Hv by lia. rewrite app_nil_r in Ep.
  unfold lr_reduce. rewrite Es, Ep. cbn [mbind outcome_bind].
  pose proof HA as (ch & HAl & HAp). unfold choice_at. rewrite HAl. cbn [deref mbind outcome_bind].
  set (tok := reduction_value (mkEngine (Some s') stack (en_input e)) values).
  pose proof (production_raw h uninit _ _ _ _ _ HA Hv (reduction_value_sequence (mkEngine (Some s') stack (en_input e)) values)) as Hraw. fold tok in Hraw.
  assert (shifted true ch = false) as Hsh.
  { unfold shifted. by destruct HAp as [(? & -> & _)|(? & ? & ? & ? & -> & _)]. }
  destruct (lr_process uninit ch tok) as [[value|]|f|] eqn:El; cbn [mbind outcome_bind].
  - destruct (nonterminal_lookup_ok (mkEngine (Some s') stack (en_input e)) s' stack w1 n1 it0)
      with (A := lhs) (rhs := rhs) as [->|(t & -> & He)]; try done; cbn [mbind outcome_bind].
    pose proof (production_built _ _ _ _ _ HA Hd) as HdA. rewrite lr_process_eq in El.
    pose proof (made_processed _ _ _ _ _ _ _ _ HAl Hsh Hraw El) as Hmade.
    assert (lr_path t (LE_value value :: LE_state (Some s') :: stack) (w1 ++ w2) (S (n1 + n2))) as Hp2
      by (rewrite plus_n_Sm; by eapply lp_push).
    destruct t as [t|].
    + simpl. exists (w1 ++ w2). split; [by split|by exists t].
    + destruct (la_end _ _ _ _ Hauto _ _ He) as [-> ->]. apply path_zero in Hp1 as (-> & -> & ->).
      rewrite bool_decide_true by by rewrite (tk_start _ _ _ _ _ Htable). simpl. intros _.
      by exists w2, value, [LE_state (Some 0%nat)].
  - done.
  - rewrite lr_process_eq in El. exists lhs, ch, (Some tok), w1, w2, (rest (en_input e)).
    split_and!; [by exists s, rhs, len|done..|apply Hs|done].
  - by eapply Hcallbacks in El.
Qed.

(** What is shifted is the token of its symbol. *)
Lemma shift_made X v e w :
  stream_ok inp (en_input e) w -> built h X [next_symbol e] 1 ->
  match rest (en_input e) with [] => v = None | b :: _ => char_token b v end -> made h uninit true X v [next_symbol e].
Proof.
  intros Hs Hb Hv. unfold next_symbol in *.
  assert (exists ch, h !! X = Some ch) as [ch HX] by (inversion Hb; by eexists).
  pose proof (built_inv _ _ _ _ _ Hb HX) as Hinv.
  assert (shifted true ch = true) as Hsh.
  { unfold shifted. destruct (cf_type ch); try done.
    - destruct Hinv as (its & m & _ & Hm & [= <-]). apply built_seq_zero in Hm. by destruct (rest (en_input e)).
    - by destruct Hinv as (c & _ & _ & _ & ?). }
  eapply made_shifted; [done..|]. unfold shifted in Hsh.
  destruct (cf_type ch) eqn:Ht; try done; destruct Hinv as [Hw _]; destruct (rest (en_input e)); simplify_eq.
  - by eapply raw_end.
  - by eapply raw_char.
Qed.

Lemma lr_shift_ok e w n s X t :
  engine_ok e w n -> en_state e = Some s -> built h X [next_symbol e] 1 -> edge s X (Some t) ->
  round_ok (S n) ('(value, engine) ← consume_input e; Ok (push_symbol value (Some t) engine, true)).
Proof.
  intros [Hp Hs Hpos] Es HX He. rewrite Es in Hp. pose proof (shift_made X) as Hmade.
  unfold consume_input.
  assert (forall v c, stream_ok inp c (w ++ [next_symbol e]) -> is_pos c = 0 ->
            match rest (en_input e) with [] => v = None | b :: _ => char_token b v end ->
            engine_ok (push_symbol v (Some t) (mkEngine (en_state e) (en_stack e) c))
              (w ++ [next_symbol e]) (S n)) as Hpush.
  { intros v c Hc Hpc Hv. unfold push_symbol. rewrite Es. simpl. split; [|done..].
    rewrite <- Nat.add_1_r. eapply lp_push; [done..|]. by eapply Hmade. }
  unfold next_symbol in Hpush. rewrite read_byte by apply Hs. pose proof (rest_bytes _ (so_aligned _ _ _ Hs)) as Hb.
  destruct (rest (en_input e)) as [|b l] eqn:Er; cbn [mbind outcome_bind round_ok].
  - eexists. split; [apply Hpush; [by apply stream_ok_end|done|done]|by exists t].
  - assert (is_overrun (en_input e) = false) as Ho.
    { destruct (is_overrun (en_input e)) eqn:Ho; [|done]. by rewrite (so_overrun _ _ _ Hs Ho) in Er. }
    rewrite next_byte_overrun, Ho. apply Forall_cons_1 in Hb as [Hb _]. unfold byte in Hb.
    eexists. split; [apply Hpush; [by eapply stream_ok_next|done|]|by exists t].
    rewrite wrapu_small by lia. by do 2 eexists.
Qed.

Lemma lr_round_ok e w n :
  engine_ok e w n -> (exists s, en_state e = Some s) ->
  round_ok (S n) (l ← h_lrengine_action table e; lr_round addr h table uninit e l).
Proof.
  intros He [s Es]. destruct (lr_action_ok e w n s He Es) as [->|(act & -> & Ha)]; cbn [mbind outcome_bind].
  - unfold lr_round, h_lrengine_step. simpl. by rewrite Es.
  - unfold lr_round, h_lrengine_step. simpl. destruct act as [[t|]|lhs len rhs|]; try done.
    + destruct Ha as (X & HX & Hedge). by eapply lr_shift_ok.
    + by eapply lr_reduce_ok.
Qed.

(** ** The loop *)

(** A result: the token of what was read, a string of the start symbol. *)
Definition result_ok (r : HParseResult) : Prop :=
  exists w left_, made h uninit true start (ast r) w /\ consumed inp left_ w /\
    bit_length r = 8 * (Z.of_nat (length inp) - Z.of_nat (length left_)).

Definition parse_ok (n : nat) (o : outcome (option HParseResult)) : Prop :=
  match o with
  | Ok (Some r) => result_ok r
  | Ok None => True
  | Fault f => stopped f
  | OutOfFuel => exists e w, engine_ok e w n
  end.

Lemma lr_result_ok e w v stack :
  en_state e = None -> made h uninit true start v w -> stream_ok inp (en_input e) w -> is_pos (en_input e) = 0 ->
  en_stack e = LE_value v :: stack -> parse_ok 0 (h_lrengine_result e).
Proof.
  intros Es Hd Hs Hp Hst. unfold h_lrengine_result. rewrite Es, Hst. simpl.
  exists w, (rest (en_input e)). split_and!; [done|apply Hs|].
  simpl. rewrite rest_length by apply Hs. rewrite Hp, <- (so_length _ _ _ Hs). lia.
Qed.

(** Each round of fuel is a round of the parse. *)
Lemma lr_loop_ok fuel : forall e w n,
  engine_ok e w n -> (exists s, en_state e = Some s) ->
  parse_ok (fuel + n) (e ← lr_loop addr h table uninit fuel e; h_lrengine_result e).
Proof.
  induction fuel as [|fuel IH]; intros e w n He Hs; [by exists e, w|]. cbn [lr_loop].
  pose proof (lr_round_ok e w n He Hs) as Hr.
  destruct (h_lrengine_action table e) as [l| |]; simpl in Hr |- *; [|done..].
  destruct (lr_round addr h table uninit e l) as [[e' [|]]| |]; simpl in Hr |- *; [| |done..].
  - destruct Hr as (w' & He' & Hs'). rewrite plus_n_Sm. by apply (IH e' w').
  - destruct (en_state e') as [s|] eqn:Es; [unfold h_lrengine_result; by rewrite Es|].
    destruct (Hr eq_refl) as (w' & v & stack & Hd & Hst & Hp & Hstk).
    pose proof (lr_result_ok e' w' v stack Es Hd Hst Hp Hstk) as Hres.
    unfold h_lrengine_result in *. rewrite Es, Hstk in *. done.
Qed.

Lemma h_lr_parse_ok fuel stream :
  stream_wf stream -> is_input stream = inp -> is_index stream = 0 -> is_bit_offset stream = 0 ->
  is_margin stream = 0 -> is_overrun stream = false -> is_last_chunk stream = true ->
  is_pos stream = 0 ->
  parse_ok fuel (h_lr_parse addr h table uninit fuel stream).
Proof.
  intros Hwf Hinp Hi Hb Hm Ho Hl Hp. unfold h_lr_parse. rewrite <- (Nat.add_0_r fuel) at 1.
  apply (lr_loop_ok fuel _ []); [|by exists 0%nat].
  pose proof (byte_aligned_wf _ Hwf Hb Hm) as Ha. pose proof (wf_length _ Hwf) as Hlen.
  split; [constructor| |done]. split; try done.
  - simpl. by rewrite Ho.
  - simpl. by rewrite Hlen, Hinp.
  - exists [], 0%nat. split_and!; [done| |lia]. unfold rest. simpl.
    by rewrite Hi, Hlen, Nat2Z.id, firstn_all, drop_0, Hinp.
Qed.

(** ** Termination *)

(** [C] bounds the rounds that a symbol takes for each byte, [N] the symbols of
    a stack for each byte: there are no cycles of productions, and no cycles of
    states on symbols without bytes. *)
Context (C N : nat).
Hypothesis Hsize : forall x w n, built h x w n -> (n <= C * S (bytes_in w))%nat.
Hypothesis Hdepth : forall t stack w n, lr_path t stack w n -> (length stack <= N * S (bytes_in w))%nat.

Definition lr_bound : nat := C * (N * S (length inp) + length inp).

Lemma path_rounds t stack w n :
  lr_path t stack w n -> (n <= C * (length stack + bytes_in w))%nat.
Proof.
  induction 1 as [|s X t v stack w u n m _ IH _ Hu _]; [lia|]. apply Hsize in Hu.
  rewrite bytes_in_app. simpl length. nia.
Qed.

Lemma engine_rounds e w n : engine_ok e w n -> (n <= lr_bound)%nat.
Proof.
  intros [Hp Hs _]. pose proof (path_rounds _ _ _ _ Hp). apply Hdepth in Hp.
  pose proof (consumed_bytes_in _ _ _ (so_consumed _ _ _ Hs)). unfold lr_bound.
  etrans; [done|]. apply Nat.mul_le_mono_l. nia.
Qed.

Lemma parse_ends fuel o : parse_ok fuel o -> (lr_bound < fuel)%nat -> o <> OutOfFuel.
Proof. intros Ho Hf ->. destruct Ho as (e & w & He). apply engine_rounds in He. lia. Qed.

End Driver.
