(* ===== verification/LRBounds.v ===== *)
(** How long the driver of LRDriver runs: on a heap of choices without empty
    productions, cycles of unit productions and ends of input, a parse takes a
    number of rounds linear in the input. The condition is decided by
    [size_check], for a rank of the symbols that decreases along unit
    productions. *)

From S2P Require Import Prelude Charset Desugar Grammar Consumed CfGrammar LR LRDriver LRSound.

Definition sizes_check (rank : nat -> nat) (bound x : nat) (ch : HCFChoice) : bool :=
  (rank x <=? bound)%nat &&
  match cf_type ch with
  | HCF_CHAR _ => true
  | HCF_CHARSET _ => (0 <? rank x)%nat
  | HCF_CHOICE seqs =>
      forallb (fun items : list nat =>
        match items with
        | [] => false
        | [y] => (rank y <? rank x)%nat
        | _ => true
        end) seqs
  | _ => false
  end.

Definition size_check (rank : nat -> nat) (bound : nat) (h : list HCFChoice) : bool :=
  forallb (fun x => match h !! x with Some ch => sizes_check rank bound x ch | None => true end)
    (seq 0 (length h)).

(** A rank: the longest chain of unit productions, up to [fuel]. *)
Fixpoint unit_rank (fuel : nat) (h : list HCFChoice) (x : nat) : nat :=
  match fuel with
  | O => 0
  | S fuel =>
      match cf_type <$> h !! x with
      | Some (HCF_CHARSET _) => 1
      | Some (HCF_CHOICE seqs) =>
          max_list ((fun items => match items with [y] => S (unit_rank fuel h y) | _ => 0%nat end) <$> seqs)
      | _ => 0
      end
  end.

Section Bounds.
Context (rank : nat -> nat) (R : nat) (h : list HCFChoice) (Hcheck : size_check rank R h = true).

Lemma size_check_at x ch : h !! x = Some ch -> sizes_check rank R x ch = true.
Proof.
  intros Hx. unfold size_check in Hcheck. rewrite forallb_forall in Hcheck.
  specialize (Hcheck x). rewrite Hx in Hcheck. apply Hcheck, in_seq.
  apply lookup_lt_Some in Hx. lia.
Qed.

(** Two symbols or more need fewer rounds for their bytes than one. *)
Lemma built_rounds x w n :
  built h x w n ->
  bytes_in w = length w /\ (0 < length w)%nat /\ (n + (R - rank x) + S R <= 2 * S R * length w)%nat.
Proof.
  apply (built_mut h
    (fun x w n => bytes_in w = length w /\ (0 < length w)%nat /\
       (n + (R - rank x) + S R <= 2 * S R * length w)%nat)
    (fun l w n => bytes_in w = length w /\ (length l <= length w)%nat /\
       (n + S R * length l <= 2 * S R * length w)%nat /\ (l = [] -> w = [] /\ n = 0%nat) /\
       forall y, l = [y] -> (n + (R - rank y) + S R <= 2 * S R * length w)%nat)).
  all: clear x w n.
  - intros x ch c Hx Ht. apply size_check_at in Hx. unfold sizes_check in Hx. rewrite Ht in Hx. simpl.
    split_and!; [done|lia..].
  - intros x ch Hx Ht. apply size_check_at in Hx. unfold sizes_check in Hx. rewrite Ht in Hx.
    by rewrite andb_false_r in Hx.
  - intros x ch cs c Hx Ht _ _. apply size_check_at in Hx. unfold sizes_check in Hx. rewrite Ht in Hx.
    apply andb_prop in Hx as [?%Nat.leb_le ?%Nat.ltb_lt]. simpl. split_and!; [done|lia..].
  - intros x ch seqs items w n Hx Ht Hi _ (Hb & Hlen & Hn & _ & Hone).
    apply size_check_at in Hx. unfold sizes_check in Hx. rewrite Ht in Hx.
    apply andb_prop in Hx as [HR%Nat.leb_le Hall]. rewrite forallb_forall in Hall.
    specialize (Hall items (proj1 (list_elem_of_In _ _) Hi)).
    destruct items as [|y [|z items]]; [done|..]; simpl in Hlen; (split_and!; [done|lia|]).
    + apply Nat.ltb_lt in Hall. specialize (Hone y eq_refl). lia.
    + simpl length in Hn. nia.
  - split_and!; [done|done|simpl; lia|done|intros y [=]].
  - intros x items w1 w2 n1 n2 _ (Hb1 & Hne1 & H1) _ (Hb2 & Hlen & H2 & Hnil & _).
    rewrite bytes_in_app, length_app. simpl length. split_and!; [lia|lia|nia|done|].
    intros y [= -> ->]. destruct (Hnil eq_refl) as [-> ->]. simpl. lia.
Qed.

Lemma built_size x w n : built h x w n -> (n <= 2 * S R * S (bytes_in w))%nat.
Proof. intros (Hb & _ & Hn)%built_rounds. nia. Qed.

Lemma path_depth edge uninit t stack w n :
  lr_path h edge uninit t stack w n -> (length stack <= 2 * S (bytes_in w))%nat.
Proof.
  intros Hp. assert (length stack <= 2 * bytes_in w)%nat; [|lia].
  induction Hp as [|s X t v stack w u n m _ IH _ (Hb & Hl & _)%built_rounds _]; [done|].
  rewrite bytes_in_app. simpl length. lia.
Qed.

End Bounds.
