(* ===== verification/LR0.v ===== *)
(** The characteristic automaton and the LR(0) table (src/src/backends/lr0.c).

    The heap of choices is a state here: the closure of an item set allocates a
    symbol for each character of a charset, and sets the reshape function of the
    charset. Work lists are stacks, pushed and popped at the front. *)

From S2P Require Import Prelude Charset Token Parser HashTable Desugar Grammar StringMap CfGrammar.
From S2P Require Import LR.

(** The symbol after the mark, NULL at the end. *)
Definition after_mark (item : HLRItem) : option nat := it_rhs item !! it_mark item.

Definition advance_mark (item : HLRItem) : outcome HLRItem :=
  _ ← assert_ok (bool_decide (is_Some (after_mark item)));
  Ok (mkItem (it_lhs item) (it_rhs item) (it_len item) (S (it_mark item))).

Section LR0.
Context (addr : nat -> Z).

(** The productions of a nonterminal: new items go into the set and the work list. *)
Definition close_choice (h : list HCFChoice) (sym : nat) (seq : list (list nat))
    (st : HLRState * list HLRItem) : outcome (HLRState * list HLRItem) :=
  for_each (fun items '(set, work) =>
    it ← h_lritem_new sym items 0;
    present ← item_present addr h set it;
    if present : bool then Ok (set, work)
    else set ← put_item addr h set it; Ok (set, it :: work)) seq st.

(** A new symbol for the character [c]. *)
Definition new_char (c : Z) (h : list HCFChoice) : nat * list HCFChoice :=
  (length h, h ++ [mkChoice (HCF_CHAR c) None None None None]).

(** The characters of a charset, each a production with a new symbol. *)
Definition close_charset (sym : nat) (cs : HCharset) (st : HLRState * list HCFChoice)
    : outcome (HLRState * list HCFChoice) :=
  for_each (fun c '(set, h) =>
    b ← charset_isset cs c;
    if b : bool then
      let '(p, h) := new_char c h in
      it ← h_lritem_new sym [p] 0;
      set ← put_item addr h set it;
      Ok (set, h)
    else Ok (set, h)) all_chars st.

(** One item of the work list. *)
Definition close_item (item : HLRItem) (set : HLRState) (work : list HLRItem) (h : list HCFChoice)
    : outcome (HLRState * list HLRItem * list HCFChoice) :=
  match after_mark item with
  | None => Ok (set, work, h)
  | Some sym =>
      ch ← choice_at h sym;
      match cf_type ch with
      | HCF_CHOICE seq => '(set, work) ← close_choice h sym seq (set, work); Ok (set, work, h)
      | HCF_CHARSET cs =>
          '(set, h) ← close_charset sym cs (set, h);
          Ok (set, work, alter (set_reshape R_act_first) sym h)
      | _ => Ok (set, work, h)
      end
  end.

Fixpoint closure_loop (fuel : nat) (set : HLRState) (work : list HLRItem) (h : list HCFChoice)
    : outcome (HLRState * list HCFChoice) :=
  match work with
  | [] => Ok (set, h)
  | item :: work =>
      match fuel with
      | O => OutOfFuel
      | S fuel =>
          '(set, work, h) ← close_item item set work h;
          closure_loop fuel set work h
      end
  end.

(** The productions of a heap, which bound the items that the work list meets. *)
Definition productions_of (ch : HCFChoice) : nat :=
  match cf_type ch with HCF_CHOICE seq => length seq | _ => 0 end.
Definition closure_fuel (h : list HCFChoice) (set : HLRState) : nat :=
  length (table_keys set) + sum_list (productions_of <$> h).

Definition expand_to_closure (set : HLRState) (h : list HCFChoice)
    : outcome (HLRState * list HCFChoice) :=
  closure_loop (closure_fuel h set) set (rev (table_keys set)) h.

(** The neighbors of a state: [neighbors] maps edge symbols to places in
    [kernels], where the item sets are while they are filled. *)
Definition neighbors_of (h : list HCFChoice) (state : HLRState)
    : outcome (HHashTable nat nat * list HLRState) :=
  for_each (fun item '(neighbors, kernels) =>
    match after_mark item with
    | None => Ok (neighbors, kernels)
    | Some sym =>
        n ← h_hashtable_get (h_hash_symbol addr h) (eq_nonnull (h_eq_symbol h)) neighbors sym;
        '(i, neighbors, kernels) ←
          (match n with
           | Some i => Ok (i, neighbors, kernels)
           | None =>
               let i := length kernels in
               neighbors ← h_hashtable_put (h_hash_symbol addr h) (eq_nonnull (h_eq_symbol h))
                             neighbors sym (Some i);
               Ok (i, neighbors, kernels ++ [h_lrstate_new])
           end);
        neighbor ← deref OutOfBounds (kernels !! i);
        it ← advance_mark item;
        neighbor ← put_item addr h neighbor it;
        Ok (neighbors, <[i := neighbor]> kernels)
    end) (table_keys state) (h_hashtable_new, []).

(** The hash table of the states, keyed by their item sets. *)
Definition StateTable : Type := HHashTable HLRState nat.
Definition find_state (h : list HCFChoice) (states : StateTable) (s : HLRState)
    : outcome (option (option nat)) :=
  present ← h_hashtable_present (h_hash_lr_itemset addr h) (eq_nonnull (h_eq_lr_itemset h)) states s;
  if present : bool then
    i ← h_hashtable_get (h_hash_lr_itemset addr h) (eq_nonnull (h_eq_lr_itemset h)) states s; Ok (Some i)
  else Ok None.
Definition put_state (h : list HCFChoice) (states : StateTable) (s : HLRState) (i : nat)
    : outcome StateTable :=
  h_hashtable_put (h_hash_lr_itemset addr h) (eq_nonnull (h_eq_lr_itemset h)) states s (Some i).

Record dfa_run := mkDfaRun {
  dr_heap : list HCFChoice;
  dr_states : StateTable;
  dr_work : list (nat * HLRState);
  dr_transitions : list HLRTransition;
}.

(** One neighbor: closed, found among the states or added to them. An index is
    stored as a pointer, so a NULL value is the index 0. *)
Definition merge_neighbor (state_idx : nat) (kernels : list HLRState) (symbol i : nat) (r : dfa_run)
    : outcome dfa_run :=
  neighbor ← deref OutOfBounds (kernels !! i);
  '(neighbor, h) ← expand_to_closure neighbor (dr_heap r);
  found ← find_state h (dr_states r) neighbor;
  match found with
  | Some j =>
      Ok (mkDfaRun h (dr_states r) (dr_work r)
            (mkTransition state_idx symbol (default 0%nat j) :: dr_transitions r))
  | None =>
      let j := Z.to_nat (ht_used (dr_states r)) in
      states ← put_state h (dr_states r) neighbor j;
      Ok (mkDfaRun h states ((j, neighbor) :: dr_work r)
            (mkTransition state_idx symbol j :: dr_transitions r))
  end.

Definition dfa_step (state_idx : nat) (state : HLRState) (r : dfa_run) : outcome dfa_run :=
  '(neighbors, kernels) ← neighbors_of (dr_heap r) state;
  for_each (fun '(symbol, i) r =>
    i ← deref NullDeref i; merge_neighbor state_idx kernels symbol i r) (table_entries neighbors) r.

Fixpoint dfa_loop (fuel : nat) (r : dfa_run) : outcome dfa_run :=
  match dr_work r with
  | [] => Ok r
  | (state_idx, state) :: work =>
      match fuel with
      | O => OutOfFuel
      | S fuel =>
          r ← dfa_step state_idx state (mkDfaRun (dr_heap r) (dr_states r) work (dr_transitions r));
          dfa_loop fuel r
      end
  end.

(** [dfa->states[idx] = state] for each entry. *)
Definition fill_states (states : StateTable) : outcome (list (option HLRState)) :=
  for_each (fun '(state, v) arr =>
    let idx := default 0%nat v in
    if (idx <? length arr)%nat then Ok (<[idx := Some state]> arr) else Fault OutOfBounds)
    (table_entries states) (replicate (Z.to_nat (ht_used states)) None).

(** The initial item set: the productions of the start symbol. *)
Definition start_state (h : list HCFChoice) (start : nat) : outcome HLRState :=
  ch ← choice_at h start;
  match cf_type ch with
  | HCF_CHOICE seq =>
      for_each (fun items set => it ← h_lritem_new start items 0; put_item addr h set it) seq
        h_lrstate_new
  | _ => Fault AssertFail
  end.

(** [fuel] bounds the number of states. *)
Definition h_lr0_dfa (fuel : nat) (g : HCFGrammar) (h : list HCFChoice)
    : outcome (HLRDFA * list HCFChoice) :=
  start ← deref NullDeref (g_start g);
  s ← start_state h start;
  '(s, h) ← expand_to_closure s h;
  states ← put_state h h_hashtable_new s 0;
  r ← dfa_loop fuel (mkDfaRun h states [(0%nat, s)] []);
  arr ← fill_states (dr_states r);
  Ok (mkDFA (Z.to_nat (ht_used (dr_states r))) arr (dr_transitions r), dr_heap r).

(** * The LR(0) table *)

Definition put_shift (h : list HCFChoice) (table : HLRTable) (state symbol : nat)
    (nextstate : option nat) : outcome HLRTable :=
  let '(action, acts) := h_shift_action nextstate (lt_actions table) in
  let table := set_actions acts table in
  ch ← choice_at h symbol;
  match cf_type ch with
  | HCF_END =>
      m ← deref OutOfBounds (lt_tmap table !! state);
      Ok (set_tmap (<[state := h_stringmap_put_end m (V_action action)]> (lt_tmap table)) table)
  | HCF_CHAR c =>
      m ← deref OutOfBounds (lt_tmap table !! state);
      Ok (set_tmap (<[state := h_stringmap_put_char m c (V_action action)]> (lt_tmap table)) table)
  | _ =>
      nts ← deref OutOfBounds (lt_ntmap table !! state);
      nts ← h_hashtable_put (h_hash_symbol addr h) (eq_nonnull (h_eq_symbol h)) nts symbol (Some action);
      Ok (set_ntmap (<[state := nts]> (lt_ntmap table)) table)
  end.

(** A reducible item of row [i]; the flag is [inadeq]. *)
Definition put_reduce (i : nat) (item : HLRItem) (st : HLRTable * bool) : outcome (HLRTable * bool) :=
  let '(table, inadeq) := st in
  if (it_mark item =? it_len item)%nat then
    let '(reduce, acts) := h_reduce_action item (lt_actions table) in
    old ← deref OutOfBounds (lt_forall table !! i);
    '(reduce, acts, inadeq) ←
      (match old with
       | Some a => '(c, acts) ← h_lr_conflict a reduce acts; Ok (c, acts, true)
       | None => Ok (reduce, acts, inadeq)
       end);
    let table := set_forall (<[i := Some reduce]> (lt_forall table)) (set_actions acts table) in
    empty ← h_lrtable_row_empty table i;
    Ok (table, inadeq || negb empty)
  else Ok (table, inadeq).

Definition reduce_row (dfa : HLRDFA) (i : nat) (table : HLRTable) : outcome HLRTable :=
  state ← deref OutOfBounds (df_states dfa !! i);
  state ← deref NullDeref state;
  '(table, inadeq) ← for_each (put_reduce i) (table_keys state) (table, false);
  Ok (if inadeq : bool then set_inadeq (i :: lt_inadeq table) table else table).

Definition h_lr0_table (arena : nat) (g : HCFGrammar) (h : list HCFChoice) (dfa : HLRDFA)
    : outcome HLRTable :=
  let table := h_lrtable_new arena (df_nstates dfa) in
  let table := set_lr_start (g_start g) table in
  start ← deref NullDeref (g_start g);
  table ← put_shift h table 0 start HLR_SUCCESS;
  table ← for_each (fun t table => put_shift h table (tn_from t) (tn_symbol t) (Some (tn_to t)))
            (df_transitions dfa) table;
  for_each (reduce_row dfa) (seq 0 (df_nstates dfa)) table.

End LR0.
