(* ===== verification/Extends.v ===== *)
(** Heaps of choices that grow: table generators add choices and set reshape
    functions, and what the old choices derive stays the same. *)

From S2P Require Import Prelude Charset Desugar Grammar LR HashKeys LRDriver LRSound.

(** * Heaps that grow *)

(** The choices of [h] keep their types; new ones follow. *)
Definition extends (h h' : list HCFChoice) : Prop :=
  forall x ch, h !! x = Some ch -> exists ch', h' !! x = Some ch' /\ cf_type ch' = cf_type ch.

#[export] Instance extends_preorder : PreOrder extends.
Proof.
  split; [by intros h x ch Hx; exists ch|]. intros h1 h2 h3 H12 H23 x ch Hx.
  destruct (H12 _ _ Hx) as (ch2 & Hx2 & Ht2). destruct (H23 _ _ Hx2) as (ch3 & Hx3 & Ht3).
  exists ch3. split; [done|congruence].
Qed.

Lemma extends_app h l : extends h (h ++ l).
Proof. intros x ch Hx. exists ch. split; [by apply lookup_app_l_Some|done]. Qed.

Lemma extends_alter f x h : (forall ch, cf_type (f ch) = cf_type ch) -> extends h (alter f x h).
Proof.
  intros Hf y ch Hy. destruct (decide (x = y)) as [->|Hne].
  - exists (f ch). by rewrite list_lookup_alter_eq, Hy.
  - exists ch. by rewrite list_lookup_alter_ne.
Qed.

(** A choice beyond the old heap can change. *)
Lemma extends_alter_new f x h h' : extends h h' -> (length h <= x)%nat -> extends h (alter f x h').
Proof.
  intros He Hx y ch Hy. destruct (He _ _ Hy) as (ch' & Hy' & Ht). exists ch'.
  apply lookup_lt_Some in Hy. rewrite list_lookup_alter_ne by lia. done.
Qed.

Lemma extends_length h h' : extends h h' -> (length h <= length h')%nat.
Proof.
  intros He. destruct (decide (length h <= length h')%nat); [done|].
  destruct (lookup_lt_is_Some_2 h (length h')) as [ch Hx]; [lia|].
  destruct (He _ _ Hx) as (ch' & Hx' & _). apply lookup_lt_Some in Hx'. lia.
Qed.

Lemma sym_eq_extends h h' x y : extends h h' -> sym_eq h x y -> sym_eq h' x y.
Proof.
  intros He [->|(cx & cy & Hx & Hy & Ht & Hc)]; [by left|right].
  destruct (He _ _ Hx) as (cx' & Hx' & Htx). destruct (He _ _ Hy) as (cy' & Hy' & Hty).
  exists cx', cy'. split_and!; [done..|congruence|by rewrite Htx].
Qed.

Lemma production_extends h h' A rhs : extends h h' -> production h A rhs -> production h' A rhs.
Proof.
  intros He (ch & HA & Hp). destruct (He _ _ HA) as (ch' & HA' & Ht). exists ch'. split; [done|].
  rewrite Ht. destruct Hp as [Hp|(cs & r & cr & c & Hcs & -> & Hr & Hc & Hb & Hi)]; [by left|right].
  destruct (He _ _ Hr) as (cr' & Hr' & Htr). exists cs, r, cr', c. by rewrite Htr.
Qed.

Lemma built_terminal_extends h h' x y : extends h h' -> built h x [y] 1 -> built h' x [y] 1.
Proof.
  intros He Hb. inversion Hb as [x' ch c Hx Ht|x' ch Hx Ht| |x' ch seqs items w n Hx Ht Hi Hs];
    subst; [destruct (He _ _ Hx) as (ch' & Hx' & Ht')..|].
  - eapply built_char; [done|congruence].
  - eapply built_end; [done|congruence].
  - destruct items as [|z items]; [by apply built_nil_inv in Hs as [? _]|].
    apply built_seq_inv in Hs as (w1 & w2 & n1 & n2 & _ & Hn & Hz & _). by destruct Hz.
Qed.

(** Old choices derive what they derived. *)
Lemma derives_extends h h' x w :
  grammar_wf h -> extends h h' -> (x < length h)%nat -> derives h' x w -> derives h x w.
Proof.
  intros Hwf He Hx Hd. revert Hx.
  assert (forall c ch, h' !! c = Some ch -> (c < length h)%nat ->
    exists ch0, h !! c = Some ch0 /\ cf_type ch = cf_type ch0) as Hold.
  { intros c ch Hc Hlt. destruct (lookup_lt_is_Some_2 h c Hlt) as [ch0 H0].
    destruct (He _ _ H0) as (ch' & Hc' & Ht). exists ch0. split; [done|congruence]. }
  apply (derives_mut h' (fun x w => (x < length h)%nat -> derives h x w)
    (fun l w => Forall (fun x => (x < length h)%nat) l -> derives_seq h l w)); [..|done].
  - intros c ch v Hc Ht Hx. destruct (Hold c ch Hc Hx) as (ch0 & Hc0 & Ht0).
    eapply derives_char; [done|by rewrite <- Ht0].
  - intros c ch cs v Hc Ht ? ? Hx. destruct (Hold c ch Hc Hx) as (ch0 & Hc0 & Ht0).
    eapply derives_charset; [done|by rewrite <- Ht0|done..].
  - intros c ch Hc Ht Hx. destruct (Hold c ch Hc Hx) as (ch0 & Hc0 & Ht0).
    eapply derives_end; [done|by rewrite <- Ht0].
  - intros c ch seqs items v Hc Ht Hi _ IH Hx. destruct (Hold c ch Hc Hx) as (ch0 & Hc0 & Ht0).
    rewrite Ht in Ht0. eapply derives_choice; [done..|]. apply IH.
    pose proof (grammar_wf_lookup _ _ _ Hwf Hc0) as Hw. unfold choice_wf in Hw. rewrite <- Ht0 in Hw.
    by eapply (proj1 (list.Forall_forall _ _) Hw).
  - constructor.
  - intros c items w1 w2 _ IH1 _ IH2 [Hc Hi]%Forall_cons_1. constructor; auto.
Qed.

(** ** Well-formed heaps *)

Lemma choice_wf_longer h h' ch : (length h <= length h')%nat -> choice_wf h ch -> choice_wf h' ch.
Proof.
  intros Hl. unfold choice_wf. destruct (cf_type ch); try done. intros Hs.
  eapply list.Forall_impl; [exact Hs|]. intros items Hi. eapply list.Forall_impl; [exact Hi|]. simpl. lia.
Qed.

Lemma grammar_wf_snoc h ch : grammar_wf h -> choice_wf h ch -> grammar_wf (h ++ [ch]).
Proof.
  intros Hh Hch. apply Forall_app. split; [|constructor; [|constructor]].
  - eapply list.Forall_impl; [exact Hh|]. intros c. apply (choice_wf_longer h). rewrite length_app. lia.
  - apply (choice_wf_longer h); [|done]. rewrite length_app. lia.
Qed.

Lemma grammar_wf_alter h f x :
  grammar_wf h -> (forall ch, h !! x = Some ch -> choice_wf h (f ch)) -> grammar_wf (alter f x h).
Proof.
  intros Hh Hf. apply Forall_lookup. intros i ch Hi.
  apply (choice_wf_longer h); [by rewrite length_alter|]. destruct (decide (x = i)) as [->|Hne].
  - rewrite list_lookup_alter_eq in Hi. destruct (h !! i) as [c|] eqn:Hc; [|done]. simplify_eq/=. auto.
  - rewrite list_lookup_alter_ne in Hi by done. by eapply grammar_wf_lookup.
Qed.

(** The automaton and the table stay what they are. *)
Section Extend.
Context (h h' : list HCFChoice) (start : nat) (He : extends h h').
Context (edge : nat -> nat -> option nat -> Prop) (items : nat -> HLRItem -> Prop).

Lemma lr_automaton_extends : lr_automaton h start edge items -> lr_automaton h' start edge items.
Proof.
  intros [Hz Hi Hs Hl Hend Ht Hsym]. split; try done.
  - intros s it Hit. destruct (Hi _ _ Hit) as (? & ? & ?). split_and!; [done..|by eapply production_extends].
  - intros s X t it m Hed Hit Hm. destruct (Hs _ _ _ _ _ Hed Hit Hm) as (it0 & Y & ? & ? & ? & Hr & ? & HY).
    exists it0, Y. split_and!; try done; [|by eapply sym_eq_extends].
    eapply list.Forall2_impl; [exact Hr|]. intros x y. by apply sym_eq_extends.
  - intros s X t Hed. apply Hsym in Hed. apply extends_length in He. lia.
Qed.

Lemma action_ok_extends s y a : action_ok h edge items s y a -> action_ok h' edge items s y a.
Proof.
  destruct a as [[[t|]|lhs len rhs|]|]; try done. intros (X & HX & Hed). exists X.
  split; [by eapply built_terminal_extends|done].
Qed.

Lemma lr_table_ok_extends table :
  lr_table_ok h start edge items table -> lr_table_ok h' start edge items table.
Proof.
  intros [? ? ? ? ? ? Ht ? ?]. split; try done. intros s m w v Hm Hv.
  destruct (Ht _ _ _ _ Hm Hv) as (y & a & ? & ? & Ha). exists y, a. split_and!; [done..|].
  by apply action_ok_extends.
Qed.

End Extend.
