(* ===== verification/LR0Facts.v ===== *)
(** The construction of the automaton only adds characters to the heap of
    choices, and sets reshape functions: the grammar derives what it derived. *)

From S2P Require Import Prelude Charset HashTable Desugar Grammar CfGrammar LR LR0 Extends.

(** The heap grows and stays well formed. *)
Definition grown (h h' : list HCFChoice) : Prop := extends h h' /\ (grammar_wf h -> grammar_wf h').

#[export] Instance grown_preorder : PreOrder grown.
Proof.
  split; [by intros h; split|]. intros h1 h2 h3 [He1 Hw1] [He2 Hw2]. split; [by etrans|auto].
Qed.

Section Growth.
Context (addr : nat -> Z).

Lemma new_char_grown c h p h' : 0 <= c < 256 -> new_char c h = (p, h') -> grown h h'.
Proof.
  unfold new_char. intros Hc [= <- <-]. split; [apply extends_app|]. intros Hh. by apply grammar_wf_snoc.
Qed.

Lemma set_reshape_grown r x h : grown h (alter (set_reshape r) x h).
Proof.
  split; [by apply extends_alter|]. intros Hh. apply grammar_wf_alter; [done|]. intros ch Hx.
  by apply (grammar_wf_lookup _ _ _ Hh) in Hx.
Qed.

Lemma close_charset_grown sym cs set h set' h' :
  close_charset addr sym cs (set, h) = Ok (set', h') -> grown h h'.
Proof.
  unfold close_charset. intros H.
  apply (for_each_inv (fun '(_, h1) => grown h h1)) in H; [done| |done].
  intros c [s1 h1] [s2 h2] Hc Hg Hstep. apply outcome_bind_ok in Hstep as ([] & _ & Hstep); [|by simplify_eq].
  destruct (new_char c h1) as [p h3] eqn:En. apply outcome_bind_ok in Hstep as (it & _ & Hstep).
  apply outcome_bind_ok in Hstep as (s3 & _ & Hstep). simplify_eq. etrans; [done|].
  eapply new_char_grown; [|done]. apply list_elem_of_fmap in Hc as (n & -> & Hn%elem_of_seq). lia.
Qed.

Lemma close_item_grown item set work h set' work' h' :
  close_item addr item set work h = Ok (set', work', h') -> grown h h'.
Proof.
  unfold close_item. destruct (after_mark item) as [sym|]; [|intros; by simplify_eq].
  intros H. apply outcome_bind_ok in H as (ch & _ & H). destruct (cf_type ch); simplify_eq; try done.
  - apply outcome_bind_ok in H as ([s w] & _ & H). by simplify_eq.
  - apply outcome_bind_ok in H as ([s h1] & Hc & H). simplify_eq.
    etrans; [by eapply close_charset_grown|apply set_reshape_grown].
Qed.

Lemma closure_loop_grown fuel : forall set work h set' h',
  closure_loop addr fuel set work h = Ok (set', h') -> grown h h'.
Proof.
  induction fuel as [|fuel IH]; intros set [|item work] h set' h' H; simpl in H; simplify_eq; try done.
  apply outcome_bind_ok in H as ([[s w] h1] & H1 & H). etrans; [by eapply close_item_grown|by eapply IH].
Qed.

Lemma expand_to_closure_grown set h set' h' : expand_to_closure addr set h = Ok (set', h') -> grown h h'.
Proof. unfold expand_to_closure. apply closure_loop_grown. Qed.

Lemma merge_neighbor_grown i kernels symbol j r r' :
  merge_neighbor addr i kernels symbol j r = Ok r' -> grown (dr_heap r) (dr_heap r').
Proof.
  unfold merge_neighbor. intros H. apply outcome_bind_ok in H as (k & _ & H).
  apply outcome_bind_ok in H as ([s h] & Hc & H). apply expand_to_closure_grown in Hc.
  apply outcome_bind_ok in H as ([j'|] & _ & H); [by injection H as <-|].
  apply outcome_bind_ok in H as (states & _ & H). by injection H as <-.
Qed.

Lemma dfa_step_grown i state r r' : dfa_step addr i state r = Ok r' -> grown (dr_heap r) (dr_heap r').
Proof.
  unfold dfa_step. intros H. apply outcome_bind_ok in H as ([neighbors kernels] & _ & H).
  apply (for_each_inv (fun r' => grown (dr_heap r) (dr_heap r'))) in H; [done| |done].
  intros [symbol v] r1 r2 _ Hg Hs. apply outcome_bind_ok in Hs as (j & _ & Hs). etrans; [exact Hg|].
  by eapply merge_neighbor_grown.
Qed.

Lemma dfa_loop_grown fuel : forall r r', dfa_loop addr fuel r = Ok r' -> grown (dr_heap r) (dr_heap r').
Proof.
  induction fuel as [|fuel IH]; intros r r' H; cbn [dfa_loop] in H;
    destruct (dr_work r) as [|[i s] work]; simplify_eq; try done.
  apply outcome_bind_ok in H as (r1 & H1%dfa_step_grown & H). etrans; [exact H1|by apply IH].
Qed.

Lemma h_lr0_dfa_grown fuel g h dfa h' : h_lr0_dfa addr fuel g h = Ok (dfa, h') -> grown h h'.
Proof.
  unfold h_lr0_dfa. intros H. apply outcome_bind_ok in H as (start & _ & H).
  apply outcome_bind_ok in H as (s & _ & H). apply outcome_bind_ok in H as ([s1 h1] & Hc%expand_to_closure_grown & H).
  apply outcome_bind_ok in H as (states & _ & H). apply outcome_bind_ok in H as (r & Hr & H).
  apply outcome_bind_ok in H as (arr & _ & H). injection H as <- <-.
  etrans; [exact Hc|]. by apply dfa_loop_grown in Hr.
Qed.

End Growth.
