(* ===== verification/DFACheck.v ===== *)
(** Validation of the automata of LR0. The item sets of an automaton are checked
    rather than derived from its construction: two sets that the hash table of
    states takes for equal need not be equal (see [h_eq_lr_itemset]). *)

From S2P Require Import Prelude Charset HashTable Desugar Grammar CfGrammar LR LRSound.

(** * Validation of an automaton *)

Definition state_items (dfa : HLRDFA) (s : nat) : list HLRItem :=
  match df_states dfa !! s with Some (Some st) => table_keys st | _ => [] end.
Definition dfa_items (dfa : HLRDFA) (s : nat) (it : HLRItem) : Prop := it ∈ state_items dfa s.

(** The transitions, and the one of the start symbol to the end state. *)
Definition dfa_edge (start : nat) (dfa : HLRDFA) (s X : nat) (t : option nat) : Prop :=
  (s = 0%nat /\ X = start /\ t = None) \/
  exists tr, tr ∈ df_transitions dfa /\ tn_from tr = s /\ tn_symbol tr = X /\ t = Some (tn_to tr).

Definition sym_eqb (h : list HCFChoice) (x y : nat) : bool :=
  match h_eq_symbol h x y with Ok b => b | _ => false end.

Fixpoint syms_eqb (h : list HCFChoice) (l1 l2 : list nat) : bool :=
  match l1, l2 with
  | [], [] => true
  | x :: l1, y :: l2 => sym_eqb h x y && syms_eqb h l1 l2
  | _, _ => false
  end.

Definition productionb (h : list HCFChoice) (A : nat) (rhs : list nat) : bool :=
  match cf_type <$> h !! A with
  | Some (HCF_CHOICE seqs) => bool_decide (rhs ∈ seqs)
  | Some (HCF_CHARSET cs) =>
      match rhs with
      | [r] =>
          match cf_type <$> h !! r with
          | Some (HCF_CHAR c) =>
              (0 <=? c) && (c <? 256) && match charset_isset cs c with Ok b => b | _ => false end
          | _ => false
          end
      | _ => false
      end
  | _ => false
  end.

Definition item_check (h : list HCFChoice) (it : HLRItem) : bool :=
  (it_len it =? length (it_rhs it))%nat && (it_mark it <=? it_len it)%nat &&
  productionb h (it_lhs it) (it_rhs it).

(** [it] is [it0] advanced over the symbol [X]. *)
Definition advancedb (h : list HCFChoice) (X : nat) (it it0 : HLRItem) : bool :=
  (it_mark it =? S (it_mark it0))%nat && (it_lhs it0 =? it_lhs it)%nat &&
  syms_eqb h (it_rhs it0) (it_rhs it) &&
  match it_rhs it !! it_mark it0 with Some Y => sym_eqb h Y X | None => false end.

Definition transition_check (h : list HCFChoice) (dfa : HLRDFA) (tr : HLRTransition) : bool :=
  (tn_from tr <? df_nstates dfa)%nat && (tn_to tr <? df_nstates dfa)%nat &&
  negb (tn_to tr =? 0)%nat && (tn_symbol tr <? length h)%nat &&
  forallb (fun it => (it_mark it =? 0)%nat ||
             existsb (advancedb h (tn_symbol tr) it) (state_items dfa (tn_from tr)))
    (state_items dfa (tn_to tr)).

(** A state with an item that was not advanced has a transition. *)
Definition leave_check (dfa : HLRDFA) (s : nat) : bool :=
  (s =? 0)%nat || existsb (fun tr => tn_from tr =? s)%nat (df_transitions dfa) ||
  forallb (fun it => negb (it_mark it =? 0)%nat) (state_items dfa s).

Definition dfa_check (h : list HCFChoice) (start : nat) (dfa : HLRDFA) : bool :=
  (0 <? df_nstates dfa)%nat && (length (df_states dfa) =? df_nstates dfa)%nat &&
  forallb (fun s => forallb (item_check h) (state_items dfa s) && leave_check dfa s)
    (seq 0 (df_nstates dfa)) &&
  forallb (fun it => it_mark it =? 0)%nat (state_items dfa 0) &&
  forallb (transition_check h dfa) (df_transitions dfa) &&
  match cf_type <$> h !! start with Some (HCF_CHOICE _) => true | _ => false end.

Lemma sym_eqb_true h x y : sym_eqb h x y = true -> sym_eq h x y.
Proof.
  unfold sym_eqb. destruct (h_eq_symbol h x y) as [[]| |] eqn:E; try done. intros _.
  by apply h_eq_symbol_true.
Qed.

Lemma syms_eqb_true h l1 l2 : syms_eqb h l1 l2 = true -> Forall2 (sym_eq h) l1 l2.
Proof.
  revert l2. induction l1 as [|x l1 IH]; intros [|y l2] H; try done; simpl in H.
  apply andb_prop in H as [H1 H2]. constructor; [by apply sym_eqb_true|auto].
Qed.

Lemma productionb_true h A rhs : productionb h A rhs = true -> production h A rhs.
Proof.
  unfold productionb. destruct (h !! A) as [ch|] eqn:HA; [|done]. simpl. intros H. exists ch.
  split; [done|]. destruct (cf_type ch) as [|seqs|cs|c| | |]; try done.
  - left. exists seqs. by apply bool_decide_eq_true in H.
  - right. destruct rhs as [|r rhs]; [done|]. destruct rhs; [|done].
    destruct (h !! r) as [cr|] eqn:Hr; [|done].
    simpl in H. destruct (cf_type cr) as [| | |c| | |] eqn:Hc; try done.
    apply andb_prop in H as [[H1%Z.leb_le H2%Z.ltb_lt]%andb_prop H3].
    exists cs, r, cr, c. split_and!; try done. by destruct (charset_isset cs c) as [[]| |].
Qed.

Lemma advancedb_true h X it it0 :
  advancedb h X it it0 = true ->
  it_mark it = S (it_mark it0) /\ it_lhs it0 = it_lhs it /\
  Forall2 (sym_eq h) (it_rhs it0) (it_rhs it) /\
  exists Y, it_rhs it !! it_mark it0 = Some Y /\ sym_eq h Y X.
Proof.
  intros [[[H1%Nat.eqb_eq H2%Nat.eqb_eq]%andb_prop H3%syms_eqb_true]%andb_prop H4]%andb_prop.
  split_and!; [done..|]. destruct (it_rhs it !! it_mark it0) as [Y|]; [|done].
  exists Y. split; [done|by apply sym_eqb_true].
Qed.

Lemma forallb_elem {A} (f : A -> bool) l x : forallb f l = true -> x ∈ l -> f x = true.
Proof. intros H Hx. apply list_elem_of_In in Hx. revert x Hx. by apply forallb_forall. Qed.

Lemma existsb_elem {A} (f : A -> bool) l : existsb f l = true -> exists x, x ∈ l /\ f x = true.
Proof. intros (x & Hx & Hf)%existsb_exists. exists x. by rewrite list_elem_of_In. Qed.

Section Checked.
Context (h : list HCFChoice) (start : nat) (dfa : HLRDFA) (Hcheck : dfa_check h start dfa = true).

Lemma dfa_check_inv :
  (0 < df_nstates dfa)%nat /\ length (df_states dfa) = df_nstates dfa /\
  (forall s it, it ∈ state_items dfa s -> item_check h it = true) /\
  (forall s it, it ∈ state_items dfa s -> leave_check dfa s = true) /\
  (forall it, it ∈ state_items dfa 0 -> it_mark it = 0%nat) /\
  (forall tr, tr ∈ df_transitions dfa -> transition_check h dfa tr = true) /\
  is_choice h start.
Proof.
  unfold dfa_check in Hcheck. repeat apply andb_prop in Hcheck as [Hcheck ?].
  apply Nat.ltb_lt in Hcheck. match goal with H : (_ =? _)%nat = true |- _ => apply Nat.eqb_eq in H end.
  assert (forall s it, it ∈ state_items dfa s ->
    forallb (item_check h) (state_items dfa s) && leave_check dfa s = true) as Hs.
  { intros s it Hit.
    apply (forallb_elem (fun s => forallb (item_check h) (state_items dfa s) && leave_check dfa s)
      (seq 0 (df_nstates dfa)) s); [done|]. apply elem_of_seq.
    split; [lia|]. simpl. destruct (decide (s < df_nstates dfa)%nat); [done|].
    unfold state_items in Hit.
    destruct (df_states dfa !! s) eqn:E; [|by apply not_elem_of_nil in Hit].
    apply lookup_lt_Some in E. unfold HLRState in *. lia. }
  split_and!; try done.
  - intros s it Hit. pose proof (Hs _ _ Hit) as [Hi _]%andb_prop. by eapply forallb_elem.
  - intros s it Hit. by pose proof (Hs _ _ Hit) as [_ Hi]%andb_prop.
  - intros it Hit. apply Nat.eqb_eq. by eapply (forallb_elem (fun it => it_mark it =? 0)%nat).
  - intros tr Htr. by eapply forallb_elem.
  - destruct (h !! start) as [ch|] eqn:Hst; [|done]. simpl in *.
    destruct (cf_type ch) as [|seqs| | | | |] eqn:Ht; try done. by exists ch, seqs.
Qed.

(** A validated automaton is an automaton. *)
Lemma dfa_check_automaton : lr_automaton h start (dfa_edge start dfa) (dfa_items dfa).
Proof.
  destruct dfa_check_inv as (Hn & Hlen & Hitem & Hleave & Hzero & Htr & Hstart).
  assert (forall tr, tr ∈ df_transitions dfa -> (tn_to tr <> 0)%nat /\ (tn_symbol tr < length h)%nat /\
    forall it, it ∈ state_items dfa (tn_to tr) -> it_mark it = 0%nat \/
      exists it0, it0 ∈ state_items dfa (tn_from tr) /\ advancedb h (tn_symbol tr) it it0 = true) as Ht.
  { intros tr Hin. apply Htr in Hin. unfold transition_check in Hin.
    apply andb_prop in Hin as [[[[_ _]%andb_prop H0%negb_true_iff%Nat.eqb_neq]%andb_prop
      Hs%Nat.ltb_lt]%andb_prop Hall]. split_and!; [done..|]. intros it Hit.
    pose proof (forallb_elem _ _ _ Hall Hit) as [Hm|He]%orb_prop; [left; by apply Nat.eqb_eq|right].
    by apply existsb_elem in He. }
  split.
  - done.
  - intros s it Hit. pose proof (Hitem _ _ Hit) as [[H1%Nat.eqb_eq H2%Nat.leb_le]%andb_prop
      H3%productionb_true]%andb_prop. done.
  - intros s X t it m [(_ & _ & ?)|(tr & Hin & <- & <- & [= ->])] Hit Hm; [done|].
    destruct (Ht tr Hin) as (_ & _ & Hadv). destruct (Hadv it Hit) as [?|(it0 & H0 & Ha)]; [congruence|].
    apply advancedb_true in Ha as (Hm0 & Hl & Hr & Y & HY & HYX). exists it0, Y.
    assert (it_mark it0 = m) as <- by lia. done.
  - intros s it Hit Hm. pose proof (Hleave _ _ Hit) as Hl. unfold leave_check in Hl.
    apply orb_prop in Hl as [[H0%Nat.eqb_eq|Hex%existsb_elem]%orb_prop|Hall].
    + exists start, None. by left.
    + destruct Hex as (tr & Hin & Hf%Nat.eqb_eq). exists (tn_symbol tr), (Some (tn_to tr)). right.
      by exists tr.
    + pose proof (forallb_elem _ _ _ Hall Hit) as H. simpl in H. by rewrite Hm in H.
  - intros s X [(-> & -> & _)|(tr & _ & _ & _ & ?)]; done.
  - intros s X t [(_ & _ & ?)|(tr & Hin & _ & _ & [= ->])]; [done|]. by apply Ht.
  - intros s X t [(_ & -> & _)|(tr & Hin & _ & <- & _)]; [by apply is_choice_lt|by apply Ht].
Qed.

Lemma dfa_edge_target s X t : dfa_edge start dfa s X (Some t) -> (t < df_nstates dfa)%nat.
Proof.
  intros [(_ & _ & ?)|(tr & Hin & _ & _ & [= ->])]; [done|].
  destruct dfa_check_inv as (_ & _ & _ & _ & _ & Htr & _). apply Htr in Hin.
  unfold transition_check in Hin.
  apply andb_prop in Hin as [[[[_ H%Nat.ltb_lt]%andb_prop _]%andb_prop _]%andb_prop _]. done.
Qed.

End Checked.
