(* ===== verification/LRTableFacts.v ===== *)
(** The tables of LR0: the LR(0) table follows the automaton that it is made from. *)

From S2P Require Import Prelude Charset Token Parser HashTable Desugar Grammar StringMap CfGrammar.
From S2P Require Import LR HashKeys LRDriver LRSound DFACheck LR0.

(** * Lists of actions that grow *)

Definition is_conflict (a : HLRAction) : bool := match a with HLR_CONFLICT _ => true | _ => false end.

(** A conflict gets new branches; other actions stay. *)
Definition acts_le (l l' : list HLRAction) : Prop :=
  forall a x, l !! a = Some x ->
    exists x', l' !! a = Some x' /\ (x' = x \/ (is_conflict x = true /\ is_conflict x' = true)).

#[export] Instance acts_le_preorder : PreOrder acts_le.
Proof.
  split; [intros l a x Hx; exists x; by auto|]. intros l1 l2 l3 H12 H23 a x Hx.
  destruct (H12 _ _ Hx) as (x2 & Hx2 & H2). destruct (H23 _ _ Hx2) as (x3 & Hx3 & H3).
  exists x3. split; [done|]. destruct H2 as [->|[]], H3 as [->|[]]; auto.
Qed.

Lemma acts_le_app l l' : acts_le l (l ++ l').
Proof. intros a x Hx. exists x. split; [by apply lookup_app_l_Some|by left]. Qed.

Lemma acts_le_keep l l' a x : acts_le l l' -> l !! a = Some x -> is_conflict x = false -> l' !! a = Some x.
Proof. intros Hl Hx Hc. destruct (Hl _ _ Hx) as (x' & Hx' & [->|[? _]]); congruence. Qed.

Definition conflict_at (l : list HLRAction) (a : nat) : Prop := exists br, l !! a = Some (HLR_CONFLICT br).

Lemma acts_le_conflict l l' a : acts_le l l' -> conflict_at l a -> conflict_at l' a.
Proof.
  intros Hl [br Hx]. destruct (Hl _ _ Hx) as (x' & Hx' & [->|[_ Hc]]); [by exists br|].
  destruct x'; try done. by eexists.
Qed.

Lemma new_action_at a l : (new_action a l).2 !! (new_action a l).1 = Some a.
Proof. simpl. rewrite lookup_app_r by done. by rewrite Nat.sub_diag. Qed.

Lemma h_lr_conflict_ok a b l c l' :
  h_lr_conflict a b l = Ok (c, l') -> acts_le l l' /\ conflict_at l' c.
Proof.
  unfold h_lr_conflict. intros H. ok_inv. destruct x as [t|lhs len rhs|br].
  1-2: unfold new_action in H; simplify_eq; (split; [apply acts_le_app|eexists]);
    rewrite lookup_app_r by done; by rewrite Nat.sub_diag.
  case_decide; simplify_eq; [split; [done|by exists br]|]. split.
  - intros a' x Hx. destruct (decide (a' = c)) as [->|].
    + eexists. rewrite list_lookup_insert_eq by by eapply lookup_lt_Some. split; [done|right].
      simplify_eq. done.
    + exists x. rewrite list_lookup_insert_ne by done. by auto.
  - eexists. apply list_lookup_insert_eq. by eapply lookup_lt_Some.
Qed.

(** * Tables under construction *)

Section Table.
Context (addr : nat -> Z) (h : list HCFChoice) (start n : nat).
Context (edge : nat -> nat -> option nat -> Prop) (items : nat -> HLRItem -> Prop).
Hypothesis Hh : grammar_wf h.

(** A reduction by an item of state [s]. *)
Definition reduce_ok (s : nat) (a : option HLRAction) : Prop :=
  exists lhs len rhs, a = Some (HLR_REDUCE lhs len rhs) /\ items s (mkItem lhs rhs len len).

Definition terminal_ok (s : nat) (acts : list HLRAction) (w : list symbol) (v : sm_value) : Prop :=
  exists y a, w = [y] /\ v = V_action a /\ action_ok h edge items s y (acts !! a).

Record table_inv (t : HLRTable) : Prop := {
  ti_nrows : lt_nrows t = n;
  ti_ntmap : length (lt_ntmap t) = n;
  ti_tmap : length (lt_tmap t) = n;
  ti_forall : length (lt_forall t) = n;
  ti_start : lt_start t = Some start;
  ti_nonterminal : forall s nts, lt_ntmap t !! s = Some nts -> shaped nts /\ counted nts /\
    forall k v, (k, v) ∈ table_entries nts ->
    exists a t', v = Some a /\ lt_actions t !! a = Some (HLR_SHIFT t') /\ edge s k t';
}.

Lemma action_ok_acts s y l l' a :
  acts_le l l' -> action_ok h edge items s y (l !! a) -> action_ok h edge items s y (l' !! a).
Proof.
  intros Hl Ha. destruct (l !! a) as [x|] eqn:Hx; [|done].
  assert (is_conflict x = false) as Hc by by destruct x.
  by rewrite (acts_le_keep _ _ _ _ Hl Hx Hc).
Qed.

Lemma terminal_ok_acts s l l' w v : acts_le l l' -> terminal_ok s l w v -> terminal_ok s l' w v.
Proof. intros Hl (y & a & ? & ? & Ha). exists y, a. split_and!; [done..|by eapply action_ok_acts]. Qed.

Lemma reduce_ok_acts s l l' a : acts_le l l' -> reduce_ok s (l !! a) -> reduce_ok s (l' !! a).
Proof.
  intros Hl (lhs & len & rhs & Ha & Hi). exists lhs, len, rhs.
  by rewrite (acts_le_keep _ _ _ _ Hl Ha eq_refl).
Qed.

(** The invariant of the parts that grow with the list of actions. *)
Lemma table_inv_acts t acts :
  table_inv t -> acts_le (lt_actions t) acts -> table_inv (set_actions acts t).
Proof.
  intros [? ? ? ? ? Hn] Hl. split; try done. intros s nts Hs. destruct (Hn _ _ Hs) as (? & ? & Hk).
  split_and!; [done..|]. intros k v Hkv. destruct (Hk _ _ Hkv) as (a & t' & ? & Ha & ?).
  exists a, t'. split_and!; [done| |done]. by apply (acts_le_keep _ _ _ _ Hl Ha).
Qed.

Definition row_empty_is (t : HLRTable) (s : nat) (b : bool) : Prop := h_lrtable_row_empty t s = Ok b.

Lemma row_empty_parts t s nts m b :
  lt_ntmap t !! s = Some nts -> lt_tmap t !! s = Some m ->
  row_empty_is t s b <-> h_hashtable_empty nts && h_stringmap_empty m = b.
Proof.
  intros Hn Hm. unfold row_empty_is, h_lrtable_row_empty. rewrite Hn, Hm. simpl.
  split; [by intros [= ->]|by intros ->].
Qed.

(** [put_shift] on the row [s]; other rows and the shortcuts stay. *)
Record put_in (s : nat) (t t' : HLRTable) : Prop := {
  pi_inv : table_inv t';
  pi_acts : acts_le (lt_actions t) (lt_actions t');
  pi_forall : lt_forall t' = lt_forall t;
  pi_inadeq : lt_inadeq t' = lt_inadeq t;
  pi_nonempty : row_empty_is t' s false;
  pi_rows : forall s', s' <> s -> lt_ntmap t' !! s' = lt_ntmap t !! s' /\ lt_tmap t' !! s' = lt_tmap t !! s';
  pi_terminal : forall m m' w v, lt_tmap t !! s = Some m -> lt_tmap t' !! s = Some m' ->
    sm_lookup w m' = Some v -> sm_lookup w m = Some v \/ terminal_ok s (lt_actions t') w v;
}.

(** The map of the row is replaced by one that is not empty. *)
Lemma put_terminal s t acts m m' :
  table_inv t -> acts_le (lt_actions t) acts -> lt_tmap t !! s = Some m ->
  h_stringmap_empty m' = false ->
  (forall w v, sm_lookup w m' = Some v -> sm_lookup w m = Some v \/ terminal_ok s acts w v) ->
  put_in s t (set_tmap (<[s := m']> (lt_tmap t)) (set_actions acts t)).
Proof.
  intros Ht Hl Hm He Hv. pose proof (table_inv_acts _ _ Ht Hl) as Ht'.
  pose proof (lookup_lt_Some _ _ _ Hm) as Hlt.
  split; simpl; try done.
  - destruct Ht'. split; simpl; try done. by rewrite length_insert.
  - destruct (lookup_lt_is_Some_2 (lt_ntmap t) s) as [nts Hn];
      [rewrite (ti_ntmap _ Ht), <- (ti_tmap _ Ht); done|].
    apply (row_empty_parts _ s nts m'); simpl; [done|by apply list_lookup_insert_eq|].
    by rewrite He, andb_false_r.
  - intros s' Hs. by rewrite list_lookup_insert_ne.
  - intros m0 m0' w v Hm0 Hm0'. rewrite list_lookup_insert_eq in Hm0' by done. simplify_eq. apply Hv.
Qed.

(** The gotos of the row get a new entry. *)
Lemma put_nonterminal s X next t nts nts' a acts :
  table_inv t -> acts_le (lt_actions t) acts -> acts !! a = Some (HLR_SHIFT next) -> edge s X next ->
  lt_ntmap t !! s = Some nts ->
  h_hashtable_put (h_hash_symbol addr h) (eq_nonnull (h_eq_symbol h)) nts X (Some a) = Ok nts' ->
  put_in s t (set_ntmap (<[s := nts']> (lt_ntmap t)) (set_actions acts t)).
Proof.
  intros Ht Hl Ha He Hn Hput. pose proof (table_inv_acts _ _ Ht Hl) as Ht'.
  pose proof (lookup_lt_Some _ _ _ Hn) as Hlt.
  destruct (ti_nonterminal _ Ht' _ _ Hn) as (Hsh & Hc & Hk).
  destruct (put_counted _ _ (eq_nonnull_null _) _ _ _ _ Hput Hc) as [Hc' He'].
  split; simpl; try done.
  - destruct Ht' as [? ? ? ? ? Hnt]. split; simpl; try done; [by rewrite length_insert|].
    intros s0 nts0 [(<- & <- & _)|[_ Hs0]]%list_lookup_insert_Some; [|by apply Hnt].
    split_and!; [by eapply put_shaped|done|]. intros k v Hkv.
    destruct (put_from _ _ _ _ _ _ (k, v) Hput Hkv) as [[= -> ->]|Hold]; [by exists a, next|by apply Hk].
  - destruct (lookup_lt_is_Some_2 (lt_tmap t) s) as [m Hm];
      [rewrite (ti_tmap _ Ht), <- (ti_ntmap _ Ht); done|].
    apply (row_empty_parts _ s nts' m); simpl; [by apply list_lookup_insert_eq|done|].
    by rewrite He'.
  - intros s' Hs. by rewrite list_lookup_insert_ne.
  - intros m m' w v Hm Hm' Hv. simplify_eq. by left.
Qed.

Lemma put_shift_ok s X next t t' :
  table_inv t -> edge s X next -> (X < length h)%nat ->
  (next = None -> is_choice h X) -> (s < n)%nat ->
  put_shift addr h t s X next = Ok t' -> put_in s t t'.
Proof.
  intros Ht He HX Hn Hs H. unfold put_shift, h_shift_action, new_action in H.
  set (acts := lt_actions t ++ [HLR_SHIFT next]) in *.
  assert (acts_le (lt_actions t) acts) as Hl by apply acts_le_app.
  assert (acts !! length (lt_actions t) = Some (HLR_SHIFT next)) as Ha.
  { subst acts. rewrite lookup_app_r by done. by rewrite Nat.sub_diag. }
  destruct (choice_at_lt h X HX) as (ch & Hch & Ech). rewrite Ech in H. cbn [mbind outcome_bind] in H.
  assert (forall y, is_terminal_type (cf_type ch) = true -> built h X [y] 1 ->
            terminal_ok s acts [y] (V_action (length (lt_actions t)))) as Hterm.
  { intros y Hty Hb. exists y, (length (lt_actions t)). split_and!; [done..|]. rewrite Ha.
    destruct next as [t0|]; [by exists X|]. destruct (Hn eq_refl) as (ch' & seqs & Hx & Hc).
    simplify_eq. by rewrite Hc in Hty. }
  pose proof (grammar_wf_lookup _ _ _ Hh Hch) as Hw. unfold choice_wf in Hw.
  destruct (cf_type ch) as [|seqs|cs|c| | |] eqn:Hty; try done; ok_inv; simplify_eq/=.
  - apply (put_terminal _ _ _ x); try done; [by destruct x as [[e|] en ch' a]|].
    intros w v. unfold h_stringmap_put_end. rewrite lookup_set_end. case_decide; [|by left].
    intros [= <-]. right. subst. apply Hterm; [done|by eapply built_end].
  - by eapply put_nonterminal.
  - by eapply put_nonterminal.
  - apply (put_terminal _ _ _ x); try done.
    + unfold h_stringmap_empty, h_stringmap_put_char, h_stringmap_put_after, set_branch. simpl.
      destruct (sm_char_branches x) as [|[]]; simpl; [|destruct (_ =? _)]; by rewrite !andb_false_r.
    + intros w v. rewrite lookup_put_char by done. destruct w as [|[d|] w]; [by left| |by left].
      case_decide; [|by left]. case_decide; [|done]. intros [= <-]. right. subst.
      apply Hterm; [done|by eapply built_char].
Qed.

(** ** The shifts *)

(** Shifts were put in the rows [srcs]. *)
Record shifted (srcs : list nat) (t : HLRTable) : Prop := {
  sh_inv : table_inv t;
  sh_forall : forall s a, lt_forall t !! s <> Some (Some a);
  sh_inadeq : lt_inadeq t = [];
  sh_terminal : forall s m w v, lt_tmap t !! s = Some m -> sm_lookup w m = Some v ->
    terminal_ok s (lt_actions t) w v;
  sh_nonempty : forall s, s ∈ srcs -> row_empty_is t s false;
}.

Lemma new_table_shifted arena : shifted [] (set_lr_start (Some start) (h_lrtable_new arena n)).
Proof.
  split; simpl; [split; simpl; rewrite ?length_replicate; try done|..].
  - intros s nts [-> _]%lookup_replicate. rewrite new_entries. split_and!; [apply new_shaped| |].
    + unfold counted. by rewrite new_entries.
    + by intros k v ?%not_elem_of_nil.
  - intros s a [? _]%lookup_replicate. done.
  - done.
  - intros s m w v [-> _]%lookup_replicate Hv. by rewrite lookup_new in Hv.
  - by intros s ?%not_elem_of_nil.
Qed.

Lemma put_shift_shifted srcs s X next t t' :
  shifted srcs t -> edge s X next -> (X < length h)%nat ->
  (next = None -> is_choice h X) -> (s < n)%nat ->
  put_shift addr h t s X next = Ok t' -> shifted (srcs ++ [s]) t'.
Proof.
  intros [Hi Hf Hq Hterm Hne] He HX Hn Hs Hput.
  destruct (put_shift_ok _ _ _ _ _ Hi He HX Hn Hs Hput) as [Hi' Hl Hf' Hq' He' Hr Ht].
  split; [done|by rewrite Hf'|by rewrite Hq'|..].
  - intros s0 m w v Hm Hv. destruct (decide (s0 = s)) as [->|Hs0].
    + destruct (lookup_lt_is_Some_2 (lt_tmap t) s) as [m0 Hm0]; [by rewrite (ti_tmap _ Hi)|].
      destruct (Ht _ _ _ _ Hm0 Hm Hv) as [Hv'|]; [|done]. eapply terminal_ok_acts; [done|by eapply Hterm].
    + destruct (Hr _ Hs0) as [_ Hm0]. rewrite Hm0 in Hm. eapply terminal_ok_acts; [done|by eapply Hterm].
  - intros s0 [Hs0| ->%list_elem_of_singleton]%elem_of_app; [|done].
    destruct (decide (s0 = s)) as [->|Hne0]; [done|]. specialize (Hne _ Hs0).
    destruct (Hr _ Hne0) as [E1 E2]. unfold row_empty_is, h_lrtable_row_empty in *. by rewrite E1, E2.
Qed.

(** ** The reductions *)

(** The row of a shortcut is fine, or it is in [bad]. *)
Definition rows_ok (bad : list nat) (t : HLRTable) : Prop :=
  forall s a, lt_forall t !! s = Some (Some a) ->
    s ∈ bad \/ (reduce_ok s (lt_actions t !! a) /\ row_empty_is t s true).

(** [t] is [t0] with reductions. *)
Record reduced (t0 t : HLRTable) : Prop := {
  rd_inv : table_inv t;
  rd_acts : acts_le (lt_actions t0) (lt_actions t);
  rd_ntmap : lt_ntmap t = lt_ntmap t0;
  rd_tmap : lt_tmap t = lt_tmap t0;
}.

Lemma set_forall_inv l t : table_inv t -> length l = n -> table_inv (set_forall l t).
Proof. intros [] Hl. by split. Qed.

Lemma set_inadeq_inv l t : table_inv t -> table_inv (set_inadeq l t).
Proof. intros []. by split. Qed.

Lemma put_reduce_ok t0 i bad it t flag t' flag' :
  items i it -> reduced t0 t -> rows_ok ((if (flag : bool) then [i] else []) ++ bad) t ->
  put_reduce i it (t, flag) = Ok (t', flag') ->
  reduced t0 t' /\ lt_inadeq t' = lt_inadeq t /\ rows_ok ((if flag' then [i] else []) ++ bad) t'.
Proof.
  intros Hit Hrd Hrows H. unfold put_reduce in H.
  destruct (Nat.eqb_spec (it_mark it) (it_len it)) as [Hm|]; [|by simplify_eq].
  unfold h_reduce_action, new_action in H.
  set (a := HLR_REDUCE (it_lhs it) (it_len it) (it_rhs it)) in *.
  assert (reduce_ok i (Some a)) as Ha.
  { do 3 eexists. split; [done|]. destruct it; simpl in *; by subst. }
  apply outcome_bind_ok in H as (old & Hold%deref_ok & H).
  pose proof (lookup_lt_Some _ _ _ Hold) as Hlt.
  (* the new shortcut, and whether it is a conflict *)
  assert (exists c acts b, (match old with
       | Some a0 => '(c, acts) ← h_lr_conflict a0 (length (lt_actions t)) (lt_actions t ++ [a]);
                    Ok (c, acts, true)
       | None => Ok (length (lt_actions t), lt_actions t ++ [a], flag)
       end) = Ok (c, acts, b) /\ acts_le (lt_actions t) acts /\
       (b = true \/ (b = flag /\ old = None /\ reduce_ok i (acts !! c))))
    as (c & acts & b & E & Hl & Hb).
  { destruct old as [a0|].
    - apply outcome_bind_ok in H as ([[c acts] b] & E & _). rewrite E. apply outcome_bind_ok in E as
        ([c0 acts0] & E0 & [= <- <- <-]). apply h_lr_conflict_ok in E0 as [Hl _].
      eexists _, _, true. split_and!; [done| |by left]. etrans; [apply acts_le_app|done].
    - eexists _, _, flag. split_and!; [done|apply acts_le_app|right].
      rewrite lookup_app_r, Nat.sub_diag by done. done. }
  rewrite E in H. cbn [mbind outcome_bind] in H.
  apply outcome_bind_ok in H as (empty & Hempty & [= <- <-]). destruct Hrd as [Hinv Hacts Hnt Htm].
  split_and!; [|done|].
  - split; simpl; [|by etrans|done|done]. apply set_forall_inv; [by apply table_inv_acts|].
    rewrite length_insert. apply Hinv.
  - intros s a0 Hs. simpl in Hs. apply list_lookup_insert_Some in Hs as [(<- & [= <-] & _)|[Hne Hs]].
    + destruct Hb as [->|(-> & -> & Hr)]; [left; simpl; by left|].
      destruct empty; [right; by split|left]. rewrite orb_true_r. by left.
    + destruct (Hrows _ _ Hs) as [Hin|[Hr He]].
      * left. apply elem_of_app in Hin as [Hin|Hin]; [|by apply elem_of_app; right].
        destruct flag; [|by apply not_elem_of_nil in Hin]. by apply list_elem_of_singleton in Hin.
      * right. split; [by eapply reduce_ok_acts|]. done.
Qed.

End Table.

(** * The LR(0) table *)

Section LR0Table.
Context (addr : nat -> Z) (h : list HCFChoice) (start : nat) (dfa : HLRDFA).
Context (Hh : grammar_wf h) (Hcheck : dfa_check h start dfa = true).

Abbreviation edge := (dfa_edge start dfa).
Abbreviation items := (dfa_items dfa).
Abbreviation n := (df_nstates dfa).

Lemma reduce_row_ok t0 i t t' :
  reduced start n edge t0 t -> rows_ok items (lt_inadeq t) t -> reduce_row dfa i t = Ok t' ->
  reduced start n edge t0 t' /\ rows_ok items (lt_inadeq t') t'.
Proof.
  intros Hrd Hrows H. unfold reduce_row in H.
  apply outcome_bind_ok in H as (o & Ho%deref_ok & H). apply outcome_bind_ok in H as (st & ->%deref_ok & H).
  apply outcome_bind_ok in H as ([t1 flag] & H & E). simplify_eq.
  assert (forall it, it ∈ table_keys st -> items i it) as Hit.
  { intros it Hit. unfold dfa_items, state_items. by rewrite Ho. }
  apply (for_each_inv (fun '(t1, flag) => reduced start n edge t0 t1 /\ lt_inadeq t1 = lt_inadeq t /\
    rows_ok items ((if (flag : bool) then [i] else []) ++ lt_inadeq t) t1)) in H; [| |done].
  - destruct H as (Hr1 & Hq & Hrows1). destruct flag; [|by rewrite Hq].
    rewrite Hq. split; [|done]. destruct Hr1. split; try done. by apply set_inadeq_inv.
  - intros it [t2 f2] [t3 f3] Hin (Hr2 & Hq2 & Hrows2) Hput.
    destruct (put_reduce_ok start n edge items t0 i (lt_inadeq t) it t2 f2 t3 f3) as (Hr3 & Hq3 & Hrows3);
      [by apply Hit|done..|]. split_and!; [done|congruence|done].
Qed.

(** What the table generator returns. *)
Record lr0_table_of (t : HLRTable) : Prop := {
  lz_inv : table_inv start n edge t;
  lz_rows : rows_ok items (lt_inadeq t) t;
  lz_terminal : forall s m w v, lt_tmap t !! s = Some m -> sm_lookup w m = Some v ->
    terminal_ok h edge items s (lt_actions t) w v;
  lz_nonempty : forall s X t', edge s X t' -> row_empty_is t s false;
}.

Lemma h_lr0_table_ok arena g t :
  g_start g = Some start -> h_lr0_table addr arena g h dfa = Ok t -> lr0_table_of t.
Proof.
  intros Hg H. destruct (dfa_check_inv _ _ _ Hcheck) as (Hn & _ & _ & _ & _ & Htr & Hst).
  unfold h_lr0_table in H. rewrite Hg in H. cbn [deref mbind outcome_bind] in H.
  apply outcome_bind_ok in H as (t1 & H1 & H). apply outcome_bind_ok in H as (t2 & H2 & H3).
  assert (shifted h start n edge items [0%nat] t1) as Hs1.
  { eapply (put_shift_shifted addr _ _ _ _ _ Hh []); [apply new_table_shifted| | | | |done].
    - by left.
    - by apply is_choice_lt.
    - done.
    - done. }
  assert (shifted h start n edge items ([0%nat] ++ (tn_from <$> df_transitions dfa)) t2) as Hs2.
  { eapply (for_each_done (fun l => shifted h start n edge items ([0%nat] ++ (tn_from <$> l))));
      [|exact Hs1|exact H2].
    intros done_ tr ta tb Hin Hta Hput. rewrite fmap_app, app_assoc. pose proof (Htr _ Hin) as Htc.
    unfold transition_check in Htc.
    apply andb_prop in Htc as [[[[Hf%Nat.ltb_lt _]%andb_prop _]%andb_prop Hs%Nat.ltb_lt]%andb_prop _].
    apply (put_shift_shifted addr _ _ _ _ _ Hh _ _ (tn_symbol tr) (Some (tn_to tr)) ta); try done.
    right. by exists tr. }
  assert (reduced start n edge t2 t /\ rows_ok items (lt_inadeq t) t) as [Hr Hrows].
  { apply (for_each_inv (fun t => reduced start n edge t2 t /\ rows_ok items (lt_inadeq t) t)) in H3;
      [done| |].
    - intros i ta tb _ [Hra Hrb] Hrow. by eapply reduce_row_ok.
    - split; [by split; [apply Hs2|..]|]. intros s a Ha. by apply (sh_forall _ _ _ _ _ _ _ Hs2) in Ha. }
  destruct Hs2 as [_ _ _ Hterm Hne]. destruct Hr as [Hi Hl En Em]. split; [done|done|..].
  - intros s m w v Hm Hv. rewrite Em in Hm. eapply terminal_ok_acts; [done|by eapply Hterm].
  - intros s X t' He. assert (row_empty_is t2 s false) as Hre.
    { apply Hne. destruct He as [(-> & _)|(tr & Hin & <- & _)]; [by left|right].
      by apply list_elem_of_fmap_2. }
    unfold row_empty_is, h_lrtable_row_empty in *. by rewrite En, Em.
Qed.

(** A table whose rows are fine is ready; the heap may have grown. *)
Lemma table_ready h' t :
  table_inv start n edge t ->
  (forall s a, lt_forall t !! s = Some (Some a) ->
     reduce_ok items s (lt_actions t !! a) /\ row_empty_is t s true /\ forall X t', ~ edge s X t') ->
  (forall s m w v, lt_tmap t !! s = Some m -> sm_lookup w m = Some v ->
     terminal_ok h' edge items s (lt_actions t) w v) ->
  lr_table_ok h' start edge items t.
Proof.
  intros Hi Hrows Hterm. destruct (dfa_check_inv _ _ _ Hcheck) as (Hn & _).
  pose proof Hi as [E1 E2 E3 E4 E5 E6]. split; rewrite ?E1; try done.
  - intros s X t' He. by eapply dfa_edge_target.
  - intros s nts Hs. destruct (E6 _ _ Hs) as (? & _ & ?). done.
Qed.

(** A state whose row is empty has no transitions. *)
Lemma lr0_row_stuck t s :
  lr0_table_of t -> row_empty_is t s true -> forall X t', ~ edge s X t'.
Proof. intros Ht He X t' Hed. pose proof (lz_nonempty _ Ht _ _ _ Hed). unfold row_empty_is in *. congruence. Qed.

(** Without conflicts the table is ready. *)
Lemma lr0_table_ready t :
  lr0_table_of t -> lt_inadeq t = [] -> lr_table_ok h start edge items t.
Proof.
  intros Ht Hq. apply table_ready; [apply Ht| |apply Ht].
  intros s a Ha. destruct (lz_rows _ Ht _ _ Ha) as [Hin|[Hr He]];
    [rewrite Hq in Hin; by apply not_elem_of_nil in Hin|].
  split_and!; [done..|by apply (lr0_row_stuck t)].
Qed.

End LR0Table.
