(* ===== verification/LALR.v ===== *)
(** LALR tables (src/src/backends/lalr.c): the LR(0) table, its conflicts
    resolved with the follow sets of the grammar enhanced with the states.

    The enhanced symbols are new choices of the heap. The maps of
    [HLREnhGrammar] are hash tables; the sets that [corr] points at are in
    [eg_sets]. *)

From S2P Require Import Prelude Charset Token Parser HashTable Desugar Grammar StringMap CfGrammar.
From S2P Require Import FirstSets LR LR0.

Record HLREnhGrammar := mkEnhGrammar {
  eg_grammar : option HCFGrammar;
  eg_tmap : HHashTable HLRTransition nat;
  eg_smap : HHashTable nat HLRTransition;
  eg_corr : HHashTable nat nat;
  eg_sets : list (HHashTable nat unit);
}.

(** A value of a table's string map is a pointer to an action. *)
Definition action_of (v : option sm_value) : outcome (option nat) :=
  match v with
  | None => Ok None
  | Some (V_action a) => Ok (Some a)
  | Some _ => Fault OutOfBounds
  end.

Section LALR.
Context (addr : nat -> Z).

(** [h_eq_ptr] and [h_hash_ptr] on choices. *)
Definition hash_ptr (p : nat) : Z := h_hash_ptr (addr p).
Definition eq_ptr (p : nat) (q : option nat) : outcome bool :=
  Ok (match q with Some q => h_eq_ptr (addr p) (addr q) | None => false end).

Definition get_symbol {V} (h : list HCFChoice) (t : HHashTable nat V) (x : nat) : outcome (option V) :=
  h_hashtable_get (h_hash_symbol addr h) (eq_nonnull (h_eq_symbol h)) t x.
Definition get_transition (h : list HCFChoice) (eg : HLREnhGrammar) (t : HLRTransition)
    : outcome (option nat) :=
  h_hashtable_get (h_hash_transition addr h) (eq_nonnull (h_eq_transition h)) (eg_tmap eg) t.
Definition symbol_transition (eg : HLREnhGrammar) (x : nat) : outcome (option HLRTransition) :=
  h_hashtable_get hash_ptr eq_ptr (eg_smap eg) x.

Definition lrtable_lookup (h : list HCFChoice) (table : HLRTable) (state symbol : nat)
    : outcome (option nat) :=
  ch ← choice_at h symbol;
  match cf_type ch with
  | HCF_END =>
      m ← deref OutOfBounds (lt_tmap table !! state);
      action_of (sm_end_branch m)
  | HCF_CHAR c =>
      m ← deref OutOfBounds (lt_tmap table !! state);
      action_of (h_stringmap_get m [c] false)
  | _ =>
      nts ← deref OutOfBounds (lt_ntmap table !! state);
      get_symbol h nts symbol
  end.

Definition follow_transition (h : list HCFChoice) (table : HLRTable) (x A : nat)
    : outcome (option nat) :=
  action ← lrtable_lookup h table x A;
  action ← deref AssertFail action;
  a ← deref NullDeref (lt_actions table !! action);
  match a with
  | HLR_SHIFT nextstate => Ok nextstate
  | _ => Fault AssertFail
  end.

(** The enhanced symbols of a right-hand side from state [i] on. No transition
    of [tmap] goes to the end state. *)
Fixpoint trace_rhs (h : list HCFChoice) (table : HLRTable) (eg : HLREnhGrammar) (i : nat)
    (rhs : list nat) : outcome (list nat) :=
  match rhs with
  | [] => Ok []
  | B :: rhs =>
      j ← follow_transition h table i B;
      j ← deref AssertFail j;
      iBj ← get_transition h eg (mkTransition i B j);
      iBj ← deref AssertFail iBj;
      items ← trace_rhs h table eg j rhs;
      Ok (iBj :: items)
  end.

Definition transform_productions (table : HLRTable) (eg : HLREnhGrammar) (x xAy : nat)
    (h : list HCFChoice) : outcome (list HCFChoice) :=
  ch ← choice_at h xAy;
  match cf_type ch with
  | HCF_CHOICE seq =>
      seq ← for_each (fun items seq => items ← trace_rhs h table eg x items; Ok (seq ++ [items])) seq [];
      Ok (alter (set_type (HCF_CHOICE seq)) xAy h)
  | _ => Ok h
  end.

Definition new_enhanced_symbol (eg : HLREnhGrammar) (sym : nat) (h : list HCFChoice)
    : outcome (nat * HLREnhGrammar * list HCFChoice) :=
  ch ← choice_at h sym;
  let esym := length h in
  let h := h ++ [ch] in
  cs ← get_symbol h (eg_corr eg) sym;
  '(cs, corr, sets) ←
    (match cs with
     | Some cs => Ok (cs, eg_corr eg, eg_sets eg)
     | None =>
         let cs := length (eg_sets eg) in
         corr ← h_hashtable_put (h_hash_symbol addr h) (eq_nonnull (h_eq_symbol h))
                  (eg_corr eg) sym (Some cs);
         Ok (cs, corr, eg_sets eg ++ [h_hashtable_new])
     end);
  set ← deref NullDeref (sets !! cs);
  set ← h_hashtable_put hash_ptr eq_ptr set esym None;
  Ok (esym, mkEnhGrammar (eg_grammar eg) (eg_tmap eg) (eg_smap eg) corr (<[cs := set]> sets), h).

(** The symbol of a transition. *)
Definition enhance_transition (t : HLRTransition) (st : HLREnhGrammar * list HCFChoice)
    : outcome (HLREnhGrammar * list HCFChoice) :=
  let '(eg, h) := st in
  present ← h_hashtable_present (h_hash_transition addr h) (eq_nonnull (h_eq_transition h)) (eg_tmap eg) t;
  _ ← assert_ok (negb present);
  '(sym, eg, h) ← new_enhanced_symbol eg (tn_symbol t) h;
  tmap ← h_hashtable_put (h_hash_transition addr h) (eq_nonnull (h_eq_transition h)) (eg_tmap eg) t
           (Some sym);
  smap ← h_hashtable_put hash_ptr eq_ptr (eg_smap eg) sym (Some t);
  Ok (mkEnhGrammar (eg_grammar eg) tmap smap (eg_corr eg) (eg_sets eg), h).

Definition enhance_grammar `{IterationOrder} (g : HCFGrammar) (dfa : HLRDFA) (table : HLRTable)
    (h : list HCFChoice) : outcome (HLREnhGrammar * list HCFChoice) :=
  let eg := mkEnhGrammar None h_hashtable_new h_hashtable_new h_hashtable_new [] in
  '(eg, h) ← for_each enhance_transition (df_transitions dfa) (eg, h);
  h ← for_each (fun '(t, sym) h =>
        sym ← deref NullDeref sym; transform_productions table eg (tn_from t) sym h)
        (table_entries (eg_tmap eg)) h;
  start ← deref NullDeref (g_start g);
  '(start, eg, h) ← new_enhanced_symbol eg start h;
  h ← transform_productions table eg 0 start h;
  '(gr, h) ← h_cfgrammar_ (g_arena g) h start;
  Ok (mkEnhGrammar (Some gr) (eg_tmap eg) (eg_smap eg) (eg_corr eg) (eg_sets eg), h).

(** * Lookahead *)

Definition has_conflicts (table : HLRTable) : bool := negb (bool_decide (lt_inadeq table = [])).

(** One branch: the new value and whether there was no conflict. *)
Definition put_branch (prev : option sm_value) (action : nat) (acts : list HLRAction)
    : outcome (option sm_value * bool * list HLRAction) :=
  prev ← action_of prev;
  match prev with
  | Some prev =>
      if (prev =? action)%nat then Ok (Some (V_action action), true, acts)
      else '(c, acts) ← h_lr_conflict prev action acts; Ok (Some (V_action c), false, acts)
  | None => Ok (Some (V_action action), true, acts)
  end.

(** The code -1 is the flag false; [fuel] is the depth of [fs]. *)
Fixpoint terminals_put `{IterationOrder} (fuel : nat) (tmap fs : HStringMap) (action : nat)
    (acts : list HLRAction) : outcome (HStringMap * bool * list HLRAction) :=
  match fuel with
  | O => OutOfFuel
  | S fuel =>
      '(tmap, ok, acts) ←
        (if h_stringmap_present_epsilon fs then
           '(v, ok, acts) ← put_branch (sm_epsilon_branch tmap) action acts;
           Ok (set_epsilon v tmap, ok, acts)
         else Ok (tmap, true, acts));
      '(tmap, ok, acts) ←
        (match sm_end_branch fs with
         | Some _ =>
             '(v, ok', acts) ← put_branch (sm_end_branch tmap) action acts;
             Ok (set_end v tmap, ok && ok', acts)
         | None => Ok (tmap, ok, acts)
         end);
      for_each (fun '(key, fs_) '(tmap, ok, acts) =>
        let tmap_ := default (h_stringmap_new (sm_arena tmap)) (branch_get key (sm_char_branches tmap)) in
        '(tmap_, ok', acts) ← terminals_put fuel tmap_ fs_ action acts;
        Ok (set_branch key tmap_ tmap, ok && ok', acts))
        (iter_order (sm_char_branches fs)) (tmap, ok, acts)
  end.

(** The loop of [match_production]; [state] is the end of what was matched. *)
Fixpoint match_production (h : list HCFChoice) (eg : HLREnhGrammar) (p rhs : list nat)
    (endstate state : nat) : outcome bool :=
  match p, rhs with
  | x :: p, y :: rhs =>
      t ← symbol_transition eg x;
      t ← deref AssertFail t;
      same ← h_eq_symbol h (tn_symbol t) y;
      if same : bool then match_production h eg p rhs endstate (tn_to t) else Ok false
  | [], [] => Ok (state =? endstate)%nat
  | _, _ => Ok false
  end.

Definition match_charset_production (h : list HCFChoice) (table : HLRTable) (eg : HLREnhGrammar)
    (lhs rhs endstate : nat) : outcome bool :=
  l ← choice_at h lhs;
  r ← choice_at h rhs;
  match cf_type l, cf_type r with
  | HCF_CHARSET cs, HCF_CHAR c =>
      b ← charset_isset cs c;
      if b : bool then
        t ← symbol_transition eg lhs;
        t ← deref AssertFail t;
        to ← follow_transition h table (tn_from t) rhs;
        Ok (bool_decide (to = Some endstate))
      else Ok false
  | _, _ => Fault AssertFail
  end.

(** The loop over the productions of [sym]. *)
Fixpoint match_some (h : list HCFChoice) (eg : HLREnhGrammar) (seq : list (list nat))
    (rhs : list nat) (endstate : nat) : outcome bool :=
  match seq with
  | [] => Ok false
  | items :: seq =>
      b ← match_production h eg items rhs endstate endstate;
      if b : bool then Ok true else match_some h eg seq rhs endstate
  end.

Definition match_any_production (h : list HCFChoice) (table : HLRTable) (eg : HLREnhGrammar)
    (sym : nat) (rhs : list nat) (endstate : nat) : outcome bool :=
  ch ← choice_at h sym;
  match cf_type ch, rhs with
  | HCF_CHOICE seq, _ => match_some h eg seq rhs endstate
  | HCF_CHARSET _, [r] => match_charset_production h table eg sym r endstate
  | _, _ => Fault AssertFail
  end.

(** What [resolve] changes: the table, the enhanced grammar with the memoised
    sets, and the flag [inadeq]. *)
Abbreviation resolving := (HLRTable * HLREnhGrammar * bool)%type.

(** The contribution of the enhanced left-hand side [lhs] to the lookahead. *)
Definition place_action `{IterationOrder} (h : list HCFChoice) (state : nat) (item : HLRItem)
    (action lhs : nat) (st : resolving) : outcome resolving :=
  let '(table, eg, inadeq) := st in
  b ← match_any_production h table eg lhs (it_rhs item) state;
  if b : bool then
    g ← deref NullDeref (eg_grammar eg);
    '(fs, g) ← h_follow h 1 lhs g;
    _ ← assert_ok (negb (h_stringmap_present_epsilon fs));
    _ ← assert_ok (negb (h_stringmap_empty fs));
    m ← deref OutOfBounds (lt_tmap table !! state);
    '(m, ok, acts) ← terminals_put (sm_depth fs) m fs action (lt_actions table);
    Ok (set_tmap (<[state := m]> (lt_tmap table)) (set_actions acts table),
        mkEnhGrammar (Some g) (eg_tmap eg) (eg_smap eg) (eg_corr eg) (eg_sets eg),
        inadeq || negb ok)
  else Ok (table, eg, inadeq).

Definition resolve_item `{IterationOrder} (h : list HCFChoice) (state : nat) (item : HLRItem)
    (st : resolving) : outcome resolving :=
  if (it_mark item <? it_len item)%nat then Ok st else
  let '(table, eg, inadeq) := st in
  let '(action, acts) := h_reduce_action item (lt_actions table) in
  lhss ← get_symbol h (eg_corr eg) (it_lhs item);
  lhss ← deref AssertFail lhss;
  set ← deref NullDeref (eg_sets eg !! lhss);
  for_each (place_action h state item action) (table_keys set) (set_actions acts table, eg, inadeq).

Definition resolve_state `{IterationOrder} (h : list HCFChoice) (dfa : HLRDFA) (state : nat)
    (st : HLRTable * HLREnhGrammar) : outcome (HLRTable * HLREnhGrammar) :=
  let '(table, eg) := st in
  _ ← deref OutOfBounds (lt_forall table !! state);
  items ← deref OutOfBounds (df_states dfa !! state);
  items ← deref NullDeref items;
  '(table, eg, inadeq) ← for_each (resolve_item h state) (table_keys items)
     (set_forall (<[state := None]> (lt_forall table)) table, eg, false);
  Ok (if inadeq : bool then set_inadeq (state :: lt_inadeq table) table else table, eg).

Definition resolve_conflicts `{IterationOrder} (g : HCFGrammar) (dfa : HLRDFA) (table : HLRTable)
    (h : list HCFChoice) : outcome (HLRTable * list HCFChoice) :=
  '(eg, h) ← enhance_grammar g dfa table h;
  '(table, _) ← for_each (resolve_state h dfa) (lt_inadeq table) (set_inadeq [] table, eg);
  Ok (table, h).

End LALR.

(** The choice [augmented] is the first new one. *)
Definition h_desugar_augmented (fuel : nat) (p : ptr) (st : list HParser) (h : list HCFChoice)
    : outcome (nat * list HParser * list HCFChoice) :=
  '(augmented, s) ← (augmented ← alloc_choice;
                     _ ← put_stk (mkCFStack [] None (Some augmented));
                     _ ← choice_ (
                       _ ← seq_ (_ ← h_desugar fuel true p; mret tt);
                       update_this (set_reshape R_act_first));
                     _ ← h_cfstack_free;
                     mret augmented) (mkDState st h h_cfstack_new);
  Ok (augmented, ds_parsers s, ds_choices s).

(** The code, the table put into [backend_data], and the choices, which live on.
    [fuel] bounds the nesting of parsers, [nstates] the automaton. *)
Definition h_lalr_compile `{IterationOrder} (addr : nat -> Z) (fuel nstates : nat) (p : ptr)
    (st : list HParser) (h : list HCFChoice)
    : outcome (Z * option HLRTable * list HParser * list HCFChoice) :=
  '(valid, st) ← isValidCF fuel p st;
  if valid : bool then
    '(augmented, st, h) ← h_desugar_augmented fuel p st h;
    '(g, h) ← h_cfgrammar_ 0 h augmented;
    '(dfa, h) ← h_lr0_dfa addr nstates g h;
    table ← h_lr0_table addr 1 g h dfa;
    '(table, h) ← (if has_conflicts table then resolve_conflicts addr g dfa table h
                   else Ok (table, h));
    Ok (if has_conflicts table then -1 else 0, Some table, st, h)
  else Ok (-1, None, st, h).
