(* ===== verification/LALRFacts.v ===== *)
(** LALR tables are sound: the code that resolves conflicts only puts reductions
    of items of the state, whatever the lookahead it computes, and a table that
    is returned without conflicts follows the automaton. With LRSound, the parser
    that is compiled accepts only what its grammar derives. *)

From S2P Require Import Prelude Stream Charset Token Parser HashTable Desugar Grammar StringMap.
From S2P Require Import CfGrammar FirstSets FirstFacts Consumed ParseTokens LR HashKeys LRDriver LRSound.
From S2P Require Import Parser Validity DesugarWf DesugarFacts LRBounds Extends LR0Facts DFACheck LR0 LRTableFacts LALR.

(** * Lookahead put into a map *)

(** The value that [terminals_put] puts: the action, or a conflict if [ok] is false. *)
Definition put_value (action : nat) (ok : bool) (acts : list HLRAction) (v : sm_value) : Prop :=
  v = V_action action \/ (ok = false /\ exists c, v = V_action c /\ conflict_at acts c).

Lemma put_value_weaken action ok ok' acts acts' v :
  put_value action ok acts v -> acts_le acts acts' -> put_value action (ok && ok') acts' v.
Proof.
  intros [->|(-> & c & -> & Hc)] Hl; [by left|right]. split; [done|]. exists c.
  split; [done|by eapply acts_le_conflict].
Qed.

Lemma put_branch_ok prev action acts v ok acts' :
  put_branch prev action acts = Ok (v, ok, acts') ->
  acts_le acts acts' /\ exists v', v = Some v' /\ put_value action ok acts' v'.
Proof.
  unfold put_branch. intros H. apply outcome_bind_ok in H as (p & Hp & H). destruct p as [p|].
  - destruct (Nat.eqb_spec p action) as [->|]; simplify_eq.
    + split; [done|]. eexists. split; [done|by left].
    + apply outcome_bind_ok in H as ([c acts1] & Hc & H). simplify_eq.
      apply h_lr_conflict_ok in Hc as [Hl Hc]. split; [done|]. eexists. split; [done|right].
      by eauto.
  - simplify_eq. split; [done|]. eexists. split; [done|by left].
Qed.

(** What is put under the strings of [fs]. *)
Definition puts (action : nat) (fs tmap tmap' : HStringMap) (ok : bool) (acts' : list HLRAction) : Prop :=
  forall w v, sm_lookup w tmap' = Some v ->
    sm_lookup w tmap = Some v \/ (sm_in w fs /\ put_value action ok acts' v).

Lemma puts_after action fs tmap tmap1 tmap2 ok1 ok2 acts1 acts2 :
  puts action fs tmap tmap1 ok1 acts1 -> acts_le acts1 acts2 ->
  (forall w v, sm_lookup w tmap2 = Some v ->
     sm_lookup w tmap1 = Some v \/ (sm_in w fs /\ put_value action ok2 acts2 v)) ->
  puts action fs tmap tmap2 (ok1 && ok2) acts2.
Proof.
  intros H1 Hl H2 w v [Hv|[Hin Hv]]%H2.
  - destruct (H1 _ _ Hv) as [|[Hin Hp]]; [by left|right]. split; [done|by eapply put_value_weaken].
  - right. split; [done|]. rewrite andb_comm. by eapply put_value_weaken.
Qed.

Lemma terminals_put_ok `{IterationOrder} fuel : forall k tmap fs action acts tmap' ok acts',
  sm_wf k fs -> terminals_put fuel tmap fs action acts = Ok (tmap', ok, acts') ->
  acts_le acts acts' /\ puts action fs tmap tmap' ok acts'.
Proof.
  induction fuel as [|fuel IH]; intros k tmap fs action acts tmap' ok acts' Hfs Hp; [done|].
  cbn [terminals_put] in Hp.
  apply outcome_bind_ok in Hp as ([[tmap1 ok1] acts1] & H1 & Hp).
  apply outcome_bind_ok in Hp as ([[tmap2 ok2] acts2] & H2 & Hp).
  assert (acts_le acts acts1 /\ puts action fs tmap tmap1 ok1 acts1) as [Hl1 Hp1].
  { unfold h_stringmap_present_epsilon in H1. case_bool_decide as He.
    - apply outcome_bind_ok in H1 as ([[v ok0] acts0] & Hb & H1). simplify_eq.
      apply put_branch_ok in Hb as (Hl & v' & -> & Hv'). split; [done|]. intros w v.
      rewrite lookup_set_epsilon. case_decide; [|by left]. subst. intros [= <-]. by right.
    - simplify_eq. split; [done|by left]. }
  assert (acts_le acts1 acts2 /\ puts action fs tmap tmap2 ok2 acts2) as [Hl2 Hp2].
  { destruct (sm_end_branch fs) as [e|] eqn:He; [|by simplify_eq].
    apply outcome_bind_ok in H2 as ([[v ok0] acts0] & Hb & H2). simplify_eq.
    apply put_branch_ok in Hb as (Hl & v' & -> & Hv'). split; [done|].
    eapply puts_after; [done..|]. intros w v. rewrite lookup_set_end. case_decide; [|by left]. subst.
    intros [= <-]. right. split; [by exists e|done]. }
  assert (acts_le acts2 acts' /\ puts action fs tmap tmap' ok acts') as [Hl3 Hp3];
    [|split; [by do 2 (etrans; [done|])|done]].
  apply (for_each_inv (fun '(t, o, l) => acts_le acts2 l /\ puts action fs tmap t o l)) in Hp; [done| |done].
  clear Hp. intros [key fs_] [[t3 o3] l3] [[t4 o4] l4] Hin [Hl Hp] Hstep.
  rewrite (iter_order_perm _ (sm_char_branches fs)) in Hin.
  apply outcome_bind_ok in Hstep as ([[t5 o5] l5] & H5 & H6). simplify_eq.
  destruct (branch_of _ _ _ Hfs Hin) as (k' & c & -> & Hc & Hkey & Hwf & Hget). simpl in Hkey, Hwf, Hget.
  destruct (IH _ _ _ _ _ _ _ _ Hwf H5) as [Hl5 Hp5]. split; [by etrans|].
  eapply puts_after; [done..|]. intros w v. rewrite lookup_branch.
  destruct w as [|[d|] w]; [by left| |by left]. case_decide as Hd; [|done].
  destruct (Z.eqb_spec key (char_key d)) as [->|]; [|by left]. rewrite key_char_key in Hkey by done. subst c.
  intros [Hv|[Hv Hpv]]%Hp5; [left|right; split; [by apply (sm_in_cons d _ fs fs_)|done]].
  simpl. rewrite decide_True by done. unfold h_stringmap_get_char.
  destruct (branch_get (char_key d) (sm_char_branches t3)); [done|].
  simpl in Hv. by rewrite lookup_new in Hv.
Qed.

(** * The enhanced grammar *)

Lemma h_cfgrammar_extends `{IterationOrder} arena h s g h' :
  h_cfgrammar_ arena h s = Ok (g, h') -> extends h h'.
Proof.
  unfold h_cfgrammar_. intros Hg. apply outcome_bind_ok in Hg as (nts & _ & Hg).
  case_bool_decide; apply outcome_bind_ok in Hg as (? & _ & Hg); simplify_eq; [apply extends_app|done].
Qed.

Lemma elem_table_keys {K V} (t : HHashTable K V) x :
  x ∈ table_keys t <-> exists v, (x, v) ∈ table_entries t.
Proof.
  unfold table_keys. rewrite list_elem_of_fmap. split; [by intros ([k v] & -> & Hk); exists v|].
  intros [v Hv]. by exists (x, v).
Qed.

(** What holds while symbols are added to the heap [h2]: the values of [tmap]
    are new choices, and the sets of [corr] hold choices. *)
Record enhancing (h2 : list HCFChoice) (eg : HLREnhGrammar) (h : list HCFChoice) : Prop := {
  eh_extends : extends h2 h;
  eh_wf : grammar_wf h;
  eh_tmap : forall t v, (t, v) ∈ table_entries (eg_tmap eg) ->
    exists x, v = Some x /\ (length h2 <= x < length h)%nat;
  eh_sets : forall i set x, eg_sets eg !! i = Some set -> x ∈ table_keys set -> (x < length h)%nat;
}.

Section Enhance.
Context (addr : nat -> Z) (h2 : list HCFChoice).

Lemma new_enhanced_symbol_ok eg sym h esym eg' h' :
  enhancing h2 eg h -> new_enhanced_symbol addr eg sym h = Ok (esym, eg', h') ->
  enhancing h2 eg' h' /\ eg_tmap eg' = eg_tmap eg /\ (length h2 <= esym < length h')%nat /\
  extends h h' /\ exists ch, h !! sym = Some ch /\ h' !! esym = Some ch.
Proof.
  intros [He Hw Ht Hs] H. unfold new_enhanced_symbol in H.
  apply outcome_bind_ok in H as (ch & Hch%deref_ok & H).
  apply outcome_bind_ok in H as (cs & _ & H).
  apply outcome_bind_ok in H as ([[c corr] sets] & Hcs & H).
  apply outcome_bind_ok in H as (set & Hset%deref_ok & H).
  apply outcome_bind_ok in H as (set' & Hput & H). simplify_eq.
  pose proof (extends_length _ _ He) as Hlen.
  assert (forall i set x, sets !! i = Some set -> x ∈ table_keys set -> (x < length h)%nat) as Hsets.
  { destruct cs as [cs|]; [simplify_eq; exact Hs|]. apply outcome_bind_ok in Hcs as (? & _ & Hcs).
    simplify_eq. intros i s0 x [Hi|[_ Hi]]%lookup_app_Some; [by eapply Hs|].
    apply list_lookup_singleton_Some in Hi as [_ <-]. unfold table_keys. rewrite new_entries.
    by intros ?%not_elem_of_nil. }
  split_and!; [|done|rewrite ?length_app; simpl; lia..|apply extends_app|].
  - split; simpl.
    + etrans; [done|apply extends_app].
    + apply grammar_wf_snoc; [done|by eapply grammar_wf_lookup].
    + intros t v Hv. destruct (Ht _ _ Hv) as (x & -> & Hx). exists x. rewrite length_app. simpl. split; [done|lia].
    + rewrite length_app. simpl. intros i s0 x [(<- & <- & _)|[_ Hi]]%list_lookup_insert_Some Hx.
      * apply elem_table_keys in Hx as [v Hx].
        destruct (put_from _ _ _ _ _ _ _ Hput Hx) as [[= -> ->]|Hold]; [lia|].
        assert (x < length h)%nat; [|lia]. eapply Hsets; [exact Hset|]. apply elem_table_keys. by exists v.
      * assert (x < length h)%nat; [by eapply Hsets|lia].
  - exists ch. split; [done|]. rewrite lookup_app_r, Nat.sub_diag by done. done.
Qed.

Lemma enhance_transition_ok t eg h eg' h' :
  enhancing h2 eg h -> enhance_transition addr t (eg, h) = Ok (eg', h') -> enhancing h2 eg' h'.
Proof.
  intros He H. unfold enhance_transition in H.
  apply outcome_bind_ok in H as (p & _ & H). apply outcome_bind_ok in H as (u & _ & H).
  apply outcome_bind_ok in H as ([[sym eg1] h1] & Hnew & H).
  apply outcome_bind_ok in H as (tmap & Hput & H). apply outcome_bind_ok in H as (smap & _ & H).
  simplify_eq. destruct (new_enhanced_symbol_ok _ _ _ _ _ _ He Hnew) as ([H1 H2 H3 H4] & Et & Hsym & _ & _).
  split; simpl; try done. intros t0 v Hv.
  destruct (put_from _ _ _ _ _ _ _ Hput Hv) as [[= -> ->]|Hold]; [by exists sym|by apply (H3 t0)].
Qed.

Lemma trace_rhs_ok table eg h i rhs items :
  enhancing h2 eg h -> trace_rhs addr h table eg i rhs = Ok items ->
  Forall (fun x => (x < length h)%nat) items.
Proof.
  intros He. revert i items. induction rhs as [|B rhs IH]; intros i items H; simpl in H; [by simplify_eq|].
  apply outcome_bind_ok in H as (j & _ & H). apply outcome_bind_ok in H as (j' & _ & H).
  apply outcome_bind_ok in H as (o & Ho & H). apply outcome_bind_ok in H as (x & ->%deref_ok & H).
  apply outcome_bind_ok in H as (items' & Hi & H). simplify_eq. constructor; [|by eapply IH].
  unfold get_transition in Ho. apply get_entry in Ho as (t & Ht & _).
  destruct (eh_tmap _ _ _ He _ _ Ht) as (y & [= <-] & Hy). lia.
Qed.

Lemma transform_productions_ok table eg x xAy h h' :
  enhancing h2 eg h -> (length h2 <= xAy)%nat -> transform_productions addr table eg x xAy h = Ok h' ->
  enhancing h2 eg h' /\ length h' = length h.
Proof.
  intros He Hx H. unfold transform_productions in H.
  apply outcome_bind_ok in H as (ch & Hch%deref_ok & H).
  destruct (cf_type ch) as [|seqs| | | | |] eqn:Hty; simplify_eq; try done.
  apply outcome_bind_ok in H as (seqs' & Hs & H). simplify_eq. pose proof He as [H1 H3 H4 H5].
  assert (Forall (Forall (fun x => (x < length h)%nat)) seqs') as Hwf.
  { eapply (for_each_inv (Forall (Forall (fun x => (x < length h)%nat)))) in Hs; [done| |constructor].
    intros items s s' _ Hf Hstep. apply outcome_bind_ok in Hstep as (it & Hit & Hstep). simplify_eq.
    apply Forall_app. split; [done|]. constructor; [by eapply trace_rhs_ok|constructor]. }
  assert (length (alter (set_type (HCF_CHOICE seqs')) xAy h) = length h) as Hl by apply length_alter.
  split; [|done]. split; rewrite ?Hl; try done; [by apply extends_alter_new|].
  apply grammar_wf_alter; [done|]. intros c _. done.
Qed.

(** The enhanced grammar with its memoised sets, and symbols that are choices. *)
Record enhanced_ok (h : list HCFChoice) (enhanced : nat) (eg : HLREnhGrammar) : Prop := {
  en_grammar : exists g, eg_grammar eg = Some g /\ nts_of h enhanced g /\ analysis_ok h enhanced g;
  en_sets : forall i set x, eg_sets eg !! i = Some set -> x ∈ table_keys set -> (x < length h)%nat;
}.

Lemma enhance_grammar_ok `{IterationOrder} g dfa table eg h :
  grammar_wf h2 -> enhance_grammar addr g dfa table h2 = Ok (eg, h) ->
  extends h2 h /\ grammar_wf h /\ exists enhanced, enhanced_ok h enhanced eg.
Proof.
  intros Hwf He. unfold enhance_grammar in He.
  apply outcome_bind_ok in He as ([eg1 h1] & E1 & He).
  assert (enhancing h2 eg1 h1) as H1.
  { apply (for_each_inv (fun '(eg, h) => enhancing h2 eg h)) in E1; [done|..].
    - intros t [ega ha] [egb hb] _ Ha Hs. by eapply enhance_transition_ok.
    - split; simpl; try done. intros t v. rewrite new_entries. by intros ?%not_elem_of_nil. }
  apply outcome_bind_ok in He as (h3 & E3 & He).
  assert (enhancing h2 eg1 h3) as H3.
  { apply (for_each_inv (fun h => enhancing h2 eg1 h)) in E3; [done| |done].
    intros [t v] ha hb Hin Ha Hs. apply outcome_bind_ok in Hs as (sym & ->%deref_ok & Hs).
    destruct (eh_tmap _ _ _ H1 _ _ Hin) as (x & [= ->] & Hx).
    by apply transform_productions_ok in Hs as [? _]; [|done|lia]. }
  apply outcome_bind_ok in He as (start & _ & He).
  apply outcome_bind_ok in He as ([[start' eg4] h4] & E4 & He).
  destruct (new_enhanced_symbol_ok _ _ _ _ _ _ H3 E4) as (H4 & _ & Hs & _).
  apply outcome_bind_ok in He as (h5 & E5 & He).
  destruct (transform_productions_ok _ _ _ _ _ _ H4 (proj1 Hs) E5) as [H5 Hl5].
  apply outcome_bind_ok in He as ([gr h6] & E6 & He). simplify_eq. destruct H5 as [He5 Hw5 _ Hs5].
  destruct (h_cfgrammar_ok (g_arena g) h5 start') as (gr' & h' & enhanced & G & E & Hg);
    [done|lia|]. rewrite E6 in E. injection E as <- <-.
  apply h_cfgrammar_extends in E6. destruct (cfgrammar_of_analysis _ _ _ _ _ _ _ Hg) as [Hn Ha].
  split_and!; [by etrans|apply Hg|]. exists enhanced. split; [by exists gr|].
  simpl. intros i set x Hi Hx. apply extends_length in E6. specialize (Hs5 _ _ _ Hi Hx). lia.
Qed.

End Enhance.

(** * Resolving the conflicts of a state *)

Section Resolve.
Context `{IterationOrder} (addr : nat -> Z) (h : list HCFChoice) (start enhanced : nat) (dfa : HLRDFA).
Context (Hh : grammar_wf h).

Abbreviation edge := (dfa_edge start dfa).
Abbreviation items := (dfa_items dfa).
Abbreviation n := (df_nstates dfa).

(** The row [s] of [t1] is being filled; [flag] says that it has a conflict. *)
Record filling_row (s : nat) (t1 t : HLRTable) (flag : bool) : Prop := {
  fr_inv : table_inv start n edge t;
  fr_acts : acts_le (lt_actions t1) (lt_actions t);
  fr_ntmap : lt_ntmap t = lt_ntmap t1;
  fr_forall : lt_forall t = lt_forall t1;
  fr_inadeq : lt_inadeq t = lt_inadeq t1;
  fr_tmap : forall s', s' <> s -> lt_tmap t !! s' = lt_tmap t1 !! s';
  fr_row : forall m w v, lt_tmap t !! s = Some m -> sm_lookup w m = Some v ->
    flag = true \/ terminal_ok h edge items s (lt_actions t) w v;
}.

Lemma place_action_ok b s t1 it a lhs t eg flag t' eg' flag' :
  filling_row s t1 t (b || flag) -> enhanced_ok h enhanced eg -> (lhs < length h)%nat ->
  lt_actions t !! a = Some (HLR_REDUCE (it_lhs it) (it_len it) (it_rhs it)) ->
  items s (mkItem (it_lhs it) (it_rhs it) (it_len it) (it_len it)) ->
  place_action addr h s it a lhs (t, eg, flag) = Ok (t', eg', flag') ->
  filling_row s t1 t' (b || flag') /\ enhanced_ok h enhanced eg' /\ acts_le (lt_actions t) (lt_actions t') /\
  eg_sets eg' = eg_sets eg.
Proof.
  intros Hfr Heg Hlhs Ha Hit Hp. unfold place_action in Hp.
  apply outcome_bind_ok in Hp as (matches & _ & Hp). destruct matches; [|by simplify_eq].
  destruct (en_grammar _ _ _ Heg) as (g & Eg & Hn & Hg). rewrite Eg in Hp. cbn [deref mbind outcome_bind] in Hp.
  destruct (h_follow_ok h enhanced Hh 1 lhs g) as (fs & g' & E & Hg' & Hgr & Hwf & Hs); [done..|].
  rewrite E in Hp. cbn [mbind outcome_bind] in Hp.
  apply outcome_bind_ok in Hp as (u1 & Heps%assert_ok_inv & Hp).
  apply outcome_bind_ok in Hp as (u2 & _ & Hp). apply outcome_bind_ok in Hp as (m & Hm%deref_ok & Hp).
  apply outcome_bind_ok in Hp as ([[m' ok] acts] & Hput & Hp). simplify_eq.
  destruct (terminals_put_ok _ _ _ _ _ _ _ _ _ Hwf Hput) as [Hl Hputs].
  destruct Hfr as [Hinv Hacts Hnt Hf Hq Htm Hrow]. pose proof (lookup_lt_Some _ _ _ Hm) as Hlt.
  assert (forall w, sm_in w fs -> exists y, w = [y]) as Hone.
  { intros w Hw. destruct (Hs _ Hw) as (ctx & _ & [Hcut _] & _). destruct w as [|y [|]]; simpl in Hcut.
    - unfold h_stringmap_present_epsilon in Heps. by rewrite bool_decide_true in Heps.
    - by exists y.
    - lia. }
  pose proof (table_inv_acts _ _ _ _ _ Hinv Hl) as Hinv'. split_and!; [|split|done|done].
  - split; simpl; try done; [|by etrans|..].
    + destruct Hinv'. split; simpl; try done. by rewrite length_insert.
    + intros s' Hs'. rewrite list_lookup_insert_ne by done. by apply Htm.
    + intros m0 w v Hm0 Hv. rewrite list_lookup_insert_eq in Hm0 by done. simplify_eq.
      destruct (Hputs _ _ Hv) as [Hold|[Hin [->|(-> & _)]]].
      * destruct (Hrow _ _ _ Hm Hold) as [Hfl|Hok]; [left; by rewrite orb_assoc, Hfl|right].
        by eapply terminal_ok_acts.
      * right. destruct (Hone _ Hin) as [y ->]. exists y, a. split_and!; [done..|].
        by rewrite (acts_le_keep _ _ _ _ Hl Ha eq_refl).
      * left. by rewrite !orb_true_r.
  - exists g'. split_and!; [done| |done]. by eapply nts_of_grows.
  - simpl. intros i set x Hset Hx. by eapply (en_sets _ _ _ Heg).
Qed.

Lemma resolve_item_ok b s t1 it t eg flag t' eg' flag' :
  filling_row s t1 t (b || flag) -> enhanced_ok h enhanced eg -> items s it -> (it_mark it <= it_len it)%nat ->
  resolve_item addr h s it (t, eg, flag) = Ok (t', eg', flag') ->
  filling_row s t1 t' (b || flag') /\ enhanced_ok h enhanced eg'.
Proof.
  intros Hfr Heg Hit Hm Hr. unfold resolve_item in Hr.
  destruct (Nat.ltb_spec (it_mark it) (it_len it)); [by simplify_eq|].
  assert (it_mark it = it_len it) as Emark by lia.
  unfold h_reduce_action, new_action in Hr. set (red := HLR_REDUCE _ _ _) in *.
  set (acts := lt_actions t ++ [red]) in *.
  assert (acts_le (lt_actions t) acts) as Hl by apply acts_le_app.
  assert (acts !! length (lt_actions t) = Some red) as Hred.
  { subst acts. rewrite lookup_app_r by done. by rewrite Nat.sub_diag. }
  apply outcome_bind_ok in Hr as (o & _ & Hr). apply outcome_bind_ok in Hr as (lhss & _ & Hr).
  apply outcome_bind_ok in Hr as (set & Hset%deref_ok & Hr).
  apply (for_each_inv (fun '(t, eg', flag) => filling_row s t1 t (b || flag) /\ enhanced_ok h enhanced eg' /\
    acts_le acts (lt_actions t) /\ eg_sets eg' = eg_sets eg)) in Hr; [by destruct Hr as (? & ? & _)|..].
  - intros lhs [[t2 eg2] f2] [[t3 eg3] f3] Hin (Hf2 & He2 & Hl2 & Es2) Hp.
    eapply place_action_ok in Hp as (Hf3 & He3 & Hl3 & Es3); try done.
    + split_and!; [done|done|by etrans|congruence].
    + by eapply (en_sets _ _ _ Heg).
    + by apply (acts_le_keep _ _ _ _ Hl2 Hred).
    + by destruct it; simpl in *; subst.
  - split_and!; try done. destruct Hfr as [Hinv Hacts ? ? ? ? Hrow]. split; simpl; try done.
    + by apply table_inv_acts.
    + by etrans.
    + intros m w v Hmm Hv. destruct (Hrow _ _ _ Hmm Hv) as [->|]; [by left|right].
      by eapply terminal_ok_acts.
Qed.

(** Rows of [todo] still have their shortcuts, rows of [lt_inadeq] conflicts. *)
Record resolved (todo : list nat) (t : HLRTable) : Prop := {
  rs_inv : table_inv start n edge t;
  rs_rows : forall s a, lt_forall t !! s = Some (Some a) -> s ∈ todo \/
    (reduce_ok items s (lt_actions t !! a) /\ row_empty_is t s true /\ forall X t', ~ edge s X t');
  rs_terminal : forall s m w v, lt_tmap t !! s = Some m -> sm_lookup w m = Some v ->
    s ∈ lt_inadeq t \/ terminal_ok h edge items s (lt_actions t) w v;
}.

Lemma resolve_state_ok s todo t eg t' eg' :
  (forall s it, items s it -> (it_mark it <= it_len it)%nat) -> resolved (s :: todo) t -> enhanced_ok h enhanced eg ->
  resolve_state addr h dfa s (t, eg) = Ok (t', eg') ->
  resolved todo t' /\ enhanced_ok h enhanced eg'.
Proof.
  intros Hmark [Hinv Hrows Hterm] Heg Hr. unfold resolve_state in Hr.
  apply outcome_bind_ok in Hr as (f & Hf%deref_ok & Hr). apply lookup_lt_Some in Hf.
  apply outcome_bind_ok in Hr as (o & Ho%deref_ok & Hr).
  apply outcome_bind_ok in Hr as (st & ->%deref_ok & Hr).
  apply outcome_bind_ok in Hr as ([[t2 eg2] flag] & Hr & E). simplify_eq.
  set (t1 := set_forall (<[s := None]> (lt_forall t)) t) in *.
  assert (table_inv start n edge t1) as Hinv1.
  { apply set_forall_inv; [done|]. rewrite length_insert. apply Hinv. }
  apply (for_each_inv (fun '(t2, eg2, flag) => filling_row s t1 t2 (bool_decide (s ∈ lt_inadeq t) || flag) /\
    enhanced_ok h enhanced eg2)) in Hr.
  - destruct Hr as [[Hi2 Hl2 Hnt2 Hf2 Hq2 Htm2 Hrow2] He2]. split; [|done].
    set (t3 := if flag : bool then set_inadeq (s :: lt_inadeq t2) t2 else t2).
    assert (lt_inadeq t3 = if flag then s :: lt_inadeq t else lt_inadeq t) as Eq
      by (subst t3; destruct flag; simpl; by rewrite Hq2).
    assert (table_inv start n edge t3) as Hi3 by (subst t3; destruct flag; [by apply set_inadeq_inv|done]).
    assert (lt_actions t3 = lt_actions t2 /\ lt_forall t3 = <[s := None]> (lt_forall t) /\
      lt_tmap t3 = lt_tmap t2 /\ lt_ntmap t3 = lt_ntmap t) as (Ea & Ef & Et & En)
      by (subst t3; destruct flag; simpl; by rewrite ?Hf2, ?Hnt2).
    split; [done|..].
    + intros s0 a Hs0. rewrite Ef in Hs0. apply list_lookup_insert_Some in Hs0 as [(_ & ? & _)|[Hne Hs0]];
        [done|]. destruct (Hrows _ _ Hs0) as [Hin|(Hred & Hemp & Hno)].
      * apply elem_of_cons in Hin as [->|]; [done|by left].
      * right. split_and!; [rewrite Ea; by eapply reduce_ok_acts| |done].
        unfold row_empty_is, h_lrtable_row_empty in *. by rewrite En, Et, (Htm2 s0) by done.
    + intros s0 m w v Hm Hv. rewrite Ea, Eq, Et in *. destruct (decide (s0 = s)) as [->|Hne].
      * destruct (Hrow2 _ _ _ Hm Hv) as [[Hin%bool_decide_eq_true| ->]%orb_prop|]; [left|left; by left|by right].
        destruct flag; [by right|done].
      * rewrite Htm2 in Hm by done. destruct (Hterm _ _ _ _ Hm Hv) as [Hin|Hok].
        -- left. destruct flag; [by right|done].
        -- right. by eapply terminal_ok_acts.
  - intros it [[ta ega] fa] [[tb egb] fb] Hin [Hfa Hea] Hri.
    assert (items s it) as Hit by (unfold dfa_items, state_items; by rewrite Ho).
    eapply resolve_item_ok; [done..| |done]. by eapply Hmark.
  - split; [|done]. split; simpl; try done. intros m w v Hm Hv.
    destruct (Hterm _ _ _ _ Hm Hv) as [Hin|]; [left|by right]. by rewrite bool_decide_true.
Qed.

End Resolve.

(** * The table *)

Lemma resolve_states_ok `{IterationOrder} addr h start enhanced dfa l t eg t' eg' :
  grammar_wf h -> (forall s it, dfa_items dfa s it -> (it_mark it <= it_len it)%nat) ->
  resolved h start dfa l t -> enhanced_ok h enhanced eg ->
  for_each (resolve_state addr h dfa) l (t, eg) = Ok (t', eg') -> resolved h start dfa [] t'.
Proof.
  intros Hh Hmark. revert t eg. induction l as [|s l IH]; intros t eg Hr He H0; simpl in H0; [by simplify_eq|].
  apply outcome_bind_ok in H0 as ([t1 eg1] & H1 & H0).
  destruct (resolve_state_ok addr h start enhanced dfa Hh s l t eg t1 eg1) as [Hr1 He1]; [done..|].
  by eapply IH.
Qed.

Lemma resolve_conflicts_ok `{IterationOrder} addr g start dfa t t' h h' :
  grammar_wf h -> dfa_check h start dfa = true -> lr0_table_of h start dfa t ->
  resolve_conflicts addr g dfa t h = Ok (t', h') ->
  extends h h' /\ grammar_wf h' /\
  (lt_inadeq t' = [] -> lr_table_ok h' start (dfa_edge start dfa) (dfa_items dfa) t').
Proof.
  intros Hh Hc Ht H0. unfold resolve_conflicts in H0.
  apply outcome_bind_ok in H0 as ([eg h1] & E1 & H0).
  apply outcome_bind_ok in H0 as ([t1 eg1] & E2 & H0). simplify_eq.
  apply enhance_grammar_ok in E1 as (He & Hw & enhanced & Heg); [|done]. split_and!; [done..|].
  destruct (dfa_check_inv _ _ _ Hc) as (_ & _ & Hitem & _).
  eapply resolve_states_ok in E2 as [Hi Hrows Hterm]; [|done| |clear E2|exact Heg].
  - intros Hq. apply (table_ready h); [done..| |].
    + intros s a Ha. by destruct (Hrows _ _ Ha) as [?%not_elem_of_nil|].
    + intros s m w v Hm Hv. destruct (Hterm _ _ _ _ Hm Hv) as [Hin|]; [|done].
      rewrite Hq in Hin. by apply not_elem_of_nil in Hin.
  - intros s it Hit%Hitem. unfold item_check in Hit.
    by apply andb_prop in Hit as [[_ ?%Nat.leb_le]%andb_prop _].
  - split; [by apply set_inadeq_inv, Ht|..].
    + intros s a Ha. destruct (lz_rows _ _ _ _ Ht _ _ Ha) as [|[Hr Hemp]]; [by left|right].
      split_and!; [done..|]. by eapply lr0_row_stuck.
    + intros s m w v Hm Hv. right.
      destruct (lz_terminal _ _ _ _ Ht _ _ _ _ Hm Hv) as (y & a & ? & ? & Ha).
      exists y, a. split_and!; [done..|]. by eapply action_ok_extends.
Qed.

(** * The parser *)

Lemma h_desugar_augmented_wf fuel p st h c st' h' :
  heap_ok h -> parsers_ok (length h) st -> h_desugar_augmented fuel p st h = Ok (c, st', h') ->
  h `prefix_of` h' /\ heap_ok h' /\ (c < length h')%nat.
Proof.
  intros Hh Hst H0. apply outcome_bind_ok in H0 as ([c0 s] & H0 & E). simplify_eq.
  destruct (augmented_runs h fuel p _ (desugar_start h st Hh Hst) eq_refl _ _ H0) as (_ & Hs & Hok & Hc).
  split; [apply Hs|done].
Qed.

Lemma h_lalr_compile_inv `{IterationOrder} addr fuel nstates p st h table st' h' :
  isValidCF fuel p st = Ok (true, st) ->
  h_lalr_compile addr fuel nstates p st h = Ok (0, Some table, st', h') ->
  exists c h0 g h1 dfa h2 t,
    h_desugar_augmented fuel p st h = Ok (c, st', h0) /\ h_cfgrammar_ 0 h0 c = Ok (g, h1) /\
    h_lr0_dfa addr nstates g h1 = Ok (dfa, h2) /\ h_lr0_table addr 1 g h2 dfa = Ok t /\
    lt_inadeq table = [] /\
    ((t = table /\ h2 = h') \/ resolve_conflicts addr g dfa t h2 = Ok (table, h')).
Proof.
  intros Hv H0. unfold h_lalr_compile in H0. rewrite Hv in H0. cbn [mbind outcome_bind] in H0.
  apply outcome_bind_ok in H0 as ([[c st1] h0] & E0 & H0).
  apply outcome_bind_ok in H0 as ([g h1] & E1 & H0).
  apply outcome_bind_ok in H0 as ([dfa h2] & E2 & H0). apply outcome_bind_ok in H0 as (t & E3 & H0).
  apply outcome_bind_ok in H0 as ([t' h3] & E4 & H0).
  destruct (has_conflicts t') eqn:Hc; [done|]. simplify_eq.
  unfold has_conflicts in Hc. apply negb_false_iff, bool_decide_eq_true in Hc.
  exists c, h0, g, h1, dfa, h2, t. split_and!; try done.
  destruct (has_conflicts t); [by right|left; by simplify_eq].
Qed.

(** The table is ready. *)
Lemma h_lalr_table_ok `{IterationOrder} addr g start dfa h t table h' :
  grammar_wf h -> dfa_check h start dfa = true -> g_start g = Some start ->
  h_lr0_table addr 1 g h dfa = Ok t -> lt_inadeq table = [] ->
  (t = table /\ h = h') \/ resolve_conflicts addr g dfa t h = Ok (table, h') ->
  extends h h' /\ lr_table_ok h' start (dfa_edge start dfa) (dfa_items dfa) table.
Proof.
  intros Hh Hc Hg Ht Hq Hor. eapply h_lr0_table_ok in Ht; [|done..].
  destruct Hor as [[-> ->]|Hr].
  - split; [done|]. by apply lr0_table_ready.
  - eapply resolve_conflicts_ok in Hr as (He & _ & Hok); [|done..]. auto.
Qed.

(** What a successful compilation leaves. *)
Lemma h_lalr_compiled `{IterationOrder} addr fuel nstates p st h table st' h' :
  heap_ok h -> parsers_ok (length h) st -> isValidCF fuel p st = Ok (true, st) ->
  h_lalr_compile addr fuel nstates p st h = Ok (0, Some table, st', h') ->
  exists c h0 g start h1 dfa h2,
    h_desugar_augmented fuel p st h = Ok (c, st', h0) /\ h_cfgrammar_ 0 h0 c = Ok (g, h1) /\
    g_start g = Some start /\ h_lr0_dfa addr nstates g h1 = Ok (dfa, h2) /\ h `prefix_of` h0 /\
    (none_freed h0 = true -> dfa_check h2 start dfa = true ->
     lr_automaton h' start (dfa_edge start dfa) (dfa_items dfa) /\
     lr_table_ok h' start (dfa_edge start dfa) (dfa_items dfa) table /\
     forall w, derives h' start w -> derives h0 c w).
Proof.
  intros Hh Hst Hv Hcomp.
  destruct (h_lalr_compile_inv _ _ _ _ _ _ _ _ _ Hv Hcomp)
    as (c & h0 & g & h1 & dfa & h2 & t & E0 & E1 & E2 & E3 & Hq & Hor).
  destruct (h_desugar_augmented_wf _ _ _ _ _ _ _ Hh Hst E0) as (Hp & Hok & Hc).
  clear Hcomp.
  assert (exists start, g_start g = Some start) as [start Hg].
  { apply outcome_bind_ok in E2 as (start & Hg%deref_ok & _). by exists start. }
  exists c, h0, g, start, h1, dfa, h2. split_and!; try done. intros Hfree Hcheck.
  pose proof (heap_ok_grammar_wf _ Hok Hfree) as Hw0.
  destruct (h_cfgrammar_ok 0 h0 c Hw0 Hc) as (g' & h1' & start' & G & E & Hcg).
  rewrite E1 in E. injection E as <- <-.
  assert (start' = start) as ->.
  { pose proof (cg_grammar _ _ _ _ _ _ _ Hcg) as Eg. rewrite Eg in Hg. by injection Hg. }
  destruct (h_lr0_dfa_grown _ _ _ _ _ _ E2) as [He12 Hw2]. specialize (Hw2 (cg_wf _ _ _ _ _ _ _ Hcg)).
  destruct (h_lalr_table_ok addr g start dfa h2 t table h' Hw2 Hcheck Hg E3 Hq Hor) as [He23 Htab].
  split_and!; [by eapply lr_automaton_extends, dfa_check_automaton|done|].
  intros w Hd. apply (cg_language _ _ _ _ _ _ _ Hcg).
  apply (derives_extends h1 h'); [apply Hcg|by etrans| |done].
  apply is_choice_lt, (cg_nts _ _ _ _ _ _ _ Hcg).
  pose proof (cg_head _ _ _ _ _ _ _ Hcg) as Hhd. destruct (g_nts g); [done|]. simplify_eq/=. by left.
Qed.

(** The actions and validations of a symbol return. *)
Definition callbacks_end (ch : HCFChoice) : Prop :=
  (forall a, cf_action ch = Some a -> forall r u, ends (a r u)) /\
  (forall f, cf_pred ch = Some f -> forall r u, ends (f r u)).

Lemma lr_process_ends uninit ch tok : callbacks_end ch -> ends (lr_process uninit ch tok).
Proof.
  intros [Ha Hp]. unfold lr_process. apply ends_bind.
  { destruct (cf_reshape ch); [|done]. apply ends_bind; [apply reshape_action_ends|auto with ends]. }
  intros v _. apply ends_bind; [destruct (cf_pred ch); [by apply Hp|done]|]. intros [] _; [|done].
  apply ends_bind; [destruct (cf_action ch); [by apply Ha|done]|auto with ends].
Qed.

(** What a parse of the whole input does within [more] rounds. A result is the
    token of a string of [L]. A fault comes from a callback of a symbol that the
    automaton reduces, on the token of that symbol for the last bytes read, and
    not from a reshape function when those fit the grammar. When no production
    is empty and there is no cycle of units, the rounds are bounded by the input. *)
Definition lr_answers (L : list symbol -> Prop) (addr : nat -> Z) (h : list HCFChoice) (table : HLRTable)
    (uninit : Z) (start : nat) (items : nat -> HLRItem -> Prop) (stream : HInputStream) (more : nat) : Prop :=
  match h_lr_parse addr h table uninit more stream with
  | Ok (Some r) =>
      exists w left_, L w /\ made h uninit true start (ast r) w /\ consumed (is_input stream) left_ w /\
        bit_length r = 8 * (is_length stream - Z.of_nat (length left_))
  | Ok None => True
  | Fault f =>
      callback_fault h uninit true (is_reduced items) (is_input stream) f /\
      (reshapes_fit h true (is_reduced items) -> user_fault h uninit true (is_reduced items) (is_input stream) f)
  | OutOfFuel => forall rank R, size_check rank R h = true ->
      (more <= lr_bound (is_input stream) (2 * S R) 2)%nat
  end.

Lemma lr_table_answers L addr h start edge items table uninit stream more :
  lr_automaton h start edge items -> lr_table_ok h start edge items table -> Forall callbacks_end h ->
  (forall w, derives h start w -> L w) ->
  stream_wf stream -> is_index stream = 0 -> is_bit_offset stream = 0 -> is_margin stream = 0 ->
  is_overrun stream = false -> is_last_chunk stream = true -> is_pos stream = 0 ->
  lr_answers L addr h table uninit start items stream more.
Proof.
  intros Hauto Htab Hcb HL Hwf Hi Hb Hm Ho Hl Hpos. unfold lr_answers.
  pose proof (h_lr_parse_ok addr h start _ _ Hauto uninit table (is_input stream) Htab
    (fun x ch tok Hx => lr_process_ends uninit ch tok (proj1 (Forall_lookup _ _) Hcb _ _ Hx)) more stream
    Hwf eq_refl Hi Hb Hm Ho Hl Hpos) as Hres.
  destruct (h_lr_parse addr h table uninit more stream) as [[r|]|f|]; simpl in Hres; try done.
  - destruct Hres as (w & left_ & Hd & Hcons & Hlen). exists w, left_.
    split_and!; [by eapply HL, made_derives|done..|by rewrite (wf_length _ Hwf)].
  - split; [done|]. intros Hfit. by apply fits_user_fault.
  - destruct Hres as (e & w & He). intros rank R Hsz.
    eapply engine_rounds; [..|exact He]; [intros; by eapply built_size|intros; by eapply path_depth].
Qed.

(** The symbols that the automaton reduces are those of its heap. *)
Lemma is_reduced_lt h start dfa x :
  dfa_check h start dfa = true -> is_reduced (dfa_items dfa) x -> (x < length h)%nat.
Proof.
  intros Hc (s & rhs & len & Hit). pose proof (dfa_check_automaton h start dfa Hc) as Hauto.
  destruct (la_item _ _ _ _ Hauto _ _ Hit) as (_ & _ & ch & Hx & _). by eapply lookup_lt_Some.
Qed.


(** E -> E - D | D, with the digits 0 and 1. *)
Definition arithmetic : PM ptr :=
  e ← h_indirect__m; d ← h_ch_range__m 48 49; m ← h_ch__m 45;
  s ← h_sequence__mv e [m; d; None]; c ← h_choice__mv s [d; None];
  _ ← h_bind_indirect e c; mret e.
Definition arithmetic_store : list HParser :=
  match arithmetic initial_store with Ok (_, st) => st | _ => [] end.
Definition aligned (x : nat) : Z := 16 * (Z.of_nat x + 10).
Definition arithmetic_input : HInputStream := mkStream [49; 45; 48; 45; 49] 0 0 5 0 0 0 false true.

Lemma arithmetic_parsers_ok : parsers_ok 0 arithmetic_store.
Proof.
  let st := eval vm_compute in arithmetic_store in change (parsers_ok 0 st).
  repeat (constructor; [split; [|done]|]); try constructor; try done. repeat constructor; lia.
Qed.

Lemma arithmetic_input_wf : stream_wf arithmetic_input.
Proof. split; simpl; try lia; by repeat constructor. Qed.

