(* ===== verification/CompileLang.v ===== *)
(** From parsers to tables: what h_llk_compile and h_lalr_compile make of a parser
    recognises the language of its combinators. The steps are composed here:
    isValidCF, h_desugar (DesugarLang), h_cfgrammar, the table and the driver
    (LLkFacts, LALRFacts). *)

From S2P Require Import Prelude Stream ByteStream Charset CArray Token Parser Validity Desugar Grammar DesugarWf DesugarFacts.
From S2P Require Import DesugarLang StringMap CfGrammar FirstSets FirstFacts Consumed LLkTable LLkTableFacts LLk ParseTokens LLkFacts.
From S2P Require Import LR LRDriver LRSound LRBounds LR0 Extends DFACheck LRTableFacts LALR LALRFacts.

(** * isValidCF *)

Lemma forall_ptr_all_yes (rec : ptr -> PM bool) ps st :
  Forall (fun p => yes (rec p) st) ps -> yes (forall_ptr rec ps) st.
Proof.
  induction 1 as [|p ps Hp _ IH]; [done|]. exact (and_then_yes_2 (rec p) (forall_ptr rec ps) st Hp IH).
Qed.

Lemma vt_isValidCF_yes rec a e st0 st :
  supported st0 e -> Forall (fun p => yes (rec p) st) (children e) -> yes (vt_isValidCF rec a e) st.
Proof.
  intros Hs He. destruct e; try done; cbn [children vt_isValidCF] in *; try (by apply forall_ptr_all_yes);
    try exact (Forall_inv He).
  apply Forall_cons_1 in He as [Hp Hsep]. apply and_then_yes_2; [done|].
  destruct (rp_sep r); [exact (Forall_inv Hsep)|done].
Qed.

Lemma isValidCF_desugarable st a fuel :
  desugarable st a -> (a < fuel)%nat -> isValidCF fuel (Some a) st = Ok (true, st).
Proof.
  revert fuel. induction a as [a IH] using lt_wf_ind; intros [|fuel] Ha Hf; [lia|].
  destruct (desugarable_lookup st a Ha) as [q Hq]. rewrite (isValidCF_unfold _ _ _ _ Hq).
  destruct (desugarable_inv st a q Ha Hq) as [Hs Hc]. apply (vt_isValidCF_yes _ _ _ st); [done|].
  eapply list.Forall_impl; [exact Hc|]. intros p (b & -> & Hb & Hdb). apply IH; [done..|lia].
Qed.

(** * The desugaring of lalr.c *)

Lemma augmented_ready st h n :
  grammar_wf h -> memoised st st h n ->
  ready st n n (mkDState st (h ++ [uninit_choice]) (mkCFStack [] None (Some (length h)))).
Proof.
  intros Hh Hm. pose proof (start_ready st h n Hh Hm) as Hr. set (s := mkDState st h h_cfstack_new) in *.
  set (s1 := mkDState _ _ _).
  assert (length (ds_choices s1) = S (length h)) as Hl by (simpl; rewrite length_app; simpl; lia).
  assert (forall x, closed s1 x <-> closed s x) as Hcl.
  { intros x. unfold closed. rewrite Hl. simpl. split; intros (H1 & H2 & H3); (split_and!; [|done|]); try done; try lia.
    - destruct (decide (x = length h)) as [->|]; [done|lia].
    - intros [= E]. lia. }
  apply (ready_more st n n s); try done.
  - intros x Hx. split; [by apply Hcl|]. unfold typ. simpl. rewrite lookup_app_l; [done|]. apply Hx.
  - by split; constructor.
  - intros c [= <-]. rewrite Hl. split; [lia|apply not_elem_of_nil].
  - intros c t Hc%Hcl _. by left.
Qed.

Lemma h_desugar_augmented_language fuel a st h :
  desugarable st a -> (a < fuel)%nat -> grammar_wf h -> memoised st st h (S a) ->
  exists st' h', h_desugar_augmented fuel (Some a) st h = Ok (length h, st', h') /\
    derives h' (length h) ≡ₗ parser_language st (S a) (Some a) /\ memoised st st' h' (S a) /\ none_freed h' = true.
Proof.
  intros Hda Hf Hh Hm. pose proof (augmented_ready st h (S a) Hh Hm) as Hr. set (s1 := mkDState _ _ _) in *.
  assert (makes st (S a) (S a) (choice_ (
      _ ← seq_ (_ ← h_desugar fuel true (Some a); mret tt); update_this (set_reshape R_act_first)))
    (parser_language st (S a) (Some a))) as Hmk.
  { apply makes_seq; [|apply neutral_update_this; by intros ?].
    apply (h_desugar_items st (S a) fuel (S a) (Some a)); exists a; split_and!; (done || lia). }
  destruct (Hmk s1 Hr ltac:(intros t Ht; discriminate Ht)) as (s' & c & H & S & C & Hpc & HD).
  rewrite (Hpc (length h) eq_refl) in HD. assert (cs_stack (ds_stk s') = []) as Ho by (apply (sp_open _ _ _ _ _ _ S)).
  exists (ds_parsers s'), (ds_choices s'). split_and!; [|done|by apply ready_memoised; [apply S|]|].
  - unfold h_desugar_augmented.
    assert ((augmented ← alloc_choice;
             _ ← put_stk (mkCFStack [] None (Some augmented));
             _ ← choice_ (
               _ ← seq_ (_ ← h_desugar fuel true (Some a); mret tt);
               update_this (set_reshape R_act_first));
             _ ← h_cfstack_free;
             mret augmented) (mkDState st h h_cfstack_new) = Ok (length h, s')) as ->; [|done].
    eapply ST_bind_eq; [done|]. cbn beta. eapply ST_bind_eq; [done|]. eapply ST_bind_eq; [exact H|].
    eapply (ST_bind_eq _ _ _ tt s'); [|done]. unfold h_cfstack_free. by rewrite (sp_pre _ _ _ _ _ _ S).
  - eapply ready_none_freed; [apply S|]. split; [done|apply S].
Qed.

(** * Heaps that grow *)

Lemma memoised_extends st0 st h h' n :
  grammar_wf h -> extends h h' -> memoised st0 st h n -> memoised st0 st h' n.
Proof.
  intros Hh He Hm a q c Ha Hda Hq Hc. destruct (Hm a q c Ha Hda Hq Hc) as [Hlt HD].
  pose proof (extends_length h h' He). split; [lia|]. intros w. rewrite <- (HD w).
  split; [by apply derives_extends|].
  apply (derives_same (fun x => (x < length h)%nat)); [|..|done].
  - intros x (ch & Hx)%lookup_lt_is_Some. destruct (He x ch Hx) as (ch' & Hx' & Et). unfold typ.
    rewrite Hx, Hx'. simpl. by f_equal.
  - intros x t _ (ch & Hx & ->)%fmap_Some. destruct (cf_type ch) as [|seqs| | | | |] eqn:Et; try constructor.
    simpl. apply list.Forall_forall. intros y Hy. by eapply wf_items.
Qed.

(** * The LL(k) back end *)

Lemma llk_process_ends uninit ch tok : callbacks_end ch -> ends (llk_process uninit ch tok).
Proof.
  intros [Ha Hp]. unfold llk_process. apply ends_bind.
  { destruct (cf_reshape ch); [|done]. apply ends_bind; [apply reshape_action_ends|].
    intros [v|] _; [|done]. apply ends_bind; [by destruct tok|done]. }
  intros v _. apply ends_bind; [destruct (cf_pred ch); [by apply Hp|done]|]. intros [] _; [|done].
  apply ends_bind; [destruct (cf_action ch); [by apply Ha|done]|done].
Qed.

(** h_llk_compile returns, and leaves parsers and choices that desugar again; its
    table parses the language of the desugared symbol [x]. *)
Lemma h_llk_compile_returns `{IterationOrder} fuel params a st h uninit :
  desugarable st a -> (a < fuel)%nat -> grammar_wf h -> parsers_ok (length h) st -> memoised st st h (S a) ->
  (0 < default DEFAULT_KMAX params)%nat ->
  exists ret table st' h' h0 x,
    h_llk_compile fuel params (Some a) st h = Ok (ret, table, st', h') /\
    grammar_wf h' /\ parsers_ok (length h') st' /\ memoised st st' h' (S a) /\
    (forall w, derives h0 x w -> parser_language st (S a) (Some a) w) /\
    (ret = 0 -> exists t start, table = Some t /\ tb_start t = Some start /\
       (default DEFAULT_KMAX params = 1%nat \/ rows_alive t = true -> no_left_recursion h' start ->
        Forall callbacks_end h' -> forall stream, at_start stream ->
          llk_answers (derives h0 x) h' t uninit start stream)).
Proof.
  intros Hda Hf Hh Hst Hm Hk.
  destruct (desugar_parser_ok fuel a st h Hda Hf Hh Hm) as (x & st' & h' & E & Hd & Hm' & Hfree).
  destruct (desugar_parser_grammar _ _ _ _ _ _ _ Hh Hst E Hfree) as (_ & Hh' & Hst' & Hx).
  destruct (llk_table_ok h' x (default DEFAULT_KMAX params) uninit Hh' (Hx x eq_refl))
    as (g & h1 & start & r & t & g' & Eg & Es & Et & Ets & Hr & Hh1 & Hp).
  unfold h_llk_compile, h_cfgrammar. rewrite (isValidCF_desugarable st a fuel Hda Hf).
  rewrite (proj2 (Nat.ltb_lt _ _) Hk). cbn [assert_ok mbind outcome_bind]. rewrite E.
  cbn [mbind outcome_bind]. rewrite Eg. cbn [mbind outcome_bind]. rewrite Et. cbn [mbind outcome_bind].
  pose proof (h_cfgrammar_extends 0 h' x g h1 Eg) as Hext.
  assert (memoised st st' h1 (S a)) as Hm1 by (by apply (memoised_extends st st' h')).
  assert (parsers_ok (length h1) st') as Hst1.
  { eapply parsers_ok_more; [|done]. by apply extends_length. }
  destruct Hr as [-> | ->]; (do 4 eexists; exists h', x; split; [reflexivity|]; split_and!; [done..|by intros w; apply Hd|]); [|done].
  intros _. exists (h_cfgrammar_free g t), start. split_and!; [done..|]. intros Hal Hnlr Hcb stream Hs.
  exact (Hp eq_refl Hal Hnlr (fun x ch tok Hx => llk_process_ends uninit ch tok (proj1 (Forall_lookup _ _) Hcb _ _ Hx))
    stream Hs).
Qed.

(** C2: From combinators to LL(k) parses. For a parser that desugars
    (desugarable), h_llk_compile returns without a fault, in every order of the
    hash tables; if it reports success, the lookahead is one symbol or the table
    holds no memory of the freed grammar (rows_alive, an executable check), and the
    grammar that it leaves is not left-recursive, then h_llk_parse ends on every
    input, within a fuel that more fuel does not change (llk_answers). A result
    means that the bytes up to the reported length (and the end of the input where
    the parser asks for it) are in the language of the parser's combinators, and
    its token is the one that the callbacks make along a derivation. A fault means
    that a callback of a symbol, on the token of that symbol for the last bytes
    read, stopped the program, and that it is not a reshape function when those
    fit the sequences of the grammar (reshapes_fit, an executable check). The
    parsers and choices are left ready for the next compilation. *)
Theorem h_llk_compile_language `{IterationOrder} fuel params a st h uninit :
  desugarable st a -> (a < fuel)%nat -> grammar_wf h -> parsers_ok (length h) st -> memoised st st h (S a) ->
  (0 < default DEFAULT_KMAX params)%nat ->
  exists ret table st' h',
    h_llk_compile fuel params (Some a) st h = Ok (ret, table, st', h') /\
    grammar_wf h' /\ parsers_ok (length h') st' /\ memoised st st' h' (S a) /\
    (ret = 0 -> exists t start, table = Some t /\ tb_start t = Some start /\
       (default DEFAULT_KMAX params = 1%nat \/ rows_alive t = true -> no_left_recursion h' start ->
        Forall callbacks_end h' -> forall stream, at_start stream ->
          llk_answers (parser_language st (S a) (Some a)) h' t uninit start stream)).
Proof.
  intros Hda Hf Hh Hst Hm Hk.
  destruct (h_llk_compile_returns fuel params a st h uninit Hda Hf Hh Hst Hm Hk)
    as (ret & table & st' & h' & h0 & x & E & Hh' & Hst' & Hm' & Hd & Hp).
  exists ret, table, st', h'. split_and!; try done. intros Hr. destruct (Hp Hr) as (t & start & Et & Es & Ha).
  exists t, start. split_and!; try done. intros Hal Hnlr Hcb stream Hs.
  destruct (Ha Hal Hnlr Hcb stream Hs) as [more Hm1]. exists more. intros m Hle. specialize (Hm1 m Hle).
  destruct (h_llk_parse _ _ _ _ _) as [[[res|] stream']|f|]; try done.
  destruct Hm1 as (w & Hw & Hc). exists w. split; [by apply Hd|done].
Qed.

(** * The LALR(1) back end *)


(** * Witnesses *)

(** " 1, 22" *)
Definition numbers_input : HInputStream := mkStream [32; 49; 44; 32; 50; 50] 0 0 6 0 0 0 false true.

Lemma numbers_input_start : at_start numbers_input.
Proof. repeat split; simpl; try lia. by repeat constructor. Qed.

Lemma h_llk_compile_language_witness :
  exists t st' h' res stream' w,
    @h_llk_compile insertion_order 20 (Some 1%nat) (Some 7%nat) number_list_store [] = Ok (0, Some t, st', h') /\
    h_llk_parse h' t 0 200 numbers_input = Ok (Some res, stream') /\
    parser_language number_list_store 8 (Some 7%nat) w /\ consumed [32; 49; 44; 32; 50; 50] (rest stream') w /\
    bit_length res = 8 * (6 - Z.of_nat (length (rest stream'))) /\
    forall stream, at_start stream -> exists fuel r, forall more, (fuel <= more)%nat ->
      h_llk_parse h' t 0 more stream = Ok r.
Proof.
  assert (exists t st' h', @h_llk_compile insertion_order 20 (Some 1%nat) (Some 7%nat) number_list_store [] =
    Ok (0, Some t, st', h') /\ Forall callbacks_end h' /\ no_left_recursion_b h' = true /\
    (forallb (reshape_fits h' false) h' = true /\ Forall callbacks_return h') /\
    exists res stream', h_llk_parse h' t 0 200 numbers_input = Ok (Some res, stream'))
    as (t & st' & h' & E & Hcb & Hnlr & [Hfit Hret] & res & stream' & Ep).
  { do 3 eexists. split; [vm_compute; reflexivity|].
    split; [repeat (constructor; [split; intros ? [=]|]); constructor|].
    split; [vm_compute; reflexivity|]. split; [split; [vm_compute; reflexivity|]|].
    { repeat (constructor; [split; intros ? [=]|]); constructor. }
    do 2 eexists. vm_compute. reflexivity. }
  destruct (@h_llk_compile_language insertion_order 20 (Some 1%nat) 7 number_list_store [] 0)
    as (ret & table & st1 & h1 & E1 & _ & _ & _ & Hp);
    [apply number_list_desugarable|lia|constructor|apply number_list_parsers_ok|apply no_memo, number_list_no_memo
    |simpl; lia|].
  rewrite E in E1. injection E1 as <- <- <- <-.
  destruct (Hp eq_refl) as (t' & start & [= <-] & _ & Hans).
  specialize (Hans (or_introl eq_refl) (no_left_recursion_b_ok _ _ Hnlr) Hcb).
  destruct (Hans _ numbers_input_start) as [fuel Hf].
  specialize (Hf (fuel + 200)%nat ltac:(lia)).
  rewrite (h_llk_parse_more _ _ _ 200) in Hf by (try lia; rewrite Ep; intros H; discriminate H). rewrite Ep in Hf.
  destruct Hf as (w & Hd & _ & Hc & Hlen). exists t, st', h', res, stream', w.
  split; [exact E|]. split; [exact Ep|]. split; [exact Hd|]. split; [exact Hc|]. split; [exact Hlen|].
  clear -Hans Hfit Hret. intros stream Hs. destruct (Hans stream Hs) as [more Ha]. exists more.
  specialize (Ha more (le_n more)) as Ha0. destruct (h_llk_parse h' t 0 more stream) as [r|f|] eqn:Em.
  - exists r. intros m Hm. rewrite (h_llk_parse_more _ _ _ more); [exact Em|exact Hm|]. rewrite Em. intros [=].
  - destruct Ha0 as [_ Ha0]. exfalso. eapply user_fault_returns; [exact Hret|]. apply Ha0, reshapes_fit_check, Hfit.
  - destruct Ha0.
Defined.

