(* ===== verification/LRPrint.v ===== *)
(** Printing of items, automata, actions and tables (the h_pprint functions at the
    end of src/src/backends/lr.c), in a build with assertions. *)

From Stdlib Require Import Ascii String.
From S2P Require Import Prelude Text Charset Token Parser HashTable Desugar Grammar StringMap CfGrammar GrammarPrint LR LR0 LALR.

Section Print.
Context (h : list HCFChoice) (g : HCFGrammar).

(** [for(x++; *x; x++)]: the characters after the first of a string, up to the
    mark; [i] is [x - item->rhs]. *)
Fixpoint item_string (mark i : nat) (x : list nat) : outcome (text * nat * list nat) :=
  match x with
  | [] => Ok ([], i, [])
  | y :: rest =>
      if (i =? mark)%nat then Ok ([], i, x) else
      ch ← choice_at h y;
      match cf_type ch with
      | HCF_CHAR c =>
          '(out, i, rest) ← item_string mark (S i) rest;
          Ok (h_pprint_char c ++ out, i, rest)
      | _ => Ok ([], i, x)
      end
  end.

(** The loop over the symbols, then the mark at the end. *)
Fixpoint item_loop (fuel mark i : nat) (x : list nat) : outcome text :=
  match x with
  | [] => Ok (if (i =? mark)%nat then [46] else [])
  | y :: rest =>
      match fuel with
      | O => OutOfFuel
      | S fuel =>
          ch ← choice_at h y;
          '(out, i', rest') ← match cf_type ch with
            | HCF_CHAR c =>
                '(out, i', rest') ← item_string mark (S i) rest;
                Ok ([34] ++ h_pprint_char c ++ out ++ [34], i', rest')
            | _ => out ← h_pprint_symbol h g y; Ok (out, S i, rest)
            end;
          outs ← item_loop fuel mark i' rest';
          Ok ((if (i =? mark)%nat then [46] else [32]) ++ out ++ outs)
      end
  end.

Definition h_pprint_lritem (item : HLRItem) : outcome text :=
  lhs ← h_pprint_symbol h g (it_lhs item);
  rhs ← match it_rhs item with
        | [] => Ok [46]
        | rhs => item_loop (length rhs) (it_mark item) 0 rhs
        end;
  Ok (lhs ++ lit " ->" ++ rhs).

(** The items but the first are indented. *)
Fixpoint pprint_items (first : bool) (items : list HLRItem) (indent : nat) : outcome text :=
  match items with
  | [] => Ok []
  | item :: items =>
      out ← h_pprint_lritem item;
      outs ← pprint_items false items indent;
      Ok ((if first then [] else replicate indent 32) ++ out ++ [10] ++ outs)
  end.
Definition h_pprint_lrstate (state : HLRState) (indent : nat) : outcome text :=
  pprint_items true (table_keys state) indent.

Definition pprint_transition (t : HLRTransition) : outcome text :=
  out ← h_pprint_symbol h g (tn_symbol t);
  Ok ([45] ++ out ++ lit "->" ++ fmt_dec (Z.of_nat (tn_to t))).

(** The transitions out of the state [i]. *)
Fixpoint pprint_transitions (i indent : nat) (l : list HLRTransition) : outcome text :=
  match l with
  | [] => Ok []
  | t :: l =>
      out ← (if (tn_from t =? i)%nat
             then out ← pprint_transition t; Ok (replicate indent 32 ++ out ++ [10]) else Ok []);
      outs ← pprint_transitions i indent l;
      Ok (out ++ outs)
  end.

(** fprintf returns the number of characters that it wrote. *)
Definition pprint_dfa_state (dfa : HLRDFA) (indent i : nat) : outcome text :=
  let number := fmt_dec4 (Z.of_nat i) ++ lit ": " in
  let indent2 := (indent + length number)%nat in
  state ← deref OutOfBounds (df_states dfa !! i);
  state ← deref NullDeref state;
  items ← h_pprint_lrstate state indent2;
  trans ← pprint_transitions i (indent2 - 2) (df_transitions dfa);
  Ok (number ++ items ++ trans).

Fixpoint pprint_rows (row : nat -> outcome text) (l : list nat) : outcome text :=
  match l with
  | [] => Ok []
  | i :: l => out ← row i; outs ← pprint_rows row l; Ok (out ++ outs)
  end.
Definition h_pprint_lrdfa (dfa : HLRDFA) (indent : nat) : outcome text :=
  pprint_rows (pprint_dfa_state dfa indent) (seq 0 (df_nstates dfa)).

(** ** Actions and tables *)

(** An action that is no conflict: the only kind that a conflict holds. *)
Definition pprint_simple_action (a : HLRAction) : outcome text :=
  match a with
  | HLR_SHIFT None => Ok (lit "s~")
  | HLR_SHIFT (Some nextstate) => Ok (lit "s" ++ fmt_dec (Z.of_nat nextstate))
  | HLR_REDUCE lhs _ rhs =>
      l ← h_pprint_symbol h g lhs;
      r ← h_pprint_sequence h g rhs;
      Ok (lit "r(" ++ l ++ lit " -> " ++ r ++ [41])
  | HLR_CONFLICT _ => Fault AssertFail
  end.

Definition action_in (actions : list HLRAction) (a : nat) : outcome HLRAction := deref NullDeref (actions !! a).

(** The branches, with [/] between them. *)
Fixpoint pprint_branches (actions : list HLRAction) (branches : list nat) : outcome text :=
  match branches with
  | [] => Ok []
  | b :: branches =>
      branch ← action_in actions b;
      out ← pprint_simple_action branch;
      outs ← pprint_branches actions branches;
      Ok (out ++ match branches with [] => [] | _ => [47] end ++ outs)
  end.

Definition pprint_lraction (actions : list HLRAction) (a : nat) : outcome text :=
  action ← action_in actions a;
  match action with
  | HLR_CONFLICT branches => out ← pprint_branches actions branches; Ok ([33] ++ out)
  | _ => pprint_simple_action action
  end.

Definition valprint_lraction (actions : list HLRAction) (val : sm_value) : outcome text :=
  match val with V_action a => pprint_lraction actions a | _ => Fault OutOfBounds end.

Context `{IterationOrder}.

Definition pprint_lrtable_terminals (fuel : nat) (actions : list HLRAction) (map : HStringMap) : outcome text :=
  h_pprint_stringmap 32 (Some (valprint_lraction actions)) fuel map.

(** The entries for nonterminals. *)
Fixpoint pprint_gotos (actions : list HLRAction) (l : list (nat * option nat)) : outcome text :=
  match l with
  | [] => Ok []
  | (symbol, action) :: l =>
      sym ← h_pprint_symbol h g symbol;
      action ← deref NullDeref action;
      act ← pprint_lraction actions action;
      outs ← pprint_gotos actions l;
      Ok ([32] ++ sym ++ [58] ++ act ++ outs)
  end.

Definition pprint_lrtable_row (fuel : nat) (table : HLRTable) (indent i : nat) : outcome text :=
  forall_ ← deref OutOfBounds (lt_forall table !! i);
  every ← match forall_ with
          | None => Ok []
          | Some a =>
              out ← pprint_lraction (lt_actions table) a;
              empty ← h_lrtable_row_empty table i;
              Ok ([32] ++ out ++ (if empty : bool then [] else lit " !!"))
          end;
  nts ← deref OutOfBounds (lt_ntmap table !! i);
  gotos ← pprint_gotos (lt_actions table) (table_entries nts);
  terminals ← deref OutOfBounds (lt_tmap table !! i);
  ts ← pprint_lrtable_terminals fuel (lt_actions table) terminals;
  Ok (replicate indent 32 ++ fmt_dec4 (Z.of_nat i) ++ [58] ++ every ++ gotos ++ [32] ++ ts ++ [10]).

Definition h_pprint_lrtable (fuel : nat) (table : HLRTable) (indent : nat) : outcome text :=
  pprint_rows (pprint_lrtable_row fuel table indent) (seq 0 (lt_nrows table)).
End Print.

(** The grammar, the automaton and the LR(0) table of a parser; [fuel], [nstates]
    and [depth] bound the nesting of parsers, the states and the string maps. *)
Definition h_pprint_lr_info `{IterationOrder} (addr : nat -> Z) (fuel nstates depth : nat) (p : ptr)
    (st : list HParser) (h : list HCFChoice) : outcome (text * HCFGrammar * list HParser * list HCFChoice) :=
  '(desugared, st, h) ← h_desugar_augmented fuel p st h;
  '(g, h) ← h_cfgrammar_ 0 h desugared;
  grammar ← h_pprint_grammar h g 0;
  '(dfa, h) ← h_lr0_dfa addr nstates g h;
  automaton ← h_pprint_lrdfa h g dfa 0;
  table0 ← h_lr0_table addr 0 g h dfa;
  table ← h_pprint_lrtable h g depth table0 0;
  Ok ([10] ++ lit "==== G R A M M A R ====" ++ [10] ++ grammar
      ++ [10] ++ lit "==== D F A ====" ++ [10] ++ automaton
      ++ [10] ++ lit "==== L R ( 0 )  T A B L E ====" ++ [10] ++ table, g, st, h).

(** * Items are printed *)

Section Items.
Context (h : list HCFChoice) (Hh : grammar_wf h) (g : HCFGrammar).

(** The string stops at the mark, and takes characters only. *)
Lemma item_string_ok mark x : forall i, Forall (fun y => y < length h)%nat x ->
  exists out taken rest, item_string h mark i x = Ok (out, (i + length taken)%nat, rest) /\ x = taken ++ rest /\
    (forall j, (j < length taken)%nat -> (i + j)%nat <> mark).
Proof.
  induction x as [|y x IH]; intros i Hx; cbn [item_string].
  { exists [], [], []. rewrite Nat.add_0_r. split_and!; [done..|simpl; lia]. }
  apply Forall_cons_1 in Hx as [Hy Hx].
  destruct (Nat.eqb_spec i mark) as [->|Hi].
  { exists [], [], (y :: x). rewrite Nat.add_0_r. split_and!; [done..|simpl; lia]. }
  destruct (choice_at_ok h Hh y Hy) as (ch & -> & _). cbn [mbind outcome_bind].
  destruct (cf_type ch);
    try (exists [], [], (y :: x); rewrite Nat.add_0_r; split_and!; [done..|simpl; lia]).
  destruct (IH (S i) Hx) as (out & taken & rest & -> & -> & Hm). cbn [mbind outcome_bind].
  eexists _, (y :: taken), rest. cbn [length]. split_and!; [by rewrite Nat.add_succ_r|done|].
  intros [|j] Hj; [lia|]. specialize (Hm j). lia.
Qed.

Lemma item_loop_ok mark fuel : forall i x, (length x <= fuel)%nat ->
  Forall (fun y => y < length h)%nat x -> exists out, item_loop h g fuel mark i x = Ok out.
Proof.
  induction fuel as [|fuel IH]; intros i [|y x] Hl Hx; cbn [item_loop]; try (by eexists); [simpl in Hl; lia|].
  apply Forall_cons_1 in Hx as [Hy Hx]. simpl in Hl.
  destruct (choice_at_ok h Hh y Hy) as (ch & -> & _). cbn [mbind outcome_bind].
  destruct (h_pprint_symbol_ok h Hh g y Hy) as [o Eo].
  destruct (cf_type ch);
    try (rewrite Eo; cbn [mbind outcome_bind]; destruct (IH (S i) x) as [outs ->]; [lia|done|by eexists]).
  destruct (item_string_ok mark x (S i) Hx) as (out & taken & rest & -> & -> & _). cbn [mbind outcome_bind].
  apply Forall_app in Hx as [_ Hr]. rewrite length_app in Hl.
  destruct (IH (S i + length taken)%nat rest) as [outs ->]; [lia|done|by eexists].
Qed.

(** Every item over the grammar is printed, wherever its mark is. *)
Lemma h_pprint_lritem_ok item :
  (it_lhs item < length h)%nat -> Forall (fun y => y < length h)%nat (it_rhs item) ->
  exists out, h_pprint_lritem h g item = Ok out.
Proof.
  intros Hl Hr. unfold h_pprint_lritem. destruct (h_pprint_symbol_ok h Hh g _ Hl) as [lhs ->].
  cbn [mbind outcome_bind]. destruct (it_rhs item) as [|y rhs] eqn:E; [by eexists|].
  destruct (item_loop_ok (it_mark item) (length (y :: rhs)) 0 (y :: rhs)) as [out Eo]; [done..|].
  rewrite Eo. by eexists.
Qed.
End Items.

(** The items of S -> '(' S ')' S, for each place of the mark. *)
Example lritem_example :
  (fun mark => h_pprint_lritem parens (set_nts [0%nat] (h_cfgrammar_new 0)) (mkItem 0 [1; 0; 2; 0]%nat 4 mark)) <$> [0; 2; 4]%nat =
  [Ok (lit "A ->." ++ [34; 40; 34] ++ lit " A " ++ [34; 41; 34] ++ lit " A");
   Ok (lit "A -> " ++ [34; 40; 34] ++ lit " A." ++ [34; 41; 34] ++ lit " A");
   Ok (lit "A -> " ++ [34; 40; 34] ++ lit " A " ++ [34; 41; 34] ++ lit " A.")].
Proof. reflexivity. Qed.
