(* ===== verification/GLR.v ===== *)
(** The generalised LR driver (src/src/backends/glr.c): engines that fork on
    conflicts and merge when they reach the same state.

    Engines are mutable and point at the engines merged into them: they live in
    a heap of their own. Arena memory is zero, so that the [merged] pointers
    which [fork_engine] does not write are NULL. Stacks are values, as the code
    never changes their nodes; tokens are values too, so that the position which
    a reshape function writes into a token is not seen by engines that share
    the token. *)

From S2P Require Import Prelude Stream Charset Token Parser HashTable Desugar Grammar StringMap.
From S2P Require Import CfGrammar LR LR0 LALR LRDriver Driver.

(** LALR without failing on conflicts. *)
Definition h_glr_compile `{IterationOrder} (addr : nat -> Z) (fuel nstates : nat) (p : ptr)
    (st : list HParser) (h : list HCFChoice)
    : outcome (Z * option HLRTable * list HParser * list HCFChoice) :=
  '(valid, st) ← isValidCF fuel p st;
  if valid : bool then
    '(result, backend_data, st, h) ← h_lalr_compile addr fuel nstates p st h;
    Ok (if (result =? -1) && bool_decide (is_Some backend_data) then 0 else result,
        backend_data, st, h)
  else Ok (-1, None, st, h).

(** An engine with [merged[0]] and [merged[1]]. *)
Record GLREngine := mkGLREngine {
  ge_engine : HLREngine;
  ge_merged : option (nat * nat);
}.

(** The engines, the list that [glr_step] adds to, and the result. *)
Record glr_state := mkGlrState {
  gs_heap : list GLREngine;
  gs_engines : list nat;
  gs_result : option HParseResult;
}.

Definition engine_at (g : glr_state) (e : nat) : outcome GLREngine := deref NullDeref (gs_heap g !! e).
Definition set_engine (e : nat) (x : GLREngine) (g : glr_state) : glr_state :=
  mkGlrState (<[e := x]> (gs_heap g)) (gs_engines g) (gs_result g).
Definition new_engine (x : GLREngine) (g : glr_state) : nat * glr_state :=
  (length (gs_heap g), mkGlrState (gs_heap g ++ [x]) (gs_engines g) (gs_result g)).
Definition set_engines (l : list nat) (g : glr_state) : glr_state :=
  mkGlrState (gs_heap g) l (gs_result g).

Definition set_stack (stack : list lr_elem) (x : HLREngine) : HLREngine :=
  mkEngine (en_state x) stack (en_input x).

Definition lrengine_merge (old new : nat) (g : glr_state) : outcome (nat * glr_state) :=
  o ← engine_at g old;
  n ← engine_at g new;
  _ ← assert_ok (bool_decide (en_state (ge_engine o) = en_state (ge_engine n)));
  _ ← assert_ok (bool_decide (is_input (en_input (ge_engine o)) = is_input (en_input (ge_engine n))));
  Ok (new_engine (mkGLREngine (set_stack [] (ge_engine o)) (Some (old, new))) g).

(** The stack is copied on top of [bottom]. *)
Definition demerge_stack (bottom stack : list lr_elem) : list lr_elem := stack ++ bottom.

Definition respawn (eng : nat) (stack : list lr_elem) (g : glr_state) : outcome glr_state :=
  x ← engine_at g eng;
  let st := demerge_stack (en_stack (ge_engine x)) stack in
  Ok (set_engine eng (mkGLREngine (set_stack st (ge_engine x)) (ge_merged x)) g).

(** The walk of [demerge] down the stack: [depth - i] if it hits the bottom. *)
Fixpoint hits_bottom (depth : nat) (p : list lr_elem) : option nat :=
  match depth with
  | O => None
  | S d => match p with [] => Some (S d) | _ :: p => hits_bottom d p end
  end.

(** A forked engine has no merged engines. *)
Definition fork_engine (x : GLREngine) (g : glr_state) : nat * glr_state :=
  new_engine (mkGLREngine (ge_engine x) None) g.

Section GLR.
Context (addr : nat -> Z) (h : list HCFChoice) (table : HLRTable) (uninit : Z).

Section Calls.
(** [glr_step], which [demerge] and [handle_conflict] call. *)
Context (glr_step : nat -> option HLRAction -> glr_state -> outcome (bool * glr_state)).

Fixpoint demerge (fuel engine : nat) (action : option HLRAction) (depth : nat) (g : glr_state)
    : outcome (nat * glr_state) :=
  match fuel with
  | O => OutOfFuel
  | S fuel =>
      x ← engine_at g engine;
      match ge_merged x with
      | None => Ok (engine, g)
      | Some (a, b) =>
          match hits_bottom depth (en_stack (ge_engine x)) with
          | None => Ok (engine, g)
          | Some rest =>
              g ← respawn a (en_stack (ge_engine x)) g;
              g ← respawn b (en_stack (ge_engine x)) g;
              '(a, g) ← demerge fuel a action rest g;
              '(b, g) ← demerge fuel b action rest g;
              '(_, g) ← glr_step a action g;
              Ok (b, g)
          end
      end
  end.

Definition handle_conflict (engine : nat) (branches : list nat) (g : glr_state)
    : outcome (HLRAction * glr_state) :=
  match branches with
  | first :: ((_ :: _) as rest) =>
      g ← for_each (fun a g =>
            act ← action_at table a;
            x ← engine_at g engine;
            let '(eng, g) := fork_engine x g in
            '(_, g) ← glr_step eng (Some act) g; Ok g) rest g;
      act ← action_at table first;
      Ok (act, g)
  | _ => Fault AssertFail
  end.

End Calls.

(** The engine is merged into the first of the list that is in its state;
    [None] if there is none. *)
Fixpoint merge_engine (engine : nat) (l : list nat) (g : glr_state)
    : outcome (option (list nat) * glr_state) :=
  match l with
  | [] => Ok (None, g)
  | eng :: l =>
      x ← engine_at g eng;
      y ← engine_at g engine;
      if bool_decide (en_state (ge_engine x) = en_state (ge_engine y)) then
        '(m, g) ← lrengine_merge eng engine g; Ok (Some (m :: l), g)
      else
        '(r, g) ← merge_engine engine l g; Ok (option_map (cons eng) r, g)
  end.

(** [h_lrengine_step] on an engine of the heap. *)
Definition step_engine (engine : nat) (action : option HLRAction) (g : glr_state)
    : outcome (bool * glr_state) :=
  x ← engine_at g engine;
  '(e, run) ← h_lrengine_step addr h table uninit (ge_engine x) action;
  Ok (run, set_engine engine (mkGLREngine e (ge_merged x)) g).

(** What [glr_step] does with the engine that has made its step. *)
Definition store_engine (engine : nat) (run : bool) (g : glr_state) : outcome (bool * glr_state) :=
  x ← engine_at g engine;
  if run then
    '(r, g) ← merge_engine engine (gs_engines g) g;
    Ok (run, set_engines (default (engine :: gs_engines g) r) g)
  else if bool_decide (en_state (ge_engine x) = HLR_SUCCESS) then
    result ← h_lrengine_result (ge_engine x);
    Ok (run, mkGlrState (gs_heap g) (gs_engines g) result)
  else Ok (run, g).

(** [fuel] bounds the nesting of the calls. *)
Fixpoint glr_step (fuel engine : nat) (action : option HLRAction) (g : glr_state)
    : outcome (bool * glr_state) :=
  match fuel with
  | O => OutOfFuel
  | S fuel =>
      '(engine, action, g) ←
        (match action with
         | Some (HLR_CONFLICT branches) =>
             '(act, g) ← handle_conflict (glr_step fuel) engine branches g;
             Ok (engine, Some act, g)
         | Some (HLR_REDUCE _ depth _) =>
             '(e, g) ← demerge (glr_step fuel) (S fuel) engine action depth g;
             Ok (e, action, g)
         | _ => Ok (engine, action, g)
         end);
      '(run, g) ← step_engine engine action g;
      store_engine engine run g
  end.

(** The inner loop: the engines of the list step, in its order. *)
Fixpoint step_engines (fuel : nat) (engines : list nat) (g : glr_state) : outcome glr_state :=
  match engines with
  | [] => Ok g
  | engine :: engines =>
      x ← engine_at g engine;
      l ← h_lrengine_action table (ge_engine x);
      action ← lookup_action l;
      '(_, g) ← glr_step fuel engine action g;
      step_engines fuel engines g
  end.

Fixpoint glr_loop (fuel : nat) (g : glr_state) : outcome (option HParseResult) :=
  match gs_result g, gs_engines g with
  | None, _ :: _ =>
      match fuel with
      | O => OutOfFuel
      | S fuel' => g ← step_engines fuel (gs_engines g) (set_engines [] g); glr_loop fuel' g
      end
  | result, _ => Ok result
  end.

Definition h_glr_parse (fuel : nat) (stream : HInputStream) : outcome (option HParseResult) :=
  glr_loop fuel (mkGlrState [mkGLREngine (h_lrengine_new stream) None] [0%nat] None).

End GLR.
