(* ===== verification/Compile.v ===== *)
(** Choosing a back end (src/src/hammer.c: the table of back ends, h_compile and
    the dispatch of h_parse), over the compile, parse and free functions of the
    five of them.

    [Compiled] is what the library knows of one parser [p]: its back end, its
    [backend_data], the graph of parsers and the heap of choices that desugaring
    left, and the memory of the data of back ends. An object of that memory, a
    program or a table, consists of blocks: the structure, its arrays, its arena.
    The free functions give back one block after the other. Using an object of
    which a block is freed, or freeing a block twice, is the fault
    [UseAfterFree]; the data of a back end read as another's is [OutOfBounds].
    What a compile function allocates and frees before it returns, like the
    grammar, is not part of that memory. *)

From S2P Require Import Prelude Stream Token Parser Validity Combinators Packrat SArray Regex RegexVM RegexCompile Desugar Grammar DesugarWf DesugarLang CfGrammar LLkTable LLk Driver LR LRDriver LALR CompileLang GLR.

Inductive backend_data_ :=
| BD_prog (prog : HRVMProg)
| BD_llk (table : HLLkTable)
| BD_lr (table : HLRTable).

Inductive block := B_struct | B_insns | B_actions | B_arena.
#[global] Instance block_eq_dec : EqDecision block.
Proof. solve_decision. Defined.
#[global] Instance block_countable : Countable block.
Proof.
  refine (inj_countable' (fun b => match b with B_struct => 0 | B_insns => 1 | B_actions => 2 | B_arena => 3 end%nat)
    (fun n => match n with 0 => B_struct | 1 => B_insns | 2 => B_actions | _ => B_arena end%nat) _).
  by intros [].
Defined.

(** The blocks of an object; an array without entries was never allocated. *)
Definition array_block {A} (b : block) (entries : list A) : list block :=
  match entries with [] => [] | _ => [b] end.
Definition blocks (d : backend_data_) : list block :=
  match d with
  | BD_prog prog => array_block B_insns (pr_insns prog) ++ array_block B_actions (pr_actions prog) ++ [B_struct]
  | BD_llk _ | BD_lr _ => [B_arena; B_struct]
  end.

(** Objects by their address; addresses are not given out again, so that a pointer
    to a freed object is told from one to a new object. *)
Record Compiled := mkCompiled {
  c_backend : HParserBackend;
  c_data : option nat;                   (** [backend_data]: an address, or NULL *)
  c_objects : gmap nat backend_data_;    (** what was stored at the addresses *)
  c_live : gset (nat * block);           (** the blocks that are not freed *)
  c_next : nat;                          (** the next address *)
  c_parsers : list HParser;
  c_choices : list HCFChoice;
}.

Definition set_backend (b : HParserBackend) (c : Compiled) : Compiled :=
  mkCompiled b (c_data c) (c_objects c) (c_live c) (c_next c) (c_parsers c) (c_choices c).
Definition set_backend_data (d : option nat) (c : Compiled) : Compiled :=
  mkCompiled (c_backend c) d (c_objects c) (c_live c) (c_next c) (c_parsers c) (c_choices c).
Definition set_graph (st : list HParser) (h : list HCFChoice) (c : Compiled) : Compiled :=
  mkCompiled (c_backend c) (c_data c) (c_objects c) (c_live c) (c_next c) st h.

Definition object_blocks (a : nat) (d : backend_data_) : gset (nat * block) := list_to_set (pair a <$> blocks d).

(** The object that a compile function has made, and [parser->backend_data = table],
    where the function gets that far. *)
Definition store_data (d : option backend_data_) (c : Compiled) : Compiled :=
  match d with
  | Some d => mkCompiled (c_backend c) (Some (c_next c)) (<[c_next c := d]> (c_objects c))
                (c_live c ∪ object_blocks (c_next c) d) (S (c_next c)) (c_parsers c) (c_choices c)
  | None => c
  end.

(** The object at [backend_data]. *)
Definition data_at (c : Compiled) : outcome (nat * backend_data_) :=
  a ← deref NullDeref (c_data c);
  d ← deref OutOfBounds (c_objects c !! a);
  if decide (object_blocks a d ⊆ c_live c) then Ok (a, d) else Fault UseAfterFree.

(** The data as the type that a back end takes it to be. *)
Definition prog_data (c : Compiled) : outcome (nat * HRVMProg) :=
  '(a, d) ← data_at c; match d with BD_prog prog => Ok (a, prog) | _ => Fault OutOfBounds end.
Definition llk_data (c : Compiled) : outcome (nat * HLLkTable) :=
  '(a, d) ← data_at c; match d with BD_llk table => Ok (a, table) | _ => Fault OutOfBounds end.
Definition lr_data (c : Compiled) : outcome (nat * HLRTable) :=
  '(a, d) ← data_at c; match d with BD_lr table => Ok (a, table) | _ => Fault OutOfBounds end.

(** ** The free functions *)

(** h_free of a block, and of an array that may be NULL. *)
Definition h_free (a : nat) (b : block) (c : Compiled) : outcome Compiled :=
  if decide ((a, b) ∈ c_live c)
  then Ok (mkCompiled (c_backend c) (c_data c) (c_objects c) (c_live c ∖ {[(a, b)]}) (c_next c) (c_parsers c) (c_choices c))
  else Fault UseAfterFree.
Definition h_free_array {A} (a : nat) (b : block) (entries : list A) (c : Compiled) : outcome Compiled :=
  match entries with [] => Ok c | _ => h_free a b c end.

(** [parser->backend_data = NULL; parser->backend = PB_PACKRAT] *)
Definition no_data (c : Compiled) : Compiled := set_backend PB_PACKRAT (set_backend_data None c).

Definition h_packrat_free (c : Compiled) : outcome Compiled := Ok (set_backend PB_PACKRAT c).
Definition h_regex_free (c : Compiled) : outcome Compiled :=
  '(a, prog) ← prog_data c;
  c ← h_free_array a B_insns (pr_insns prog) c;
  c ← h_free_array a B_actions (pr_actions prog) c;
  c ← h_free a B_struct c;
  Ok (no_data c).
(** h_llktable_free takes NULL. *)
Definition h_llktable_free (c : Compiled) : outcome Compiled :=
  match c_data c with
  | None => Ok c
  | Some _ => '(a, _) ← llk_data c; c ← h_free a B_arena c; h_free a B_struct c
  end.
Definition h_llk_free (c : Compiled) : outcome Compiled := c ← h_llktable_free c; Ok (no_data c).
Definition h_lrtable_free (c : Compiled) : outcome Compiled :=
  '(a, _) ← lr_data c; c ← h_free a B_arena c; h_free a B_struct c.
Definition h_lalr_free (c : Compiled) : outcome Compiled := c ← h_lrtable_free c; Ok (no_data c).
Definition h_glr_free (c : Compiled) : outcome Compiled := h_lalr_free c.

Definition backend_free (b : HParserBackend) : Compiled -> outcome Compiled :=
  match b with
  | PB_PACKRAT => h_packrat_free
  | PB_REGULAR => h_regex_free
  | PB_LLk => h_llk_free
  | PB_LALR => h_lalr_free
  | PB_GLR => h_glr_free
  end.

Section Backends.
(** What the back ends are parametrised by: the addresses of choices, the order of
    hash tables of pointers, memory and its contents, the functions of the user. *)
Context `{IterationOrder} (addr : nat -> Z) (realloc_ok : Z -> bool) (uninit : Z)
  (memory1 memory2 : list (HSArrayNode HRVMTrace))
  (continuation : nat -> option HParsedToken -> Z -> PM ptr) (p : ptr).

(** ** The compile functions *)

Definition h_packrat_compile (c : Compiled) : outcome (Z * Compiled) := Ok (0, set_backend PB_PACKRAT c).
Definition regex_compile (fuel : nat) (c : Compiled) : outcome (Z * Compiled) :=
  '(ret, prog) ← h_regex_compile realloc_ok (c_parsers c) fuel p;
  Ok (ret, store_data (BD_prog <$> prog) c).
Definition llk_compile (fuel : nat) (params : option nat) (c : Compiled) : outcome (Z * Compiled) :=
  '(ret, table, st, h) ← h_llk_compile fuel params p (c_parsers c) (c_choices c);
  Ok (ret, store_data (BD_llk <$> table) (set_graph st h c)).
Definition lalr_compile (fuel nstates : nat) (c : Compiled) : outcome (Z * Compiled) :=
  '(ret, table, st, h) ← h_lalr_compile addr fuel nstates p (c_parsers c) (c_choices c);
  Ok (ret, store_data (BD_lr <$> table) (set_graph st h c)).
Definition glr_compile (fuel nstates : nat) (c : Compiled) : outcome (Z * Compiled) :=
  '(ret, table, st, h) ← h_glr_compile addr fuel nstates p (c_parsers c) (c_choices c);
  Ok (ret, store_data (BD_lr <$> table) (set_graph st h c)).

(** [nstates] bounds the automata of the LR back ends. *)
Definition backend_compile (fuel nstates : nat) (b : HParserBackend) (params : option nat)
    : Compiled -> outcome (Z * Compiled) :=
  match b with
  | PB_PACKRAT => h_packrat_compile
  | PB_REGULAR => regex_compile fuel
  | PB_LLk => llk_compile fuel params
  | PB_LALR => lalr_compile fuel nstates
  | PB_GLR => glr_compile fuel nstates
  end.

Definition h_compile__m (fuel nstates : nat) (b : HParserBackend) (params : option nat) (c : Compiled)
    : outcome (Z * Compiled) :=
  c ← backend_free (c_backend c) c;
  '(ret, c) ← backend_compile fuel nstates b params c;
  Ok (ret, if ret =? 0 then set_backend b c else c).

(** ** The parse functions *)

Definition run_packrat (fuel lf : nat) (c : Compiled) (stream : HInputStream) : outcome (option HParseResult) :=
  '(res, _) ← h_packrat_parse continuation lf fuel (c_parsers c) p stream; Ok res.
Definition h_regex_parse (c : Compiled) (stream : HInputStream) : outcome (option HParseResult) :=
  '(_, prog) ← prog_data c; h_rvm_run__m (c_parsers c) prog (is_input stream) memory1 memory2.
Definition llk_parse (fuel : nat) (c : Compiled) (stream : HInputStream) : outcome (option HParseResult) :=
  '(_, table) ← llk_data c;
  '(res, _) ← h_llk_parse (c_choices c) table uninit fuel stream; Ok res.
Definition lr_parse (fuel : nat) (c : Compiled) (stream : HInputStream) : outcome (option HParseResult) :=
  '(_, table) ← lr_data c; h_lr_parse addr (c_choices c) table uninit fuel stream.
Definition glr_parse (fuel : nat) (c : Compiled) (stream : HInputStream) : outcome (option HParseResult) :=
  '(_, table) ← lr_data c; h_glr_parse addr (c_choices c) table uninit fuel stream.

Definition backend_parse (fuel lf : nat) (b : HParserBackend) : Compiled -> HInputStream -> outcome (option HParseResult) :=
  match b with
  | PB_PACKRAT => run_packrat fuel lf
  | PB_REGULAR => h_regex_parse
  | PB_LLk => llk_parse fuel
  | PB_LALR => lr_parse fuel
  | PB_GLR => glr_parse fuel
  end.

(** h_parse of a compiled parser. *)
Definition h_parse__m (fuel lf : nat) (c : Compiled) (input : list Z) : outcome (option HParseResult) :=
  backend_parse fuel lf (c_backend c) c (input_stream 0 DEFAULT_ENDIANNESS input true).

(** * What h_compile leaves *)

(** The kind of object that a back end works on. *)
Definition kind_ok (b : HParserBackend) (d : backend_data_) : Prop :=
  match b, d with
  | PB_REGULAR, BD_prog _ | PB_LLk, BD_llk _ | PB_LALR, BD_lr _ | PB_GLR, BD_lr _ => True
  | _, _ => False
  end.

(** The data is an object of the back end with all of its blocks. The packrat
    parser has none, and does not look at what a failed compilation has left. *)
Definition data_ok (c : Compiled) : Prop :=
  c_backend c = PB_PACKRAT \/
  exists a d, c_data c = Some a /\ c_objects c !! a = Some d /\ kind_ok (c_backend c) d /\ object_blocks a d ⊆ c_live c.

(** Addresses were given out before. *)
Definition addresses_ok (c : Compiled) : Prop := forall a b, (a, b) ∈ c_live c -> (a < c_next c)%nat.

(** The regular back end is not left by a longjmp, which it reports as success. *)
Definition no_longjmp (fuel : nat) (b : HParserBackend) (c : Compiled) : Prop :=
  b = PB_REGULAR -> h_regex_compile realloc_ok (c_parsers c) fuel p <> Ok (0, None).

(** The states of a parser: new, and after each call of h_compile. *)
Inductive compiled_state : Compiled -> Prop :=
| compiled_new st h : compiled_state (mkCompiled PB_PACKRAT None ∅ ∅ 0 st h)
| compiled_again fuel nstates b params c ret c' :
    compiled_state c -> no_longjmp fuel b c ->
    h_compile__m fuel nstates b params c = Ok (ret, c') -> compiled_state c'.

(** What the object at [backend_data] occupies. *)
Definition owned_blocks (c : Compiled) : gset (nat * block) :=
  match c_data c with
  | Some a => match c_objects c !! a with Some d => object_blocks a d | None => ∅ end
  | None => ∅
  end.

(** A parser that was freed: a back end other than packrat has given back every
    block of its object, and nothing else, and the parser has no data any more. *)
Definition freed (c : Compiled) : Compiled :=
  match c_backend c with
  | PB_PACKRAT => c
  | _ => mkCompiled PB_PACKRAT None (c_objects c) (c_live c ∖ owned_blocks c) (c_next c) (c_parsers c) (c_choices c)
  end.

Lemma h_free_ok a b c : (a, b) ∈ c_live c ->
  h_free a b c = Ok (mkCompiled (c_backend c) (c_data c) (c_objects c) (c_live c ∖ {[(a, b)]}) (c_next c) (c_parsers c) (c_choices c)).
Proof. intros Hin. unfold h_free. by rewrite decide_True. Qed.

Lemma h_free_array_ok {A} a b (entries : list A) c : {[(a, b)]} ⊆ c_live c \/ entries = [] ->
  h_free_array a b entries c = Ok (mkCompiled (c_backend c) (c_data c) (c_objects c)
    (c_live c ∖ list_to_set (pair a <$> array_block b entries)) (c_next c) (c_parsers c) (c_choices c)).
Proof.
  intros Hin. destruct entries as [|x entries]; cbn [h_free_array array_block].
  - destruct c. simpl. by rewrite difference_empty_L.
  - destruct Hin as [Hin|]; [|done]. rewrite h_free_ok by set_solver. do 2 f_equal. set_solver.
Qed.

Lemma data_at_ok c a d : c_data c = Some a -> c_objects c !! a = Some d -> object_blocks a d ⊆ c_live c ->
  data_at c = Ok (a, d).
Proof. intros E Ed Hl. unfold data_at. rewrite E. cbn. rewrite Ed. cbn. by rewrite decide_True. Qed.

Lemma backend_free_ok c : data_ok c -> backend_free (c_backend c) c = Ok (freed c).
Proof.
  destruct (decide (c_backend c = PB_PACKRAT)) as [Hb|Hb].
  { intros _. unfold freed. rewrite Hb. destruct c. simpl in *. by subst. }
  intros [?|(a & d & Ea & Ed & Hk & Hl)]; [done|]. pose proof (data_at_ok c a d Ea Ed Hl) as Hat.
  unfold freed, owned_blocks. rewrite Ea, Ed. unfold object_blocks in *. destruct c as [b da obj live nx st h]. simpl in *. subst da.
  destruct b, d as [prog|table|table]; try done; cbn [backend_free].
  - unfold h_regex_free, prog_data. rewrite Hat. cbn [mbind outcome_bind]. cbn [blocks] in *.
    rewrite h_free_array_ok; cbn [mbind outcome_bind c_live].
    2: { destruct (pr_insns prog); [by right|left]. simpl in *. set_solver. }
    rewrite h_free_array_ok; cbn [mbind outcome_bind c_live].
    2: { destruct (pr_actions prog); [by right|left]. destruct (pr_insns prog); simpl in *; set_solver. }
    rewrite h_free_ok; cbn [mbind outcome_bind c_live].
    2: { rewrite !fmap_app in Hl. destruct (pr_insns prog), (pr_actions prog); simpl in *; set_solver. }
    unfold no_data, set_backend, set_backend_data. simpl. do 2 f_equal.
    rewrite !fmap_app, !list_to_set_app_L. simpl. set_solver.
  - unfold h_llk_free, h_llktable_free, llk_data. cbn [c_data]. rewrite Hat. cbn [mbind outcome_bind]. cbn in Hl.
    rewrite h_free_ok by set_solver. cbn [mbind outcome_bind]. rewrite h_free_ok by (cbn; set_solver).
    unfold no_data, set_backend, set_backend_data. simpl. do 2 f_equal. set_solver.
  - unfold h_lalr_free, h_lrtable_free, lr_data. rewrite Hat. cbn [mbind outcome_bind]. cbn in Hl.
    rewrite h_free_ok by set_solver. cbn [mbind outcome_bind]. rewrite h_free_ok by (cbn; set_solver).
    unfold no_data, set_backend, set_backend_data. simpl. do 2 f_equal. set_solver.
  - unfold h_glr_free, h_lalr_free, h_lrtable_free, lr_data. rewrite Hat. cbn [mbind outcome_bind]. cbn in Hl.
    rewrite h_free_ok by set_solver. cbn [mbind outcome_bind]. rewrite h_free_ok by (cbn; set_solver).
    unfold no_data, set_backend, set_backend_data. simpl. do 2 f_equal. set_solver.
Qed.

(** The codes that the compile functions return: success has a result, and a
    failure none. *)
Definition code_ok {A} (ret : Z) (d : option A) : Prop := ret = 0 /\ is_Some d \/ (ret = -1 \/ ret = 2) /\ d = None.

Lemma regex_code fuel st ret prog :
  h_regex_compile realloc_ok st fuel p = Ok (ret, prog) -> (ret, prog) <> (0, None) -> code_ok ret prog.
Proof.
  unfold h_regex_compile. intros ((valid, st') & _ & E)%outcome_bind_ok Hj.
  destruct (negb valid); [injection E as <- <-; by right; split; [left|]|].
  destruct (h_compile_regex _ _ _ _ _) as [[[] pr]|[]|]; try done.
  - apply outcome_bind_ok in E as ((b, pr') & _ & [= <- <-]). left. split; [done|by eexists].
  - injection E as <- <-. by right; split; [right|].
  - by injection E as <- <-.
Qed.

Lemma llk_code fuel params st h ret table st' h' :
  h_llk_compile fuel params p st h = Ok (ret, table, st', h') -> code_ok ret table.
Proof.
  unfold h_llk_compile. intros ([] & _ & E)%outcome_bind_ok.
  apply outcome_bind_ok in E as (((g, st1) & h1) & _ & E).
  destruct g as [g|]; [|injection E as <- <- <- <-; by right; split; [left|]].
  apply outcome_bind_ok in E as (((r & t) & g') & _ & E).
  destruct (r <? 0); injection E as <- <- <- <-; [by right; split; [left|]|left; split; [done|by eexists]].
Qed.

(** LALR leaves its table behind also when it has conflicts. *)
Lemma lalr_code fuel nstates st h ret table st' h' :
  h_lalr_compile addr fuel nstates p st h = Ok (ret, table, st', h') ->
  (ret = 0 \/ ret = -1) /\ (ret = 0 -> is_Some table).
Proof.
  unfold h_lalr_compile. intros ((valid, st1) & _ & E)%outcome_bind_ok.
  destruct valid; [|injection E as <- <- <- <-; by split; [right|]].
  apply outcome_bind_ok in E as (((c & st2) & h1) & _ & E). apply outcome_bind_ok in E as ((g & h2) & _ & E).
  apply outcome_bind_ok in E as ((dfa & h3) & _ & E). apply outcome_bind_ok in E as (t & _ & E).
  apply outcome_bind_ok in E as ((t' & h4) & _ & E). injection E as <- <- <- <-.
  split; [destruct (has_conflicts t'); auto|by eexists].
Qed.

Lemma glr_code fuel nstates st h ret table st' h' :
  h_glr_compile addr fuel nstates p st h = Ok (ret, table, st', h') -> code_ok ret table.
Proof.
  unfold h_glr_compile. intros ((valid, st1) & _ & E)%outcome_bind_ok.
  destruct valid; [|injection E as <- <- <- <-; by right; split; [left|]].
  apply outcome_bind_ok in E as ((((r, t), st2), h2) & E1 & [= <- <- <- <-]).
  apply lalr_code in E1 as [[-> | ->] Hs]; destruct t as [t|]; simpl.
  - left. split; [done|by eexists].
  - by destruct (Hs eq_refl).
  - left. split; [done|by eexists].
  - by right; split; [left|].
Qed.

(** What a compile function stores: an object of its kind on success, nothing on
    failure, except for the table of LALR; the packrat parser stores nothing. *)
Definition stores (b : HParserBackend) (ret : Z) (d : option backend_data_) : Prop :=
  match b with
  | PB_PACKRAT => ret = 0 /\ d = None
  | PB_LALR => (ret = 0 \/ ret = -1) /\ (ret = 0 -> is_Some d) /\ forall x, d = Some x -> kind_ok b x
  | _ => ret = 0 /\ (exists x, d = Some x /\ kind_ok b x) \/ (ret = -1 \/ ret = 2) /\ d = None
  end.

Lemma backend_compile_ok fuel nstates b params c ret c' :
  c_backend c = PB_PACKRAT -> no_longjmp fuel b c ->
  backend_compile fuel nstates b params c = Ok (ret, c') ->
  exists d, stores b ret d /\ c' = store_data d (set_graph (c_parsers c') (c_choices c') c).
Proof.
  assert (forall d st h c0, c_parsers (store_data d (set_graph st h c0)) = st /\
    c_choices (store_data d (set_graph st h c0)) = h) as Hst by (by intros [d|]).
  assert (forall c0, set_graph (c_parsers c0) (c_choices c0) c0 = c0) as Hsame by (by intros []).
  assert (forall d c0, c_parsers (store_data d c0) = c_parsers c0 /\ c_choices (store_data d c0) = c_choices c0)
    as Hst' by (by intros [d|]).
  intros Hb Hj. destruct b; cbn [backend_compile stores].
  - intros [= <- <-]. exists None. split; [done|]. destruct c. simpl in *. by subst.
  - unfold regex_compile. intros ((r, prog) & E & [= <- <-])%outcome_bind_ok. specialize (Hj eq_refl).
    exists (BD_prog <$> prog). destruct (Hst' (BD_prog <$> prog) c) as [-> ->]. rewrite Hsame. split; [|done].
    destruct (regex_code _ _ _ _ E) as [[-> [x ->]]|[Hr ->]]; [intros [= -> ->]; by apply Hj|left; split; [done|by eexists]|by right].
  - unfold llk_compile. intros ((((r, table), st), h) & E & [= <- <-])%outcome_bind_ok.
    exists (BD_llk <$> table). destruct (Hst (BD_llk <$> table) st h c) as [-> ->]. split; [|done].
    destruct (llk_code _ _ _ _ _ _ _ _ E) as [[-> [x ->]]|[Hr ->]]; [left; split; [done|by eexists]|by right].
  - unfold lalr_compile. intros ((((r, table), st), h) & E & [= <- <-])%outcome_bind_ok.
    exists (BD_lr <$> table). destruct (Hst (BD_lr <$> table) st h c) as [-> ->]. split; [|done].
    destruct (lalr_code _ _ _ _ _ _ _ _ E) as [Hr Hs]. split; [done|]. split.
    + intros H0. destruct (Hs H0) as [x ->]. by eexists.
    + destruct table; by intros ? [= <-].
  - unfold glr_compile. intros ((((r, table), st), h) & E & [= <- <-])%outcome_bind_ok.
    exists (BD_lr <$> table). destruct (Hst (BD_lr <$> table) st h c) as [-> ->]. split; [|done].
    destruct (glr_code _ _ _ _ _ _ _ _ E) as [[-> [x ->]]|[Hr ->]]; [left; split; [done|by eexists]|by right].
Qed.

Lemma stores_code b ret d : stores b ret d -> ret = 0 \/ ret = -1 \/ ret = 2.
Proof. destruct b; simpl; intuition. Qed.
Lemma stores_kind b d : stores b 0 d -> b = PB_PACKRAT \/ exists x, d = Some x /\ kind_ok b x.
Proof.
  destruct b; simpl; intros Hd; [by left|right..].
  1,2,4: by destruct Hd as [[_ Hx]|[[|] _]].
  destruct Hd as (_ & Hs & Hk). destruct (Hs eq_refl) as [x ->]. exists x. split; [done|by apply Hk].
Qed.

Lemma object_blocks_at a d a' b : (a', b) ∈ object_blocks a d -> a' = a.
Proof. unfold object_blocks. rewrite elem_of_list_to_set. by intros (x & [= -> ->] & _)%list_elem_of_fmap. Qed.

Lemma freed_addresses c : addresses_ok c -> addresses_ok (freed c).
Proof. unfold addresses_ok, freed. intros Ha a b. destruct (c_backend c); simpl; set_solver. Qed.

Lemma freed_backend c : c_backend (freed c) = PB_PACKRAT.
Proof. unfold freed. by destruct (c_backend c) eqn:E. Qed.

(** The parser after the call: the freed one with what the compile function stored. *)
Definition compiled_as (b : HParserBackend) (ret : Z) (d : option backend_data_) (c' c : Compiled) : Prop :=
  c' = set_backend (if ret =? 0 then b else PB_PACKRAT)
         (store_data d (set_graph (c_parsers c') (c_choices c') (freed c))).

Lemma compiled_as_data b d c' c x : stores b 0 d -> b <> PB_PACKRAT -> compiled_as b 0 d c' c -> d = Some x ->
  c_data c' = Some (c_next (freed c)) /\ c_objects c' !! c_next (freed c) = Some x /\
  object_blocks (c_next (freed c)) x ⊆ c_live c' /\ kind_ok b x.
Proof.
  intros Hs Hb Hc ->. destruct (stores_kind _ _ Hs) as [|(y & [= <-] & Hk)]; [done|].
  rewrite Hc. simpl. split_and!; [done|by rewrite lookup_insert_eq|set_solver|done].
Qed.

Lemma h_compile_step fuel nstates b params c ret c' :
  data_ok c -> no_longjmp fuel b c -> h_compile__m fuel nstates b params c = Ok (ret, c') ->
  exists d, stores b ret d /\ compiled_as b ret d c' c.
Proof.
  intros Hc Hj. unfold h_compile__m. rewrite (backend_free_ok c Hc). cbn [mbind outcome_bind].
  intros ((r, c1) & E & [= <- <-])%outcome_bind_ok.
  apply backend_compile_ok in E as (d & Hs & E); [|apply freed_backend|].
  - exists d. split; [done|]. unfold compiled_as. destruct (r =? 0).
    + change (c_parsers (set_backend b c1)) with (c_parsers c1).
      change (c_choices (set_backend b c1)) with (c_choices c1). by rewrite <- E.
    + rewrite <- E. assert (c_backend c1 = PB_PACKRAT) as Hb by (rewrite E; destruct d; apply freed_backend).
      clear E. destruct c1. simpl in *. by subst.
  - unfold no_longjmp. by replace (c_parsers (freed c)) with (c_parsers c) by (unfold freed; by destruct (c_backend c)).
Qed.

Lemma compiled_as_ok b ret d c' c :
  addresses_ok c -> stores b ret d -> compiled_as b ret d c' c -> data_ok c' /\ addresses_ok c'.
Proof.
  intros Ha%freed_addresses Hs Hc. split.
  - destruct (Z.eqb_spec ret 0) as [->|Hne]; [|left; rewrite Hc; rewrite (proj2 (Z.eqb_neq _ _) Hne); by destruct d].
    destruct (decide (b = PB_PACKRAT)) as [->|Hb]; [left; rewrite Hc; by destruct d|right].
    destruct (stores_kind _ _ Hs) as [|(x & -> & Hk)]; [done|].
    destruct (compiled_as_data _ _ _ _ _ Hs Hb Hc eq_refl) as (H1 & H2 & H3 & _).
    do 2 eexists. split_and!; [done..| |done]. by rewrite Hc.
  - rewrite Hc. unfold addresses_ok in *. destruct d as [x|]; simpl; [|done].
    intros a bl [Hl|Hl]%elem_of_union; [apply Ha in Hl; lia|apply object_blocks_at in Hl; lia].
Qed.

Lemma compiled_state_ok c : compiled_state c -> data_ok c /\ addresses_ok c.
Proof.
  induction 1 as [st h|fuel nstates b params c ret c' _ [IH IHa] Hj E].
  - split; [by left|]. intros a b. set_solver.
  - destruct (h_compile_step _ _ _ _ _ _ _ IH Hj E) as (d & Hs & Hc). by eapply compiled_as_ok.
Qed.

Lemma h_regex_compile_returns store a fuel :
  (forall n, realloc_ok n = true) -> store_wf store -> Forall (fun q => rvm_ok_env (p_env q)) store ->
  (a < length store)%nat -> (a < fuel)%nat -> exists ret prog, h_regex_compile realloc_ok store fuel (Some a) = Ok (ret, prog).
Proof.
  intros Hr Hst Hok Ha Hf. destruct (isValidRegular_answers store a fuel Hst Ha Hf) as [[] Hb].
  - destruct (h_regex_compile_memory realloc_ok store a fuel Hst Hok Ha Hf Hb)
      as (body & prog & _ & _ & _ & [[_ ->]|[[_ ->]|(_ & (k & _ & Hk) & _)]]); [by do 2 eexists..|].
    by rewrite Hr in Hk.
  - unfold h_regex_compile. rewrite Hb. by do 2 eexists.
Qed.

(** The parsers whose compilation is known to return: the packrat parser needs none;
    regular parsers when memory suffices; LL(k) for what desugars. *)
Definition compile_returns (fuel : nat) (b : HParserBackend) (params : option nat) (c : Compiled) : Prop :=
  match b with
  | PB_PACKRAT => True
  | PB_REGULAR => (forall n, realloc_ok n = true) /\ exists a, p = Some a /\ store_wf (c_parsers c) /\
      Forall (fun q => rvm_ok_env (p_env q)) (c_parsers c) /\ (a < length (c_parsers c))%nat /\ (a < fuel)%nat
  | PB_LLk => exists a, p = Some a /\ desugarable (c_parsers c) a /\ (a < fuel)%nat /\ grammar_wf (c_choices c) /\
      parsers_ok (length (c_choices c)) (c_parsers c) /\ memoised (c_parsers c) (c_parsers c) (c_choices c) (S a) /\
      (0 < default DEFAULT_KMAX params)%nat
  | PB_LALR | PB_GLR => False
  end.

(** No object of the back ends is lost: what is live is the parser's own. *)
Definition no_leak (c : Compiled) : Prop :=
  c_live c = owned_blocks c /\ (c_backend c = PB_PACKRAT -> c_data c = None).

Lemma no_leak_freed c : no_leak c -> c_live (freed c) = ∅.
Proof.
  intros [Hl Hp]. unfold freed. destruct (c_backend c) eqn:Eb; simpl; rewrite Hl; try set_solver.
  unfold owned_blocks. by rewrite Hp.
Qed.

Lemma compiled_no_leak b ret d c' c :
  no_leak c -> stores b ret d -> (ret = 0 \/ b <> PB_LALR) -> compiled_as b ret d c' c -> no_leak c'.
Proof.
  intros Hn Hs Hr Hc. pose proof (no_leak_freed c Hn) as Hl.
  assert (c_data (freed c) = None) as Hd.
  { destruct Hn as [_ Hp]. unfold freed. destruct (c_backend c) eqn:Eb; [by apply Hp|done..]. }
  assert (d = None /\ (ret <> 0 \/ b = PB_PACKRAT) \/ ret = 0 /\ b <> PB_PACKRAT /\ is_Some d) as Hcase.
  { destruct b; simpl in Hs.
    - left. destruct Hs. auto.
    - destruct Hs as [(-> & x & -> & _)|[Hr' ->]]; [right; eauto|left; split; [done|lia]].
    - destruct Hs as [(-> & x & -> & _)|[Hr' ->]]; [right; eauto|left; split; [done|lia]].
    - destruct Hr as [->|]; [|done]. destruct Hs as (_ & Hx & _). right. eauto.
    - destruct Hs as [(-> & x & -> & _)|[Hr' ->]]; [right; eauto|left; split; [done|lia]]. }
  rewrite Hc. destruct Hcase as [[-> _]|(-> & Hb & x & ->)].
  - split; [|by intros _]. unfold owned_blocks. simpl. by rewrite Hl, Hd.
  - split; [|by intros ?]. unfold owned_blocks. simpl. rewrite lookup_insert_eq, Hl. set_solver.
Qed.

(** C13: h_compile switches between the back ends safely. After any calls of it
    (none of them left the regular compiler by a longjmp) the next one first frees
    the parser without a fault: every block of the object at [backend_data], each
    once, and no other, and then the pointer is NULL and the back end packrat; a
    parser that is packrat already keeps memory and data as they are. Then the
    compile function runs on the freed parser, and a fault or lack of fuel is its
    own; compiling does return for packrat, for regular parsers and for parsers
    that desugar to LL(k). When it returns, the code is 0, -1 or 2; on success the
    parser has the back end that was asked for and, at an address that was never
    used, an object of the kind that this back end's parse function expects, which
    h_parse runs, all of its blocks live; after a failure it is the packrat parser,
    which parses as if nothing had been compiled. Memory is not lost, unless a LALR
    compilation fails (lalr_failure_leaks). *)
Theorem h_compile_spec c fuel nstates b params :
  compiled_state c -> no_longjmp fuel b c ->
  backend_free (c_backend c) c = Ok (freed c) /\
  (compile_returns fuel b params c -> exists ret c', h_compile__m fuel nstates b params c = Ok (ret, c')) /\
  match h_compile__m fuel nstates b params c with
  | Ok (ret, c') =>
      (ret = 0 \/ ret = -1 \/ ret = 2) /\
      (exists d, stores b ret d /\ compiled_as b ret d c' c) /\
      (forall bl, (c_next (freed c), bl) ∉ c_live (freed c)) /\
      (no_leak c -> ret = 0 \/ b <> PB_LALR -> no_leak c') /\
      (ret = 0 -> b <> PB_PACKRAT -> exists x, c_objects c' !! c_next (freed c) = Some x /\
        forall more lf input, h_parse__m more lf c' input =
          (let stream := input_stream 0 DEFAULT_ENDIANNESS input true in
           match b, x with
           | PB_REGULAR, BD_prog prog => h_rvm_run__m (c_parsers c') prog input memory1 memory2
           | PB_LLk, BD_llk table =>
               '(res, _) ← h_llk_parse (c_choices c') table uninit more stream; Ok res
           | PB_LALR, BD_lr table => h_lr_parse addr (c_choices c') table uninit more stream
           | PB_GLR, BD_lr table => h_glr_parse addr (c_choices c') table uninit more stream
           | _, _ => Fault OutOfBounds
           end)) /\
      (ret <> 0 \/ b = PB_PACKRAT -> forall more lf input,
        h_parse__m more lf c' input =
          ('(res, _) ← h_packrat_parse continuation lf more (c_parsers c') p
             (input_stream 0 DEFAULT_ENDIANNESS input true); Ok res))
  | Fault f => backend_compile fuel nstates b params (freed c) = Fault f
  | OutOfFuel => backend_compile fuel nstates b params (freed c) = OutOfFuel
  end.
Proof.
  intros [Hd Ha]%compiled_state_ok Hj. split; [by apply backend_free_ok|]. split.
  - unfold h_compile__m. rewrite (backend_free_ok c Hd). cbn [mbind outcome_bind].
    assert (c_parsers (freed c) = c_parsers c /\ c_choices (freed c) = c_choices c) as [Ep Ec]
      by (unfold freed; by destruct (c_backend c)).
    destruct b; cbn [compile_returns backend_compile]; [by do 2 eexists| | |done..].
    + intros (Hr & a & Hp & Hst & Hok & Hlen & Hf). unfold regex_compile. rewrite Ep, Hp.
      destruct (h_regex_compile_returns _ a fuel Hr Hst Hok Hlen Hf) as (ret & prog & ->). by do 2 eexists.
    + intros (a & Hp & Hda & Hf & Hh & Hst & Hm & Hk). unfold llk_compile. rewrite Ep, Ec, Hp.
      destruct (h_llk_compile_returns fuel params a _ _ uninit Hda Hf Hh Hst Hm Hk)
        as (ret & t & st' & h' & _ & _ & -> & _). by do 2 eexists.
  - destruct (h_compile__m _ _ _ _ _) as [[ret c']|f|] eqn:E.
    + destruct (h_compile_step _ _ _ _ _ _ _ Hd Hj E) as (d & Hs & Hc).
      split; [by eapply stores_code|]. split; [by eauto|]. split.
      { intros bl Hl%freed_addresses; [lia|done]. }
      split; [by intros Hn Hr; eapply compiled_no_leak|]. split.
      * intros -> Hb. destruct (stores_kind _ _ Hs) as [|(x & -> & Hk)]; [done|].
        destruct (compiled_as_data _ _ _ _ _ Hs Hb Hc eq_refl) as (H1 & H2 & H3 & _).
        exists x. split; [done|]. intros more lf input. unfold h_parse__m.
        assert (c_backend c' = b) as -> by (by rewrite Hc).
        pose proof (data_at_ok _ _ _ H1 H2 H3) as Hat.
        destruct b, x; try done; cbn [backend_parse]; unfold h_regex_parse, llk_parse, lr_parse, glr_parse,
          prog_data, llk_data, lr_data; by rewrite Hat.
      * intros Hr more lf input. unfold h_parse__m.
        assert (c_backend c' = PB_PACKRAT) as ->; [|done]. rewrite Hc.
        destruct Hr as [Hr|Hr]; [by rewrite (proj2 (Z.eqb_neq _ _) Hr); destruct d|]. subst b. by destruct (ret =? 0).
    + unfold h_compile__m in E. rewrite (backend_free_ok c Hd) in E. cbn [mbind outcome_bind] in E.
      by destruct (backend_compile _ _ _ _ _) as [[]|f'|].
    + unfold h_compile__m in E. rewrite (backend_free_ok c Hd) in E. cbn [mbind outcome_bind] in E.
      by destruct (backend_compile _ _ _ _ _) as [[]|f'|].
Qed.
End Backends.

(** * A parser that changes its back end *)

(** (a) | a, which is regular and ambiguous. *)
Definition two_as : PM ptr :=
  a ← h_ch__m 97; s ← h_sequence__mv a [None]; h_choice__mv s [a; None].
Definition two_as_store : list HParser :=
  match two_as initial_store with Ok (_, st) => st | _ => [] end.


Definition numbered (n : nat) : Z := Z.of_nat n.
Definition two_as_new : Compiled := mkCompiled PB_PACKRAT None ∅ ∅ 0 two_as_store [].

(** LALR fails on the ambiguity and leaves its table behind. *)
Definition compile_lalr : outcome (Z * Compiled) :=
  @h_compile__m insertion_order numbered (fun _ => true) (Some 3%nat) 20 20 PB_LALR None two_as_new.
Definition after_lalr : Compiled := match compile_lalr with Ok (_, c) => c | _ => two_as_new end.

Lemma compile_lalr_fails :
  @h_compile__m insertion_order numbered (fun _ => true) (Some 3%nat) 20 20 PB_LALR None two_as_new = Ok (-1, after_lalr).
Proof. vm_compute. reflexivity. Qed.

Lemma after_lalr_state : @compiled_state insertion_order numbered (fun _ => true) (Some 3%nat) after_lalr.
Proof.
  refine (@compiled_again insertion_order numbered (fun _ => true) (Some 3%nat) 20 20 PB_LALR None two_as_new (-1) after_lalr
    (compiled_new _ _ _ _ _) _ compile_lalr_fails). intros E. discriminate E.
Qed.

(** Then the regular back end succeeds, and accepts "a". *)
Definition compile_regular (realloc_ok : Z -> bool) : outcome (Z * Compiled) :=
  @h_compile__m insertion_order numbered realloc_ok (Some 3%nat) 20 20 PB_REGULAR None after_lalr.
Definition after_regular (realloc_ok : Z -> bool) : Compiled :=
  match compile_regular realloc_ok with Ok (_, c) => c | _ => two_as_new end.

Lemma compile_regular_ok :
  @h_compile__m insertion_order numbered (fun _ => true) (Some 3%nat) 20 20 PB_REGULAR None after_lalr =
  Ok (0, after_regular (fun _ => true)).
Proof. vm_compute. reflexivity. Qed.
Lemma compile_regular_no_longjmp : @no_longjmp (fun _ => true) (Some 3%nat) 20 PB_REGULAR after_lalr.
Proof. intros _. vm_compute. discriminate. Qed.

Lemma after_regular_state :
  @compiled_state insertion_order numbered (fun _ => true) (Some 3%nat) (after_regular (fun _ => true)).
Proof.
  exact (@compiled_again insertion_order numbered (fun _ => true) (Some 3%nat) 20 20 PB_REGULAR None after_lalr 0 _
    after_lalr_state compile_regular_no_longjmp compile_regular_ok).
Qed.

Lemma h_compile_spec_witness :
  exists c' d, compile_regular (fun _ => true) = Ok (0, c') /\ stores PB_REGULAR 0 d /\
    compiled_as PB_REGULAR 0 d c' after_lalr /\
    backend_free (c_backend c') c' = Ok (freed c').
Proof.
  pose proof (@h_compile_spec insertion_order numbered (fun _ => true) 0 [] [] (fun _ _ _ => throw NullDeref) (Some 3%nat)
    after_lalr 20 20 PB_REGULAR None after_lalr_state compile_regular_no_longjmp) as (_ & _ & H).
  rewrite compile_regular_ok in H. destruct H as (_ & (d & Hs & Hc) & _).
  exists (after_regular (fun _ => true)), d. split_and!; [exact compile_regular_ok|exact Hs|exact Hc|].
  refine (proj1 (@h_compile_spec insertion_order numbered (fun _ => true) 0 [] [] (fun _ _ _ => throw NullDeref) (Some 3%nat)
    (after_regular (fun _ => true)) 0 0 PB_PACKRAT None after_regular_state _)).
  intros E. discriminate E.
Defined.

(** The table of the failed LALR compilation is never freed: its address is lost
    when the next compilation stores its program, and freeing that program leaves
    the table's blocks. *)
Lemma lalr_failure_leaks :
  owned_blocks after_lalr = object_blocks 0 (BD_lr (mkLRTable 0 [] [] [] None [] [])) /\
  c_data (after_regular (fun _ => true)) = Some 1%nat /\
  c_live (freed (after_regular (fun _ => true))) = owned_blocks after_lalr.
Proof. split_and!; vm_compute; reflexivity. Qed.

(** Without memory the longjmp makes h_regex_compile return the code of success
    and store nothing: the parser now has the regular back end with the table that
    LALR left, and h_parse runs it as a program. *)
Lemma longjmp_keeps_stale_data :
  compile_regular (fun _ => false) = Ok (0, after_regular (fun _ => false)) /\
  c_backend (after_regular (fun _ => false)) = PB_REGULAR /\
  c_data (after_regular (fun _ => false)) = c_data after_lalr /\
  h_parse__m numbered 0 [] [] (fun _ _ _ => throw NullDeref) (Some 3%nat) 10 10 (after_regular (fun _ => false)) [97] =
    Fault OutOfBounds.
Proof. split_and!; vm_compute; reflexivity. Qed.
