(* ===== verification/GLRFacts.v ===== *)
(** The generalised driver on tables without conflicts: it does what the LR
    driver does. There is one engine at a time, which never forks, merges or
    demerges. *)

From S2P Require Import Prelude Stream Charset Token Parser Validity HashTable Desugar Grammar StringMap.
From S2P Require Import DesugarWf CfGrammar FirstSets LR LRDriver LRSound DFACheck LRTableFacts LR0 LALR.
From S2P Require Import LALRFacts GLR.

Section Single.
Context (addr : nat -> Z) (h : list HCFChoice) (table : HLRTable) (uninit : Z).

(** No row leads to a conflict. *)
Record conflict_free : Prop := {
  cf_terminal : forall s m w a act, lt_tmap table !! s = Some m -> sm_lookup w m = Some (V_action a) ->
    lt_actions table !! a = Some act -> is_conflict act = false;
  cf_forall : forall s a act, lt_forall table !! s = Some (Some a) -> lt_actions table !! a = Some act ->
    is_conflict act = false;
}.
Hypothesis Hfree : conflict_free.

Lemma lookahead_value fuel : forall m la v,
  get_lookahead_loop [] fuel m la = Ok (LA_value v) -> exists w, sm_lookup w m = Some v.
Proof.
  induction fuel as [|fuel IH]; intros m la v H; [done|]. cbn [get_lookahead_loop] in H.
  apply outcome_bind_ok in H as ([] & _ & H).
  destruct (sm_epsilon_branch m) as [e|] eqn:Ee; [exists []; simpl; congruence|].
  apply outcome_bind_ok in H as ([c la1] & _ & H). destruct (is_overrun la1).
  - destruct (is_last_chunk la1); [|done]. exists [Sym_end]. simpl.
    destruct (sm_end_branch m); by simplify_eq/=.
  - destruct (h_stringmap_get_char m (uint8 c)) as [n|] eqn:En; [|done].
    destruct (IH _ _ _ H) as [w Hw]. exists (Sym (uint8 c) :: w). simpl.
    rewrite decide_True by (apply Z.mod_pos_bound; lia). by rewrite En.
Qed.

Lemma action_conflict_free e act :
  h_lrengine_action table e = Ok (LL_action act) -> is_conflict act = false.
Proof.
  unfold h_lrengine_action, terminal_lookup. intros H. apply outcome_bind_ok in H as (s & _ & H).
  apply outcome_bind_ok in H as (f & Hf%deref_ok & H). destruct f as [a|].
  - apply outcome_bind_ok in H as (b & _ & H). apply outcome_bind_ok in H as (u & _ & H).
    apply outcome_bind_ok in H as (act' & Ha%deref_ok & H). simplify_eq. by eapply cf_forall.
  - apply outcome_bind_ok in H as (m & Hm%deref_ok & H). apply outcome_bind_ok in H as (la & Hla & H).
    destruct la as [|[| | |a]|]; try done. apply outcome_bind_ok in H as (act' & Ha%deref_ok & H).
    simplify_eq. apply lookahead_value in Hla as [w Hw]. by eapply cf_terminal.
Qed.

(** The state with the engine [x] at [e], which is not merged. *)
Definition single (g : glr_state) (e : nat) (x : HLREngine) : Prop :=
  gs_heap g !! e = Some (mkGLREngine x None) /\ gs_result g = None.

Lemma glr_step_single fuel g e x action :
  single g e x -> gs_engines g = [] -> (forall act, action = Some act -> is_conflict act = false) ->
  glr_step addr h table uninit (S fuel) e action g =
  ('(x', run) ← h_lrengine_step addr h table uninit x action;
   let heap := <[e := mkGLREngine x' None]> (gs_heap g) in
   if run : bool then Ok (true, mkGlrState heap [e] None)
   else r ← h_lrengine_result x'; Ok (false, mkGlrState heap [] r)).
Proof.
  intros [He Hr] Hl Ha. cbn [glr_step].
  assert ((match action with
    | Some (HLR_CONFLICT branches) =>
        '(act, g) ← handle_conflict table (glr_step addr h table uninit fuel) e branches g;
        Ok (e, Some act, g)
    | Some (HLR_REDUCE _ depth _) =>
        '(e0, g) ← demerge (glr_step addr h table uninit fuel) (S fuel) e action depth g; Ok (e0, action, g)
    | _ => Ok (e, action, g)
    end) = Ok (e, action, g)) as ->.
  { destruct action as [[| |branches]|]; try done; [|by specialize (Ha _ eq_refl)].
    cbn [demerge]. unfold engine_at. by rewrite He. }
  cbn [mbind outcome_bind]. unfold step_engine, engine_at. rewrite He. cbn [deref mbind outcome_bind ge_engine].
  destruct (h_lrengine_step addr h table uninit x action) as [[x' run]|f|]; [|done..].
  cbn [mbind outcome_bind ge_merged]. unfold store_engine, engine_at, set_engine. cbn [gs_heap gs_engines].
  rewrite list_lookup_insert_eq by by eapply lookup_lt_Some.
  cbn [deref mbind outcome_bind ge_engine]. rewrite Hl. destruct run; [by rewrite Hr|].
  unfold h_lrengine_result. destruct (en_state x') eqn:Es; [|done]. by rewrite Hr.
Qed.

Lemma glr_loop_single fuel : forall g e x,
  single g e x -> gs_engines g = [e] ->
  glr_loop addr h table uninit fuel g = (x' ← lr_loop addr h table uninit fuel x; h_lrengine_result x').
Proof.
  induction fuel as [|fuel IH]; intros g e x Hs Hl; pose proof Hs as [He Hr]; cbn [glr_loop lr_loop];
    rewrite Hr, Hl; [done|].
  cbn [step_engines]. change (engine_at (set_engines [] g) e) with (engine_at g e).
  unfold engine_at. rewrite He. cbn [deref mbind outcome_bind ge_engine].
  destruct (h_lrengine_action table x) as [l|f|] eqn:El; [|done..]. cbn [mbind outcome_bind].
  unfold lr_round. destruct (lookup_action l) as [action|f|] eqn:Ea; [|done..]. cbn [mbind outcome_bind].
  rewrite (glr_step_single fuel (set_engines [] g) e x action); [|done|done|].
  - destruct (h_lrengine_step addr h table uninit x action) as [[x' run]|f|]; [|done..].
    cbn [mbind outcome_bind set_engines gs_heap]. destruct run; cbn [mbind outcome_bind].
    + apply (IH _ e); [|done]. split; [|done]. simpl. apply list_lookup_insert_eq. by eapply lookup_lt_Some.
    + destruct (h_lrengine_result x') as [r|f|]; [|done..]. cbn [mbind outcome_bind].
      by destruct fuel, r.
  - intros act ->. destruct l; simplify_eq/=. by eapply action_conflict_free.
Qed.

Lemma h_glr_parse_single fuel stream :
  h_glr_parse addr h table uninit fuel stream = h_lr_parse addr h table uninit fuel stream.
Proof. by apply (glr_loop_single fuel _ 0 (h_lrengine_new stream)). Qed.

End Single.

(** A table that the driver can rely on has no conflicts. *)
Lemma lr_table_conflict_free h start edge items table :
  lr_table_ok h start edge items table -> conflict_free table.
Proof.
  intros Ht. split.
  - intros s m w a act Hm Hw Ha. destruct (tk_terminal _ _ _ _ _ Ht _ _ _ _ Hm Hw) as (y & a' & _ & [= <-] & Hok).
    rewrite Ha in Hok. by destruct act as [[|]| |].
  - intros s a act Hf Ha. destruct (tk_row _ _ _ _ _ Ht _ _ Hf) as ((lhs & len & rhs & E & _) & _).
    rewrite Ha in E. by injection E as ->.
Qed.

(** The two drivers give the same on a table. *)
Definition parses_alike (addr : nat -> Z) (h : list HCFChoice) (table : HLRTable) (uninit : Z) : Prop :=
  forall more stream, h_glr_parse addr h table uninit more stream = h_lr_parse addr h table uninit more stream.

(** C11: on a grammar that LALR accepts, the generalised back end is the LALR back
    end: h_glr_compile returns the same table, and if the automaton passes its check
    then h_glr_parse gives on every input and at every bound what h_lr_parse
    gives, faults and exhausted bounds included. *)
Theorem h_glr_parse_is_lr `{IterationOrder} addr uninit fuel nstates p st h table st' h' :
  heap_ok h -> parsers_ok (length h) st -> isValidCF fuel p st = Ok (true, st) ->
  h_lalr_compile addr fuel nstates p st h = Ok (0, Some table, st', h') ->
  h_glr_compile addr fuel nstates p st h = Ok (0, Some table, st', h') /\
  exists c h0 g start h1 dfa h2,
    h_desugar_augmented fuel p st h = Ok (c, st', h0) /\ h_cfgrammar_ 0 h0 c = Ok (g, h1) /\
    g_start g = Some start /\ h_lr0_dfa addr nstates g h1 = Ok (dfa, h2) /\
    (none_freed h0 = true -> dfa_check h2 start dfa = true ->
     parses_alike addr h' table uninit).
Proof.
  intros Hh Hst Hv Hcomp. split.
  { unfold h_glr_compile. rewrite Hv. cbn [mbind outcome_bind]. by rewrite Hcomp. }
  destruct (h_lalr_compiled _ _ _ _ _ _ _ _ _ Hh Hst Hv Hcomp)
    as (c & h0 & g & start & h1 & dfa & h2 & E0 & E1 & Eg & E2 & _ & Hready).
  exists c, h0, g, start, h1, dfa, h2. split_and!; try done. intros Hfree Hcheck more stream.
  destruct (Hready Hfree Hcheck) as (_ & Ht & _).
  by eapply h_glr_parse_single, lr_table_conflict_free.
Qed.

Lemma h_glr_parse_is_lr_witness :
  exists table st' h' r,
    @h_glr_compile insertion_order aligned 20 20 (Some 1%nat) arithmetic_store [] = Ok (0, Some table, st', h') /\
    h_glr_parse aligned h' table 0 50 arithmetic_input = Ok (Some r) /\ bit_length r = 40 /\
    forall more stream,
      h_glr_parse aligned h' table 0 more stream = h_lr_parse aligned h' table 0 more stream.
Proof.
  assert (exists table st' h' r,
    @h_lalr_compile insertion_order aligned 20 20 (Some 1%nat) arithmetic_store [] = Ok (0, Some table, st', h') /\
    h_lr_parse aligned h' table 0 50 arithmetic_input = Ok (Some r) /\ bit_length r = 40)
    as (table & st' & h' & r & E & Er & Hr).
  { do 4 eexists. split; [vm_compute; reflexivity|]. split; vm_compute; reflexivity. }
  destruct (@h_glr_parse_is_lr insertion_order aligned 0 20 20 (Some 1%nat) arithmetic_store [] table st' h')
    as (Eg & c & h0 & g & start & h1 & dfa & h2 & E0 & E1 & Es & E2 & Hp);
    [constructor|apply arithmetic_parsers_ok|vm_compute; reflexivity|exact E|].
  assert (none_freed h0 = true /\ dfa_check h2 start dfa = true) as [Hf Hc].
  { clear Hp. vm_compute in E0. injection E0 as <- _ <-. vm_compute in E1. injection E1 as <- <-.
    vm_compute in Es. injection Es as <-. vm_compute in E2. injection E2 as <- <-. clear.
    split; vm_compute; reflexivity. }
  exists table, st', h', r. split; [exact Eg|]. rewrite (Hp Hf Hc). split; [exact Er|]. split; [exact Hr|].
  exact (Hp Hf Hc).
Defined.
