(* ===== verification/LRDefects.v ===== *)
(** Grammars on which the LALR and GLR back ends do not do what they are meant
    to do. Each is a small grammar, compiled and run. *)

From S2P Require Import Prelude Stream Charset CArray Token Parser Desugar Grammar StringMap.
From S2P Require Import CfGrammar FirstSets LLkTable LLk LR LRDriver LR0 LALR LALRFacts GLR.

Definition whole_input (inp : list Z) : HInputStream :=
  mkStream inp 0 0 (Z.of_nat (length inp)) 0 0 0 false true.

(** A parser compiled with a back end and run on an input: the code and the result. *)
Definition glr_run (m : PM ptr) (inp : list Z) : outcome (Z * option HParseResult) :=
  '(p, st) ← m initial_store;
  '(r, t, _, h) ← @h_glr_compile insertion_order aligned 20 100 p st [];
  t ← deref NullDeref t;
  x ← h_glr_parse aligned h t 0 100 (whole_input inp);
  Ok (r, x).
Definition lalr_code (m : PM ptr) : outcome Z :=
  '(p, st) ← m initial_store;
  '(r, _, _, _) ← @h_lalr_compile insertion_order aligned 20 100 p st [];
  Ok r.

Definition augmented_of (m : PM ptr) : outcome (nat * list HCFChoice) :=
  '(p, st) ← m initial_store; '(c, _, h) ← h_desugar_augmented 20 p st []; Ok (c, h).

(** * Merged engines *)

(** z X c l with the ambiguous X -> (a) | (a). *)
Definition ambiguous (last : Z) : PM ptr :=
  z ← h_ch__m 122; a ← h_ch__m 97; c ← h_ch__m 99; l ← h_ch__m last;
  a1 ← h_choice__mv a [None]; a2 ← h_sequence__mv a [None]; x ← h_choice__mv a1 [a2; None];
  t ← h_sequence__mv z [x; c; None]; h_sequence__mv t [l; None].

(** C36: the generalised driver is not correct on ambiguous grammars. When two
    engines that were merged are separated again on a reduction, the walk down
    the stack counts one node for each symbol, where a symbol takes two, and the
    separated engines go on with the input as it was when they were merged. With
    an ambiguous X in the middle of a sentence, a sentence is rejected, and a
    proper prefix of the sentences is accepted by reading its last character twice. *)
Theorem glr_merge_wrong :
  (exists c h, augmented_of (ambiguous 100) = Ok (c, h) /\
     derives h c [Sym 122; Sym 97; Sym 99; Sym 100] /\
     glr_run (ambiguous 100) [122; 97; 99; 100] = Ok (0, None)) /\
  (exists c h r, augmented_of (ambiguous 99) = Ok (c, h) /\
     ~ derives h c [Sym 122; Sym 97; Sym 99] /\
     glr_run (ambiguous 99) [122; 97; 99] = Ok (0, Some r) /\ bit_length r = 24).
Proof.
  split.
  - do 2 eexists. split; [vm_compute; reflexivity|]. split; [|vm_compute; reflexivity].
    eapply derives_choice; [done..|apply list_elem_of_here|]. apply derives_one.
    eapply derives_choice; [done..|apply list_elem_of_here|].
    apply (derives_cons _ _ _ [Sym 122; Sym 97; Sym 99] [Sym 100]);
      [|apply derives_one; by eapply derives_char].
    eapply derives_choice; [done..|apply list_elem_of_here|].
    apply (derives_cons _ _ _ [Sym 122] [Sym 97; Sym 99]); [by eapply derives_char|].
    apply (derives_cons _ _ _ [Sym 97] [Sym 99]); [|apply derives_one; by eapply derives_char].
    eapply derives_choice; [done..|apply list_elem_of_here|]. apply derives_one.
    eapply derives_choice; [done..|apply list_elem_of_here|]. apply derives_one. by eapply derives_char.
  - do 3 eexists. split; [vm_compute; reflexivity|]. split; [|split; [vm_compute; reflexivity|done]].
    intros H. derives_cases; done.
Qed.

(** * Choices shared by two back ends *)

Definition digit : PM ptr := h_ch_range__m 97 98.

(** [p] is compiled with LALR and then with LL(k), or with LL(k) alone; the
    choices of the first grammar are memoised in the parsers. *)
Definition llk_after (lalr : bool) (inp : list Z) : outcome (Z * option HParseResult) :=
  '(p, st) ← digit initial_store;
  '(st, h) ← (if lalr then
                '(_, _, st, h) ← @h_lalr_compile insertion_order aligned 20 100 p st []; Ok (st, h)
              else Ok (st, []));
  '(r, t, st, h) ← @h_llk_compile insertion_order 20 (Some 1%nat) p st h;
  t ← deref NullDeref t;
  '(x, _) ← h_llk_parse h t 0 50 (whole_input inp);
  Ok (r, x).

(** Building the LR(0) automaton sets the reshape function of the charsets
    of the grammar, which are shared: a parser for one character that was compiled with
    LALR aborts when it is then compiled with LL(k) and run, because the LL(k)
    driver calls h_act_first on the character. With LL(k) alone it parses. *)
Theorem lalr_breaks_llk :
  llk_after true [97] = Fault AssertFail /\
  exists r, llk_after false [97] = Ok (0, Some r) /\ bit_length r = 8.
Proof. split; [vm_compute; reflexivity|]. eexists. split; [vm_compute; reflexivity|done]. Qed.

(** * Conflicts that abort *)

(** The optional element before a parser that never succeeds. *)
Definition empty_follow : PM ptr :=
  a ← h_ch__m 97; o ← h_optional__m a; n ← h_nothing_p__m; h_sequence__mv o [n; None].
(** E -> E E | [ab] | [lo-hi] *)
Definition two_charsets (lo hi : Z) : PM ptr :=
  e ← h_indirect__m; a ← h_ch_range__m 97 98; b ← h_ch_range__m lo hi;
  s ← h_sequence__mv e [e; None]; c ← h_choice__mv s [a; b; None];
  _ ← h_bind_indirect e c; mret e.

(** h_lalr_compile, whose code for a grammar that is not LALR is -1, aborts
    instead when a reduction has no lookahead, as before [h_nothing_p], and when
    two charsets overlap, since the conflict of their characters is not a shift
    to follow. With disjoint charsets the same ambiguous grammar gives -1. *)
Theorem h_lalr_compile_aborts :
  lalr_code empty_follow = Fault AssertFail /\
  lalr_code (two_charsets 98 99) = Fault AssertFail /\
  lalr_code (two_charsets 99 100) = Ok (-1).
Proof. split_and!; vm_compute; reflexivity. Qed.
